(* ===== verification/_CoqProject ===== *)
-Q . S2P
Prelude.v
GoFloat.v
GoStrconv.v
GoTime.v
GoJson.v
GoBase64.v
Value.v
Query.v
Store.v
Disk.v
GoStrings.v
GoDuration.v
Segment.v
Index.v
SecIndex.v
TopK.v
Meta.v
Collection.v
Steps.v
Clock.v
CollectionSpec.v
Scan.v
ScanSpec.v
Paging.v
IndexInv.v
Aggregate.v
Open.v
OpenSpec.v
Compactor.v
CompactorSpec.v
SwapRecovery.v
TxManager.v
TxSpec.v
Watch.v
KeysSpec.v
LoadJsonl.v
CompactorFiles.v
Broker.v
Replica.v
Database.v
DatabaseSpec.v
Cluster.v
Snapshot.v
SnapshotSpec.v
BootstrapSpec.v
RegistrySpec.v
Crypto.v
Encryption.v
EncryptionSpec.v
EncryptionAdmin.v
Facade.v
Auth.v
AuditLog.v
ServerConfig.v
Serve.v
Grpc.v
GrpcSpec.v
AuditSpec.v
SnapshotRpc.v
Cli.v
CliSpec.v
BackupSpec.v
