(* ===== verification/Prelude.v ===== *)
(** * ScrivaDB: a verification of the storage engine, its server and its client

    ScrivaDB keeps collections of JSON records in append-only segment files.  This
    library models the engine (package engine, with store, query and crypto), the
    server in front of it and the command-line client as executable Rocq functions
    and proves what they promise: records survive the trip through the files,
    crashes lose nothing that was acknowledged, indexes agree with the data,
    compaction and transactions act as their specifications say, followers converge
    to their leader, calls are screened as configured, backups restore.  Each theorem
    states the conditions it needs; where the code does not keep a promise outside
    them, a theorem exhibits the run that breaks it.

    ** The program and the files that model it

    - Prelude (this file): byte strings, errors as a [result] type, machine-width
      arithmetic, key-ordered maps, shared tactics and hints.
    - GoFloat, GoStrconv, GoTime, GoJson, GoBase64, GoStrings, GoDuration: what the
      sources use of Go and its standard library: IEEE-754 doubles with shortest
      printing, [strconv]'s float syntax and [sort.Search], RFC 3339 times,
      [encoding/json] printing and parsing and unpadded URL-safe base64, with their
      round trips; white space; durations.
    - Value: the [any] values of a record, their JSON and [fmt] renderings, and
      the normal form ([norm]: integers become floats) they have after a round
      trip.
    - Query: query/filter.go, the filters and [Compare].  The regular-expression
      engine is a parameter ([Regexp]).
    - Store: store/ndjson.go, entries, CRC-32C checksum, [Encode] and [Decode].
    - Disk: the file system as a map from paths to bytes beside a list of outcomes
      for the coming system calls (a write may fail and leave any prefix), the
      clock and a source of fresh random values; the error monad [SE] over it; and
      engine/fsync.go and fsync_unix.go.
    - Segment: engine/segment.go, appending, reading, scanning and the recovery of
      a torn last line.
    - Index: engine/index.go, the primary index with its checksummed file and its
      reconstruction.  SHA-256 is a parameter ([Sha256]): a function of the bytes.
    - SecIndex: engine/secondary_index.go, secondary indexes with equality and
      range lookups, uniqueness, persistence and reconstruction.
    - Collection: engine/collection.go with meta.go, ttl.go, quota.go, keys.go and
      [Exists] of count.go: configuration, watchers, the write path, rotation,
      reads, index management, keyed access, compare-and-swap, [CommitTx], the
      reaper and shutdown.  The collection uses encryption through an interface
      (the record [encryptor]), which Encryption implements ([as_encryptor]).
    - CollectionSpec: the abstract table of records, the representation invariant
      [coll_inv] and the refinement of insert, update, delete and get.
    - TopK: the bounded heap of engine/scan.go with container/heap and
      sort.SliceStable.  Scan: the rest of engine/scan.go and [Count] of count.go:
      streaming by segments or index, order, projection, page tokens.  ScanSpec:
      what scans return; Paging: following page tokens; IndexInv: the secondary
      indexes in every reachable state, and [Count].  Aggregate:
      engine/aggregate.go and its reference.
    - Open: engine/compact_manifest.go and the opening of a collection.
      OpenSpec: recovery after a crash and after a clean shutdown.
    - Compactor: engine/compactor.go.  CompactorSpec: compaction keeps the table.
      SwapRecovery: a compaction stopped in the middle of its swap.  CompactorFiles:
      the files a compaction and a bulk load touch.
    - TxManager: engine/txmanager.go and the transaction handlers of
      server/grpc.go.  TxSpec: [CommitTx] against its specification.
    - Watch: a subscription as a state machine.  KeysSpec: conditional updates.
      LoadJsonl: engine/loadjsonl.go, bulk loading.
    - Steps: tactics that walk through the steps of an operation, to show that it
      leaves a component of the collection or the files outside its directory alone;
      Clock: the clock among them.
    - Broker: the replication broker of engine/replication.go, its ring and its
      subscribers.  Replica: [applyEntry] of replication.go and the wire form of
      entries in server/grpc.go (protocol-buffer structures are a parameter,
      [Protobuf] with [ProtobufLaws]).  Database: engine/db.go, the database half
      of replication.go (positions, roles, promotion) and the follower of
      server/replication.go.  DatabaseSpec: opening a fresh collection, isolation
      of collections, a follower over the whole feed, positions.  Cluster: leader,
      feed and follower together, and reconnection.  RegistrySpec: the registry in
      every reachable state.
    - Snapshot: engine/snapshot.go and the bootstrap of a follower
      (server/replication.go, cmd/scriva/main.go).  The archive is written through an
      interface ([ArchiveWriter]) with two implementations, a peer that takes files
      and the compressed stream of SnapshotRpc; its format is a parameter ([Archive]
      with [ArchiveLaws]).  SnapshotSpec: unpacking and restoring.  BootstrapSpec: a
      follower that starts from a snapshot of a leader at work.
    - Meta: the encryption settings in meta.json (engine/meta.go).  Crypto:
      envelopes, keyrings and key checks of package crypto; the AEAD is a parameter
      ([AEAD], with its laws [AEADLaws]) and the random nonce an argument.
      Encryption: engine/encryption.go over the state of a key provider.
      EncryptionSpec: what is stored and read back.  EncryptionAdmin:
      engine/encryption_admin.go and the initialisation of encryption on opening.
      Facade: scriva.go and encryption.go, the options of an embedded database, with
      engine/encryption_kdf.go and crypto/kdf.go; Argon2 is a parameter.
    - Auth: internal/auth (keys, scopes, allow-lists, certificates),
      server/readonly.go and server/limits.go; the token bucket is a parameter
      ([RateLimiter]).  AuditLog: server/audit.go.
    - ServerConfig: server/config.go, server/tls.go, internal/envkey, the validation
      of server/logging.go and the flags of cmd/scriva/main.go; YAML and certificates
      are parameters ([Yaml], [X509]).  Serve: what the server builds from its
      configuration, the chain of interceptors of a call, the reload of keys.
    - Grpc: the request handlers of server/grpc.go over the database and the
      transaction registry; a stream is a sink that may stop taking messages.
      GrpcSpec: requests on a replica and on unknown collections, the pages of
      [Find], records with a time to live.  AuditSpec: the audit log around the
      handlers.  SnapshotRpc: the Snapshot handler with
      its buffer; how the compressor cuts its output is a parameter ([Gzip]).
    - Cli: cmd/scriva-cli, the lines of the REPL and of scripts, connections, the
      requests of the commands, filters, backup, export and import.  CliSpec: filters,
      export and import, documented sessions.  BackupSpec: backups.

    ** How the code is translated

    A Go method that changes an object is a function from the object and the world
    to a [result] and the new pair; its early returns are the [Err] cases, with the
    state as the code leaves it.  Each operation runs as one step, as the
    collection's locks make it; where the code releases its lock in the middle
    ([compact], the commit handler) the parts are separate definitions, so that
    theorems can interleave other operations.  The clock does not advance within
    an operation.  Maps are [gmap]; the order in which [range] visits a map is
    fixed only where it cannot be observed (or decides only which of several
    errors is reported), and is a parameter with its law ([RangeOrder],
    [GroupOrder]) in compaction and aggregation, where it can.  A collection
    publishes what it commits into an outbox; the registry hands the outbox to the
    broker when the operation ends.  The database's state is its handle beside a
    host: the files and the sub-directories of the data directory.  Paths are
    literal joins, so the registry's theorems are about collection names that are
    one path element ([plain_name]).  Ids, revisions and epochs are
    64-bit unsigned integers with wrap-around ([u64_add]); offsets, sizes and
    deadlines are integers with their int64 conversions where the code converts.
    A file handle is its path: a file that is replaced while it is open is not
    modelled.

    A closure that shares variables with its caller (the visitors of a scan) is a
    function over a state that holds them; a context is the number of polls after
    which it is cancelled.

    Fuel: the backwards search of a segment's recovery takes as many steps as the
    file has chunks, and its theorem states the result; the printing of decimal
    digits takes the bit length of the number; sifting in the heap takes at most
    as many steps as there are elements; the tokens of a line and the values of an
    import take as many steps as there are bytes, of which each takes at least one; the client loop of [paging_complete] takes
    one step per page and the theorem bounds the pages by the rows; every other
    recursion is structural.

    ** What the theorems show

    Codec (Store): decoding an encoded entry gives it back; a changed byte of the
    payload is detected.  Atomic writes (Disk): under any faults the target holds
    the old bytes or the new ones.  Segments: recovery keeps exactly the complete
    lines, an appended entry is read back at its offset, a torn append is undone by
    recovery.  Primary index (Index): round trip through
    its file; reconstruction points each id at its last write.  Secondary indexes
    (SecIndex): every operation keeps the representation of the field's values,
    lookups and range lookups return exactly the matching ids where the code's own
    conditions hold, the uniqueness check is exact.  Collections: insert, update,
    delete, get, commit (up to the first operation too large for a line) and
    conditional update refine the table, for data a line can hold; crash and restart
    keep it; compaction changes no read, with secondary indexes too, and when it is
    stopped anywhere in its swap the next opening completes it.  Queries: [Compare] is a total preorder on
    the values of one kind.  Watch: no event is lost without a sentinel.
    Scans: unordered and ordered scans emit exactly the requested window of the
    matching live records, by index or by segments; the bounded heap agrees with a
    full sort; following page tokens ends and visits every matching record once;
    every reachable state has exact secondary indexes; counting agrees with
    scanning; aggregation agrees with a reference that collects groups first.
    Encryption: sealed records are read back under later policies and keys, opaque
    fields never reach the disk in the clear, accepted filters see the same values
    in the stored form, projections decrypt only what they return, migration keeps
    records, rotation keeps old values readable while no key id is given another key,
    administration keeps the settings consistent while the key provider gains and
    promotes keys, and they survive a restart.  Authorisation: a call is let through
    exactly for the principals its credentials resolve to, confined keys never
    reach a handler outside their scope, load and rate limits hold under any
    sequence of calls.  Replication: the feed has no silent gaps under any
    interleaving of publishing, subscribing and reading; a follower that holds the
    leader's records as of any moment after its position ends with the leader's
    records, over the wire and across broken connections; operations on one
    collection, compactions and bulk loads included, leave the others' state and
    files alone; promotion refuses stale
    followers and numbers new entries above what was applied; positions survive a
    clean restart.  Registry: a database that opens holds its collections in the
    directories of their names, in every reachable state and under any faults.
    Snapshots: unpacking stays in the data directory whatever an archive holds; a
    follower that bootstraps while the leader writes converges to it.  Bulk loading:
    the printed form of records loads as these records.  Facade: a passphrase opens
    again what it opened before.  Handlers: no request but a promotion or a snapshot
    changes the data of a replica, and a snapshot only refreshes the files of
    secondary indexes; requests on unknown collections change nothing, a paged
    [Find] sends the rows of its page with the token on the last one, a record with
    a time to live is read until its deadline.  Server: a call reaches its handler
    only past the keys, scopes, allow-lists, read-only guard and limits of the
    configuration; every request whose handler changes the data, and every refusal,
    is in the audit log; the key of the start survives every reload.  Client: the text of a filter means the filter it
    spells, an export can be imported, and a backup that reports success restores
    the database, whichever system calls failed on either side.

    The scenario theorems evaluate the model on runs in which the code does not do
    what it documents: a stale index file accepted after a crash, ids assigned
    twice after a failed metadata write, compaction overwriting the active segment,
    dropping a segment sealed during the pass, or reviving deleted records from
    leftover files, a commit applied in part, an operation staged during a commit
    and lost, an upsert of an expired key, a torn append followed by another, an
    empty record and a large integer that cannot be read back, index lookups that
    miss equal numbers, a cycle in [Compare], expired records that are counted and
    not scanned, a caller's field dropped when sealing is off, a keyring promotion
    that locks collections out, a key id given another key, a read error that ends
    in a panic of the index's reconstruction, encryption lost with meta.json, a confined key
    that drops another collection, a leader that forgets its sequence numbers in a
    crash and hides writes from its followers, a dropped and remade collection that
    diverges on followers, a forced promotion that reuses sequence numbers, a
    bootstrap that broke off and is taken for data, a passphrase that no longer
    opens a collection, an API key of the environment that a configuration file
    switches off, a REPL that drops the certificate it was given, an export with
    keys that cannot be imported.

    ** Not modelled

    The registry opens collections without an encryption policy, and handles a
    caller keeps of a collection that was dropped or reopened are not followed.  Of
    the server process: listening, the sequence of shutdown, and what surrounds a
    call without changing its result or the store (tracing, metrics, request
    logging).  The REST gateway with its watch stream, the probes and the health
    service (server/rest.go, watch_rest.go, health.go) hand requests to libraries and
    generated code.  Of the client: line editing, the parsing of flags, and what
    commands other than find and export print.  Third-party libraries (YAML, TLS,
    protocol buffers, tar and gzip, AEAD, Argon2, rate limiting, regular
    expressions) are parameters with the laws the code relies on.  Generated
    protocol code, the client libraries in other languages, the web site, the
    examples and the directory sync of another platform hold no logic of the
    store. *)

From stdpp Require Export base gmap strings list numbers sorting.
From Stdlib Require Import OrdersEx.
From Stdlib Require Export Lia Ascii.

(** ** Go strings and byte slices

    A Go [string] is a [string] of bytes; a [[]byte] is a list of [ascii]. *)
Abbreviation bytes := (list ascii).

Definition to_bytes (s : string) : bytes := String.list_ascii_of_string s.
Definition of_bytes (b : bytes) : string := String.string_of_list_ascii b.

Declare Scope go_scope.
Delimit Scope go_scope with go.

Lemma of_to_bytes s : of_bytes (to_bytes s) = s.
Proof. apply String.string_of_list_ascii_of_string. Qed.

Lemma to_of_bytes b : to_bytes (of_bytes b) = b.
Proof. apply String.list_ascii_of_string_of_list_ascii. Qed.

#[global] Instance to_bytes_inj : Inj (=) (=) to_bytes.
Proof. intros s t H. by rewrite <-(of_to_bytes s), H, of_to_bytes. Qed.

Lemma to_bytes_app s t : to_bytes (s +:+ t) = to_bytes s ++ to_bytes t.
Proof. induction s as [|c s IH]; simpl; [done|]. unfold to_bytes in *. simpl. by rewrite IH. Qed.

(** The byte ['\n'] that terminates every line of a segment. *)
Definition newline : ascii := "010"%char.

(** ** Errors

    The sentinel errors of the engine, the store and the crypto packages that
    callers match with [errors.Is]; [ErrIO] and [ErrOther] stand for the wrapped
    operating-system errors and for the errors without a sentinel, [ErrPanic] for
    a run-time panic of the operation. *)
Inductive error :=
  | ErrCorruptEntry
  | ErrSyntax
  | ErrUnsupportedValue
  | ErrRecordTooLarge
  | ErrTooLong
  | ErrIndexStale
  | ErrNotExist
  | ErrDuplicateKey
  | ErrReservedField
  | ErrKeyNotFound
  | ErrNotFound
  | ErrResourceExhausted
  | ErrInvalidPageToken
  | ErrReservedPrefix
  | ErrKeyUnavailable
  | ErrDecryptFailed
  | ErrWrongEncryptionKey
  | ErrFieldEncrypted
  | ErrReplicaLagExceeded
  | ErrNotFollower
  | ErrUnauthenticated
  | ErrPermissionDenied
  | ErrFailedPrecondition
  | ErrCanceled
  | ErrUnavailable
  | ErrStopScan
  | ErrPanic
  | ErrIO
  | ErrOther.

#[global] Instance error_eq_dec : EqDecision error.
Proof. solve_decision. Defined.

Inductive result (A : Type) : Type :=
  | Ok (a : A)
  | Err (e : error).
Arguments Ok {A} a.
Arguments Err {A} e.

#[global] Instance Ok_inj {A} : Inj (=) (=) (@Ok A).
Proof. by intros ? ? [= ->]. Qed.

#[global] Instance result_ret : MRet result := λ A a, Ok a.
#[global] Instance result_bind : MBind result := λ A B f r,
  match r with Ok a => f a | Err e => Err e end.
#[global] Instance result_fmap : FMap result := λ A B f r,
  match r with Ok a => Ok (f a) | Err e => Err e end.

Definition of_option {A} (e : error) (o : option A) : result A :=
  match o with Some a => Ok a | None => Err e end.

Definition is_Ok {A} (r : result A) : bool :=
  match r with Ok _ => true | Err _ => false end.

Lemma result_bind_Ok {A B} (f : A → result B) r b :
  (r ≫= f) = Ok b ↔ ∃ a, r = Ok a ∧ f a = Ok b.
Proof. destruct r; simpl; naive_solver. Qed.

(** The elements of a list through a fallible function, first error first. *)
Section mapR.
Context {A B : Type} (f : A → result B).
Fixpoint mapR (l : list A) : result (list B) :=
  match l with
  | [] => Ok []
  | x :: l =>
      match f x with
      | Err e => Err e
      | Ok y => match mapR l with Ok ys => Ok (y :: ys) | Err e => Err e end
      end
  end.
End mapR.

Lemma mapR_Forall2 {A B} (f : A → result B) l k :
  mapR f l = Ok k ↔ Forall2 (λ x y, f x = Ok y) l k.
Proof.
  revert k. induction l as [|x l IH]; intros k; simpl.
  { split; [intros [= <-]; constructor|by intros ->%Forall2_nil_inv_l]. }
  destruct (f x) as [y|e] eqn:Hx; [destruct (mapR f l) as [ys|e] eqn:Hl|].
  - split; [intros [= <-]; constructor; [done|by apply IH]|].
    inversion 1 as [|???? Hy Hr]; subst. apply IH in Hr. congruence.
  - split; [done|]. inversion 1 as [|???? Hy Hr]; subst. apply IH in Hr. congruence.
  - split; [done|]. inversion 1; congruence.
Qed.

(** ** Filters *)
Lemma filter_all {A} (Q : A → Prop) `{!∀ x, Decision (Q x)} (l : list A) : Forall Q l → filter Q l = l.
Proof. induction 1 as [|y l Hy Hl IH]; [done|]. by rewrite filter_cons, decide_True, IH. Qed.

Lemma filter_none {A} (Q : A → Prop) `{!∀ x, Decision (Q x)} (l : list A) : Forall (λ x, ¬ Q x) l → filter Q l = [].
Proof. induction 1 as [|y l Hy Hl IH]; [done|]. by rewrite filter_cons, decide_False. Qed.

(** ** Machine integers

    [uint64] values are naturals below [2^64], [int64] values are integers; the
    wrap-around of the additions the source performs is written out. *)
Definition wrap64 (n : N) : N := (n mod 2 ^ 64)%N.
Definition u64_add (a b : N) : N := wrap64 (a + b).

Lemma wrap64_small n : (n < 2 ^ 64)%N → wrap64 n = n.
Proof. intros. by apply N.mod_small. Qed.

Lemma wrap64_lt n : (wrap64 n < 2 ^ 64)%N.
Proof. apply N.mod_lt. done. Qed.

(** ** Byte order on strings

    [strings.Compare], [sort.Strings] and the [<] of Go strings. *)
Definition str_compare (s t : string) : comparison := String.compare s t.

Definition str_lt (s t : string) : Prop := str_compare s t = Lt.
Definition str_le (s t : string) : Prop := str_compare s t ≠ Gt.

#[global] Instance str_lt_dec : RelDecision str_lt.
Proof. intros s t. unfold str_lt. apply _. Defined.
#[global] Instance str_le_dec : RelDecision str_le.
Proof. intros s t. unfold str_le. apply _. Defined.

Lemma str_compare_eq s t : str_compare s t = Eq ↔ s = t.
Proof.
  unfold str_compare. split.
  - apply String.compare_eq_iff.
  - intros ->. destruct (String.compare t t) eqn:E; [done|..];
    pose proof (String.compare_antisym t t) as H; rewrite E in H; done.
Qed.

Lemma str_compare_antisym s t : str_compare s t = CompOpp (str_compare t s).
Proof. apply String.compare_antisym. Qed.

Lemma str_lt_trans s t u : str_lt s t → str_lt t u → str_lt s u.
Proof. apply (String_as_OT.lt_strorder.(StrictOrder_Transitive)). Qed.

Lemma str_lt_irrefl s : ¬ str_lt s s.
Proof. apply (String_as_OT.lt_strorder.(StrictOrder_Irreflexive)). Qed.

Lemma str_le_lt_eq s t : str_le s t ↔ str_lt s t ∨ s = t.
Proof.
  unfold str_le, str_lt. rewrite <-str_compare_eq.
  destruct (str_compare s t); naive_solver.
Qed.

#[global] Instance str_le_trans : Transitive str_le.
Proof.
  intros s t u. rewrite !str_le_lt_eq. intros [H1| ->] [H2| ->]; eauto using str_lt_trans.
Qed.

#[global] Instance str_le_total : Total str_le.
Proof.
  intros s t. unfold str_le. rewrite (str_compare_antisym t s).
  destruct (str_compare s t); simpl; auto.
Qed.

#[global] Instance str_le_antisym : AntiSymm (=) str_le.
Proof.
  intros s t. rewrite !str_le_lt_eq. intros [H1|?] [H2|?]; try done.
  exfalso. eapply str_lt_irrefl, str_lt_trans; eauto.
Qed.

(** ** Automation of the development *)
Create HintDb scriva.
#[export] Hint Resolve wrap64_lt : scriva.

(** Close a decidable, closed goal by evaluation. *)
Ltac by_decide := apply (bool_decide_unpack _); vm_compute; exact I.

(** Case analysis on the scrutinee of a match or an if of the goal or of a
    hypothesis, keeping the equation. *)
Ltac case_match_eqn :=
  match goal with
  | |- context [ match ?x with _ => _ end ] => let E := fresh "E" in destruct x eqn:E
  | H : context [ match ?x with _ => _ end ] |- _ => let E := fresh "E" in destruct x eqn:E
  end.

(** Turn boolean comparisons of the context into propositions. *)
Ltac bools :=
  repeat match goal with
  | H : (_ && _)%bool = true |- _ => apply andb_true_iff in H as [? ?]
  | H : (_ || _)%bool = false |- _ => apply orb_false_iff in H as [? ?]
  | H : negb _ = true |- _ => apply negb_true_iff in H
  | H : negb _ = false |- _ => apply negb_false_iff in H
  | H : (_ <? _)%N = true |- _ => apply N.ltb_lt in H
  | H : (_ <? _)%N = false |- _ => apply N.ltb_ge in H
  | H : (_ <=? _)%N = true |- _ => apply N.leb_le in H
  | H : (_ <=? _)%N = false |- _ => apply N.leb_gt in H
  | H : (_ =? _)%N = true |- _ => apply N.eqb_eq in H
  | H : (_ =? _)%N = false |- _ => apply N.eqb_neq in H
  | H : (_ <? _)%Z = true |- _ => apply Z.ltb_lt in H
  | H : (_ <? _)%Z = false |- _ => apply Z.ltb_ge in H
  | H : (_ <=? _)%Z = true |- _ => apply Z.leb_le in H
  | H : (_ <=? _)%Z = false |- _ => apply Z.leb_gt in H
  | H : (_ =? _)%Z = true |- _ => apply Z.eqb_eq in H
  | H : (_ =? _)%Z = false |- _ => apply Z.eqb_neq in H
  | H : (_ <? _)%nat = true |- _ => apply Nat.ltb_lt in H
  | H : (_ <? _)%nat = false |- _ => apply Nat.ltb_ge in H
  | H : (_ <=? _)%nat = true |- _ => apply Nat.leb_le in H
  | H : (_ <=? _)%nat = false |- _ => apply Nat.leb_gt in H
  | H : bool_decide _ = true |- _ => apply bool_decide_eq_true in H
  | H : bool_decide _ = false |- _ => apply bool_decide_eq_false in H
  end.

(** ** Maps with string keys, in key order

    [sort.Strings] on the keys of a Go map; the order [json.Marshal] and
    [fmt.Sprintf] use for maps. *)
Definition key_le {A} (p q : string * A) : Prop := str_le p.1 q.1.
#[global] Instance key_le_dec {A} : RelDecision (@key_le A).
Proof. intros p q. unfold key_le. apply _. Defined.
#[global] Instance key_le_trans {A} : Transitive (@key_le A).
Proof. intros p q r. apply str_le_trans. Qed.
#[global] Instance key_le_total {A} : Total (@key_le A).
Proof. intros p q. apply str_le_total. Qed.

Definition sorted_pairs {A} (m : gmap string A) : list (string * A) :=
  merge_sort key_le (map_to_list m).

Lemma sorted_pairs_perm {A} (m : gmap string A) : sorted_pairs m ≡ₚ map_to_list m.
Proof. apply merge_sort_Permutation. Qed.

Lemma elem_of_sorted_pairs {A} (m : gmap string A) k v :
  (k, v) ∈ sorted_pairs m ↔ m !! k = Some v.
Proof. by rewrite sorted_pairs_perm, elem_of_map_to_list. Qed.

Lemma sorted_pairs_nodup {A} (m : gmap string A) : NoDup (sorted_pairs m).*1.
Proof. rewrite sorted_pairs_perm. apply NoDup_fst_map_to_list. Qed.

(** Assigning the pairs of a list to a map from left to right, the last
    assignment of a key winning. *)
Definition assign_all {A} (l : list (string * A)) (m : gmap string A) : gmap string A :=
  fold_left (λ m kv, <[kv.1 := kv.2]> m) l m.

Lemma assign_all_app {A} (l1 l2 : list (string * A)) m :
  assign_all (l1 ++ l2) m = assign_all l2 (assign_all l1 m).
Proof. apply fold_left_app. Qed.

Lemma assign_all_nodup {A} (l : list (string * A)) m :
  NoDup l.*1 → assign_all l m = list_to_map l ∪ m.
Proof.
  revert m. induction l as [|[k v] l IH]; intros m Hnd; simpl.
  { by rewrite (left_id_L ∅ (∪)). }
  inversion Hnd as [|?? Hk Hl]; subst. unfold assign_all in *. simpl. rewrite IH by done.
  rewrite <-insert_union_r, insert_union_l; [done|].
  by apply not_elem_of_list_to_map_1.
Qed.

Lemma assign_all_sorted_pairs {A} (m : gmap string A) :
  assign_all (sorted_pairs m) ∅ = m.
Proof.
  rewrite assign_all_nodup by apply sorted_pairs_nodup.
  rewrite (right_id_L ∅ (∪)).
  rewrite (list_to_map_proper _ (map_to_list m)); [apply list_to_map_to_list|..].
  - apply sorted_pairs_nodup.
  - apply sorted_pairs_perm.
Qed.

(** The key-ordered list of pairs is unique when keys are distinct. *)
Lemma sorted_pairs_sorted {A} (m : gmap string A) : StronglySorted key_le (sorted_pairs m).
Proof. apply (StronglySorted_merge_sort _). Qed.

Lemma sorted_pairs_sorted_map {A B} (f : A → B) (m : gmap string A) :
  StronglySorted key_le (map (λ kv, (kv.1, f kv.2)) (sorted_pairs m)).
Proof.
  pose proof (sorted_pairs_sorted m) as H. induction H as [|[k v] l Hl IH Hk]; simpl; [constructor|].
  constructor; [done|]. apply Forall_fmap. eapply Forall_impl; [exact Hk|]. by intros [].
Qed.

Lemma sorted_pairs_unique {A} (l1 l2 : list (string * A)) :
  NoDup l1.*1 → l1 ≡ₚ l2 → StronglySorted key_le l1 → StronglySorted key_le l2 → l1 = l2.
Proof.
  intros Hnd Hp Hs1 Hs2. revert l2 Hp Hs2 Hnd.
  induction Hs1 as [|[k v] l1 Hs1 IH Hk]; intros l2 Hp Hs2 Hnd.
  { by apply Permutation_nil in Hp. }
  destruct Hs2 as [|[k2 v2] l2 Hs2 Hk2]; [by symmetry in Hp; apply Permutation_nil_cons in Hp|].
  inversion Hnd as [|?? Hni Hnd']; subst.
  assert ((k, v) = (k2, v2)) as [= <- <-].
  { assert ((k2, v2) ∈ (k, v) :: l1) as [?|Hin]%elem_of_cons by (rewrite Hp; set_solver); [done|].
    assert ((k, v) ∈ (k2, v2) :: l2) as [?|Hin2]%elem_of_cons by (rewrite <-Hp; set_solver); [done|].
    rewrite Forall_forall in Hk, Hk2. specialize (Hk _ Hin). specialize (Hk2 _ Hin2).
    unfold key_le in *. simpl in *. assert (k = k2) as -> by (by apply (anti_symm str_le)).
    destruct Hni. apply list_elem_of_fmap. by exists (k2, v2). }
  f_equal. apply IH; [|done|done]. by apply Permutation_cons_inv in Hp.
Qed.
