(* ===== verification/GoFloat.v ===== *)
(** * float64 values, and the strconv and fmt routines the source uses on them

    A Go [float64] is a [spec_float] of the Standard Library at the binary64
    parameters.  Comparisons and arithmetic are the library's IEEE operations.
    Decimal conversion follows [strconv]: [ParseFloat] rounds a decimal to the
    nearest double (ties to even), [FormatFloat] with precision -1 produces the
    fewest digits that parse back to the same double.  [fmt_g] is what
    [fmt.Sprintf("%v")] prints, [fmt_json] what [json.Marshal] prints. *)

From S2P Require Import Prelude.
From Stdlib Require Import SpecFloat.

Abbreviation f64 := spec_float.

#[global] Instance f64_eq_dec : EqDecision f64.
Proof. solve_decision. Defined.

(** ** IEEE operations *)
Definition f64_lt (a b : f64) : bool := SFltb a b.
Definition f64_eq (a b : f64) : bool := SFeqb a b.
Definition f64_add (a b : f64) : f64 := SFadd 53 1024 a b.
Definition f64_div (a b : f64) : f64 := SFdiv 53 1024 a b.
Definition f64_zero : f64 := S754_zero false.

(** The conversion [float64(n)] of an integer. *)
Definition f64_of_Z (z : Z) : f64 := binary_normalize 53 1024 z 0 false.

Definition f64_finite (x : f64) : bool :=
  match x with S754_zero _ | S754_finite _ _ _ => true | _ => false end.

(** ** Decimal digits *)
Definition digit (d : N) : ascii := ascii_of_N (48 + d).

Definition is_digit (c : ascii) : bool := (48 <=? N_of_ascii c)%N && (N_of_ascii c <=? 57)%N.
Definition digit_val (c : ascii) : N := (N_of_ascii c - 48)%N.

Fixpoint dec_digits_fuel (fuel : nat) (n : N) (acc : bytes) : bytes :=
  match fuel with
  | O => acc
  | S fuel =>
      let acc := digit (n mod 10) :: acc in
      if (n <? 10)%N then acc else dec_digits_fuel fuel (n / 10) acc
  end.

(** [strconv.FormatUint(n, 10)]. *)
Definition dec_digits (n : N) : bytes := dec_digits_fuel (S (N.size_nat n)) n [].

(** The value of a digit string read left to right. *)
Definition dec_value_from (acc : N) (ds : bytes) : N :=
  fold_left (λ v c, (v * 10 + digit_val c)%N) ds acc.
Definition dec_value (ds : bytes) : N := dec_value_from 0 ds.

(** [strconv.FormatInt(z, 10)]. *)
Definition fmt_int (z : Z) : bytes :=
  if (z <? 0)%Z then "-"%char :: dec_digits (Z.to_N (- z)) else dec_digits (Z.to_N z).

(** ** Decimal to binary: [ParseFloat] on [±d·10^q] *)
Definition dec_round (neg : bool) (d : N) (q : Z) : f64 :=
  match d with
  | N0 => S754_zero neg
  | Npos p =>
      if (0 <=? q)%Z then
        match (Zpos p * 10 ^ q)%Z with
        | Zpos m => binary_round 53 1024 neg m 0
        | _ => S754_nan
        end
      else
        match (10 ^ (- q))%Z with
        | Zpos m2 =>
            let '(m, e, l) := SFdiv_core_binary 53 1024 (Zpos p) 0 (Zpos m2) 0 in
            binary_round_aux 53 1024 neg m e l
        | _ => S754_nan
        end
  end.

(** ** Binary to decimal: the shortest digits *)

(** The exact decimal value [d·10^q] of [m·2^e]. *)
Definition dec_exact (m : positive) (e : Z) : N * Z :=
  if (0 <=? e)%Z then ((Npos m * 2 ^ Z.to_N e)%N, 0%Z)
  else ((Npos m * 5 ^ Z.to_N (- e))%N, e).

Definition round_half_even (n d : N) : N :=
  let q := (n / d)%N in
  match (2 * (n mod d) ?= d)%N with
  | Lt => q
  | Gt => (q + 1)%N
  | Eq => if N.even q then q else (q + 1)%N
  end.

(** The exact value [d·10^q], of [nd] digits, rounded to [n] digits. *)
Definition round_digits (d : N) (q : Z) (nd n : nat) : N * Z :=
  if (nd <=? n)%nat then (d, q)
  else let k := (nd - n)%nat in
       (round_half_even d (10 ^ N.of_nat k), (q + Z.of_nat k)%Z).

(** The first digit count, from [n] on, whose rounding parses back to [x]. *)
Fixpoint shortest_from (fuel : nat) (x : f64) (neg : bool) (d : N) (q : Z) (nd n : nat) : N * Z :=
  match fuel with
  | O => (d, q)
  | S fuel =>
      let '(d', q') := round_digits d q nd n in
      if bool_decide (dec_round neg d' q' = x) then (d', q')
      else shortest_from fuel x neg d q nd (S n)
  end.

Fixpoint strip_zeros (fuel : nat) (d : N) (q : Z) : N * Z :=
  match fuel with
  | O => (d, q)
  | S fuel => if (d mod 10 =? 0)%N then strip_zeros fuel (d / 10) (q + 1) else (d, q)
  end.

(** The shortest decimal [d·10^q] (no trailing zero) of a finite non-zero double. *)
Definition shortest (neg : bool) (m : positive) (e : Z) : N * Z :=
  let '(d, q) := dec_exact m e in
  let nd := length (dec_digits d) in
  let '(d', q') := shortest_from 17 (S754_finite neg m e) neg d q nd 1 in
  strip_zeros (length (dec_digits d')) d' q'.

(** ** Rendering *)
Definition sign_bytes (neg : bool) : bytes := if neg then ["-"%char] else [].

(** [%e] with all the digits: [d.ddde±dd]. *)
Definition fmt_e (ds : bytes) (ex : Z) : bytes :=
  let mant := match ds with
              | c :: [] => [c]
              | c :: ds => c :: "."%char :: ds
              | [] => []
              end in
  let exd := dec_digits (Z.abs_N ex) in
  mant ++ "e"%char :: (if (ex <? 0)%Z then "-"%char else "+"%char) ::
    (if (length exd <? 2)%nat then "0"%char :: exd else exd).

(** [%f] with all the digits of [0.ds × 10^dp]. *)
Definition fmt_f (ds : bytes) (dp : Z) : bytes :=
  if (dp <=? 0)%Z then
    "0"%char :: "."%char :: replicate (Z.to_nat (- dp)) "0"%char ++ ds
  else if (Z.of_nat (length ds) <=? dp)%Z then
    ds ++ replicate (Z.to_nat dp - length ds) "0"%char
  else take (Z.to_nat dp) ds ++ "."%char :: drop (Z.to_nat dp) ds.

(** [fmt.Sprintf("%v", x)]: the shortest [%g], which switches to the exponent
    form below [1e-4] and from [1e+06] on ([strconv] takes precision 6 for that
    decision when the digits are the shortest ones). *)
Definition fmt_g (x : f64) : bytes :=
  match x with
  | S754_nan => to_bytes "NaN"
  | S754_infinity s => if s then to_bytes "-Inf" else to_bytes "+Inf"
  | S754_zero s => sign_bytes s ++ ["0"%char]
  | S754_finite s m e =>
      let '(d, q) := shortest s m e in
      let ds := dec_digits d in
      let dp := (Z.of_nat (length ds) + q)%Z in
      let ex := (dp - 1)%Z in
      sign_bytes s ++
      (if ((ex <? -4)%Z || (6 <=? ex)%Z) then fmt_e ds ex else fmt_f ds dp)
  end.

(** ** JSON number literals *)

(** The parts of a JSON number: sign, integer digits, fraction digits and the
    optional exponent (capital marker or not, its sign bytes, its digits). *)
Record numlit := NumLit {
  n_neg : bool;
  n_int : bytes;
  n_frac : bytes;
  n_exp : option (bool * bytes * bytes)
}.

#[global] Instance numlit_eq_dec : EqDecision numlit.
Proof. solve_decision. Defined.

Definition exp_value (ex : option (bool * bytes * bytes)) : Z :=
  match ex with
  | None => 0
  | Some (_, sg, ds) =>
      let v := Z.of_N (dec_value ds) in
      if bool_decide (sg = ["-"%char]) then (- v)%Z else v
  end.

(** The decimal [±d·10^q] a literal denotes. *)
Definition num_value (n : numlit) : bool * N * Z :=
  (n_neg n, dec_value (n_int n ++ n_frac n),
   (exp_value (n_exp n) - Z.of_nat (length (n_frac n)))%Z).

(** The literal [json.Marshal] writes for a finite double: [%f], or the
    exponent form (without the padding zero of [e-09]) below [1e-6] and from
    [1e21] on. *)
Definition json_num (x : f64) : numlit :=
  match x with
  | S754_finite s m e =>
      let '(d, q) := shortest s m e in
      let ds := dec_digits d in
      let dp := (Z.of_nat (length ds) + q)%Z in
      let abs := S754_finite false m e in
      if f64_lt abs (dec_round false 1 (-6)) || negb (f64_lt abs (dec_round false 1 21)) then
        let ex := (dp - 1)%Z in
        NumLit s (take 1 ds) (drop 1 ds)
          (Some (false, if (ex <? 0)%Z then ["-"%char] else ["+"%char], dec_digits (Z.abs_N ex)))
      else if (dp <=? 0)%Z then
        NumLit s ["0"%char] (replicate (Z.to_nat (- dp)) "0"%char ++ ds) None
      else if (Z.of_nat (length ds) <=? dp)%Z then
        NumLit s (ds ++ replicate (Z.to_nat dp - length ds) "0"%char) [] None
      else NumLit s (take (Z.to_nat dp) ds) (drop (Z.to_nat dp) ds) None
  | S754_zero s => NumLit s ["0"%char] [] None
  | _ => NumLit false [] [] None
  end.

(** The literal [json.Marshal] writes for an integer. *)
Definition json_int (z : Z) : numlit := NumLit (z <? 0)%Z (dec_digits (Z.abs_N z)) [] None.

Definition print_num (n : numlit) : bytes :=
  sign_bytes (n_neg n) ++ n_int n ++
  (match n_frac n with [] => [] | fr => "."%char :: fr end) ++
  (match n_exp n with
   | None => []
   | Some (up, sg, ds) => (if up : bool then "E"%char else "e"%char) :: sg ++ ds
   end).

(** A double whose shortest decimal parses back to it.  The search for the
    digits checks this, so the predicate is decided by evaluation. *)
Definition f64_ok (x : f64) : bool :=
  match x with
  | S754_zero _ => true
  | S754_finite s m e =>
      let '(d, q) := shortest s m e in bool_decide (dec_round s d q = x)
  | _ => false
  end.

Arguments dec_round : simpl never.
Arguments shortest : simpl never.
Arguments f64_lt : simpl never.
Arguments f64_eq : simpl never.
Arguments dec_digits : simpl never.
Arguments f64_ok : simpl never.
Arguments f64_finite : simpl never.

(** ** Facts on decimal digits *)
Section digits.
Local Open Scope N_scope.

Lemma N_of_digit d : d < 10 → N_of_ascii (digit d) = 48 + d.
Proof. intros. unfold digit. rewrite N_ascii_embedding; lia. Qed.

Lemma is_digit_digit d : d < 10 → is_digit (digit d) = true.
Proof.
  intros. unfold is_digit. rewrite N_of_digit by done.
  apply andb_true_iff; split; apply N.leb_le; lia.
Qed.

Lemma digit_val_digit d : d < 10 → digit_val (digit d) = d.
Proof. intros. unfold digit_val. rewrite N_of_digit by done. lia. Qed.

Lemma dec_value_from_app acc ds1 ds2 :
  dec_value_from acc (ds1 ++ ds2) = dec_value_from (dec_value_from acc ds1) ds2.
Proof. apply fold_left_app. Qed.

(** Fuel: one step per bit of the number is more than one per digit. *)
Lemma dec_digits_fuel_value fuel n acc :
  n < 2 ^ N.of_nat fuel →
  dec_value (dec_digits_fuel (S fuel) n acc) = dec_value_from n acc.
Proof.
  revert n acc. induction fuel as [|fuel IH]; intros n acc Hn.
  { simpl in Hn. assert (n = 0) as -> by lia. done. }
  change (dec_digits_fuel (S (S fuel)) n acc) with
    (if n <? 10 then digit (n mod 10) :: acc
     else dec_digits_fuel (S fuel) (n / 10) (digit (n mod 10) :: acc)).
  assert (n mod 10 < 10) by (apply N.mod_lt; lia).
  destruct (N.ltb_spec n 10).
  - unfold dec_value, dec_value_from. simpl. rewrite digit_val_digit by done.
    by rewrite N.mod_small by done.
  - rewrite IH.
    + unfold dec_value_from. simpl. rewrite digit_val_digit by done.
      f_equal. pose proof (N.div_mod' n 10). lia.
    + apply N.Div0.div_lt_upper_bound.
      rewrite Nat2N.inj_succ, N.pow_succ_r' in Hn. lia.
Qed.

Lemma N_size_nat_bound n : n < 2 ^ N.of_nat (N.size_nat n).
Proof.
  destruct n as [|p]; [simpl; lia|]. simpl.
  induction p as [p IH|p IH|]; simpl Pos.size_nat; rewrite ?Nat2N.inj_succ, ?N.pow_succ_r';
    simpl in *; lia.
Qed.

Lemma dec_value_digits n : dec_value (dec_digits n) = n.
Proof.
  unfold dec_digits. rewrite dec_digits_fuel_value by apply N_size_nat_bound. done.
Qed.

Lemma dec_digits_fuel_all fuel n acc :
  Forall (λ c, is_digit c = true) acc →
  Forall (λ c, is_digit c = true) (dec_digits_fuel fuel n acc).
Proof.
  revert n acc. induction fuel as [|fuel IH]; intros n acc Hacc; simpl; [done|].
  assert (n mod 10 < 10) by (apply N.mod_lt; lia).
  assert (Forall (λ c, is_digit c = true) (digit (n mod 10) :: acc))
    by (constructor; auto using is_digit_digit).
  destruct (n <? 10); auto.
Qed.

Lemma dec_digits_all n : Forall (λ c, is_digit c = true) (dec_digits n).
Proof. by apply dec_digits_fuel_all. Qed.

Lemma dec_digits_fuel_hd fuel n acc :
  0 < n < 2 ^ N.of_nat fuel →
  ∃ c ds, dec_digits_fuel (S fuel) n acc = c :: ds ∧ c ≠ "0"%char.
Proof.
  revert n acc. induction fuel as [|fuel IH]; intros n acc Hn.
  { simpl in Hn. lia. }
  change (dec_digits_fuel (S (S fuel)) n acc) with
    (if n <? 10 then digit (n mod 10) :: acc
     else dec_digits_fuel (S fuel) (n / 10) (digit (n mod 10) :: acc)).
  destruct (N.ltb_spec n 10).
  - eexists _, _; split; [done|]. rewrite N.mod_small by done.
    intros Hc. apply (f_equal N_of_ascii) in Hc. rewrite N_of_digit in Hc by done.
    simpl in Hc. lia.
  - apply IH. split; [apply N.div_str_pos; lia|].
    apply N.Div0.div_lt_upper_bound. rewrite Nat2N.inj_succ, N.pow_succ_r' in Hn. lia.
Qed.

Lemma dec_digits_hd n : 0 < n → ∃ c ds, dec_digits n = c :: ds ∧ c ≠ "0"%char.
Proof.
  intros. apply dec_digits_fuel_hd. split; [done|]. apply N_size_nat_bound.
Qed.

Lemma dec_digits_0 : dec_digits 0 = ["0"%char].
Proof. done. Qed.

Lemma dec_digits_nonempty n : dec_digits n ≠ [].
Proof.
  destruct (decide (n = 0)) as [->|]; [done|].
  destruct (dec_digits_hd n) as (?&?&->&_); [lia|done].
Qed.

#[global] Instance dec_digits_inj : Inj (=) (=) dec_digits.
Proof. intros n m H. by rewrite <-(dec_value_digits n), H, dec_value_digits. Qed.

Lemma dec_value_zeros k acc :
  dec_value_from acc (replicate k "0"%char) = acc * 10 ^ N.of_nat k.
Proof.
  revert acc. induction k as [|k IH]; intros acc; [simpl; lia|].
  rewrite Nat2N.inj_succ, N.pow_succ_r'. simpl. unfold dec_value_from in *. simpl.
  rewrite IH. unfold digit_val. simpl. lia.
Qed.
End digits.

(** ** Validity of literals and the round trip of numbers *)
Definition wf_int (ds : bytes) : Prop :=
  Forall (λ c, is_digit c = true) ds ∧
  (ds = ["0"%char] ∨ ∃ c r, ds = c :: r ∧ c ≠ "0"%char).

Definition wf_exp (ex : option (bool * bytes * bytes)) : Prop :=
  match ex with
  | None => True
  | Some (_, sg, ds) =>
      (sg = [] ∨ sg = ["+"%char] ∨ sg = ["-"%char]) ∧ ds ≠ [] ∧
      Forall (λ c, is_digit c = true) ds
  end.

Definition wf_num (n : numlit) : Prop :=
  wf_int (n_int n) ∧ Forall (λ c, is_digit c = true) (n_frac n) ∧ wf_exp (n_exp n).

Lemma wf_int_digits n : wf_int (dec_digits n).
Proof.
  split; [apply dec_digits_all|].
  destruct (decide (n = 0%N)) as [->|]; [by left|right].
  apply dec_digits_hd. lia.
Qed.

Lemma wf_json_int z : wf_num (json_int z).
Proof. split_and!; [apply wf_int_digits|constructor|done]. Qed.

Lemma f64_ok_pos s m e :
  f64_ok (S754_finite s m e) = true → (0 < (shortest s m e).1)%N.
Proof.
  unfold f64_ok. destruct (shortest s m e) as [d q]. simpl.
  intros H%bool_decide_eq_true. destruct d; [done|lia].
Qed.

Lemma digits_zero k : Forall (λ c, is_digit c = true) (replicate k "0"%char).
Proof. apply Forall_replicate. done. Qed.

#[export] Hint Resolve dec_digits_all digits_zero dec_digits_nonempty wf_int_digits : scriva.

Lemma wf_json_num x : f64_ok x = true → wf_num (json_num x).
Proof.
  destruct x as [s|s| |s m e]; intros Hok; [|discriminate Hok|discriminate Hok|].
  { split_and!; [split; [by repeat constructor|by left]|constructor|done]. }
  pose proof (f64_ok_pos _ _ _ Hok) as Hd.
  unfold json_num. destruct (shortest s m e) as [d q]; simpl in Hd. clear Hok.
  pose proof (dec_digits_all d) as Hall.
  destruct (dec_digits_hd d Hd) as (c&r&Hc&Hc0).
  case_match.
  { rewrite Hc in *. inversion Hall; subst. split_and!; simpl.
    - split; [by repeat constructor|right; eauto].
    - done.
    - split_and!; auto with scriva. case_match; auto. }
  case_match; [|case_match]; split_and!; simpl; auto using Forall_app_2 with scriva.
  - split; [by repeat constructor|by left].
  - split; [auto using Forall_app_2 with scriva|]. right. rewrite Hc. simpl. eauto.
  - bools. split; [auto using Forall_take|]. right.
    destruct (Z.to_nat _) eqn:E; [lia|]. rewrite Hc. simpl. eauto.
  - auto using Forall_drop.
Qed.

Lemma dec_round_expand s d k q :
  (0 <= q)%Z →
  dec_round s (d * 10 ^ N.of_nat k) q = dec_round s d (q + Z.of_nat k).
Proof.
  intros Hq. destruct d as [|p]; [by rewrite N.mul_0_l|].
  assert (10 ^ N.of_nat k ≠ 0)%N as Hk by (by apply N.pow_nonzero).
  destruct (N.pos p * 10 ^ N.of_nat k)%N as [|p'] eqn:E.
  { apply N.eq_mul_0 in E as [?|?]; done. }
  unfold dec_round. rewrite !(proj2 (Z.leb_le _ _)) by lia.
  assert (Z.pos p' * 10 ^ q = Z.pos p * 10 ^ (q + Z.of_nat k))%Z as ->; [|done].
  change (Z.pos p') with (Z.of_N (N.pos p')). rewrite <-E.
  rewrite N2Z.inj_mul, N2Z.inj_pow, nat_N_Z, Z.pow_add_r by lia.
  change (Z.of_N (N.pos p)) with (Z.pos p). change (Z.of_N 10) with 10%Z. lia.
Qed.

(** The literal [json.Marshal] writes denotes the double it was written for. *)
Lemma json_num_value x :
  f64_ok x = true →
  let '(s, d, q) := num_value (json_num x) in dec_round s d q = x.
Proof.
  destruct x as [s|s| |s m e]; intros Hok;
    [reflexivity|discriminate Hok|discriminate Hok|].
  unfold f64_ok, json_num in *. destruct (shortest s m e) as [d q]. apply bool_decide_eq_true in Hok.
  set (nd := length (dec_digits d)).
  assert (nd ≠ 0) by (unfold nd; destruct (dec_digits d) eqn:E; [by apply dec_digits_nonempty in E|done]).
  destruct (f64_lt _ _ || _)%bool;
    [|destruct (Z.of_nat nd + q <=? 0)%Z eqn:?; [|destruct (Z.of_nat nd <=? _)%Z eqn:?]];
    unfold num_value; cbn [n_neg n_int n_frac n_exp exp_value]; bools.
  - rewrite (take_drop 1 (dec_digits d)), dec_value_digits, length_drop. fold nd.
    rewrite dec_value_digits.
    replace (_ - _)%Z with q; [done|].
    destruct (Z.ltb_spec (Z.of_nat nd + q - 1) 0); simpl; lia.
  - unfold dec_value. simpl. change ("0"%char :: ?l) with (["0"%char] ++ l).
    change (dec_value_from (digit_val "0") ?l) with (dec_value_from 0 l).
    rewrite dec_value_from_app, dec_value_zeros, N.mul_0_l.
    change (dec_value_from 0 ?l) with (dec_value l). rewrite dec_value_digits.
    rewrite length_app, length_replicate. fold nd.
    by replace (0 - _)%Z with q by lia.
  - rewrite app_nil_r. unfold dec_value. rewrite dec_value_from_app, dec_value_zeros.
    change (dec_value_from 0 ?l) with (dec_value l). rewrite dec_value_digits.
    rewrite dec_round_expand by (simpl; lia).
    by replace (_ + Z.of_nat _)%Z with q by (simpl; lia).
  - rewrite take_drop, dec_value_digits, length_drop. fold nd.
    by replace (0 - _)%Z with q by lia.
Qed.

Lemma json_int_value z :
  let '(s, d, q) := num_value (json_int z) in
  s = (z <? 0)%Z ∧ d = Z.abs_N z ∧ q = 0%Z.
Proof. simpl. rewrite app_nil_r, dec_value_digits. done. Qed.
