(* ===== verification/GoStrconv.v ===== *)
(** * Number parsing ([strconv]) and binary search ([sort.Search])

    [strconv.ParseFloat] with its full syntax (signs, infinities and NaN, decimal
    and hexadecimal mantissas, exponents, underscores between digits), and
    [sort.Search] with its correctness on a monotone predicate. *)

From S2P Require Import Prelude GoFloat.
From Stdlib Require Import SpecFloat.

Definition lower (c : ascii) : ascii :=
  if ((65 <=? N_of_ascii c) && (N_of_ascii c <=? 90))%N then ascii_of_N (N_of_ascii c + 32) else c.

Definition hex_value (c : ascii) : option N :=
  if is_digit c then Some (digit_val c)
  else
    let n := N_of_ascii (lower c) in
    if ((97 <=? n) && (n <=? 102))%N then Some (n - 87)%N else None.

Definition base_digit (hex : bool) (c : ascii) : option N :=
  if hex then hex_value c else if is_digit c then Some (digit_val c) else None.

(** The mantissa: value, digits after the point, whether a point and a digit were
    seen, and the rest of the text. *)
Fixpoint read_mantissa (hex : bool) (b : bytes) (m : N) (frac : Z) (dot digits : bool)
    : N * Z * bool * bytes :=
  match b with
  | [] => (m, frac, digits, [])
  | c :: b' =>
      if bool_decide (c = "_"%char) then read_mantissa hex b' m frac dot digits
      else if bool_decide (c = "."%char) then
        if dot then (m, frac, digits, b) else read_mantissa hex b' m frac true digits
      else
        match base_digit hex c with
        | Some d =>
            read_mantissa hex b' ((if hex then 16 else 10) * m + d)%N
              (if dot then frac + 1 else frac)%Z dot true
        | None => (m, frac, digits, b)
        end
  end.

(** Exponent digits, saturating once the value passes 10000. *)
Fixpoint read_exp_digits (b : bytes) (e : Z) : Z * bytes :=
  match b with
  | [] => (e, [])
  | c :: b' =>
      if bool_decide (c = "_"%char) then read_exp_digits b' e
      else if is_digit c then
        read_exp_digits b' (if (e <? 10000)%Z then (10 * e + Z.of_N (digit_val c))%Z else e)
      else (e, b)
  end.

Definition read_sign (b : bytes) : bool * bytes :=
  match b with
  | "+"%char :: b => (false, b)
  | "-"%char :: b => (true, b)
  | _ => (false, b)
  end.

(** The exponent part: [None] on a syntax error. *)
Definition read_exponent (hex : bool) (b : bytes) : option (Z * bytes) :=
  match b with
  | c :: b' =>
      if bool_decide (lower c = if hex then "p"%char else "e"%char) then
        let '(neg, b') := read_sign b' in
        match b' with
        | d :: _ =>
            if is_digit d then
              let '(e, rest) := read_exp_digits b' 0 in
              Some ((if neg then - e else e)%Z, rest)
            else None
        | [] => None
        end
      else if hex then None else Some (0%Z, b)
  | [] => if hex then None else Some (0%Z, [])
  end.

(** [underscoreOK]: every underscore stands between digits, or right after the
    base prefix, which counts as a digit.  [prev] is the class of the previous
    byte: a digit, an underscore, or anything else. *)
Inductive uclass := UDigit | UUnder | UOther.

Fixpoint under_ok (hex : bool) (b : bytes) (prev : uclass) : bool :=
  match b with
  | [] => match prev with UUnder => false | _ => true end
  | c :: b =>
      if (is_digit c || (hex && bool_decide (is_Some (hex_value c))))%bool then under_ok hex b UDigit
      else if bool_decide (c = "_"%char) then
        match prev with UDigit => under_ok hex b UUnder | _ => false end
      else match prev with UUnder => false | _ => under_ok hex b UOther end
  end.

Definition underscoreOK (b : bytes) : bool :=
  let '(_, b) := read_sign b in
  match b with
  | "0"%char :: x :: b' =>
      if bool_decide (lower x ∈ ["b"%char; "o"%char; "x"%char])
      then under_ok (bool_decide (lower x = "x"%char)) b' UDigit
      else under_ok false b UOther
  | _ => under_ok false b UOther
  end.

Definition has_underscore (b : bytes) : bool := bool_decide ("_"%char ∈ b).

Definition fold_eq (b : bytes) (s : string) : bool := bool_decide (map lower b = to_bytes s).

(** [special]: infinities with an optional sign, NaN without. *)
Definition special (b : bytes) : option f64 :=
  let '(neg, r) := read_sign b in
  if (fold_eq r "inf" || fold_eq r "infinity")%bool then Some (S754_infinity neg)
  else if fold_eq b "nan" then Some S754_nan else None.

Definition is_infinite (x : f64) : bool := match x with S754_infinity _ => true | _ => false end.

(** [strconv.ParseFloat(s, 64)]: the value and whether the error is nil; the value
    is 0 on a syntax error and an infinity when out of range. *)
Definition ParseFloat (s : string) : f64 * bool :=
  let b := to_bytes s in
  match special b with
  | Some x => (x, true)
  | None =>
      let '(neg, r) := read_sign b in
      let '(hex, r) :=
        match r with
        | "0"%char :: x :: (_ :: _) as r' =>
            if bool_decide (lower x = "x"%char) then (true, drop 2 r) else (false, r)
        | _ => (false, r)
        end in
      let '(m, frac, digits, rest) := read_mantissa hex r 0 0 false false in
      if digits then
        match read_exponent hex rest with
        | Some (e, []) =>
            if (has_underscore b && negb (underscoreOK b))%bool then (f64_zero, false)
            else
              let x :=
                if hex then
                  match m with
                  | N0 => S754_zero neg
                  | Npos p => binary_round 53 1024 neg p (e - 4 * frac)
                  end
                else dec_round neg m (e - frac) in
              (x, negb (is_infinite x))
        | _ => (f64_zero, false)
        end
      else (f64_zero, false)
  end.

(** ** Binary search *)
Section search.
Context (f : nat → bool).

Fixpoint search_loop (fuel i j : nat) : nat :=
  match fuel with
  | O => i
  | S fuel =>
      if i <? j then
        let h := (i + j) / 2 in
        if f h then search_loop fuel i h else search_loop fuel (S h) j
      else i
  end.

(** [sort.Search(n, f)]; every turn shrinks the interval, so [n + 1] turns are
    enough. *)
Definition sort_Search (n : nat) : nat := search_loop (S n) 0 n.

Lemma search_loop_spec n fuel i j :
  (∀ a b, a ≤ b → b < n → f a = true → f b = true) →
  i ≤ j → j ≤ n → j - i < fuel →
  (∀ k, k < i → f k = false) → (∀ k, j ≤ k → k < n → f k = true) →
  let r := search_loop fuel i j in
  r ≤ n ∧ (∀ k, k < r → f k = false) ∧ (∀ k, r ≤ k → k < n → f k = true).
Proof.
  intros Hmono. revert i j. induction fuel as [|fuel IH]; intros i j Hij Hjn Hfuel Hlo Hhi; [lia|].
  cbn [search_loop]. destruct (Nat.ltb_spec i j) as [Hlt|Hge].
  2:{ split; [lia|]. split; [done|]. intros k Hk. apply Hhi. lia. }
  set (h := (i + j) / 2). assert (i ≤ h ∧ h < j) as [Hih Hhj].
  { unfold h. pose proof (Nat.div_mod_eq (i + j) 2). pose proof (Nat.mod_upper_bound (i + j) 2). lia. }
  destruct (f h) eqn:Ef; apply IH; try lia; try done.
  - intros k Hk Hkn. apply (Hmono h); [lia|done|done].
  - intros k Hk. destruct (f k) eqn:Ek; [|done]. rewrite (Hmono k h) in Ef; [done|lia|lia|done].
Qed.

Lemma sort_Search_spec n :
  (∀ a b, a ≤ b → b < n → f a = true → f b = true) →
  let r := sort_Search n in
  r ≤ n ∧ (∀ k, k < r → f k = false) ∧ (∀ k, r ≤ k → k < n → f k = true).
Proof. intros Hmono. apply search_loop_spec; try done; lia. Qed.
End search.

Example ParseFloat_examples :
  ParseFloat "1e+06" = (f64_of_Z 1000000, true) ∧ ParseFloat "-2.5" = (f64_div (f64_of_Z (-5)) (f64_of_Z 2), true) ∧
  ParseFloat "0x1p4" = (f64_of_Z 16, true) ∧ ParseFloat "1_000" = (f64_of_Z 1000, true) ∧
  ParseFloat "12a" = (f64_zero, false) ∧ ParseFloat "+Inf" = (S754_infinity false, true) ∧
  ParseFloat "1e400" = (S754_infinity false, false) ∧ ParseFloat "1__0" = (f64_zero, false).
Proof. vm_compute. split_and!; reflexivity. Qed.
