(* ===== verification/GoTime.v ===== *)
(** * Instants and their RFC 3339 text ([time.Time] in JSON)

    A [time.Time] is the number of nanoseconds since the Unix epoch, in UTC.
    [time.Time.MarshalJSON] prints the RFC 3339 form with the fraction trimmed
    of trailing zeros and refuses years outside [0, 9999]; [UnmarshalJSON] reads
    it back, with [Z] or a numeric zone offset. *)

From S2P Require Import Prelude GoFloat.
Local Open Scope Z_scope.
Local Ltac Zify.zify_post_hook ::= Z.to_euclidean_division_equations.

Abbreviation Time := Z.

(** [time.Time{}], 1 January of year 1. *)
Definition zero_time : Time := -62135596800 * 1000000000.
Definition IsZero (t : Time) : bool := t =? zero_time.
(** [UnixNano] for the instants an int64 of nanoseconds can hold, those of the years
    1678 to 2262; outside them Go leaves the result undefined. *)
Definition UnixNano (t : Time) : Z := t.

(** ** The civil calendar *)

(** Day of a 400-year era (starting 1 March) to (year of era, day of year):
    whole centuries, then 4-year cycles, then years, as [time.absDate] does. *)
Definition year_of_doe (doe : Z) : Z * Z :=
  let c := Z.min (doe / 36524) 3 in
  let r1 := doe - 36524 * c in
  let q := r1 / 1461 in
  let r2 := r1 - 1461 * q in
  let a := Z.min (r2 / 365) 3 in
  (100 * c + 4 * q + a, r2 - 365 * a).

Definition month_of_doy (doy : Z) : Z * Z :=
  let mp := (5 * doy + 2) / 153 in
  (if mp <? 10 then mp + 3 else mp - 9, doy - (153 * mp + 2) / 5 + 1).

Definition civil_of_doe (doe : Z) : Z * Z * Z :=
  let '(yoe, doy) := year_of_doe doe in
  let '(m, d) := month_of_doy doy in
  (yoe, m, d).

Definition doy_of_civil (m d : Z) : Z :=
  (153 * (if 2 <? m then m - 3 else m + 9) + 2) / 5 + d - 1.

Definition doe_of_civil (yoe m d : Z) : Z :=
  yoe * 365 + yoe / 4 - yoe / 100 + doy_of_civil m d.

(** Days since the epoch to (year, month, day). *)
Definition civil_of_days (z : Z) : Z * Z * Z :=
  let z := z + 719468 in
  let '(yoe, m, d) := civil_of_doe (z mod 146097) in
  let y := yoe + z / 146097 * 400 in
  (if m <=? 2 then y + 1 else y, m, d).

Definition days_of_civil (y m d : Z) : Z :=
  let y := if m <=? 2 then y - 1 else y in
  y / 400 * 146097 + doe_of_civil (y mod 400) m d - 719468.

Definition is_leap (y : Z) : bool :=
  (y mod 4 =? 0) && (negb (y mod 100 =? 0) || (y mod 400 =? 0)).

Definition days_in (m y : Z) : Z :=
  if m =? 2 then if is_leap y then 29 else 28
  else if (m =? 4) || (m =? 6) || (m =? 9) || (m =? 11) then 30 else 31.

Definition valid_date (y m d : Z) : bool :=
  (1 <=? m) && (m <=? 12) && (1 <=? d) && (d <=? days_in m y).

(** ** Printing *)
Fixpoint fixed_digits (k : nat) (n : N) (acc : bytes) : bytes :=
  match k with
  | O => acc
  | S k => fixed_digits k (n / 10) (digit (n mod 10) :: acc)
  end.

Definition pad (k : nat) (z : Z) : bytes := fixed_digits k (Z.to_N z) [].

(** The nine fraction digits without the trailing zeros. *)
Fixpoint trim_zeros (rev_ds : bytes) : bytes :=
  match rev_ds with
  | c :: r => if bool_decide (c = "0"%char) then trim_zeros r else rev_ds
  | [] => []
  end.

Definition fraction (ns : Z) : bytes := rev (trim_zeros (rev (pad 9 ns))).

Definition format_time (t : Time) : result bytes :=
  let ns := t mod 1000000000 in
  let sec := t / 1000000000 in
  let '(y, m, d) := civil_of_days (sec / 86400) in
  let sod := sec mod 86400 in
  if (0 <=? y) && (y <=? 9999) then
    Ok (pad 4 y ++ "-"%char :: pad 2 m ++ "-"%char :: pad 2 d ++ "T"%char ::
        pad 2 (sod / 3600) ++ ":"%char :: pad 2 (sod / 60 mod 60) ++ ":"%char ::
        pad 2 (sod mod 60) ++
        (match fraction ns with [] => [] | fr => "."%char :: fr end) ++ ["Z"%char])
  else Err ErrUnsupportedValue.

(** ** Parsing *)
Fixpoint take_digits (k : nat) (b : bytes) (acc : N) : option (N * bytes) :=
  match k with
  | O => Some (acc, b)
  | S k =>
      match b with
      | c :: r => if is_digit c then take_digits k r (acc * 10 + digit_val c)%N else None
      | [] => None
      end
  end.

Definition num (k : nat) (b : bytes) : option (Z * bytes) :=
  match take_digits k b 0 with Some (n, r) => Some (Z.of_N n, r) | None => None end.

Definition char (c : ascii) (b : bytes) : option bytes :=
  match b with d :: r => if bool_decide (c = d) then Some r else None | [] => None end.

Fixpoint span_num (b : bytes) : bytes * bytes :=
  match b with
  | c :: r => if is_digit c then let '(d, t) := span_num r in (c :: d, t) else ([], b)
  | [] => ([], [])
  end.

(** The optional fraction, in nanoseconds; digits past the ninth are dropped. *)
Definition parse_fraction (b : bytes) : option (Z * bytes) :=
  match b with
  | c :: r =>
      if bool_decide (c = "."%char) then
        let '(ds, t) := span_num r in
        match ds with
        | [] => None
        | _ =>
            let ds := take 9 ds in
            Some (Z.of_N (dec_value ds) * 10 ^ (9 - Z.of_nat (length ds)), t)
        end
      else Some (0, b)
  | [] => Some (0, [])
  end.

(** The zone: [Z], or [±hh:mm] as an offset in seconds. *)
Definition parse_zone (b : bytes) : option Z :=
  match b with
  | ["Z"%char] => Some 0
  | c :: r =>
      if bool_decide (c = "+"%char) || bool_decide (c = "-"%char) then
        match num 2 r with
        | Some (h, r) =>
            match char ":" r with
            | Some r =>
                match num 2 r with
                | Some (mi, []) =>
                    if (h <? 24) && (mi <? 60) then
                      let off := h * 3600 + mi * 60 in
                      Some (if bool_decide (c = "-"%char) then - off else off)
                    else None
                | _ => None
                end
            | None => None
            end
        | None => None
        end
      else None
  | [] => None
  end.

Definition parse_time (b : bytes) : option Time :=
  '(y, b) ← num 4 b; b ← char "-" b; '(m, b) ← num 2 b; b ← char "-" b;
  '(d, b) ← num 2 b; b ← char "T" b; '(h, b) ← num 2 b; b ← char ":" b;
  '(mi, b) ← num 2 b; b ← char ":" b; '(s, b) ← num 2 b;
  '(ns, b) ← parse_fraction b; off ← parse_zone b;
  if valid_date y m d && (h <? 24) && (mi <? 60) && (s <? 60) then
    Some (((days_of_civil y m d * 86400 + h * 3600 + mi * 60 + s) - off) * 1000000000 + ns)
  else None.

(** ** The calendar round trip *)

Definition doe_ok (doe : Z) : bool :=
  let '(yoe, m, d) := civil_of_doe doe in
  (0 <=? yoe) && (yoe <? 400) && (doe_of_civil yoe m d =? doe) &&
  valid_date (if m <=? 2 then yoe + 1 else yoe) m d.

(** The days of a year, checked exhaustively: 29 February is the last one. *)
Definition doy_ok (doy : Z) : bool :=
  let '(m, d) := month_of_doy doy in
  (doy_of_civil m d =? doy) && (1 <=? m) && (m <=? 12) && (1 <=? d) &&
  (if m =? 2 then (d <=? 28) || ((d =? 29) && (doy =? 365)) else d <=? days_in m 1).

Lemma doy_ok_all : forallb (λ n, doy_ok (Z.of_nat n)) (seq 0 366) = true.
Proof. vm_compute. reflexivity. Qed.

Lemma doy_ok_range doy : 0 <= doy < 366 → doy_ok doy = true.
Proof.
  intros H. pose proof doy_ok_all as Hall. rewrite forallb_forall in Hall.
  specialize (Hall (Z.to_nat doy)). rewrite Z2Nat.id in Hall by lia.
  apply Hall, in_seq. lia.
Qed.

Lemma year_of_doe_spec doe yoe doy :
  0 <= doe < 146097 → year_of_doe doe = (yoe, doy) →
  0 <= yoe < 400 ∧ 0 <= doy < 366 ∧ yoe * 365 + yoe / 4 - yoe / 100 + doy = doe ∧
  (doy = 365 → is_leap (yoe + 1) = true).
Proof.
  intros Hdoe. unfold year_of_doe. cbv zeta.
  remember (Z.min (doe / 36524) 3) as c eqn:Ec. remember (doe - 36524 * c) as r1 eqn:Er1.
  remember (r1 / 1461) as q eqn:Eq. remember (r1 - 1461 * q) as r2 eqn:Er2.
  remember (Z.min (r2 / 365) 3) as a eqn:Ea.
  intros [= <- <-].
  assert (0 <= c <= 3 ∧ 0 <= r1 <= 36524 ∧ (c < 3 → r1 < 36524)) as (Hc & Hr1 & Hr1') by lia.
  assert (0 <= q <= 24 ∧ 0 <= r2 < 1461) as (Hq & Hr2) by lia.
  assert (0 <= a <= 3 ∧ 0 <= r2 - 365 * a <= 365 ∧ (r2 - 365 * a = 365 → a = 3)) as (Ha & Hd & Hd') by lia.
  assert ((100 * c + 4 * q + a) / 4 = 25 * c + q) as -> by lia.
  assert ((100 * c + 4 * q + a) / 100 = c) as -> by lia.
  split_and!; [lia..|].
  intros H365. specialize (Hd' H365). unfold is_leap.
  apply andb_true_iff. split; [apply Z.eqb_eq; lia|]. apply orb_true_iff.
  destruct (decide (q = 24)).
  - right. apply Z.eqb_eq. lia.
  - left. apply negb_true_iff, Z.eqb_neq. lia.
Qed.

Lemma doe_ok_range doe : 0 <= doe < 146097 → doe_ok doe = true.
Proof.
  intros H. unfold doe_ok, civil_of_doe.
  destruct (year_of_doe doe) as [yoe doy] eqn:Ey.
  destruct (year_of_doe_spec _ _ _ H Ey) as (Hy & Hd & Hdoe & Hleap).
  pose proof (doy_ok_range doy Hd) as Hok. unfold doy_ok in Hok.
  destruct (month_of_doy doy) as [m d]. bools.
  repeat (apply andb_true_iff; split); try (apply Z.leb_le; lia); try (apply Z.ltb_lt; lia).
  - unfold doe_of_civil. apply Z.eqb_eq. lia.
  - unfold days_in in *. destruct (m =? 2) eqn:Em; [|apply Z.leb_le; lia]. bools. subst m.
    simpl. apply orb_true_iff in H1 as [H1|H1]; bools.
    + apply Z.leb_le. destruct (is_leap _); lia.
    + rewrite Hleap by done. apply Z.leb_le. lia.
Qed.

Lemma is_leap_period y k : is_leap (y + k * 400) = is_leap y.
Proof.
  unfold is_leap.
  assert ((y + k * 400) mod 4 = y mod 4) as ->
    by (replace (y + k * 400) with (y + (k * 100) * 4) by lia; by rewrite Z_mod_plus_full).
  assert ((y + k * 400) mod 100 = y mod 100) as ->
    by (replace (y + k * 400) with (y + (k * 4) * 100) by lia; by rewrite Z_mod_plus_full).
  by rewrite Z_mod_plus_full.
Qed.

Lemma valid_date_period y k m d : valid_date (y + k * 400) m d = valid_date y m d.
Proof. unfold valid_date, days_in. by rewrite is_leap_period. Qed.

Lemma civil_roundtrip z y m d :
  civil_of_days z = (y, m, d) → days_of_civil y m d = z ∧ valid_date y m d = true.
Proof.
  unfold civil_of_days.
  assert (0 <= (z + 719468) mod 146097 < 146097) as Hr by (apply Z.mod_pos_bound; lia).
  pose proof (doe_ok_range _ Hr) as Hok. unfold doe_ok in Hok.
  destruct (civil_of_doe _) as [[yoe m'] d'] eqn:E. bools.
  intros [= <- <- <-].
  set (era := (z + 719468) / 146097) in *.
  pose proof (Z.div_mod (z + 719468) 146097 ltac:(lia)) as Hdm. fold era in Hdm.
  assert (∀ y, (yoe + y * 400) / 400 = y ∧ (yoe + y * 400) mod 400 = yoe) as Hy.
  { intros y. rewrite Z.div_add, Z_mod_plus_full, Z.div_small, Z.mod_small by lia. lia. }
  destruct (Hy era) as [Hy1 Hy2].
  destruct (m' <=? 2) eqn:Hm.
  - split.
    + unfold days_of_civil. rewrite Hm. replace (yoe + era * 400 + 1 - 1) with (yoe + era * 400) by lia.
      rewrite Hy1, Hy2. lia.
    + replace (yoe + era * 400 + 1) with (yoe + 1 + era * 400) by lia. by rewrite valid_date_period.
  - split; [|by rewrite valid_date_period].
    unfold days_of_civil. rewrite Hm, Hy1, Hy2. lia.
Qed.

Arguments pad : simpl never.

(** ** The text round trip *)
Lemma fixed_digits_acc k n acc : fixed_digits k n acc = fixed_digits k n [] ++ acc.
Proof.
  revert n acc. induction k as [|k IH]; intros n acc; [done|]. simpl.
  rewrite IH, (IH _ [_]), <-app_assoc. done.
Qed.

Lemma fixed_digits_S k n :
  fixed_digits (S k) n [] = fixed_digits k (n / 10) [] ++ [digit (n mod 10)].
Proof. simpl. by rewrite fixed_digits_acc. Qed.

Lemma fixed_digits_length k n : length (fixed_digits k n []) = k.
Proof.
  revert n. induction k as [|k IH]; intros n; [done|].
  rewrite fixed_digits_S, length_app, IH. simpl. lia.
Qed.

Lemma fixed_digits_all k n : Forall (λ c, is_digit c = true) (fixed_digits k n []).
Proof.
  revert n. induction k as [|k IH]; intros n; [constructor|].
  rewrite fixed_digits_S. apply Forall_app; split; [done|].
  repeat constructor. apply is_digit_digit. apply N.mod_lt. lia.
Qed.

Lemma fixed_digits_value k n :
  (n < 10 ^ N.of_nat k)%N → dec_value (fixed_digits k n []) = n.
Proof.
  revert n. induction k as [|k IH]; intros n Hn.
  { simpl in *. unfold dec_value. simpl. lia. }
  rewrite fixed_digits_S. unfold dec_value. rewrite dec_value_from_app.
  change (dec_value_from 0 ?l) with (dec_value l). rewrite IH.
  - unfold dec_value_from. simpl. rewrite digit_val_digit by (apply N.mod_lt; lia).
    pose proof (N.div_mod' n 10). lia.
  - rewrite Nat2N.inj_succ, N.pow_succ_r' in Hn. apply N.Div0.div_lt_upper_bound. lia.
Qed.

Lemma take_digits_app ds r acc :
  Forall (λ c, is_digit c = true) ds →
  take_digits (length ds) (ds ++ r) acc = Some (dec_value_from acc ds, r).
Proof.
  intros H. revert acc. induction H as [|c ds Hc _ IH]; intros acc; [done|].
  simpl. by rewrite Hc, IH.
Qed.

Lemma num_pad k z r :
  0 <= z < 10 ^ Z.of_nat k → num k (pad k z ++ r) = Some (z, r).
Proof.
  intros Hz. unfold num, pad.
  rewrite <-(fixed_digits_length k (Z.to_N z)) at 1.
  rewrite take_digits_app by apply fixed_digits_all.
  change (dec_value_from 0 ?l) with (dec_value l). rewrite fixed_digits_value.
  - by rewrite Z2N.id by lia.
  - apply N2Z.inj_lt. rewrite Z2N.id, N2Z.inj_pow, nat_N_Z by lia. simpl. lia.
Qed.

Lemma num_pad4 z r : 0 <= z < 10000 → num 4 (pad 4 z ++ r) = Some (z, r).
Proof. intros. apply num_pad. done. Qed.

Lemma num_pad2 z r : 0 <= z < 100 → num 2 (pad 2 z ++ r) = Some (z, r).
Proof. intros. apply num_pad. done. Qed.

Lemma char_cons c r : char c (c :: r) = Some r.
Proof. simpl. by rewrite bool_decide_true. Qed.

Lemma trim_zeros_spec ds : ∃ k, ds = replicate k "0"%char ++ trim_zeros ds.
Proof.
  induction ds as [|c ds [k IH]]; [by exists 0%nat|]. simpl.
  case_bool_decide; [|by exists 0%nat]. subst c. exists (S k). simpl. by rewrite <-IH.
Qed.

Lemma fraction_spec ns :
  ∃ k, pad 9 ns = fraction ns ++ replicate k "0"%char.
Proof.
  unfold fraction. destruct (trim_zeros_spec (rev (pad 9 ns))) as [k Hk]. exists k.
  rewrite <-(rev_involutive (pad 9 ns)) at 1. rewrite Hk at 1.
  rewrite rev_app_distr. f_equal. clear Hk.
  induction k as [|k IH]; [done|]. simpl. rewrite IH. by rewrite <-replicate_S_end.
Qed.

Lemma span_num_app ds r :
  Forall (λ c, is_digit c = true) ds →
  match r with [] => True | c :: _ => is_digit c = false end →
  span_num (ds ++ r) = (ds, r).
Proof.
  intros H Hr. induction H as [|c ds Hc _ IH]; simpl.
  - destruct r as [|c r]; [done|]. simpl. by rewrite Hr.
  - by rewrite Hc, IH.
Qed.

Lemma parse_fraction_print ns :
  0 <= ns < 1000000000 →
  parse_fraction ((match fraction ns with [] => [] | fr => "."%char :: fr end) ++ ["Z"%char]) =
  Some (ns, ["Z"%char]).
Proof.
  intros Hns. destruct (fraction_spec ns) as [k Hk].
  assert (length (fraction ns) + k = 9)%nat as Hlen.
  { pose proof (fixed_digits_length 9 (Z.to_N ns)) as Hl. fold (pad 9 ns) in Hl.
    by rewrite Hk, length_app, length_replicate in Hl. }
  assert (Z.of_N (dec_value (fraction ns)) * 10 ^ Z.of_nat k = ns) as Hval.
  { pose proof (fixed_digits_value 9 (Z.to_N ns)) as Hv. fold (pad 9 ns) in Hv.
    rewrite Hk in Hv. unfold dec_value in Hv. rewrite dec_value_from_app, dec_value_zeros in Hv.
    change (dec_value_from 0 ?l) with (dec_value l) in Hv.
    apply (f_equal Z.of_N) in Hv; [|lia].
    rewrite N2Z.inj_mul, N2Z.inj_pow, nat_N_Z, Z2N.id in Hv by lia. done. }
  assert (Forall (λ c, is_digit c = true) (fraction ns)) as Hall.
  { pose proof (fixed_digits_all 9 (Z.to_N ns)) as Ha. fold (pad 9 ns) in Ha.
    rewrite Hk in Ha. by apply Forall_app in Ha as [? _]. }
  destruct (fraction ns) as [|c fr] eqn:Ef.
  { simpl in Hval. by subst ns. }
  simpl app. cbn [parse_fraction]. rewrite bool_decide_true by done.
  change (c :: fr ++ ["Z"%char]) with ((c :: fr) ++ ["Z"%char]).
  rewrite span_num_app by done. rewrite take_ge by lia.
  replace (9 - Z.of_nat (length (c :: fr))) with (Z.of_nat k) by lia.
  by rewrite Hval.
Qed.

(** [UnmarshalJSON] reads back the instant [MarshalJSON] printed. *)
Lemma parse_format_time t b : format_time t = Ok b → parse_time b = Some t.
Proof.
  unfold format_time.
  destruct (civil_of_days (t / 1000000000 / 86400)) as [[y m] d] eqn:Ec.
  destruct (civil_roundtrip _ _ _ _ Ec) as [Hdays Hvalid].
  destruct ((0 <=? y) && (y <=? 9999)) eqn:Hy; [|done]. intros Hb%(inj Ok). subst b. bools.
  pose proof Hvalid as Hv. unfold valid_date in Hv. bools.
  assert (d <= 31) by (unfold days_in in *; repeat case_match; lia).
  set (sod := (t / 1000000000) mod 86400). assert (0 <= sod < 86400) by (subst sod; lia).
  unfold parse_time.
  assert (0 <= sod / 3600 < 24 ∧ 0 <= sod / 60 mod 60 < 60 ∧ 0 <= sod mod 60 < 60) as (?&?&?) by lia.
  rewrite num_pad4 by lia. repeat (cbn [mbind option_bind]; rewrite char_cons;
    cbn [mbind option_bind]; rewrite num_pad2 by lia). cbn [mbind option_bind].
  rewrite parse_fraction_print by lia. simpl.
  rewrite Hvalid, !(proj2 (Z.ltb_lt _ _)) by lia. simpl.
  f_equal. rewrite Hdays. subst sod. lia.
Qed.

Lemma format_time_total t :
  let '(y, _, _) := civil_of_days (t / 1000000000 / 86400) in
  0 <= y <= 9999 → ∃ b, format_time t = Ok b.
Proof.
  unfold format_time. destruct (civil_of_days _) as [[y m] d]. intros Hy.
  rewrite (proj2 (Z.leb_le 0 y)), (proj2 (Z.leb_le y 9999)) by lia. simpl. eauto.
Qed.

(** The bytes of a timestamp: digits and punctuation, all of them plain ASCII. *)
Definition time_byte (c : ascii) : bool :=
  is_digit c || bool_decide (c ∈ ["-"%char; "T"%char; ":"%char; "."%char; "Z"%char]).

Lemma digits_time_bytes ds :
  Forall (λ c, is_digit c = true) ds → Forall (λ c, time_byte c = true) ds.
Proof. intros H. eapply Forall_impl; [exact H|]. intros c Hc. unfold time_byte. by rewrite Hc. Qed.

Lemma format_time_bytes t b : format_time t = Ok b → Forall (λ c, time_byte c = true) b.
Proof.
  unfold format_time. destruct (civil_of_days _) as [[y m] d].
  destruct (_ && _); [|done]. intros Hb%(inj Ok). subst b.
  assert (∀ k z, Forall (λ c, time_byte c = true) (pad k z)) as Hpad.
  { intros. apply digits_time_bytes, fixed_digits_all. }
  assert (Forall (λ c, time_byte c = true) (fraction (t mod 1000000000))) as Hfr.
  { destruct (fraction_spec (t mod 1000000000)) as [k Hk].
    pose proof (Hpad 9%nat (t mod 1000000000)) as H. rewrite Hk in H. by apply Forall_app in H as [? _]. }
  repeat first [apply Hpad | apply Forall_app_2 | apply Forall_cons_2 | reflexivity | apply Forall_nil_2].
  destruct (fraction _); [constructor|]. by constructor.
Qed.
