(* ===== verification/GoJson.v ===== *)
(** * Dynamic values, [fmt.Sprintf("%v")] and [encoding/json]

    [any] is the Go interface value a record field holds: the dynamic types
    [encoding/json] decodes into, and the Go integers an embedding program can
    store before the value has been through a segment.  [json] is the syntax
    tree of a JSON text; [print_json] and [parse_json] are the concrete syntax
    of [json.Marshal] and [json.Unmarshal], [to_json] and [of_json] the
    conversion between values and trees. *)

From S2P Require Import Prelude GoFloat.
From Stdlib Require Import SpecFloat.

(** ** UTF-8 *)
Definition in_range (lo hi : N) (c : ascii) : bool :=
  (lo <=? N_of_ascii c)%N && (N_of_ascii c <=? hi)%N.

(** The acceptable second byte and the number of further continuation bytes of
    a multi-byte rune ([utf8.acceptRanges]). *)
Definition utf8_accept (c : ascii) : option (N * N * nat) :=
  if in_range 194 223 c then Some (128%N, 191%N, 0)
  else if in_range 224 224 c then Some (160%N, 191%N, 1)
  else if in_range 237 237 c then Some (128%N, 159%N, 1)
  else if in_range 225 239 c then Some (128%N, 191%N, 1)
  else if in_range 240 240 c then Some (144%N, 191%N, 2)
  else if in_range 241 243 c then Some (128%N, 191%N, 2)
  else if in_range 244 244 c then Some (128%N, 143%N, 2)
  else None.

Fixpoint take_cont (k : nat) (b : bytes) : option (bytes * bytes) :=
  match k with
  | O => Some ([], b)
  | S k =>
      match b with
      | c :: r =>
          if in_range 128 191 c then
            match take_cont k r with Some (u, r) => Some (c :: u, r) | None => None end
          else None
      | [] => None
      end
  end.

(** [utf8.DecodeRune]: the bytes of the leading rune and what follows, [None]
    for an invalid sequence. *)
Definition decode_rune (b : bytes) : option (bytes * bytes) :=
  match b with
  | [] => None
  | c0 :: r0 =>
      if (N_of_ascii c0 <? 128)%N then Some ([c0], r0)
      else
        match utf8_accept c0, r0 with
        | Some (lo, hi, k), c1 :: r1 =>
            if in_range lo hi c1 then
              match take_cont k r1 with
              | Some (u, r) => Some (c0 :: c1 :: u, r)
              | None => None
              end
            else None
        | _, _ => None
        end
  end.

(** [utf8.AppendRune] for a code point below [0x110000] that is no surrogate. *)
Definition encode_rune (r : N) : bytes :=
  if (r <? 128)%N then [ascii_of_N r]
  else if (r <? 2048)%N then [ascii_of_N (192 + r / 64); ascii_of_N (128 + r mod 64)]
  else if (r <? 65536)%N then
    [ascii_of_N (224 + r / 4096); ascii_of_N (128 + r / 64 mod 64); ascii_of_N (128 + r mod 64)]
  else [ascii_of_N (240 + r / 262144); ascii_of_N (128 + r / 4096 mod 64);
        ascii_of_N (128 + r / 64 mod 64); ascii_of_N (128 + r mod 64)].

Definition rune_error : bytes := encode_rune 65533.

Fixpoint utf8_valid_fuel (fuel : nat) (b : bytes) : bool :=
  match fuel, b with
  | _, [] => true
  | O, _ => false
  | S fuel, _ => match decode_rune b with Some (_, r) => utf8_valid_fuel fuel r | None => false end
  end.
Definition utf8_valid (b : bytes) : bool := utf8_valid_fuel (length b) b.

(** ** JSON strings *)
Definition hex_digit (d : N) : ascii :=
  if (d <? 10)%N then ascii_of_N (48 + d) else ascii_of_N (87 + d).

Definition hex_val (c : ascii) : option N :=
  if in_range 48 57 c then Some (N_of_ascii c - 48)%N
  else if in_range 97 102 c then Some (N_of_ascii c - 87)%N
  else if in_range 65 70 c then Some (N_of_ascii c - 55)%N
  else None.

Definition quote_char : ascii := "034"%char.
Definition backslash : ascii := "092"%char.

(** The ASCII bytes [json.Marshal] copies as they are ([htmlSafeSet]). *)
Definition json_safe (c : ascii) : bool :=
  in_range 32 127 c &&
  negb (bool_decide (c ∈ [quote_char; backslash; "<"%char; ">"%char; "&"%char])).

Definition escape_ascii (c : ascii) : bytes :=
  if bool_decide (c = quote_char) then [backslash; quote_char]
  else if bool_decide (c = backslash) then [backslash; backslash]
  else if bool_decide (c = "008"%char) then [backslash; "b"%char]
  else if bool_decide (c = "012"%char) then [backslash; "f"%char]
  else if bool_decide (c = "010"%char) then [backslash; "n"%char]
  else if bool_decide (c = "013"%char) then [backslash; "r"%char]
  else if bool_decide (c = "009"%char) then [backslash; "t"%char]
  else [backslash; "u"%char; "0"%char; "0"%char;
        hex_digit (N_of_ascii c / 16); hex_digit (N_of_ascii c mod 16)].

Definition line_sep : bytes := ["226"%char; "128"%char; "168"%char].
Definition para_sep : bytes := ["226"%char; "128"%char; "169"%char].

(** The escaped body of a string literal ([encoding/json.appendString]). *)
Fixpoint quote_fuel (fuel : nat) (b : bytes) : bytes :=
  match fuel, b with
  | O, _ | _, [] => []
  | S fuel, c :: r =>
      if (N_of_ascii c <? 128)%N then
        (if json_safe c then [c] else escape_ascii c) ++ quote_fuel fuel r
      else
        match decode_rune b with
        | None => to_bytes "\ufffd" ++ quote_fuel fuel r
        | Some (u, r) =>
            (if bool_decide (u = line_sep) then to_bytes "\u2028"
             else if bool_decide (u = para_sep) then to_bytes "\u2029"
             else u) ++ quote_fuel fuel r
        end
  end.

Definition print_string (s : string) : bytes :=
  let b := to_bytes s in quote_char :: quote_fuel (length b) b ++ [quote_char].

(** The code unit of a [\uXXXX] escape. *)
Definition hex4 (b : bytes) : option (N * bytes) :=
  match b with
  | a :: b :: c :: d :: r =>
      match hex_val a, hex_val b, hex_val c, hex_val d with
      | Some a, Some b, Some c, Some d => Some (((a * 16 + b) * 16 + c) * 16 + d, r)%N
      | _, _, _, _ => None
      end
  | _ => None
  end.

Definition is_surrogate (r : N) : bool := (55296 <=? r)%N && (r <? 57344)%N.

(** The rune of a [\u] escape and what follows: a high surrogate followed by an
    escaped low surrogate is one rune, any other surrogate the replacement
    character ([getu4], [utf16.DecodeRune]). *)
Definition unescape_u (r : N) (b : bytes) : bytes * bytes :=
  if is_surrogate r then
    match b with
    | x :: y :: b' =>
        if (bool_decide (x = backslash) && bool_decide (y = "u"%char))%bool then
          match hex4 b' with
          | Some (r2, rest) =>
              if ((r <? 56320)%N && (56320 <=? r2)%N && (r2 <? 57344)%N)%bool then
                (encode_rune ((r - 55296) * 1024 + (r2 - 56320) + 65536), rest)
              else (rune_error, b)
          | None => (rune_error, b)
          end
        else (rune_error, b)
    | _ => (rune_error, b)
    end
  else (encode_rune r, b).

Definition simple_escape (e : ascii) : option ascii :=
  if bool_decide (e = quote_char) then Some quote_char
  else if bool_decide (e = backslash) then Some backslash
  else if bool_decide (e = "/"%char) then Some "/"%char
  else if bool_decide (e = "b"%char) then Some "008"%char
  else if bool_decide (e = "f"%char) then Some "012"%char
  else if bool_decide (e = "n"%char) then Some "010"%char
  else if bool_decide (e = "r"%char) then Some "013"%char
  else if bool_decide (e = "t"%char) then Some "009"%char
  else None.

(** The body of a string literal after its opening quote: decoded bytes and
    what follows the closing quote. *)
Fixpoint parse_chars (fuel : nat) (b : bytes) : option (bytes * bytes) :=
  match fuel with
  | O => None
  | S fuel =>
      match b with
      | [] => None
      | c :: r =>
          if bool_decide (c = quote_char) then Some ([], r)
          else if bool_decide (c = backslash) then
            match r with
            | [] => None
            | e :: r =>
                if bool_decide (e = "u"%char) then
                  match hex4 r with
                  | None => None
                  | Some (u, r) =>
                      let '(d, r) := unescape_u u r in
                      match parse_chars fuel r with
                      | Some (s, t) => Some (d ++ s, t)
                      | None => None
                      end
                  end
                else
                  match simple_escape e with
                  | None => None
                  | Some d =>
                      match parse_chars fuel r with
                      | Some (s, t) => Some (d :: s, t)
                      | None => None
                      end
                  end
            end
          else if (N_of_ascii c <? 32)%N then None
          else
            let '(d, r) := match decode_rune b with
                           | Some (u, r) => (u, r)
                           | None => (rune_error, r)
                           end in
            match parse_chars fuel r with
            | Some (s, t) => Some (d ++ s, t)
            | None => None
            end
      end
  end.

(** ** JSON trees *)
#[warnings="-register-all"]
Inductive json :=
  | JNull
  | JBool (b : bool)
  | JNum (n : numlit)
  | JStr (s : string)
  | JArr (l : list json)
  | JObj (l : list (string * json)).

Section json_ind.
Variable P : json → Prop.
Hypothesis HNull : P JNull.
Hypothesis HBool : ∀ b, P (JBool b).
Hypothesis HNum : ∀ n, P (JNum n).
Hypothesis HStr : ∀ s, P (JStr s).
Hypothesis HArr : ∀ l, Forall P l → P (JArr l).
Hypothesis HObj : ∀ l, Forall (λ kv, P kv.2) l → P (JObj l).

Fixpoint json_ind_deep (j : json) : P j :=
  match j with
  | JNull => HNull
  | JBool b => HBool b
  | JNum n => HNum n
  | JStr s => HStr s
  | JArr l => HArr l ((fix go l := match l return Forall P l with
                       | [] => Forall_nil_2 _
                       | x :: l => Forall_cons_2 _ _ _ (json_ind_deep x) (go l)
                       end) l)
  | JObj l => HObj l ((fix go l := match l return Forall (λ kv, P kv.2) l with
                       | [] => Forall_nil_2 _
                       | x :: l => Forall_cons_2 _ _ _ (json_ind_deep x.2) (go l)
                       end) l)
  end.
End json_ind.

(** The elements of an array or the members of an object, separated by commas. *)
Fixpoint sep_commas (l : list bytes) : bytes :=
  match l with
  | [] => []
  | [x] => x
  | x :: l => x ++ ","%char :: sep_commas l
  end.

Fixpoint print_json (j : json) : bytes :=
  match j with
  | JNull => to_bytes "null"
  | JBool true => to_bytes "true"
  | JBool false => to_bytes "false"
  | JNum n => print_num n
  | JStr s => print_string s
  | JArr l => "["%char :: sep_commas (map print_json l) ++ ["]"%char]
  | JObj l =>
      "{"%char ::
      sep_commas (map (λ kv, print_string kv.1 ++ ":"%char :: print_json kv.2) l) ++ ["}"%char]
  end.

(** ** Parsing *)
Definition is_ws (c : ascii) : bool :=
  bool_decide (c ∈ ["032"%char; "009"%char; "010"%char; "013"%char]).

Fixpoint skip_ws (b : bytes) : bytes :=
  match b with
  | c :: r => if is_ws c then skip_ws r else b
  | [] => []
  end.

Fixpoint span_digits (b : bytes) : bytes * bytes :=
  match b with
  | c :: r => if is_digit c then let '(d, t) := span_digits r in (c :: d, t) else ([], b)
  | [] => ([], [])
  end.

Definition parse_int_part (b : bytes) : option (bytes * bytes) :=
  match b with
  | [] => None
  | c :: r =>
      if bool_decide (c = "0"%char) then Some ([c], r)
      else if is_digit c then let '(d, t) := span_digits r in Some (c :: d, t)
      else None
  end.

Definition parse_frac (b : bytes) : option (bytes * bytes) :=
  match b with
  | c :: r =>
      if bool_decide (c = "."%char) then
        let '(d, t) := span_digits r in
        match d with [] => None | _ => Some (d, t) end
      else Some ([], b)
  | [] => Some ([], [])
  end.

Definition parse_exp_sign (b : bytes) : bytes * bytes :=
  match b with
  | c :: r =>
      if (bool_decide (c = "+"%char) || bool_decide (c = "-"%char))%bool then ([c], r) else ([], b)
  | [] => ([], [])
  end.

Definition parse_exp (b : bytes) : option (option (bool * bytes * bytes) * bytes) :=
  match b with
  | c :: r =>
      if (bool_decide (c = "e"%char) || bool_decide (c = "E"%char))%bool then
        let '(sg, r1) := parse_exp_sign r in
        let '(d, t) := span_digits r1 in
        match d with [] => None | _ => Some (Some (bool_decide (c = "E"%char), sg, d), t) end
      else Some (None, b)
  | [] => Some (None, [])
  end.

Definition parse_sign (b : bytes) : bool * bytes :=
  match b with
  | c :: r => if bool_decide (c = "-"%char) then (true, r) else (false, b)
  | [] => (false, [])
  end.

Definition parse_number (b : bytes) : option (numlit * bytes) :=
  let '(neg, b) := parse_sign b in
  match parse_int_part b with
  | None => None
  | Some (i, b) =>
      match parse_frac b with
      | None => None
      | Some (f, b) =>
          match parse_exp b with
          | None => None
          | Some (e, b) => Some (NumLit neg i f e, b)
          end
      end
  end.

Fixpoint expect (p : bytes) (b : bytes) : option bytes :=
  match p, b with
  | [], _ => Some b
  | c :: p, d :: b => if bool_decide (c = d) then expect p b else None
  | _ :: _, [] => None
  end.

(** Recursive descent; the fuel is the length of the text, since every
    recursive call follows the consumption of a byte. *)
Fixpoint parse_value (fuel : nat) (b : bytes) : option (json * bytes) :=
  match fuel with
  | O => None
  | S fuel =>
      match skip_ws b with
      | [] => None
      | c :: r =>
          if bool_decide (c = quote_char) then
            match parse_chars (S (length r)) r with
            | Some (s, t) => Some (JStr (of_bytes s), t)
            | None => None
            end
          else if bool_decide (c = "{"%char) then
            match skip_ws r with
            | "}"%char :: t => Some (JObj [], t)
            | _ =>
                match parse_members fuel r with
                | Some (l, t) => Some (JObj l, t)
                | None => None
                end
            end
          else if bool_decide (c = "["%char) then
            match skip_ws r with
            | "]"%char :: t => Some (JArr [], t)
            | _ =>
                match parse_elems fuel r with
                | Some (l, t) => Some (JArr l, t)
                | None => None
                end
            end
          else if bool_decide (c = "t"%char) then
            match expect (to_bytes "rue") r with Some t => Some (JBool true, t) | None => None end
          else if bool_decide (c = "f"%char) then
            match expect (to_bytes "alse") r with Some t => Some (JBool false, t) | None => None end
          else if bool_decide (c = "n"%char) then
            match expect (to_bytes "ull") r with Some t => Some (JNull, t) | None => None end
          else
            match parse_number (c :: r) with
            | Some (n, t) => Some (JNum n, t)
            | None => None
            end
      end
  end
with parse_elems (fuel : nat) (b : bytes) : option (list json * bytes) :=
  match fuel with
  | O => None
  | S fuel =>
      match parse_value fuel b with
      | None => None
      | Some (j, t) =>
          match skip_ws t with
          | ","%char :: t =>
              match parse_elems fuel t with
              | Some (l, t) => Some (j :: l, t)
              | None => None
              end
          | "]"%char :: t => Some ([j], t)
          | _ => None
          end
      end
  end
with parse_members (fuel : nat) (b : bytes) : option (list (string * json) * bytes) :=
  match fuel with
  | O => None
  | S fuel =>
      match skip_ws b with
      | c :: r =>
          if bool_decide (c = quote_char) then
            match parse_chars (S (length r)) r with
            | None => None
            | Some (k, t) =>
                match skip_ws t with
                | ":"%char :: t =>
                    match parse_value fuel t with
                    | None => None
                    | Some (j, t) =>
                        match skip_ws t with
                        | ","%char :: t =>
                            match parse_members fuel t with
                            | Some (l, t) => Some ((of_bytes k, j) :: l, t)
                            | None => None
                            end
                        | "}"%char :: t => Some ([(of_bytes k, j)], t)
                        | _ => None
                        end
                    end
                | _ => None
                end
            end
          else None
      | [] => None
      end
  end.

(** A whole JSON text: one value, surrounded by white space only. *)
Definition parse_json (b : bytes) : option json :=
  match parse_value (S (length b)) b with
  | Some (j, t) => match skip_ws t with [] => Some j | _ => None end
  | None => None
  end.

(** ** The syntax round trip *)
Lemma take_cont_app k b u r t :
  take_cont k b = Some (u, r) → b = u ++ r ∧ take_cont k (u ++ t) = Some (u, t).
Proof.
  revert b u r. induction k as [|k IH]; intros b u r; simpl.
  { intros [= <- <-]. done. }
  destruct b as [|c b]; [done|]. destruct (in_range 128 191 c) eqn:Hc; [|done].
  destruct (take_cont k b) as [[u' r']|] eqn:E; [|done]. intros [= <- <-].
  destruct (IH _ _ _ E) as [-> H]. split; [done|]. simpl. by rewrite Hc, H.
Qed.

Lemma decode_rune_app b u r :
  decode_rune b = Some (u, r) →
  b = u ++ r ∧ u ≠ [] ∧ ∀ t, decode_rune (u ++ t) = Some (u, t).
Proof.
  destruct b as [|c0 r0]; simpl; [done|].
  destruct (N_of_ascii c0 <? 128)%N eqn:Hc.
  { intros [= <- <-]. split_and!; [done..|]. intros t. simpl. by rewrite Hc. }
  destruct (utf8_accept c0) as [[[lo hi] k]|] eqn:Ha; [|done].
  destruct r0 as [|c1 r1]; [done|]. destruct (in_range lo hi c1) eqn:H1; [|done].
  destruct (take_cont k r1) as [[u' r']|] eqn:E; [|done]. intros [= <- <-].
  destruct (take_cont_app _ _ _ _ [] E) as [-> _].
  split_and!; [done..|]. intros t. simpl. rewrite Hc, Ha, H1.
  by destruct (take_cont_app _ _ _ _ t E) as [_ ->].
Qed.

Lemma utf8_valid_fuel_mono n m b :
  n ≤ m → utf8_valid_fuel n b = true → utf8_valid_fuel m b = true.
Proof.
  revert m b. induction n as [|n IH]; intros m b Hm H.
  { destruct b; [by destruct m|done]. }
  destruct m as [|m]; [lia|]. destruct b as [|c b]; [done|].
  cbn [utf8_valid_fuel] in *. destruct (decode_rune _) as [[u r]|]; [|done].
  apply IH; [lia|done].
Qed.

Lemma parse_ascii_step c m rest :
  (N_of_ascii c <? 128)%N = true →
  parse_chars (S m) ((if json_safe c then [c] else escape_ascii c) ++ rest) =
  match parse_chars m rest with Some (s, t) => Some (c :: s, t) | None => None end.
Proof. destruct c as [[] [] [] [] [] [] [] []]; intros H; first [discriminate H|reflexivity]. Qed.

Lemma parse_rune_step c b u r m rest :
  (N_of_ascii c <? 128)%N = false →
  decode_rune (c :: b) = Some (u, r) →
  parse_chars (S m) ((if bool_decide (u = line_sep) then to_bytes "\u2028"
                      else if bool_decide (u = para_sep) then to_bytes "\u2029" else u) ++ rest) =
  match parse_chars m rest with Some (s, t) => Some (u ++ s, t) | None => None end.
Proof.
  intros Hc Hd. case_bool_decide as H1; [by subst|]. case_bool_decide as H2; [by subst|].
  destruct (decode_rune_app _ _ _ Hd) as (Hu & Hne & Happ).
  destruct u as [|c' u]; [done|]. simpl in Hu. injection Hu as -> Hu'.
  specialize (Happ rest). simpl app in *.
  assert (c' ≠ quote_char ∧ c' ≠ backslash ∧ (N_of_ascii c' <? 32)%N = false) as (?&?&Hlt).
  { split_and!; [by intros ->|by intros ->|].
    apply N.ltb_ge in Hc. apply N.ltb_ge. lia. }
  cbn [parse_chars]. rewrite !bool_decide_false by done. rewrite Hlt, Happ. done.
Qed.

Lemma parse_quote n b m t :
  utf8_valid_fuel n b = true → length b ≤ n → length (quote_fuel n b) < m →
  parse_chars m (quote_fuel n b ++ quote_char :: t) = Some (b, t).
Proof.
  revert b m. induction n as [|n IH]; intros b m Hv Hl Hm.
  { destruct b; [|done]. destruct m; [simpl in Hm; lia|done]. }
  destruct b as [|c b]; [destruct m; [simpl in Hm; lia|done]|].
  destruct m as [|m]; [lia|]. cbn [utf8_valid_fuel quote_fuel] in *.
  destruct (N_of_ascii c <? 128)%N eqn:Hc.
  - simpl in Hv. rewrite Hc in Hv. rewrite <-app_assoc, parse_ascii_step by done.
    rewrite IH; [done|done|simpl in Hl; lia|].
    rewrite length_app in Hm. destruct (json_safe c); [simpl in Hm; lia|].
    assert (length (escape_ascii c) ≠ 0) by (unfold escape_ascii; repeat case_match; done). lia.
  - destruct (decode_rune (c :: b)) as [[u r]|] eqn:Hd; [|done].
    destruct (decode_rune_app _ _ _ Hd) as (Hu & Hne & _).
    rewrite <-app_assoc, (parse_rune_step _ _ _ _ _ _ Hc Hd).
    assert (length u ≠ 0) by (by destruct u).
    assert (length (c :: b) = length u + length r) by (rewrite Hu, length_app; done).
    rewrite IH; [by rewrite Hu|done|simpl in *; lia|].
    rewrite length_app in Hm.
    repeat case_bool_decide; simpl in Hm; lia.
Qed.

Definition wf_string (s : string) : bool := utf8_valid (to_bytes s).

Lemma parse_print_string s m t :
  wf_string s = true → length (print_string s) ≤ m →
  parse_chars m (quote_fuel (length (to_bytes s)) (to_bytes s) ++ quote_char :: t) =
  Some (to_bytes s, t).
Proof.
  intros Hs Hm. apply parse_quote; [done|done|].
  unfold print_string in Hm. simpl in Hm. rewrite length_app in Hm. simpl in Hm. lia.
Qed.

(** Numbers: what may follow a literal without extending it. *)
Definition num_stop (b : bytes) : bool :=
  match b with
  | [] => true
  | c :: _ => negb (is_digit c || bool_decide (c ∈ ["."%char; "e"%char; "E"%char]))
  end.

Definition digit_stop (b : bytes) : bool :=
  match b with [] => true | c :: _ => negb (is_digit c) end.

Lemma span_digits_app ds t :
  Forall (λ c, is_digit c = true) ds → digit_stop t = true → span_digits (ds ++ t) = (ds, t).
Proof.
  intros Hds Ht. induction Hds as [|c ds Hc _ IH]; simpl.
  - destruct t as [|c t]; [done|]. simpl in *. apply negb_true_iff in Ht. by rewrite Ht.
  - by rewrite Hc, IH.
Qed.

Lemma num_stop_digit t : num_stop t = true → digit_stop t = true.
Proof.
  destruct t as [|c t]; [done|]. simpl. intros [H _]%negb_true_iff%orb_false_iff. by rewrite H.
Qed.

Definition print_frac (f : bytes) : bytes := match f with [] => [] | fr => "."%char :: fr end.
Definition print_exp (ex : option (bool * bytes * bytes)) : bytes :=
  match ex with
  | None => []
  | Some (up, sg, ds) => (if up : bool then "E"%char else "e"%char) :: sg ++ ds
  end.

Lemma print_num_parts n :
  print_num n = sign_bytes (n_neg n) ++ n_int n ++ print_frac (n_frac n) ++ print_exp (n_exp n).
Proof. destruct n as [? ? [] ?]; reflexivity. Qed.

Lemma parse_exp_app ex t :
  wf_exp ex → num_stop t = true → parse_exp (print_exp ex ++ t) = Some (ex, t).
Proof.
  intros Hex Ht. destruct ex as [[[up sg] ds]|]; simpl.
  - destruct Hex as (Hsg & Hne & Hds).
    assert (parse_exp_sign ((sg ++ ds) ++ t) = (sg, ds ++ t)) as Hsign.
    { destruct Hsg as [->|[->| ->]]; simpl; [|done..].
      destruct ds as [|d ds]; [done|]. simpl. inversion Hds as [|?? Hd _]; subst.
      rewrite orb_false_intro; [done|..]; apply bool_decide_eq_false; intros ->; done. }
    rewrite Hsign, (span_digits_app ds t Hds (num_stop_digit t Ht)).
    destruct ds; [done|]. by destruct up.
  - destruct t as [|c t]; [done|]. simpl in *. apply negb_true_iff, orb_false_iff in Ht as [_ Ht].
    apply bool_decide_eq_false in Ht.
    rewrite orb_false_intro; [done|..]; apply bool_decide_eq_false; intros ->; set_solver.
Qed.

Lemma parse_frac_app fr ex t :
  Forall (λ c, is_digit c = true) fr → wf_exp ex → num_stop t = true →
  parse_frac (print_frac fr ++ print_exp ex ++ t) = Some (fr, print_exp ex ++ t).
Proof.
  intros Hfr Hex Ht.
  assert (digit_stop (print_exp ex ++ t) = true) as Hd.
  { destruct ex as [[[[] sg] ds]|]; [done..|]. simpl. by apply num_stop_digit. }
  destruct fr as [|d fr].
  - simpl. destruct (print_exp ex ++ t) as [|c r] eqn:E; [done|]. simpl.
    rewrite bool_decide_false; [done|]. intros ->.
    destruct ex as [[[[] sg] ds]|]; [done..|]. simpl in E. by subst t.
  - assert (span_digits ((d :: fr) ++ print_exp ex ++ t) = (d :: fr, print_exp ex ++ t)) as Hs
      by (by apply span_digits_app).
    cbn [print_frac app parse_frac] in *. by rewrite bool_decide_true, Hs.
Qed.

Lemma parse_number_app n t :
  wf_num n → num_stop t = true → parse_number (print_num n ++ t) = Some (n, t).
Proof.
  destruct n as [neg i f ex]. intros (Hi & Hf & Hex) Ht. rewrite print_num_parts.
  cbn [n_neg n_int n_frac n_exp] in *. rewrite <-!app_assoc. unfold parse_number.
  destruct Hi as [Hid Hi].
  assert (∃ c r, i = c :: r ∧ is_digit c = true) as (c & r & Hc & Hcd).
  { destruct Hi as [->|(c & r & -> & _)]; [by eexists _, _|].
    inversion Hid; subst. by eexists _, _. }
  assert (parse_sign (sign_bytes neg ++ i ++ print_frac f ++ print_exp ex ++ t) =
          (neg, i ++ print_frac f ++ print_exp ex ++ t)) as ->.
  { destruct neg; [done|]. subst i. simpl. rewrite bool_decide_false; [done|]. by intros ->. }
  assert (parse_int_part (i ++ print_frac f ++ print_exp ex ++ t) =
          Some (i, print_frac f ++ print_exp ex ++ t)) as ->.
  { assert (digit_stop (print_frac f ++ print_exp ex ++ t) = true) as Hd.
    { destruct f; [|done]. destruct ex as [[[[] sg] ds]|]; [done..|]. by apply num_stop_digit. }
    destruct Hi as [->|(c' & r' & -> & Hc0)]; [done|].
    simpl. rewrite bool_decide_false by done. inversion Hid as [|?? Hc' Hr']; subst.
    rewrite Hc'. by rewrite span_digits_app. }
  rewrite parse_frac_app by done. by rewrite parse_exp_app.
Qed.

(** Trees whose numbers are literals and whose strings are valid UTF-8. *)
Fixpoint wf_json (j : json) : Prop :=
  match j with
  | JNull | JBool _ => True
  | JNum n => wf_num n
  | JStr s => wf_string s = true
  | JArr l => fold_right (λ x P, wf_json x ∧ P) True l
  | JObj l => fold_right (λ kv P, (wf_string kv.1 = true ∧ wf_json kv.2) ∧ P) True l
  end.

Lemma wf_json_arr l : wf_json (JArr l) ↔ Forall wf_json l.
Proof. simpl. induction l as [|x l IH]; simpl; [done|]. by rewrite IH, Forall_cons. Qed.

Lemma wf_json_obj l :
  wf_json (JObj l) ↔ Forall (λ kv, wf_string kv.1 = true ∧ wf_json kv.2) l.
Proof. simpl. induction l as [|x l IH]; simpl; [done|]. by rewrite IH, Forall_cons. Qed.

(** The first byte of a printed value: no white space, no closing bracket. *)
Definition value_start (b : bytes) : bool :=
  match b with
  | [] => false
  | c :: _ => negb (is_ws c || bool_decide (c ∈ ["]"%char; "}"%char]))
  end.

Lemma skip_ws_start b t : value_start b = true → skip_ws (b ++ t) = b ++ t.
Proof.
  destruct b as [|c b]; [done|]. simpl. intros [H _]%negb_true_iff%orb_false_iff. by rewrite H.
Qed.

Lemma print_num_start n t :
  wf_num n → ∃ c r, print_num n ++ t = c :: r ∧ (is_digit c = true ∨ c = "-"%char).
Proof.
  intros ([Hd Hi] & _). rewrite print_num_parts. destruct n as [[] i f ex]; simpl in *; [eauto|].
  destruct i as [|c i]; [destruct Hi as [?|(?&?&?&?)]; done|]. inversion Hd; subst.
  simpl. eauto.
Qed.

Lemma digit_cases c :
  is_digit c = true ∨ c = "-"%char →
  is_ws c = false ∧ c ∉ [quote_char; "{"%char; "["%char; "t"%char; "f"%char; "n"%char; "]"%char; "}"%char].
Proof.
  intros [H| ->]; [|split; [done|by_decide]].
  destruct c as [[] [] [] [] [] [] [] []]; try discriminate H; (split; [reflexivity|by_decide]).
Qed.

Lemma print_json_start j : wf_json j → value_start (print_json j) = true.
Proof.
  destruct j as [|[]|n|s|l|l]; try done. simpl. intros Hn.
  destruct (print_num_start n [] Hn) as (c & r & Hc & Hcc). rewrite app_nil_r in Hc.
  rewrite Hc. simpl. destruct (digit_cases c Hcc) as [-> Hni].
  rewrite bool_decide_false; [done|]. set_solver.
Qed.

Lemma parse_value_num fuel n t :
  wf_num n → num_stop t = true → parse_value (S fuel) (print_num n ++ t) = Some (JNum n, t).
Proof.
  intros Hn Ht. pose proof (parse_number_app n t Hn Ht) as Hp.
  destruct (print_num_start n t Hn) as (c & r & Hc & Hcc). rewrite Hc in *.
  destruct (digit_cases c Hcc) as [Hws Hni]. cbn [parse_value skip_ws]. rewrite Hws.
  rewrite !bool_decide_false by set_solver. by rewrite Hp.
Qed.

Lemma parse_value_str fuel s t :
  wf_string s = true → parse_value (S fuel) (print_string s ++ t) = Some (JStr s, t).
Proof.
  intros Hs. unfold print_string. cbn [app parse_value skip_ws].
  change (is_ws quote_char) with false. cbn iota. rewrite bool_decide_true by done.
  rewrite <-app_assoc. cbn [app]. rewrite parse_print_string; [by rewrite of_to_bytes|done|].
  unfold print_string. simpl. rewrite !length_app. simpl. lia.
Qed.

(** What the parser does on the text printed for a tree, with enough fuel. *)
Definition parses (j : json) : Prop :=
  ∀ fuel t, length (print_json j) < fuel → num_stop t = true →
  parse_value fuel (print_json j ++ t) = Some (j, t).

Lemma sep_commas_cons x y l :
  sep_commas (x :: y :: l) = x ++ ","%char :: sep_commas (y :: l).
Proof. done. Qed.

Lemma length_sep_commas_cons x l :
  length (sep_commas (x :: l)) ≥ length x.
Proof. destruct l; simpl; [lia|]. rewrite length_app. lia. Qed.

Lemma parse_elems_app l fuel t :
  l ≠ [] → Forall parses l →
  length (sep_commas (map print_json l)) + 1 < fuel →
  parse_elems fuel (sep_commas (map print_json l) ++ "]"%char :: t) = Some (l, t).
Proof.
  intros Hne Hl. revert fuel. induction Hl as [|j l Hj Hl IH]; intros fuel Hf; [done|].
  destruct fuel as [|fuel]; [lia|]. destruct l as [|j2 l].
  - simpl in *. rewrite Hj by (simpl; first [lia|done]). done.
  - cbn [map] in Hf |- *. rewrite sep_commas_cons in Hf |- *. rewrite length_app in Hf. cbn [length] in Hf.
    rewrite <-app_assoc. cbn [app parse_elems]. rewrite Hj by first [lia|done].
    cbn [skip_ws is_ws]. change (is_ws ",") with false. cbn iota.
    change (print_json j2 :: map print_json l) with (map print_json (j2 :: l)) in Hf |- *.
    rewrite IH; [done|done|lia].
Qed.

Definition print_member (kv : string * json) : bytes :=
  print_string kv.1 ++ ":"%char :: print_json kv.2.

Lemma parse_members_app l fuel t :
  l ≠ [] → Forall (λ kv, wf_string kv.1 = true ∧ parses kv.2) l →
  length (sep_commas (map print_member l)) + 1 < fuel →
  parse_members fuel (sep_commas (map print_member l) ++ "}"%char :: t) = Some (l, t).
Proof.
  intros Hne Hl. revert fuel. induction Hl as [|[k j] l [Hk Hj] Hl IH]; intros fuel Hf; [done|].
  simpl in Hk, Hj. destruct fuel as [|fuel]; [lia|].
  assert (∀ r, num_stop r = true → length (print_json j) < fuel →
    parse_members (S fuel) (print_member (k, j) ++ r) =
    match skip_ws r with
    | ","%char :: t => match parse_members fuel t with
                       | Some (l, t) => Some ((k, j) :: l, t) | None => None end
    | "}"%char :: t => Some ([(k, j)], t)
    | _ => None
    end) as Hstep.
  { intros r Hr Hlen. unfold print_member, print_string. simpl fst. simpl snd.
    rewrite <-app_assoc. cbn [app parse_members skip_ws].
    change (is_ws quote_char) with false. cbn iota. rewrite bool_decide_true by done.
    rewrite <-app_assoc. cbn [app].
    rewrite parse_print_string; [|done|unfold print_string; simpl; rewrite !length_app; simpl; lia].
    rewrite of_to_bytes. cbn [skip_ws]. change (is_ws ":") with false. cbn iota.
    rewrite Hj by done. done. }
  destruct l as [|kv2 l].
  - cbn [map sep_commas] in *. unfold print_member in Hf. rewrite length_app in Hf. simpl in Hf.
    rewrite Hstep by first [lia|done]. done.
  - cbn [map] in Hf |- *. rewrite sep_commas_cons in Hf |- *. rewrite length_app in Hf.
    assert (length (print_json j) < length (print_member (k, j))).
    { unfold print_member. rewrite length_app. simpl. lia. }
    cbn [length] in Hf. rewrite <-app_assoc. cbn [app]. rewrite Hstep by first [lia|done].
    cbn [skip_ws]. change (is_ws ",") with false. cbn iota.
    change (print_member kv2 :: map print_member l) with (map print_member (kv2 :: l)) in Hf |- *.
    rewrite IH; [done|done|lia].
Qed.

Lemma sep_commas_start x l t :
  value_start x = true → value_start (sep_commas (x :: l) ++ t) = true.
Proof. destruct x as [|c x]; [done|]. by destruct l. Qed.

(** After an opening bracket the text of a non-empty list starts no closing one. *)
Lemma open_bracket {A} b (x y : A) (f : bytes → A) :
  value_start b = true →
  (match skip_ws b with
   | "]"%char :: t => f t
   | _ => y
   end = y) ∧
  (match skip_ws b with
   | "}"%char :: t => f t
   | _ => y
   end = y).
Proof.
  intros Hb. assert (skip_ws b = b) as ->.
  { pose proof (skip_ws_start b []) as H. rewrite app_nil_r in H. by apply H. }
  destruct b as [|c b]; [done|]. simpl in Hb.
  apply negb_true_iff, orb_false_iff in Hb as [_ Hb]. bools.
  destruct c as [[] [] [] [] [] [] [] []]; try done; set_solver.
Qed.

Lemma wf_json_parses j : wf_json j → parses j.
Proof.
  induction j as [| b | n | s | l IH | l IH] using json_ind_deep; intros Hwf fuel t Hf Ht;
    (destruct fuel as [|fuel]; [lia|]).
  - done.
  - by destruct b.
  - by apply parse_value_num.
  - by apply parse_value_str.
  - apply wf_json_arr in Hwf. destruct l as [|j l]; [done|].
    assert (Forall parses (j :: l)) as Hp.
    { apply Forall_forall. intros x Hx. rewrite Forall_forall in IH, Hwf. auto. }
    cbn [print_json] in Hf |- *. rewrite <-app_comm_cons, <-app_assoc.
    cbn [parse_value skip_ws]. change (is_ws "[") with false. cbn iota.
    rewrite (bool_decide_false ("["%char = quote_char)) by done.
    rewrite (bool_decide_false ("["%char = "{"%char)) by done.
    rewrite (bool_decide_true ("["%char = "["%char)) by done.
    simpl app at 2. destruct (open_bracket (A := option (json * bytes))
      (sep_commas (map print_json (j :: l)) ++ "]"%char :: t) None
      (match parse_elems fuel (sep_commas (map print_json (j :: l)) ++ "]"%char :: t) with
       | Some (l, t) => Some (JArr l, t) | None => None end) (λ t, Some (JArr [], t))) as [Ho _].
    { inversion Hwf; subst. apply sep_commas_start. by apply print_json_start. }
    etransitivity; [exact Ho|].
    rewrite parse_elems_app; [done|done|done|].
    simpl length in Hf. rewrite length_app in Hf. simpl in Hf. simpl. lia.
  - apply wf_json_obj in Hwf. destruct l as [|kv l]; [done|].
    assert (Forall (λ kv, wf_string kv.1 = true ∧ parses kv.2) (kv :: l)) as Hp.
    { apply Forall_forall. intros x Hx. rewrite Forall_forall in IH, Hwf.
      destruct (Hwf x Hx). auto. }
    cbn [print_json] in Hf |- *. rewrite <-app_comm_cons, <-app_assoc.
    cbn [parse_value skip_ws]. change (is_ws "{") with false. cbn iota.
    rewrite (bool_decide_false ("{"%char = quote_char)) by done.
    rewrite (bool_decide_true ("{"%char = "{"%char)) by done.
    fold print_member in *. change (λ kv, print_string kv.1 ++ ":"%char :: print_json kv.2)
      with print_member in Hf |- *.
    simpl app at 2. destruct (open_bracket (A := option (json * bytes))
      (sep_commas (map print_member (kv :: l)) ++ "}"%char :: t) None
      (match parse_members fuel (sep_commas (map print_member (kv :: l)) ++ "}"%char :: t) with
       | Some (l, t) => Some (JObj l, t) | None => None end) (λ t, Some (JObj [], t))) as [_ Ho].
    { by apply sep_commas_start. }
    etransitivity; [exact Ho|].
    rewrite parse_members_app; [done|done|done|].
    simpl length in Hf. rewrite length_app in Hf. simpl in Hf. simpl. lia.
Qed.

(** Parsing the printed text of a well-formed tree gives the tree back. *)
Lemma parse_print_json j : wf_json j → parse_json (print_json j) = Some j.
Proof.
  intros Hj. unfold parse_json. pose proof (wf_json_parses j Hj (S (length (print_json j))) []) as H.
  rewrite app_nil_r in H. rewrite H; [done|lia|done].
Qed.

(** ** The printed text has no line break *)
Abbreviation no_nl b := (Forall (λ c, c ≠ newline) b).

Lemma no_nl_ascii c : (N_of_ascii c <? 128)%N = true →
  no_nl (if json_safe c then [c] else escape_ascii c).
Proof.
  destruct c as [[] [] [] [] [] [] [] []]; intros H; first [discriminate H|by_decide].
Qed.

Lemma no_nl_rune b u r : (∀ c t, b = c :: t → (N_of_ascii c <? 128)%N = false) →
  decode_rune b = Some (u, r) → no_nl u.
Proof.
  intros Hb. destruct b as [|c0 r0]; [done|]. simpl. rewrite (Hb c0 r0) by done.
  specialize (Hb c0 r0 eq_refl).
  assert (∀ lo hi c, (128 <= lo)%N → in_range lo hi c = true → c ≠ newline) as Hrange.
  { intros lo hi c Hlo Hc ->. unfold in_range in Hc. bools. simpl in *. lia. }
  destruct (utf8_accept c0) as [[[lo hi] k]|] eqn:Ha; [|done].
  destruct r0 as [|c1 r1]; [done|]. destruct (in_range lo hi c1) eqn:H1; [|done].
  destruct (take_cont k r1) as [[u' r']|] eqn:E; [|done]. intros [= <- <-].
  assert (128 <= lo)%N by (unfold utf8_accept in Ha; repeat case_match; simplify_eq; lia).
  repeat constructor; [by intros ->|by eapply Hrange|].
  clear Ha H1. revert r1 u' r' E. induction k as [|k IH]; intros r1 u' r' E; simpl in E.
  { by simplify_eq. }
  destruct r1 as [|c r1]; [done|]. destruct (in_range 128 191 c) eqn:Hc; [|done].
  destruct (take_cont k r1) as [[u2 r2]|] eqn:E2; [|done]. simplify_eq.
  constructor; [by eapply Hrange; [|done]|eauto].
Qed.

Lemma no_nl_quote n b : no_nl (quote_fuel n b).
Proof.
  revert b. induction n as [|n IH]; intros b; [destruct b; constructor|].
  destruct b as [|c b]; [constructor|]. cbn [quote_fuel].
  destruct (N_of_ascii c <? 128)%N eqn:Hc.
  { apply Forall_app; split; [by apply no_nl_ascii|done]. }
  destruct (decode_rune (c :: b)) as [[u r]|] eqn:Hd; apply Forall_app; split; auto.
  - repeat case_bool_decide; [by_decide..|]. eapply no_nl_rune; [|done]. by intros ? ? [= <- <-].
  - by_decide.
Qed.

Lemma no_nl_string s : no_nl (print_string s).
Proof.
  unfold print_string. constructor; [done|]. apply Forall_app; split; [apply no_nl_quote|].
  by repeat constructor.
Qed.

Lemma no_nl_digits ds : Forall (λ c, is_digit c = true) ds → no_nl ds.
Proof. intros H. eapply Forall_impl; [exact H|]. by intros c Hc ->. Qed.

Lemma no_nl_num n : wf_num n → no_nl (print_num n).
Proof.
  intros ([Hi _] & Hf & He). rewrite print_num_parts. destruct n as [neg i f ex]; simpl in *.
  repeat apply Forall_app_2; auto using no_nl_digits.
  - destruct neg; by repeat constructor.
  - destruct f; [constructor|]. constructor; [done|]. by apply no_nl_digits.
  - destruct ex as [[[up sg] ds]|]; [|constructor]. destruct He as (Hsg & _ & Hds).
    constructor; [by destruct up|]. apply Forall_app; split; [|by apply no_nl_digits].
    destruct Hsg as [->|[->| ->]]; by repeat constructor.
Qed.

Lemma no_nl_sep l : Forall (λ b, no_nl b) l → no_nl (sep_commas l).
Proof.
  induction 1 as [|x l Hx Hl IH]; [constructor|]. destruct l as [|y l]; [done|].
  rewrite sep_commas_cons. apply Forall_app; split; [done|]. by constructor.
Qed.

Lemma no_nl_json j : wf_json j → no_nl (print_json j).
Proof.
  induction j as [| [] | n | s | l IH | l IH] using json_ind_deep; intros Hwf.
  - by_decide.
  - by_decide.
  - by_decide.
  - by apply no_nl_num.
  - apply no_nl_string.
  - apply wf_json_arr in Hwf. cbn [print_json]. constructor; [done|]. apply Forall_app; split; [|by repeat constructor].
    apply no_nl_sep, Forall_fmap, Forall_forall. intros x Hx. rewrite Forall_forall in IH, Hwf. auto.
  - apply wf_json_obj in Hwf. cbn [print_json]. constructor; [done|]. apply Forall_app; split; [|by repeat constructor].
    apply no_nl_sep, Forall_fmap, Forall_forall. intros [k v] Hx. rewrite Forall_forall in IH, Hwf.
    apply Forall_app; split; [apply no_nl_string|]. constructor; [done|].
    destruct (Hwf _ Hx). by apply (IH _ Hx).
Qed.
