(* ===== verification/GoBase64.v ===== *)
(** * base64.RawURLEncoding

    The unpadded URL-safe base64 of Go's [encoding/base64], used for page tokens
    and encryption envelopes: [EncodeToString], and [DecodeString] with its
    leniency (line breaks are skipped, the unused bits of the last character are
    not checked). *)

From S2P Require Import Prelude.

Definition b64_alphabet : bytes :=
  to_bytes "ABCDEFGHIJKLMNOPQRSTUVWXYZabcdefghijklmnopqrstuvwxyz0123456789-_".

Definition b64_char (n : N) : ascii := nth (N.to_nat n) b64_alphabet "A"%char.

(** The value of a character; [None] outside the alphabet. *)
Definition b64_val (c : ascii) : option N :=
  let n := N_of_ascii c in
  if ((65 <=? n) && (n <=? 90))%N%bool then Some (n - 65)%N
  else if ((97 <=? n) && (n <=? 122))%N%bool then Some (n - 71)%N
  else if ((48 <=? n) && (n <=? 57))%N%bool then Some (n + 4)%N
  else if (n =? 45)%N then Some 62%N
  else if (n =? 95)%N then Some 63%N
  else None.

(** [EncodeToString]: three bytes to four characters, one or two bytes at the end
    to two or three. *)
Fixpoint b64_encode (b : bytes) : bytes :=
  match b with
  | x :: y :: z :: b' =>
      let v := (N_of_ascii x * 65536 + N_of_ascii y * 256 + N_of_ascii z)%N in
      b64_char (v / 262144) :: b64_char (v / 4096 mod 64) :: b64_char (v / 64 mod 64) ::
        b64_char (v mod 64) :: b64_encode b'
  | [x; y] =>
      let v := (N_of_ascii x * 1024 + N_of_ascii y * 4)%N in
      [b64_char (v / 4096); b64_char (v / 64 mod 64); b64_char (v mod 64)]
  | [x] =>
      let v := (N_of_ascii x * 16)%N in [b64_char (v / 64); b64_char (v mod 64)]
  | [] => []
  end.

Definition is_line_break (c : ascii) : bool := ((N_of_ascii c =? 10) || (N_of_ascii c =? 13))%N%bool.

(** The values of the characters after the line breaks are dropped. *)
Fixpoint b64_vals (s : bytes) : option (list N) :=
  match s with
  | [] => Some []
  | c :: s =>
      match b64_val c with
      | Some v => vs ← b64_vals s; Some (v :: vs)
      | None => if is_line_break c then b64_vals s else None
      end
  end.

(** Four values to three bytes; a single value left over is corrupt input. *)
Fixpoint b64_groups (vs : list N) : option bytes :=
  match vs with
  | a :: b :: c :: d :: vs' =>
      let v := (a * 262144 + b * 4096 + c * 64 + d)%N in
      rest ← b64_groups vs';
      Some (ascii_of_N (v / 65536) :: ascii_of_N (v / 256 mod 256) :: ascii_of_N (v mod 256) :: rest)
  | [a; b; c] =>
      let v := (a * 4096 + b * 64 + c)%N in
      Some [ascii_of_N (v / 1024); ascii_of_N (v / 4 mod 256)]
  | [a; b] => Some [ascii_of_N ((a * 64 + b) / 16)]
  | [_] => None
  | [] => Some []
  end.

Definition b64_decode (s : bytes) : option bytes := b64_vals s ≫= b64_groups.

(** ** Round trip *)

(** Let [lia] reason about division and remainder in this file. *)
#[local] Ltac Zify.zify_post_hook ::= Z.to_euclidean_division_equations.

Lemma b64_val_char n : (n < 64)%N → b64_val (b64_char n) = Some n.
Proof.
  intros Hn. assert (∀ k, (k < 64)%nat → b64_val (b64_char (N.of_nat k)) = Some (N.of_nat k)) as H.
  { intros k Hk. do 64 (destruct k as [|k]; [vm_compute; reflexivity|]). lia. }
  rewrite <-(N2Nat.id n). apply H. lia.
Qed.

Lemma N_of_ascii_lt c : (N_of_ascii c < 256)%N.
Proof. apply N_ascii_bounded. Qed.

Lemma ascii_of_N_eq c n : n = N_of_ascii c → ascii_of_N n = c.
Proof. intros ->. apply ascii_N_embedding. Qed.

(** Case split for the strong induction along triples. *)
Lemma triple_ind (P : bytes → Prop) :
  P [] → (∀ x, P [x]) → (∀ x y, P [x; y]) → (∀ x y z b, P b → P (x :: y :: z :: b)) → ∀ b, P b.
Proof.
  intros H0 H1 H2 H3. fix IH 1. intros [|x [|y [|z b]]]; [exact H0|apply H1|apply H2|apply H3, IH].
Qed.

Lemma b64_vals_char n s vs : (n < 64)%N → b64_vals s = Some vs → b64_vals (b64_char n :: s) = Some (n :: vs).
Proof. intros Hn Hs. simpl. by rewrite b64_val_char, Hs. Qed.

Lemma mod64_lt n : (n mod 64 < 64)%N.
Proof. by apply N.mod_lt. Qed.

(** The digits of a number in base 64 give it back. *)
Lemma digits3 v : (v / 4096 * 4096 + v / 64 mod 64 * 64 + v mod 64 = v)%N.
Proof.
  assert (v / 4096 = v / 64 / 64)%N as -> by (rewrite N.Div0.div_div; done).
  pose proof (N.div_mod v 64). pose proof (N.div_mod (v / 64) 64).
  generalize dependent (v / 64)%N. intros q. generalize (q / 64)%N (q mod 64)%N (v mod 64)%N. lia.
Qed.

Lemma digits4 v : (v / 262144 * 262144 + v / 4096 mod 64 * 4096 + v / 64 mod 64 * 64 + v mod 64 = v)%N.
Proof.
  pose proof (digits3 (v / 64)) as H. rewrite !N.Div0.div_div in H.
  change (64 * 4096)%N with 262144%N in H. change (64 * 64)%N with 4096%N in H.
  pose proof (N.div_mod v 64 ltac:(done)) as H'. revert H H'.
  generalize (v / 262144)%N (v / 4096 mod 64)%N (v / 64 mod 64)%N (v mod 64)%N (v / 64)%N. lia.
Qed.

Lemma b64_decode_encode b : b64_decode (b64_encode b) = Some b.
Proof.
  unfold b64_decode. induction b as [|x|x y|x y z b IH] using triple_ind.
  - done.
  - pose proof (N_of_ascii_lt x) as Hx. cbn [b64_encode].
    erewrite b64_vals_char; [|lia|apply b64_vals_char; [apply mod64_lt|done]].
    cbn [mbind option_bind b64_groups]. do 2 f_equal. apply ascii_of_N_eq.
    rewrite (N.mul_comm _ 64), <-N.Div0.div_mod. lia.
  - pose proof (N_of_ascii_lt x) as Hx. pose proof (N_of_ascii_lt y) as Hy. cbn [b64_encode].
    erewrite b64_vals_char; [|lia|apply b64_vals_char; [apply mod64_lt|apply b64_vals_char; [apply mod64_lt|done]]].
    cbn [mbind option_bind b64_groups]. rewrite digits3.
    assert ((N_of_ascii x * 1024 + N_of_ascii y * 4) / 4 = N_of_ascii x * 256 + N_of_ascii y)%N as -> by lia.
    f_equal. f_equal; [|f_equal]; apply ascii_of_N_eq; lia.
  - pose proof (N_of_ascii_lt x) as Hx. pose proof (N_of_ascii_lt y) as Hy. pose proof (N_of_ascii_lt z) as Hz.
    destruct (b64_vals (b64_encode b)) as [vs|] eqn:E; [|done].
    cbn [b64_encode].
    erewrite b64_vals_char; [|lia|apply b64_vals_char; [apply mod64_lt|apply b64_vals_char;
      [apply mod64_lt|apply b64_vals_char; [apply mod64_lt|exact E]]]].
    cbn [mbind option_bind b64_groups] in IH |- *. rewrite IH, digits4. cbn [mbind option_bind].
    assert ((N_of_ascii x * 65536 + N_of_ascii y * 256 + N_of_ascii z) / 256 = N_of_ascii x * 256 + N_of_ascii y)%N
      as -> by lia.
    f_equal. f_equal; [|f_equal; [|f_equal]]; apply ascii_of_N_eq; lia.
Qed.

(** An encoding holds only characters of the alphabet. *)
Lemma b64_char_not_colon n : b64_char n ≠ ":"%char.
Proof.
  unfold b64_char. generalize (N.to_nat n). intros k.
  do 64 (destruct k as [|k]; [vm_compute; discriminate|]). vm_compute. by destruct k.
Qed.

Lemma b64_encode_not_colon b : Forall (λ c, c ≠ ":"%char) (b64_encode b).
Proof.
  induction b as [|x|x y|x y z b IH] using triple_ind; cbn [b64_encode];
    repeat constructor; auto using b64_char_not_colon.
Qed.

Lemma b64_encode_nil b : b64_encode b = [] → b = [].
Proof. by destruct b as [|x [|y [|z b]]]. Qed.
