(* ===== verification/Value.v ===== *)
(** * Record values

    The interface values ([any]) a record holds, their [%v] rendering, and their
    conversion to and from JSON trees.  A record's data is a finite map from
    field names to values ([map[string]any]). *)

From S2P Require Import Prelude GoFloat GoJson.
From Stdlib Require Import SpecFloat.

#[warnings="-register-all"]
Inductive any :=
  | VNil
  | VBool (b : bool)
  | VFloat (x : f64)
  | VInt (z : Z)
  | VStr (s : string)
  | VList (l : list any)
  | VMap (m : list (string * any)).

Section any_ind.
Variable P : any → Prop.
Hypothesis HNil : P VNil.
Hypothesis HBool : ∀ b, P (VBool b).
Hypothesis HFloat : ∀ x, P (VFloat x).
Hypothesis HInt : ∀ z, P (VInt z).
Hypothesis HStr : ∀ s, P (VStr s).
Hypothesis HList : ∀ l, Forall P l → P (VList l).
Hypothesis HMap : ∀ m, Forall (λ kv, P kv.2) m → P (VMap m).

Fixpoint any_ind_deep (v : any) : P v :=
  match v with
  | VNil => HNil
  | VBool b => HBool b
  | VFloat x => HFloat x
  | VInt z => HInt z
  | VStr s => HStr s
  | VList l => HList l ((fix go l := match l return Forall P l with
                         | [] => Forall_nil_2 _
                         | x :: l => Forall_cons_2 _ _ _ (any_ind_deep x) (go l)
                         end) l)
  | VMap m => HMap m ((fix go l := match l return Forall (λ kv, P kv.2) l with
                       | [] => Forall_nil_2 _
                       | x :: l => Forall_cons_2 _ _ _ (any_ind_deep x.2) (go l)
                       end) m)
  end.
End any_ind.

(** A record's data. *)
Abbreviation doc := (gmap string any).

(** ** [fmt.Sprintf("%v", v)] *)
Fixpoint sep_spaces (l : list bytes) : bytes :=
  match l with
  | [] => []
  | [x] => x
  | x :: l => x ++ " "%char :: sep_spaces l
  end.

Fixpoint fmt_v (v : any) : bytes :=
  match v with
  | VNil => to_bytes "<nil>"
  | VBool b => to_bytes (if b then "true" else "false")
  | VFloat x => fmt_g x
  | VInt z => fmt_int z
  | VStr s => to_bytes s
  | VList l => "["%char :: sep_spaces (map fmt_v l) ++ ["]"%char]
  | VMap m => to_bytes "map[" ++
      sep_spaces (map (λ kv, to_bytes kv.1 ++ ":"%char :: fmt_v kv.2) m) ++ ["]"%char]
  end.

Definition sprint (v : any) : string := of_bytes (fmt_v v).

(** ** Values to JSON trees ([json.Marshal])

    A non-finite float is an [UnsupportedValueError]. *)
Fixpoint to_json (v : any) : result json :=
  match v with
  | VNil => Ok JNull
  | VBool b => Ok (JBool b)
  | VFloat x => if f64_finite x then Ok (JNum (json_num x)) else Err ErrUnsupportedValue
  | VInt z => Ok (JNum (json_int z))
  | VStr s => Ok (JStr s)
  | VList l => match mapR to_json l with Ok js => Ok (JArr js) | Err e => Err e end
  | VMap m =>
      match mapR (λ kv, match to_json kv.2 with Ok j => Ok (kv.1, j) | Err e => Err e end) m with
      | Ok js => Ok (JObj js)
      | Err e => Err e
      end
  end.

Definition field_to_json (kv : string * any) : result (string * json) :=
  match to_json kv.2 with Ok j => Ok (kv.1, j) | Err e => Err e end.

(** The tree of a record's data: the fields in key order. *)
Definition doc_to_json (d : doc) : result json :=
  match mapR field_to_json (sorted_pairs d) with Ok js => Ok (JObj js) | Err e => Err e end.

(** ** JSON trees to values ([json.Unmarshal] into an [any])

    Numbers become [float64] ([strconv.ParseFloat]; a range error fails the
    decoding), objects become maps in which the last duplicate key wins. *)
Fixpoint assoc_insert {A} (k : string) (v : A) (m : list (string * A)) : list (string * A) :=
  match m with
  | [] => [(k, v)]
  | (k', v') :: m' =>
      match str_compare k k' with
      | Lt => (k, v) :: m
      | Eq => (k, v) :: m'
      | Gt => (k', v') :: assoc_insert k v m'
      end
  end.

Definition num_to_f64 (n : numlit) : result f64 :=
  let '(s, d, q) := num_value n in
  let x := dec_round s d q in
  if f64_finite x then Ok x else Err ErrSyntax.

Fixpoint of_json (j : json) : result any :=
  match j with
  | JNull => Ok VNil
  | JBool b => Ok (VBool b)
  | JNum n => match num_to_f64 n with Ok x => Ok (VFloat x) | Err e => Err e end
  | JStr s => Ok (VStr s)
  | JArr l => match mapR of_json l with Ok vs => Ok (VList vs) | Err e => Err e end
  | JObj l =>
      match mapR (λ kv, match of_json kv.2 with Ok v => Ok (kv.1, v) | Err e => Err e end) l with
      | Ok kvs => Ok (VMap (fold_left (λ m kv, assoc_insert kv.1 kv.2 m) kvs []))
      | Err e => Err e
      end
  end.

Definition field_of_json (kv : string * json) : result (string * any) :=
  match of_json kv.2 with Ok v => Ok (kv.1, v) | Err e => Err e end.

(** [json.Unmarshal] into a [map[string]any]: [null] leaves it nil. *)
Definition doc_of_json (j : json) : result (option doc) :=
  match j with
  | JNull => Ok None
  | JObj l =>
      match mapR field_of_json l with
      | Ok kvs => Ok (Some (assign_all kvs ∅))
      | Err e => Err e
      end
  | _ => Err ErrSyntax
  end.

(** [json.Unmarshal] of a text into an [any]. *)
Definition unmarshal_any (b : bytes) : result any :=
  match parse_json b with Some j => of_json j | None => Err ErrSyntax end.

(** ** What a value becomes after a trip through JSON *)
Fixpoint norm (v : any) : any :=
  match v with
  | VInt z => VFloat (f64_of_Z z)
  | VList l => VList (map norm l)
  | VMap m => VMap (map (λ kv, (kv.1, norm kv.2)) m)
  | v => v
  end.

Definition norm_doc (d : doc) : doc := norm <$> d.

(** Values JSON can carry without loss: finite numbers, integers that print like
    the float they decode to, valid UTF-8 strings, maps with their keys in strict
    order. *)
Definition int_exact (z : Z) : bool :=
  f64_ok (f64_of_Z z) && bool_decide (json_num (f64_of_Z z) = json_int z).

Fixpoint keys_sorted {A} (m : list (string * A)) : bool :=
  match m with
  | (k1, _) :: (((k2, _) :: _) as m') => bool_decide (str_lt k1 k2) && keys_sorted m'
  | _ => true
  end.

Fixpoint wf_any (v : any) : bool :=
  match v with
  | VNil | VBool _ => true
  | VFloat x => f64_ok x
  | VInt z => int_exact z
  | VStr s => wf_string s
  | VList l => forallb wf_any l
  | VMap m => keys_sorted m && forallb (λ kv, wf_string kv.1 && wf_any kv.2) m
  end.

Definition wf_field (kv : string * any) : bool := wf_string kv.1 && wf_any kv.2.
Definition wf_doc (d : doc) : Prop := map_Forall (λ k v, wf_field (k, v) = true) d.

#[global] Instance wf_doc_dec d : Decision (wf_doc d).
Proof. unfold wf_doc. apply _. Defined.

(** ** The value round trip *)
Lemma f64_ok_finite x : f64_ok x = true → f64_finite x = true.
Proof. by destruct x. Qed.

Lemma dec_round_int z : dec_round (z <? 0)%Z (Z.abs_N z) 0 = f64_of_Z z.
Proof.
  destruct z as [|p|p]; [done|..]; unfold dec_round; simpl; by rewrite Pos.mul_1_r.
Qed.

Lemma num_to_f64_json x : f64_ok x = true → num_to_f64 (json_num x) = Ok x.
Proof.
  intros Hx. pose proof (json_num_value x Hx) as H. unfold num_to_f64.
  destruct (num_value (json_num x)) as [[s d] q]. rewrite H. by rewrite f64_ok_finite.
Qed.

Lemma num_to_f64_int z : f64_finite (f64_of_Z z) = true → num_to_f64 (json_int z) = Ok (f64_of_Z z).
Proof.
  intros Hz. pose proof (json_int_value z) as H. unfold num_to_f64.
  destruct (num_value (json_int z)) as [[s d] q]. destruct H as (-> & -> & ->).
  by rewrite dec_round_int, Hz.
Qed.

Lemma keys_sorted_cons {A} (k : string) (v : A) m :
  keys_sorted ((k, v) :: m) = true → keys_sorted m = true ∧ Forall (λ kv, str_lt k kv.1) m.
Proof.
  revert k v. induction m as [|[k2 v2] m IH]; intros k v H; [done|].
  change (bool_decide (str_lt k k2) && keys_sorted ((k2, v2) :: m) = true) in H.
  bools. destruct (IH _ _ H0) as [Hs Hall].
  split; [done|]. constructor; [done|].
  eapply Forall_impl; [exact Hall|]. intros [k3 v3]. by apply str_lt_trans.
Qed.

Lemma assoc_insert_last {A} k (v : A) m :
  Forall (λ kv, str_lt kv.1 k) m → assoc_insert k v m = m ++ [(k, v)].
Proof.
  induction 1 as [|[k' v'] m Hk _ IH]; simpl; [done|].
  rewrite str_compare_antisym. unfold str_lt in Hk. simpl in Hk. rewrite Hk. simpl. by rewrite IH.
Qed.

Lemma fold_assoc_insert_sorted {A} (m acc : list (string * A)) :
  keys_sorted m = true →
  Forall (λ kv, Forall (λ kv', str_lt kv.1 kv'.1) m) acc →
  fold_left (λ m kv, assoc_insert kv.1 kv.2 m) m acc = acc ++ m.
Proof.
  revert acc. induction m as [|[k v] m IH]; intros acc Hs Hacc; simpl.
  { by rewrite app_nil_r. }
  destruct (keys_sorted_cons _ _ _ Hs) as [Hs' Hk].
  rewrite assoc_insert_last.
  2:{ eapply Forall_impl; [exact Hacc|]. intros kv H. by inversion H. }
  rewrite IH; [by rewrite <-app_assoc|done|].
  apply Forall_app; split; [|by constructor].
  eapply Forall_impl; [exact Hacc|]. intros kv H. by inversion H.
Qed.

Lemma keys_sorted_map {A B} (f : A → B) (m : list (string * A)) :
  keys_sorted (map (λ kv, (kv.1, f kv.2)) m) = keys_sorted m.
Proof. induction m as [|[k v] [|[k2 v2] m] IH]; [done|done|]. cbn [map keys_sorted fst] in *. by rewrite IH. Qed.

(** Encoding a well-formed value succeeds, gives a well-formed tree, and
    decoding the tree gives the value with its integers turned to floats. *)
Lemma to_json_roundtrip v :
  wf_any v = true → ∃ j, to_json v = Ok j ∧ wf_json j ∧ of_json j = Ok (norm v).
Proof.
  induction v as [| b | x | z | s | l IH | m IH] using any_ind_deep; intros Hwf; simpl in Hwf.
  - by eexists.
  - by eexists.
  - exists (JNum (json_num x)). simpl. rewrite f64_ok_finite, num_to_f64_json by done.
    auto using wf_json_num.
  - unfold int_exact in Hwf. bools.
    exists (JNum (json_int z)). cbn [to_json of_json norm wf_json].
    rewrite num_to_f64_int by auto using f64_ok_finite.
    auto using wf_json_int.
  - by exists (JStr s).
  - assert (∃ js, mapR to_json l = Ok js ∧ Forall wf_json js ∧ mapR of_json js = Ok (map norm l))
      as (js & H1 & H2 & H3).
    { induction IH as [|v l Hv _ IHl]; [by exists []|]. simpl in Hwf. bools.
      destruct Hv as (j & Hj & Hjwf & Hjo); [done|]. destruct IHl as (js & H1 & H2 & H3); [done|].
      exists (j :: js). simpl. rewrite Hj, H1, Hjo, H3. auto. }
    exists (JArr js). cbn [to_json of_json norm]. rewrite H1, H3.
    split; [done|]. split; [by apply wf_json_arr|done].
  - bools. fold field_to_json field_of_json.
    assert (∃ js, mapR field_to_json m = Ok js ∧
      Forall (λ kv, wf_string kv.1 = true ∧ wf_json kv.2) js ∧
      mapR field_of_json js = Ok (map (λ kv, (kv.1, norm kv.2)) m)) as (js & H1 & H2 & H3).
    { clear H. induction IH as [|[k v] m Hv _ IHl]; [by exists []|]. simpl in H0. bools.
      destruct Hv as (j & Hj & Hjwf & Hjo); [done|]. simpl in Hj, Hjo.
      destruct IHl as (js & H1' & H2 & H3); [done|]. exists ((k, j) :: js).
      cbn [mapR]. unfold field_to_json at 1, field_of_json at 1. cbn [fst snd].
      rewrite Hj, Hjo, H1', H3. auto. }
    exists (JObj js). cbn [to_json of_json norm]. fold field_to_json field_of_json.
    rewrite H1, H3, fold_assoc_insert_sorted; [|by rewrite keys_sorted_map|done].
    split; [done|]. split; [by apply wf_json_obj|done].
Qed.

Lemma fields_roundtrip (l : list (string * any)) :
  Forall (λ kv, wf_field kv = true) l →
  ∃ js, mapR field_to_json l = Ok js ∧
    Forall (λ kv, wf_string kv.1 = true ∧ wf_json kv.2) js ∧
    mapR field_of_json js = Ok (map (λ kv, (kv.1, norm kv.2)) l).
Proof.
  induction 1 as [|[k v] l Hkv _ IH]; [by exists []|].
  unfold wf_field in Hkv. simpl in Hkv. bools.
  destruct (to_json_roundtrip v) as (j & Hj & Hjwf & Hjo); [done|].
  destruct IH as (js & H1 & H2 & H3). exists ((k, j) :: js).
  cbn [mapR]. unfold field_to_json at 1, field_of_json at 1. cbn [fst snd].
  rewrite Hj, Hjo, H1, H3. auto.
Qed.

Lemma assign_all_map {A B} (f : A → B) (l : list (string * A)) m :
  assign_all (map (λ kv, (kv.1, f kv.2)) l) (f <$> m) = f <$> assign_all l m.
Proof.
  revert m. induction l as [|[k v] l IH]; intros m; [done|].
  unfold assign_all in *. simpl. by rewrite <-fmap_insert, IH.
Qed.

Lemma doc_to_json_roundtrip d :
  wf_doc d → ∃ j, doc_to_json d = Ok j ∧ wf_json j ∧ doc_of_json j = Ok (Some (norm_doc d)).
Proof.
  intros Hd. destruct (fields_roundtrip (sorted_pairs d)) as (js & H1 & H2 & H3).
  { apply Forall_forall. intros [k v] Hkv%elem_of_sorted_pairs. by apply Hd. }
  exists (JObj js). unfold doc_to_json. rewrite H1. split; [done|].
  split; [by apply wf_json_obj|]. cbn [doc_of_json]. rewrite H3.
  rewrite <-(fmap_empty norm), assign_all_map, assign_all_sorted_pairs. done.
Qed.

(** Data without Go integers is unchanged by the trip through a segment. *)
Fixpoint decoded (v : any) : bool :=
  match v with
  | VInt _ => false
  | VList l => forallb decoded l
  | VMap m => forallb (λ kv, decoded kv.2) m
  | _ => true
  end.

Lemma norm_decoded v : decoded v = true → norm v = v.
Proof.
  induction v as [| b | x | z | s | l IH | m IH] using any_ind_deep; simpl; try done; intros H; f_equal.
  - induction IH as [|v l Hv _ IHl]; [done|]. simpl in H. bools. simpl. by rewrite Hv, IHl.
  - induction IH as [|[k v] l Hv _ IHl]; [done|]. simpl in H. bools. simpl in *. by rewrite Hv, IHl.
Qed.

Lemma decoded_norm v : decoded (norm v) = true.
Proof.
  induction v as [| b | x | z | s | l IH | m IH] using any_ind_deep; simpl; try done.
  - induction IH as [|v l Hv _ IHl]; [done|]. simpl. by rewrite Hv.
  - induction IH as [|[k v] l Hv _ IHl]; [done|]. simpl in *. by rewrite Hv.
Qed.

Lemma norm_norm v : norm (norm v) = norm v.
Proof. apply norm_decoded, decoded_norm. Qed.

Lemma norm_doc_norm d : norm_doc (norm_doc d) = norm_doc d.
Proof.
  unfold norm_doc. rewrite <-map_fmap_compose. apply map_fmap_ext.
  intros k v _. apply norm_norm.
Qed.

(** Re-encoding decoded data gives the text it was decoded from, so a checksum
    over the encoding is stable. *)
Lemma to_json_norm v : wf_any v = true → to_json (norm v) = to_json v.
Proof.
  induction v as [| b | x | z | s | l IH | m IH] using any_ind_deep; intros Hwf; simpl in Hwf; try done.
  - unfold int_exact in Hwf. bools. cbn [norm to_json]. rewrite f64_ok_finite by done. by f_equal; f_equal.
  - cbn [norm to_json]. replace (mapR to_json (map norm l)) with (mapR to_json l); [done|].
    induction IH as [|v l Hv _ IHl]; [done|]. simpl in Hwf. bools. simpl. by rewrite Hv, IHl.
  - bools. cbn [norm to_json]. fold field_to_json.
    replace (mapR field_to_json (map (λ kv, (kv.1, norm kv.2)) m)) with (mapR field_to_json m); [done|].
    clear H. induction IH as [|[k v] m Hv _ IHl]; [done|]. simpl in H0. bools.
    cbn [map mapR]. rewrite <-IHl by done. unfold field_to_json. cbn [fst snd] in *. by rewrite Hv.
Qed.

Lemma sorted_pairs_fmap {A B} (f : A → B) (m : gmap string A) :
  sorted_pairs (f <$> m) = map (λ kv, (kv.1, f kv.2)) (sorted_pairs m).
Proof.
  apply (sorted_pairs_unique _ _).
  - apply sorted_pairs_nodup.
  - rewrite sorted_pairs_perm, map_to_list_fmap, <-(sorted_pairs_perm m).
    erewrite map_ext; [reflexivity|]. by intros [].
  - apply sorted_pairs_sorted.
  - apply sorted_pairs_sorted_map.
Qed.

Lemma doc_to_json_norm d : wf_doc d → doc_to_json (norm_doc d) = doc_to_json d.
Proof.
  intros Hd. unfold doc_to_json, norm_doc. rewrite sorted_pairs_fmap.
  assert (Forall (λ kv, wf_field kv = true) (sorted_pairs d)) as Hall.
  { apply Forall_forall. intros [k v] Hkv%elem_of_sorted_pairs. by apply Hd. }
  replace (mapR field_to_json (map _ (sorted_pairs d))) with (mapR field_to_json (sorted_pairs d)); [done|].
  induction Hall as [|[k v] l Hv _ IH]; [done|]. cbn [map mapR]. rewrite <-IH.
  unfold wf_field in Hv. simpl in Hv. bools. unfold field_to_json. cbn [fst snd].
  by rewrite to_json_norm.
Qed.
