(* ===== verification/Query.v ===== *)
(** * Package query: filter evaluation (query/filter.go)

    Filters, their evaluation against a record's data, and the type-aware
    comparison shared by the range operators and by sorting.  The regular
    expression engine ([regexp]) is the class [Regexp]: it compiles a pattern or
    fails, and a compiled pattern matches a text or not. *)

From S2P Require Import Prelude GoFloat GoJson Value.
From Stdlib Require Import SpecFloat.

(** [regexp.Compile(p)] followed by [MatchString(t)]: [None] when the pattern
    does not compile. *)
Class Regexp := regexp_match : string → string → option bool.

(** ** Data *)
Inductive Op :=
  | OpEq | OpNeq | OpGt | OpGte | OpLt | OpLte | OpContains | OpRegex
  | OpUnknown (s : string).

#[global] Instance Op_eq_dec : EqDecision Op.
Proof. solve_decision. Defined.

#[warnings="-register-all"]
Inductive Filter :=
  | MatchAll
  | FieldFilter (Field : string) (op : Op) (Value : string)
  | AndFilter (Filters : list Filter)
  | OrFilter (Filters : list Filter).

(** ** Comparison *)
Definition asNumber (v : any) : option f64 :=
  match v with
  | VFloat x => Some x
  | VInt z => Some (f64_of_Z z)
  | _ => None
  end.

Definition AsNumber (v : any) : option f64 := asNumber v.

Definition equal (a b : any) : bool :=
  match asNumber a, asNumber b with
  | Some af, Some bf => f64_eq af bf
  | _, _ => bool_decide (sprint a = sprint b)
  end.

Definition comparison_int (c : comparison) : Z :=
  match c with Lt => -1 | Eq => 0 | Gt => 1 end.

Definition Compare (a b : any) : Z :=
  match asNumber a, asNumber b with
  | Some af, Some bf => if f64_lt af bf then -1 else if f64_lt bf af then 1 else 0
  | _, _ => comparison_int (str_compare (sprint a) (sprint b))
  end.

(** [strings.Contains]. *)
Fixpoint is_prefix (p b : bytes) : bool :=
  match p, b with
  | [], _ => true
  | c :: p, d :: b => bool_decide (c = d) && is_prefix p b
  | _ :: _, [] => false
  end.

Fixpoint contains (b p : bytes) : bool :=
  is_prefix p b || match b with [] => false | _ :: b => contains b p end.

(** ** Evaluation *)
Definition filter_value (value : string) : any :=
  match unmarshal_any (to_bytes value) with
  | Ok v => v
  | Err _ => VStr value
  end.

Section match_filter.
Context `{!Regexp}.

Definition match_op (op : Op) (fieldVal cmp : any) : bool :=
  match op with
  | OpEq => equal fieldVal cmp
  | OpNeq => negb (equal fieldVal cmp)
  | OpGt => (0 <? Compare fieldVal cmp)%Z
  | OpGte => (0 <=? Compare fieldVal cmp)%Z
  | OpLt => (Compare fieldVal cmp <? 0)%Z
  | OpLte => (Compare fieldVal cmp <=? 0)%Z
  | OpContains => contains (fmt_v fieldVal) (fmt_v cmp)
  | OpRegex =>
      match regexp_match (sprint cmp) (sprint fieldVal) with
      | None => false
      | Some b => b
      end
  | OpUnknown _ => false
  end.

Definition match_field (field : string) (op : Op) (value : string) (record : doc) : bool :=
  match record !! field with
  | None => false
  | Some fieldVal => match_op op fieldVal (filter_value value)
  end.

Fixpoint Match (f : Filter) (record : doc) : bool :=
  match f with
  | MatchAll => true
  | FieldFilter field op value => match_field field op value record
  | AndFilter fs => forallb (λ sub, Match sub record) fs
  | OrFilter fs => existsb (λ sub, Match sub record) fs
  end.
End match_filter.

Lemma is_prefix_app p b : is_prefix p (p ++ b) = true.
Proof. induction p as [|c p IH]; [done|]. cbn [app is_prefix]. by rewrite bool_decide_true, IH. Qed.

Lemma is_prefix_split p b : is_prefix p b = true → ∃ r, b = p ++ r.
Proof.
  revert b. induction p as [|c p IH]; intros b H; [by exists b|]. destruct b as [|d b]; [done|]. cbn [is_prefix] in H. bools.
  subst d. destruct (IH b H0) as [r ->]. by exists r.
Qed.

(** ** The order of floats

    A float that is not NaN is placed by its class (negative infinity,
    negative, zero, positive, infinity) and then by exponent and mantissa. *)
Definition f64_key (x : f64) : Z * Z * Z :=
  match x with
  | S754_nan => (3, 0, 0)%Z
  | S754_infinity true => (-2, 0, 0)%Z
  | S754_infinity false => (2, 0, 0)%Z
  | S754_zero _ => (0, 0, 0)%Z
  | S754_finite true m e => (-1, - e, - Zpos m)%Z
  | S754_finite false m e => (1, e, Zpos m)%Z
  end.

Definition key_lt (k l : Z * Z * Z) : Prop :=
  let '(a, b, c) := k in
  let '(a', b', c') := l in
  (a < a' ∨ (a = a' ∧ (b < b' ∨ (b = b' ∧ c < c'))))%Z.

Definition is_nan (x : f64) : bool := match x with S754_nan => true | _ => false end.

Lemma f64_lt_key x y :
  is_nan x = false → is_nan y = false → f64_lt x y = true ↔ key_lt (f64_key x) (f64_key y).
Proof.
  unfold f64_lt, SFltb. intros Hx Hy.
  destruct x as [[]|[]| |[] m e], y as [[]|[]| |[] m' e']; try done; simpl;
    try (split; [done|lia]); try (split; [intros _; lia|done]).
  - change (Pos.compare_cont Eq m m') with (m ?= m')%positive.
    destruct (Z.compare_spec e e'); simpl; [|split; [done|lia]|split; [lia|done]].
    destruct (Pos.compare_spec m m'); simpl; split; (done || lia).
  - change (Pos.compare_cont Eq m m') with (m ?= m')%positive.
    destruct (Z.compare_spec e e'); simpl; [|split; [lia|done]|split; [done|lia]].
    destruct (Pos.compare_spec m m'); simpl; split; (done || lia).
Qed.

(** ** Order laws of [Compare] *)

(** Two values that [Compare] treats alike: both numbers (not NaN), or neither
    a number. *)
Inductive vkind := KNum | KText.
Definition has_kind (k : vkind) (v : any) : bool :=
  match k, asNumber v with
  | KNum, Some x => negb (is_nan x)
  | KText, None => true
  | _, _ => false
  end.

Lemma Compare_range a b : Compare a b = (-1)%Z ∨ Compare a b = 0%Z ∨ Compare a b = 1%Z.
Proof.
  unfold Compare. destruct (asNumber a), (asNumber b); simpl;
    repeat case_match; auto; destruct (str_compare _ _); auto.
Qed.

Lemma has_kind_num v : has_kind KNum v = true → ∃ x, asNumber v = Some x ∧ is_nan x = false.
Proof. unfold has_kind. destruct (asNumber v) as [x|]; [|done]. intros. bools. eauto. Qed.

Lemma has_kind_text v : has_kind KText v = true → asNumber v = None.
Proof. unfold has_kind. by destruct (asNumber v). Qed.

Lemma Compare_num_lt x y a b :
  asNumber a = Some x → asNumber b = Some y → is_nan x = false → is_nan y = false →
  (Compare a b < 0)%Z ↔ key_lt (f64_key x) (f64_key y).
Proof.
  intros Ha Hb Hx Hy. unfold Compare. rewrite Ha, Hb.
  rewrite <-(f64_lt_key x y) by done. destruct (f64_lt x y); [by split|].
  by destruct (f64_lt y x).
Qed.

Lemma Compare_num_gt x y a b :
  asNumber a = Some x → asNumber b = Some y → is_nan x = false → is_nan y = false →
  (0 < Compare a b)%Z ↔ key_lt (f64_key y) (f64_key x).
Proof.
  intros Ha Hb Hx Hy. unfold Compare. rewrite Ha, Hb.
  pose proof (f64_lt_key x y Hx Hy) as H1. pose proof (f64_lt_key y x Hy Hx) as H2.
  destruct (f64_lt x y); [|destruct (f64_lt y x)].
  2:{ split; [intros _; by apply H2|lia]. }
  2:{ split; [lia|]. by intros ?%H2. }
  split; [lia|]. intros Hlt. assert (key_lt (f64_key x) (f64_key y)) by (by apply H1).
  unfold key_lt in *. destruct (f64_key x) as [[? ?] ?], (f64_key y) as [[? ?] ?]. lia.
Qed.

Lemma Compare_text a b :
  asNumber a = None → Compare a b = comparison_int (str_compare (sprint a) (sprint b)).
Proof. intros Ha. unfold Compare. by rewrite Ha. Qed.

(** Swapping the arguments negates the result, unless a NaN is involved. *)
Lemma Compare_antisym_num x y a b :
  asNumber a = Some x → asNumber b = Some y → is_nan x = false → is_nan y = false →
  Compare a b = (- Compare b a)%Z.
Proof.
  intros Ha Hb Hx Hy.
  assert ((Compare a b < 0)%Z ↔ (0 < Compare b a)%Z)
    by (rewrite (Compare_num_lt x y), (Compare_num_gt y x) by done; done).
  assert ((0 < Compare a b)%Z ↔ (Compare b a < 0)%Z)
    by (rewrite (Compare_num_gt x y), (Compare_num_lt y x) by done; done).
  pose proof (Compare_range a b). pose proof (Compare_range b a). lia.
Qed.

Lemma Compare_antisym_text a b :
  asNumber a = None ∨ asNumber b = None → Compare a b = (- Compare b a)%Z.
Proof.
  intros Hab. unfold Compare.
  destruct (asNumber a) as [x|], (asNumber b) as [y|]; [naive_solver|..];
    rewrite (str_compare_antisym (sprint b)); by destruct (str_compare (sprint a) (sprint b)).
Qed.

Lemma Compare_trans_lt k a b c :
  has_kind k a = true → has_kind k b = true → has_kind k c = true →
  (Compare a b < 0)%Z → (Compare b c < 0)%Z → (Compare a c < 0)%Z.
Proof.
  destruct k; intros Ha Hb Hc.
  - apply has_kind_num in Ha as (x & Hx & ?), Hb as (y & Hy & ?), Hc as (z & Hz & ?).
    rewrite (Compare_num_lt x y), (Compare_num_lt y z), (Compare_num_lt x z) by done.
    unfold key_lt. destruct (f64_key x) as [[? ?] ?], (f64_key y) as [[? ?] ?], (f64_key z) as [[? ?] ?]. lia.
  - apply has_kind_text in Ha, Hb, Hc. rewrite !Compare_text by done.
    destruct (str_compare (sprint a) (sprint b)) eqn:E1; try done.
    destruct (str_compare (sprint b) (sprint c)) eqn:E2; try done.
    intros _ _. by rewrite (str_lt_trans _ _ _ E1 E2).
Qed.

Lemma Compare_trans_le k a b c :
  has_kind k a = true → has_kind k b = true → has_kind k c = true →
  (Compare a b <= 0)%Z → (Compare b c <= 0)%Z → (Compare a c <= 0)%Z.
Proof.
  destruct k; intros Ha Hb Hc.
  - apply has_kind_num in Ha as (x & Hx & ?), Hb as (y & Hy & ?), Hc as (z & Hz & ?).
    assert (∀ a b x y, asNumber a = Some x → asNumber b = Some y → is_nan x = false → is_nan y = false →
      (Compare a b <= 0)%Z ↔ ¬ key_lt (f64_key y) (f64_key x)) as Hle.
    { clear. intros. rewrite <-(Compare_num_gt x y a b) by done. lia. }
    rewrite (Hle a b x y), (Hle b c y z), (Hle a c x z) by done.
    unfold key_lt. destruct (f64_key x) as [[? ?] ?], (f64_key y) as [[? ?] ?], (f64_key z) as [[? ?] ?]. lia.
  - apply has_kind_text in Ha, Hb, Hc. rewrite !Compare_text by done.
    assert (∀ s t, (comparison_int (str_compare s t) <= 0)%Z ↔ str_le s t) as Hle.
    { intros s t. unfold str_le. destruct (str_compare s t); simpl; naive_solver lia. }
    rewrite !Hle. apply str_le_trans.
Qed.

Lemma Compare_kind_antisym k a b :
  has_kind k a = true → has_kind k b = true → Compare a b = (- Compare b a)%Z.
Proof.
  intros Ha Hb. destruct k.
  - apply has_kind_num in Ha as (x & Hx & ?), Hb as (y & Hy & ?). by eapply Compare_antisym_num.
  - apply has_kind_text in Ha. apply Compare_antisym_text. by left.
Qed.

(** ** Properties *)

(** On values of one kind [Compare] is a total preorder: comparing a value
    with itself gives 0, swapping the arguments negates the result, and [<= 0]
    and [< 0] are transitive. *)
Theorem Compare_total_preorder (k : vkind) (a b c : any) :
  has_kind k a = true → has_kind k b = true → has_kind k c = true →
  Compare a a = 0%Z ∧
  Compare a b = (- Compare b a)%Z ∧
  ((Compare a b <= 0)%Z → (Compare b c <= 0)%Z → (Compare a c <= 0)%Z) ∧
  ((Compare a b < 0)%Z → (Compare b c < 0)%Z → (Compare a c < 0)%Z).
Proof.
  intros Ha Hb Hc. split_and!; eauto using Compare_trans_le, Compare_trans_lt, Compare_kind_antisym.
  pose proof (Compare_kind_antisym k a a Ha Ha). lia.
Qed.

Lemma Compare_total_preorder_witness :
  Compare (VFloat (f64_of_Z 2)) (VFloat (f64_of_Z 10)) = (- Compare (VFloat (f64_of_Z 10)) (VFloat (f64_of_Z 2)))%Z.
Proof.
  apply (Compare_total_preorder KNum (VFloat (f64_of_Z 2)) (VFloat (f64_of_Z 10)) (VFloat (f64_of_Z 2)));
    reflexivity.
Defined.

(** Across kinds [Compare] is not an order: 2 comes before 10, 10 before the
    string "1x" and "1x" before 2.  A sort or a page cursor over a field that
    mixes numbers and strings has no consistent order to follow. *)
Theorem Compare_cycle :
  (Compare (VFloat (f64_of_Z 2)) (VFloat (f64_of_Z 10)) < 0)%Z ∧
  (Compare (VFloat (f64_of_Z 10)) (VStr "1x") < 0)%Z ∧
  (Compare (VStr "1x") (VFloat (f64_of_Z 2)) < 0)%Z.
Proof. vm_compute. done. Qed.
