(* ===== verification/Store.v ===== *)
(** * Package store: NDJSON entries (store/ndjson.go)

    One line of a segment file: an operation on a record with its revision,
    data, deadline, encryption epoch and checksum.  [Encode] stamps the CRC32C of
    the entry and prints the JSON object; [Decode] parses a line and verifies
    the checksum it carries. *)

From S2P Require Import Prelude GoFloat GoJson GoTime Value.
From Stdlib Require Import SpecFloat.

(** ** CRC32C ([hash/crc32], Castagnoli polynomial, reflected) *)
Definition crc_poly : N := 2197175160. (* 0x82F63B78 *)

Definition crc_bit (c : N) : N :=
  if N.testbit c 0 then N.lxor (N.shiftr c 1) crc_poly else N.shiftr c 1.

(** The table entry of a byte: eight shifts through the polynomial. *)
Definition crc_table (i : N) : N := Nat.iter 8 crc_bit i.

Definition crc_step (crc : N) (b : ascii) : N :=
  N.lxor (crc_table (N.lxor (N.land crc 255) (N_of_ascii b))) (N.shiftr crc 8).

Definition crc_mask : N := 4294967295. (* 0xFFFFFFFF *)

(** [crc32.Update(0, table, b)], what [Sum32] returns after writing [b]. *)
Definition crc32c (b : bytes) : N := N.lxor (fold_left crc_step b crc_mask) crc_mask.

(** [binary.LittleEndian.PutUint64]. *)
Fixpoint le_bytes (k : nat) (n : N) : bytes :=
  match k with
  | O => []
  | S k => ascii_of_N (n mod 256) :: le_bytes k (n / 256)
  end.
Definition put_uint64 (n : N) : bytes := le_bytes 8 n.

(** ** Entries *)
Inductive EntryOp := OpInsert | OpUpdate | OpDelete | OpOther (s : string).

#[global] Instance EntryOp_eq_dec : EqDecision EntryOp.
Proof. solve_decision. Defined.

Definition op_string (o : EntryOp) : string :=
  match o with
  | OpInsert => "insert"
  | OpUpdate => "update"
  | OpDelete => "delete"
  | OpOther s => s
  end.

Definition op_of_string (s : string) : EntryOp :=
  if bool_decide (s = "insert") then OpInsert
  else if bool_decide (s = "update") then OpUpdate
  else if bool_decide (s = "delete") then OpDelete
  else OpOther s.

Record Entry := MkEntry {
  e_ID : N;
  e_Op : EntryOp;
  e_Ts : Time;
  e_Rev : N;
  e_Data : option doc;
  e_Epoch : N;
  e_ExpiresAt : Z;
  e_CRC : option N
}.

Definition zero_entry : Entry := MkEntry 0 (OpOther "") zero_time 0 None 0 0 None.

(** ** Constructors of entries: [now] is [time.Now().UTC()] *)
Definition NewInsert (now : Time) (id : N) (data : option doc) : Entry :=
  MkEntry id OpInsert now 0 data 0 0 None.
Definition NewUpdate (now : Time) (id : N) (data : option doc) : Entry :=
  MkEntry id OpUpdate now 0 data 0 0 None.
Definition NewDelete (now : Time) (id : N) : Entry :=
  MkEntry id OpDelete now 0 None 0 0 None.

(** ** The checksum *)

(** [json.Marshal(e.Data)]. *)
Definition marshal_doc (d : doc) : result bytes :=
  match doc_to_json d with Ok j => Ok (print_json j) | Err e => Err e end.

(** [uint64(z)] of an [int64]. *)
Definition u64_of_i64 (z : Z) : N := Z.to_N (z mod 2 ^ 64).

(** The bytes written to the hash: id, op, the non-zero revision, deadline and
    epoch, and the canonical data. *)
Definition checksum_stream (e : Entry) : result bytes :=
  match (match e_Data e with None => Ok [] | Some d => marshal_doc d end) with
  | Err err => Err err
  | Ok b =>
      Ok (put_uint64 (e_ID e) ++ to_bytes (op_string (e_Op e)) ++
        (if (e_Rev e =? 0)%N then [] else put_uint64 (e_Rev e)) ++
        (if (e_ExpiresAt e =? 0)%Z then [] else put_uint64 (u64_of_i64 (e_ExpiresAt e))) ++
        (if (e_Epoch e =? 0)%N then [] else put_uint64 (e_Epoch e)) ++ b)
  end.

Definition checksum (e : Entry) : result N :=
  match checksum_stream e with Ok b => Ok (crc32c b) | Err err => Err err end.

(** ** Encoding *)
Definition j_uint (n : N) : json := JNum (json_int (Z.of_N n)).

(** The member [name: v] unless [v] is empty ([omitempty]). *)
Definition omit (empty : bool) (name : string) (v : json) : list (string * json) :=
  if empty then [] else [(name, v)].

Definition entry_to_json (e : Entry) : result json :=
  match format_time (e_Ts e) with
  | Err err => Err err
  | Ok ts =>
      match (match e_Data e with None => Ok JNull | Some d => doc_to_json d end) with
      | Err err => Err err
      | Ok data =>
          let empty := match e_Data e with None => true | Some d => bool_decide (d = ∅) end in
          Ok (JObj ([("id", j_uint (e_ID e)); ("op", JStr (op_string (e_Op e)));
                     ("ts", JStr (of_bytes ts))] ++
            omit (e_Rev e =? 0)%N "rev" (j_uint (e_Rev e)) ++
            omit empty "data" data ++
            omit (e_Epoch e =? 0)%N "epoch" (j_uint (e_Epoch e)) ++
            omit (e_ExpiresAt e =? 0)%Z "expires_at" (JNum (json_int (e_ExpiresAt e))) ++
            (match e_CRC e with None => [] | Some c => [("crc", j_uint c)] end)))
      end
  end.

Definition set_crc (e : Entry) (c : option N) : Entry :=
  MkEntry (e_ID e) (e_Op e) (e_Ts e) (e_Rev e) (e_Data e) (e_Epoch e) (e_ExpiresAt e) c.

Definition Encode (e : Entry) : result bytes :=
  match checksum e with
  | Err err => Err err
  | Ok sum =>
      match entry_to_json (set_crc e (Some sum)) with
      | Err err => Err err
      | Ok j => Ok (print_json j ++ [newline])
      end
  end.

(** ** Decoding *)

(** [strconv.ParseUint(lit, 10, bits)]. *)
Definition parse_uint (bits : N) (n : numlit) : result N :=
  match n_neg n, n_frac n, n_exp n with
  | false, [], None =>
      let v := dec_value (n_int n) in
      if (v <? 2 ^ bits)%N then Ok v else Err ErrSyntax
  | _, _, _ => Err ErrSyntax
  end.

(** [strconv.ParseInt(lit, 10, 64)]. *)
Definition parse_int (n : numlit) : result Z :=
  match n_frac n, n_exp n with
  | [], None =>
      let v := Z.of_N (dec_value (n_int n)) in
      let z := if n_neg n then (- v)%Z else v in
      if ((- 2 ^ 63 <=? z) && (z <? 2 ^ 63))%Z then Ok z else Err ErrSyntax
  | _, _ => Err ErrSyntax
  end.

Definition to_lower (c : ascii) : ascii :=
  if in_range 65 90 c then ascii_of_N (N_of_ascii c + 32) else c.

(** The struct field a key selects: names match up to ASCII case. *)
Definition field_name (k : string) : string := of_bytes (map to_lower (to_bytes k)).

(** One member of the object stored into the entry; an unknown name is
    ignored, [null] leaves a scalar field unchanged. *)
Definition set_field (e : Entry) (kv : string * json) : result Entry :=
  let '(k, v) := kv in
  let '(MkEntry id op ts rev data epoch exp crc) := e in
  let name := field_name k in
  if bool_decide (name = "id") then
    match v with
    | JNull => Ok e
    | JNum n => n ← parse_uint 64 n; Ok (MkEntry n op ts rev data epoch exp crc)
    | _ => Err ErrSyntax
    end
  else if bool_decide (name = "op") then
    match v with
    | JNull => Ok e
    | JStr s => Ok (MkEntry id (op_of_string s) ts rev data epoch exp crc)
    | _ => Err ErrSyntax
    end
  else if bool_decide (name = "ts") then
    match v with
    | JNull => Ok e
    | JStr s =>
        match parse_time (to_bytes s) with
        | Some t => Ok (MkEntry id op t rev data epoch exp crc)
        | None => Err ErrSyntax
        end
    | _ => Err ErrSyntax
    end
  else if bool_decide (name = "rev") then
    match v with
    | JNull => Ok e
    | JNum n => n ← parse_uint 64 n; Ok (MkEntry id op ts n data epoch exp crc)
    | _ => Err ErrSyntax
    end
  else if bool_decide (name = "data") then
    match v with
    | JNull => Ok (MkEntry id op ts rev None epoch exp crc)
    | JObj l =>
        kvs ← mapR field_of_json l;
        Ok (MkEntry id op ts rev (Some (assign_all kvs (default ∅ data))) epoch exp crc)
    | _ => Err ErrSyntax
    end
  else if bool_decide (name = "epoch") then
    match v with
    | JNull => Ok e
    | JNum n => n ← parse_uint 64 n; Ok (MkEntry id op ts rev data n exp crc)
    | _ => Err ErrSyntax
    end
  else if bool_decide (name = "expires_at") then
    match v with
    | JNull => Ok e
    | JNum n => z ← parse_int n; Ok (MkEntry id op ts rev data epoch z crc)
    | _ => Err ErrSyntax
    end
  else if bool_decide (name = "crc") then
    match v with
    | JNull => Ok (MkEntry id op ts rev data epoch exp None)
    | JNum n => n ← parse_uint 32 n; Ok (MkEntry id op ts rev data epoch exp (Some n))
    | _ => Err ErrSyntax
    end
  else Ok e.

Fixpoint set_fields (e : Entry) (l : list (string * json)) : result Entry :=
  match l with
  | [] => Ok e
  | kv :: l => e ← set_field e kv; set_fields e l
  end.

Definition entry_of_json (j : json) : result Entry :=
  match j with
  | JNull => Ok zero_entry
  | JObj l => set_fields zero_entry l
  | _ => Err ErrSyntax
  end.

Definition Decode (line : bytes) : result Entry :=
  match parse_json line with
  | None => Err ErrSyntax
  | Some j =>
      match entry_of_json j with
      | Err err => Err err
      | Ok e =>
          match e_CRC e with
          | None => Ok e
          | Some want =>
              match checksum e with
              | Err err => Err err
              | Ok got => if (got =? want)%N then Ok e else Err ErrCorruptEntry
              end
          end
      end
  end.

(** ** CRC32C detects every single-byte error

    The update is linear over exclusive or, and a shift through the polynomial
    never loses a bit because the polynomial has its top bit set. *)
Section crc.
Local Open Scope N_scope.

Lemma lt_pow2_bits x n : x < 2 ^ n ↔ ∀ m, n <= m → N.testbit x m = false.
Proof.
  split.
  - intros Hx m Hm. destruct (decide (x = 0)) as [->|]; [apply N.bits_0|].
    apply N.bits_above_log2. apply N.log2_lt_pow2 in Hx; lia.
  - intros H. destruct (decide (x = 0)) as [->|Hx0]; [lia|].
    destruct (N.lt_ge_cases x (2 ^ n)) as [|Hge]; [done|exfalso].
    assert (n <= N.log2 x) as Hl.
    { rewrite <-(N.log2_pow2 n) by lia. by apply N.log2_le_mono. }
    specialize (H _ Hl). by rewrite N.bit_log2 in H.
Qed.

Lemma lxor_lt x y n : x < 2 ^ n → y < 2 ^ n → N.lxor x y < 2 ^ n.
Proof.
  rewrite !lt_pow2_bits. intros Hx Hy m Hm. by rewrite N.lxor_spec, Hx, Hy.
Qed.

Lemma shiftr_lt x k n : x < 2 ^ n → N.shiftr x k < 2 ^ n.
Proof.
  rewrite !lt_pow2_bits. intros Hx m Hm. rewrite N.shiftr_spec by lia. apply Hx. lia.
Qed.

Lemma crc_bit_lt c : c < 2 ^ 32 → crc_bit c < 2 ^ 32.
Proof.
  intros Hc. unfold crc_bit. destruct (N.testbit c 0); [apply lxor_lt; [|done]|]; by apply shiftr_lt.
Qed.

Lemma crc_bits_lt k c : c < 2 ^ 32 → Nat.iter k crc_bit c < 2 ^ 32.
Proof. induction k as [|k IH]; intros Hc; simpl; auto using crc_bit_lt. Qed.

Lemma byte_lt b : N_of_ascii b < 2 ^ 8.
Proof. apply N_ascii_bounded. Qed.

Lemma land_255 c : N.land c 255 = c mod 2 ^ 8.
Proof. change 255 with (N.ones 8). by rewrite N.land_ones. Qed.

Lemma crc_step_lt c b : c < 2 ^ 32 → crc_step c b < 2 ^ 32.
Proof.
  intros Hc. apply lxor_lt; [|by apply shiftr_lt]. apply crc_bits_lt. apply lxor_lt.
  - rewrite land_255. assert (c mod 2 ^ 8 < 2 ^ 8) by (by apply N.mod_lt). lia.
  - pose proof (byte_lt b). lia.
Qed.

Lemma crc_fold_lt b c : c < 2 ^ 32 → fold_left crc_step b c < 2 ^ 32.
Proof. revert c. induction b as [|x b IH]; intros c Hc; simpl; auto using crc_step_lt. Qed.

Lemma crc32c_lt b : crc32c b < 2 ^ 32.
Proof. apply lxor_lt; [by apply crc_fold_lt|done]. Qed.

Lemma crc_bit_lxor x y : crc_bit (N.lxor x y) = N.lxor (crc_bit x) (crc_bit y).
Proof.
  unfold crc_bit. rewrite N.lxor_spec, N.shiftr_lxor.
  destruct (N.testbit x 0), (N.testbit y 0); simpl; apply N.bits_inj; intros i;
    rewrite !N.lxor_spec; repeat destruct (N.testbit _ _); done.
Qed.

Lemma crc_bits_lxor k x y :
  Nat.iter k crc_bit (N.lxor x y) = N.lxor (Nat.iter k crc_bit x) (Nat.iter k crc_bit y).
Proof. induction k as [|k IH]; simpl; [done|]. by rewrite IH, crc_bit_lxor. Qed.

Lemma crc_bit_zero z : z < 2 ^ 32 → crc_bit z = 0 → z = 0.
Proof.
  intros Hz. unfold crc_bit. destruct (N.testbit z 0) eqn:Hb.
  - intros H. apply (f_equal (λ n, N.testbit n 31)) in H; cbv beta in H.
    rewrite N.lxor_spec, N.shiftr_spec in H by lia.
    rewrite (proj1 (lt_pow2_bits z 32) Hz (31 + 1)) in H by lia. discriminate H.
  - intros H. apply N.bits_inj. intros i. rewrite N.bits_0.
    destruct (decide (i = 0)) as [->|]; [done|].
    apply (f_equal (λ n, N.testbit n (i - 1))) in H; cbv beta in H.
    rewrite N.shiftr_spec, N.bits_0 in H by lia. by replace (i - 1 + 1) with i in H by lia.
Qed.

Lemma crc_bits_zero k z : z < 2 ^ 32 → Nat.iter k crc_bit z = 0 → z = 0.
Proof.
  intros Hz. induction k as [|k IH]; simpl; [done|].
  intros H%crc_bit_zero; [auto|]. by apply crc_bits_lt.
Qed.

Lemma crc_bits_inj k x y :
  x < 2 ^ 32 → y < 2 ^ 32 → Nat.iter k crc_bit x = Nat.iter k crc_bit y → x = y.
Proof.
  intros Hx Hy H. apply N.lxor_eq. apply (crc_bits_zero k); [by apply lxor_lt|].
  by rewrite crc_bits_lxor, H, N.lxor_nilpotent.
Qed.

(** Shifting out a multiple of 256 only moves its high bits down. *)
Lemma crc_bit_even x : N.testbit x 0 = false → crc_bit x = N.shiftr x 1.
Proof. intros H. unfold crc_bit. by rewrite H. Qed.

Lemma crc_bits_shift k x :
  (∀ i, i < N.of_nat k → N.testbit x i = false) →
  Nat.iter k crc_bit x = N.shiftr x (N.of_nat k).
Proof.
  induction k as [|k IH]; intros H; [by rewrite N.shiftr_0_r|].
  simpl Nat.iter. rewrite IH by (intros; apply H; lia).
  rewrite crc_bit_even.
  - rewrite N.shiftr_shiftr. f_equal. lia.
  - rewrite N.shiftr_spec by lia. apply H. lia.
Qed.

(** The table step is eight bit steps on the state with the byte mixed in. *)
Lemma crc_step_bits c b :
  crc_step c b = Nat.iter 8 crc_bit (N.lxor c (N_of_ascii b)).
Proof.
  unfold crc_step, crc_table.
  assert (c = N.lxor (N.land c 255) (N.ldiff c 255)) as Hc.
  { apply N.bits_inj. intros i. rewrite N.lxor_spec, N.land_spec, N.ldiff_spec.
    by destruct (N.testbit c i), (N.testbit 255 i). }
  rewrite Hc at 3.
  replace (N.lxor (N.lxor (N.land c 255) (N.ldiff c 255)) (N_of_ascii b))
    with (N.lxor (N.lxor (N.land c 255) (N_of_ascii b)) (N.ldiff c 255))
    by (rewrite !N.lxor_assoc; f_equal; apply N.lxor_comm).
  rewrite (crc_bits_lxor 8 _ (N.ldiff c 255)). f_equal.
  rewrite crc_bits_shift.
  - apply N.bits_inj. intros i. rewrite !N.shiftr_spec, N.ldiff_spec by lia.
    change 255 with (N.ones 8). rewrite N.ones_spec_high by (change (N.of_nat 8) with 8; lia).
    change (N.of_nat 8) with 8. by rewrite andb_true_r.
  - intros i Hi. rewrite N.ldiff_spec. change 255 with (N.ones 8).
    rewrite N.ones_spec_low by lia. apply andb_false_r.
Qed.

Lemma lxor_cancel_r x y z : N.lxor x z = N.lxor y z → x = y.
Proof.
  intros H. apply (f_equal (λ n, N.lxor n z)) in H; cbv beta in H.
  by rewrite !N.lxor_assoc, N.lxor_nilpotent, !N.lxor_0_r in H.
Qed.

Lemma crc_step_inj_state c c' b :
  c < 2 ^ 32 → c' < 2 ^ 32 → crc_step c b = crc_step c' b → c = c'.
Proof.
  intros Hc Hc'. pose proof (byte_lt b). rewrite !crc_step_bits. intros H'%crc_bits_inj.
  - by apply lxor_cancel_r in H'.
  - apply lxor_lt; [done|lia].
  - apply lxor_lt; [done|lia].
Qed.

Lemma crc_step_inj_byte c b b' :
  c < 2 ^ 32 → crc_step c b = crc_step c b' → b = b'.
Proof.
  intros Hc. pose proof (byte_lt b). pose proof (byte_lt b').
  rewrite !crc_step_bits. intros H'%crc_bits_inj.
  - rewrite !(N.lxor_comm c) in H'. apply lxor_cancel_r in H'.
    by rewrite <-(ascii_N_embedding b), H', ascii_N_embedding.
  - apply lxor_lt; [done|lia].
  - apply lxor_lt; [done|lia].
Qed.

Lemma crc_fold_inj s c c' :
  c < 2 ^ 32 → c' < 2 ^ 32 → fold_left crc_step s c = fold_left crc_step s c' → c = c'.
Proof.
  revert c c'. induction s as [|b s IH]; intros c c' Hc Hc'; simpl; [done|].
  intros H%IH; auto using crc_step_lt. by apply crc_step_inj_state in H.
Qed.

Lemma crc32c_byte p b b' s : crc32c (p ++ b :: s) = crc32c (p ++ b' :: s) → b = b'.
Proof.
  unfold crc32c. intros H%lxor_cancel_r. rewrite !fold_left_app in H. simpl in H.
  assert (fold_left crc_step p crc_mask < 2 ^ 32) by (by apply crc_fold_lt).
  apply crc_fold_inj in H; auto using crc_step_lt. by apply crc_step_inj_byte in H.
Qed.
End crc.

(** ** The entry round trip *)

(** The entries the engine writes: 64-bit fields in range, a known operation, a
    timestamp that prints, and data JSON carries without loss.  Data that is
    present has at least one field. *)
Record wf_entry (e : Entry) : Prop := {
  wf_id : (e_ID e < 2 ^ 64)%N;
  wf_rev : (e_Rev e < 2 ^ 64)%N;
  wf_epoch : (e_Epoch e < 2 ^ 64)%N;
  wf_exp : (- 2 ^ 63 <= e_ExpiresAt e < 2 ^ 63)%Z;
  wf_op : e_Op e = OpInsert ∨ e_Op e = OpUpdate ∨ e_Op e = OpDelete;
  wf_ts : is_Ok (format_time (e_Ts e)) = true;
  wf_data : match e_Data e with None => True | Some d => d ≠ ∅ ∧ wf_doc d end
}.

(** What decoding gives back: integers as floats, and the checksum stamped. *)
Definition stored (e : Entry) : Entry :=
  MkEntry (e_ID e) (e_Op e) (e_Ts e) (e_Rev e) (norm_doc <$> e_Data e) (e_Epoch e)
    (e_ExpiresAt e) (e_CRC e).

Lemma parse_uint_json bits n : (n < 2 ^ bits)%N → parse_uint bits (json_int (Z.of_N n)) = Ok n.
Proof.
  intros Hn. unfold parse_uint, json_int. rewrite (proj2 (Z.ltb_ge _ _)) by lia. simpl.
  rewrite Zabs2N.id, dec_value_digits.
  by rewrite (proj2 (N.ltb_lt _ _)).
Qed.

Lemma parse_int_json z : (- 2 ^ 63 <= z < 2 ^ 63)%Z → parse_int (json_int z) = Ok z.
Proof.
  intros Hz. unfold parse_int, json_int. simpl. rewrite dec_value_digits.
  assert ((if z <? 0 then - Z.of_N (Z.abs_N z) else Z.of_N (Z.abs_N z)) = z)%Z as ->
    by (destruct (Z.ltb_spec z 0); lia).
  by rewrite (proj2 (Z.leb_le _ _)), (proj2 (Z.ltb_lt _ _)) by lia.
Qed.

(** Each member [Encode] writes sets its field. *)
Ltac field_step :=
  unfold set_field; cbv beta iota zeta;
  repeat match goal with
  | |- context [field_name ?k] => let v := eval vm_compute in (field_name k) in change (field_name k) with v
  end;
  repeat first [rewrite (bool_decide_true (_ = _)) by done | rewrite (bool_decide_false (_ = _)) by done];
  cbv iota.

Section set_fields.
Context (id : N) (op : EntryOp) (ts : Time) (rev : N) (data : option doc) (epoch : N) (exp : Z) (crc : option N).
Let e := MkEntry id op ts rev data epoch exp crc.

Lemma set_field_id n : (n < 2 ^ 64)%N →
  set_field e ("id", j_uint n) = Ok (MkEntry n op ts rev data epoch exp crc).
Proof. intros. subst e. field_step. unfold j_uint. by rewrite parse_uint_json. Qed.

Lemma set_field_op o : o = OpInsert ∨ o = OpUpdate ∨ o = OpDelete →
  set_field e ("op", JStr (op_string o)) = Ok (MkEntry id o ts rev data epoch exp crc).
Proof. intros Ho. subst e. field_step. by destruct Ho as [->|[->| ->]]. Qed.

Lemma set_field_ts t b : format_time t = Ok b →
  set_field e ("ts", JStr (of_bytes b)) = Ok (MkEntry id op t rev data epoch exp crc).
Proof. intros Ht%parse_format_time. subst e. field_step. by rewrite to_of_bytes, Ht. Qed.

Lemma set_field_rev n : (n < 2 ^ 64)%N →
  set_field e ("rev", j_uint n) = Ok (MkEntry id op ts n data epoch exp crc).
Proof. intros. subst e. field_step. unfold j_uint. by rewrite parse_uint_json. Qed.

Lemma set_field_data d j : wf_doc d → doc_to_json d = Ok j → data = None →
  set_field e ("data", j) = Ok (MkEntry id op ts rev (Some (norm_doc d)) epoch exp crc).
Proof.
  intros Hd Hj Hnone. destruct (doc_to_json_roundtrip d Hd) as (j' & Hj' & _ & Hr).
  rewrite Hj in Hj'. simplify_eq. subst e. field_step.
  unfold doc_to_json in Hj. destruct (mapR field_to_json _) as [l|]; [|done].
  simplify_eq. simpl in Hr. destruct (mapR field_of_json l) as [kvs|]; [|done].
  apply (inj Ok), (inj Some) in Hr. simpl. by rewrite Hr.
Qed.

Lemma set_field_epoch n : (n < 2 ^ 64)%N →
  set_field e ("epoch", j_uint n) = Ok (MkEntry id op ts rev data n exp crc).
Proof. intros. subst e. field_step. unfold j_uint. by rewrite parse_uint_json. Qed.

Lemma set_field_exp z : (- 2 ^ 63 <= z < 2 ^ 63)%Z →
  set_field e ("expires_at", JNum (json_int z)) = Ok (MkEntry id op ts rev data epoch z crc).
Proof. intros. subst e. field_step. by rewrite parse_int_json. Qed.

Lemma set_field_crc n : (n < 2 ^ 32)%N →
  set_field e ("crc", j_uint n) = Ok (MkEntry id op ts rev data epoch exp (Some n)).
Proof. intros. subst e. field_step. unfold j_uint. by rewrite parse_uint_json. Qed.
End set_fields.

Lemma set_fields_app e l1 l2 :
  set_fields e (l1 ++ l2) = (e ← set_fields e l1; set_fields e l2).
Proof.
  revert e. induction l1 as [|kv l1 IH]; intros e; simpl; [done|].
  destruct (set_field e kv); simpl; [apply IH|done].
Qed.

Lemma field_of_omit e empty name j :
  set_fields e (omit empty name j) = if empty then Ok e else set_field e (name, j).
Proof. destruct empty; cbn [omit set_fields]; [done|]. by destruct (set_field e (name, j)). Qed.

Lemma wf_time_string t b : format_time t = Ok b → wf_string (of_bytes b) = true.
Proof.
  intros Ht%format_time_bytes. unfold wf_string. rewrite to_of_bytes. unfold utf8_valid.
  induction Ht as [|c b Hc _ IH]; [done|].
  assert ((N_of_ascii c <? 128)%N = true) as Hlt.
  { clear IH. destruct c as [[] [] [] [] [] [] [] []]; first [reflexivity|discriminate Hc]. }
  simpl. by rewrite Hlt.
Qed.

Lemma wf_op_string o : o = OpInsert ∨ o = OpUpdate ∨ o = OpDelete → wf_string (op_string o) = true.
Proof. by intros [->|[->| ->]]. Qed.

Definition wf_member (kv : string * json) : Prop := wf_string kv.1 = true ∧ wf_json kv.2.

Lemma wf_omit empty name j :
  wf_string name = true → wf_json j → Forall wf_member (omit empty name j).
Proof. intros. destruct empty; repeat constructor; done. Qed.

Lemma wf_j_uint n : wf_json (j_uint n).
Proof. apply wf_json_int. Qed.

(** The tree of a well-formed entry, with its checksum, and what it decodes to. *)
Lemma entry_json_roundtrip e c :
  wf_entry e → (c < 2 ^ 32)%N →
  ∃ j, entry_to_json (set_crc e (Some c)) = Ok j ∧ wf_json j ∧
       entry_of_json j = Ok (stored (set_crc e (Some c))).
Proof.
  intros [Hid Hrev Hep Hexp Hop Hts Hdata] Hc.
  destruct e as [id op ts rev data epoch exp crc]. unfold set_crc, stored. simpl in *.
  destruct (format_time ts) as [b|] eqn:Hb; [|done].
  assert (∃ dj, (match data with None => Ok JNull | Some d => doc_to_json d end) = Ok dj ∧
    wf_json dj ∧ ∀ d, data = Some d → d ≠ ∅ ∧ wf_doc d ∧ doc_to_json d = Ok dj) as (dj & Hdj & Hdwf & Hd).
  { destruct data as [d|]; [|by exists JNull]. destruct Hdata as [Hne Hd].
    destruct (doc_to_json_roundtrip d Hd) as (dj & ? & ? & _). exists dj. naive_solver. }
  unfold entry_to_json. cbn [e_Ts e_Data e_ID e_Op e_Rev e_Epoch e_ExpiresAt e_CRC].
  rewrite Hb, Hdj. eexists; split; [done|]. split.
  - apply wf_json_obj. repeat apply Forall_app_2; auto using wf_omit, wf_j_uint, wf_json_int.
    + repeat apply Forall_cons_2; [..|apply Forall_nil_2]; (split; [done|]); simpl fst; simpl snd.
      * apply wf_j_uint.
      * by apply wf_op_string.
      * by apply wf_time_string in Hb.
    + apply wf_omit; [done|]. apply wf_json_int.
    + apply Forall_cons_2; [|apply Forall_nil_2]. split; [done|]. apply wf_j_uint.
  - cbn [entry_of_json app set_fields]. unfold zero_entry.
    rewrite set_field_id by done. cbn [mbind result_bind].
    rewrite set_field_op by done. cbn [mbind result_bind].
    rewrite (set_field_ts _ _ _ _ _ _ _ _ ts b Hb). cbn [mbind result_bind].
    rewrite !set_fields_app, !field_of_omit.
    assert (∀ (z : bool) (x : result Entry) f, z = true → (if z then x else f) = x) as _ by (by intros ? ? ? ->).
    assert ((if (rev =? 0)%N then Ok (MkEntry id op ts 0 None 0 0 None)
             else set_field (MkEntry id op ts 0 None 0 0 None) ("rev", j_uint rev)) =
            Ok (MkEntry id op ts rev None 0 0 None)) as ->.
    { destruct (N.eqb_spec rev 0) as [->|]; [done|]. by rewrite set_field_rev. }
    cbn [mbind result_bind]. rewrite !set_fields_app, !field_of_omit.
    assert ((if match data with None => true | Some d => bool_decide (d = ∅) end
             then Ok (MkEntry id op ts rev None 0 0 None)
             else set_field (MkEntry id op ts rev None 0 0 None) ("data", dj)) =
            Ok (MkEntry id op ts rev (norm_doc <$> data) 0 0 None)) as ->.
    { destruct data as [d|]; [|done]. destruct (Hd d) as (Hne & Hwf & Hj); [done|].
      rewrite bool_decide_false by done. by erewrite set_field_data. }
    cbn [mbind result_bind]. rewrite !set_fields_app, !field_of_omit.
    assert ((if (epoch =? 0)%N then Ok (MkEntry id op ts rev (norm_doc <$> data) 0 0 None)
             else set_field (MkEntry id op ts rev (norm_doc <$> data) 0 0 None) ("epoch", j_uint epoch)) =
            Ok (MkEntry id op ts rev (norm_doc <$> data) epoch 0 None)) as ->.
    { destruct (N.eqb_spec epoch 0) as [->|]; [done|]. by rewrite set_field_epoch. }
    cbn [mbind result_bind]. rewrite !set_fields_app, !field_of_omit.
    assert ((if (exp =? 0)%Z then Ok (MkEntry id op ts rev (norm_doc <$> data) epoch 0 None)
             else set_field (MkEntry id op ts rev (norm_doc <$> data) epoch 0 None)
                    ("expires_at", JNum (json_int exp))) =
            Ok (MkEntry id op ts rev (norm_doc <$> data) epoch exp None)) as ->.
    { destruct (Z.eqb_spec exp 0) as [->|]; [done|]. by rewrite set_field_exp. }
    cbn [mbind result_bind set_fields]. by rewrite set_field_crc.
Qed.

Lemma checksum_stored e c : wf_entry e → checksum (stored (set_crc e c)) = checksum e.
Proof.
  intros [_ _ _ _ _ _ Hdata]. unfold checksum, checksum_stream, marshal_doc. destruct e as [id op ts rev data epoch exp crc].
  simpl in *. destruct data as [d|]; simpl; [|done]. destruct Hdata as [_ Hd].
  by rewrite doc_to_json_norm.
Qed.

Lemma checksum_total e : wf_entry e → ∃ c, checksum e = Ok c ∧ (c < 2 ^ 32)%N.
Proof.
  intros [_ _ _ _ _ _ Hdata]. unfold checksum, checksum_stream, marshal_doc. destruct (e_Data e) as [d|].
  - destruct Hdata as [_ Hd]. destruct (doc_to_json_roundtrip d Hd) as (j & -> & _). eauto using crc32c_lt.
  - eauto using crc32c_lt.
Qed.

Lemma entry_to_json_last e j : entry_to_json e = Ok j → last (print_json j) = Some "}"%char.
Proof.
  unfold entry_to_json. destruct (format_time _); [|done].
  destruct (match e_Data e with None => Ok JNull | Some d => doc_to_json d end); [|done].
  intros Hj%(inj Ok). subst j. cbn [print_json]. by rewrite app_comm_cons, last_snoc.
Qed.

(** The line of a well-formed entry: [Encode] succeeds, the text before the
    newline has no other newline, and [Decode] gives the entry back. *)
Lemma Encode_line e :
  wf_entry e →
  ∃ line c, Encode e = Ok (line ++ [newline]) ∧ last line = Some "}"%char ∧ no_nl line ∧
    Decode line = Ok (stored (set_crc e (Some c))) ∧ checksum e = Ok c.
Proof.
  intros He. destruct (checksum_total e He) as (c & Hc & Hlt).
  destruct (entry_json_roundtrip e c He Hlt) as (j & Hj & Hwf & Hr).
  exists (print_json j), c. unfold Encode. rewrite Hc, Hj.
  split; [done|]. split; [by eapply entry_to_json_last|].
  split; [by apply no_nl_json|]. unfold Decode.
  rewrite parse_print_json, Hr by done. unfold stored at 1, set_crc at 1. simpl e_CRC.
  rewrite checksum_stored, Hc, N.eqb_refl by done. done.
Qed.

(** ** Properties *)

(** Round trip of a segment line: [Encode] succeeds on every entry the engine
    writes, its output is one line (a single newline, at the end), and [Decode]
    of the line verifies the stamped checksum and returns the entry. *)
Theorem Decode_Encode (e : Entry) :
  wf_entry e →
  ∃ line c, Encode e = Ok (line ++ [newline]) ∧ newline ∉ line ∧
    checksum e = Ok c ∧ Decode line = Ok (stored (set_crc e (Some c))).
Proof.
  intros He. destruct (Encode_line e He) as (line & c & H1 & _ & H3 & H4 & H5).
  exists line, c. split_and!; try done. intros Hin. rewrite Forall_forall in H3. by apply (H3 _ Hin).
Qed.

Definition sample_entry : Entry :=
  MkEntry 7 OpInsert 1718000000123456000 1 (Some {["age" := VFloat (f64_of_Z 30)]}) 0 5 None.

Lemma wf_sample_entry : wf_entry sample_entry.
Proof.
  split.
  - by_decide.
  - by_decide.
  - by_decide.
  - by_decide.
  - by left.
  - vm_compute. reflexivity.
  - split; [by_decide|by_decide].
Qed.

Lemma Decode_Encode_witness :
  ∃ line c, Encode sample_entry = Ok (line ++ [newline]) ∧ newline ∉ line ∧
    checksum sample_entry = Ok c ∧ Decode line = Ok (stored (set_crc sample_entry (Some c))).
Proof. apply (Decode_Encode sample_entry). apply wf_sample_entry. Defined.

(** Integrity: a line whose hashed contents differ in exactly one byte from
    those its stored checksum was computed over is never accepted by [Decode]. *)
Theorem Decode_detects_byte_error (e e' : Entry) (line p s : bytes) (b b' : ascii) (c : N) :
  checksum_stream e = Ok (p ++ b :: s) → checksum e = Ok c →
  checksum_stream e' = Ok (p ++ b' :: s) → b ≠ b' →
  e_CRC e' = Some c → Decode line ≠ Ok e'.
Proof.
  unfold checksum. intros -> [= <-] He' Hne Hcrc. unfold Decode.
  destruct (parse_json line) as [j|]; [|done]. destruct (entry_of_json j) as [e2|]; [|done].
  destruct (e_CRC e2) as [want|] eqn:Ew; [|intros [= ->]; congruence].
  unfold checksum. destruct (checksum_stream e2) as [st|] eqn:Es; [|done].
  destruct (N.eqb_spec (crc32c st) want) as [Heq|]; [|done]. intros [= ->].
  assert (st = p ++ b' :: s) as -> by congruence.
  assert (crc32c (p ++ b' :: s) = crc32c (p ++ b :: s)) as H by congruence.
  by apply crc32c_byte in H.
Qed.

Lemma Decode_detects_byte_error_witness :
  Decode [] ≠ Ok (MkEntry 1 OpDelete 0 0 None 0 0 (Some (crc32c (put_uint64 2 ++ to_bytes "delete")))).
Proof.
  apply (Decode_detects_byte_error (MkEntry 2 OpDelete 0 0 None 0 0 None)
    (MkEntry 1 OpDelete 0 0 None 0 0 (Some (crc32c (put_uint64 2 ++ to_bytes "delete"))))
    [] [] (drop 1 (put_uint64 2) ++ to_bytes "delete") (ascii_of_N 2) (ascii_of_N 1)
    (crc32c (put_uint64 2 ++ to_bytes "delete"))); vm_compute; done.
Defined.

(** The text of an entry's line, without the newline. *)
Definition line_of (e : Entry) : bytes := match Encode e with Ok b => removelast b | Err _ => [] end.

Definition empty_record : Entry := MkEntry 1 OpInsert 1718000000000000000 1 (Some ∅) 0 0 None.
Definition large_integer : Entry :=
  MkEntry 1 OpInsert 1718000000000000000 1 (Some {["n" := VInt 9007199254740993]}) 0 0 None.

(** An insert of an empty record is not readable: the checksum covers the
    text of the empty map, the line omits it, and decoding the line reports a
    corrupt entry. *)
Theorem empty_record_unreadable :
  Encode empty_record = Ok (line_of empty_record ++ [newline]) ∧
  Decode (line_of empty_record) = Err ErrCorruptEntry.
Proof. vm_compute. split; reflexivity. Qed.

(** An integer beyond the range of exact doubles (here [2^53 + 1]) is not
    readable either: the line carries the integer's digits, the checksum is
    verified over the digits of the double they decode to. *)
Theorem large_integer_unreadable :
  Encode large_integer = Ok (line_of large_integer ++ [newline]) ∧
  Decode (line_of large_integer) = Err ErrCorruptEntry.
Proof. vm_compute. split; reflexivity. Qed.
