(* ===== verification/Disk.v ===== *)
(** * Files, faults and the clock

    The operating-system state the engine works on: the files of the data
    directory with their contents, the clock, the seed of the random source, and
    the outcome of the system calls to come.  Every call that can fail takes the next outcome: [None] for
    success, [Some k] for a failure, after [k] bytes reached the file in the case
    of a write; with no outcome listed the call succeeds.  Engine routines are
    functions from this world to a result and the world they leave behind, on
    errors too. *)

From S2P Require Import Prelude GoTime.

Record World := MkWorld {
  w_files : gmap string bytes;
  w_faults : list (option nat);
  w_now : Time;
  w_seed : N
}.

(** Computations over a state that may fail; the state survives a failure. *)
Definition SE (S A : Type) : Type := S → result A * S.

#[global] Instance SE_ret {S} : MRet (SE S) := λ A a s, (Ok a, s).
#[global] Instance SE_bind {S} : MBind (SE S) := λ A B f m s,
  match m s with
  | (Ok a, s) => f a s
  | (Err e, s) => (Err e, s)
  end.

Definition fail {S A} (e : error) : SE S A := λ s, (Err e, s).
Definition lift {S A} (r : result A) : SE S A := λ s, (r, s).
Definition get {S} : SE S S := λ s, (Ok s, s).
Definition put {S} (s : S) : SE S unit := λ _, (Ok tt, s).

(** [_ = f()]: run and drop the error. *)
Definition ignore {S A} (m : SE S A) : SE S unit := λ s, (Ok tt, (m s).2).

(** Engine routines: the state of an object [X] beside the world. *)
Abbreviation M := (SE World).

Definition io {X A} (m : M A) : SE (X * World) A := λ '(x, w),
  let '(r, w) := m w in (r, (x, w)).
Definition obj {X} : SE (X * World) X := λ s, (Ok s.1, s).
Definition set_obj {X} (x : X) : SE (X * World) unit := λ s, (Ok tt, (x, s.2)).

(** The next outcome. *)
Definition outcome : M (option nat) := λ w,
  match w_faults w with
  | [] => (Ok None, w)
  | o :: os => (Ok o, MkWorld (w_files w) os (w_now w) (w_seed w))
  end.

(** [time.Now().UTC()]. *)
Definition now : M Time := λ w, (Ok (w_now w), w).

(** A fresh value of [crypto/rand]. *)
Definition rand_seed : M N := λ w, (Ok (w_seed w), MkWorld (w_files w) (w_faults w) (w_now w) (w_seed w + 1)).

Definition set_files (fs : gmap string bytes) (w : World) : World :=
  MkWorld fs (w_faults w) (w_now w) (w_seed w).

(** A system call with no effect on the modelled state but its outcome. *)
Definition syscall : M unit :=
  o ← outcome; match o with None => mret tt | Some _ => fail ErrIO end.

(** [os.ReadFile], and opening a file for reading. *)
Definition file_bytes (p : string) : M bytes := λ w, (of_option ErrNotExist (w_files w !! p), w).
Definition read_file (p : string) : M bytes := syscall;; file_bytes p.

Definition put_file (p : string) (b : bytes) : M unit := λ w,
  (Ok tt, set_files (<[p := b]> (w_files w)) w).

(** [os.Remove]. *)
Definition unlink_file (p : string) : M unit := λ w,
  match w_files w !! p with
  | Some _ => (Ok tt, set_files (delete p (w_files w)) w)
  | None => (Err ErrNotExist, w)
  end.
Definition remove_file (p : string) : M unit := syscall;; unlink_file p.

(** [os.Rename]: the target is replaced. *)
Definition move_file (src dst : string) : M unit := λ w,
  match w_files w !! src with
  | Some b => (Ok tt, set_files (<[dst := b]> (delete src (w_files w))) w)
  | None => (Err ErrNotExist, w)
  end.
Definition rename_file (src dst : string) : M unit := syscall;; move_file src dst.

(** A write to a file opened with [O_APPEND]: a failed write may leave a prefix
    of its bytes behind. *)
Definition append_bytes (p : string) (b : bytes) (o : option nat) : M unit := λ w,
  let old := default [] (w_files w !! p) in
  match o with
  | None => (Ok tt, set_files (<[p := old ++ b]> (w_files w)) w)
  | Some k => (Err ErrIO, set_files (<[p := old ++ take k b]> (w_files w)) w)
  end.
Definition append_file (p : string) (b : bytes) : M unit := o ← outcome; append_bytes p b o.

(** [f.Truncate]. *)
Definition truncate_file (p : string) (n : Z) : M unit :=
  syscall;; b ← file_bytes p; put_file p (take (Z.to_nat n) b).

(** [fsyncDir] (engine/fsync_unix.go): open, sync and close the directory; a
    failed sync closes it all the same. *)
Definition fsyncDir : M unit :=
  syscall;;
  s ← get;
  let '(syncErr, s) := syscall s in
  put s;;
  s ← get;
  let '(closeErr, s) := syscall s in
  put s;;
  lift syncErr;; lift closeErr.

(** Run a call and, if it fails, remove a file before returning the error. *)
Definition or_remove (tmp : string) (m : M unit) : M unit := λ w,
  match m w with
  | (Ok tt, w) => (Ok tt, w)
  | (Err e, w) => (Err e, (remove_file tmp w).2)
  end.

(** [writeFileAtomic] (engine/fsync.go): write a temporary file, sync and close
    it, rename it into place, sync the directory. *)
Definition writeFileAtomic (path : string) (data : bytes) : M unit :=
  let tmp := path +:+ ".tmp" in
  syscall;;
  put_file tmp [];;
  or_remove tmp (append_file tmp data);;
  or_remove tmp syscall;;
  or_remove tmp syscall;;
  or_remove tmp (rename_file tmp path);;
  fsyncDir.

(** ** Worlds in which every call succeeds *)
Definition no_faults (w : World) : Prop := w_faults w = [].

Lemma bind_ok {S A B} (m : SE S A) (f : A → SE S B) w a w' :
  m w = (Ok a, w') → (m ≫= f) w = f a w'.
Proof. intros H. unfold mbind, SE_bind. by rewrite H. Qed.

Lemma bind_err {S A B} (m : SE S A) (f : A → SE S B) w e w' :
  m w = (Err e, w') → (m ≫= f) w = (Err e, w').
Proof. intros H. unfold mbind, SE_bind. by rewrite H. Qed.

Lemma bind_inv_ok {S A B} (m : SE S A) (f : A → SE S B) w b w' :
  (m ≫= f) w = (Ok b, w') → ∃ a w1, m w = (Ok a, w1) ∧ f a w1 = (Ok b, w').
Proof. unfold mbind, SE_bind. destruct (m w) as [[a|e] w1]; naive_solver. Qed.

Lemma io_ok {X A} (m : M A) (x : X) w r w' : m w = (r, w') → io m (x, w) = (r, (x, w')).
Proof. intros H. unfold io. by rewrite H. Qed.

Lemma no_faults_set fs w : no_faults w → no_faults (set_files fs w).
Proof. done. Qed.
#[export] Hint Resolve no_faults_set : scriva.

Lemma set_files_set fs fs' w : set_files fs (set_files fs' w) = set_files fs w.
Proof. done. Qed.

Lemma set_files_id w : set_files (w_files w) w = w.
Proof. by destruct w. Qed.

Lemma outcome_nofault w : no_faults w → outcome w = (Ok None, w).
Proof. unfold no_faults, outcome. by intros ->. Qed.

Lemma syscall_nofault w : no_faults w → syscall w = (Ok tt, w).
Proof. intros H. unfold syscall. by erewrite bind_ok by by apply outcome_nofault. Qed.

(** Step a computation over a call whose result is known. *)
Ltac step_with H := erewrite bind_ok by (apply H; auto with scriva).
Ltac step_sys := step_with syscall_nofault.

Lemma read_file_nofault p b w :
  no_faults w → w_files w !! p = Some b → read_file p w = (Ok b, w).
Proof. intros H Hp. unfold read_file. step_sys. unfold file_bytes. by rewrite Hp. Qed.

Lemma append_file_nofault p b w :
  no_faults w →
  append_file p b w = (Ok tt, set_files (<[p := default [] (w_files w !! p) ++ b]> (w_files w)) w).
Proof. intros H. unfold append_file. by step_with outcome_nofault. Qed.

Lemma rename_file_nofault src dst b w :
  no_faults w → w_files w !! src = Some b →
  rename_file src dst w = (Ok tt, set_files (<[dst := b]> (delete src (w_files w))) w).
Proof. intros H Hs. unfold rename_file. step_sys. unfold move_file. by rewrite Hs. Qed.

Lemma truncate_file_nofault p n b w :
  no_faults w → w_files w !! p = Some b →
  truncate_file p n w = (Ok tt, set_files (<[p := take (Z.to_nat n) b]> (w_files w)) w).
Proof.
  intros H Hp. unfold truncate_file. step_sys.
  erewrite bind_ok by (unfold file_bytes; rewrite Hp; reflexivity). done.
Qed.

Lemma fsyncDir_nofault w : no_faults w → fsyncDir w = (Ok tt, w).
Proof.
  intros H. unfold fsyncDir. step_sys. erewrite bind_ok by reflexivity.
  rewrite syscall_nofault by done. erewrite bind_ok by reflexivity. erewrite bind_ok by reflexivity.
  by rewrite syscall_nofault by done.
Qed.

Lemma writeFileAtomic_nofault path data w :
  no_faults w →
  ∃ fs, writeFileAtomic path data w = (Ok tt, set_files fs w) ∧
    fs !! path = Some data ∧
    ∀ p, p ≠ path → p ≠ path +:+ ".tmp" → fs !! p = w_files w !! p.
Proof.
  intros H. unfold writeFileAtomic, or_remove. set (tmp := path +:+ ".tmp").
  step_sys. erewrite bind_ok by reflexivity.
  erewrite bind_ok by (rewrite append_file_nofault by done; reflexivity).
  do 2 erewrite bind_ok by (rewrite syscall_nofault by done; reflexivity).
  erewrite bind_ok by (erewrite rename_file_nofault;
    [reflexivity|done|simpl; rewrite lookup_insert_eq; reflexivity]).
  rewrite fsyncDir_nofault by done. rewrite !set_files_set.
  eexists. split; [done|]. simpl. rewrite lookup_insert_eq. simpl. split; [by rewrite lookup_insert_eq|].
  intros p Hp Hp'. by rewrite lookup_insert_ne, lookup_delete_ne, !lookup_insert_ne by done.
Qed.

(** ** Reasoning under faults

    [triple P m Q E]: from a state with [P] the computation ends with [Q] of its
    value when it succeeds and with [E] when it fails. *)
Definition triple {S A} (P : S → Prop) (m : SE S A) (Q : A → S → Prop) (E : S → Prop) : Prop :=
  ∀ s, P s → match m s with (Ok a, s) => Q a s | (Err _, s) => E s end.

Lemma triple_bind {S A B} P (m : SE S A) (f : A → SE S B) R Q E :
  triple P m R E → (∀ a, triple (R a) (f a) Q E) → triple P (m ≫= f) Q E.
Proof.
  intros Hm Hf s Hs. unfold mbind, SE_bind. specialize (Hm s Hs).
  destruct (m s) as [[a|e] s']; [by apply Hf|done].
Qed.

Lemma triple_conseq {S A} P P' (m : SE S A) Q Q' (E E' : S → Prop) :
  triple P' m Q' E' → (∀ s, P s → P' s) → (∀ a s, Q' a s → Q a s) → (∀ s, E' s → E s) →
  triple P m Q E.
Proof.
  intros Hm HP HQ HE s Hs. specialize (Hm s (HP s Hs)). destruct (m s) as [[a|e] s']; eauto.
Qed.

(** A predicate on the files only is untouched by the calls that only consume an
    outcome. *)
Definition on_files (P : gmap string bytes → Prop) (w : World) : Prop := P (w_files w).

Lemma outcome_triple P : triple (on_files P) outcome (λ _, on_files P) (on_files P).
Proof. intros w Hw. unfold outcome. by destruct (w_faults w). Qed.

Lemma syscall_triple P : triple (on_files P) syscall (λ _, on_files P) (on_files P).
Proof.
  apply (triple_bind _ _ _ (λ _, on_files P)); [apply outcome_triple|].
  by intros [k|] w Hw.
Qed.

Lemma fsyncDir_triple P : triple (on_files P) fsyncDir (λ _, on_files P) (on_files P).
Proof.
  apply (triple_bind _ _ _ (λ _, on_files P)); [apply syscall_triple|]. intros _ w Hw.
  erewrite bind_ok by reflexivity. pose proof (syscall_triple P w Hw) as H1.
  destruct (syscall w) as [r1 w1]. erewrite bind_ok by reflexivity.
  erewrite bind_ok by reflexivity. assert (on_files P w1) as Hw1 by (by destruct r1).
  pose proof (syscall_triple P w1 Hw1) as H2. destruct (syscall w1) as [r2 w2].
  assert (on_files P w2) as Hw2 by (by destruct r2).
  erewrite bind_ok by reflexivity. by destruct r1, r2.
Qed.

Lemma tmp_ne path : path ≠ path +:+ ".tmp".
Proof.
  intros H%(f_equal (length ∘ to_bytes)). simpl in H. rewrite to_bytes_app, length_app in H.
  simpl in H. lia.
Qed.

(** The files other than [p] are as in [fs]. *)
Definition except (p : string) (fs fs' : gmap string bytes) : Prop :=
  ∀ q, q ≠ p → fs' !! q = fs !! q.

Lemma remove_file_except p fs :
  triple (on_files (except p fs)) (remove_file p) (λ _, on_files (except p fs)) (on_files (except p fs)).
Proof.
  apply (triple_bind _ _ _ (λ _, on_files (except p fs))); [apply syscall_triple|].
  intros _ w Hw. unfold unlink_file. destruct (w_files w !! p); [|done].
  intros q Hq. simpl. rewrite lookup_delete_ne by done. by apply Hw.
Qed.

Lemma append_file_triple p b (P : gmap string bytes → Prop) (Q : gmap string bytes → Prop) E :
  (∀ fs, P fs → Q (<[p := default [] (fs !! p) ++ b]> fs)) →
  (∀ fs k, P fs → E (<[p := default [] (fs !! p) ++ take k b]> fs)) →
  (∀ fs, P fs → E fs) →
  triple (on_files P) (append_file p b) (λ _, on_files Q) (on_files E).
Proof.
  intros HQ HE HPE. apply (triple_bind _ _ _ (λ _, on_files P)).
  { eapply triple_conseq; [apply (outcome_triple P)|done|done|]. intros w. apply HPE. }
  intros [k|] w Hw; [by apply HE|by apply HQ].
Qed.

Lemma or_remove_triple tmp m P Q fs :
  triple (on_files P) m (λ _, on_files Q) (on_files (except tmp fs)) →
  triple (on_files P) (or_remove tmp m) (λ _, on_files Q) (on_files (except tmp fs)).
Proof.
  intros Hm w Hw. unfold or_remove. specialize (Hm w Hw). destruct (m w) as [[[]|e] w']; [done|].
  pose proof (remove_file_except tmp fs w' Hm) as H. by destruct (remove_file tmp w') as [[] ?].
Qed.

(** The three stages of [writeFileAtomic]. *)
Section write_file_atomic.
Context (path : string) (data : bytes) (fs : gmap string bytes).
Abbreviation tmp := (path +:+ ".tmp").

Definition wfa_old (fs' : gmap string bytes) : Prop := except tmp fs fs'.
Definition wfa_full (fs' : gmap string bytes) : Prop := wfa_old fs' ∧ fs' !! tmp = Some data.
Definition wfa_done (fs' : gmap string bytes) : Prop :=
  fs' !! path = Some data ∧ ∀ q, q ≠ path → q ≠ tmp → fs' !! q = fs !! q.
Definition wfa_any (fs' : gmap string bytes) : Prop := wfa_old fs' ∨ wfa_done fs'.

Lemma wfa_weaken (m : M unit) P Q :
  triple (on_files P) m (λ _, on_files Q) (on_files wfa_old) →
  triple (on_files P) m (λ _, on_files Q) (on_files wfa_any).
Proof. intros Hm. eapply triple_conseq; [exact Hm|done|done|]. by left. Qed.

Lemma wfa_append :
  triple (on_files (λ fs', wfa_old fs' ∧ fs' !! tmp = Some [])) (or_remove tmp (append_file tmp data))
    (λ _, on_files wfa_full) (on_files wfa_old).
Proof.
  apply or_remove_triple, append_file_triple.
  - intros fs' [Ho ->]. split; [|by rewrite lookup_insert_eq].
    intros q Hq. rewrite lookup_insert_ne by done. by apply Ho.
  - intros fs' k [Ho _] q Hq. rewrite lookup_insert_ne by done. by apply Ho.
  - by intros fs' [Ho _].
Qed.

Lemma wfa_sys : triple (on_files wfa_full) syscall (λ _, on_files wfa_full) (on_files wfa_old).
Proof. eapply triple_conseq; [apply (syscall_triple wfa_full)|done|done|]. by intros s [? _]. Qed.

Lemma wfa_rename :
  triple (on_files wfa_full) (or_remove tmp (rename_file tmp path)) (λ _, on_files wfa_done) (on_files wfa_old).
Proof.
  apply or_remove_triple. apply (triple_bind _ _ _ (λ _, on_files wfa_full)); [apply wfa_sys|].
  intros _ w [Ho Ht]. unfold move_file. rewrite Ht. split; simpl; [by rewrite lookup_insert_eq|].
  intros q Hq Hq'. rewrite lookup_insert_ne, lookup_delete_ne by done. by apply Ho.
Qed.

Lemma writeFileAtomic_triple :
  triple (on_files wfa_old) (writeFileAtomic path data) (λ _, on_files wfa_done) (on_files wfa_any).
Proof.
  apply (triple_bind _ _ _ (λ _, on_files wfa_old)); [apply wfa_weaken, syscall_triple|intros _].
  apply (triple_bind _ _ _ (λ _, on_files (λ fs', wfa_old fs' ∧ fs' !! tmp = Some []))).
  { intros w Hw. split; simpl; [|by rewrite lookup_insert_eq].
    intros q Hq. simpl. rewrite lookup_insert_ne by done. by apply Hw. }
  intros _. apply (triple_bind _ _ _ (λ _, on_files wfa_full)); [apply wfa_weaken, wfa_append|intros _].
  do 2 (apply (triple_bind _ _ _ (λ _, on_files wfa_full));
    [apply wfa_weaken, or_remove_triple, wfa_sys|intros _]).
  apply (triple_bind _ _ _ (λ _, on_files wfa_done)); [apply wfa_weaken, wfa_rename|intros _].
  eapply triple_conseq; [apply (fsyncDir_triple wfa_done)|done|done|]. by right.
Qed.
End write_file_atomic.

(** ** Properties *)

(** [C38] Atomic replacement: whichever of its system calls fail, and however much
    of the temporary file was written, [writeFileAtomic] leaves the target either
    with the whole new contents or as it was, the latter only when it reports an
    error, and touches no file but the target and its temporary file. *)
Theorem writeFileAtomic_atomic (path : string) (data : bytes) (w : World) :
  let '(r, w') := writeFileAtomic path data w in
  (w_files w' !! path = Some data ∨ (w_files w' !! path = w_files w !! path ∧ r ≠ Ok tt)) ∧
  ∀ q, q ≠ path → q ≠ path +:+ ".tmp" → w_files w' !! q = w_files w !! q.
Proof.
  pose proof (tmp_ne path) as Hne.
  pose proof (writeFileAtomic_triple path data (w_files w) w ltac:(by intros q _)) as H.
  destruct (writeFileAtomic path data w) as [[[]|e] w'].
  - destruct H as [H1 H2]. split; [by left|done].
  - destruct H as [H|[H1 H2]]; [|by split; [left|]]. split; [right; split; [by apply H|done]|].
    intros q _ Hq. by apply H.
Qed.
