(* ===== verification/GoStrings.v ===== *)
(** * White space

    [strings.TrimSpace], on the bytes of a string. *)

From S2P Require Import Prelude GoFloat GoJson Value Query Store Disk.

(** The encodings of the white space [strings.TrimSpace] removes. *)
Definition byte (n : N) : ascii := ascii_of_N n.
Definition space_runes : list bytes :=
  map (λ n, [byte n]) [9; 10; 11; 12; 13; 32]%N ++
  [[byte 194; byte 133]; [byte 194; byte 160]; [byte 225; byte 154; byte 128]] ++
  map (λ n, [byte 226; byte 128; byte n]) [128; 129; 130; 131; 132; 133; 134; 135; 136; 137; 138; 168; 169; 175]%N ++
  [[byte 226; byte 129; byte 159]; [byte 227; byte 128; byte 128]].

Fixpoint trim_left (spaces : list bytes) (fuel : nat) (b : bytes) : bytes :=
  match fuel with
  | O => b
  | S fuel =>
      match list_find (λ s, is_prefix s b = true) spaces with
      | Some (_, s) => trim_left spaces fuel (drop (length s) b)
      | None => b
      end
  end.

Definition TrimSpace (s : string) : string :=
  let b := to_bytes s in
  let b := trim_left space_runes (length b) b in
  of_bytes (reverse (trim_left (map reverse space_runes) (length b) (reverse b))).

(** A text that neither starts nor ends with white space is left as it is. *)
Lemma trim_left_none spaces n b : list_find (λ s, is_prefix s b = true) spaces = None → trim_left spaces n b = b.
Proof. intros H. destruct n; [done|]. simpl. by rewrite H. Qed.

Lemma TrimSpace_braces b : TrimSpace (of_bytes ("{"%char :: b ++ ["}"%char])) = of_bytes ("{"%char :: b ++ ["}"%char]).
Proof.
  unfold TrimSpace. rewrite to_of_bytes. set (t := "{"%char :: b ++ ["}"%char]).
  assert (trim_left space_runes (length t) t = t) as -> by (by apply trim_left_none).
  assert (reverse t = "}"%char :: reverse ("{"%char :: b)) as Hr by (subst t; by rewrite app_comm_cons, reverse_app).
  rewrite (trim_left_none (map reverse space_runes)); [by rewrite reverse_involutive|]. by rewrite Hr.
Qed.
