(* ===== verification/GoDuration.v ===== *)
(** * Durations

    [time.Duration] as a number of nanoseconds, its [String] and
    [time.ParseDuration], over the bytes of the text. *)

From S2P Require Import Prelude GoFloat GoStrings.
From Stdlib Require Import SpecFloat.

Open Scope N_scope.

Definition f64_mul (a b : f64) : f64 := SFmul 53 1024 a b.

(** [uint64(x)] for a positive finite [x] in its range. *)
Definition f64_trunc (x : f64) : N :=
  match x with
  | S754_finite _ m e => if (0 <=? e)%Z then N.pos m * 2 ^ Z.to_N e else N.pos m / 2 ^ Z.to_N (- e)
  | _ => 0
  end.

Definition two63 : N := 2 ^ 63.

(** ** Parsing *)

(** The digits at the front; [None] is an overflow. *)
Fixpoint leadingInt (x : N) (s : bytes) : option (N * bytes) :=
  match s with
  | c :: s' =>
      if is_digit c then
        if two63 / 10 <? x then None
        else
          let x := x * 10 + digit_val c in
          if two63 <? x then None else leadingInt x s'
      else Some (x, s)
  | [] => Some (x, s)
  end.

(** The digits of a fraction; those that no longer fit are dropped. *)
Fixpoint leadingFraction (x : N) (scale : f64) (overflow : bool) (s : bytes) : N * f64 * bytes :=
  match s with
  | c :: s' =>
      if is_digit c then
        if overflow then leadingFraction x scale true s'
        else if (two63 - 1) / 10 <? x then leadingFraction x scale true s'
        else
          let y := x * 10 + digit_val c in
          if two63 <? y then leadingFraction x scale true s' else leadingFraction y (f64_mul scale (f64_of_Z 10)) false s'
      else (x, scale, s)
  | [] => (x, scale, s)
  end.

Fixpoint span_unit (s : bytes) : bytes * bytes :=
  match s with
  | c :: s' => if (bool_decide (c = "."%char) || is_digit c)%bool then ([], s) else let '(u, r) := span_unit s' in (c :: u, r)
  | [] => ([], [])
  end.

Definition micro_sign : bytes := [byte 194; byte 181].
Definition greek_mu : bytes := [byte 206; byte 188].

Definition unitMap : list (bytes * N) :=
  [(to_bytes "ns", 1); (to_bytes "us", 1000); (micro_sign ++ ["s"%char], 1000); (greek_mu ++ ["s"%char], 1000);
   (to_bytes "ms", 1000000); (to_bytes "s", 1000000000); (to_bytes "m", 60000000000); (to_bytes "h", 3600000000000)].

Definition find_unit (u : bytes) : option N := (λ p, p.2.2) <$> list_find (λ p, p.1 = u) unitMap.

(** One term of the text: its value in nanoseconds and the rest. *)
Definition duration_term (s : bytes) : option (N * bytes) :=
  match s with
  | [] => None
  | c :: _ =>
      if negb (bool_decide (c = "."%char) || is_digit c) then None
      else
        '(v, s1) ← leadingInt 0 s;
        let pre := negb (length s1 =? length s)%nat in
        let '(f, scale, s2, post) :=
          match s1 with
          | c1 :: t =>
              if bool_decide (c1 = "."%char) then
                let '(f, scale, s2) := leadingFraction 0 (f64_of_Z 1) false t in (f, scale, s2, negb (length s2 =? length t)%nat)
              else (0, f64_of_Z 1, s1, false)
          | [] => (0, f64_of_Z 1, s1, false)
          end in
        if negb (pre || post) then None
        else
          let '(u, rest) := span_unit s2 in
          match u with
          | [] => None
          | _ =>
              unit ← find_unit u;
              if two63 / unit <? v then None
              else
                let v := v * unit in
                let v := if 0 <? f then v + f64_trunc (f64_mul (f64_of_Z (Z.of_N f)) (f64_div (f64_of_Z (Z.of_N unit)) scale)) else v in
                if two63 <? v then None else Some (v, rest)
          end
  end.

(** Every term consumes at least its unit, so the length is enough fuel. *)
Fixpoint duration_terms (fuel : nat) (s : bytes) (d : N) : option N :=
  match s, fuel with
  | [], _ => Some d
  | _, O => None
  | _, S fuel =>
      '(v, rest) ← duration_term s;
      let d := d + v in
      if two63 <? d then None else duration_terms fuel rest d
  end.

Definition ParseDuration (text : string) : option Z :=
  let s := to_bytes text in
  let '(neg, s) :=
    match s with
    | c :: t => if (bool_decide (c = "-"%char) || bool_decide (c = "+"%char))%bool then (bool_decide (c = "-"%char), t) else (false, s)
    | [] => (false, s)
    end in
  if bool_decide (s = ["0"%char]) then Some 0%Z
  else match s with
  | [] => None
  | _ =>
      d ← duration_terms (length s) s 0;
      if neg : bool then Some (- Z.of_N d)%Z
      else if two63 - 1 <? d then None else Some (Z.of_N d)
  end.

(** ** Printing *)
Fixpoint fmtFrac (prec : nat) (v : N) (print : bool) (acc : bytes) : bytes * N :=
  match prec with
  | O => (if print then "."%char :: acc else acc, v)
  | S prec =>
      let d := v mod 10 in
      let print := (print || negb (d =? 0))%bool in
      fmtFrac prec (v / 10) print (if print then digit d :: acc else acc)
  end.

Definition Duration_String (d : Z) : string :=
  let u := Z.abs_N d in
  let sign := if (d <? 0)%Z then ["-"%char] else [] in
  if u =? 0 then "0s"
  else
    of_bytes (sign ++
      (if u <? 1000 then dec_digits u ++ to_bytes "ns"
       else if u <? 1000000 then let '(frac, v) := fmtFrac 3 u false (micro_sign ++ ["s"%char]) in dec_digits v ++ frac
       else if u <? 1000000000 then let '(frac, v) := fmtFrac 6 u false (to_bytes "ms") in dec_digits v ++ frac
       else
         let '(frac, v) := fmtFrac 9 u false (to_bytes "s") in
         let secs := dec_digits (v mod 60) ++ frac in
         let v := v / 60 in
         if v =? 0 then secs
         else
           let mins := dec_digits (v mod 60) ++ "m"%char :: secs in
           let v := v / 60 in
           if v =? 0 then mins else dec_digits v ++ "h"%char :: mins)).

(** The text of a duration reads back, fractions included. *)
Example duration_texts :
  map (λ d, ParseDuration (Duration_String d)) [300000000000; 1000000000; 0; 5400000000001; -1500000; 3661001001001; 999]%Z =
  map Some [300000000000; 1000000000; 0; 5400000000001; -1500000; 3661001001001; 999]%Z.
Proof. vm_compute. reflexivity. Qed.

Example duration_formats : map Duration_String [300000000000; 5400000000001; -1500000]%Z = ["5m0s"; "1h30m0.000000001s"; "-1.5ms"].
Proof. vm_compute. reflexivity. Qed.

Example duration_errors : map ParseDuration [""; "3"; "1d"; "."; "9223372036854775808ns"; "1h 30m"] = [None; None; None; None; None; None].
Proof. vm_compute. reflexivity. Qed.
