(* ===== verification/Segment.v ===== *)
(** * Segments (engine/segment.go)

    A segment is one newline-delimited file of entries.  Its object is the record
    of [Segment]'s fields, its contents are the file of the world.  The file
    models recovery of a partial last line, the line scanner, append, read by
    offset, the two scans, sealing and closing; [segment_log] relates the bytes of
    a file to the entries it holds with their offsets, and the theorems show each
    operation against it. *)

From S2P Require Import Prelude GoTime GoJson Value Store Disk.

Definition DefaultSegmentMaxSize : Z := 4194304.
Definition maxScanTokenSize : Z := 16777216.

Definition carriage_return : ascii := "013"%char.

(** ** The line scanner

    [bufio.Scanner] with [ScanLines] over the rest of a file: lines end at a
    newline, which is dropped with one carriage return before it; a last line
    without newline counts when it is not empty.  A line that does not fit the
    buffer with its newline ends the scan with [ErrTooLong]. *)
Fixpoint split_lines (b : bytes) : list bytes :=
  match b with
  | [] => []
  | c :: b =>
      if bool_decide (c = newline) then [] :: split_lines b
      else match split_lines b with
           | [] => [[c]]
           | l :: ls => (c :: l) :: ls
           end
  end.

Definition dropCR (l : bytes) : bytes :=
  match last l with
  | Some c => if bool_decide (c = carriage_return) then removelast l else l
  | None => l
  end.

Definition line_fits (l : bytes) : bool := (Z.of_nat (length l) + 1 <=? maxScanTokenSize)%Z.

(** The tokens of the scan and the scanner's error. *)
Fixpoint newSegmentScanner (ls : list bytes) : list bytes * option error :=
  match ls with
  | [] => ([], None)
  | l :: ls =>
      if line_fits l then let '(ts, err) := newSegmentScanner ls in (dropCR l :: ts, err)
      else ([], Some ErrTooLong)
  end.

Definition segment_scan (b : bytes) : list bytes * option error := newSegmentScanner (split_lines b).

(** ** The segment object *)

(** The write handle: nil, open, or closed by [Close] but still referenced. *)
Inductive handle := NoFile | OpenFile | ClosedFile.
#[global] Instance handle_eq_dec : EqDecision handle.
Proof. solve_decision. Defined.

Record Segment := MkSegment {
  s_path : string;
  s_size : Z;
  s_sealed : bool;
  s_file : handle
}.

#[global] Instance Segment_eq_dec : EqDecision Segment.
Proof. solve_decision. Defined.

Definition openSealedSegment (path : string) (size : Z) : Segment := MkSegment path size true NoFile.

(** [f.ReadAt(b, off)] with a buffer of [n] bytes. *)
Definition pread (path : string) (off n : Z) : M bytes :=
  syscall;; b ← file_bytes path; mret (take (Z.to_nat n) (drop (Z.to_nat off) b)).

(** [for i := len(b) - 1; i >= 0; i--]: the last newline among the first [i]
    bytes. *)
Fixpoint rfind_newline (b : bytes) (i : nat) : option nat :=
  match i with
  | O => None
  | S i => if bool_decide (b !! i = Some newline) then Some i else rfind_newline b i
  end.

Definition chunk : Z := 512.

(** One turn of the backward scan per unit of fuel; the scan from [size - chunk]
    needs [size / chunk + 1] turns. *)
Fixpoint recover_loop (fuel : nat) (path : string) (size offset : Z) : M Z :=
  match fuel with
  | O => fail ErrOther
  | S fuel =>
      let offset := if (offset <? 0)%Z then 0%Z else offset in
      b ← pread path offset (size - offset);
      match rfind_newline b (length b) with
      | Some i =>
          let validSize := (offset + Z.of_nat i + 1)%Z in
          truncate_file path validSize;; syscall;; mret validSize
      | None =>
          if (offset =? 0)%Z then truncate_file path 0;; syscall;; mret 0%Z
          else recover_loop fuel path size (offset - chunk)
      end
  end.

Definition recoverPartialLine (path : string) : M Z :=
  syscall;;
  content ← file_bytes path;
  let size := Z.of_nat (length content) in
  if (size =? 0)%Z then mret 0%Z
  else
    buf ← pread path (size - 1) 1;
    if bool_decide (buf !! 0 = Some newline) then mret size
    else recover_loop (Z.to_nat (size / chunk + 2)) path size (size - chunk).

(** Opening with [O_CREATE]. *)
Definition create_file (path : string) : M unit := λ w,
  (Ok tt, match w_files w !! path with Some _ => w | None => set_files (<[path := []]> (w_files w)) w end).

Definition openActiveSegment (path : string) : M Segment :=
  syscall;;
  create_file path;;
  size ← recoverPartialLine path;
  mret (MkSegment path size false OpenFile).

(** A call on the handle, which fails when it is not open. *)
Definition on_handle {X} (h : handle) (m : M unit) : SE (X * World) unit :=
  io (if bool_decide (h = OpenFile) then m else fail ErrIO).

(** [Append]: the offset of the entry; on an error the object is unchanged. *)
Definition Append (e : Entry) : SE (Segment * World) Z :=
  s ← obj;
  if s_sealed s then fail ErrOther
  else
    b ← lift (Encode e);
    if (maxScanTokenSize <? Z.of_nat (length b))%Z then fail ErrRecordTooLarge
    else
      on_handle (s_file s) (append_file (s_path s) b);;
      set_obj (MkSegment (s_path s) (s_size s + Z.of_nat (length b)) (s_sealed s) (s_file s));;
      mret (s_size s).

Definition Sync : SE (Segment * World) unit :=
  s ← obj;
  if (s_sealed s || bool_decide (s_file s = NoFile))%bool then mret tt
  else on_handle (s_file s) syscall.

Definition ReadAt (s : Segment) (offset : Z) : M Entry :=
  f ← read_file (s_path s);
  if (offset <? 0)%Z then fail ErrIO
  else
    match segment_scan (drop (Z.to_nat offset) f) with
    | (line :: _, _) => lift (Decode line)
    | ([], Some err) => fail err
    | ([], None) => fail ErrOther
    end.

(** The entries of the tokens: empty lines are skipped, the first line that does
    not decode ends the scan. *)
Fixpoint decode_lines (ls : list bytes) : result (list Entry) :=
  match ls with
  | [] => Ok []
  | l :: ls =>
      if bool_decide (l = []) then decode_lines ls
      else e ← Decode l; es ← decode_lines ls; Ok (e :: es)
  end.

Definition ScanAll (s : Segment) : M (list Entry) :=
  f ← read_file (s_path s);
  let '(ls, err) := segment_scan f in
  es ← lift (decode_lines ls);
  match err with Some err => fail err | None => mret es end.

(** [ScanFrom] calls back with every entry and its offset; [off] advances by the
    token and one byte for its newline. *)
Section ScanFrom.
Context {X : Type} (yield : Z → Entry → SE (X * World) unit).

Fixpoint yield_lines (ls : list bytes) (off : Z) : SE (X * World) unit :=
  match ls with
  | [] => mret tt
  | l :: ls =>
      let start := off in
      let off := (off + (Z.of_nat (length l) + 1))%Z in
      if bool_decide (l = []) then yield_lines ls off
      else e ← lift (Decode l); yield start e;; yield_lines ls off
  end.

Definition ScanFrom (s : Segment) : SE (X * World) unit :=
  f ← io (read_file (s_path s));
  let '(ls, err) := segment_scan f in
  yield_lines ls 0;;
  match err with Some err => fail err | None => mret tt end.
End ScanFrom.

(** [Seal] marks the segment sealed before it syncs and closes the file, and stays
    sealed when they fail. *)
Definition Seal : SE (Segment * World) unit :=
  s ← obj;
  if s_sealed s then mret tt
  else
    set_obj (MkSegment (s_path s) (s_size s) true (s_file s));;
    if bool_decide (s_file s = NoFile) then mret tt
    else
      on_handle (s_file s) syscall;;
      set_obj (MkSegment (s_path s) (s_size s) true ClosedFile);;
      on_handle (s_file s) syscall;;
      set_obj (MkSegment (s_path s) (s_size s) true NoFile).

(** [Close] releases the handle without sealing. *)
Definition Close : SE (Segment * World) unit :=
  s ← obj;
  if bool_decide (s_file s = NoFile) then mret tt
  else
    on_handle (s_file s) syscall;;
    set_obj (MkSegment (s_path s) (s_size s) (s_sealed s) ClosedFile);;
    on_handle (s_file s) syscall.

(** ** The entries of a file

    [segment_log off b es]: the bytes [b], at offset [off] of a file, are complete
    lines that hold the entries [es] at their offsets. *)
Record log_line (l : bytes) (e : Entry) : Prop := {
  ll_newline : no_nl l;
  ll_nonempty : l ≠ [];
  ll_dropCR : dropCR l = l;
  ll_fits : line_fits l = true;
  ll_decode : Decode l = Ok e
}.

Inductive segment_log : Z → bytes → list (Z * Entry) → Prop :=
  | segment_log_nil off : segment_log off [] []
  | segment_log_cons off l e b es :
      log_line l e →
      segment_log (off + (Z.of_nat (length l) + 1)) b es →
      segment_log off (l ++ newline :: b) ((off, e) :: es).

(** *** Scanning *)
Lemma split_lines_cons l b :
  no_nl l → split_lines (l ++ newline :: b) = l :: split_lines b.
Proof.
  induction l as [|c l IH]; intros Hl; [done|]. apply Forall_cons in Hl as [Hc Hl].
  change (split_lines ((c :: l) ++ newline :: b)) with
    (if bool_decide (c = newline) then [] :: split_lines (l ++ newline :: b)
     else match split_lines (l ++ newline :: b) with [] => [[c]] | l :: ls => (c :: l) :: ls end).
  rewrite bool_decide_false by done. by rewrite IH.
Qed.

Lemma segment_scan_cons l b :
  no_nl l → line_fits l = true →
  segment_scan (l ++ newline :: b) = (dropCR l :: (segment_scan b).1, (segment_scan b).2).
Proof.
  intros Hl Hf. unfold segment_scan. rewrite split_lines_cons by done. simpl. rewrite Hf.
  by destruct (newSegmentScanner _).
Qed.

Lemma segment_scan_log off b es :
  segment_log off b es → ∃ ls, segment_scan b = (ls, None) ∧ Forall2 (λ l oe, log_line l oe.2) ls es.
Proof.
  induction 1 as [off|off l e b es Hl Hlog (ls & Hs & Hls)]; [by exists []|].
  exists (l :: ls). destruct Hl as [H1 H2 H3 H4 H5]. rewrite segment_scan_cons, Hs, H3 by done.
  split; [done|]. constructor; [done|done].
Qed.

Lemma decode_lines_log ls es :
  Forall2 (λ l (oe : Z * Entry), log_line l oe.2) ls es → decode_lines ls = Ok es.*2.
Proof.
  induction 1 as [|l [o e] ls es Hl Hls IH]; [done|]. simpl. destruct Hl as [H1 H2 H3 H4 H5].
  rewrite bool_decide_false by done. simpl in *. rewrite H5. simpl. by rewrite IH.
Qed.

Lemma yield_lines_log {X} (yield : Z → Entry → SE (X * World) unit) off b es :
  segment_log off b es → ∀ s, yield_lines yield (segment_scan b).1 off s =
    foldr (λ oe k, yield oe.1 oe.2;; k) (mret tt) es s.
Proof.
  induction 1 as [off|off l e b es [H1 H2 H3 H4 H5] Hlog IH]; intros s; [done|].
  rewrite segment_scan_cons by done. simpl. rewrite H3, bool_decide_false by done.
  rewrite H5. erewrite bind_ok by reflexivity. unfold mbind, SE_bind.
  destruct (yield off e s) as [[]]; [apply IH|done].
Qed.

(** *** Building logs *)
Lemma segment_log_app off b1 es1 b2 es2 :
  segment_log off b1 es1 → segment_log (off + Z.of_nat (length b1)) b2 es2 →
  segment_log off (b1 ++ b2) (es1 ++ es2).
Proof.
  induction 1 as [off|off l e b es Hl Hlog IH]; simpl; [by rewrite Z.add_0_r|].
  intros H2. rewrite <-app_assoc, <-app_comm_cons. constructor; [done|]. apply IH.
  rewrite length_app in H2. simpl in H2.
  by replace (off + (Z.of_nat (length l) + 1) + Z.of_nat (length b))%Z
    with (off + Z.of_nat (length l + S (length b)))%Z by lia.
Qed.

Lemma segment_log_one off l e : log_line l e → segment_log off (l ++ [newline]) [(off, e)].
Proof. intros. constructor; [done|constructor]. Qed.

Lemma segment_log_lookup off b es o e :
  segment_log off b es → (o, e) ∈ es →
  ∃ l rest, (off ≤ o)%Z ∧ drop (Z.to_nat (o - off)) b = l ++ newline :: rest ∧ log_line l e.
Proof.
  induction 1 as [off|off l e' b es Hl Hlog IH]; [by intros ?%not_elem_of_nil|].
  intros [[= -> ->]|Hin]%elem_of_cons.
  { exists l, b. rewrite Z.sub_diag. split_and!; [lia|done|done]. }
  destruct (IH Hin) as (l' & rest & Hle & Hd & Hl'). exists l', rest. split_and!; [lia| |done].
  rewrite <-Hd. rewrite cons_middle, app_assoc, drop_app_ge by (rewrite length_app; simpl; lia).
  f_equal. rewrite length_app. simpl. lia.
Qed.

Lemma segment_log_last off b es : segment_log off b es → b = [] ∨ last b = Some newline.
Proof.
  induction 1 as [off|off l e b es Hl Hlog [->|IH]]; [by left|right; by rewrite last_snoc|].
  right. rewrite cons_middle, app_assoc, last_app, IH. done.
Qed.

(** The offsets of a log are distinct, in order, within the bytes. *)
Lemma segment_log_offsets off b es o e :
  segment_log off b es → (o, e) ∈ es → (off ≤ o < off + Z.of_nat (length b))%Z.
Proof.
  induction 1 as [off|off l e' b es Hl Hlog IH]; [by intros ?%not_elem_of_nil|].
  rewrite length_app. simpl. intros [[= -> ->]|Hin]%elem_of_cons; [lia|]. specialize (IH Hin). lia.
Qed.

(** The line of an entry the engine writes. *)
Lemma dropCR_brace l : last l = Some "}"%char → dropCR l = l.
Proof. unfold dropCR. by intros ->. Qed.

Lemma Encode_log_line e :
  wf_entry e →
  ∃ line c, Encode e = Ok (line ++ [newline]) ∧ checksum e = Ok c ∧
    ((Z.of_nat (length (line ++ [newline])) ≤ maxScanTokenSize)%Z →
     log_line line (stored (set_crc e (Some c)))).
Proof.
  intros He. destruct (Encode_line e He) as (line & c & H1 & H2 & H3 & H4 & H5).
  exists line, c. split_and!; [done|done|]. rewrite length_app. simpl. intros Hlen. split; try done.
  - by intros ->.
  - by apply dropCR_brace.
  - unfold line_fits. apply Z.leb_le. lia.
Qed.

(** *** Recovery of the last complete line *)
Lemma rfind_newline_spec b i :
  match rfind_newline b i with
  | Some j => j < i ∧ b !! j = Some newline ∧ ∀ k, j < k → k < i → b !! k ≠ Some newline
  | None => ∀ k, k < i → b !! k ≠ Some newline
  end.
Proof.
  induction i as [|i IH]; simpl; [lia|]. case_bool_decide as Hi; [split_and!; [lia|done|lia]|].
  destruct (rfind_newline b i) as [j|]; [destruct IH as (H1 & H2 & H3); split_and!; [lia|done|]|];
    intros k; destruct (decide (k = i)) as [->|]; try done; intros; try apply H3; try apply IH; lia.
Qed.

Lemma no_nl_lookup l k : no_nl l → l !! k ≠ Some newline.
Proof. intros H Hk. by eapply Forall_lookup_1 in H; [|exact Hk]. Qed.

(** A file as the longest prefix of complete lines and a partial line. *)
Definition complete (p : bytes) : Prop := p = [] ∨ last p = Some newline.

Lemma complete_last_newline p rest k :
  complete p → no_nl rest → (p ++ rest) !! k = Some newline →
  (∀ j, k < j → (p ++ rest) !! j ≠ Some newline) → S k = length p.
Proof.
  intros Hp Hr Hk Hlast. assert (k < length p) as Hlt.
  { destruct (decide (k < length p)) as [|Hge]; [done|]. rewrite lookup_app_r in Hk by lia.
    by apply no_nl_lookup in Hk. }
  destruct Hp as [->|Hp]; [simpl in *; lia|]. destruct (decide (S k = length p)) as [|Hne]; [done|].
  exfalso. apply (Hlast (pred (length p))); [lia|]. rewrite lookup_app_l by lia.
  by rewrite <-last_lookup.
Qed.

Lemma no_newline_complete p rest :
  complete p → (∀ k, (p ++ rest) !! k ≠ Some newline) → p = [].
Proof.
  intros [->|Hp] H; [done|]. exfalso. rewrite last_lookup in Hp.
  apply (H (pred (length p))). by apply lookup_app_l_Some.
Qed.

Lemma pread_nofault path off n b w :
  no_faults w → w_files w !! path = Some b →
  pread path off n w = (Ok (take (Z.to_nat n) (drop (Z.to_nat off) b)), w).
Proof.
  intros H Hp. unfold pread. step_sys. by erewrite bind_ok by (unfold file_bytes; rewrite Hp; reflexivity).
Qed.

(** The end of the loop once the length of the prefix is known. *)
Lemma recover_truncate path p rest n w :
  no_faults w → w_files w !! path = Some (p ++ rest) → n = Z.of_nat (length p) →
  (truncate_file path n;; syscall;; mret n) w = (Ok n, set_files (<[path := p]> (w_files w)) w).
Proof.
  intros H Hp ->. erewrite bind_ok by (rewrite (truncate_file_nofault _ _ (p ++ rest)) by done; reflexivity).
  erewrite bind_ok by (apply syscall_nofault; done). by rewrite Nat2Z.id, take_app_length.
Qed.

Lemma recover_loop_spec fuel path p rest offset w :
  no_faults w → w_files w !! path = Some (p ++ rest) → complete p → no_nl rest →
  (1 ≤ fuel)%nat → (offset ≤ (Z.of_nat fuel - 1) * chunk)%Z →
  recover_loop fuel path (Z.of_nat (length (p ++ rest))) offset w =
    (Ok (Z.of_nat (length p)), set_files (<[path := p]> (w_files w)) w).
Proof.
  intros Hw Hf Hp Hr. unfold chunk. revert offset. induction fuel as [|fuel IH]; intros offset Hfuel Hoff; [lia|].
  cbn [recover_loop]. remember (if (offset <? 0)%Z then 0%Z else offset) as off eqn:Eoff.
  assert (off = 0 ∨ (0 < off ∧ off = offset))%Z as Hoff0 by (destruct (Z.ltb_spec offset 0); lia).
  erewrite bind_ok by (by apply pread_nofault).
  rewrite take_ge by (rewrite length_drop; lia).
  set (b := drop (Z.to_nat off) (p ++ rest)).
  assert (∀ k, b !! k = (p ++ rest) !! (Z.to_nat off + k)) as Hb by (intros k; apply lookup_drop).
  pose proof (rfind_newline_spec b (length b)) as Hfind. destruct (rfind_newline b (length b)) as [i|].
  - destruct Hfind as (Hi & Hnl & Hlast). rewrite Hb in Hnl.
    assert (S (Z.to_nat off + i) = length p) as Hlen.
    { apply (complete_last_newline p rest); [done|done|done|]. intros j Hj Hnlj.
      apply (Hlast (j - Z.to_nat off)); [lia| |].
      - apply lookup_lt_Some in Hnlj. unfold b. rewrite length_drop. lia.
      - rewrite Hb. by replace (Z.to_nat off + (j - Z.to_nat off)) with j by lia. }
    assert (off + Z.of_nat i + 1 = Z.of_nat (length p))%Z as -> by lia.
    by rewrite (recover_truncate _ p rest).
  - destruct (Z.eqb_spec off 0) as [H0|H0].
    + assert (p = []) as ->.
      { apply (no_newline_complete p rest); [done|]. intros k Hk. apply (Hfind k).
        - apply lookup_lt_Some in Hk. unfold b. rewrite length_drop. lia.
        - by rewrite Hb, H0. }
      by rewrite (recover_truncate _ [] rest).
    + destruct Hoff0 as [?|[? ->]]; [done|]. apply IH; unfold chunk; lia.
Qed.

Lemma recoverPartialLine_spec path p rest w :
  no_faults w → w_files w !! path = Some (p ++ rest) → complete p → no_nl rest →
  recoverPartialLine path w =
    (Ok (Z.of_nat (length p)), set_files (<[path := p]> (w_files w)) w).
Proof.
  intros Hw Hf Hp Hr. unfold recoverPartialLine. step_sys.
  erewrite bind_ok by (unfold file_bytes; rewrite Hf; reflexivity).
  assert (∀ b, w_files w !! path = Some b → set_files (<[path := b]> (w_files w)) w = w) as Hid.
  { intros b Hb. rewrite insert_id by done. apply set_files_id. }
  destruct (Z.eqb_spec (Z.of_nat (length (p ++ rest))) 0) as [H0|H0].
  { rewrite length_app in H0. destruct p, rest; simpl in H0; try lia. by rewrite Hid. }
  erewrite bind_ok by (by apply pread_nofault).
  set (n := length (p ++ rest)) in *.
  assert (take (Z.to_nat 1) (drop (Z.to_nat (Z.of_nat n - 1)) (p ++ rest)) !! 0 = last (p ++ rest)) as ->.
  { rewrite lookup_take_lt, lookup_drop, last_lookup by lia. f_equal. fold n. lia. }
  case_bool_decide as Hlast.
  - assert (rest = []) as ->.
    { destruct (decide (rest = [])) as [|Hne]; [done|]. rewrite last_app in Hlast.
      destruct (last rest) as [c|] eqn:Ec; [|by apply last_None in Ec].
      rewrite last_lookup in Ec. injection Hlast as ->. by apply no_nl_lookup in Ec. }
    unfold n. rewrite app_nil_r in *. by rewrite Hid.
  - apply recover_loop_spec; try done; unfold chunk.
    + pose proof (Z.div_pos (Z.of_nat n) 512). lia.
    + pose proof (Z.div_mod (Z.of_nat n) 512). pose proof (Z.mod_pos_bound (Z.of_nat n) 512).
      rewrite Z2Nat.id by lia. fold n. lia.
Qed.

(** ** The segment as a log

    [seg_rep s w es]: the file of [s] holds exactly the entries [es] and the
    object's size is the file's. *)
Definition seg_rep (s : Segment) (w : World) (es : list (Z * Entry)) : Prop :=
  ∃ b, w_files w !! s_path s = Some b ∧ segment_log 0 b es ∧ s_size s = Z.of_nat (length b).

Definition active (s : Segment) : Prop := s_sealed s = false ∧ s_file s = OpenFile.

(** The bytes [Append] writes and the entry they hold. *)
Definition written (e : Entry) : Entry :=
  match checksum e with Ok c => stored (set_crc e (Some c)) | Err _ => e end.
Definition encoded_size (e : Entry) : Z :=
  match Encode e with Ok b => Z.of_nat (length b) | Err _ => 0 end.

Lemma Encode_segment_log e off :
  wf_entry e → (encoded_size e ≤ maxScanTokenSize)%Z →
  ∃ b, Encode e = Ok b ∧ segment_log off b [(off, written e)].
Proof.
  intros He Hlen. destruct (Encode_log_line e He) as (line & c & H1 & H2 & H3).
  unfold encoded_size in Hlen. rewrite H1 in Hlen. exists (line ++ [newline]). split; [done|].
  unfold written. rewrite H2. by apply segment_log_one, H3.
Qed.

(** What [Append] does to an active segment when its write succeeds. *)
Definition grown (s : Segment) (b : bytes) : Segment :=
  MkSegment (s_path s) (s_size s + Z.of_nat (length b)) (s_sealed s) (s_file s).
Definition append_world (s : Segment) (b : bytes) (w : World) : World :=
  set_files (<[s_path s := default [] (w_files w !! s_path s) ++ b]> (w_files w)) w.

Lemma Append_nofault s w e b :
  no_faults w → active s → Encode e = Ok b → (Z.of_nat (length b) ≤ maxScanTokenSize)%Z →
  Append e (s, w) = (Ok (s_size s), (grown s b, append_world s b w)).
Proof.
  intros Hw [Hs Ho] He Hlen. unfold Append. erewrite bind_ok by reflexivity. simpl. rewrite Hs, He.
  erewrite bind_ok by reflexivity. rewrite (proj2 (Z.ltb_ge _ _)) by done. rewrite Ho.
  erewrite bind_ok by (unfold on_handle; rewrite bool_decide_true by done;
    apply io_ok, append_file_nofault; done).
  erewrite bind_ok by reflexivity. unfold grown. by rewrite Hs, Ho.
Qed.

Lemma seg_rep_append s w es b e :
  seg_rep s w es → segment_log (s_size s) b [(s_size s, e)] →
  seg_rep (grown s b) (append_world s b w) (es ++ [(s_size s, e)]).
Proof.
  intros (b0 & Hb & Hlog & Hsize) Hl. exists (b0 ++ b). unfold append_world. simpl. rewrite Hb. simpl.
  rewrite lookup_insert_eq. split_and!; [done| |rewrite length_app; lia].
  apply segment_log_app; [done|]. by rewrite <-Hsize, Z.add_0_l.
Qed.

Lemma openActiveSegment_spec path p rest w :
  no_faults w → w_files w !! path = Some (p ++ rest) → complete p → no_nl rest →
  openActiveSegment path w =
    (Ok (MkSegment path (Z.of_nat (length p)) false OpenFile),
     set_files (<[path := p]> (w_files w)) w).
Proof.
  intros Hw Hf Hp Hr. unfold openActiveSegment. step_sys.
  erewrite bind_ok by (unfold create_file; rewrite Hf; reflexivity).
  by erewrite bind_ok by (by apply (recoverPartialLine_spec path p rest)).
Qed.

Lemma ScanAll_log s w es : no_faults w → seg_rep s w es → ScanAll s w = (Ok es.*2, w).
Proof.
  intros Hw (b & Hf & Hlog & _). destruct (segment_scan_log _ _ _ Hlog) as (ls & Hs & Hls).
  unfold ScanAll. erewrite bind_ok by (by apply read_file_nofault). rewrite Hs.
  by erewrite bind_ok by (rewrite (decode_lines_log ls es) by done; reflexivity).
Qed.

(** Reading at an offset of the log. *)
Lemma ReadAt_log s w es o e :
  no_faults w → seg_rep s w es → (o, e) ∈ es → ReadAt s o w = (Ok e, w).
Proof.
  intros Hw (b & Hf & Hlog & _) Hin. unfold ReadAt.
  erewrite bind_ok by (apply read_file_nofault; [done|exact Hf]).
  destruct (segment_log_lookup _ _ _ _ _ Hlog Hin) as (l & rest & H0 & Hd & [H1 H2 H3 H4 H5]).
  rewrite (proj2 (Z.ltb_ge _ _)) by done. rewrite Z.sub_0_r in Hd.
  by rewrite Hd, segment_scan_cons, H3, H5 by done.
Qed.

(** The tail a torn write leaves has no newline unless the line is whole. *)
Lemma no_nl_take k l : no_nl l → no_nl (take k l).
Proof. apply Forall_take. Qed.

Lemma take_line k l :
  take k (l ++ [newline]) = take k l ∧ k ≤ length l ∨ take k (l ++ [newline]) = l ++ [newline].
Proof.
  destruct (decide (k ≤ length l)) as [H|H].
  - left. split; [|done]. rewrite take_app_le by done. done.
  - right. apply take_ge. rewrite length_app. simpl. lia.
Qed.

(** ** Properties *)

(** Recovery on open: the chunked backward scan of [recoverPartialLine] always
    ends, and opening an active segment whose file is a prefix [p] of complete
    lines and a partial line [rest] of any length removes exactly [rest]: the
    file becomes [p], the segment's size its length, and no other file changes. *)
Theorem openActiveSegment_recovers (path : string) (p rest : bytes) (w : World) :
  no_faults w → w_files w !! path = Some (p ++ rest) → complete p → no_nl rest →
  openActiveSegment path w =
    (Ok (MkSegment path (Z.of_nat (length p)) false OpenFile),
     set_files (<[path := p]> (w_files w)) w).
Proof. apply openActiveSegment_spec. Qed.

Definition torn_world : World :=
  MkWorld {["seg_000001.ndjson" := line_of sample_entry ++ [newline] ++ replicate 600 "x"%char]} [] 0 0.

Lemma openActiveSegment_recovers_witness :
  openActiveSegment "seg_000001.ndjson" torn_world =
    (Ok (MkSegment "seg_000001.ndjson" (Z.of_nat (length (line_of sample_entry ++ [newline]))) false OpenFile),
     set_files (<["seg_000001.ndjson" := line_of sample_entry ++ [newline]]> (w_files torn_world)) torn_world).
Proof.
  apply (openActiveSegment_recovers _ (line_of sample_entry ++ [newline]) (replicate 600 "x"%char)).
  - reflexivity.
  - vm_compute. reflexivity.
  - right. vm_compute. reflexivity.
  - by_decide.
Defined.

(** [C39] Append and read back, while no system call fails: on an active
    segment that holds [es], [Append] of an entry as the engine writes them
    ([wf_entry]: a known operation, fields in their ranges, a timestamp that
    prints, and data that is absent or not empty with every value exactly
    representable) returns the old size as the offset and makes the segment
    hold [es] and the entry at that offset, unless the encoded record exceeds
    the line limit, which is refused with nothing changed; every entry of the
    log, the new one included, is what [ReadAt] returns at its offset. *)
Theorem Append_ReadAt (s : Segment) (w : World) (es : list (Z * Entry)) (e : Entry) :
  no_faults w → active s → seg_rep s w es → wf_entry e →
  let '(r, (s', w')) := Append e (s, w) in
  if (maxScanTokenSize <? encoded_size e)%Z
  then r = Err ErrRecordTooLarge ∧ s' = s ∧ w' = w
  else r = Ok (s_size s) ∧ active s' ∧ seg_rep s' w' (es ++ [(s_size s, written e)]) ∧
    ∀ o e', (o, e') ∈ es ++ [(s_size s, written e)] → ReadAt s' o w' = (Ok e', w').
Proof.
  intros Hw Ha Hrep He. destruct (Z.ltb_spec maxScanTokenSize (encoded_size e)) as [Hlt|Hle].
  - destruct (Encode_log_line e He) as (line & c & H1 & _). unfold encoded_size in Hlt.
    unfold Append. erewrite bind_ok by reflexivity. simpl. rewrite (proj1 Ha). rewrite H1 in *.
    erewrite bind_ok by reflexivity. by rewrite (proj2 (Z.ltb_lt _ _)) by done.
  - destruct (Encode_segment_log e (s_size s) He Hle) as (b & Hb & Hlog).
    unfold encoded_size in Hle. rewrite Hb in Hle. rewrite (Append_nofault s w e b) by done.
    pose proof (seg_rep_append s w es b (written e) Hrep Hlog) as Hrep'.
    split_and!; [done|by destruct Ha|done|]. intros o e' Hin. by eapply ReadAt_log.
Qed.

Definition fresh_segment : Segment := MkSegment "seg_000001.ndjson" 0 false OpenFile.
Definition fresh_world : World := MkWorld {["seg_000001.ndjson" := []]} [] 0 0.

Lemma fresh_seg_rep : seg_rep fresh_segment fresh_world [].
Proof. exists []. split_and!; [reflexivity|constructor|reflexivity]. Qed.

Lemma Append_ReadAt_witness :
  let '(r, (s', w')) := Append sample_entry (fresh_segment, fresh_world) in
  if (maxScanTokenSize <? encoded_size sample_entry)%Z
  then r = Err ErrRecordTooLarge ∧ s' = fresh_segment ∧ w' = fresh_world
  else r = Ok 0%Z ∧ active s' ∧ seg_rep s' w' ([] ++ [(0%Z, written sample_entry)]) ∧
    ∀ o e', (o, e') ∈ [] ++ [(0%Z, written sample_entry)] → ReadAt s' o w' = (Ok e', w').
Proof.
  apply (Append_ReadAt fresh_segment fresh_world [] sample_entry).
  - reflexivity.
  - split; reflexivity.
  - apply fresh_seg_rep.
  - apply wf_sample_entry.
Defined.

(** Both scans of a segment that holds [es] see exactly its entries in order:
    [ScanFrom] passes its callback the offsets [Append] returned, and stops at the
    callback's first error. *)
Lemma ScanFrom_log {X} (yield : Z → Entry → SE (X * World) unit) s w es x :
  no_faults w → seg_rep s w es →
  ScanFrom yield s (x, w) = foldr (λ oe k, yield oe.1 oe.2;; k) (mret tt) es (x, w).
Proof.
  intros Hw (b & Hf & Hlog & _). destruct (segment_scan_log _ _ _ Hlog) as (ls & Hs & Hls).
  unfold ScanFrom. erewrite bind_ok by (apply io_ok; by apply read_file_nofault).
  pose proof (yield_lines_log yield _ _ _ Hlog (x, w)) as Hy. rewrite Hs in *. simpl in Hy.
  unfold mbind at 1, SE_bind at 1. rewrite Hy.
  match goal with |- context [foldr ?f ?a ?l ?y] => by destruct (foldr f a l y) as [[[]|] ?] end.
Qed.

(** Crash during append: when the write of an append is cut off after any
    number [k] of bytes, reopening the segment afterwards finds every entry it
    held before, and of the torn entry either all or nothing. *)
Theorem torn_append_recovers (s : Segment) (w w2 : World) (es : list (Z * Entry)) (e : Entry) (k : nat) :
  w_faults w = [Some k] → active s → seg_rep s w es → wf_entry e →
  (encoded_size e ≤ maxScanTokenSize)%Z → (Append e (s, w)).2.2 = w2 →
  ∃ s3 w3, openActiveSegment (s_path s) w2 = (Ok s3, w3) ∧ active s3 ∧
    (seg_rep s3 w3 es ∨ seg_rep s3 w3 (es ++ [(s_size s, written e)])).
Proof.
  intros Hw Ha (b0 & Hf & Hlog & Hsize) He Hlen <-.
  destruct (Encode_log_line e He) as (line & c & H1 & H2 & H3).
  unfold encoded_size in Hlen. rewrite H1 in Hlen. pose proof (H3 Hlen) as Hll.
  assert ((Append e (s, w)).2.2 =
    MkWorld (<[s_path s := b0 ++ take k (line ++ [newline])]> (w_files w)) [] (w_now w) (w_seed w)) as ->.
  { unfold Append. erewrite bind_ok by reflexivity. simpl. destruct Ha as [-> ->]. rewrite H1.
    erewrite bind_ok by reflexivity. rewrite (proj2 (Z.ltb_ge _ _)) by done.
    unfold on_handle. rewrite bool_decide_true by done. unfold mbind, SE_bind, io, append_file.
    erewrite bind_ok by (unfold outcome; rewrite Hw; reflexivity). simpl. by rewrite Hf. }
  assert (complete b0) as Hc by (eapply segment_log_last; exact Hlog).
  assert (written e = stored (set_crc e (Some c))) as -> by (unfold written; by rewrite H2).
  destruct (take_line k line) as [[-> Hk]| ->].
  - eexists _, _. split; [apply (openActiveSegment_spec _ b0 (take k line));
      [done|simpl; by rewrite lookup_insert_eq|done|apply no_nl_take, Hll]|].
    split; [done|left]. exists b0. simpl. by rewrite lookup_insert_eq.
  - assert (segment_log 0 (b0 ++ line ++ [newline]) (es ++ [(s_size s, stored (set_crc e (Some c)))])) as Hlog'.
    { rewrite Hsize. apply segment_log_app; [done|]. by apply segment_log_one. }
    eexists _, _. split; [apply (openActiveSegment_spec _ (b0 ++ line ++ [newline]) []);
      [done|simpl; by rewrite lookup_insert_eq, app_nil_r|by eapply segment_log_last|constructor]|].
    split; [done|right]. eexists. simpl. rewrite lookup_insert_eq. split_and!; done.
Qed.

Lemma torn_append_recovers_witness :
  ∃ s3 w3, openActiveSegment "seg_000001.ndjson"
      (Append sample_entry (fresh_segment, MkWorld (w_files fresh_world) [Some 9] 0 0)).2.2 = (Ok s3, w3) ∧
    active s3 ∧ (seg_rep s3 w3 [] ∨ seg_rep s3 w3 ([] ++ [(0%Z, written sample_entry)])).
Proof.
  apply (torn_append_recovers fresh_segment (MkWorld (w_files fresh_world) [Some 9] 0 0) _ [] sample_entry 9).
  - reflexivity.
  - split; reflexivity.
  - exists []. split_and!; [reflexivity|constructor|reflexivity].
  - apply wf_sample_entry.
  - vm_compute. discriminate.
  - reflexivity.
Defined.

(** A failed write is not undone: after an append cut off after three bytes
    returned its error, the next append succeeds but reports the offset of the
    torn bytes, so reading the acknowledged entry back fails, and so does every
    scan of the segment. *)
Theorem torn_write_corrupts_next :
  let '(r1, st1) := Append sample_entry (fresh_segment, MkWorld (w_files fresh_world) [Some 3] 0 0) in
  let '(r2, (s2, w2)) := Append sample_entry st1 in
  r1 = Err ErrIO ∧ r2 = Ok 0%Z ∧ ReadAt s2 0 w2 = (Err ErrSyntax, w2) ∧ ScanAll s2 w2 = (Err ErrSyntax, w2).
Proof. vm_compute. split_and!; reflexivity. Qed.
