(* ===== verification/Index.v ===== *)
(** * The primary index (engine/index.go)

    The in-memory map from record ids to the location of their latest version,
    its persisted form with a SHA-256 checksum, and its reconstruction from the
    segments.  [replay] is the index a log of entries defines; [Rebuild] is shown
    to compute it and [Load] to restore exactly what [Persist] wrote. *)

From S2P Require Import Prelude GoFloat GoTime GoJson Value Store Disk Segment.

(** The digest of [crypto/sha256]; nothing is assumed of it but that it is a
    function. *)
Class Sha256 := sha256 : bytes → bytes.

Record IndexEntry := MkIndexEntry {
  ie_SegmentPath : string;
  ie_Offset : Z;
  ie_Rev : N;
  ie_ExpiresAt : Z;
  ie_Epoch : N
}.

#[global] Instance IndexEntry_eq_dec : EqDecision IndexEntry.
Proof. solve_decision. Defined.

(** The zero value a Go map returns for a missing key. *)
Definition zero_index_entry : IndexEntry := MkIndexEntry "" 0 0 0 0.

Abbreviation Index := (gmap N IndexEntry).

Definition newIndex : Index := ∅.
Definition Set_ (idx : Index) (id : N) (entry : IndexEntry) : Index := <[id := entry]> idx.
Definition Get (idx : Index) (id : N) : option IndexEntry := idx !! id.
Definition Delete_ (idx : Index) (id : N) : Index := delete id idx.
Definition Len (idx : Index) : nat := size idx.

Definition countAtEpoch (idx : Index) (epoch : N) : nat * nat :=
  (size idx, length (filter (λ e : N * IndexEntry, ie_Epoch e.2 = epoch) (map_to_list idx))).

(** ** The persisted form *)
Definition hex_digit (n : N) : ascii := ascii_of_N (if (n <? 10)%N then n + 48 else n + 87)%N.
Definition hex_of_bytes (b : bytes) : string :=
  of_bytes (concat (map (λ c, [hex_digit (N_of_ascii c / 16); hex_digit (N_of_ascii c mod 16)]) b)).

Definition index_entry_json (e : IndexEntry) : json :=
  JObj ([("segment", JStr (ie_SegmentPath e)); ("offset", JNum (json_int (ie_Offset e)))] ++
    omit (ie_Rev e =? 0)%N "rev" (j_uint (ie_Rev e)) ++
    omit (ie_ExpiresAt e =? 0)%Z "expires_at" (JNum (json_int (ie_ExpiresAt e))) ++
    omit (ie_Epoch e =? 0)%N "epoch" (j_uint (ie_Epoch e))).

(** The text of a [uint64] map key. *)
Definition uint_key (n : N) : string := of_bytes (dec_digits n).

Definition entries_json (m : Index) : json :=
  JObj (merge_sort key_le ((λ kv, (uint_key kv.1, index_entry_json kv.2)) <$> map_to_list m)).

(** A nil map marshals to [null]. *)
Definition entries_payload (m : option Index) : bytes :=
  print_json match m with Some m => entries_json m | None => JNull end.

Section persistence.
Context {sha : Sha256}.

Definition index_checksum (m : option Index) : string := hex_of_bytes (sha256 (entries_payload m)).

Definition index_file (m : Index) : bytes :=
  print_json (JObj [("entries", entries_json m); ("checksum", JStr (index_checksum (Some m)))]).

Definition Persist (idx : Index) (path : string) : M unit := writeFileAtomic path (index_file idx).

(** Scalar fields: [null] leaves the field as it is. *)
Definition as_uint (bits cur : N) (v : json) : result N :=
  match v with JNull => Ok cur | JNum n => parse_uint bits n | _ => Err ErrSyntax end.
Definition as_int (cur : Z) (v : json) : result Z :=
  match v with JNull => Ok cur | JNum n => parse_int n | _ => Err ErrSyntax end.
Definition as_string (cur : string) (v : json) : result string :=
  match v with JNull => Ok cur | JStr s => Ok s | _ => Err ErrSyntax end.

Definition set_index_field (e : IndexEntry) (kv : string * json) : result IndexEntry :=
  let '(k, v) := kv in
  let '(MkIndexEntry seg off rev exp epoch) := e in
  let name := field_name k in
  if bool_decide (name = "segment") then
    x ← as_string seg v; Ok (MkIndexEntry x off rev exp epoch)
  else if bool_decide (name = "offset") then
    x ← as_int off v; Ok (MkIndexEntry seg x rev exp epoch)
  else if bool_decide (name = "rev") then
    x ← as_uint 64 rev v; Ok (MkIndexEntry seg off x exp epoch)
  else if bool_decide (name = "expires_at") then
    x ← as_int exp v; Ok (MkIndexEntry seg off rev x epoch)
  else if bool_decide (name = "epoch") then
    x ← as_uint 64 epoch v; Ok (MkIndexEntry seg off rev exp x)
  else Ok e.

Fixpoint set_index_fields (e : IndexEntry) (l : list (string * json)) : result IndexEntry :=
  match l with
  | [] => Ok e
  | kv :: l => e ← set_index_field e kv; set_index_fields e l
  end.

Definition index_entry_of_json (v : json) : result IndexEntry :=
  match v with
  | JNull => Ok zero_index_entry
  | JObj l => set_index_fields zero_index_entry l
  | _ => Err ErrSyntax
  end.

(** [strconv.ParseUint(key, 10, 64)]. *)
Definition parse_uint_key (s : string) : result N :=
  let b := to_bytes s in
  if bool_decide (b = []) then Err ErrSyntax
  else if forallb is_digit b then
    if (dec_value b <? 2 ^ 64)%N then Ok (dec_value b) else Err ErrSyntax
  else Err ErrSyntax.

(** Decoding an object into a map adds to the entries it has. *)
Fixpoint set_entries (m : Index) (l : list (string * json)) : result Index :=
  match l with
  | [] => Ok m
  | (k, v) :: l => id ← parse_uint_key k; e ← index_entry_of_json v; set_entries (<[id := e]> m) l
  end.

Definition set_file_field (f : option Index * string) (kv : string * json) : result (option Index * string) :=
  let '(k, v) := kv in
  let '(entries, checksum) := f in
  let name := field_name k in
  if bool_decide (name = "entries") then
    match v with
    | JNull => Ok (None, checksum)
    | JObj l => m ← set_entries (default ∅ entries) l; Ok (Some m, checksum)
    | _ => Err ErrSyntax
    end
  else if bool_decide (name = "checksum") then x ← as_string checksum v; Ok (entries, x)
  else Ok f.

Fixpoint set_file_fields (f : option Index * string) (l : list (string * json)) : result (option Index * string) :=
  match l with
  | [] => Ok f
  | kv :: l => f ← set_file_field f kv; set_file_fields f l
  end.

Definition index_file_of_json (v : json) : result (option Index * string) :=
  match v with
  | JNull => Ok (None, "")
  | JObj l => set_file_fields (None, "") l
  | _ => Err ErrSyntax
  end.

(** [Load]: the index read, or the error; a nil map reads as empty. *)
Definition Load (path : string) : M Index :=
  b ← read_file path;
  file ← lift (match parse_json b with Some j => index_file_of_json j | None => Err ErrSyntax end);
  if bool_decide (index_checksum file.1 = file.2) then mret (default ∅ file.1)
  else fail ErrIndexStale.
End persistence.

(** Whether every entry points inside one of the segment files. *)
Definition segmentsValid (idx : Index) (sizes : gmap string Z) : bool :=
  forallb (λ kv : N * IndexEntry,
    match sizes !! ie_SegmentPath kv.2 with
    | None => false
    | Some size => negb (size <=? ie_Offset kv.2)%Z
    end) (map_to_list idx).

(** ** Rebuilding *)

(** [scanOffsets]: one pass over the bytes, recording the start of every line that
    is ended by a newline.  Reading in blocks does not change the positions; a read
    that fails ends the loop like the end of the file, without an error. *)
Fixpoint scan_offsets (b : bytes) (pos : Z) (inLine : bool) (lineStart : Z) : list Z :=
  match b with
  | [] => []
  | c :: b =>
      let lineStart := if inLine then lineStart else pos in
      if bool_decide (c = newline) then lineStart :: scan_offsets b (pos + 1) false lineStart
      else scan_offsets b (pos + 1) true lineStart
  end.

Definition scanOffsets (s : Segment) : M (list Z) :=
  syscall;;
  b ← file_bytes (s_path s);
  o ← outcome;
  mret (scan_offsets (match o with Some k => take k b | None => b end) 0 false 0).

(** One entry of the replay: the latest write wins, revisions count up from the
    entry before and never fall below the one recorded, a delete removes the
    id. *)
Definition rebuild_entry (path : string) (fresh : Index) (o : Z) (e : Entry) : Index :=
  match e_Op e with
  | OpInsert | OpUpdate =>
      let rev := u64_add (ie_Rev (default zero_index_entry (fresh !! e_ID e))) 1 in
      let rev := if (rev <? e_Rev e)%N then e_Rev e else rev in
      <[e_ID e := MkIndexEntry path o rev (e_ExpiresAt e) (e_Epoch e)]> fresh
  | OpDelete => delete (e_ID e) fresh
  | OpOther _ => fresh
  end.

(** [for i, e := range entries] with [offsets[i]]: an entry that needs an offset
    the file has no complete line for is an index out of range, a panic. *)
Fixpoint rebuild_entries (path : string) (fresh : Index) (es : list Entry) (offsets : list Z) : option Index :=
  match es with
  | [] => Some fresh
  | e :: es =>
      match e_Op e, offsets with
      | (OpInsert | OpUpdate), [] => None
      | _, _ => rebuild_entries path (rebuild_entry path fresh (hd 0%Z offsets) e) es (tl offsets)
      end
  end.

Fixpoint rebuild_segments (fresh : Index) (segs : list Segment) : M Index :=
  match segs with
  | [] => mret fresh
  | s :: segs =>
      entries ← ScanAll s;
      offsets ← scanOffsets s;
      match rebuild_entries (s_path s) fresh entries offsets with
      | Some fresh => rebuild_segments fresh segs
      | None => fail ErrOther
      end
  end.

(** [Rebuild]: the new index; on an error the old one is kept. *)
Definition Rebuild (segs : list Segment) : M Index := rebuild_segments ∅ segs.

(** ** The index of a log *)

(** An entry with the file and offset it is stored at. *)
Abbreviation located := (string * (Z * Entry))%type.

Definition replay_step (m : Index) (x : located) : Index := rebuild_entry x.1 m x.2.1 x.2.2.
Definition replay_from (m : Index) (l : list located) : Index := foldl replay_step m l.
Definition replay (l : list located) : Index := replay_from ∅ l.

(** The entries of several segments, in segment order. *)
Definition located_log (segs : list Segment) (logs : list (list (Z * Entry))) : list located :=
  concat (zip_with (λ s es, pair (s_path s) <$> es) segs logs).

Lemma scan_offsets_line l b pos start inLine :
  no_nl l →
  scan_offsets (l ++ newline :: b) pos inLine start =
    (if inLine then start else pos) :: scan_offsets b (pos + (Z.of_nat (length l) + 1)) false
      (if inLine then start else pos).
Proof.
  revert pos start inLine. induction l as [|c l IH]; intros pos start inLine Hl; simpl.
  { by destruct inLine. }
  apply Forall_cons in Hl as [Hc Hl]. rewrite bool_decide_false by done. rewrite IH by done.
  destruct inLine; do 2 f_equal; lia.
Qed.

Lemma scan_offsets_start b pos s s' : scan_offsets b pos false s = scan_offsets b pos false s'.
Proof. by destruct b. Qed.

Lemma scan_offsets_log off b es :
  segment_log off b es → ∀ s, scan_offsets b off false s = es.*1.
Proof.
  induction 1 as [off|off l e b es [H1 _ _ _ _] Hlog IH]; intros s; [done|].
  rewrite scan_offsets_line by done. by rewrite IH.
Qed.

Lemma rebuild_entries_log path es m :
  rebuild_entries path m es.*2 es.*1 = Some (replay_from m (pair path <$> es)).
Proof.
  revert m. induction es as [|[o e] es IH]; intros m; [done|]. simpl.
  destruct (e_Op e) eqn:Ho; unfold replay_from; simpl; unfold replay_step at 2; simpl; apply IH.
Qed.

Lemma rebuild_segments_spec segs logs m w :
  no_faults w → Forall2 (λ s es, seg_rep s w es) segs logs →
  rebuild_segments m segs w = (Ok (replay_from m (located_log segs logs)), w).
Proof.
  intros Hw H. revert m. induction H as [|s es segs logs Hs Hr IH]; intros m; [done|]. simpl.
  erewrite bind_ok by (by apply ScanAll_log). destruct Hs as (b & Hf & Hlog & _).
  erewrite bind_ok.
  2:{ unfold scanOffsets. erewrite bind_ok by (by apply syscall_nofault).
      erewrite bind_ok by (unfold file_bytes; rewrite Hf; reflexivity). erewrite bind_ok by (by apply outcome_nofault).
      rewrite (scan_offsets_log _ _ _ Hlog). reflexivity. }
  rewrite rebuild_entries_log, IH. unfold located_log, replay_from. simpl. by rewrite foldl_app.
Qed.

(** The last entry of a log that concerns an id. *)
Definition touches (id : N) (x : located) : Prop :=
  e_ID x.2.2 = id ∧ (e_Op x.2.2 = OpInsert ∨ e_Op x.2.2 = OpUpdate ∨ e_Op x.2.2 = OpDelete).
#[global] Instance touches_dec id x : Decision (touches id x).
Proof. unfold touches. apply _. Defined.

Definition latest (l : list located) (id : N) : option located := last (filter (touches id) l).

Definition is_write (x : located) : bool :=
  match e_Op x.2.2 with OpInsert | OpUpdate => true | _ => false end.

Lemma replay_step_other m x id : ¬ touches id x → replay_step m x !! id = m !! id.
Proof.
  unfold touches, replay_step, rebuild_entry. intros H. destruct (e_Op x.2.2) eqn:Ho; try done.
  - apply lookup_insert_ne. naive_solver.
  - apply lookup_insert_ne. naive_solver.
  - apply lookup_delete_ne. naive_solver.
Qed.

Lemma replay_snoc l x : replay (l ++ [x]) = replay_step (replay l) x.
Proof. unfold replay, replay_from. by rewrite foldl_app. Qed.

Lemma latest_snoc l x id :
  latest (l ++ [x]) id = if decide (touches id x) then Some x else latest l id.
Proof.
  unfold latest. rewrite filter_app, filter_cons, filter_nil.
  destruct (decide (touches id x)); [by rewrite last_snoc|by rewrite app_nil_r].
Qed.

Lemma replay_latest l id :
  match latest l id with
  | Some (p, (o, e)) =>
      if is_write (p, (o, e))
      then ∃ rev, replay l !! id = Some (MkIndexEntry p o rev (e_ExpiresAt e) (e_Epoch e)) ∧ (e_Rev e ≤ rev)%N
      else replay l !! id = None
  | None => replay l !! id = None
  end.
Proof.
  induction l as [|[p [o e]] l IH] using rev_ind; [done|]. rewrite latest_snoc, replay_snoc.
  destruct (decide _) as [[Hid Hop]|Hno].
  2:{ by rewrite (replay_step_other _ _ _ Hno). }
  simpl in *. subst id. unfold is_write, replay_step, rebuild_entry. simpl.
  destruct (e_Op e) eqn:Ho; [..|by destruct Hop as [?|[?|?]]].
  - eexists. rewrite lookup_insert_eq. split; [done|]. destruct (N.ltb_spec (u64_add (ie_Rev (default zero_index_entry (replay l !! e_ID e))) 1) (e_Rev e)); lia.
  - eexists. rewrite lookup_insert_eq. split; [done|]. destruct (N.ltb_spec (u64_add (ie_Rev (default zero_index_entry (replay l !! e_ID e))) 1) (e_Rev e)); lia.
  - by rewrite lookup_delete_eq.
Qed.

(** ** Persist and Load *)
Record wf_index_entry (e : IndexEntry) : Prop := {
  wie_path : wf_string (ie_SegmentPath e) = true;
  wie_offset : (- 2 ^ 63 <= ie_Offset e < 2 ^ 63)%Z;
  wie_rev : (ie_Rev e < 2 ^ 64)%N;
  wie_exp : (- 2 ^ 63 <= ie_ExpiresAt e < 2 ^ 63)%Z;
  wie_epoch : (ie_Epoch e < 2 ^ 64)%N
}.

Definition wf_index (m : Index) : Prop := map_Forall (λ id e, (id < 2 ^ 64)%N ∧ wf_index_entry e) m.

Ltac index_field_step :=
  unfold set_index_field; cbv beta iota zeta;
  repeat match goal with
  | |- context [field_name ?k] => let v := eval vm_compute in (field_name k) in change (field_name k) with v
  end;
  repeat first [rewrite (bool_decide_true (_ = _)) by done | rewrite (bool_decide_false (_ = _)) by done];
  cbv iota; unfold as_uint, as_int, as_string, j_uint; rewrite ?parse_uint_json, ?parse_int_json by done; done.

Section index_fields.
Context (seg : string) (off : Z) (rev : N) (exp : Z) (epoch : N).
Let e := MkIndexEntry seg off rev exp epoch.

Lemma set_index_segment s :
  set_index_field e ("segment", JStr s) = Ok (MkIndexEntry s off rev exp epoch).
Proof. subst e. index_field_step. Qed.
Lemma set_index_offset z : (- 2 ^ 63 <= z < 2 ^ 63)%Z →
  set_index_field e ("offset", JNum (json_int z)) = Ok (MkIndexEntry seg z rev exp epoch).
Proof. intros. subst e. index_field_step. Qed.
Lemma set_index_rev n : (n < 2 ^ 64)%N →
  set_index_field e ("rev", j_uint n) = Ok (MkIndexEntry seg off n exp epoch).
Proof. intros. subst e. index_field_step. Qed.
Lemma set_index_exp z : (- 2 ^ 63 <= z < 2 ^ 63)%Z →
  set_index_field e ("expires_at", JNum (json_int z)) = Ok (MkIndexEntry seg off rev z epoch).
Proof. intros. subst e. index_field_step. Qed.
Lemma set_index_epoch n : (n < 2 ^ 64)%N →
  set_index_field e ("epoch", j_uint n) = Ok (MkIndexEntry seg off rev exp n).
Proof. intros. subst e. index_field_step. Qed.
End index_fields.

Lemma set_index_fields_app e l1 l2 :
  set_index_fields e (l1 ++ l2) = (e ← set_index_fields e l1; set_index_fields e l2).
Proof.
  revert e. induction l1 as [|kv l1 IH]; intros e; simpl; [done|].
  destruct (set_index_field e kv); simpl; [apply IH|done].
Qed.

Lemma set_index_omit e empty name j :
  set_index_fields e (omit empty name j) = if empty then Ok e else set_index_field e (name, j).
Proof. destruct empty; cbn [omit set_index_fields]; [done|]. by destruct (set_index_field e (name, j)). Qed.

Lemma index_entry_roundtrip e :
  wf_index_entry e → wf_json (index_entry_json e) ∧ index_entry_of_json (index_entry_json e) = Ok e.
Proof.
  intros [Hp Ho Hr Hx He]. split.
  { apply wf_json_obj. repeat apply Forall_app_2; auto using wf_omit, wf_j_uint, wf_json_int.
    - repeat apply Forall_cons_2; [..|apply Forall_nil_2]; (split; [done|]); simpl fst; simpl snd; [done|].
      apply wf_json_int.
    - apply wf_omit; [done|]. apply wf_json_int. }
  destruct e as [seg off rev exp epoch]. unfold index_entry_json, index_entry_of_json. cbn [app set_index_fields].
  cbn [ie_SegmentPath ie_Offset ie_Rev ie_ExpiresAt ie_Epoch] in *.
  unfold zero_index_entry. rewrite set_index_segment. cbn [mbind result_bind].
  rewrite set_index_offset by done. cbn [mbind result_bind].
  rewrite set_index_fields_app, set_index_omit.
  assert ((if (rev =? 0)%N then Ok (MkIndexEntry seg off 0 0 0)
    else set_index_field (MkIndexEntry seg off 0 0 0) ("rev", j_uint rev)) = Ok (MkIndexEntry seg off rev 0 0)) as ->.
  { destruct (N.eqb_spec rev 0) as [->|]; [done|]. by rewrite set_index_rev. }
  cbn [mbind result_bind]. rewrite set_index_fields_app, !set_index_omit.
  assert ((if (exp =? 0)%Z then Ok (MkIndexEntry seg off rev 0 0)
    else set_index_field (MkIndexEntry seg off rev 0 0) ("expires_at", JNum (json_int exp))) =
    Ok (MkIndexEntry seg off rev exp 0)) as ->.
  { destruct (Z.eqb_spec exp 0) as [->|]; [done|]. by rewrite set_index_exp. }
  cbn [mbind result_bind]. rewrite set_index_omit. destruct (N.eqb_spec epoch 0) as [->|]; [done|]. by rewrite set_index_epoch.
Qed.

Lemma parse_uint_key_ok n : (n < 2 ^ 64)%N → parse_uint_key (uint_key n) = Ok n.
Proof.
  intros Hn. unfold parse_uint_key, uint_key. rewrite to_of_bytes.
  rewrite bool_decide_false by apply dec_digits_nonempty.
  assert (forallb is_digit (dec_digits n) = true) as ->.
  { pose proof (dec_digits_all n) as H. induction H as [|c l Hc Hl IH]; [done|]. simpl. by rewrite Hc. }
  by rewrite dec_value_digits, (proj2 (N.ltb_lt _ _)).
Qed.

Lemma wf_string_ascii b : Forall (λ c, (N_of_ascii c <? 128)%N = true) b → wf_string (of_bytes b) = true.
Proof.
  intros H. unfold wf_string. rewrite to_of_bytes. unfold utf8_valid.
  induction H as [|c b Hc _ IH]; [done|]. simpl. by rewrite Hc.
Qed.

Lemma wf_string_digits b : Forall (λ c, is_digit c = true) b → wf_string (of_bytes b) = true.
Proof.
  intros H. apply wf_string_ascii. eapply Forall_impl; [exact H|]. intros c Hc.
  destruct c as [[] [] [] [] [] [] [] []]; first [reflexivity|discriminate Hc].
Qed.

Arguments index_entry_json : simpl never.
Arguments index_entry_of_json : simpl never.

Lemma set_entries_ok m (l : list (N * IndexEntry)) :
  Forall (λ kv, (kv.1 < 2 ^ 64)%N ∧ wf_index_entry kv.2) l →
  set_entries m ((λ kv, (uint_key kv.1, index_entry_json kv.2)) <$> l) =
    Ok (foldl (λ m kv, <[kv.1 := kv.2]> m) m l).
Proof.
  intros H. revert m. induction H as [|[id e] l [Hid He] Hl IH]; intros m; [done|]. simpl.
  rewrite parse_uint_key_ok by done. simpl. rewrite (proj2 (index_entry_roundtrip e He)). simpl. apply IH.
Qed.

(** Inserting the pairs of a list with distinct keys in any order. *)
Lemma foldl_insert_perm (l : list (N * IndexEntry)) (m0 : Index) :
  NoDup l.*1 → foldl (λ m kv, <[kv.1 := kv.2]> m) m0 l = list_to_map l ∪ m0.
Proof.
  revert m0. induction l as [|[k v] l IH]; intros m0 Hnd; simpl; [by rewrite (left_id_L ∅ (∪))|].
  inversion Hnd as [|?? Hk Hl]; subst. rewrite IH by done.
  rewrite <-insert_union_r, insert_union_l; [done|]. by apply not_elem_of_list_to_map_1.
Qed.

(** The marshalled pairs, in key order, are those of some enumeration of the
    map. *)
Lemma entries_enum (m : Index) :
  ∃ l, merge_sort key_le ((λ kv, (uint_key kv.1, index_entry_json kv.2)) <$> map_to_list m) =
         ((λ kv, (uint_key kv.1, index_entry_json kv.2)) <$> l) ∧ l ≡ₚ map_to_list m.
Proof.
  set (f := λ kv : N * IndexEntry, (uint_key kv.1, index_entry_json kv.2)).
  pose proof (merge_sort_Permutation key_le (f <$> map_to_list m)) as Hp.
  apply Permutation_map_inv in Hp as (l & Hl & Hp). by exists l.
Qed.

Lemma wf_index_pairs m l :
  wf_index m → l ≡ₚ map_to_list m →
  Forall (λ kv : N * IndexEntry, (kv.1 < 2 ^ 64)%N ∧ wf_index_entry kv.2) l.
Proof.
  intros Hm ->. apply Forall_forall. intros [id e] H%elem_of_map_to_list. by apply (Hm id e).
Qed.

Lemma entries_roundtrip m :
  wf_index m → wf_json (entries_json m) ∧ ∃ l, entries_json m = JObj l ∧ set_entries ∅ l = Ok m.
Proof.
  intros Hm. destruct (entries_enum m) as (l & Hl & Hp). pose proof (wf_index_pairs m l Hm Hp) as Hwf.
  unfold entries_json. rewrite Hl. split.
  - apply wf_json_obj, Forall_fmap. eapply Forall_impl; [exact Hwf|]. intros [id e] [Hid He]. simpl. split.
    + apply wf_string_digits, dec_digits_all.
    + by apply index_entry_roundtrip.
  - eexists. split; [done|]. rewrite set_entries_ok by done. f_equal.
    rewrite foldl_insert_perm by (rewrite Hp; apply NoDup_fst_map_to_list).
    rewrite (right_id_L ∅ (∪)). rewrite (list_to_map_proper l (map_to_list m)); [apply list_to_map_to_list| |done].
    rewrite Hp. apply NoDup_fst_map_to_list.
Qed.

Lemma hex_digit_ascii n : (n < 16)%N → (N_of_ascii (hex_digit n) <? 128)%N = true.
Proof.
  intros Hn. unfold hex_digit. apply N.ltb_lt.
  destruct (N.ltb_spec n 10); rewrite N_ascii_embedding by lia; lia.
Qed.

Lemma wf_string_hex b : wf_string (hex_of_bytes b) = true.
Proof.
  apply wf_string_ascii, Forall_concat, Forall_fmap, Forall_true. intros c. simpl.
  pose proof (N_ascii_bounded c) as Hc. repeat constructor; apply hex_digit_ascii.
  - apply N.Div0.div_lt_upper_bound; lia.
  - by apply N.mod_lt.
Qed.

Section properties.
Context {sha : Sha256}.

Lemma index_file_roundtrip m :
  wf_index m →
  ∃ j, parse_json (index_file m) = Some j ∧ index_file_of_json j = Ok (Some m, index_checksum (Some m)).
Proof.
  intros Hm. destruct (entries_roundtrip m Hm) as (Hwf & l & Hl & Hset).
  unfold index_file. eexists. split.
  { apply parse_print_json, wf_json_obj. repeat apply Forall_cons_2; [..|apply Forall_nil_2];
      (split; [done|]); [done|apply wf_string_hex]. }
  cbn [index_file_of_json set_file_fields]. rewrite Hl.
  assert (set_file_field (None, "") ("entries", JObj l) = Ok (Some m, "")) as ->.
  { unfold set_file_field. cbv beta iota zeta. change (field_name "entries") with "entries".
    rewrite bool_decide_true by done. simpl default. by rewrite Hset. }
  done.
Qed.

Lemma Persist_spec (m : Index) (path : string) (w : World) :
  no_faults w → wf_index m →
  ∃ fs, Persist m path w = (Ok tt, set_files fs w) ∧ Load path (set_files fs w) = (Ok m, set_files fs w) ∧
    ∀ p, p ≠ path → p ≠ path +:+ ".tmp" → fs !! p = w_files w !! p.
Proof.
  intros Hw Hm. destruct (writeFileAtomic_nofault path (index_file m) w Hw) as (fs & H1 & H2 & H3).
  exists fs. split_and!; [done| |done].
  destruct (index_file_roundtrip m Hm) as (j & Hj & Hf).
  unfold Load. erewrite bind_ok by (apply read_file_nofault; [done|exact H2]).
  rewrite Hj, Hf. erewrite bind_ok by reflexivity. by rewrite bool_decide_true by done.
Qed.

(** Round trip of the persisted index: in a world without faults [Persist]
    succeeds, replaces only its own file and its temporary file, and [Load]
    afterwards accepts the checksum and returns exactly the index. *)
Theorem Load_Persist (m : Index) (path : string) (w : World) :
  no_faults w → wf_index m →
  ∃ w', Persist m path w = (Ok tt, w') ∧ Load path w' = (Ok m, w') ∧
    ∀ p, p ≠ path → p ≠ path +:+ ".tmp" → w_files w' !! p = w_files w !! p.
Proof. intros Hw Hm. destruct (Persist_spec m path w Hw Hm) as (fs & H). by exists (set_files fs w). Qed.

(** A persisted index whose entries do not hash to the recorded checksum is
    never used: [Load] reports it stale. *)
Theorem Load_rejects_mismatch (path : string) (b : bytes) (w : World) (j : json)
    (m : option Index) (sum : string) :
  no_faults w → w_files w !! path = Some b → parse_json b = Some j →
  index_file_of_json j = Ok (m, sum) → index_checksum m ≠ sum →
  Load path w = (Err ErrIndexStale, w).
Proof.
  intros Hw Hb Hj Hf Hne. unfold Load. erewrite bind_ok by (by apply read_file_nofault).
  rewrite Hj, Hf. erewrite bind_ok by reflexivity. by rewrite bool_decide_false by done.
Qed.
End properties.

(** Rebuild: over segments that hold the logs [logs], [Rebuild] returns the
    index in which an id is present exactly when the last entry of the
    concatenated logs that concerns it is an insert or an update, at that entry's
    file and offset, with its deadline and epoch and a revision no lower than the
    one recorded in the entry. *)
Theorem Rebuild_latest_wins (segs : list Segment) (logs : list (list (Z * Entry))) (w : World) :
  no_faults w → Forall2 (λ s es, seg_rep s w es) segs logs →
  ∃ m, Rebuild segs w = (Ok m, w) ∧
    ∀ id, match latest (located_log segs logs) id with
      | Some (p, (o, e)) =>
          if is_write (p, (o, e))
          then ∃ rev, m !! id = Some (MkIndexEntry p o rev (e_ExpiresAt e) (e_Epoch e)) ∧ (e_Rev e ≤ rev)%N
          else m !! id = None
      | None => m !! id = None
      end.
Proof.
  intros Hw Hr. eexists. split; [by apply rebuild_segments_spec|]. intros id. apply replay_latest.
Qed.

Lemma Rebuild_latest_wins_witness :
  ∃ m, Rebuild [fresh_segment] fresh_world = (Ok m, fresh_world) ∧
    ∀ id, match latest (located_log [fresh_segment] [[]]) id with
      | Some (p, (o, e)) =>
          if is_write (p, (o, e))
          then ∃ rev, m !! id = Some (MkIndexEntry p o rev (e_ExpiresAt e) (e_Epoch e)) ∧ (e_Rev e ≤ rev)%N
          else m !! id = None
      | None => m !! id = None
      end.
Proof.
  apply (Rebuild_latest_wins [fresh_segment] [[]] fresh_world).
  - reflexivity.
  - constructor; [apply fresh_seg_rep|constructor].
Defined.

(** A digest for evaluation: the length of the input. *)
Definition length_digest : Sha256 := λ b, [ascii_of_nat (length b)].

Definition sample_index : Index := {[3%N := MkIndexEntry "seg_000001.ndjson" 120 2 0 0]}.

Lemma wf_sample_index : wf_index sample_index.
Proof.
  intros id e He. unfold sample_index in He. apply lookup_singleton_Some in He as [<- <-].
  split; [by_decide|]. split; simpl; first [by_decide|reflexivity].
Qed.

Lemma Load_Persist_witness :
  ∃ w', @Persist length_digest sample_index "index.json" fresh_world = (Ok tt, w') ∧
    @Load length_digest "index.json" w' = (Ok sample_index, w') ∧
    ∀ p, p ≠ "index.json" → p ≠ "index.json" +:+ ".tmp" → w_files w' !! p = w_files fresh_world !! p.
Proof.
  apply (@Load_Persist length_digest sample_index "index.json" fresh_world).
  - reflexivity.
  - apply wf_sample_index.
Defined.

Definition stale_index_file : bytes :=
  print_json (JObj [("entries", entries_json sample_index); ("checksum", JStr "00")]).

Lemma Load_rejects_mismatch_witness :
  @Load length_digest "index.json" (MkWorld {["index.json" := stale_index_file]} [] 0 0) =
    (Err ErrIndexStale, MkWorld {["index.json" := stale_index_file]} [] 0 0).
Proof.
  apply (@Load_rejects_mismatch length_digest "index.json" stale_index_file _
    (JObj [("entries", entries_json sample_index); ("checksum", JStr "00")]) (Some sample_index) "00").
  - reflexivity.
  - reflexivity.
  - vm_compute. reflexivity.
  - vm_compute. reflexivity.
  - vm_compute. discriminate.
Defined.
