(* ===== verification/SecIndex.v ===== *)
(** * Secondary indexes (engine/secondary_index.go)

    The inverted index from the text of a field's value to the ids that carry it,
    with the ordered view of its keys that serves range queries.  [sidx_rep]
    relates an index to the values it indexes; the theorems show that the
    operations maintain it, that equality and range look-ups return exactly the
    ids a filter would accept, and that a persisted index is restored. *)

From S2P Require Import Prelude GoFloat GoStrconv GoTime GoJson Value Query Store Disk Segment Index.

Inductive indexKind := indexEmpty | indexNumeric | indexString | indexMixed.

#[global] Instance indexKind_eq_dec : EqDecision indexKind.
Proof. solve_decision. Defined.

Definition kind_String (k : indexKind) : string :=
  match k with
  | indexNumeric => "numeric"
  | indexString => "string"
  | indexMixed => "mixed"
  | indexEmpty => ""
  end.

Definition parseIndexKind (s : string) : indexKind :=
  if bool_decide (s = "numeric") then indexNumeric
  else if bool_decide (s = "string") then indexString
  else if bool_decide (s = "mixed") then indexMixed
  else indexEmpty.

(** A bucket key with its typed value. *)
Abbreviation orderedKey := (string * any)%type.

Definition toIndexKey (v : any) : string := sprint v.

Definition valKind (v : any) : indexKind * any :=
  match v with
  | VFloat x => (indexNumeric, VFloat x)
  | VStr s => (indexString, VStr s)
  | _ => (indexString, VStr (sprint v))
  end.

Definition mergeKind (cur next : indexKind) : indexKind :=
  if bool_decide (cur = indexEmpty) then next
  else if bool_decide (cur = next) then cur
  else indexMixed.

Definition valForKind (kind : indexKind) (key : string) : any :=
  if bool_decide (kind = indexNumeric) then VFloat (ParseFloat key).1 else VStr key.

Record SecondaryIndex := MkSidx {
  x_field : string;
  x_unique : bool;
  x_buckets : gmap string (gset N);
  x_reverse : gmap N string;
  x_kind : indexKind;
  x_sorted : list orderedKey
}.

Definition newSecondaryIndex (field : string) (unique : bool) : SecondaryIndex :=
  MkSidx field unique ∅ ∅ indexEmpty [].

Definition orderLessKey (a b : orderedKey) : bool :=
  let c := Compare a.2 b.2 in
  if (c =? 0)%Z then bool_decide (str_lt a.1 b.1) else (c <? 0)%Z.

Definition sorted_at (l : list orderedKey) (i : nat) : orderedKey := default ("", VNil) (l !! i).

Definition searchSorted (l : list orderedKey) (target : orderedKey) : nat :=
  sort_Search (λ i, negb (orderLessKey (sorted_at l i) target)) (length l).

(** [sorted[i].key == key] with the bound check before it. *)
Definition key_at (l : list orderedKey) (i : nat) (key : string) : bool :=
  (i <? length l) && bool_decide ((sorted_at l i).1 = key).

Definition orderedInsert (kind : indexKind) (l : list orderedKey) (key : string) (val : any) : list orderedKey :=
  if bool_decide (kind = indexMixed) then l
  else
    let ok := (key, val) in
    let i := searchSorted l ok in
    if key_at l i key then l else take i l ++ ok :: drop i l.

Definition orderedRemove (kind : indexKind) (l : list orderedKey) (key : string) : list orderedKey :=
  if bool_decide (kind = indexMixed) then l
  else
    let i := searchSorted l (key, valForKind kind key) in
    if key_at l i key then take i l ++ drop (S i) l else l.

(** The kind and ordered view after a value was observed. *)
Definition observe (kind : indexKind) (l : list orderedKey) (val : any) : indexKind * list orderedKey :=
  let kind := mergeKind kind (valKind val).1 in
  (kind, if bool_decide (kind = indexMixed) then [] else l).

(** The tail of [add] and [update]: id into the bucket of the value. *)
Definition add_key (s : SecondaryIndex) (value : any) (id : N) : SecondaryIndex :=
  let key := toIndexKey value in
  let newBucket := bool_decide (x_buckets s !! key = None) in
  let bucket := default ∅ (x_buckets s !! key) in
  let '(kind, sorted) := observe (x_kind s) (x_sorted s) value in
  MkSidx (x_field s) (x_unique s) (<[key := {[id]} ∪ bucket]> (x_buckets s))
    (<[id := key]> (x_reverse s)) kind
    (if newBucket then orderedInsert kind sorted key (valKind value).2 else sorted).

Definition add (s : SecondaryIndex) (value : any) (id : N) : SecondaryIndex := add_key s value id.

(** id out of the bucket it occupies; an emptied bucket is dropped. *)
Definition drop_key (s : SecondaryIndex) (id : N) (key : string) : SecondaryIndex :=
  let bucket := default ∅ (x_buckets s !! key) ∖ {[id]} in
  if bool_decide (bucket = ∅) then
    MkSidx (x_field s) (x_unique s) (delete key (x_buckets s)) (x_reverse s) (x_kind s)
      (orderedRemove (x_kind s) (x_sorted s) key)
  else
    MkSidx (x_field s) (x_unique s) (<[key := bucket]> (x_buckets s)) (x_reverse s) (x_kind s) (x_sorted s).

Definition remove (s : SecondaryIndex) (id : N) : SecondaryIndex :=
  match x_reverse s !! id with
  | None => s
  | Some key =>
      let s := drop_key s id key in
      MkSidx (x_field s) (x_unique s) (x_buckets s) (delete id (x_reverse s)) (x_kind s) (x_sorted s)
  end.

Definition update (s : SecondaryIndex) (id : N) (newValue : any) : SecondaryIndex :=
  let s := match x_reverse s !! id with Some oldKey => drop_key s id oldKey | None => s end in
  add_key s newValue id.

(** Look-ups return ids in some order of the bucket's set. *)
Definition Lookup (s : SecondaryIndex) (value : string) : list N :=
  elements (default ∅ (x_buckets s !! value)).

Definition conflict (s : SecondaryIndex) (value : string) (id : N) : bool :=
  existsb (λ existing, negb (existing =? id)%N) (elements (default ∅ (x_buckets s !! value))).

Definition LookupRange (s : SecondaryIndex) (op : Op) (queryVal : any) : option (list N) :=
  match x_kind s with
  | indexEmpty => Some []
  | indexMixed => None
  | _ =>
      let '(qk, qv) := valKind queryVal in
      if bool_decide (qk ≠ x_kind s) then None
      else
        let n := length (x_sorted s) in
        let search f := sort_Search (λ i, f (Compare (sorted_at (x_sorted s) i).2 qv)) n in
        let range :=
          match op with
          | OpGt => Some (search (λ c, 0 <? c)%Z, n)
          | OpGte => Some (search (λ c, 0 <=? c)%Z, n)
          | OpLt => Some (0, search (λ c, 0 <=? c)%Z)
          | OpLte => Some (0, search (λ c, 0 <? c)%Z)
          | _ => None
          end in
        match range with
        | None => None
        | Some (lo, hi) =>
            Some (concat (map (λ entry : orderedKey, elements (default ∅ (x_buckets s !! entry.1)))
                    (take (hi - lo) (drop lo (x_sorted s)))))
        end
  end.

(** ** Rebuilding *)
Definition order_le (a b : orderedKey) : Prop := orderLessKey b a = false.
#[global] Instance order_le_dec : RelDecision order_le.
Proof. intros a b. unfold order_le. apply _. Defined.

(** [buildSorted]: the distinct keys in the order of [orderLessKey]; keys are
    distinct, so the result does not depend on the sorting algorithm. *)
Definition buildSorted (buckets : gmap string (gset N)) (kind : indexKind) : list orderedKey :=
  if (bool_decide (kind = indexMixed) || bool_decide (kind = indexEmpty))%bool then []
  else merge_sort order_le ((λ kv, (kv.1, valForKind kind kv.1)) <$> map_to_list buckets).

(** The data of the latest write of every id, [None] once deleted. *)
Definition latest_entry (m : gmap N (option doc)) (e : Entry) : gmap N (option doc) :=
  match e_Op e with
  | OpInsert | OpUpdate => <[e_ID e := Some (default ∅ (e_Data e))]> m
  | OpDelete => <[e_ID e := None]> m
  | OpOther _ => m
  end.

Fixpoint rebuild_latest (m : gmap N (option doc)) (segs : list Segment) : M (gmap N (option doc)) :=
  match segs with
  | [] => mret m
  | s :: segs => es ← ScanAll s; rebuild_latest (foldl latest_entry m es) segs
  end.

(** One record of the rebuild. *)
Definition rebuild_add (field : string) (acc : gmap string (gset N) * gmap N string * indexKind)
    (r : N * option doc) : gmap string (gset N) * gmap N string * indexKind :=
  let '(fresh, rev, kind) := acc in
  match r.2 with
  | None => acc
  | Some data =>
      match data !! field with
      | None => acc
      | Some val =>
          let key := toIndexKey val in
          (<[key := {[r.1]} ∪ default ∅ (fresh !! key)]> fresh, <[r.1 := key]> rev,
           mergeKind kind (valKind val).1)
      end
  end.

Definition rebuild (s : SecondaryIndex) (segs : list Segment) : M SecondaryIndex :=
  latest ← rebuild_latest ∅ segs;
  let '(fresh, freshRev, freshKind) := foldl (rebuild_add (x_field s)) (∅, ∅, indexEmpty) (map_to_list latest) in
  mret (MkSidx (x_field s) (x_unique s) fresh freshRev freshKind (buildSorted fresh freshKind)).

Definition inferKind (buckets : gmap string (gset N)) : indexKind :=
  if forallb (λ kv : string * gset N, (ParseFloat kv.1).2) (map_to_list buckets) then indexNumeric else indexString.

Definition filterValueToIndexKey (filterValue : string) : string :=
  match unmarshal_any (to_bytes filterValue) with
  | Ok v => sprint v
  | Err _ => filterValue
  end.

Definition filterValueTyped (filterValue : string) : any :=
  match unmarshal_any (to_bytes filterValue) with
  | Ok v => v
  | Err _ => VStr filterValue
  end.

Definition sidxFilePath (dir field : string) : string := dir +:+ "/sidx_" +:+ field +:+ ".json".

(** ** The persisted form *)
Record sidxFile := MkSidxFile {
  f_Field : string;
  f_Unique : bool;
  f_Kind : string;
  f_Buckets : option (gmap string (option (list N)));
  f_Checksum : string
}.

(** A nil slice marshals to [null]. *)
Definition ids_json (ids : option (list N)) : json :=
  match ids with Some ids => JArr (j_uint <$> ids) | None => JNull end.

Definition buckets_json (b : option (gmap string (option (list N)))) : json :=
  match b with
  | Some b => JObj ((λ kv, (kv.1, ids_json kv.2)) <$> sorted_pairs b)
  | None => JNull
  end.

Definition set_ids (v : json) : result (option (list N)) :=
  match v with
  | JNull => Ok None
  | JArr l => match mapR (as_uint 64 0) l with Ok ids => Ok (Some ids) | Err e => Err e end
  | _ => Err ErrSyntax
  end.

Definition set_bucket (kv : string * json) : result (string * option (list N)) :=
  ids ← set_ids kv.2; Ok (kv.1, ids).

Definition as_bool (cur : bool) (v : json) : result bool :=
  match v with JNull => Ok cur | JBool b => Ok b | _ => Err ErrSyntax end.

Definition set_sidx_field (f : sidxFile) (kv : string * json) : result sidxFile :=
  let '(k, v) := kv in
  let '(MkSidxFile field unique kind buckets sum) := f in
  let name := field_name k in
  if bool_decide (name = "field") then
    x ← as_string field v; Ok (MkSidxFile x unique kind buckets sum)
  else if bool_decide (name = "unique") then
    x ← as_bool unique v; Ok (MkSidxFile field x kind buckets sum)
  else if bool_decide (name = "kind") then
    x ← as_string kind v; Ok (MkSidxFile field unique x buckets sum)
  else if bool_decide (name = "buckets") then
    match v with
    | JNull => Ok (MkSidxFile field unique kind None sum)
    | JObj l =>
        kvs ← mapR set_bucket l;
        Ok (MkSidxFile field unique kind (Some (assign_all kvs (default ∅ buckets))) sum)
    | _ => Err ErrSyntax
    end
  else if bool_decide (name = "checksum") then
    x ← as_string sum v; Ok (MkSidxFile field unique kind buckets x)
  else Ok f.

Fixpoint set_sidx_fields (f : sidxFile) (l : list (string * json)) : result sidxFile :=
  match l with
  | [] => Ok f
  | kv :: l => f ← set_sidx_field f kv; set_sidx_fields f l
  end.

Definition sidx_file_of_json (v : json) : result sidxFile :=
  let zero := MkSidxFile "" false "" None "" in
  match v with
  | JNull => Ok zero
  | JObj l => set_sidx_fields zero l
  | _ => Err ErrSyntax
  end.

(** The buckets of a file as sets, and the reverse map. *)
Definition file_buckets (b : option (gmap string (option (list N)))) : gmap string (gset N) :=
  (λ ids : option (list N), list_to_set (default [] ids)) <$> default ∅ b.

Definition file_reverse (b : option (gmap string (option (list N)))) : gmap N string :=
  foldl (λ rev kv, foldl (λ rev id, <[id := kv.1]> rev) rev (default [] kv.2)) ∅
    (map_to_list (default ∅ b)).

Section persistence.
Context {sha : Sha256}.

Definition sidx_checksum (b : option (gmap string (option (list N)))) : string :=
  hex_of_bytes (sha256 (print_json (buckets_json b))).

Definition snapshot_buckets (s : SecondaryIndex) : gmap string (option (list N)) :=
  (λ ids : gset N, Some (elements ids)) <$> x_buckets s.

Definition sidx_file (s : SecondaryIndex) : bytes :=
  let b := Some (snapshot_buckets s) in
  print_json (JObj ([("field", JStr (x_field s))] ++
    omit (negb (x_unique s)) "unique" (JBool (x_unique s)) ++
    omit (bool_decide (kind_String (x_kind s) = "")) "kind" (JStr (kind_String (x_kind s))) ++
    [("buckets", buckets_json b); ("checksum", JStr (sidx_checksum b))])).

Definition Persist (s : SecondaryIndex) (path : string) : M unit := writeFileAtomic path (sidx_file s).

(** [Load]: the unique flag is restored before the checksum is verified. *)
Definition Load (path : string) : SE (SecondaryIndex * World) unit :=
  b ← io (read_file path);
  f ← lift (match parse_json b with Some j => sidx_file_of_json j | None => Err ErrSyntax end);
  s ← obj;
  set_obj (MkSidx (x_field s) (f_Unique f) (x_buckets s) (x_reverse s) (x_kind s) (x_sorted s));;
  if bool_decide (sidx_checksum (f_Buckets f) = f_Checksum f) then
    let fresh := file_buckets (f_Buckets f) in
    let kind := parseIndexKind (f_Kind f) in
    let kind := if (bool_decide (kind = indexEmpty) && bool_decide (fresh ≠ ∅))%bool
                then inferKind fresh else kind in
    set_obj (MkSidx (x_field s) (f_Unique f) fresh (file_reverse (f_Buckets f)) kind (buildSorted fresh kind))
  else fail ErrOther.
End persistence.

(** ** The order of the keys *)

(** A value that orders consistently: a number is not NaN and its text parses back
    to it. *)
Definition value_ok (v : any) : bool :=
  match v with
  | VFloat x => negb (is_nan x) && bool_decide (ParseFloat (sprint v) = (x, true))
  | _ => true
  end.

Definition kind_of (k : indexKind) : vkind :=
  match k with indexNumeric => KNum | _ => KText end.

Definition ordered_dom (k : vkind) (a : orderedKey) : Prop := has_kind k a.2 = true.

Section order.
Context (k : vkind).

Lemma Compare_antisym_kind a b :
  has_kind k a = true → has_kind k b = true → Compare a b = (- Compare b a)%Z.
Proof.
  destruct k; intros Ha Hb.
  - apply has_kind_num in Ha as (x & Hx & ?), Hb as (y & Hy & ?). by eapply Compare_antisym_num.
  - apply has_kind_text in Ha. apply Compare_antisym_text. by left.
Qed.

Lemma orderLessKey_spec a b :
  orderLessKey a b = true ↔
  (Compare a.2 b.2 < 0)%Z ∨ (Compare a.2 b.2 = 0)%Z ∧ str_lt a.1 b.1.
Proof.
  unfold orderLessKey. destruct (Z.eqb_spec (Compare a.2 b.2) 0) as [->|H].
  - rewrite bool_decide_eq_true. split; [by right|]. intros [?|[_ ?]]; [lia|done].
  - rewrite Z.ltb_lt. split; [by left|]. intros [?|[? _]]; [done|lia].
Qed.

Lemma orderLessKey_irrefl a : ordered_dom k a → orderLessKey a a = false.
Proof.
  intros Ha. apply not_true_iff_false. rewrite orderLessKey_spec.
  pose proof (Compare_antisym_kind a.2 a.2 Ha Ha). intros [?|[_ ?]]; [lia|].
  by eapply str_lt_irrefl.
Qed.

Lemma orderLessKey_trans a b c :
  ordered_dom k a → ordered_dom k b → ordered_dom k c →
  orderLessKey a b = true → orderLessKey b c = true → orderLessKey a c = true.
Proof.
  unfold ordered_dom. intros Ha Hb Hc. rewrite !orderLessKey_spec.
  pose proof (Compare_trans_le k a.2 b.2 c.2 Ha Hb Hc) as H1.
  pose proof (Compare_trans_le k c.2 a.2 b.2 Hc Ha Hb) as H2.
  pose proof (Compare_trans_le k b.2 c.2 a.2 Hb Hc Ha) as H3.
  pose proof (Compare_antisym_kind a.2 c.2 Ha Hc). pose proof (Compare_antisym_kind a.2 b.2 Ha Hb).
  pose proof (Compare_antisym_kind b.2 c.2 Hb Hc).
  intros [Hab|[Hab Hk]] [Hbc|[Hbc Hk']].
  - left. by apply (Compare_trans_lt k a.2 b.2 c.2).
  - left. destruct (Z.lt_ge_cases (Compare a.2 c.2) 0); [done|]. specialize (H3 ltac:(lia) ltac:(lia)). lia.
  - left. destruct (Z.lt_ge_cases (Compare a.2 c.2) 0); [done|]. specialize (H2 ltac:(lia) ltac:(lia)). lia.
  - right. split; [|by eapply str_lt_trans]. specialize (H1 ltac:(lia) ltac:(lia)).
    pose proof (Compare_trans_le k c.2 b.2 a.2 Hc Hb Ha ltac:(lia) ltac:(lia)). lia.
Qed.

Lemma orderLessKey_total a b :
  ordered_dom k a → ordered_dom k b → a.1 ≠ b.1 → orderLessKey a b = false → orderLessKey b a = true.
Proof.
  intros Ha Hb Hne Hab. apply not_true_iff_false in Hab. rewrite orderLessKey_spec in *.
  pose proof (Compare_antisym_kind a.2 b.2 Ha Hb).
  assert (str_lt a.1 b.1 ∨ str_lt b.1 a.1) as Hk.
  { pose proof (str_le_total a.1 b.1) as Ht. rewrite !str_le_lt_eq in Ht.
    destruct Ht as [[?|?]|[?|?]]; auto; congruence. }
  destruct (decide (Compare a.2 b.2 = 0%Z)) as [E|]; [right; split; [lia|]|left; lia].
  destruct Hk; [|done]. destruct Hab. by right.
Qed.
End order.

Definition strictly_sorted (l : list orderedKey) : Prop := StronglySorted (λ a b, orderLessKey a b = true) l.

Lemma sorted_at_lookup l i a : l !! i = Some a → sorted_at l i = a.
Proof. unfold sorted_at. by intros ->. Qed.

Lemma StronglySorted_lookup {A} (R : A → A → Prop) l i j a b :
  StronglySorted R l → i < j → l !! i = Some a → l !! j = Some b → R a b.
Proof.
  intros Hs. revert i j. induction Hs as [|x l Hs IH Hx]; intros i j Hij; [done|].
  destruct j as [|j]; [lia|]. destruct i as [|i]; simpl.
  - intros [= ->] Hj. rewrite Forall_forall in Hx. apply Hx. by eapply list_elem_of_lookup_2.
  - apply IH. lia.
Qed.

Section search_sorted.
Context (k : vkind) (l : list orderedKey) (target : orderedKey).
Context (Hs : strictly_sorted l) (Hl : Forall (ordered_dom k) l) (Ht : ordered_dom k target).

Lemma dom_at i a : l !! i = Some a → ordered_dom k a.
Proof using Hl. clear Hs Ht. intros. by eapply Forall_lookup_1. Qed.

Lemma searchSorted_spec :
  let r := searchSorted l target in
  r ≤ length l ∧ (∀ i a, i < r → l !! i = Some a → orderLessKey a target = true) ∧
  (∀ i a, r ≤ i → l !! i = Some a → orderLessKey a target = false).
Proof using Hs Hl Ht.
  unfold searchSorted.
  destruct (sort_Search_spec (λ i, negb (orderLessKey (sorted_at l i) target)) (length l)) as (H1 & H2 & H3).
  { intros a b Hab Hb. destruct (lookup_lt_is_Some_2 l b) as [y Hy]; [done|].
    destruct (lookup_lt_is_Some_2 l a) as [x Hx]; [lia|].
    rewrite (sorted_at_lookup _ _ _ Hx), (sorted_at_lookup _ _ _ Hy), !negb_true_iff.
    destruct (decide (a = b)) as [->|]; [naive_solver|]. intros Hxt.
    destruct (orderLessKey y target) eqn:E; [|done].
    assert (orderLessKey x y = true) as Hxy by (apply (StronglySorted_lookup _ l a b x y Hs); [lia|done|done]).
    rewrite (orderLessKey_trans k x y target) in Hxt; eauto using dom_at. }
  split; [done|]. split.
  - intros i a Hi Ha. specialize (H2 i Hi). rewrite (sorted_at_lookup _ _ _ Ha) in H2. by apply negb_false_iff.
  - intros i a Hi Ha. specialize (H3 i Hi ltac:(by apply lookup_lt_Some in Ha)).
    rewrite (sorted_at_lookup _ _ _ Ha) in H3. by apply negb_true_iff.
Qed.
End search_sorted.

Lemma StronglySorted_drop {A} (R : A → A → Prop) n l : StronglySorted R l → StronglySorted R (drop n l).
Proof. intros H. rewrite <-(take_drop n l) in H. by apply StronglySorted_app_1_r in H. Qed.
Lemma StronglySorted_take {A} (R : A → A → Prop) n l : StronglySorted R l → StronglySorted R (take n l).
Proof. intros H. rewrite <-(take_drop n l) in H. by apply StronglySorted_app_1_l in H. Qed.

Lemma orderedInsert_spec k kind l key val :
  kind ≠ indexMixed → strictly_sorted l → Forall (ordered_dom k) l → ordered_dom k (key, val) →
  key ∉ l.*1 →
  let l' := orderedInsert kind l key val in
  strictly_sorted l' ∧ ∀ x, x ∈ l' ↔ x = (key, val) ∨ x ∈ l.
Proof.
  intros Hkind Hs Hl Ht Hnew. unfold orderedInsert. rewrite bool_decide_false by done.
  destruct (searchSorted_spec k l (key, val) Hs Hl Ht) as (H1 & H2 & H3).
  set (i := searchSorted l (key, val)) in *.
  assert (key_at l i key = false) as ->.
  { unfold key_at. destruct (Nat.ltb_spec i (length l)) as [Hlt|]; [|done]. simpl. apply bool_decide_eq_false.
    destruct (lookup_lt_is_Some_2 l i Hlt) as [a Ha]. rewrite (sorted_at_lookup _ _ _ Ha). intros <-.
    apply Hnew, list_elem_of_fmap. exists a. split; [done|]. by eapply list_elem_of_lookup_2. }
  assert (∀ a, a ∈ take i l → orderLessKey a (key, val) = true) as Hbefore.
  { intros a (j & Hj)%list_elem_of_lookup_1. apply lookup_take_Some in Hj as [Hj ?]. by eapply H2. }
  assert (∀ a, a ∈ drop i l → orderLessKey (key, val) a = true) as Hafter.
  { intros a (j & Hj)%list_elem_of_lookup_1. rewrite lookup_drop in Hj.
    apply (orderLessKey_total k); [by eapply dom_at|done| |].
    - intros Heq. apply Hnew, list_elem_of_fmap. exists a. split; [done|]. by eapply list_elem_of_lookup_2.
    - eapply H3; [|exact Hj]. lia. }
  split.
  - apply StronglySorted_app_2; [|by apply StronglySorted_take|constructor; [by apply StronglySorted_drop|]].
    + intros a b Ha [->|Hb]%elem_of_cons; [by apply Hbefore|].
      assert (ordered_dom k a ∧ ordered_dom k b) as [Hda Hdb].
      { rewrite <-(take_drop i l), Forall_app, !Forall_forall in Hl. naive_solver. }
      apply (orderLessKey_trans k _ (key, val)); auto.
    + apply Forall_forall, Hafter.
  - intros x. rewrite <-(take_drop i l) at 3. rewrite !elem_of_app, elem_of_cons. naive_solver.
Qed.

Lemma orderedRemove_spec k kind l key :
  kind ≠ indexMixed → strictly_sorted l → Forall (ordered_dom k) l →
  (key, valForKind kind key) ∈ l →
  let l' := orderedRemove kind l key in
  strictly_sorted l' ∧ ∀ x, x ∈ l' ↔ x ≠ (key, valForKind kind key) ∧ x ∈ l.
Proof.
  intros Hkind Hs Hl Hin. unfold orderedRemove. rewrite bool_decide_false by done.
  set (target := (key, valForKind kind key)) in *.
  assert (ordered_dom k target) as Ht by (rewrite Forall_forall in Hl; by apply Hl).
  destruct (searchSorted_spec k l target Hs Hl Ht) as (H1 & H2 & H3).
  set (i := searchSorted l target) in *.
  apply list_elem_of_lookup_1 in Hin as (p & Hp).
  assert (p = i) as ->.
  { destruct (decide (p < i)) as [Hlt|].
    { specialize (H2 p target Hlt Hp). by rewrite (orderLessKey_irrefl k) in H2. }
    destruct (decide (p = i)) as [|Hne]; [done|].
    destruct (lookup_lt_is_Some_2 l i) as [a Ha]; [apply lookup_lt_Some in Hp; lia|].
    assert (orderLessKey a target = true) as Hless by (apply (StronglySorted_lookup _ l i p a target Hs); [lia|done|done]).
    rewrite (H3 i a) in Hless; done. }
  assert (key_at l i key = true) as ->.
  { unfold key_at. rewrite (sorted_at_lookup _ _ _ Hp). rewrite bool_decide_true by done.
    apply lookup_lt_Some in Hp. by rewrite (proj2 (Nat.ltb_lt _ _)). }
  pose proof Hs as Hs'. unfold strictly_sorted in Hs'. rewrite <-(take_drop_middle l i target Hp) in Hs'.
  pose proof (λ x1 x2, StronglySorted_app_1_elem_of _ _ _ x1 x2 Hs') as Hbefore.
  pose proof (StronglySorted_app_1_l _ _ _ Hs') as Hs1.
  pose proof (StronglySorted_app_1_r _ _ _ Hs') as [Hs2 Hafter]%StronglySorted_inv.
  rewrite Forall_forall in Hafter. split.
  - apply StronglySorted_app_2; [|done|done]. intros a b Ha Hb. apply Hbefore; [done|set_solver].
  - intros x. rewrite <-(take_drop_middle l i target Hp) at 3. rewrite !elem_of_app, elem_of_cons.
    assert (x ∈ take i l → x ≠ target) as Hx1.
    { intros Hx ->. assert (orderLessKey target target = true) as Hb by (apply Hbefore; [done|set_solver]).
      by rewrite (orderLessKey_irrefl k) in Hb. }
    assert (x ∈ drop (S i) l → x ≠ target) as Hx2.
    { intros Hx ->. assert (orderLessKey target target = true) as Hb by (by apply Hafter).
      by rewrite (orderLessKey_irrefl k) in Hb. }
    naive_solver.
Qed.

(** ** The representation invariant

    [sidx_rep s vals]: the index [s] represents the values [vals] of its field by
    record id. *)
Record rep_core (s : SecondaryIndex) (vals : gmap N any) : Prop := {
  rep_values : ∀ id v, vals !! id = Some v → value_ok v = true;
  rep_buckets : ∀ key id, id ∈ default ∅ (x_buckets s !! key) ↔ toIndexKey <$> vals !! id = Some key;
  rep_nonempty : ∀ key, x_buckets s !! key ≠ Some ∅;
  rep_kind : x_kind s ≠ indexMixed → ∀ id v, vals !! id = Some v → (valKind v).1 = x_kind s;
  rep_sorted : x_kind s ≠ indexMixed → strictly_sorted (x_sorted s) ∧
    ∀ key v, (key, v) ∈ x_sorted s ↔ is_Some (x_buckets s !! key) ∧ v = valForKind (x_kind s) key
}.

Definition sidx_rep (s : SecondaryIndex) (vals : gmap N any) : Prop :=
  rep_core s vals ∧ x_reverse s = toIndexKey <$> vals.

Lemma valForKind_ok v :
  value_ok v = true →
  valForKind (valKind v).1 (toIndexKey v) = (valKind v).2 ∧
  has_kind (kind_of (valKind v).1) (valKind v).2 = true.
Proof.
  intros Hv. unfold toIndexKey. destruct v; simpl in Hv |- *; bools; try done.
  - unfold valForKind. rewrite bool_decide_true by done. rewrite H0. by rewrite H.
  - unfold valForKind. rewrite bool_decide_false by done. unfold sprint. simpl. by rewrite of_to_bytes.
Qed.

Lemma valKind_not_empty v : (valKind v).1 ≠ indexEmpty ∧ (valKind v).1 ≠ indexMixed.
Proof. by destruct v. Qed.

(** Every bucket holds the id of some value with its key. *)
Lemma rep_bucket_value s vals key :
  rep_core s vals → is_Some (x_buckets s !! key) → ∃ id v, vals !! id = Some v ∧ toIndexKey v = key.
Proof.
  intros Hr [B HB]. destruct (set_choose_or_empty B) as [[id Hid]|He].
  - pose proof (proj1 (rep_buckets _ _ Hr key id)) as H. rewrite HB in H. specialize (H Hid).
    apply fmap_Some in H as (v & Hv & ->). eauto.
  - exfalso. apply (rep_nonempty _ _ Hr key). rewrite HB. f_equal. by apply leibniz_equiv.
Qed.

Lemma rep_sorted_dom s vals :
  rep_core s vals → x_kind s ≠ indexMixed → Forall (ordered_dom (kind_of (x_kind s))) (x_sorted s).
Proof.
  intros Hr Hk. apply Forall_forall. intros [key v] [Hb ->]%(proj2 (rep_sorted _ _ Hr Hk)).
  destruct (rep_bucket_value _ _ _ Hr Hb) as (id & v & Hv & <-).
  rewrite <-(rep_kind _ _ Hr Hk id v Hv).
  destruct (valForKind_ok v (rep_values _ _ Hr id v Hv)) as [-> Hd]. done.
Qed.

Lemma rep_empty_kind s vals : rep_core s vals → x_kind s = indexEmpty → vals = ∅.
Proof.
  intros Hr Hk. apply map_empty. intros id. destruct (vals !! id) as [v|] eqn:Hv; [|done].
  assert ((valKind v).1 = indexEmpty) as H by (rewrite <-Hk; eapply (rep_kind _ _ Hr); [by rewrite Hk|done]).
  by apply valKind_not_empty in H.
Qed.

Lemma newSecondaryIndex_rep field unique : sidx_rep (newSecondaryIndex field unique) ∅.
Proof.
  split; [|done]. split; simpl.
  - intros id v. by rewrite lookup_empty.
  - intros key id. rewrite !lookup_empty. simpl. set_solver.
  - intros key. by rewrite lookup_empty.
  - intros _ id v. by rewrite lookup_empty.
  - intros _. split; [constructor|]. intros key v. rewrite lookup_empty. split; [by intros ?%not_elem_of_nil|].
    by intros [[] _].
Qed.

(** *** Removing an id *)
Lemma drop_key_buckets s id key k :
  default ∅ (x_buckets (drop_key s id key) !! k) =
    if decide (k = key) then default ∅ (x_buckets s !! key) ∖ {[id]} else default ∅ (x_buckets s !! k).
Proof.
  unfold drop_key. case_bool_decide as He; simpl; destruct (decide (k = key)) as [->|].
  - rewrite lookup_delete_eq. simpl. by rewrite He.
  - by rewrite lookup_delete_ne.
  - by rewrite lookup_insert_eq.
  - by rewrite lookup_insert_ne.
Qed.

Lemma drop_key_core s vals id v :
  rep_core s vals → vals !! id = Some v → rep_core (drop_key s id (toIndexKey v)) (delete id vals).
Proof.
  intros Hr Hv. split.
  - intros i u [_ Hu]%lookup_delete_Some. by eapply rep_values.
  - intros key i. rewrite drop_key_buckets. destruct (decide (key = toIndexKey v)) as [->|Hne].
    + rewrite elem_of_difference, (rep_buckets _ _ Hr), elem_of_singleton.
      destruct (decide (i = id)) as [->|Hi].
      * rewrite lookup_delete_eq. simpl. split; [by intros [_ []]|done].
      * rewrite lookup_delete_ne by done. tauto.
    + rewrite (rep_buckets _ _ Hr). destruct (decide (i = id)) as [->|Hi].
      * rewrite lookup_delete_eq, Hv. simpl. split; [congruence|done].
      * by rewrite lookup_delete_ne.
  - intros key. unfold drop_key. case_bool_decide as He; simpl.
    + intros [_ H]%lookup_delete_Some. by apply (rep_nonempty _ _ Hr) in H.
    + intros [[_ H]|[_ H]]%lookup_insert_Some; [done|]. by apply (rep_nonempty _ _ Hr) in H.
  - intros Hk i u [_ Hu]%lookup_delete_Some.
    assert (x_kind (drop_key s id (toIndexKey v)) = x_kind s) as Hk' by (unfold drop_key; by case_bool_decide).
    rewrite Hk' in Hk |- *. by eapply rep_kind.
  - intros Hk. unfold drop_key in *. case_bool_decide as He; simpl in *; destruct (rep_sorted _ _ Hr Hk) as [Hs Hin].
    + destruct (orderedRemove_spec (kind_of (x_kind s)) (x_kind s) (x_sorted s) (toIndexKey v)) as [Hs' Hin'];
        [done|done|by eapply rep_sorted_dom|..].
      { apply Hin. split; [|done]. destruct (x_buckets s !! toIndexKey v) eqn:E; [eauto|].
        exfalso. pose proof (rep_buckets _ _ Hr (toIndexKey v) id) as H. rewrite E, Hv in H. simpl in H. set_solver. }
      split; [done|]. intros key u. rewrite Hin', Hin.
      destruct (decide (key = toIndexKey v)) as [->|Hne].
      * rewrite lookup_delete_eq. split; [by intros [? [_ ->]]|by intros [[] _]].
      * rewrite lookup_delete_ne by done. split; [tauto|]. intros [? ?]. split; [congruence|done].
    + split; [done|]. intros key u. rewrite Hin. destruct (decide (key = toIndexKey v)) as [->|Hne].
      * rewrite lookup_insert_eq. split; [by intros [_ ->]|intros [_ ->]]. split; [|done].
        destruct (x_buckets s !! toIndexKey v) eqn:E; [eauto|]. exfalso. apply He. simpl. set_solver.
      * by rewrite lookup_insert_ne.
Qed.

(** *** Adding an id *)
Lemma add_key_kind s v id : x_kind (add_key s v id) = mergeKind (x_kind s) (valKind v).1.
Proof. done. Qed.

Lemma mergeKind_not_mixed cur next :
  mergeKind cur next ≠ indexMixed → mergeKind cur next = next ∧ (cur = indexEmpty ∨ cur = next).
Proof. unfold mergeKind. repeat case_bool_decide; naive_solver. Qed.

Lemma rep_empty_bucket s vals key :
  rep_core s vals → x_kind s = indexEmpty → ¬ is_Some (x_buckets s !! key).
Proof.
  intros Hr He Hb. destruct (rep_bucket_value _ _ _ Hr Hb) as (i & w & Hw & _).
  by rewrite (rep_empty_kind _ _ Hr He), lookup_empty in Hw.
Qed.

(** The ordered view read at the kind the index is about to have. *)
Lemma rep_sorted_kind s vals kind :
  rep_core s vals → x_kind s ≠ indexMixed → x_kind s = indexEmpty ∨ x_kind s = kind →
  Forall (ordered_dom (kind_of kind)) (x_sorted s) ∧
  ∀ key u, (key, u) ∈ x_sorted s ↔ is_Some (x_buckets s !! key) ∧ u = valForKind kind key.
Proof.
  intros Hr Hnm Hcur. destruct (rep_sorted _ _ Hr Hnm) as [Hs Hin]. destruct Hcur as [He|<-].
  - assert (x_sorted s = []) as ->.
    { destruct (x_sorted s) as [|[key u] l]; [done|]. exfalso.
      apply (rep_empty_bucket s vals key); [done..|]. apply (Hin key u). apply elem_of_cons. by left. }
    split; [constructor|]. intros key u. split; [by intros ?%not_elem_of_nil|]. intros [Hb _]. exfalso.
    by eapply rep_empty_bucket.
  - split; [by eapply rep_sorted_dom|done].
Qed.

Lemma add_key_core s vals id v :
  rep_core s vals → vals !! id = None → value_ok v = true → rep_core (add_key s v id) (<[id := v]> vals).
Proof.
  intros Hr Hid Hok. split.
  - intros i u [[<- <-]|[_ Hu]]%lookup_insert_Some; [done|]. by eapply rep_values.
  - intros key i. simpl. destruct (decide (key = toIndexKey v)) as [->|Hne].
    + rewrite lookup_insert_eq. simpl. rewrite elem_of_union, elem_of_singleton, (rep_buckets _ _ Hr).
      destruct (decide (i = id)) as [->|Hi]; [rewrite lookup_insert_eq; simpl; naive_solver|].
      rewrite lookup_insert_ne by done. naive_solver.
    + rewrite lookup_insert_ne, (rep_buckets _ _ Hr) by done.
      destruct (decide (i = id)) as [->|Hi]; [|by rewrite lookup_insert_ne].
      rewrite lookup_insert_eq, Hid. simpl. naive_solver.
  - intros key. simpl. intros [[_ H]|[_ H]]%lookup_insert_Some; [|by apply (rep_nonempty _ _ Hr) in H].
    assert (id ∈ (∅ : gset N)) as Hin by (rewrite <-H; set_solver). set_solver.
  - rewrite add_key_kind. intros [-> Hcur]%mergeKind_not_mixed i u [[<- <-]|[_ Hu]]%lookup_insert_Some; [done|].
    destruct Hcur as [He|He].
    + by rewrite (rep_empty_kind _ _ Hr He), lookup_empty in Hu.
    + rewrite <-He. eapply (rep_kind _ _ Hr); [|done]. rewrite He. apply valKind_not_empty.
  - rewrite add_key_kind. intros Hm. pose proof (mergeKind_not_mixed _ _ Hm) as [Hk Hcur].
    destruct (valForKind_ok v Hok) as [Hval Hdom].
    assert (x_kind s ≠ indexMixed) as Hnm.
    { destruct Hcur as [->| ->]; [done|apply valKind_not_empty]. }
    destruct (rep_sorted _ _ Hr Hnm) as [Hs Hin].
    destruct (rep_sorted_kind s vals (valKind v).1 Hr Hnm Hcur) as [Hd Hin'].
    unfold add_key, observe. simpl. rewrite (bool_decide_false _ Hm), Hk.
    case_bool_decide as Hnew.
    + destruct (orderedInsert_spec (kind_of (valKind v).1) (valKind v).1 (x_sorted s) (toIndexKey v) (valKind v).2)
        as [Hs' Hin2]; [apply valKind_not_empty|done|done|done|..].
      { intros ([key u] & Heq & Hu)%list_elem_of_fmap. simpl in Heq. subst key. apply Hin' in Hu as [[? Hb] _]. congruence. }
      split; [done|]. intros key u. rewrite Hin2, Hin'. destruct (decide (key = toIndexKey v)) as [->|Hne].
      * rewrite lookup_insert_eq, Hnew, Hval. split; [|naive_solver].
        intros [[= ->]|[[] _]]; eauto; done.
      * rewrite lookup_insert_ne by done. naive_solver.
    + split; [done|]. intros key u. rewrite Hin'. destruct (decide (key = toIndexKey v)) as [->|Hne].
      * rewrite lookup_insert_eq. destruct (x_buckets s !! toIndexKey v); naive_solver.
      * by rewrite lookup_insert_ne.
Qed.

Lemma add_rep s vals id v :
  sidx_rep s vals → vals !! id = None → value_ok v = true → sidx_rep (add s v id) (<[id := v]> vals).
Proof.
  intros [Hr Hrev] Hid Hok. split; [by apply add_key_core|]. simpl. by rewrite Hrev, fmap_insert.
Qed.

Lemma drop_key_reverse s id key : x_reverse (drop_key s id key) = x_reverse s.
Proof. unfold drop_key. by case_bool_decide. Qed.

Lemma remove_rep s vals id : sidx_rep s vals → sidx_rep (remove s id) (delete id vals).
Proof.
  intros [Hr Hrev]. unfold remove. rewrite Hrev, lookup_fmap.
  destruct (vals !! id) as [v|] eqn:Hv; simpl.
  - pose proof (drop_key_core s vals id v Hr Hv) as Hc. split; [by destruct Hc|].
    simpl. by rewrite drop_key_reverse, Hrev, fmap_delete.
  - rewrite delete_id by done. by split.
Qed.

Lemma update_rep s vals id v :
  sidx_rep s vals → value_ok v = true → sidx_rep (update s id v) (<[id := v]> vals).
Proof.
  intros [Hr Hrev] Hok. unfold update. rewrite Hrev, lookup_fmap.
  destruct (vals !! id) as [u|] eqn:Hu; simpl; [|by apply add_rep].
  rewrite <-(insert_delete_eq vals id v). split.
  - apply add_key_core; [by apply drop_key_core|by rewrite lookup_delete_eq|done].
  - simpl. rewrite drop_key_reverse, Hrev, fmap_insert, fmap_delete. by rewrite insert_delete_eq.
Qed.

(** *** Building the ordered view *)
Lemma f64_lt_asym x y : f64_lt x y = true → f64_lt y x = false.
Proof.
  intros H. destruct (is_nan x) eqn:Hx; [by destruct x|]. destruct (is_nan y) eqn:Hy; [by destruct y, x|].
  apply not_true_iff_false. rewrite f64_lt_key in H |- * by done. unfold key_lt in *.
  destruct (f64_key x) as [[? ?] ?], (f64_key y) as [[? ?] ?]. lia.
Qed.

Lemma Compare_antisym a b : Compare a b = (- Compare b a)%Z.
Proof.
  destruct (asNumber a) as [x|] eqn:Ha; [|apply Compare_antisym_text; by left].
  destruct (asNumber b) as [y|] eqn:Hb; [|apply Compare_antisym_text; by right].
  unfold Compare. rewrite Ha, Hb. destruct (f64_lt x y) eqn:E; [by rewrite (f64_lt_asym _ _ E)|].
  by destruct (f64_lt y x).
Qed.

#[global] Instance order_le_total : Total order_le.
Proof.
  intros a b. unfold order_le. destruct (orderLessKey b a) eqn:E; [|by left]. right.
  apply not_true_iff_false. rewrite orderLessKey_spec in *. pose proof (Compare_antisym a.2 b.2).
  intros [?|[? Hk]]; destruct E as [?|[? Hk']]; try lia.
  by eapply str_lt_irrefl, str_lt_trans.
Qed.

(** A list sorted for a relation that is transitive on its elements. *)
Lemma Sorted_StronglySorted_on {A} (D : A → Prop) (R : A → A → Prop) l :
  (∀ a b c, D a → D b → D c → R a b → R b c → R a c) → Forall D l → Sorted R l → StronglySorted R l.
Proof.
  intros Htr HD Hs. induction Hs as [|a l Hs IH Ha]; [constructor|].
  apply Forall_cons in HD as [Da Dl]. specialize (IH Dl). constructor; [done|].
  destruct Ha as [|b l Hab]; [constructor|]. apply Forall_cons in Dl as [Db Dl].
  constructor; [done|]. apply StronglySorted_inv in IH as [_ Hb].
  rewrite Forall_forall in Hb, Dl |- *. intros c Hc. apply (Htr a b c); auto.
Qed.

Lemma buildSorted_spec (buckets : gmap string (gset N)) kind :
  kind ≠ indexMixed → kind ≠ indexEmpty →
  (∀ key, is_Some (buckets !! key) → ordered_dom (kind_of kind) (key, valForKind kind key)) →
  strictly_sorted (buildSorted buckets kind) ∧
  ∀ key v, (key, v) ∈ buildSorted buckets kind ↔ is_Some (buckets !! key) ∧ v = valForKind kind key.
Proof.
  intros Hm He Hd. unfold buildSorted. rewrite !bool_decide_false by done. simpl.
  set (f := λ kv : string * gset N, (kv.1, valForKind kind kv.1)).
  assert (∀ key v, (key, v) ∈ merge_sort order_le (f <$> map_to_list buckets) ↔
    is_Some (buckets !! key) ∧ v = valForKind kind key) as Hin.
  { intros key v. rewrite merge_sort_Permutation, list_elem_of_fmap. unfold f. split.
    - intros ([k B] & [= -> ->] & HB%elem_of_map_to_list). eauto.
    - intros [[B HB] ->]. exists (key, B). split; [done|]. by apply elem_of_map_to_list. }
  split; [|done].
  assert (NoDup (merge_sort order_le (f <$> map_to_list buckets)).*1) as Hnd.
  { rewrite merge_sort_Permutation, <-list_fmap_compose. apply NoDup_fst_map_to_list. }
  assert (Forall (ordered_dom (kind_of kind)) (merge_sort order_le (f <$> map_to_list buckets))) as HD.
  { apply Forall_forall. intros [key v] [Hb ->]%Hin. by apply Hd. }
  pose proof (Sorted_merge_sort order_le (f <$> map_to_list buckets)) as Hs.
  revert Hnd HD Hs. generalize (merge_sort order_le (f <$> map_to_list buckets)). clear -kind. intros l Hnd HD Hs.
  apply (Sorted_StronglySorted_on (ordered_dom (kind_of kind))); [|done|].
  { intros a b c. apply orderLessKey_trans. }
  induction Hs as [|a l Hs IH Ha]; [constructor|]. apply Forall_cons in HD as [Da Dl].
  inversion Hnd as [|?? Hni Hnd']; subst. constructor; [by apply IH|]. destruct Ha as [|b l Hab]; constructor.
  apply Forall_cons in Dl as [Db _]. apply (orderLessKey_total (kind_of kind)); [done|done| |done].
  intros Heq. apply Hni. simpl. rewrite Heq. apply elem_of_cons. by left.
Qed.

(** *** Rebuilding from the segments *)
Definition live_docs (es : list Entry) : gmap N (option doc) := foldl latest_entry ∅ es.

(** The values of a field over the live records. *)
Definition field_values (field : string) (m : gmap N (option doc)) : gmap N any :=
  omap (λ d : option doc, d ≫= λ d, d !! field) m.

Section rebuild_fold.
Context (field : string).

Definition add_value (vals : gmap N any) (r : N * option doc) : gmap N any :=
  match r.2 ≫= λ d, d !! field with Some v => <[r.1 := v]> vals | None => vals end.

Lemma foldl_add_value l vals id :
  NoDup l.*1 →
  foldl add_value vals l !! id =
    match (list_to_map l : gmap N (option doc)) !! id ≫= (λ d, d ≫= λ d, d !! field) with
    | Some v => Some v
    | None => vals !! id
    end.
Proof.
  revert vals. induction l as [|[i d] l IH]; intros vals Hnd; simpl; [done|].
  inversion Hnd as [|?? Hi Hnd']; subst. rewrite IH by done.
  destruct (decide (i = id)) as [->|Hne].
  - rewrite lookup_insert_eq, (not_elem_of_list_to_map_1 l id) by done. simpl. unfold add_value. simpl.
    destruct (d ≫= λ d, d !! field); [by rewrite lookup_insert_eq|done].
  - rewrite lookup_insert_ne by done.
    assert (add_value vals (i, d) !! id = vals !! id) as ->; [|done].
    unfold add_value. simpl. destruct (d ≫= λ d, d !! field); [by rewrite lookup_insert_ne|done].
Qed.

Lemma foldl_add_value_map m : foldl add_value ∅ (map_to_list m) = field_values field m.
Proof.
  apply map_eq. intros id. rewrite foldl_add_value by apply NoDup_fst_map_to_list.
  rewrite list_to_map_to_list. unfold field_values. rewrite lookup_omap, lookup_empty.
  by destruct (m !! id ≫= _).
Qed.

Lemma rebuild_add_fold l s vals :
  sidx_rep s vals → NoDup l.*1 → (∀ id, id ∈ l.*1 → vals !! id = None) →
  (∀ id d v, (id, Some d) ∈ l → d !! field = Some v → value_ok v = true) →
  ∃ s', sidx_rep s' (foldl add_value vals l) ∧
    foldl (rebuild_add field) (x_buckets s, x_reverse s, x_kind s) l = (x_buckets s', x_reverse s', x_kind s').
Proof.
  revert s vals. induction l as [|[id d] l IH]; intros s vals Hr Hnd Hnew Hok; simpl; [eauto|].
  inversion Hnd as [|?? Hid Hnd']; subst.
  destruct (d ≫= λ d, d !! field) as [v|] eqn:Ev.
  - destruct d as [d|]; [|done]. simpl in Ev.
    destruct (IH (add s v id) (<[id := v]> vals)) as (s' & Hr' & Hf); [..|exists s'].
    + apply add_rep; [done|apply Hnew, elem_of_cons; by left|].
      eapply (Hok id d); [apply elem_of_cons; by left|done].
    + done.
    + intros i Hi. rewrite lookup_insert_ne by (intros ->; done). apply Hnew, elem_of_cons. by right.
    + intros i d' u Hi. apply (Hok i d'), elem_of_cons. by right.
    + unfold add_value at 2. simpl. rewrite Ev. split; [done|]. rewrite <-Hf. done.
  - destruct (IH s vals) as (s' & Hr' & Hf); [done|done|..|exists s'].
    + intros i Hi. apply Hnew, elem_of_cons. by right.
    + intros i d' u Hi. apply (Hok i d'), elem_of_cons. by right.
    + unfold add_value at 2. simpl. rewrite Ev. split; [done|]. rewrite <-Hf.
      f_equal. destruct d as [d|]; simpl in *; [by rewrite Ev|done].
Qed.
End rebuild_fold.

(** The result of a rebuild represents the values of the live records. *)
Lemma sorted_view_rep s vals sorted field unique :
  sidx_rep s vals → sorted = buildSorted (x_buckets s) (x_kind s) →
  sidx_rep (MkSidx field unique (x_buckets s) (x_reverse s) (x_kind s) sorted) vals.
Proof.
  intros [Hr Hrev] ->. split; [|done]. destruct Hr as [H1 H2 H3 H4 H5]. split; simpl; try done.
  intros Hm. destruct (decide (x_kind s = indexEmpty)) as [He|Hne].
  - unfold buildSorted. rewrite He. simpl. split; [constructor|]. intros key v.
    split; [by intros ?%not_elem_of_nil|]. intros [Hb _]. exfalso.
    by eapply (rep_empty_bucket s vals); [split|..].
  - apply buildSorted_spec; [done|done|]. intros key Hb.
    assert (rep_core s vals) as Hr by by split.
    destruct (rep_bucket_value _ _ _ Hr Hb) as (id & v & Hv & <-).
    rewrite <-(H4 Hm id v Hv). destruct (valForKind_ok v (H1 id v Hv)) as [-> Hd]. done.
Qed.

Lemma rebuild_latest_spec segs logs m w :
  no_faults w → Forall2 (λ s es, seg_rep s w es) segs logs →
  rebuild_latest m segs w = (Ok (foldl latest_entry m (concat logs).*2), w).
Proof.
  intros Hw H. revert m. induction H as [|s es segs logs Hs Hr IH]; intros m; [done|]. simpl.
  erewrite bind_ok by (by apply ScanAll_log). rewrite IH. simpl. by rewrite fmap_app, foldl_app.
Qed.

Lemma rebuild_spec s segs logs w :
  no_faults w → Forall2 (λ s es, seg_rep s w es) segs logs →
  (∀ id d v, live_docs (concat logs).*2 !! id = Some (Some d) → d !! x_field s = Some v → value_ok v = true) →
  ∃ s', rebuild s segs w = (Ok s', w) ∧ x_field s' = x_field s ∧ x_unique s' = x_unique s ∧
    sidx_rep s' (field_values (x_field s) (live_docs (concat logs).*2)).
Proof.
  intros Hw Hsegs Hok. unfold rebuild. erewrite bind_ok by (by apply rebuild_latest_spec).
  fold (live_docs (concat logs).*2).
  destruct (rebuild_add_fold (x_field s) (map_to_list (live_docs (concat logs).*2))
    (newSecondaryIndex (x_field s) (x_unique s)) ∅) as (s' & Hr & Hf).
  - apply newSecondaryIndex_rep.
  - apply NoDup_fst_map_to_list.
  - intros. apply lookup_empty.
  - intros id d v Hd%elem_of_map_to_list. by apply (Hok id).
  - simpl in Hf. rewrite Hf. eexists. split; [done|]. split_and!; [done|done|].
    rewrite foldl_add_value_map in Hr. by apply (sorted_view_rep s').
Qed.

(** ** Look-ups *)
Lemma Lookup_spec s vals key id :
  sidx_rep s vals → id ∈ Lookup s key ↔ toIndexKey <$> vals !! id = Some key.
Proof. intros [Hr _]. unfold Lookup. rewrite elem_of_elements. by apply rep_buckets. Qed.

Lemma conflict_spec s vals key id :
  sidx_rep s vals →
  conflict s key id = true ↔ ∃ other, other ≠ id ∧ toIndexKey <$> vals !! other = Some key.
Proof.
  intros Hr. unfold conflict. rewrite existsb_exists. split.
  - intros (x & Hx & Hne). rewrite <-list_elem_of_In in Hx. exists x. split; [by intros ->; rewrite N.eqb_refl in Hne|].
    by apply (Lookup_spec s vals).
  - intros (x & Hne & Hx). exists x. rewrite <-list_elem_of_In. split; [by apply (Lookup_spec s vals)|].
    by apply negb_true_iff, N.eqb_neq.
Qed.

(** A list cut where a predicate changes from false to true. *)
Lemma cut_spec {A} (P : A → bool) l r x :
  (∀ i a, i < r → l !! i = Some a → P a = false) → (∀ i a, r ≤ i → l !! i = Some a → P a = true) →
  (x ∈ drop r l ↔ x ∈ l ∧ P x = true) ∧ (x ∈ take r l ↔ x ∈ l ∧ P x = false).
Proof.
  intros H1 H2. assert (x ∈ take r l → P x = false) as Ht.
  { intros (i & Hi)%list_elem_of_lookup_1. apply lookup_take_Some in Hi as [Hi ?]. by eapply H1. }
  assert (x ∈ drop r l → P x = true) as Hd.
  { intros (i & Hi)%list_elem_of_lookup_1. rewrite lookup_drop in Hi. eapply H2; [|exact Hi]. lia. }
  assert (x ∈ l ↔ x ∈ take r l ∨ x ∈ drop r l) as Hl by (by rewrite <-elem_of_app, take_drop).
  rewrite Hl. split; split; intros H; try tauto.
  - destruct H as [[?|?] HP]; [|done]. by rewrite Ht in HP.
  - destruct H as [[?|?] HP]; [done|]. by rewrite Hd in HP.
Qed.

(** The two cut-off tests of a range query. *)
Definition cutoff (strict : bool) (c : Z) : bool := if strict then (0 <? c)%Z else (0 <=? c)%Z.

Definition range_search (l : list orderedKey) (qv : any) (strict : bool) : nat :=
  sort_Search (λ i, cutoff strict (Compare (sorted_at l i).2 qv)) (length l).

Lemma search_cutoff k l qv strict :
  strictly_sorted l → Forall (ordered_dom k) l → has_kind k qv = true →
  let r := range_search l qv strict in
  r ≤ length l ∧ (∀ i a, i < r → l !! i = Some a → cutoff strict (Compare a.2 qv) = false) ∧
  (∀ i a, r ≤ i → l !! i = Some a → cutoff strict (Compare a.2 qv) = true).
Proof.
  intros Hs Hl Hq r. subst r. unfold range_search.
  destruct (sort_Search_spec (λ i, cutoff strict (Compare (sorted_at l i).2 qv)) (length l)) as (H1 & H2 & H3).
  { intros a b Hab Hb. destruct (lookup_lt_is_Some_2 l b) as [y Hy]; [done|].
    destruct (lookup_lt_is_Some_2 l a) as [x Hx]; [lia|].
    rewrite (sorted_at_lookup _ _ _ Hx), (sorted_at_lookup _ _ _ Hy).
    destruct (decide (a = b)) as [->|]; [naive_solver|].
    assert (orderLessKey x y = true) as Hxy by (apply (StronglySorted_lookup _ l a b x y Hs); [lia|done|done]).
    assert (Compare x.2 y.2 ≤ 0)%Z as Hle by (apply orderLessKey_spec in Hxy as [?|[? _]]; lia).
    assert (has_kind k x.2 = true) as Hkx by (by eapply (Forall_lookup_1 (ordered_dom k))).
    assert (has_kind k y.2 = true) as Hky by (by eapply (Forall_lookup_1 (ordered_dom k))).
    pose proof (Compare_trans_le k x.2 y.2 qv Hkx Hky Hq Hle) as Ht1.
    pose proof (λ H, Compare_trans_le k qv x.2 y.2 Hq Hkx Hky H Hle) as Ht2.
    pose proof (Compare_antisym x.2 qv). pose proof (Compare_antisym y.2 qv).
    destruct strict; simpl; rewrite ?Z.ltb_lt, ?Z.leb_le; intros Hc.
    - destruct (Z.lt_ge_cases 0 (Compare y.2 qv)) as [?|Hge]; [done|]. specialize (Ht1 Hge). lia.
    - assert (Compare qv x.2 ≤ 0)%Z as Hqx by lia. specialize (Ht2 Hqx). lia. }
  split; [done|]. split.
  - intros i a Hi Ha. specialize (H2 i Hi). by rewrite (sorted_at_lookup _ _ _ Ha) in H2.
  - intros i a Hi Ha. specialize (H3 i Hi ltac:(by apply lookup_lt_Some in Ha)).
    by rewrite (sorted_at_lookup _ _ _ Ha) in H3.
Qed.

(** The range operators as tests of the comparison. *)
Definition range_op (op : Op) (c : Z) : option bool :=
  match op with
  | OpGt => Some (0 <? c)%Z
  | OpGte => Some (0 <=? c)%Z
  | OpLt => Some (c <? 0)%Z
  | OpLte => Some (c <=? 0)%Z
  | _ => None
  end.

Definition not_int (v : any) : bool := match v with VInt _ => false | _ => true end.

Lemma valKind_string v :
  (valKind v).1 = indexString → sprint (valKind v).2 = sprint v ∧ asNumber (valKind v).2 = None.
Proof.
  assert (∀ s, sprint (VStr s) = s) as Hs by (intros s; apply of_to_bytes).
  destruct v; try done; intros _; (split; [apply Hs|done]).
Qed.

Lemma Compare_valKind v q :
  (valKind v).1 = (valKind q).1 → not_int q = true →
  Compare (valKind v).2 (valKind q).2 = Compare v q.
Proof.
  intros Hk Hq. destruct (valKind v).1 eqn:Ev; [by apply valKind_not_empty in Ev|..|by apply valKind_not_empty in Ev].
  - by destruct v, q.
  - symmetry in Hk. destruct (valKind_string v Ev) as [Hv1 Hv2]. destruct (valKind_string q Hk) as [Hq1 Hq2].
    assert (asNumber q = None) as Hqn by (by destruct q). unfold Compare. rewrite Hv2, Hqn, Hv1, Hq1.
    by destruct (asNumber v).
Qed.

Lemma valKind_dom q : value_ok q = true → has_kind (kind_of (valKind q).1) (valKind q).2 = true.
Proof. intros H. by apply valForKind_ok. Qed.

Lemma strictly_sorted_NoDup k l : strictly_sorted l → Forall (ordered_dom k) l → NoDup l.
Proof.
  intros Hs Hd. induction Hs as [|a l Hs IH Ha]; constructor; [|by apply Forall_cons in Hd as [_ ?]; apply IH].
  intros Hin. rewrite Forall_forall in Ha. specialize (Ha a Hin). apply Forall_cons in Hd as [Da _].
  by rewrite (orderLessKey_irrefl k) in Ha.
Qed.

(** The bounds [LookupRange] finds by binary search. *)
Definition range_bounds (l : list orderedKey) (op : Op) (qv : any) : option (nat * nat) :=
  match op with
  | OpGt => Some (range_search l qv true, length l)
  | OpGte => Some (range_search l qv false, length l)
  | OpLt => Some (0, range_search l qv false)
  | OpLte => Some (0, range_search l qv true)
  | _ => None
  end.

Lemma range_bounds_spec k l op qv lo hi e :
  strictly_sorted l → Forall (ordered_dom k) l → has_kind k qv = true →
  range_bounds l op qv = Some (lo, hi) →
  e ∈ take (hi - lo) (drop lo l) ↔ e ∈ l ∧ range_op op (Compare e.2 qv) = Some true.
Proof.
  intros Hs Hd Hq Hb.
  pose proof (λ strict, search_cutoff k l qv strict Hs Hd Hq) as Hcut.
  set (r := range_search l qv) in *.
  assert (∀ strict, (e ∈ drop (r strict) l ↔ e ∈ l ∧ cutoff strict (Compare e.2 qv) = true) ∧
    (e ∈ take (r strict) l ↔ e ∈ l ∧ cutoff strict (Compare e.2 qv) = false)) as Hr.
  { intros strict. destruct (Hcut strict) as (_ & H1 & H2).
    by apply (cut_spec (λ e : orderedKey, cutoff strict (Compare e.2 qv))). }
  assert (∀ strict, take (length l - r strict) (drop (r strict) l) = drop (r strict) l) as Htake
    by (intros; apply take_ge; rewrite length_drop; lia).
  destruct (Hr true) as [T1 T2]. destruct (Hr false) as [F1 F2]. simpl cutoff in *.
  unfold range_bounds in Hb. fold r in Hb. destruct op; try done; injection Hb as <- <-; simpl range_op;
    rewrite ?Nat.sub_0_r, ?drop_0, ?(inj_iff Some).
  - rewrite (Htake true). apply T1.
  - rewrite (Htake false). apply F1.
  - rewrite F2, Z.leb_gt, Z.ltb_lt. done.
  - rewrite T2, Z.ltb_ge, Z.leb_le. done.
Qed.

Lemma LookupRange_bounds s op q ids :
  LookupRange s op q = Some ids → x_kind s ≠ indexEmpty →
  x_kind s ≠ indexMixed ∧ (valKind q).1 = x_kind s ∧
  ∃ lo hi, range_bounds (x_sorted s) op (valKind q).2 = Some (lo, hi) ∧
    ids = concat (map (λ e : orderedKey, elements (default ∅ (x_buckets s !! e.1)))
            (take (hi - lo) (drop lo (x_sorted s)))).
Proof.
  unfold LookupRange. intros Hids He. assert (x_kind s ≠ indexMixed) as Hm by (intros E; by rewrite E in Hids).
  destruct (valKind q) as [qk qv]. destruct (decide (qk = x_kind s)) as [->|Hk].
  - split; [done|]. split; [done|]. rewrite bool_decide_false in Hids by (by intros []).
    destruct (x_kind s); try done; (destruct op; try done; (eexists _, _; split; [done|]; by injection Hids as <-)).
  - rewrite bool_decide_true in Hids by done. by destruct (x_kind s).
Qed.

Lemma NoDup_concat_map {A} (f : A → list N) l :
  NoDup l → (∀ x, NoDup (f x)) → (∀ x y n, x ∈ l → y ∈ l → n ∈ f x → n ∈ f y → x = y) →
  NoDup (concat (map f l)).
Proof.
  intros Hnd Hf Hdis. induction Hnd as [|x l Hx Hnd IH]; simpl; [constructor|].
  apply NoDup_app. split_and!; [apply Hf| |].
  - intros n Hn (ys & Hn' & Hys)%list_elem_of_In%in_concat.
    apply in_map_iff in Hn' as (y & <- & Hy%list_elem_of_In). apply list_elem_of_In in Hys.
    apply Hx. rewrite (Hdis x y n); [done|..]; try done; apply elem_of_cons; auto.
  - apply IH. intros a b n Ha Hb. apply Hdis; apply elem_of_cons; auto.
Qed.

(** ** Properties *)

(** Maintenance: the index keeps representing the field's values under every
    operation: adding an id that is not indexed, moving an id to a new value, and
    removing an id; in particular buckets, reverse map and ordered view never get
    out of step. *)
Theorem sidx_operations (s : SecondaryIndex) (vals : gmap N any) (id : N) (v : any) :
  sidx_rep s vals → value_ok v = true →
  (vals !! id = None → sidx_rep (add s v id) (<[id := v]> vals)) ∧
  sidx_rep (update s id v) (<[id := v]> vals) ∧
  sidx_rep (remove s id) (delete id vals).
Proof. intros Hr Hv. split_and!; auto using add_rep, update_rep, remove_rep. Qed.

Lemma sidx_operations_witness :
  sidx_rep (update (newSecondaryIndex "age" false) 1 (VFloat (f64_of_Z 30))) (<[1%N := VFloat (f64_of_Z 30)]> ∅).
Proof.
  apply (sidx_operations (newSecondaryIndex "age" false) ∅ 1 (VFloat (f64_of_Z 30))).
  - apply newSecondaryIndex_rep.
  - vm_compute. reflexivity.
Defined.

(** Uniqueness test: a conflict for a value and an id is reported exactly when
    a different live record carries the value's key. *)
Theorem conflict_exact (s : SecondaryIndex) (vals : gmap N any) (v : any) (id : N) :
  sidx_rep s vals →
  conflict s (toIndexKey v) id = true ↔
  ∃ other u, other ≠ id ∧ vals !! other = Some u ∧ toIndexKey u = toIndexKey v.
Proof.
  intros Hr. rewrite (conflict_spec s vals) by done. setoid_rewrite fmap_Some. naive_solver.
Qed.

Definition two_values : SecondaryIndex := add (newSecondaryIndex "email" true) (VStr "a@x") 1.

Lemma two_values_rep : sidx_rep two_values (<[1%N := VStr "a@x"]> ∅).
Proof. apply add_rep; [apply newSecondaryIndex_rep|done|done]. Qed.

Lemma conflict_exact_witness :
  conflict two_values (toIndexKey (VStr "a@x")) 2 = true ↔
  ∃ other u, other ≠ 2%N ∧ (<[1%N := VStr "a@x"]> ∅ : gmap N any) !! other = Some u ∧
    toIndexKey u = toIndexKey (VStr "a@x").
Proof. apply (conflict_exact two_values (<[1%N := VStr "a@x"]> ∅) (VStr "a@x") 2). apply two_values_rep. Defined.

Lemma range_op_match `{!Regexp} l op qv b v q :
  range_bounds l op qv = Some b → match_op op v q = true ↔ range_op op (Compare v q) = Some true.
Proof. destruct op; try done; intros _; simpl; by rewrite (inj_iff Some). Qed.

Section range.
Context `{!Regexp}.

(** Range queries by index: when the index serves a range predicate it returns
    every id whose value the filter accepts, no other id, and none twice. *)
Theorem LookupRange_exact (s : SecondaryIndex) (vals : gmap N any) (op : Op) (q : any) (ids : list N) :
  sidx_rep s vals → value_ok q = true → not_int q = true → LookupRange s op q = Some ids →
  NoDup ids ∧
  (∀ id, id ∈ ids ↔ ∃ v, vals !! id = Some v ∧ match_op op v q = true).
Proof.
  intros [Hr Hrev] Hq Hint Hids. destruct (decide (x_kind s = indexEmpty)) as [He|Hne].
  { unfold LookupRange in Hids. rewrite He in Hids. injection Hids as <-. split; [constructor|].
    intros id. rewrite (rep_empty_kind _ _ Hr He). setoid_rewrite lookup_empty.
    split; [by intros ?%not_elem_of_nil|naive_solver]. }
  destruct (LookupRange_bounds _ _ _ _ Hids Hne) as (Hm & Hk & lo & hi & Hb & ->).
  destruct (rep_sorted _ _ Hr Hm) as [Hs Hin]. pose proof (rep_sorted_dom _ _ Hr Hm) as Hd.
  pose proof (valKind_dom q Hq) as Hqd. rewrite Hk in Hqd.
  pose proof (λ e, range_bounds_spec _ _ _ _ _ _ e Hs Hd Hqd Hb) as Hl.
  set (l := take (hi - lo) (drop lo (x_sorted s))) in *. split.
  - apply NoDup_concat_map; [|intros; apply NoDup_elements|].
    + apply (sublist_NoDup _ (x_sorted s)); [by eapply strictly_sorted_NoDup|].
      etrans; [apply sublist_take|apply sublist_drop].
    + intros [k1 v1] [k2 v2] n [[_ ->]%Hin _]%Hl [[_ ->]%Hin _]%Hl H1 H2. simpl in *.
      rewrite elem_of_elements, (rep_buckets _ _ Hr) in H1, H2. congruence.
  - intros id. setoid_rewrite (range_op_match _ _ _ _ _ _ Hb).
    rewrite list_elem_of_In, in_concat. setoid_rewrite in_map_iff.
    setoid_rewrite <-list_elem_of_In. split.
    + intros (ys & ([key v] & <- & [[_ ->]%Hin Hop]%Hl) & Hid). simpl in *.
      rewrite elem_of_elements, (rep_buckets _ _ Hr) in Hid. apply fmap_Some in Hid as (u & Hu & ->).
      exists u. split; [done|]. pose proof (rep_kind _ _ Hr Hm id u Hu) as Hku.
      rewrite <-Hku, (proj1 (valForKind_ok u (rep_values _ _ Hr id u Hu))), Compare_valKind in Hop;
        [done|congruence|done].
    + intros (u & Hu & Hop). pose proof (rep_kind _ _ Hr Hm id u Hu) as Hku.
      assert (id ∈ default ∅ (x_buckets s !! toIndexKey u)) as Hb'
        by (apply (rep_buckets _ _ Hr); by rewrite Hu).
      exists (elements (default ∅ (x_buckets s !! toIndexKey u))). split; [|by apply elem_of_elements].
      exists (toIndexKey u, (valKind u).2). split; [done|]. apply Hl. split.
      * apply Hin. rewrite <-Hku, (proj1 (valForKind_ok u (rep_values _ _ Hr id u Hu))). split; [|done].
        destruct (x_buckets s !! toIndexKey u); [eauto|]. simpl in Hb'. set_solver.
      * simpl. by rewrite Compare_valKind by (congruence || done).
Qed.
End range.

(** A pattern language with no patterns. *)
Definition no_regexp : Regexp := λ _ _, None.

Definition ages : SecondaryIndex :=
  add (add (newSecondaryIndex "age" false) (VFloat (f64_of_Z 30)) 1) (VFloat (f64_of_Z 7)) 2.
Definition age_values : gmap N any :=
  <[2%N := VFloat (f64_of_Z 7)]> (<[1%N := VFloat (f64_of_Z 30)]> ∅).

Lemma ages_rep : sidx_rep ages age_values.
Proof.
  apply add_rep; [apply add_rep; [apply newSecondaryIndex_rep|done|]|done|]; vm_compute; reflexivity.
Qed.

Lemma LookupRange_exact_witness :
  NoDup [1%N] ∧ (∀ id, id ∈ [1%N] ↔ ∃ v, age_values !! id = Some v ∧
    @match_op no_regexp OpGt v (VFloat (f64_of_Z 7)) = true).
Proof.
  apply (@LookupRange_exact no_regexp ages age_values OpGt (VFloat (f64_of_Z 7)) [1%N]).
  - apply ages_rep.
  - vm_compute. reflexivity.
  - reflexivity.
  - vm_compute. reflexivity.
Defined.

(** ** Equality by index *)

(** Neither an integer nor a negative zero. *)
Definition plain (v : any) : bool :=
  match v with
  | VInt _ => false
  | VFloat (SpecFloat.S754_zero true) => false
  | _ => true
  end.

Lemma f64_eq_same x y :
  f64_eq x y = true → plain (VFloat x) = true → plain (VFloat y) = true → x = y.
Proof.
  unfold f64_eq, SpecFloat.SFeqb.
  destruct x as [[]|[]| |[] m e], y as [[]|[]| |[] m' e']; try done; simpl; intros H _ _.
  - change (Pos.compare_cont Eq m m') with (m ?= m')%positive in H.
    destruct (Z.compare_spec e e') as [->|?|?]; try done.
    by destruct (Pos.compare_spec m m') as [->|?|?].
  - change (Pos.compare_cont Eq m m') with (m ?= m')%positive in H.
    destruct (Z.compare_spec e e') as [->|?|?]; try done.
    by destruct (Pos.compare_spec m m') as [->|?|?].
Qed.

Lemma f64_eq_refl x : is_nan x = false → f64_eq x x = true.
Proof.
  unfold f64_eq, SpecFloat.SFeqb. destruct x as [[]|[]| |[] m e]; try done; simpl; intros _;
    rewrite Z.compare_refl; change (Pos.compare_cont Eq m m) with (m ?= m)%positive; by rewrite Pos.compare_refl.
Qed.

(** On such values equal keys are equal values. *)
Lemma toIndexKey_equal v q :
  value_ok v = true → value_ok q = true → plain v = true → plain q = true →
  toIndexKey v = toIndexKey q ↔ equal v q = true.
Proof.
  intros Hv Hq Pv Pq. unfold toIndexKey, equal.
  destruct (asNumber v) as [x|] eqn:Ev; [|by rewrite bool_decide_eq_true].
  destruct (asNumber q) as [y|] eqn:Eq; [|by rewrite bool_decide_eq_true].
  destruct v; try done. destruct q; try done. simpl in Ev, Eq. simplify_eq. simpl in Hv, Hq. bools.
  split.
  - intros Hk. rewrite Hk in *. assert (x = y) as -> by congruence. by apply f64_eq_refl.
  - intros He. by rewrite (f64_eq_same x y).
Qed.

Section equality.
Context `{!Regexp}.

(** Equality queries by index: over values that are not integers of the
    embedding program and not negative zeros, the bucket of a filter value is
    exactly the set of ids whose value the equality filter accepts. *)
Theorem Lookup_eq_exact (s : SecondaryIndex) (vals : gmap N any) (value : string) :
  sidx_rep s vals → (∀ id v, vals !! id = Some v → plain v = true) →
  value_ok (filter_value value) = true → plain (filter_value value) = true →
  ∀ id, id ∈ Lookup s (filterValueToIndexKey value) ↔
    ∃ v, vals !! id = Some v ∧ match_op OpEq v (filter_value value) = true.
Proof.
  intros Hr Hp Hq Pq id. rewrite (Lookup_spec s vals) by done.
  assert (filterValueToIndexKey value = toIndexKey (filter_value value)) as ->.
  { unfold filterValueToIndexKey, filter_value, toIndexKey. destruct (unmarshal_any _); [done|].
    symmetry. apply of_to_bytes. }
  rewrite fmap_Some. split.
  - intros (v & Hv & Hk). exists v. split; [done|]. simpl.
    apply toIndexKey_equal; eauto. by eapply rep_values; [apply Hr|].
  - intros (v & Hv & Hm). exists v. split; [done|]. symmetry. simpl in Hm.
    apply toIndexKey_equal; eauto. by eapply rep_values; [apply Hr|].
Qed.
End equality.

Lemma Lookup_eq_exact_witness :
  1%N ∈ Lookup ages (filterValueToIndexKey "30") ↔
    ∃ v, age_values !! 1%N = Some v ∧ @match_op no_regexp OpEq v (filter_value "30") = true.
Proof.
  apply (@Lookup_eq_exact no_regexp ages age_values "30").
  - apply ages_rep.
  - intros id v. unfold age_values. rewrite !lookup_insert_Some, lookup_empty.
    intros [[_ <-]|[_ [[_ <-]|[_ [=]]]]]; reflexivity.
  - vm_compute. reflexivity.
  - vm_compute. reflexivity.
Defined.

(** Where the index and the filter disagree: a record whose field is the
    integer 1000000 (as an embedding program stores it) or the number -0 matches
    the filters [eq 1000000] and [eq 0], and the index returns no id for them. *)
Theorem eq_index_misses :
  Lookup (add (newSecondaryIndex "n" false) (VInt 1000000) 1) (filterValueToIndexKey "1000000") = [] ∧
  @match_op no_regexp OpEq (VInt 1000000) (filter_value "1000000") = true ∧
  Lookup (add (newSecondaryIndex "n" false) (filter_value "-0") 1) (filterValueToIndexKey "0") = [] ∧
  @match_op no_regexp OpEq (filter_value "-0") (filter_value "0") = true.
Proof. vm_compute. split_and!; reflexivity. Qed.

(** ** Persist and Load *)
Record wf_sidx (s : SecondaryIndex) : Prop := {
  wfx_field : wf_string (x_field s) = true;
  wfx_keys : map_Forall (λ key ids, wf_string key = true ∧ ∀ id, id ∈ (ids : gset N) → (id < 2 ^ 64)%N) (x_buckets s)
}.

Lemma ids_roundtrip ids :
  (∀ id, id ∈ ids → (id < 2 ^ 64)%N) → set_ids (ids_json (Some ids)) = Ok (Some ids).
Proof.
  intros H. simpl. assert (mapR (as_uint 64 0) (j_uint <$> ids) = Ok ids) as ->; [|done].
  apply mapR_Forall2, Forall2_fmap_l. apply Forall_Forall2_diag, Forall_forall.
  intros id Hid. simpl. apply parse_uint_json. by apply H.
Qed.

Lemma buckets_roundtrip b :
  map_Forall (λ key (ids : option (list N)), wf_string key = true ∧
    ∃ l, ids = Some l ∧ ∀ id, id ∈ l → (id < 2 ^ 64)%N) b →
  wf_json (buckets_json (Some b)) ∧ ∃ l kvs, buckets_json (Some b) = JObj l ∧
    mapR set_bucket l = Ok kvs ∧ assign_all kvs ∅ = b.
Proof.
  intros Hb. assert (Forall (λ kv, wf_string kv.1 = true ∧ ∃ l, kv.2 = Some l ∧ ∀ id, id ∈ l → (id < 2 ^ 64)%N)
    (sorted_pairs b)) as Hl.
  { apply Forall_forall. intros [k ids] Hin%elem_of_sorted_pairs. by apply (Hb k ids). }
  split.
  - apply wf_json_obj, Forall_fmap. eapply Forall_impl; [exact Hl|]. intros [k ids] (Hk & l & Heq & Hids).
    simpl in Heq. subst ids. split; [done|]. simpl. clear. induction l as [|n l IH]; simpl; [done|]. split; [apply wf_j_uint|done].
  - eexists _, _. split; [reflexivity|]. split; [|apply assign_all_sorted_pairs].
    apply mapR_Forall2, Forall2_fmap_l, Forall_Forall2_diag. eapply Forall_impl; [exact Hl|].
    intros [k ids] (Hk & l & Heq & Hids). simpl in Heq. subst ids. unfold set_bucket, compose.
    cbn [fst snd]. by rewrite (ids_roundtrip l Hids).
Qed.

Lemma foldl_reverse (ids : list N) (k : string) (rev : gmap N string) id :
  foldl (λ rev id, <[id := k]> rev) rev ids !! id = if decide (id ∈ ids) then Some k else rev !! id.
Proof.
  revert rev. induction ids as [|i ids IH]; intros rev.
  { by rewrite decide_False by apply not_elem_of_nil. }
  simpl foldl. rewrite IH. destruct (decide (id ∈ ids)) as [Hin|Hni].
  - rewrite decide_True by (by apply elem_of_cons; right). done.
  - destruct (decide (id = i)) as [->|Hne].
    + rewrite lookup_insert_eq, decide_True by (by apply elem_of_cons; left). done.
    + rewrite lookup_insert_ne, decide_False by (rewrite ?elem_of_cons; naive_solver). done.
Qed.

Lemma file_reverse_fold (l : list (string * option (list N))) (R rev : gmap N string) :
  (∀ k ids id, (k, ids) ∈ l → id ∈ default [] ids → R !! id = Some k) →
  ∀ id, let r := foldl (λ rev kv, foldl (λ rev id, <[id := kv.1]> rev) rev (default [] kv.2)) rev l in
    (r !! id = rev !! id ∨ r !! id = R !! id) ∧
    (∀ k ids, (k, ids) ∈ l → id ∈ default [] ids → r !! id = R !! id).
Proof.
  revert rev. induction l as [|[k0 ids0] l IH]; intros rev HR id; simpl.
  { split; [by left|]. by intros k ids ?%not_elem_of_nil. }
  destruct (IH (foldl (λ rev id, <[id := k0]> rev) rev (default [] ids0))) with (id := id) as [H1 H2].
  { intros k ids i Hin. apply (HR k ids i), elem_of_cons. by right. }
  rewrite foldl_reverse in H1. destruct (decide (id ∈ default [] ids0)) as [Hin|Hni].
  - assert (R !! id = Some k0) as HRid by (apply (HR k0 ids0 id); [apply elem_of_cons; by left|done]).
    assert (∀ x, x = Some k0 ∨ x = R !! id → x = R !! id) as Hx by (intros x [->|?]; congruence).
    split; [right; by apply Hx|]. intros k ids _ _. by apply Hx.
  - split; [done|]. intros k ids [[= -> ->]|Hin]%elem_of_cons Hid; [done|]. by eapply H2.
Qed.

Lemma snapshot_rep s vals :
  sidx_rep s vals →
  file_buckets (Some (snapshot_buckets s)) = x_buckets s ∧
  file_reverse (Some (snapshot_buckets s)) = x_reverse s.
Proof.
  intros [Hr Hrev]. split.
  - apply map_eq. intros key. unfold file_buckets, snapshot_buckets. simpl. rewrite !lookup_fmap.
    destruct (x_buckets s !! key); simpl; [|done]. f_equal. apply list_to_set_elements_L.
  - apply map_eq. intros id. unfold file_reverse. simpl default.
    destruct (file_reverse_fold (map_to_list (snapshot_buckets s)) (x_reverse s) ∅) with (id := id) as [H1 H2].
    { intros k ids i Hin%elem_of_map_to_list Hid. unfold snapshot_buckets in Hin. rewrite lookup_fmap in Hin.
      destruct (x_buckets s !! k) as [B|] eqn:HB; [|done]. simpl in Hin. simplify_eq. simpl in Hid.
      rewrite elem_of_elements in Hid. rewrite Hrev, lookup_fmap. apply (rep_buckets _ _ Hr). by rewrite HB. }
    destruct (x_reverse s !! id) as [key|] eqn:Hkey.
    + rewrite Hrev, lookup_fmap in Hkey. apply (rep_buckets _ _ Hr) in Hkey.
      destruct (x_buckets s !! key) as [B|] eqn:HB; simpl in Hkey; [|set_solver].
      apply (H2 key (Some (elements B))); [|by apply elem_of_elements].
      apply elem_of_map_to_list. unfold snapshot_buckets. by rewrite lookup_fmap, HB.
    + destruct H1 as [H1|H1]; rewrite H1; [apply lookup_empty|done].
Qed.

Lemma parse_kind_String k : parseIndexKind (kind_String k) = k.
Proof. by destruct k. Qed.

Ltac sidx_field_step :=
  unfold set_sidx_field; cbv beta iota zeta;
  repeat match goal with
  | |- context [field_name ?k] => let v := eval vm_compute in (field_name k) in change (field_name k) with v
  end;
  repeat first [rewrite (bool_decide_true (_ = _)) by done | rewrite (bool_decide_false (_ = _)) by done];
  cbv iota.

Section sidx_fields.
Context (f : string) (u : bool) (k : string) (b : option (gmap string (option (list N)))) (c : string).
Let x := MkSidxFile f u k b c.

Lemma set_sidx_name s : set_sidx_field x ("field", JStr s) = Ok (MkSidxFile s u k b c).
Proof. subst x. by sidx_field_step. Qed.
Lemma set_sidx_unique v : set_sidx_field x ("unique", JBool v) = Ok (MkSidxFile f v k b c).
Proof. subst x. by sidx_field_step. Qed.
Lemma set_sidx_kind s : set_sidx_field x ("kind", JStr s) = Ok (MkSidxFile f u s b c).
Proof. subst x. by sidx_field_step. Qed.
Lemma set_sidx_checksum s : set_sidx_field x ("checksum", JStr s) = Ok (MkSidxFile f u k b s).
Proof. subst x. by sidx_field_step. Qed.
Lemma set_sidx_buckets l kvs : mapR set_bucket l = Ok kvs →
  set_sidx_field x ("buckets", JObj l) = Ok (MkSidxFile f u k (Some (assign_all kvs (default ∅ b))) c).
Proof. intros H. subst x. sidx_field_step. by rewrite H. Qed.
End sidx_fields.

Lemma set_sidx_fields_app x l1 l2 :
  set_sidx_fields x (l1 ++ l2) = (x ← set_sidx_fields x l1; set_sidx_fields x l2).
Proof.
  revert x. induction l1 as [|kv l1 IH]; intros x; simpl; [done|].
  destruct (set_sidx_field x kv); simpl; [apply IH|done].
Qed.

Lemma set_sidx_omit x empty name j :
  set_sidx_fields x (omit empty name j) = if empty then Ok x else set_sidx_field x (name, j).
Proof. destruct empty; cbn [omit set_sidx_fields]; [done|]. by destruct (set_sidx_field x (name, j)). Qed.

Section load_persist.
Context {sha : Sha256}.

Lemma sidx_file_roundtrip s :
  wf_sidx s →
  ∃ j, parse_json (sidx_file s) = Some j ∧
    sidx_file_of_json j = Ok (MkSidxFile (x_field s) (x_unique s) (kind_String (x_kind s))
      (Some (snapshot_buckets s)) (sidx_checksum (Some (snapshot_buckets s)))).
Proof.
  intros [Hf Hk]. destruct (buckets_roundtrip (snapshot_buckets s)) as (Hwf & l & kvs & Hl & Hm & Ha).
  { intros key ids Hids. unfold snapshot_buckets in Hids. rewrite lookup_fmap in Hids.
    destruct (x_buckets s !! key) as [B|] eqn:HB; [|done]. simpl in Hids. simplify_eq.
    destruct (Hk key B HB) as [H1 H2]. split; [done|]. eexists; split; [done|].
    intros id Hid. apply H2. by apply elem_of_elements. }
  unfold sidx_file. eexists. split.
  { apply parse_print_json, wf_json_obj. repeat apply Forall_app_2; try (apply wf_omit; [done|]); try done.
    - repeat apply Forall_cons_2; [..|apply Forall_nil_2]. by split.
    - by destruct (x_kind s).
    - repeat apply Forall_cons_2; [..|apply Forall_nil_2]; (split; [done|]); [done|apply wf_string_hex]. }
  rewrite Hl. cbn [sidx_file_of_json app set_sidx_fields]. rewrite set_sidx_name. cbn [mbind result_bind].
  rewrite set_sidx_fields_app, set_sidx_omit.
  assert ((if negb (x_unique s) then Ok (MkSidxFile (x_field s) false "" None "")
    else set_sidx_field (MkSidxFile (x_field s) false "" None "") ("unique", JBool (x_unique s))) =
    Ok (MkSidxFile (x_field s) (x_unique s) "" None "")) as ->.
  { destruct (x_unique s); simpl negb; cbv iota; [by rewrite set_sidx_unique|done]. }
  cbn [mbind result_bind]. rewrite set_sidx_fields_app, set_sidx_omit.
  assert ((if bool_decide (kind_String (x_kind s) = "") then Ok (MkSidxFile (x_field s) (x_unique s) "" None "")
    else set_sidx_field (MkSidxFile (x_field s) (x_unique s) "" None "") ("kind", JStr (kind_String (x_kind s)))) =
    Ok (MkSidxFile (x_field s) (x_unique s) (kind_String (x_kind s)) None "")) as ->.
  { case_bool_decide as Hkd; [by rewrite Hkd|]. by rewrite set_sidx_kind. }
  cbn [mbind result_bind set_sidx_fields]. rewrite (set_sidx_buckets _ _ _ _ _ _ _ Hm).
  cbn [mbind result_bind set_sidx_fields default]. rewrite Ha, set_sidx_checksum. done.
Qed.

(** Round trip of a secondary index: after [Persist], [Load] into an index of
    any state accepts the checksum and restores an index that represents the
    same values, with the same uniqueness flag and kind. *)
Theorem sidx_Load_Persist (s s0 : SecondaryIndex) (vals : gmap N any) (path : string) (w : World) :
  no_faults w → wf_sidx s → sidx_rep s vals →
  ∃ w' s', Persist s path w = (Ok tt, w') ∧ Load path (s0, w') = (Ok tt, (s', w')) ∧
    sidx_rep s' vals ∧ x_unique s' = x_unique s ∧ x_kind s' = x_kind s ∧ x_buckets s' = x_buckets s.
Proof.
  intros Hw Hwf Hr. destruct (writeFileAtomic_nofault path (sidx_file s) w Hw) as (fs & H1 & H2 & _).
  destruct (sidx_file_roundtrip s Hwf) as (j & Hj & Hf). destruct (snapshot_rep s vals Hr) as [Hb Hv].
  exists (set_files fs w). unfold Persist. rewrite H1.
  unfold Load. erewrite bind_ok by (apply io_ok, read_file_nofault; [done|exact H2]).
  rewrite Hj, Hf. erewrite bind_ok by reflexivity. erewrite bind_ok by reflexivity.
  erewrite bind_ok by reflexivity. cbn [f_Buckets f_Checksum f_Unique f_Kind fst snd].
  rewrite bool_decide_true by done. rewrite Hb, Hv, parse_kind_String.
  assert ((bool_decide (x_kind s = indexEmpty) && bool_decide (x_buckets s ≠ ∅))%bool = false) as ->.
  { case_bool_decide as He; [|done]. simpl. apply bool_decide_eq_false. intros Hne. apply Hne.
    apply map_empty. intros key. apply eq_None_not_Some. eapply rep_empty_bucket; [apply Hr|done]. }
  eexists. split_and!; [done|reflexivity|by eapply sorted_view_rep|done..].
Qed.
End load_persist.

Lemma sidx_Load_Persist_witness :
  ∃ w' s', @Persist length_digest ages "sidx_age.json" fresh_world = (Ok tt, w') ∧
    @Load length_digest "sidx_age.json" (newSecondaryIndex "age" false, w') = (Ok tt, (s', w')) ∧
    sidx_rep s' age_values ∧ x_unique s' = x_unique ages ∧ x_kind s' = x_kind ages ∧ x_buckets s' = x_buckets ages.
Proof.
  apply (@sidx_Load_Persist length_digest ages (newSecondaryIndex "age" false) age_values "sidx_age.json" fresh_world).
  - reflexivity.
  - split; [reflexivity|].
    apply (bool_decide_unpack (map_Forall (λ key ids, wf_string key = true ∧ set_Forall (λ id, (id < 2 ^ 64)%N) (ids : gset N)) (x_buckets ages))).
    vm_compute. exact I.
  - apply ages_rep.
Defined.

(** Rebuilding a secondary index from segments that hold the logs [logs] yields
    an index, with the flag it had, that represents the field's values in the
    latest version of every record that is not deleted. *)
Theorem sidx_rebuild (s : SecondaryIndex) (segs : list Segment) (logs : list (list (Z * Entry))) (w : World) :
  no_faults w → Forall2 (λ s es, seg_rep s w es) segs logs →
  (∀ id d v, live_docs (concat logs).*2 !! id = Some (Some d) → d !! x_field s = Some v → value_ok v = true) →
  ∃ s', rebuild s segs w = (Ok s', w) ∧ x_field s' = x_field s ∧ x_unique s' = x_unique s ∧
    sidx_rep s' (field_values (x_field s) (live_docs (concat logs).*2)).
Proof. apply rebuild_spec. Qed.

Lemma sidx_rebuild_witness :
  ∃ s', rebuild two_values [fresh_segment] fresh_world = (Ok s', fresh_world) ∧ x_field s' = "email" ∧
    x_unique s' = true ∧ sidx_rep s' (field_values "email" (live_docs (concat [[]] : list (Z * Entry)).*2)).
Proof.
  apply (sidx_rebuild two_values [fresh_segment] [[]] fresh_world).
  - reflexivity.
  - constructor; [apply fresh_seg_rep|constructor].
  - intros id d v H. discriminate H.
Defined.
