(* ===== verification/TopK.v ===== *)
(** * Bounded sorting (the [topK] of engine/scan.go)

    The buffer that keeps the smallest results of an ordered scan, with what it
    uses of Go's [container/heap] ([up], [down], [Push], [Fix]) and of
    [sort.SliceStable].  The ordering is an argument, as in the source.  The laws
    of an ordering are asked only of the elements at hand ([ordered_on]): the
    engine's comparison is not an order on all values.  [topK_smallest] shows that
    the heap agrees with a full sort. *)

From S2P Require Import Prelude.

(** ** Sorting

    [sort.SliceStable] moves each element left past the elements it precedes
    (the insertion sort it runs on blocks; merging blocks changes the outcome
    only for comparisons that are not orders). *)
Section topk.
Context {A : Type} (less : A → A → bool).
Implicit Types l : list A.

(** Move [x] left from the end of the prefix whose reverse is [rl]. *)
Fixpoint sift_left (x : A) (rl : list A) : list A :=
  match rl with
  | [] => [x]
  | y :: rl' => if less x y then y :: sift_left x rl' else x :: rl
  end.

Definition SliceStable (l : list A) : list A := reverse (foldl (λ rl x, sift_left x rl) [] l).

(** ** The heap *)
Definition Swap (i j : nat) (l : list A) : list A :=
  match l !! i, l !! j with
  | Some x, Some y => <[j := x]> (<[i := y]> l)
  | _, _ => l
  end.

(** Reversed, so that the root is the largest element. *)
Definition Less (l : list A) (i j : nat) : bool :=
  match l !! i, l !! j with
  | Some x, Some y => less y x
  | _, _ => false
  end.

Definition parent (j : nat) : nat := (j - 1) / 2.

(** [up] climbs at most [j] times. *)
Fixpoint up_loop (fuel : nat) (l : list A) (j : nat) : list A :=
  match fuel with
  | O => l
  | S fuel =>
      let i := parent j in
      if ((i =? j)%nat || negb (Less l j i))%bool then l
      else up_loop fuel (Swap i j l) i
  end.
Definition up (l : list A) (j : nat) : list A := up_loop (S j) l j.

(** The child [down] compares with: the right one when it precedes the left. *)
Definition child (l : list A) (i : nat) : nat :=
  let j1 := 2 * i + 1 in
  let j2 := j1 + 1 in
  if ((j2 <? length l)%nat && Less l j2 j1)%bool then j2 else j1.

(** [down] descends at most as many times as there are elements; it returns the
    final position too. *)
Fixpoint down_loop (fuel : nat) (l : list A) (i : nat) : list A * nat :=
  match fuel with
  | O => (l, i)
  | S fuel =>
      if (length l <=? 2 * i + 1)%nat then (l, i)
      else
        let j := child l i in
        if negb (Less l j i) then (l, i)
        else down_loop fuel (Swap i j l) j
  end.
Definition down (l : list A) (i0 : nat) : list A * bool :=
  let '(l, i) := down_loop (length l) l i0 in (l, (i0 <? i)%nat).

Definition Push (l : list A) (x : A) : list A := let l := l ++ [x] in up l (length l - 1).

Definition Fix (l : list A) (i : nat) : list A :=
  let '(l, moved) := down l i in if moved : bool then l else up l i.

(** ** The buffer *)
Record topK := MkTopK { tk_cap : Z; tk_buf : list A }.

Definition push (t : topK) (r : A) : topK :=
  if (tk_cap t <=? 0)%Z then t
  else if (Z.of_nat (length (tk_buf t)) <? tk_cap t)%Z then MkTopK (tk_cap t) (Push (tk_buf t) r)
  else
    match tk_buf t with
    | top :: _ => if less r top then MkTopK (tk_cap t) (Fix (<[0 := r]> (tk_buf t)) 0) else t
    | [] => t
    end.

Definition sorted (t : topK) : list A := SliceStable (tk_buf t).

(** ** Orderings *)

(** [less] orders the elements that satisfy [P]: it is irreflexive, and both it
    and its complement are transitive. *)
Record ordered_on (P : A → Prop) : Prop := {
  oo_irrefl : ∀ a, P a → less a a = false;
  oo_trans : ∀ a b c, P a → P b → P c → less a b = true → less b c = true → less a c = true;
  oo_negtrans : ∀ a b c, P a → P b → P c → less a b = false → less b c = false → less a c = false
}.

(** [a] does not come after [b]. *)
Definition le (a b : A) : Prop := less b a = false.

(** Distinct elements of [P] are comparable. *)
Definition strict_on (P : A → Prop) : Prop := ∀ a b, P a → P b → le a b → le b a → a = b.

Context (P : A → Prop) (HP : ordered_on P).

Lemma le_refl a : P a → le a a.
Proof using HP. intros. by apply HP. Qed.

Lemma le_trans a b c : P a → P b → P c → le a b → le b c → le a c.
Proof using HP. unfold le. intros. by apply (oo_negtrans P HP c b a). Qed.

Lemma lt_le a b : P a → P b → less a b = true → le a b.
Proof using HP.
  unfold le. intros Ha Hb Hab. destruct (less b a) eqn:E; [|done].
  by rewrite <-(oo_irrefl P HP a Ha), (oo_trans P HP a b a).
Qed.

(** ** The sort is a sorted permutation *)
Lemma sift_left_perm x rl : sift_left x rl ≡ₚ x :: rl.
Proof using Type.
  induction rl as [|y rl IH]; simpl; [done|]. destruct (less x y); [|done].
  rewrite IH. constructor.
Qed.

(** Sorting only moves elements, whatever the comparison. *)
Lemma SliceStable_perm l : SliceStable l ≡ₚ l.
Proof using Type.
  unfold SliceStable. rewrite reverse_Permutation.
  assert (∀ rl, foldl (λ rl x, sift_left x rl) rl l ≡ₚ l ++ rl) as H.
  { induction l as [|x l IH]; intros rl; [done|]. simpl. by rewrite IH, sift_left_perm, Permutation_middle. }
  by rewrite H, app_nil_r.
Qed.

Lemma sift_left_sorted x rl :
  P x → Forall P rl → StronglySorted (flip le) rl → StronglySorted (flip le) (sift_left x rl).
Proof using HP.
  intros Hx HPl Hs. induction Hs as [|y rl Hs IH Hy]; simpl; [repeat constructor|].
  apply Forall_cons in HPl as [HPy HPl]. destruct (less x y) eqn:E.
  - constructor; [by apply IH|]. rewrite sift_left_perm. constructor; [|done].
    simpl. by apply lt_le.
  - constructor; [by constructor|]. constructor; [done|].
    rewrite Forall_forall in Hy, HPl |- *. intros z Hz. simpl in *.
    apply (le_trans z y x); auto.
Qed.

Lemma slice_stable_foldl l rl :
  Forall P l → Forall P rl → StronglySorted (flip le) rl →
  let r := foldl (λ rl x, sift_left x rl) rl l in r ≡ₚ l ++ rl ∧ StronglySorted (flip le) r.
Proof using HP.
  revert rl. induction l as [|x l IH]; intros rl Hl Hrl Hs; simpl; [done|].
  apply Forall_cons in Hl as [Hx Hl].
  destruct (IH (sift_left x rl)) as [Hp Hs']; [done|by rewrite sift_left_perm; constructor|by apply sift_left_sorted|].
  split; [|done]. by rewrite Hp, sift_left_perm, Permutation_middle.
Qed.

Lemma StronglySorted_reverse (R : A → A → Prop) l :
  StronglySorted (flip R) l → StronglySorted R (reverse l).
Proof using Type.
  induction 1 as [|x l Hs IH Hx]; [constructor|]. rewrite reverse_cons.
  apply StronglySorted_app_2; [|done|repeat constructor].
  intros a b Ha Hb%list_elem_of_singleton. subst. rewrite Forall_forall in Hx. by apply Hx, elem_of_reverse.
Qed.

Lemma SliceStable_sorted l : Forall P l → StronglySorted le (SliceStable l).
Proof using HP.
  intros Hl. apply StronglySorted_reverse. by apply slice_stable_foldl; [..|constructor|constructor].
Qed.

(** With distinct elements comparable, any sorted permutation is the sort. *)
Lemma SliceStable_unique l s :
  strict_on P → Forall P l → s ≡ₚ l → StronglySorted le s → s = SliceStable l.
Proof using HP.
  intros Hst Hl Hp Hs. apply (StronglySorted_unique_strong le); [|done|by apply SliceStable_sorted|by rewrite SliceStable_perm].
  intros a b Ha Hb. apply Hst.
  - rewrite Hp in Ha. by eapply Forall_forall in Ha.
  - rewrite SliceStable_perm in Hb by done. by eapply Forall_forall in Hb.
Qed.

(** ** The heap is a permutation *)
Lemma Swap_lookup i j l k :
  i < length l → j < length l →
  Swap i j l !! k = l !! (if decide (k = j) then i else if decide (k = i) then j else k).
Proof using Type.
  intros [x Hx]%lookup_lt_is_Some_2 [y Hy]%lookup_lt_is_Some_2. unfold Swap. rewrite Hx, Hy.
  pose proof (lookup_lt_Some _ _ _ Hx). pose proof (lookup_lt_Some _ _ _ Hy).
  destruct (decide (k = j)) as [->|Hj].
  { by rewrite list_lookup_insert_eq by (by rewrite length_insert). }
  rewrite list_lookup_insert_ne by done. destruct (decide (k = i)) as [->|Hi].
  - by rewrite list_lookup_insert_eq.
  - by rewrite list_lookup_insert_ne.
Qed.

Lemma Swap_length i j l : length (Swap i j l) = length l.
Proof using Type. unfold Swap. repeat case_match; by rewrite ?length_insert. Qed.

Lemma insert_perm i x y l : l !! i = Some x → x :: <[i := y]> l ≡ₚ y :: l.
Proof using Type.
  revert i. induction l as [|z l IH]; intros [|i] Hx; simplify_eq/=; [constructor|].
  etrans; [apply Permutation_swap|]. rewrite (IH i Hx). apply Permutation_swap.
Qed.

Lemma Swap_perm i j l : Swap i j l ≡ₚ l.
Proof using Type.
  unfold Swap. destruct (l !! i) as [x|] eqn:Hi, (l !! j) as [y|] eqn:Hj; try done.
  apply (Permutation_cons_inv (a := y)). destruct (decide (i = j)) as [<-|Hne].
  - rewrite list_insert_insert_eq, insert_perm by done. by simplify_eq.
  - rewrite insert_perm by (by rewrite list_lookup_insert_ne). by rewrite insert_perm by done.
Qed.

Lemma up_loop_perm fuel l j : up_loop fuel l j ≡ₚ l.
Proof using Type.
  revert l j. induction fuel as [|fuel IH]; intros l j; simpl; [done|].
  case_match; [done|]. by rewrite IH, Swap_perm.
Qed.

Lemma down_loop_perm fuel l i : (down_loop fuel l i).1 ≡ₚ l.
Proof using Type.
  revert l i. induction fuel as [|fuel IH]; intros l i; simpl; [done|].
  repeat case_match; [done..|]. by rewrite IH, Swap_perm.
Qed.

Lemma Push_perm l x : Push l x ≡ₚ x :: l.
Proof using Type. unfold Push, up. rewrite up_loop_perm. by rewrite Permutation_app_comm. Qed.

Lemma Fix_perm l i : Fix l i ≡ₚ l.
Proof using Type.
  unfold Fix, down. pose proof (down_loop_perm (length l) l i) as Hp.
  destruct (down_loop (length l) l i) as [l' i']. simpl in Hp.
  case_match; [done|]. unfold up. by rewrite up_loop_perm.
Qed.

(** ** The heap order *)
Definition heap (l : list A) : Prop :=
  ∀ k a b, 0 < k → l !! k = Some a → l !! parent k = Some b → le a b.

(** Heap order everywhere but between [j] and its parent. *)
Definition heap_but_above (l : list A) (j : nat) : Prop :=
  (∀ k a b, 0 < k → k ≠ j → l !! k = Some a → l !! parent k = Some b → le a b) ∧
  (∀ k a b, 0 < k → 0 < j → parent k = j → l !! k = Some a → l !! parent j = Some b → le a b).

(** Heap order everywhere but between [i] and its children. *)
Definition heap_but_below (l : list A) (i : nat) : Prop :=
  (∀ k a b, 0 < k → parent k ≠ i → l !! k = Some a → l !! parent k = Some b → le a b) ∧
  (∀ k a b, 0 < k → 0 < i → parent k = i → l !! k = Some a → l !! parent i = Some b → le a b).

Lemma parent_lt k : 0 < k → parent k < k.
Proof using Type. intros. unfold parent. apply Nat.Div0.div_lt_upper_bound. lia. Qed.

Lemma parent_child k i : 0 < k → parent k = i ↔ k = 2 * i + 1 ∨ k = 2 * i + 1 + 1.
Proof using Type.
  intros Hk. unfold parent. pose proof (Nat.div_mod_eq (k - 1) 2).
  pose proof (Nat.mod_upper_bound (k - 1) 2). lia.
Qed.

Lemma Less_true l i j :
  Less l i j = true → ∃ x y, l !! i = Some x ∧ l !! j = Some y ∧ less y x = true.
Proof using Type. unfold Less. repeat case_match; naive_solver. Qed.

Lemma Less_false l i j x y : Less l i j = false → l !! i = Some x → l !! j = Some y → le x y.
Proof using Type. unfold Less, le. intros H Hx Hy. by rewrite Hx, Hy in H. Qed.

(** Read a lookup in a swapped list at the original indices. *)
Ltac at_swap :=
  repeat match goal with
  | H : Swap _ _ _ !! _ = Some _ |- _ => rewrite Swap_lookup in H by (eauto using lookup_lt_Some)
  end; repeat case_decide; simplify_eq.

Lemma Forall_at l k a : Forall P l → l !! k = Some a → P a.
Proof using Type. intros Hl Hk. by eapply Forall_lookup in Hk. Qed.

Lemma up_step l j :
  Forall P l → heap_but_above l j → 0 < j → Less l j (parent j) = true →
  heap_but_above (Swap (parent j) j l) (parent j).
Proof using HP.
  intros HPl [H1 H2] Hj (x & y & Hx & Hy & Hlt)%Less_true.
  pose proof (parent_lt j Hj) as Hpj.
  assert (le y x) as Hyx by (apply lt_le; eauto using Forall_at).
  split; intros k a b Hk.
  - intros Hne Ha Hb. pose proof (parent_lt k Hk). at_swap; try lia; eauto.
    apply (le_trans a y x); eauto using Forall_at. eapply (H1 k); eauto. congruence.
  - intros Hp Hpar Ha Hb. pose proof (parent_lt (parent j) Hp). at_swap; try lia.
    + eapply (H1 (parent j)); eauto.
    + apply (le_trans a y b); eauto using Forall_at.
      eapply (H1 k); eauto. congruence.
Qed.

Lemma up_loop_heap fuel l j :
  Forall P l → heap_but_above l j → j < length l → j < fuel → heap (up_loop fuel l j).
Proof using HP.
  revert l j. induction fuel as [|fuel IH]; intros l j HPl Hh Hj Hf; [lia|]. simpl.
  destruct (Nat.eqb_spec (parent j) j) as [Heq|Hne]; simpl.
  { destruct (decide (j = 0)) as [->|]; [|pose proof (parent_lt j); lia].
    intros k a b Hk. apply Hh; lia. }
  assert (0 < j) as Hpos by (destruct j; [done|lia]). pose proof (parent_lt j Hpos).
  destruct (Less l j (parent j)) eqn:E; simpl.
  - apply IH; [by rewrite Swap_perm|by apply up_step|rewrite Swap_length; lia|lia].
  - intros k a b Hk Ha Hb. destruct (decide (k = j)) as [->|]; [by eapply Less_false|].
    by eapply (proj1 Hh k).
Qed.

Lemma child_max l i k a b :
  0 < k → parent k = i → l !! k = Some a → l !! child l i = Some b → P a → P b → le a b.
Proof using HP.
  intros Hk Hp Ha Hb HPa HPb. apply parent_child in Hp; [|done]. unfold child in Hb.
  pose proof (lookup_lt_Some _ _ _ Ha) as Hlt.
  destruct (Nat.ltb_spec (2 * i + 1 + 1) (length l)) as [Hr|Hr]; cbn [andb] in Hb.
  - destruct (Less l (2 * i + 1 + 1) (2 * i + 1)) eqn:E.
    + apply Less_true in E as (x & y & Hx & Hy & Hxy). simplify_eq.
      destruct Hp as [->| ->]; simplify_eq; [by apply lt_le|by apply le_refl].
    + destruct Hp as [->| ->]; simplify_eq; [by apply le_refl|by eapply Less_false].
  - destruct Hp as [->| ->]; [|lia]. simplify_eq. by apply le_refl.
Qed.

Lemma child_parent l i : parent (child l i) = i ∧ i < child l i.
Proof using Type.
  assert (child l i = 2 * i + 1 ∨ child l i = 2 * i + 1 + 1) as Hc by (unfold child; case_match; auto).
  split; [apply parent_child; lia|lia].
Qed.

Lemma down_step l i :
  Forall P l → heap_but_below l i → Less l (child l i) i = true →
  heap_but_below (Swap i (child l i) l) (child l i).
Proof using HP.
  intros HPl [H1 H2] (x & y & Hx & Hy & Hlt)%Less_true.
  destruct (child_parent l i) as [Hpc Hic]. set (c := child l i) in *.
  assert (le y x) as Hyx by (apply lt_le; eauto using Forall_at).
  split; intros k a b Hk.
  - intros Hne Ha Hb. pose proof (parent_lt k Hk). at_swap; try lia; eauto.
    + eapply (child_max l i k); eauto using Forall_at.
    + eapply (H2 c); [lia|done..].
  - intros Hc Hpar Ha Hb. pose proof (parent_lt k Hk). rewrite Hpc in Hb. at_swap; try lia.
    eapply (H1 k); eauto; [lia|by rewrite Hpar].
Qed.

Lemma down_loop_heap fuel l i :
  Forall P l → heap_but_below l i → i < length l → length l ≤ fuel + i → heap (down_loop fuel l i).1.
Proof using HP.
  revert l i. induction fuel as [|fuel IH]; intros l i HPl Hh Hi Hf; [lia|]. cbn [down_loop].
  destruct (child_parent l i) as [Hpc Hic].
  assert (∀ k a, 0 < k → parent k = i → l !! k = Some a → 2 * i + 1 < length l) as Hex.
  { intros k a Hk Hp%parent_child Ha; [|done]. pose proof (lookup_lt_Some _ _ _ Ha). lia. }
  destruct (Nat.leb_spec (length l) (2 * i + 1)) as [Hend|Hend]; cbn [fst].
  { intros k a b Hk Ha Hb. eapply (proj1 Hh k); eauto. intros Hp. pose proof (Hex k a Hk Hp Ha). lia. }
  destruct (Less l (child l i) i) eqn:E; cbn [negb fst].
  - pose proof E as E'. apply Less_true in E' as (x & y & Hx & Hy & _).
    apply IH; [by rewrite Swap_perm|by apply down_step|..]; rewrite Swap_length; eauto using lookup_lt_Some. lia.
  - intros k a b Hk Ha Hb. destruct (decide (parent k = i)) as [Hp|Hp]; [|by eapply (proj1 Hh k)].
    assert (child l i < length l) as [x Hx]%lookup_lt_is_Some_2.
    { unfold child. destruct (Nat.ltb_spec (2 * i + 1 + 1) (length l)); simpl; [case_match|]; lia. }
    rewrite Hp in Hb. apply (le_trans a x b); eauto using Forall_at, Less_false.
    eapply child_max; eauto using Forall_at.
Qed.

Lemma Push_heap l x : Forall P (x :: l) → heap l → heap (Push l x).
Proof using HP.
  intros [HPx HPl]%Forall_cons Hh. unfold Push. apply up_loop_heap.
  - apply Forall_app. split; [done|by constructor].
  - rewrite length_app. simpl. rewrite Nat.add_sub. split; intros k a b Hk.
    + intros Hne Ha Hb. pose proof (parent_lt k Hk). pose proof (lookup_lt_Some _ _ _ Ha) as Hlt.
      rewrite length_app in Hlt. simpl in Hlt. rewrite lookup_app_l in Ha, Hb by lia. by eapply (Hh k).
    + intros Hpos Hp Ha Hb. pose proof (lookup_lt_Some _ _ _ Ha) as Hlt. rewrite length_app in Hlt. simpl in Hlt.
      pose proof (parent_lt k Hk). lia.
  - rewrite length_app. simpl. lia.
  - rewrite length_app. simpl. lia.
Qed.

Lemma Fix_heap l : Forall P l → 0 < length l → heap_but_below l 0 → heap (Fix l 0).
Proof using HP.
  intros HPl Hlen Hh. unfold Fix, down.
  pose proof (down_loop_heap (length l) l 0 HPl Hh Hlen ltac:(lia)) as Hd.
  destruct (down_loop (length l) l 0) as [l' i']. simpl in *. by case_match.
Qed.

(** The root is the largest element. *)
Lemma heap_root l m x : Forall P l → heap l → l !! 0 = Some m → x ∈ l → le x m.
Proof using HP.
  intros HPl Hh Hm (k & Hk)%list_elem_of_lookup_1. revert x Hk.
  induction k as [k IH] using lt_wf_ind. intros x Hk. destruct (decide (k = 0)) as [->|].
  - simplify_eq. apply le_refl. eauto using Forall_at.
  - pose proof (parent_lt k ltac:(lia)) as Hp.
    destruct (lookup_lt_is_Some_2 l (parent k)) as [y Hy]; [apply lookup_lt_Some in Hk; lia|].
    apply (le_trans x y m); eauto using Forall_at. eapply (Hh k); eauto. lia.
Qed.

(** ** The buffer keeps the smallest elements *)
Record keeps (cap : Z) (l : list A) (t : topK) (rest : list A) : Prop := {
  kp_cap : tk_cap t = cap;
  kp_perm : tk_buf t ++ rest ≡ₚ l;
  kp_small : ∀ x y, x ∈ tk_buf t → y ∈ rest → le x y;
  kp_len : (Z.of_nat (length (tk_buf t)) ≤ cap)%Z;
  kp_full : rest ≠ [] → Z.of_nat (length (tk_buf t)) = cap;
  kp_heap : heap (tk_buf t)
}.

(** Replacing the root of a full heap by a smaller element. *)
Lemma heap_replace_root m buf r :
  heap (m :: buf) → heap_but_below (r :: buf) 0.
Proof using Type.
  intros Hh. split; [|lia]. intros k a b Hk Hp Ha Hb. destruct k as [|k]; [lia|].
  destruct (parent (S k)) as [|p] eqn:E; [done|]. apply (Hh (S k)); [done..|by rewrite E].
Qed.

Lemma push_keeps cap l t rest r :
  (0 < cap)%Z → Forall P (r :: l) → keeps cap l t rest → ∃ rest', keeps cap (r :: l) (push t r) rest'.
Proof using HP.
  intros Hcap HPr [Hc Hperm Hsm Hlen Hfull Hh]. destruct t as [c buf]. simpl in *. subst c.
  assert (Forall P (r :: buf ++ rest)) as HPb by (by rewrite Hperm).
  apply Forall_cons in HPb as [HPr' HPb]. apply Forall_app in HPb as [HPbuf HPrest].
  rewrite Forall_forall in HPrest. pose proof HPbuf as HPbuf'. rewrite Forall_forall in HPbuf'.
  unfold push. simpl. rewrite (proj2 (Z.leb_gt cap 0)) by done.
  destruct (Z.ltb_spec (Z.of_nat (length buf)) cap) as [Hlt|Hge].
  { assert (rest = []) as -> by (destruct rest; [done|]; specialize (Hfull ltac:(done)); lia).
    exists []. split; simpl; try done.
    - rewrite Push_perm. simpl. by rewrite Hperm.
    - by intros x y _ ?%not_elem_of_nil.
    - rewrite Push_perm. simpl. lia.
    - apply Push_heap; [by constructor|done]. }
  destruct buf as [|m buf]; [simpl in *; lia|]. simpl.
  assert (∀ x, x ∈ m :: buf → le x m) as Hmax by (intros; by eapply (heap_root (m :: buf))).
  assert (m ∈ m :: buf) as Hm by (apply elem_of_cons; by left).
  destruct (less r m) eqn:E.
  - exists (m :: rest). split; simpl; try done.
    + rewrite Fix_perm. simpl. rewrite <-Hperm. simpl. constructor. by rewrite Permutation_middle.
    + intros x y Hx Hy. rewrite Fix_perm, elem_of_cons in Hx. rewrite elem_of_cons in Hy.
      assert (P x ∧ le x m) as [HPx Hxm].
      { destruct Hx as [->|Hx]; [split; [done|by apply lt_le; auto]|].
        split; [|apply Hmax]; [apply HPbuf'|]; apply elem_of_cons; by right. }
      destruct Hy as [->|Hy]; [done|]. apply (le_trans x m y); auto.
    + rewrite Fix_perm. simpl in *. lia.
    + intros _. rewrite Fix_perm. simpl in *. lia.
    + apply Fix_heap; [|simpl; lia|by eapply heap_replace_root].
      constructor; [done|]. by apply Forall_cons in HPbuf as [_ ?].
  - exists (r :: rest). split; simpl; try done.
    + rewrite <-Hperm. simpl. rewrite <-Permutation_middle. apply Permutation_swap.
    + intros x y Hx [->|Hy]%elem_of_cons; [|by apply Hsm].
      apply (le_trans x m r); auto.
    + intros _. simpl in *. lia.
Qed.

Lemma push_all_keeps cap l l0 t rest :
  (0 < cap)%Z → Forall P (l ++ l0) → keeps cap l0 t rest →
  ∃ rest', keeps cap (l ++ l0) (foldl push t l) rest'.
Proof using HP.
  intros Hcap. revert l0 t rest. induction l as [|r l IH]; intros l0 t rest HPl Hk; simpl; [eauto|].
  assert (Forall P (r :: l0)) as HPr.
  { rewrite Forall_forall in HPl |- *. intros x Hx. apply HPl. set_solver. }
  destruct (push_keeps cap l0 t rest r Hcap HPr Hk) as (rest' & Hk').
  destruct (IH (r :: l0) (push t r) rest') as (rest'' & Hk''); [|done|].
  - by rewrite <-Permutation_middle.
  - exists rest''. destruct Hk'' as [H1 H2 H3 H4 H5 H6]. split; try done.
    by rewrite H2, <-Permutation_middle.
Qed.

Lemma sorted_keeps cap l t rest :
  strict_on P → Forall P l → keeps cap l t rest → SliceStable (tk_buf t) ++ SliceStable rest = SliceStable l.
Proof using HP.
  intros Hst HPl [Hc Hperm Hsm _ _ _].
  assert (Forall P (tk_buf t ++ rest)) as [HPb HPr]%Forall_app by (by rewrite Hperm).
  apply SliceStable_unique; [done|done|by rewrite !SliceStable_perm|].
  apply StronglySorted_app_2; [|by apply SliceStable_sorted..].
  intros x y. rewrite !SliceStable_perm by done. apply Hsm.
Qed.

Lemma topK_keeps cap l :
  (0 < cap)%Z → Forall P l → ∃ rest, keeps cap l (foldl push (MkTopK cap []) l) rest.
Proof using HP.
  intros Hcap HPl. destruct (push_all_keeps cap l [] (MkTopK cap []) []) as (rest & Hk).
  - done.
  - by rewrite app_nil_r.
  - split; simpl; try done; [by intros x y _ ?%not_elem_of_nil|lia].
  - rewrite app_nil_r in Hk. eauto.
Qed.

Lemma topK_run cap l :
  strict_on P → (0 < cap)%Z → Forall P l →
  sorted (foldl push (MkTopK cap []) l) = take (Z.to_nat cap) (SliceStable l).
Proof using HP.
  intros Hst Hcap HPl. destruct (topK_keeps cap l Hcap HPl) as (rest & Hk).
  rewrite <-(sorted_keeps cap l _ rest Hst HPl Hk).
  assert (Forall P (tk_buf (foldl push (MkTopK cap []) l))) as HPb.
  { assert (Forall P (tk_buf (foldl push (MkTopK cap []) l) ++ rest)) as [? _]%Forall_app; [|done].
    by rewrite (kp_perm _ _ _ _ Hk). }
  pose proof (kp_len _ _ _ _ Hk) as Hlen. pose proof (Permutation_length (SliceStable_perm (tk_buf (foldl push (MkTopK cap []) l)))) as Hsl.
  destruct (decide (rest = [])) as [->|Hne].
  - change (SliceStable []) with (@nil A). rewrite app_nil_r, take_ge; [done|]. lia.
  - pose proof (kp_full _ _ _ _ Hk Hne). rewrite take_app_length'; [done|]. lia.
Qed.

(** A buffer without room keeps nothing. *)
Lemma topK_no_room cap l : (cap ≤ 0)%Z → foldl push (MkTopK cap []) l = MkTopK cap [].
Proof using Type.
  intros Hcap. induction l as [|r l IH]; [done|]. simpl. unfold push at 2. simpl.
  by rewrite (proj2 (Z.leb_le cap 0)).
Qed.
End topk.

Arguments MkTopK {A} _ _.
Arguments tk_cap {A} _.
Arguments tk_buf {A} _.

(** ** Properties *)

(** The bounded buffer agrees with a full sort: after any sequence of
    elements on which the comparison is a total order, its sorted contents are
    the first [cap] elements of the sorted sequence; the buffer never holds more
    than [cap] elements. *)
Theorem topK_smallest {A} (less : A → A → bool) (cap : Z) (l : list A) :
  ordered_on less (λ x, x ∈ l) → strict_on less (λ x, x ∈ l) →
  sorted less (foldl (push less) (MkTopK cap []) l) = take (Z.to_nat cap) (SliceStable less l) ∧
  (Z.of_nat (length (tk_buf (foldl (push less) (MkTopK cap []) l))) ≤ Z.max 0 cap)%Z.
Proof.
  intros Ho Hs. assert (Forall (λ x, x ∈ l) l) as Hl by (by apply Forall_forall).
  destruct (Z.leb_spec cap 0) as [Hc|Hc].
  - rewrite topK_no_room by done. simpl. split; [by replace (Z.to_nat cap) with 0 by lia|lia].
  - split; [by apply (topK_run less _ Ho)|].
    destruct (topK_keeps less _ Ho cap l Hc Hl) as (rest & Hk%kp_len). lia.
Qed.

Lemma topK_smallest_witness :
  sorted N.ltb (foldl (push N.ltb) (MkTopK 2 []) [5; 3; 9; 1]%N) = take 2 (SliceStable N.ltb [5; 3; 9; 1]%N) ∧
  (Z.of_nat (length (tk_buf (foldl (push N.ltb) (MkTopK 2 []) [5; 3; 9; 1]%N))) ≤ 2)%Z.
Proof.
  apply (topK_smallest N.ltb 2 [5; 3; 9; 1]%N).
  - split; intros; bools; rewrite ?N.ltb_lt, ?N.ltb_ge; lia.
  - intros a b _ _. unfold le. intros. bools. lia.
Defined.
