(* ===== verification/Meta.v ===== *)
(** * Persisted encryption settings (engine/meta.go, the types of engine/encryption.go)

    The "encryption" block of meta.json: the write policy, the reconstruction
    mode, the policy epoch, the key-derivation parameters and the key check, with
    their JSON encoding and its round trip. *)

From S2P Require Import Prelude GoFloat GoTime GoJson Value Store Disk Segment Index.

(** ** Data *)

(** A Go string type; the empty mode means no sealing. *)
Abbreviation EncryptionMode := string (only parsing).
Definition EncryptModeFields : EncryptionMode := "fields".
Definition EncryptModeRecord : EncryptionMode := "record".

Record EncryptionPolicy := MkPolicy {
  p_Mode : EncryptionMode;
  p_Fields : list string;
  p_IndexFields : list string
}.

Definition zero_policy : EncryptionPolicy := MkPolicy "" [] [].

Record KDFParams := MkKDFParams {
  k_Memory : N;
  k_Iterations : N;
  k_Parallelism : N;
  k_KeyLen : N;
  k_SaltLen : Z
}.

Record EncryptionKDF := MkKDF {
  kdf_Algo : string;
  kdf_Salt : string;
  kdf_Params : KDFParams
}.

Record encryptionMeta := MkEncMeta {
  em_Policy : EncryptionPolicy;
  em_ReadMode : EncryptionMode;
  em_Epoch : N;
  em_KDF : option EncryptionKDF;
  em_KeyCheck : string;
  em_CurrentKeyID : string
}.

Definition readMode (m : encryptionMeta) : EncryptionMode :=
  if bool_decide (em_ReadMode m = "") then p_Mode (em_Policy m) else em_ReadMode m.

(** ** Encoding *)
Definition strings_json (l : list string) : json := JArr (map JStr l).

Definition policy_json (p : EncryptionPolicy) : json :=
  JObj ([("mode", JStr (p_Mode p))] ++
    omit (bool_decide (p_Fields p = [])) "fields" (strings_json (p_Fields p)) ++
    omit (bool_decide (p_IndexFields p = [])) "index_fields" (strings_json (p_IndexFields p))).

Definition params_json (p : KDFParams) : json :=
  JObj [("memory", j_uint (k_Memory p)); ("iterations", j_uint (k_Iterations p));
    ("parallelism", j_uint (k_Parallelism p)); ("key_len", j_uint (k_KeyLen p));
    ("salt_len", JNum (json_int (k_SaltLen p)))].

Definition kdf_json (k : EncryptionKDF) : json :=
  JObj [("algo", JStr (kdf_Algo k)); ("salt", JStr (kdf_Salt k)); ("params", params_json (kdf_Params k))].

Definition encMeta_json (m : encryptionMeta) : json :=
  JObj ([("policy", policy_json (em_Policy m))] ++
    omit (bool_decide (em_ReadMode m = "")) "read_mode" (JStr (em_ReadMode m)) ++
    omit (em_Epoch m =? 0)%N "epoch" (j_uint (em_Epoch m)) ++
    match em_KDF m with Some k => [("kdf", kdf_json k)] | None => [] end ++
    [("key_check", JStr (em_KeyCheck m)); ("current_key_id", JStr (em_CurrentKeyID m))]).

(** ** Decoding *)

(** Decode the members of an object into a struct. *)
Section struct.
Context {A : Type} (set_member : A → string * json → result A).
Fixpoint set_members (a : A) (l : list (string * json)) : result A :=
  match l with
  | [] => Ok a
  | kv :: l => a ← set_member a kv; set_members a l
  end.
Definition as_struct (cur : A) (v : json) : result A :=
  match v with JNull => Ok cur | JObj l => set_members cur l | _ => Err ErrSyntax end.
End struct.

Definition as_strings (cur : list string) (v : json) : result (list string) :=
  match v with JNull => Ok [] | JArr l => mapR (as_string "") l | _ => Err ErrSyntax end.

Definition set_policy_field (p : EncryptionPolicy) (kv : string * json) : result EncryptionPolicy :=
  let '(k, v) := kv in
  let '(MkPolicy mode fields index) := p in
  let name := field_name k in
  if bool_decide (name = "mode") then x ← as_string mode v; Ok (MkPolicy x fields index)
  else if bool_decide (name = "fields") then x ← as_strings fields v; Ok (MkPolicy mode x index)
  else if bool_decide (name = "index_fields") then x ← as_strings index v; Ok (MkPolicy mode fields x)
  else Ok p.

Definition set_params_field (p : KDFParams) (kv : string * json) : result KDFParams :=
  let '(k, v) := kv in
  let '(MkKDFParams mem iter par key salt) := p in
  let name := field_name k in
  if bool_decide (name = "memory") then x ← as_uint 32 mem v; Ok (MkKDFParams x iter par key salt)
  else if bool_decide (name = "iterations") then x ← as_uint 32 iter v; Ok (MkKDFParams mem x par key salt)
  else if bool_decide (name = "parallelism") then x ← as_uint 8 par v; Ok (MkKDFParams mem iter x key salt)
  else if bool_decide (name = "key_len") then x ← as_uint 32 key v; Ok (MkKDFParams mem iter par x salt)
  else if bool_decide (name = "salt_len") then x ← as_int salt v; Ok (MkKDFParams mem iter par key x)
  else Ok p.

Definition zero_params : KDFParams := MkKDFParams 0 0 0 0 0.

Definition set_kdf_field (k : EncryptionKDF) (kv : string * json) : result EncryptionKDF :=
  let '(key, v) := kv in
  let '(MkKDF algo salt params) := k in
  let name := field_name key in
  if bool_decide (name = "algo") then x ← as_string algo v; Ok (MkKDF x salt params)
  else if bool_decide (name = "salt") then x ← as_string salt v; Ok (MkKDF algo x params)
  else if bool_decide (name = "params") then x ← as_struct set_params_field params v; Ok (MkKDF algo salt x)
  else Ok k.

(** A pointer to a struct: [null] makes it nil, an object allocates one if needed. *)
Definition as_pointer {A} (set_member : A → string * json → result A) (zero : A) (cur : option A) (v : json) : result (option A) :=
  match v with JNull => Ok None | _ => x ← as_struct set_member (default zero cur) v; Ok (Some x) end.

Definition set_encMeta_field (m : encryptionMeta) (kv : string * json) : result encryptionMeta :=
  let '(k, v) := kv in
  let '(MkEncMeta pol mode epoch kdf check id) := m in
  let name := field_name k in
  if bool_decide (name = "policy") then x ← as_struct set_policy_field pol v; Ok (MkEncMeta x mode epoch kdf check id)
  else if bool_decide (name = "read_mode") then x ← as_string mode v; Ok (MkEncMeta pol x epoch kdf check id)
  else if bool_decide (name = "epoch") then x ← as_uint 64 epoch v; Ok (MkEncMeta pol mode x kdf check id)
  else if bool_decide (name = "kdf") then
    x ← as_pointer set_kdf_field (MkKDF "" "" zero_params) kdf v; Ok (MkEncMeta pol mode epoch x check id)
  else if bool_decide (name = "key_check") then x ← as_string check v; Ok (MkEncMeta pol mode epoch kdf x id)
  else if bool_decide (name = "current_key_id") then x ← as_string id v; Ok (MkEncMeta pol mode epoch kdf check x)
  else Ok m.

Definition zero_encMeta : encryptionMeta := MkEncMeta zero_policy "" 0 None "" "".

Definition as_encMeta (cur : option encryptionMeta) (v : json) : result (option encryptionMeta) :=
  as_pointer set_encMeta_field zero_encMeta cur v.

(** ** Round trip *)
Definition wf_strings (l : list string) : Prop := Forall (λ s, wf_string s = true) l.

Record wf_policy (p : EncryptionPolicy) : Prop := {
  wp_mode : wf_string (p_Mode p) = true;
  wp_fields : wf_strings (p_Fields p);
  wp_index : wf_strings (p_IndexFields p)
}.

Record wf_params (p : KDFParams) : Prop := {
  wk_memory : (k_Memory p < 2 ^ 32)%N;
  wk_iter : (k_Iterations p < 2 ^ 32)%N;
  wk_par : (k_Parallelism p < 2 ^ 8)%N;
  wk_key : (k_KeyLen p < 2 ^ 32)%N;
  wk_salt : (- 2 ^ 63 <= k_SaltLen p < 2 ^ 63)%Z
}.

Record wf_kdf (k : EncryptionKDF) : Prop := {
  wkdf_algo : wf_string (kdf_Algo k) = true;
  wkdf_salt : wf_string (kdf_Salt k) = true;
  wkdf_params : wf_params (kdf_Params k)
}.

Record wf_encMeta (m : encryptionMeta) : Prop := {
  we_policy : wf_policy (em_Policy m);
  we_mode : wf_string (em_ReadMode m) = true;
  we_epoch : (em_Epoch m < 2 ^ 64)%N;
  we_kdf : match em_KDF m with Some k => wf_kdf k | None => True end;
  we_check : wf_string (em_KeyCheck m) = true;
  we_id : wf_string (em_CurrentKeyID m) = true
}.

Lemma wf_strings_json l : wf_strings l → wf_json (strings_json l).
Proof. intros H. apply wf_json_arr, Forall_map. exact H. Qed.

Lemma as_strings_json cur l : as_strings cur (strings_json l) = Ok l.
Proof.
  unfold as_strings, strings_json. apply mapR_Forall2.
  induction l; simpl; constructor; [reflexivity|done].
Qed.

Lemma set_members_app {A} (set_member : A → string * json → result A) a l1 l2 :
  set_members set_member a (l1 ++ l2) = (b ← set_members set_member a l1; set_members set_member b l2).
Proof. revert a. induction l1 as [|kv l1 IH]; intros a; [done|]. cbn. destruct (set_member a kv); cbn; [apply IH|done]. Qed.

(** An omitted field is as good as its zero value. *)
Lemma set_members_omit {A} (set_member : A → string * json → result A) a a' b k v :
  (b = true → a' = a) → (b = false → set_member a (k, v) = Ok a') → set_members set_member a (omit b k v) = Ok a'.
Proof. unfold omit. intros H1 H2. destruct b; [by rewrite H1|]. cbn. by rewrite H2. Qed.

Lemma set_members_cons {A} (set_member : A → string * json → result A) a b kv l :
  set_member a kv = Ok b → set_members set_member a (kv :: l) = set_members set_member b l.
Proof. intros H. cbn. by rewrite H. Qed.

(** Decode one known member. *)
Ltac member :=
  intros; lazymatch goal with |- ?f _ _ = _ => unfold f end; cbv beta iota zeta;
  match goal with |- context [field_name ?k] => let v := eval vm_compute in (field_name k) in change (field_name k) with v end;
  repeat first [rewrite (bool_decide_true (_ = _)) by done | rewrite (bool_decide_false (_ = _)) by done];
  cbv iota; unfold as_uint, as_int, as_string, j_uint; rewrite ?parse_uint_json, ?parse_int_json, ?as_strings_json by done;
  reflexivity.
Ltac omitted := intros; bools; by subst.

Lemma policy_roundtrip p : as_struct set_policy_field zero_policy (policy_json p) = Ok p.
Proof.
  destruct p as [mode fields index]. unfold policy_json, as_struct, zero_policy. cbn [p_Mode p_Fields p_IndexFields app].
  erewrite set_members_cons by member. rewrite set_members_app.
  erewrite (set_members_omit _ _ (MkPolicy mode fields [])); [cbn|omitted|member].
  apply set_members_omit; [omitted|member].
Qed.

Lemma params_roundtrip p : wf_params p → as_struct set_params_field zero_params (params_json p) = Ok p.
Proof.
  intros [H1 H2 H3 H4 H5]. destruct p as [mem iter par key salt]. cbn in H1, H2, H3, H4, H5.
  unfold params_json, as_struct, zero_params. cbn [k_Memory k_Iterations k_Parallelism k_KeyLen k_SaltLen].
  do 5 (erewrite set_members_cons by member). done.
Qed.

Lemma kdf_roundtrip k : wf_kdf k → as_struct set_kdf_field (MkKDF "" "" zero_params) (kdf_json k) = Ok k.
Proof.
  intros [H1 H2 H3]. destruct k as [algo salt params]. cbn in H1, H2, H3.
  unfold kdf_json, as_struct. cbn [kdf_Algo kdf_Salt kdf_Params]. do 2 (erewrite set_members_cons by member).
  erewrite set_members_cons; [reflexivity|]. unfold set_kdf_field. cbv beta iota zeta.
  change (field_name "params") with "params". repeat (rewrite (bool_decide_false (_ = _)) by done).
  rewrite bool_decide_true by done. by rewrite params_roundtrip.
Qed.

Lemma set_encMeta_policy m pol : em_Policy m = zero_policy →
  set_encMeta_field m ("policy", policy_json pol) =
    Ok (MkEncMeta pol (em_ReadMode m) (em_Epoch m) (em_KDF m) (em_KeyCheck m) (em_CurrentKeyID m)).
Proof.
  destruct m. cbn [em_Policy]. intros ->. unfold set_encMeta_field. cbv beta iota zeta.
  change (field_name "policy") with "policy". rewrite bool_decide_true by done. by rewrite policy_roundtrip.
Qed.

Lemma set_encMeta_kdf m k : wf_kdf k → em_KDF m = None →
  set_encMeta_field m ("kdf", kdf_json k) =
    Ok (MkEncMeta (em_Policy m) (em_ReadMode m) (em_Epoch m) (Some k) (em_KeyCheck m) (em_CurrentKeyID m)).
Proof.
  intros Hk. destruct m. cbn [em_KDF]. intros ->. unfold set_encMeta_field. cbv beta iota zeta.
  change (field_name "kdf") with "kdf". repeat (rewrite (bool_decide_false (_ = _)) by done). rewrite bool_decide_true by done.
  unfold as_pointer. change (default _ None) with (MkKDF "" "" zero_params). rewrite kdf_roundtrip by done. done.
Qed.

Lemma encMeta_roundtrip m : wf_encMeta m → as_encMeta None (encMeta_json m) = Ok (Some m).
Proof.
  intros [_ _ H1 H2 _ _]. destruct m as [pol mode epoch kdf check id]. cbn in H1, H2.
  unfold as_encMeta, as_pointer, encMeta_json, as_struct, zero_encMeta. cbv iota.
  cbn [default em_Policy em_ReadMode em_Epoch em_KDF em_KeyCheck em_CurrentKeyID app from_option].
  erewrite set_members_cons by (by apply set_encMeta_policy).
  cbn [em_Policy em_ReadMode em_Epoch em_KDF em_KeyCheck em_CurrentKeyID]. rewrite set_members_app.
  erewrite (set_members_omit _ _ (MkEncMeta pol mode 0 None "" "")); [cbn [mbind result_bind]; rewrite set_members_app|omitted|member].
  erewrite (set_members_omit _ _ (MkEncMeta pol mode epoch None "" "")); [cbn [mbind result_bind]; rewrite set_members_app|omitted|member].
  assert (set_members set_encMeta_field (MkEncMeta pol mode epoch None "" "")
    match kdf with Some k => [("kdf", kdf_json k)] | None => [] end = Ok (MkEncMeta pol mode epoch kdf "" "")) as ->.
  { destruct kdf as [k|]; [|done]. by erewrite set_members_cons by (by apply set_encMeta_kdf). }
  cbn [mbind result_bind]. do 2 (erewrite set_members_cons by member). done.
Qed.

Lemma encMeta_json_wf m : wf_encMeta m → wf_json (encMeta_json m).
Proof.
  intros [[Hp1 Hp2 Hp3] H2 H3 H4 H5 H6].
  assert (wf_json (policy_json (em_Policy m))) as Hpol.
  { apply wf_json_obj. repeat apply Forall_app_2; auto using wf_omit, wf_strings_json. }
  apply wf_json_obj. repeat apply Forall_app_2; auto using wf_omit, wf_j_uint.
  - destruct (em_KDF m) as [k|]; [|constructor]. destruct H4 as [K1 K2 [P1 P2 P3 P4 P5]].
    constructor; [|constructor]. split; [done|]. cbn [snd].
    assert (wf_json (params_json (kdf_Params k))) as Hpar.
    { apply wf_json_obj. repeat (apply Forall_cons_2 || apply Forall_nil_2); (split; [done|]); apply wf_json_int. }
    apply wf_json_obj. repeat (apply Forall_cons_2 || apply Forall_nil_2); by split.
Qed.
