(* ===== verification/Collection.v ===== *)
(** * Collections: state and write path

    The collection object of engine/collection.go with the helpers of
    engine/meta.go, engine/ttl.go and engine/quota.go, the secondary-index
    maintenance, watch subscriptions, segment rotation, and the write operations
    Insert, InsertMany, Update, Delete, CommitTx, compare-and-swap and the keyed
    API of engine/keys.go.  Every operation is the whole body of its Go method run
    as one atomic step on the pair of the collection and the world. *)

From S2P Require Import Prelude GoFloat GoStrconv GoTime GoJson Value Query Store Disk Segment Index SecIndex Meta.

(** ** Configuration *)
Inductive SyncMode := SyncModeNone | SyncModeAlways | SyncModeInterval.
#[global] Instance SyncMode_eq_dec : EqDecision SyncMode.
Proof. solve_decision. Defined.

Definition nanosecond : Z := 1.
Definition second : Z := 1000000000.
Definition minute : Z := 60 * second.

Record Quota := MkQuota { q_MaxRecords : N; q_MaxBytes : N }.

Record CollectionConfig := MkConfig {
  SegmentMaxSize : Z;
  CompactInterval : Z;
  CompactDirtyPct : f64;
  cfg_SyncMode : option SyncMode; (* [None] is the empty string *)
  SyncInterval : Z;
  WatchBufferSize : Z;
  DefaultTTL : Z;
  MaxRecords : N;
  MaxBytes : N;
  Quotas : gmap string Quota
}.

Definition DefaultSyncInterval : Z := second.
Definition DefaultWatchBufferSize : Z := 64.

Definition defaultConfig : CollectionConfig :=
  MkConfig DefaultSegmentMaxSize (5 * minute) (dec_round false 30 (-2)) (Some SyncModeNone)
    DefaultSyncInterval DefaultWatchBufferSize 0 0 0 ∅.

(** The normalisation [OpenCollection] applies to a configuration. *)
Definition normalizeConfig (name : string) (cfg : CollectionConfig) : CollectionConfig :=
  let def := defaultConfig in
  let quota := Quotas cfg !! name in
  MkConfig
    (if (SegmentMaxSize cfg <=? 0)%Z then SegmentMaxSize def else SegmentMaxSize cfg)
    (if (CompactInterval cfg <=? 0)%Z then CompactInterval def else CompactInterval cfg)
    (if (f64_lt (CompactDirtyPct cfg) f64_zero || f64_eq (CompactDirtyPct cfg) f64_zero)%bool
     then CompactDirtyPct def else CompactDirtyPct cfg)
    (match cfg_SyncMode cfg with None => Some SyncModeNone | m => m end)
    (if (SyncInterval cfg <=? 0)%Z then DefaultSyncInterval else SyncInterval cfg)
    (if (WatchBufferSize cfg <=? 0)%Z then DefaultWatchBufferSize else WatchBufferSize cfg)
    (DefaultTTL cfg)
    (match quota with Some q => q_MaxRecords q | None => MaxRecords cfg end)
    (match quota with Some q => q_MaxBytes q | None => MaxBytes cfg end)
    (Quotas cfg).

(** ** Encryption as the collection sees it

    The write path seals a record's data with fresh randomness and stamps the
    policy epoch, the read path opens it, in whole or projected to some fields,
    and queries ask which fields are opaque; the collection uses nothing else of
    the encryptor. *)
Record encryptor := MkEncryptor {
  enc_epoch : N;
  enc_encrypt : N → option doc → result (option doc);
  enc_materialize : option doc → list string → result (option doc);
  enc_isEncryptedField : string → bool
}.

(** ** Watch subscriptions *)
Definition OpOverflow : EntryOp := OpOther "overflow".

Record WatchEvent := MkWatchEvent {
  we_Op : EntryOp;
  we_ID : N;
  we_Data : option doc;
  we_Ts : Time
}.

Record watcher := MkWatcher {
  wa_cap : Z;
  wa_ch : list WatchEvent; (* buffered, oldest first *)
  wa_overflowed : bool
}.

(** ** The collection *)
Record Collection := MkColl {
  c_name : string;
  c_dir : string;
  c_cfg : CollectionConfig;
  c_createdAt : Time;
  c_sealed : list Segment;
  c_active : Segment;
  c_index : Index;
  c_idSeq : N;
  c_explicitDefaultTTLSecs : Z;
  c_watchers : gmap N watcher;
  c_watcherIDSeq : N;
  c_sidxMap : gmap string SecondaryIndex;
  c_enc : option encryptor;
  c_encMeta : option encryptionMeta;
  c_broker : bool;
  c_feed : list Entry; (* the entries published to the replication broker, in order *)
  c_compactC : bool;
  c_closed : bool;
  c_closeDone : bool
}.

(** Field updates. *)
Definition set_cfg (x : CollectionConfig) (c : Collection) : Collection :=
  let '(MkColl a b _ d e f g h i j k l m n o p q r s) := c in MkColl a b x d e f g h i j k l m n o p q r s.
Definition set_createdAt (x : Time) (c : Collection) : Collection :=
  let '(MkColl a b d _ e f g h i j k l m n o p q r s) := c in MkColl a b d x e f g h i j k l m n o p q r s.
Definition set_sealed (x : list Segment) (c : Collection) : Collection :=
  let '(MkColl a b d e _ f g h i j k l m n o p q r s) := c in MkColl a b d e x f g h i j k l m n o p q r s.
Definition set_active (x : Segment) (c : Collection) : Collection :=
  let '(MkColl a b d e f _ g h i j k l m n o p q r s) := c in MkColl a b d e f x g h i j k l m n o p q r s.
Definition set_index (x : Index) (c : Collection) : Collection :=
  let '(MkColl a b d e f g _ h i j k l m n o p q r s) := c in MkColl a b d e f g x h i j k l m n o p q r s.
Definition set_idSeq (x : N) (c : Collection) : Collection :=
  let '(MkColl a b d e f g h _ i j k l m n o p q r s) := c in MkColl a b d e f g h x i j k l m n o p q r s.
Definition set_explicitTTL (x : Z) (c : Collection) : Collection :=
  let '(MkColl a b d e f g h i _ j k l m n o p q r s) := c in MkColl a b d e f g h i x j k l m n o p q r s.
Definition set_watchers (x : gmap N watcher) (c : Collection) : Collection :=
  let '(MkColl a b d e f g h i j _ k l m n o p q r s) := c in MkColl a b d e f g h i j x k l m n o p q r s.
Definition set_watcherIDSeq (x : N) (c : Collection) : Collection :=
  let '(MkColl a b d e f g h i j k _ l m n o p q r s) := c in MkColl a b d e f g h i j k x l m n o p q r s.
Definition set_sidxMap (x : gmap string SecondaryIndex) (c : Collection) : Collection :=
  let '(MkColl a b d e f g h i j k l _ m n o p q r s) := c in MkColl a b d e f g h i j k l x m n o p q r s.
Definition set_feed (x : list Entry) (c : Collection) : Collection :=
  let '(MkColl a b d e f g h i j k l m n o p _ q r s) := c in MkColl a b d e f g h i j k l m n o p x q r s.
Definition set_compactC (x : bool) (c : Collection) : Collection :=
  let '(MkColl a b d e f g h i j k l m n o p q _ r s) := c in MkColl a b d e f g h i j k l m n o p q x r s.
Definition set_closed (x : bool) (c : Collection) : Collection :=
  let '(MkColl a b d e f g h i j k l m n o p q r _ s) := c in MkColl a b d e f g h i j k l m n o p q r x s.
Definition set_closeDone (x : bool) (c : Collection) : Collection :=
  let '(MkColl a b d e f g h i j k l m n o p q r s _) := c in MkColl a b d e f g h i j k l m n o p q r s x.

Abbreviation CM := (SE (Collection * World)).

Definition modify (f : Collection → Collection) : CM unit := λ '(c, w), (Ok tt, (f c, w)).

(** Run a segment operation on the active segment. *)
Definition with_active {A} (m : SE (Segment * World) A) : CM A := λ '(c, w),
  let '(r, (s, w)) := m (c_active c, w) in (r, (set_active s c, w)).

(** ** Paths *)

(** [filepath.Join] of a directory and a name that is a single element of a path,
    where nothing is left to clean; a name with separators or dots would be
    resolved against the directory. *)
Definition join (dir file : string) : string := dir +:+ "/" +:+ file.

(** [fmt.Sprintf("%06d", n)]. *)
Definition pad6 (n : N) : bytes := let ds := dec_digits n in replicate (6 - length ds) "0"%char ++ ds.

Definition segmentPath (dir : string) (n : N) : string :=
  join dir ("seg_" +:+ of_bytes (pad6 n) +:+ ".ndjson").

Definition strip_prefix (p b : bytes) : option bytes :=
  if is_prefix p b then Some (drop (length p) b) else None.

(** [filepath.Base] of a path whose directory is [dir]. *)
Definition base_in (dir path : string) : option bytes := strip_prefix (to_bytes (dir +:+ "/")) (to_bytes path).

Fixpoint span_digits (b : bytes) : bytes * bytes :=
  match b with
  | c :: b' => if is_digit c then let '(d, r) := span_digits b' in (c :: d, r) else ([], b)
  | [] => ([], [])
  end.

(** [fmt.Sscanf(base, "seg_%d.ndjson", &n)]. *)
Definition scan_seg_number (base : bytes) : option N :=
  match strip_prefix (to_bytes "seg_") base with
  | None => None
  | Some b =>
      let '(ds, rest) := span_digits b in
      if bool_decide (ds = []) then None
      else if (2 ^ 64 <=? dec_value ds)%N then None
      else if is_prefix (to_bytes ".ndjson") rest then Some (dec_value ds) else None
  end.

Definition seg_number (dir path : string) : option N := base_in dir path ≫= scan_seg_number.

(** ** meta.json *)
Definition metaPath (dir : string) : string := join dir "meta.json".
Definition indexPath (dir : string) : string := join dir "index.json".

Record collectionMeta := MkMeta {
  m_IDCounter : N;
  m_CreatedAt : Time;
  m_DefaultTTLSeconds : Z;
  m_Encryption : option encryptionMeta
}.

Definition meta_to_json (m : collectionMeta) : result json :=
  ts ← format_time (m_CreatedAt m);
  Ok (JObj ([("id_counter", j_uint (m_IDCounter m)); ("created_at", JStr (of_bytes ts))] ++
    omit (m_DefaultTTLSeconds m =? 0)%Z "default_ttl_seconds" (JNum (json_int (m_DefaultTTLSeconds m))) ++
    match m_Encryption m with Some e => [("encryption", encMeta_json e)] | None => [] end)).

Definition persistMeta (path : string) (m : collectionMeta) : M unit :=
  data ← lift (meta_to_json m); writeFileAtomic path (print_json data).

Definition as_time (cur : Time) (v : json) : result Time :=
  match v with
  | JNull => Ok cur
  | JStr s => of_option ErrSyntax (parse_time (to_bytes s))
  | _ => Err ErrSyntax
  end.

Definition set_meta_field (m : collectionMeta) (kv : string * json) : result collectionMeta :=
  let '(k, v) := kv in
  let '(MkMeta ids created ttl enc) := m in
  let name := field_name k in
  if bool_decide (name = "id_counter") then x ← as_uint 64 ids v; Ok (MkMeta x created ttl enc)
  else if bool_decide (name = "created_at") then x ← as_time created v; Ok (MkMeta ids x ttl enc)
  else if bool_decide (name = "default_ttl_seconds") then x ← as_int ttl v; Ok (MkMeta ids created x enc)
  else if bool_decide (name = "encryption") then
    x ← as_encMeta enc v; Ok (MkMeta ids created ttl x)
  else Ok m.

Fixpoint set_meta_fields (m : collectionMeta) (l : list (string * json)) : result collectionMeta :=
  match l with
  | [] => Ok m
  | kv :: l => m ← set_meta_field m kv; set_meta_fields m l
  end.

Definition meta_of_json (v : json) : result collectionMeta :=
  let zero := MkMeta 0 zero_time 0 None in
  match v with
  | JNull => Ok zero
  | JObj l => set_meta_fields zero l
  | _ => Err ErrSyntax
  end.

Definition loadMeta (path : string) : M collectionMeta :=
  data ← read_file path;
  lift (match parse_json data with Some j => meta_of_json j | None => Err ErrSyntax end).

Definition metaSnapshot (c : Collection) : collectionMeta :=
  MkMeta (c_idSeq c) (c_createdAt c) (c_explicitDefaultTTLSecs c) (c_encMeta c).

(** ** Deadlines (engine/ttl.go) *)

(** [time.Duration(secs) * time.Second], an [int64] product that wraps. *)
Definition int64_wrap (z : Z) : Z := ((z + 2 ^ 63) mod 2 ^ 64 - 2 ^ 63)%Z.

Definition set_DefaultTTL (x : Z) (c : Collection) : Collection :=
  let '(MkConfig a b d e f g _ h i j) := c_cfg c in set_cfg (MkConfig a b d e f g x h i j) c.

Definition applyPersistedDefaultTTL (secs : Z) (c : Collection) : Collection :=
  if (secs <=? 0)%Z then c
  else set_DefaultTTL (int64_wrap (secs * second)) (set_explicitTTL secs c).

Definition setDefaultTTL (ttl : Z) : CM unit :=
  if (ttl <=? 0)%Z then mret tt
  else
    let secs := (Z.quot ttl second) in
    modify (λ c, set_DefaultTTL (int64_wrap (secs * second)) (set_explicitTTL secs c));;
    c ← obj;
    io (persistMeta (metaPath (c_dir c)) (metaSnapshot c)).

(** The deadline stamped on a record: the explicit instant, else now plus the
    default TTL, else 0 (never). *)
Definition resolveInsertExpiry (c : Collection) (now explicit : Time) : Z :=
  if negb (IsZero explicit) then UnixNano explicit
  else if (0 <? DefaultTTL (c_cfg c))%Z then UnixNano (now + DefaultTTL (c_cfg c))%Z
  else 0%Z.

Definition expired (deadline now : Z) : bool := negb (deadline =? 0)%Z && (deadline <=? now)%Z.

Definition isExpired (loc : IndexEntry) (now : Time) : bool := expired (ie_ExpiresAt loc) (UnixNano now).

(** ** Quotas (engine/quota.go) *)
Definition quotaEnabled (c : Collection) : bool :=
  ((0 <? MaxRecords (c_cfg c))%N || (0 <? MaxBytes (c_cfg c))%N)%bool.

Definition entryQuotaBytes (c : Collection) (e : Entry) : Z :=
  if (MaxBytes (c_cfg c) =? 0)%N then 0
  else match Encode e with Ok b => Z.of_nat (length b) | Err _ => 0 end.

Definition sizeBytesLocked (c : Collection) : Z :=
  foldl (λ total s, total + s_size s)%Z 0%Z (c_sealed c) + s_size (c_active c).

Definition checkQuotaLocked (c : Collection) (newRecords : N) (newBytes : Z) : result unit :=
  if ((0 <? MaxRecords (c_cfg c))%N &&
      (MaxRecords (c_cfg c) <? u64_add (N.of_nat (Len (c_index c))) newRecords)%N)%bool
  then Err ErrResourceExhausted
  else if ((0 <? MaxBytes (c_cfg c))%N &&
      (int64_wrap (Z.of_N (MaxBytes (c_cfg c))) <? sizeBytesLocked c + newBytes)%Z)%bool
  then Err ErrResourceExhausted
  else Ok tt.

(** ** Secondary-index maintenance *)
Definition KeyField : string := "_key".

Definition data_field (data : option doc) (field : string) : option any := data ≫= λ d, d !! field.

(** Whether the data sets the reserved key field. *)
Definition sets_key (data : option doc) : bool := bool_decide (is_Some (data_field data KeyField)).

(** The unique indexes a record's value collides in. *)
Definition sidx_conflicts (sidxs : gmap string SecondaryIndex) (id : N) (data : option doc) : bool :=
  existsb (λ fs : string * SecondaryIndex,
    match data_field data fs.1 with
    | Some val => x_unique fs.2 && conflict fs.2 (toIndexKey val) id
    | None => false
    end) (map_to_list sidxs).

Definition sidxCheckUnique (c : Collection) (id : N) (data : option doc) : result unit :=
  if sidx_conflicts (c_sidxMap c) id data then Err ErrDuplicateKey else Ok tt.

Definition sidxIndexEntry (id : N) (data : option doc) (c : Collection) : Collection :=
  set_sidxMap (map_imap (λ field s,
    Some match data_field data field with Some val => add s val id | None => s end) (c_sidxMap c)) c.

Definition sidxUpdateEntry (id : N) (data : option doc) (c : Collection) : Collection :=
  set_sidxMap (map_imap (λ field s,
    Some match data_field data field with Some val => update s id val | None => remove s id end) (c_sidxMap c)) c.

Definition sidxRemoveEntry (id : N) (c : Collection) : Collection :=
  set_sidxMap ((λ s, remove s id) <$> c_sidxMap c) c.

(** ** Transactions' staged operations *)
Inductive txOpKind := txOpInsert | txOpUpdate | txOpDelete.
#[global] Instance txOpKind_eq_dec : EqDecision txOpKind.
Proof. solve_decision. Defined.

Record txOp := MkTxOp {
  t_kind : txOpKind;
  t_id : N;
  t_data : option doc;
  t_ts : Time
}.

(** [txCheckUnique]: every staged value is checked against the committed data and
    against the values earlier operations of the batch claimed. *)
Definition claim_field (id : N) (data : option doc)
    (acc : result (gmap string (gmap string N))) (fs : string * SecondaryIndex) : result (gmap string (gmap string N)) :=
  claimed ← acc;
  if x_unique fs.2 then
    match data_field data fs.1 with
    | None => Ok claimed
    | Some val =>
        let key := toIndexKey val in
        if conflict fs.2 key id then Err ErrDuplicateKey
        else
          let byVal := default ∅ (claimed !! fs.1) in
          match byVal !! key with
          | Some prev =>
              if (prev =? id)%N then Ok (<[fs.1 := <[key := id]> byVal]> claimed) else Err ErrDuplicateKey
          | None => Ok (<[fs.1 := <[key := id]> byVal]> claimed)
          end
    end
  else Ok claimed.

Fixpoint tx_claims (sidxs : gmap string SecondaryIndex) (claimed : gmap string (gmap string N))
    (ops : list txOp) : result unit :=
  match ops with
  | [] => Ok tt
  | op :: ops =>
      match t_kind op with
      | txOpDelete => tx_claims sidxs claimed ops
      | _ =>
          claimed ← foldl (claim_field (t_id op) (t_data op)) (Ok claimed) (map_to_list sidxs);
          tx_claims sidxs claimed ops
      end
  end.

Definition txCheckUnique (c : Collection) (ops : list txOp) : result unit := tx_claims (c_sidxMap c) ∅ ops.

(** ** Watching *)

(** One subscriber's share of [emit]; the channel takes an event while it has room. *)
Definition has_room (w : watcher) : bool := (Z.of_nat (length (wa_ch w)) <? wa_cap w)%Z.

Definition deliver (ev : WatchEvent) (w : watcher) : watcher :=
  if has_room w then MkWatcher (wa_cap w) (wa_ch w ++ [ev]) (wa_overflowed w)
  else MkWatcher (wa_cap w) (wa_ch w) true.

Definition emit_one (now : Time) (ev : WatchEvent) (w : watcher) : watcher :=
  if wa_overflowed w then
    if has_room w then
      deliver ev (MkWatcher (wa_cap w) (wa_ch w ++ [MkWatchEvent OpOverflow 0 None now]) false)
    else w
  else deliver ev w.

Definition emit (ev : WatchEvent) : CM unit :=
  now ← io now; modify (λ c, set_watchers (emit_one now ev <$> c_watchers c) c).

Definition Subscribe : CM N :=
  c ← obj;
  let id := u64_add (c_watcherIDSeq c) 1 in
  modify (λ c, set_watchers (<[id := MkWatcher (WatchBufferSize (c_cfg c)) [] false]> (c_watchers c))
    (set_watcherIDSeq id c));;
  mret id.

Definition cancel_subscription (id : N) : CM unit := modify (λ c, set_watchers (delete id (c_watchers c)) c).

(** A subscriber takes the next buffered event. *)
Definition receive (w : watcher) : option WatchEvent * watcher :=
  match wa_ch w with
  | [] => (None, w)
  | ev :: ch => (Some ev, MkWatcher (wa_cap w) ch (wa_overflowed w))
  end.

(** ** Shared steps of the write path *)
Definition publishCommit (e : Entry) (c : Collection) : Collection :=
  if c_broker c then set_feed (c_feed c ++ [e]) c else c.

Definition syncActiveLocked : CM unit :=
  c ← obj;
  if bool_decide (cfg_SyncMode (c_cfg c) = Some SyncModeAlways) then with_active Sync else mret tt.

Definition set_sealed_data (e : Entry) (data : option doc) (epoch : N) : Entry :=
  MkEntry (e_ID e) (e_Op e) (e_Ts e) (e_Rev e) data epoch (e_ExpiresAt e) (e_CRC e).

Definition sealEntryData (e : Entry) : CM Entry :=
  c ← obj;
  match c_enc c with
  | None => mret e
  | Some enc =>
      seed ← io rand_seed;
      stored ← lift (enc_encrypt enc seed (e_Data e));
      mret (set_sealed_data e stored (enc_epoch enc))
  end.

(** [c.idSeq.Add(1)]. *)
Definition nextID : CM N :=
  c ← obj; let id := u64_add (c_idSeq c) 1 in modify (set_idSeq id);; mret id.

Definition ReserveID : CM N := nextID.

(** The number of the next segment: one past the highest of the sealed ones. *)
Definition max_segment (dir : string) (segs : list Segment) : N :=
  foldl (λ m s, match seg_number dir (s_path s) with
    | Some n => if (m <? n)%N then n else m
    | None => m
    end) 0%N segs.

Definition rotateSegment : CM unit :=
  with_active Seal;;
  modify (λ c, set_sealed (c_sealed c ++ [c_active c]) c);;
  c ← obj;
  let newPath := segmentPath (c_dir c) (u64_add (max_segment (c_dir c) (c_sealed c)) 1) in
  active ← io (openActiveSegment newPath);
  modify (set_active active);;
  (if bool_decide (cfg_SyncMode (c_cfg c) = Some SyncModeNone) then mret tt else io fsyncDir);;
  c ← obj;
  ignore (io (persistMeta (metaPath (c_dir c)) (metaSnapshot c)));;
  modify (set_compactC true).

Definition maybeRotate : CM unit :=
  c ← obj;
  if (SegmentMaxSize (c_cfg c) <=? s_size (c_active c))%Z then rotateSegment else mret tt.

(** Append an entry that writes a record and index its location. *)
Definition index_write (e : Entry) : CM unit :=
  offset ← with_active (Append e);
  modify (λ c, set_index (Set_ (c_index c) (e_ID e)
    (MkIndexEntry (s_path (c_active c)) offset (e_Rev e) (e_ExpiresAt e) (e_Epoch e))) c).

(** ** Inserting *)
Definition set_ts (e : Entry) (ts : Time) (rev : N) (exp : Z) : Entry :=
  MkEntry (e_ID e) (e_Op e) ts rev (e_Data e) (e_Epoch e) exp (e_CRC e).

(** Evaluate a function of the collection that may fail. *)
Definition checkC {A} (f : Collection → result A) : CM A := c ← obj; lift (f c).

Definition insert_ (data : option doc) (expiresAt : Z) : CM (N * Time) :=
  id ← nextID;
  ts ← io now;
  e ← sealEntryData (set_ts (NewInsert ts id data) ts 1 expiresAt);
  c ← obj;
  let qBytes := entryQuotaBytes c e in
  lift (checkQuotaLocked c 1 qBytes);;
  lift (sidxCheckUnique c id data);;
  index_write e;;
  modify (sidxIndexEntry id data);;
  syncActiveLocked;;
  modify (publishCommit e);;
  maybeRotate;;
  emit (MkWatchEvent OpInsert id data ts);;
  mret (id, ts).

Definition InsertWithExpiry (data : option doc) (expiresAt : Time) : CM (N * Time) :=
  if sets_key data then fail ErrReservedField
  else
    c ← obj; n ← io now;
    insert_ data (resolveInsertExpiry c n expiresAt).

Definition Insert_ (data : option doc) : CM (N * Time) := InsertWithExpiry data zero_time.

(** The entries of a batch, each with the next id, sealed in turn. *)
Fixpoint batch_entries (records : list (option doc)) (ts : Time) (exp : Z) : CM (list Entry) :=
  match records with
  | [] => mret []
  | d :: records =>
      id ← nextID;
      e ← sealEntryData (set_ts (NewInsert ts id d) ts 1 exp);
      es ← batch_entries records ts exp;
      mret (e :: es)
  end.

Definition batch_ops (es : list Entry) (records : list (option doc)) (ts : Time) : list txOp :=
  zip_with (λ e d, MkTxOp txOpInsert (e_ID e) d ts) es records.

Fixpoint batch_write (es : list Entry) (records : list (option doc)) : CM unit :=
  match es, records with
  | e :: es, d :: records => index_write e;; modify (sidxIndexEntry (e_ID e) d);; batch_write es records
  | _, _ => mret tt
  end.

Fixpoint batch_emit (es : list Entry) (records : list (option doc)) (ts : Time) : CM unit :=
  match es, records with
  | e :: es, d :: records => emit (MkWatchEvent OpInsert (e_ID e) d ts);; batch_emit es records ts
  | _, _ => mret tt
  end.

Definition InsertMany (records : list (option doc)) (expiresAt : Time) : CM (list N * Time) :=
  if bool_decide (records = []) then mret ([], zero_time)
  else if existsb sets_key records then fail ErrReservedField
  else
    c ← obj; ts ← io now;
    let exp := resolveInsertExpiry c ts expiresAt in
    entries ← batch_entries records ts exp;
    c ← obj;
    let newBytes := foldl (λ n e, n + entryQuotaBytes c e)%Z 0%Z entries in
    lift (checkQuotaLocked c (N.of_nat (length records)) newBytes);;
    lift (txCheckUnique c (batch_ops entries records ts));;
    batch_write entries records;;
    syncActiveLocked;;
    modify (λ c, foldl (λ c e, publishCommit e c) c entries);;
    maybeRotate;;
    batch_emit entries records ts;;
    mret (e_ID <$> entries, ts).

(** ** Updating and deleting *)
Definition update_ (id : N) (data : option doc) (expiresAt : Z) (keepExpiry : bool) : CM Time :=
  ts ← io now;
  e ← sealEntryData (set_ts (NewUpdate ts id data) ts 0 0);
  c ← obj;
  match Get (c_index c) id with
  | None => fail ErrNotFound
  | Some cur =>
      lift (sidxCheckUnique c id data);;
      let exp := if keepExpiry then ie_ExpiresAt cur else expiresAt in
      let newRev := u64_add (ie_Rev cur) 1 in
      let e := set_ts e ts newRev exp in
      index_write e;;
      modify (sidxUpdateEntry id data);;
      syncActiveLocked;;
      modify (publishCommit e);;
      maybeRotate;;
      emit (MkWatchEvent OpUpdate id data ts);;
      mret ts
  end.

Definition Update_ (id : N) (data : option doc) : CM Time :=
  if sets_key data then fail ErrReservedField else update_ id data 0 true.

Definition UpdateWithExpiry (id : N) (data : option doc) (expiresAt : Time) : CM Time :=
  if sets_key data then fail ErrReservedField
  else c ← obj; n ← io now; update_ id data (resolveInsertExpiry c n expiresAt) false.

Definition Delete (id : N) : CM unit :=
  ts ← io now;
  let e := NewDelete ts id in
  c ← obj;
  match Get (c_index c) id with
  | None => fail ErrNotFound
  | Some _ =>
      with_active (Append e);;
      modify (λ c, sidxRemoveEntry id (set_index (Delete_ (c_index c) id) c));;
      syncActiveLocked;;
      modify (publishCommit e);;
      emit (MkWatchEvent OpDelete id None (e_Ts e))
  end.

(** ** Reading *)
Record Record_ := MkRecord {
  r_ID : N;
  r_Key : string;
  r_Rev : N;
  r_Ts : Time;
  r_Data : option doc
}.

Definition segmentByPath (c : Collection) (path : string) : option Segment :=
  match list_find (λ s, s_path s = path) (c_sealed c) with
  | Some (_, s) => Some s
  | None => if bool_decide (s_path (c_active c) = path) then Some (c_active c) else None
  end.

Definition getStored (id : N) : CM (Entry * IndexEntry) :=
  c ← obj; n ← io now;
  match Get (c_index c) id with
  | None => fail ErrNotFound
  | Some loc =>
      if isExpired loc n then fail ErrNotFound
      else
        match segmentByPath c (ie_SegmentPath loc) with
        | None => fail ErrOther
        | Some seg => e ← io (ReadAt seg (ie_Offset loc)); mret (e, loc)
        end
  end.

Definition materialize (c : Collection) (data : option doc) : result (option doc) :=
  match c_enc c with None => Ok data | Some enc => enc_materialize enc data [] end.

Definition key_of (data : option doc) : string :=
  match data_field data KeyField with Some (VStr s) => s | _ => "" end.

Definition GetRecord (id : N) : CM Record_ :=
  el ← getStored id;
  c ← obj;
  data ← lift (materialize c (e_Data el.1));
  mret (MkRecord id (key_of data) (ie_Rev el.2) (e_Ts el.1) data).

Definition FindByID (id : N) : CM (option doc * Time) :=
  rec ← GetRecord id; mret (r_Data rec, r_Ts rec).

(** ** Secondary-index management *)
Definition all_segments (c : Collection) : list Segment := c_sealed c ++ [c_active c].

Section ensure_index.
Context {sha : Sha256}.

Definition ensureIndex (field : string) (unique : bool) : CM unit :=
  c ← obj;
  if match c_enc c with Some enc => enc_isEncryptedField enc field | None => false end
  then fail ErrFieldEncrypted
  else
    match c_sidxMap c !! field with
    | Some _ => mret tt
    | None =>
        modify (λ c, set_sidxMap (<[field := newSecondaryIndex field unique]> (c_sidxMap c)) c);;
        (λ '(c, w),
          match rebuild (newSecondaryIndex field unique) (all_segments c) w with
          | (Ok s, w) =>
              io (SecIndex.Persist s (sidxFilePath (c_dir c) field))
                (set_sidxMap (<[field := s]> (c_sidxMap c)) c, w)
          | (Err e, w) => (Err e, (set_sidxMap (delete field (c_sidxMap c)) c, w))
          end) : CM unit
    end.

Definition EnsureIndex (field : string) : CM unit := ensureIndex field false.
Definition EnsureUniqueIndex (field : string) : CM unit := ensureIndex field true.
End ensure_index.

Definition DropIndex (field : string) : CM unit :=
  c ← obj;
  match c_sidxMap c !! field with
  | None => fail ErrOther
  | Some _ =>
      modify (λ c, set_sidxMap (delete field (c_sidxMap c)) c);;
      ignore (io (remove_file (sidxFilePath (c_dir c) field)))
  end.

Definition ListIndexes (c : Collection) : list string := (sorted_pairs (c_sidxMap c)).*1.

Definition IndexLookup (c : Collection) (field value : string) : option (list N) :=
  (λ s, Lookup s value) <$> c_sidxMap c !! field.

Definition indexRangeLookup (c : Collection) (field : string) (op : Op) (val : any) : option (list N) :=
  s ← c_sidxMap c !! field; LookupRange s op val.

(** ** String keys (engine/keys.go) *)
Definition stampKey (data : option doc) (key : string) : option doc :=
  Some (<[KeyField := VStr key]> (default ∅ data)).

Definition resolveKey (c : Collection) (key : string) : result N :=
  match IndexLookup c KeyField key with
  | Some (id :: _) => Ok id
  | _ => Err ErrKeyNotFound
  end.

Section keys.
Context {sha : Sha256}.

Definition ensureKeyIndex : CM unit := EnsureUniqueIndex KeyField.

Definition InsertWithKey (key : string) (data : option doc) : CM (N * Time) :=
  if sets_key data then fail ErrReservedField
  else
    ensureKeyIndex;;
    c ← obj; n ← io now;
    insert_ (stampKey data key) (resolveInsertExpiry c n zero_time).

(** The entry an upsert is about to write: a replacement of the record that
    carries the key, or a fresh record. *)
Definition upsert_target (key : string) (stamped : option doc) (ts : Time) : CM (Entry * bool) :=
  c ← obj;
  let replace :=
    match IndexLookup c KeyField key with
    | Some (id :: _) => (λ cur, (id, cur)) <$> Get (c_index c) id
    | _ => None
    end in
  match replace with
  | Some (id, cur) =>
      mret (set_ts (NewUpdate ts id stamped) ts (u64_add (ie_Rev cur) 1) (ie_ExpiresAt cur), false)
  | None =>
      id ← nextID;
      mret (set_ts (NewInsert ts id stamped) ts 1 (resolveInsertExpiry c ts zero_time), true)
  end.

Definition Upsert (key : string) (data : option doc) : CM Record_ :=
  if sets_key data then fail ErrReservedField
  else
    ensureKeyIndex;;
    let stamped := stampKey data key in
    ts ← io now;
    eb ← upsert_target key stamped ts;
    let '(e, inserting) := eb in
    c ← obj;
    (if inserting : bool then lift (checkQuotaLocked c 1 (entryQuotaBytes c e)) else mret tt);;
    lift (sidxCheckUnique c (e_ID e) stamped);;
    e ← sealEntryData e;
    index_write e;;
    modify (if inserting : bool then sidxIndexEntry (e_ID e) stamped else sidxUpdateEntry (e_ID e) stamped);;
    syncActiveLocked;;
    modify (publishCommit e);;
    maybeRotate;;
    emit (MkWatchEvent (e_Op e) (e_ID e) stamped ts);;
    mret (MkRecord (e_ID e) key (e_Rev e) ts stamped).
End keys.

Definition FindByKey (key : string) : CM (option doc * Time) :=
  id ← checkC (λ c, resolveKey c key); FindByID id.

Definition GetByKey (key : string) : CM Record_ :=
  id ← checkC (λ c, resolveKey c key); GetRecord id.

Definition UpdateByKey (key : string) (data : option doc) : CM Time :=
  if sets_key data then fail ErrReservedField
  else id ← checkC (λ c, resolveKey c key); update_ id (stampKey data key) 0 true.

Definition DeleteByKey (key : string) : CM unit :=
  id ← checkC (λ c, resolveKey c key); Delete id.

Definition Exists (c : Collection) (key : string) : bool :=
  match IndexLookup c KeyField key with Some (_ :: _) => true | _ => false end.

(** ** Compare-and-swap *)
Definition compareAndSwap (key : string) (data : option doc) (ok : option doc → N → bool) : CM bool :=
  ts ← io now;
  c ← obj;
  match IndexLookup c KeyField key with
  | Some (id :: _) =>
      match Get (c_index c) id with
      | None => mret false
      | Some loc =>
          match segmentByPath c (ie_SegmentPath loc) with
          | None => fail ErrOther
          | Some seg =>
              curEntry ← io (ReadAt seg (ie_Offset loc));
              curData ← lift (materialize c (e_Data curEntry));
              if ok curData (ie_Rev loc) then
                let stamped := stampKey data key in
                lift (sidxCheckUnique c id stamped);;
                e ← sealEntryData (set_ts (NewUpdate ts id stamped) ts (u64_add (ie_Rev loc) 1) (ie_ExpiresAt loc));
                index_write e;;
                modify (sidxUpdateEntry id stamped);;
                syncActiveLocked;;
                modify (publishCommit e);;
                maybeRotate;;
                emit (MkWatchEvent OpUpdate id stamped ts);;
                mret true
              else mret false
          end
      end
  | _ => mret false
  end.

Definition UpdateIfRev (key : string) (expectedRev : N) (data : option doc) : CM bool :=
  if sets_key data then fail ErrReservedField
  else compareAndSwap key data (λ _ curRev, (curRev =? expectedRev)%N).

Definition UpdateIfMatch (key : string) (pred : option doc → bool) (data : option doc) : CM bool :=
  if sets_key data then fail ErrReservedField
  else compareAndSwap key data (λ cur _, pred cur).

(** ** Committing a transaction *)
Definition tx_targets_exist (c : Collection) (ops : list txOp) : bool :=
  forallb (λ op, match t_kind op with
    | txOpInsert => true
    | _ => bool_decide (is_Some (Get (c_index c) (t_id op)))
    end) ops.

(** The records and bytes the inserts of a batch would add. *)
Definition tx_quota (c : Collection) (now : Time) (ops : list txOp) : N * Z :=
  foldl (λ acc op,
    match t_kind op with
    | txOpInsert =>
        ((acc.1 + 1)%N, (acc.2 + entryQuotaBytes c
          (set_ts (NewInsert now (t_id op) (t_data op)) (t_ts op) 1 (resolveInsertExpiry c now zero_time)))%Z)
    | _ => acc
    end) (0%N, 0%Z) ops.

Fixpoint tx_seal (enc : option encryptor) (ops : list txOp) : CM (list (option doc)) :=
  match ops with
  | [] => mret []
  | op :: ops =>
      d ← match t_kind op, enc with
          | txOpDelete, _ => mret None
          | _, None => mret (t_data op)
          | _, Some enc => seed ← io rand_seed; lift (enc_encrypt enc seed (t_data op))
          end;
      ds ← tx_seal enc ops;
      mret (d :: ds)
  end.

(** One staged operation applied: the entry committed and its event. *)
Definition tx_apply (txEpoch : N) (now : Time) (op : txOp) (sealed : option doc) : CM (Entry * WatchEvent) :=
  c ← obj;
  match t_kind op with
  | txOpInsert =>
      let e := set_sealed_data (set_ts (NewInsert now (t_id op) sealed) (t_ts op) 1
        (resolveInsertExpiry c now zero_time)) sealed txEpoch in
      index_write e;;
      modify (sidxIndexEntry (t_id op) (t_data op));;
      mret (e, MkWatchEvent OpInsert (t_id op) (t_data op) (t_ts op))
  | txOpUpdate =>
      let '(newRev, exp) :=
        match Get (c_index c) (t_id op) with
        | Some cur => (u64_add (ie_Rev cur) 1, ie_ExpiresAt cur)
        | None => (1%N, 0%Z)
        end in
      let e := set_sealed_data (set_ts (NewUpdate now (t_id op) sealed) (t_ts op) newRev exp) sealed txEpoch in
      index_write e;;
      modify (sidxUpdateEntry (t_id op) (t_data op));;
      mret (e, MkWatchEvent OpUpdate (t_id op) (t_data op) (t_ts op))
  | txOpDelete =>
      let e := set_ts (NewDelete now (t_id op)) (t_ts op) 0 0 in
      with_active (Append e);;
      modify (λ c, sidxRemoveEntry (t_id op) (set_index (Delete_ (c_index c) (t_id op)) c));;
      mret (e, MkWatchEvent OpDelete (t_id op) None (t_ts op))
  end.

Fixpoint tx_apply_all (txEpoch : N) (now : Time) (ops : list txOp) (sealed : list (option doc))
    : CM (list (Entry * WatchEvent)) :=
  match ops, sealed with
  | op :: ops, d :: sealed =>
      x ← tx_apply txEpoch now op d;
      xs ← tx_apply_all txEpoch now ops sealed;
      mret (x :: xs)
  | _, _ => mret []
  end.

Fixpoint emit_all (evs : list WatchEvent) : CM unit :=
  match evs with [] => mret tt | ev :: evs => emit ev;; emit_all evs end.

Definition CommitTx (ops : list txOp) : CM unit :=
  if bool_decide (ops = []) then mret tt
  else
    c ← obj; n ← io now;
    if negb (tx_targets_exist c ops) then fail ErrOther
    else
      lift (txCheckUnique c ops);;
      (let '(newRecords, newBytes) := tx_quota c n ops in
       if (quotaEnabled c && (0 <? newRecords)%N)%bool
       then lift (checkQuotaLocked c newRecords newBytes) else mret tt);;
      let txEpoch := match c_enc c with Some enc => enc_epoch enc | None => 0%N end in
      sealed ← tx_seal (c_enc c) ops;
      done ← tx_apply_all txEpoch n ops sealed;
      syncActiveLocked;;
      modify (λ c, foldl (λ c e, publishCommit e c) c done.*1);;
      maybeRotate;;
      emit_all done.*2;;
      if existsb (λ op, match t_kind op with txOpInsert => (0 <? t_id op)%N | _ => false end) ops
      then c ← obj; ignore (io (persistMeta (metaPath (c_dir c)) (metaSnapshot c)))
      else mret tt.

(** ** Reaping expired records (engine/ttl.go) *)
Definition expired_ids (c : Collection) (now : Z) : list N :=
  (filter (λ kv : N * IndexEntry, expired (ie_ExpiresAt kv.2) now = true) (map_to_list (c_index c))).*1.

Fixpoint reap_ids (now : Time) (ids : list N) : CM (list WatchEvent) :=
  match ids with
  | [] => mret []
  | id :: ids =>
      c ← obj;
      match Get (c_index c) id with
      | Some loc =>
          if expired (ie_ExpiresAt loc) (UnixNano now) then
            with_active (Append (NewDelete now id));;
            modify (λ c, sidxRemoveEntry id (set_index (Delete_ (c_index c) id) c));;
            evs ← reap_ids now ids;
            mret (MkWatchEvent OpDelete id None now :: evs)
          else reap_ids now ids
      | None => reap_ids now ids
      end
  end.

Definition reapExpired : CM unit :=
  c ← obj; n ← io now;
  let ids := expired_ids c (UnixNano n) in
  if bool_decide (ids = []) then mret tt
  else
    evs ← reap_ids n ids;
    syncActiveLocked;;
    maybeRotate;;
    emit_all evs.

(** ** Statistics and shutdown *)
Record CollectionStats := MkStats {
  st_Name : string;
  st_RecordCount : N;
  st_SegmentCount : N;
  st_DirtyEntries : N;
  st_SizeBytes : Z
}.

Definition Stats (c : Collection) : CollectionStats :=
  MkStats (c_name c) (N.of_nat (Len (c_index c))) (N.of_nat (length (c_sealed c) + 1)) 0 (sizeBytesLocked c).

Section close.
Context {sha : Sha256}.

Fixpoint persist_sidxs (dir : string) (l : list (string * SecondaryIndex)) : M unit :=
  match l with
  | [] => mret tt
  | (field, s) :: l => ignore (SecIndex.Persist s (sidxFilePath dir field));; persist_sidxs dir l
  end.

Definition CloseCollection : CM unit :=
  modify (λ c, set_closeDone true (set_closed true c));;
  with_active Close;;
  c ← obj;
  io (Index.Persist (c_index c) (indexPath (c_dir c)));;
  io (persist_sidxs (c_dir c) (map_to_list (c_sidxMap c)));;
  io (persistMeta (metaPath (c_dir c)) (metaSnapshot c)).
End close.

(** The interval flush of [syncLoop]. *)
Definition sync_tick : CM unit := ignore (with_active Sync).
