(* ===== verification/Steps.v ===== *)
(** * What the steps of an operation leave alone

    Two facts about operations of a collection are proved step by step, in every
    world and whatever the outcome: that a component of the collection keeps its
    value ([keeps]), and that only files of the collection's own directory change
    ([local]).  The tactics walk through the sequence of steps. *)

From S2P Require Import Prelude GoTime Value Store Disk Segment Index SecIndex Meta Collection.

(** ** Components of the collection *)
Definition keeps {X A} (π : Collection → X) (m : CM A) : Prop := ∀ c w, π (m (c, w)).2.1 = π c.

Section keeps.
Context {X : Type} (π : Collection → X).

Lemma keeps_bind {A B} (m : CM A) (f : A → CM B) : keeps π m → (∀ a, keeps π (f a)) → keeps π (m ≫= f).
Proof.
  intros Hm Hf c w. unfold mbind, SE_bind. specialize (Hm c w). destruct (m (c, w)) as [[a|e] [c' w']]; simpl in *.
  - by rewrite Hf.
  - done.
Qed.
Lemma keeps_io {A} (m : M A) : keeps π (io m).
Proof. intros c w. unfold io. by destruct (m w). Qed.
Lemma keeps_modify f : (∀ c, π (f c) = π c) → keeps π (modify f).
Proof. intros H c w. apply H. Qed.
Lemma keeps_with_active {A} (m : SE (Segment * World) A) : (∀ s c, π (set_active s c) = π c) → keeps π (with_active m).
Proof. intros H c w. unfold with_active. destruct (m (c_active c, w)) as [r [s w']]. apply H. Qed.
Lemma keeps_ignore {A} (m : CM A) : keeps π m → keeps π (ignore m).
Proof. intros H c w. apply H. Qed.
Lemma keeps_ret {A} (a : A) : keeps π (mret a).
Proof. done. Qed.
Lemma keeps_obj : keeps π obj.
Proof. done. Qed.
Lemma keeps_lift {A} (r : result A) : keeps π (lift r).
Proof. done. Qed.
Lemma keeps_fail {A} e : keeps π (@fail _ A e).
Proof. done. Qed.
Lemma keeps_run {A} (m : CM A) c w r c' w' : keeps π m → m (c, w) = (r, (c', w')) → π c' = π c.
Proof. intros H E. specialize (H c w). by rewrite E in H. Qed.
End keeps.

(** Walk through the steps of an operation, for a component that is a field. *)
Ltac keeps_field := by intros [].
Ltac keeps := repeat match goal with
  | |- keeps _ (_ ≫= _) => apply keeps_bind; [|intros ?]
  | |- keeps _ (io _) => apply keeps_io
  | |- keeps _ (with_active _) => apply keeps_with_active; by intros ? []
  | |- keeps _ (ignore _) => apply keeps_ignore
  | |- keeps _ (mret _) => apply keeps_ret
  | |- keeps _ obj => apply keeps_obj
  | |- keeps _ (lift _) => apply keeps_lift
  | |- keeps _ (fail _) => apply keeps_fail
  | |- keeps _ (modify (publishCommit _)) =>
      let c := fresh in apply keeps_modify; intros c; unfold publishCommit; destruct (c_broker c); by destruct c
  | |- keeps _ (modify _) => apply keeps_modify; keeps_field
  | |- keeps _ (match ?x with _ => _ end) => destruct x
  | |- keeps _ nextID => unfold nextID
  | |- keeps _ (sealEntryData _) => unfold sealEntryData
  | |- keeps _ (index_write _) => unfold index_write
  | |- keeps _ syncActiveLocked => unfold syncActiveLocked
  | |- keeps _ maybeRotate => unfold maybeRotate, rotateSegment
  | |- keeps _ rotateSegment => unfold rotateSegment
  | |- keeps _ (emit _) => unfold emit
  end.

(** One step of a successful run, which leaves the component [π] alone. *)
Ltac peel π H :=
  let E := fresh "E" in
  apply bind_inv_ok in H as (? & [? ?] & E & H);
  apply (keeps_run π) in E; [|solve [keeps]].

(** A step that changes it. *)
Ltac peel_modify H := apply bind_inv_ok in H as ([] & [? ?] & [= <- <-] & H).

(** ** Files *)

(** A routine that changes only files in [P]. *)
Definition touches {A} (P : string → Prop) (m : M A) : Prop :=
  ∀ w p, ¬ P p → w_files (m w).2 !! p = w_files w !! p.

Section touches.
Context (P : string → Prop).

Lemma touches_bind {A B} (m : M A) (f : A → M B) : touches P m → (∀ a, touches P (f a)) → touches P (m ≫= f).
Proof.
  intros Hm Hf w p Hp. unfold mbind, SE_bind. specialize (Hm w p Hp). destruct (m w) as [[a|e] w']; simpl in *; [|done].
  by rewrite Hf.
Qed.
Lemma touches_ret {A} (a : A) : touches P (mret a).
Proof. done. Qed.
Lemma touches_lift {A} (r : result A) : touches P (lift r).
Proof. done. Qed.
Lemma touches_fail {A} e : touches P (@fail _ A e).
Proof. done. Qed.
Lemma touches_ignore {A} (m : M A) : touches P m → touches P (ignore m).
Proof. intros H w p. apply H. Qed.
Lemma touches_now : touches P now.
Proof. done. Qed.
Lemma touches_rand : touches P rand_seed.
Proof. done. Qed.
Lemma touches_outcome : touches P outcome.
Proof. intros w p _. unfold outcome. by case_match. Qed.
Lemma touches_syscall : touches P syscall.
Proof. apply touches_bind; [apply touches_outcome|]. by intros [|]. Qed.
Lemma touches_file_bytes q : touches P (file_bytes q).
Proof. done. Qed.
Lemma touches_put_file q b : P q → touches P (put_file q b).
Proof. intros Hq w p Hp. simpl. rewrite lookup_insert_ne; [done|]. by intros ->. Qed.
Lemma touches_create q : P q → touches P (create_file q).
Proof. intros Hq w p Hp. unfold create_file. case_match; [done|]. simpl. rewrite lookup_insert_ne; [done|]. by intros ->. Qed.
Lemma touches_unlink q : P q → touches P (unlink_file q).
Proof. intros Hq w p Hp. unfold unlink_file. case_match; [|done]. simpl. rewrite lookup_delete_ne; [done|]. by intros ->. Qed.
Lemma touches_move q q' : P q → P q' → touches P (move_file q q').
Proof.
  intros Hq Hq' w p Hp. unfold move_file. case_match; [|done]. simpl.
  rewrite lookup_insert_ne, lookup_delete_ne; [done|by intros ->..].
Qed.
Lemma touches_append_bytes q b o : P q → touches P (append_bytes q b o).
Proof. intros Hq w p Hp. unfold append_bytes. case_match; simpl; (rewrite lookup_insert_ne; [done|by intros ->]). Qed.
End touches.

Create HintDb files.
#[export] Hint Resolve touches_ret touches_lift touches_fail touches_now touches_rand touches_outcome touches_syscall touches_file_bytes : files.

(** Walk through a routine of the file system. *)
Ltac touch := repeat first
  [ match goal with
    | |- touches _ (_ ≫= _) => apply touches_bind; [|intros ?]
    | |- touches _ (put_file _ _) => apply touches_put_file; done
    | |- touches _ (create_file _) => apply touches_create; done
    | |- touches _ (unlink_file _) => apply touches_unlink; done
    | |- touches _ (move_file _ _) => apply touches_move; done
    | |- touches _ (append_bytes _ _ _) => apply touches_append_bytes; done
    | |- touches _ (ignore _) => apply touches_ignore
    | |- touches _ (match ?x with _ => _ end) => destruct x
    end
  | solve [eauto with files] ].

Lemma touches_remove P q : P q → touches P (remove_file q).
Proof. intros Hq. unfold remove_file. touch. Qed.
Lemma touches_truncate P q n : P q → touches P (truncate_file q n).
Proof. intros Hq. unfold truncate_file. touch. Qed.
Lemma touches_append P q b : P q → touches P (append_file q b).
Proof. intros Hq. unfold append_file. touch. Qed.
Lemma touches_rename P q q' : P q → P q' → touches P (rename_file q q').
Proof. intros Hq Hq'. unfold rename_file. touch. Qed.
Lemma touches_pread P q o n : touches P (pread q o n).
Proof. unfold pread. touch. Qed.
Lemma touches_read P q : touches P (read_file q).
Proof. unfold read_file. touch. Qed.
#[export] Hint Resolve touches_remove touches_truncate touches_append touches_rename touches_pread touches_read : files.

Lemma touches_or_remove P q m : P q → touches P m → touches P (or_remove q m).
Proof.
  intros Hq Hm w p Hp. unfold or_remove. specialize (Hm w p Hp). destruct (m w) as [[[]|e] w']; simpl in *; [done|].
  by rewrite (touches_remove P q Hq w' p Hp).
Qed.
Lemma touches_fsyncDir P : touches P fsyncDir.
Proof.
  unfold fsyncDir. apply touches_bind; [apply touches_syscall|]. intros _ w1 p1 Hp1.
  unfold get, put, mbind, SE_bind, lift. pose proof (touches_syscall P w1 p1 Hp1) as H1.
  destruct (syscall w1) as [r1 w2]. pose proof (touches_syscall P w2 p1 Hp1) as H2. destruct (syscall w2) as [r2 w3]. simpl in *.
  destruct r1; simpl; by rewrite H2.
Qed.
Lemma touches_writeFileAtomic P q b : P q → P (q +:+ ".tmp") → touches P (writeFileAtomic q b).
Proof.
  intros Hq Ht. unfold writeFileAtomic. touch; try (apply touches_or_remove; [done|]); eauto using touches_fsyncDir with files.
Qed.
#[export] Hint Resolve touches_fsyncDir touches_writeFileAtomic : files.

Lemma touches_recover_loop P fuel q size off : P q → touches P (recover_loop fuel q size off).
Proof. intros Hq. revert off. induction fuel as [|fuel IH]; intros off; cbn [recover_loop]; touch. Qed.
#[export] Hint Resolve touches_recover_loop : files.
Lemma touches_recoverPartialLine P q : P q → touches P (recoverPartialLine q).
Proof. intros Hq. unfold recoverPartialLine. touch. Qed.
#[export] Hint Resolve touches_recoverPartialLine : files.
Lemma touches_openActiveSegment P q : P q → touches P (openActiveSegment q).
Proof. intros Hq. unfold openActiveSegment. touch. Qed.
#[export] Hint Resolve touches_openActiveSegment : files.

(** Operations of a segment change its own file only. *)
Definition seg_touches {A} (m : SE (Segment * World) A) : Prop :=
  ∀ s w, s_path (m (s, w)).2.1 = s_path s ∧
    ∀ p, p ≠ s_path s → w_files (m (s, w)).2.2 !! p = w_files w !! p.

Lemma seg_touches_bind {A B} (m : SE (Segment * World) A) (f : A → SE (Segment * World) B) :
  seg_touches m → (∀ a, seg_touches (f a)) → seg_touches (m ≫= f).
Proof.
  intros Hm Hf s w. unfold mbind, SE_bind. specialize (Hm s w).
  destruct (m (s, w)) as [[a|e] [s' w']]; simpl in *; [|done]. destruct Hm as [H1 H2], (Hf a s' w') as [H3 H4].
  split; [congruence|]. intros p Hp. rewrite H4 by congruence. by apply H2.
Qed.
Lemma seg_touches_obj {B} (f : Segment → SE (Segment * World) B) :
  (∀ s w, s_path (f s (s, w)).2.1 = s_path s ∧ ∀ p, p ≠ s_path s → w_files (f s (s, w)).2.2 !! p = w_files w !! p) →
  seg_touches (obj ≫= f).
Proof. intros H s w. apply H. Qed.

(** The file system call of an operation, when its handle is open. *)
Lemma on_handle_touches h (m : M unit) (s : Segment) w :
  touches (λ p, p = s_path s) m → (on_handle h m (s, w)).2.1 = s ∧
    ∀ p, p ≠ s_path s → w_files (on_handle h m (s, w)).2.2 !! p = w_files w !! p.
Proof.
  intros Hm. unfold on_handle, io. case_bool_decide; [|done]. specialize (Hm w).
  destruct (m w) as [r w']. split; [done|]. intros p Hp. by apply Hm.
Qed.

#[local] Arguments on_handle : simpl never.

Lemma Append_touches e : seg_touches (Append e).
Proof.
  apply seg_touches_obj. intros s w. destruct (s_sealed s); [done|].
  unfold mbind, SE_bind, lift. destruct (Encode e) as [b|]; [|done]. destruct (maxScanTokenSize <? _)%Z; [done|].
  destruct (on_handle_touches (s_file s) (append_file (s_path s) b) s w) as [H1 H2]; [by apply touches_append|].
  destruct (on_handle _ _ (s, w)) as [[[]|e'] [s' w']]; simpl in *; [by split|split; [by subst|done]].
Qed.

Lemma Sync_touches : seg_touches Sync.
Proof.
  apply seg_touches_obj. intros s w. destruct (_ || _)%bool; [done|].
  destruct (on_handle_touches (s_file s) syscall s w) as [H1 H2]; [apply touches_syscall|]. split; [by rewrite H1|done].
Qed.

Lemma Seal_touches : seg_touches Seal.
Proof.
  apply seg_touches_obj. intros s w. destruct (s_sealed s); [done|].
  unfold set_obj, mbind, SE_bind. case_bool_decide; [done|]. cbn [fst snd]. set (s1 := MkSegment _ _ _ (s_file s)).
  destruct (on_handle_touches (s_file s) syscall s1 w) as [H1 H2]; [apply touches_syscall|].
  destruct (on_handle _ _ (s1, w)) as [[[]|e] [s' w']]; simpl in *; [|split; [by subst|done]].
  set (s2 := MkSegment _ _ _ _). destruct (on_handle_touches (s_file s) syscall s2 w') as [H3 H4]; [apply touches_syscall|].
  destruct (on_handle _ _ (s2, w')) as [[[]|e] [s'' w'']]; simpl in *; subst; (split; [done|]);
    intros p Hp; rewrite H4 by done; by apply H2.
Qed.

Lemma Close_touches : seg_touches Close.
Proof.
  apply seg_touches_obj. intros s w. case_bool_decide; [done|].
  destruct (on_handle_touches (s_file s) syscall s w) as [H1 H2]; [apply touches_syscall|].
  unfold set_obj, mbind, SE_bind. destruct (on_handle _ _ (s, w)) as [[[]|e] [s' w']]; simpl in *; [|split; [by subst|done]].
  set (s2 := MkSegment _ _ _ _). destruct (on_handle_touches (s_file s) syscall s2 w') as [H3 H4]; [apply touches_syscall|].
  destruct (on_handle _ _ (s2, w')) as [r [s'' w'']]; simpl in *; subst. split; [done|].
  intros p Hp; rewrite H4 by done; by apply H2.
Qed.
#[export] Hint Resolve Append_touches Sync_touches Seal_touches Close_touches : files.

(** ** Operations of a collection stay in its directory *)
Definition in_dir (dir p : string) : Prop := ∃ f, p = join dir f.

(** The directory of a collection and the place of its segments. *)
Definition at_home (dir : string) (c : Collection) : Prop :=
  c_dir c = dir ∧ Forall (λ s, in_dir dir (s_path s)) (c_active c :: c_sealed c).

Lemma at_home_active dir c : at_home dir c → in_dir dir (s_path (c_active c)).
Proof. intros [_ H]. by apply Forall_cons in H as [? _]. Qed.
Lemma at_home_sealed dir c : at_home dir c → Forall (λ s, in_dir dir (s_path s)) (c_sealed c).
Proof. intros [_ H]. by apply Forall_cons in H as [_ ?]. Qed.

Definition local {A} (dir : string) (m : CM A) : Prop :=
  ∀ c w, at_home dir c → at_home dir (m (c, w)).2.1 ∧
    ∀ p, ¬ in_dir dir p → w_files (m (c, w)).2.2 !! p = w_files w !! p.

Section local.
Context (dir : string).

Lemma local_bind {A B} (m : CM A) (f : A → CM B) : local dir m → (∀ a, local dir (f a)) → local dir (m ≫= f).
Proof.
  intros Hm Hf c w Hc. unfold mbind, SE_bind. specialize (Hm c w Hc).
  destruct (m (c, w)) as [[a|e] [c' w']]; simpl in *; [|done]. destruct Hm as [H1 H2], (Hf a c' w' H1) as [H3 H4].
  split; [done|]. intros p Hp. rewrite H4 by done. by apply H2.
Qed.
Lemma local_obj {B} (f : Collection → CM B) : (∀ c, at_home dir c → local dir (f c)) → local dir (obj ≫= f).
Proof. intros H c w Hc. by apply H. Qed.
Lemma local_io {A} (m : M A) : touches (in_dir dir) m → local dir (io m).
Proof. intros Hm c w Hc. unfold io. specialize (Hm w). by destruct (m w). Qed.
Lemma local_modify f : (∀ c, at_home dir c → at_home dir (f c)) → local dir (modify f).
Proof. intros Hf c w Hc. split; [by apply Hf|done]. Qed.
Lemma local_with_active {A} (m : SE (Segment * World) A) : seg_touches m → local dir (with_active m).
Proof.
  intros Hm c w [Hd [Ha Hs]%Forall_cons]. unfold with_active. destruct (Hm (c_active c) w) as [H1 H2].
  destruct (m (c_active c, w)) as [r [s w']]. simpl in *. split; [destruct c; split; simpl in *; [done|constructor; [by rewrite H1|done]]|].
  intros p Hp. apply H2. by intros ->.
Qed.
Lemma local_open {B} q (f : Segment → CM B) :
  in_dir dir q → (∀ s, in_dir dir (s_path s) → local dir (f s)) → local dir (io (openActiveSegment q) ≫= f).
Proof.
  intros Hq Hf c w Hc. unfold mbind, SE_bind, io. pose proof (touches_openActiveSegment (in_dir dir) q Hq w) as Ho.
  destruct (openActiveSegment q w) as [[s|e] w'] eqn:E; simpl in *; [|done].
  assert (s_path s = q) as Hs.
  { unfold openActiveSegment in E. repeat (apply bind_inv_ok in E as (? & ? & _ & E)). by injection E as <- _. }
  destruct (Hf s ltac:(by rewrite Hs) c w' Hc) as [H1 H2]. split; [done|]. intros p Hp. rewrite H2 by done. by apply Ho.
Qed.
Lemma local_set_active s : in_dir dir (s_path s) → local dir (modify (set_active s)).
Proof. intros Hs. apply local_modify. intros c [Hd [_ Hse]%Forall_cons]. destruct c. by split; [|constructor]. Qed.
Lemma local_ignore {A} (m : CM A) : local dir m → local dir (ignore m).
Proof. intros H c w Hc. by apply H. Qed.
Lemma local_ret {A} (a : A) : local dir (mret a).
Proof. done. Qed.
Lemma local_lift {A} (r : result A) : local dir (lift r).
Proof. done. Qed.
Lemma local_fail {A} e : local dir (@fail _ A e).
Proof. done. Qed.
End local.

Lemma in_dir_join dir f : in_dir dir (join dir f).
Proof. by exists f. Qed.
Lemma in_dir_app dir p s : in_dir dir p → in_dir dir (p +:+ s).
Proof.
  intros [f ->]. exists (f +:+ s). apply (inj to_bytes). unfold join. by rewrite !to_bytes_app, <-!app_assoc.
Qed.
Lemma in_dir_segment dir n : in_dir dir (segmentPath dir n).
Proof. apply in_dir_join. Qed.
Lemma in_dir_meta dir : in_dir dir (metaPath dir).
Proof. apply in_dir_join. Qed.
Lemma in_dir_index dir : in_dir dir (indexPath dir).
Proof. apply in_dir_join. Qed.
Lemma in_dir_sidx dir field : in_dir dir (sidxFilePath dir field).
Proof. by exists ("sidx_" +:+ field +:+ ".json"). Qed.
#[export] Hint Resolve in_dir_join in_dir_app in_dir_segment in_dir_meta in_dir_index in_dir_sidx : files.

Lemma touches_persistMeta dir m : touches (in_dir dir) (persistMeta (metaPath dir) m).
Proof. unfold persistMeta. touch. Qed.
Lemma touches_rebuild P s segs : touches P (rebuild s segs).
Proof.
  unfold rebuild. apply touches_bind; [|intros ?; touch]. generalize (∅ : gmap N (option doc)).
  induction segs as [|x segs IH]; intros m; cbn [rebuild_latest]; [touch|].
  apply touches_bind; [unfold ScanAll; touch|intros ?; apply IH].
Qed.
Lemma touches_ReadAt P s o : touches P (ReadAt s o).
Proof. unfold ReadAt. touch. Qed.
#[export] Hint Resolve touches_persistMeta touches_rebuild touches_ReadAt : files.

(** Walk through an operation of a collection. *)
Ltac at_home := let H1 := fresh in let H2 := fresh in intros [] [H1 H2]; by split.
Ltac home_step :=
  match goal with
  | |- local _ (io (openActiveSegment _) ≫= _) => apply local_open; [by eauto with files|intros ??]
  | |- local _ (obj ≫= _) => let H := fresh in apply local_obj; intros ? [H ?]; rewrite ?H; clear H
  | |- local _ (_ ≫= _) => apply local_bind; [|intros ?]
  | |- local _ (io _) => apply local_io; solve [touch]
  | |- local _ (with_active _) => apply local_with_active; by eauto with files
  | |- local _ (ignore _) => apply local_ignore
  | |- local _ (mret _) => apply local_ret
  | |- local _ (lift _) => apply local_lift
  | |- local _ (fail _) => apply local_fail
  | |- local _ (modify (set_active _)) => apply local_set_active; assumption
  | |- local _ (modify (match ?x with _ => _ end)) => destruct x
  | |- local _ (modify _) => apply local_modify; solve [at_home]
  | |- local _ (match ?x with _ => _ end) => destruct x
  | _ => solve [eauto with files]
  end.
Ltac stay_home := cbv zeta; repeat (home_step; cbv zeta).

Section operations.
Context (dir : string).

Lemma local_publish e : local dir (modify (publishCommit e)).
Proof. apply local_modify. intros c Hc. unfold publishCommit. destruct (c_broker c); [|done]. by destruct c. Qed.
Lemma local_publish_all es : local dir (modify (λ c, foldl (λ c e, publishCommit e c) c es)).
Proof.
  apply local_modify. induction es as [|e es IH]; intros c Hc; simpl; [done|]. apply IH.
  unfold publishCommit. destruct (c_broker c); [|done]. by destruct c.
Qed.
Lemma local_emit ev : local dir (emit ev).
Proof. unfold emit. stay_home. Qed.
Lemma local_nextID : local dir nextID.
Proof. unfold nextID. stay_home. Qed.
Lemma local_seal e : local dir (sealEntryData e).
Proof. unfold sealEntryData. stay_home. Qed.
Lemma local_sync : local dir syncActiveLocked.
Proof. unfold syncActiveLocked. stay_home. Qed.
Lemma local_index_write e : local dir (index_write e).
Proof. unfold index_write. stay_home. Qed.
Lemma local_rotate : local dir rotateSegment.
Proof.
  unfold rotateSegment. stay_home. apply local_modify. intros c [Hd [Ha Hs]%Forall_cons]. destruct c. simpl in *.
  split; [done|]. simpl. constructor; [done|]. apply Forall_app. split; [done|by repeat constructor].
Qed.
End operations.
#[export] Hint Resolve local_publish local_publish_all local_emit local_nextID local_seal local_sync local_index_write local_rotate : files.

Section writes.
Context {sha : Sha256} (dir : string).

Lemma local_maybeRotate : local dir maybeRotate.
Proof. unfold maybeRotate. stay_home. Qed.
#[local] Hint Resolve local_maybeRotate : files.

Lemma local_insert data exp : local dir (insert_ data exp).
Proof. unfold insert_. stay_home. Qed.
Lemma local_update id data exp keep : local dir (update_ id data exp keep).
Proof. unfold update_. stay_home. Qed.
Lemma local_Delete id : local dir (Delete id).
Proof. unfold Delete. stay_home. Qed.
#[local] Hint Resolve local_insert local_update local_Delete : files.

Lemma local_batch_entries records ts exp : local dir (batch_entries records ts exp).
Proof. induction records as [|d records IH]; cbn [batch_entries]; stay_home. Qed.
Lemma local_batch_write es records : local dir (batch_write es records).
Proof. revert records. induction es as [|e es IH]; intros [|d records]; cbn [batch_write]; stay_home. Qed.
Lemma local_batch_emit es records ts : local dir (batch_emit es records ts).
Proof. revert records. induction es as [|e es IH]; intros [|d records]; cbn [batch_emit]; stay_home. Qed.
#[local] Hint Resolve local_batch_entries local_batch_write local_batch_emit : files.
Lemma local_InsertMany records exp : local dir (InsertMany records exp).
Proof. unfold InsertMany. stay_home. Qed.

Lemma local_ensureIndex field unique : local dir (ensureIndex field unique).
Proof.
  unfold ensureIndex. stay_home. clear. intros c w Hc. pose proof (touches_rebuild (in_dir dir) (newSecondaryIndex field unique) (all_segments c) w) as Hr.
  destruct (rebuild _ _ w) as [[s|e] w']; simpl in Hr.
  - assert (at_home dir (set_sidxMap (<[field := s]> (c_sidxMap c)) c)) as Hc' by (destruct c, Hc; by split).
    assert (local dir (io (SecIndex.Persist s (sidxFilePath dir field)))) as Hp by (unfold SecIndex.Persist; stay_home).
    destruct Hc as [Hd _]. rewrite Hd. destruct (Hp _ w' Hc') as [H1 H2]. split; [done|]. intros p Hp'. rewrite H2 by done. by apply Hr.
  - split; [destruct c, Hc; by split|]. intros p Hp. by apply Hr.
Qed.
#[local] Hint Resolve local_ensureIndex : files.
Lemma local_ensureKeyIndex : local dir ensureKeyIndex.
Proof. unfold ensureKeyIndex, EnsureUniqueIndex. stay_home. Qed.
#[local] Hint Resolve local_ensureKeyIndex : files.

Lemma local_Upsert key data : local dir (Upsert key data).
Proof. unfold Upsert, upsert_target. stay_home. Qed.
Lemma local_compareAndSwap key data ok : local dir (compareAndSwap key data ok).
Proof. unfold compareAndSwap. stay_home. Qed.

Lemma local_tx_seal enc ops : local dir (tx_seal enc ops).
Proof. induction ops as [|op ops IH]; cbn [tx_seal]; stay_home. Qed.
Lemma local_tx_apply epoch now op d : local dir (tx_apply epoch now op d).
Proof. unfold tx_apply. stay_home. Qed.
#[local] Hint Resolve local_tx_seal local_tx_apply : files.
Lemma local_tx_apply_all epoch now ops ds : local dir (tx_apply_all epoch now ops ds).
Proof. revert ds. induction ops as [|op ops IH]; intros [|d ds]; cbn [tx_apply_all]; stay_home. Qed.
Lemma local_emit_all evs : local dir (emit_all evs).
Proof. induction evs as [|ev evs IH]; cbn [emit_all]; stay_home. Qed.
#[local] Hint Resolve local_tx_apply_all local_emit_all : files.
Lemma local_CommitTx ops : local dir (CommitTx ops).
Proof. unfold CommitTx. stay_home. Qed.

Lemma local_reap_ids now ids : local dir (reap_ids now ids).
Proof. induction ids as [|id ids IH]; cbn [reap_ids]; stay_home. Qed.
#[local] Hint Resolve local_reap_ids : files.
Lemma local_reapExpired : local dir reapExpired.
Proof. unfold reapExpired. stay_home. Qed.
Lemma local_setDefaultTTL ttl : local dir (setDefaultTTL ttl).
Proof.
  unfold setDefaultTTL. stay_home. apply local_modify. intros c [Hd Ha]. destruct c as [? ? [] ? ? ? ? ? ? ? ? ? ? ? ? ? ? ? ?]. by split.
Qed.
Lemma local_DropIndex field : local dir (DropIndex field).
Proof. unfold DropIndex. stay_home. Qed.

Lemma touches_persist_sidxs l : touches (in_dir dir) (persist_sidxs dir l).
Proof. induction l as [|[f s] l IH]; cbn [persist_sidxs]; unfold SecIndex.Persist; touch. Qed.
#[local] Hint Resolve touches_persist_sidxs : files.
Lemma local_CloseCollection : local dir CloseCollection.
Proof. unfold CloseCollection, Index.Persist. stay_home. Qed.
End writes.

(** ** Reading segments and indexes *)
Lemma touches_ScanAll P s : touches P (ScanAll s).
Proof. unfold ScanAll. touch. Qed.
#[export] Hint Resolve touches_ScanAll : files.

Lemma touches_scanOffsets P s : touches P (scanOffsets s).
Proof. unfold scanOffsets. touch. Qed.
Lemma touches_Rebuild P segs : touches P (Rebuild segs).
Proof.
  unfold Rebuild. generalize (∅ : Index). induction segs as [|s segs IH]; intros m; cbn [rebuild_segments]; [touch|].
  apply touches_bind; [apply touches_ScanAll|]. intros es. apply touches_bind; [apply touches_scanOffsets|]. intros os.
  destruct (rebuild_entries _ _ _ _); [apply IH|touch].
Qed.
Lemma touches_index_Load {sha : Sha256} P p : touches P (Index.Load p).
Proof. unfold Index.Load. touch. Qed.
Lemma touches_index_Persist {sha : Sha256} dir idx : touches (in_dir dir) (Index.Persist idx (indexPath dir)).
Proof. unfold Index.Persist. touch. Qed.
