(* ===== verification/Clock.v ===== *)
(** * The clock during an operation

    The clock of the world moves between operations, not inside them: whatever
    calls succeed, an insert leaves it where it was. *)

From S2P Require Import Prelude GoTime Value Store Disk Segment Index SecIndex Meta Collection.

(** A routine over a state that holds a clock. *)
Definition timed {S A} (clk : S → Time) (m : SE S A) : Prop := ∀ s, clk (m s).2 = clk s.

Section timed.
Context {S : Type} (clk : S → Time).

Lemma timed_bind {A B} (m : SE S A) (f : A → SE S B) : timed clk m → (∀ a, timed clk (f a)) → timed clk (m ≫= f).
Proof. intros Hm Hf s. unfold mbind, SE_bind. specialize (Hm s). destruct (m s) as [[a|e] s']; simpl in *; [|done]. by rewrite Hf. Qed.
Lemma timed_ret {A} (a : A) : timed clk (mret a).
Proof. done. Qed.
Lemma timed_lift {A} (r : result A) : timed clk (lift r).
Proof. done. Qed.
Lemma timed_fail {A} e : timed clk (@fail _ A e).
Proof. done. Qed.
Lemma timed_ignore {A} (m : SE S A) : timed clk m → timed clk (ignore m).
Proof. intros Hm s. apply Hm. Qed.
End timed.

Create HintDb clock.
#[export] Hint Resolve timed_ret timed_lift timed_fail timed_ignore : clock.

(** The calls of the file system. *)
Lemma timed_outcome : timed w_now outcome.
Proof. intros w. unfold outcome. by case_match. Qed.
Lemma timed_now : timed w_now now.
Proof. done. Qed.
Lemma timed_rand : timed w_now rand_seed.
Proof. done. Qed.
Lemma timed_file_bytes p : timed w_now (file_bytes p).
Proof. done. Qed.
Lemma timed_put_file p b : timed w_now (put_file p b).
Proof. done. Qed.
Lemma timed_create p : timed w_now (create_file p).
Proof. intros w. unfold create_file. by case_match. Qed.
Lemma timed_unlink p : timed w_now (unlink_file p).
Proof. intros w. unfold unlink_file. by case_match. Qed.
Lemma timed_move p q : timed w_now (move_file p q).
Proof. intros w. unfold move_file. by case_match. Qed.
Lemma timed_append_bytes p b o : timed w_now (append_bytes p b o).
Proof. intros w. unfold append_bytes. by case_match. Qed.
#[export] Hint Resolve timed_outcome timed_now timed_rand timed_file_bytes timed_put_file timed_create timed_unlink timed_move timed_append_bytes : clock.

(** The steps that reach the world. *)
Lemma timed_io {X A} (m : M A) : timed w_now m → timed (λ s : X * World, w_now s.2) (io m).
Proof. intros Hm [x w]. unfold io. specialize (Hm w). by destruct (m w). Qed.
Lemma timed_obj {X} : timed (λ s : X * World, w_now s.2) obj.
Proof. done. Qed.
Lemma timed_set_obj {X} (x : X) : timed (λ s : X * World, w_now s.2) (set_obj x).
Proof. done. Qed.
Lemma timed_modify f : timed (λ s : Collection * World, w_now s.2) (modify f).
Proof. by intros [c w]. Qed.
Lemma timed_with_active {A} (m : SE (Segment * World) A) :
  timed (λ s : Segment * World, w_now s.2) m → timed (λ s : Collection * World, w_now s.2) (with_active m).
Proof. intros Hm [c w]. unfold with_active. specialize (Hm (c_active c, w)). by destruct (m _) as [r [s w']]. Qed.
#[export] Hint Resolve timed_io timed_obj timed_set_obj timed_modify timed_with_active : clock.

Ltac ticks := repeat first
  [ match goal with
    | |- timed _ (_ ≫= _) => apply timed_bind; [|intros ?]
    | |- timed _ (match ?x with _ => _ end) => destruct x
    | |- timed _ (io _) => apply timed_io
    | |- timed _ (with_active _) => apply timed_with_active
    | |- timed _ (ignore _) => apply timed_ignore
    end
  | solve [eauto 2 with clock] ].

Lemma timed_syscall : timed w_now syscall.
Proof. unfold syscall. ticks. Qed.
#[export] Hint Resolve timed_syscall : clock.
Lemma timed_read p : timed w_now (read_file p).
Proof. unfold read_file. ticks. Qed.
Lemma timed_remove p : timed w_now (remove_file p).
Proof. unfold remove_file. ticks. Qed.
Lemma timed_rename p q : timed w_now (rename_file p q).
Proof. unfold rename_file. ticks. Qed.
Lemma timed_append p b : timed w_now (append_file p b).
Proof. unfold append_file. ticks. Qed.
Lemma timed_truncate p n : timed w_now (truncate_file p n).
Proof. unfold truncate_file. ticks. Qed.
Lemma timed_pread p o n : timed w_now (pread p o n).
Proof. unfold pread. ticks. Qed.
#[export] Hint Resolve timed_read timed_remove timed_rename timed_append timed_truncate timed_pread : clock.

Lemma timed_or_remove p m : timed w_now m → timed w_now (or_remove p m).
Proof. intros Hm w. unfold or_remove. specialize (Hm w). destruct (m w) as [[[]|e] w']; simpl in *; [done|]. by rewrite timed_remove. Qed.
Lemma timed_fsyncDir : timed w_now fsyncDir.
Proof.
  unfold fsyncDir. apply timed_bind; [apply timed_syscall|]. intros _ w. unfold get, put, mbind, SE_bind, lift.
  pose proof (timed_syscall w) as H1. destruct (syscall w) as [r1 w2]. pose proof (timed_syscall w2) as H2. destruct (syscall w2) as [r2 w3].
  simpl in *. destruct r1; simpl; congruence.
Qed.
#[export] Hint Resolve timed_or_remove timed_fsyncDir : clock.
Lemma timed_writeFileAtomic p b : timed w_now (writeFileAtomic p b).
Proof. unfold writeFileAtomic. ticks. Qed.
Lemma timed_recover_loop fuel q size off : timed w_now (recover_loop fuel q size off).
Proof. revert off. induction fuel as [|fuel IH]; intros off; cbn [recover_loop]; ticks. Qed.
#[export] Hint Resolve timed_writeFileAtomic timed_recover_loop : clock.
Lemma timed_recoverPartialLine q : timed w_now (recoverPartialLine q).
Proof. unfold recoverPartialLine. ticks. Qed.
#[export] Hint Resolve timed_recoverPartialLine : clock.
Lemma timed_openActiveSegment q : timed w_now (openActiveSegment q).
Proof. unfold openActiveSegment. ticks. Qed.
Lemma timed_persistMeta p m : timed w_now (persistMeta p m).
Proof. unfold persistMeta. ticks. Qed.
#[export] Hint Resolve timed_openActiveSegment timed_persistMeta : clock.

(** An insert, with whatever it writes. *)
Lemma insert_timed data exp : timed (λ s : Collection * World, w_now s.2) (insert_ data exp).
Proof.
  unfold insert_, nextID, sealEntryData, index_write, syncActiveLocked, maybeRotate, rotateSegment, emit, Append, Sync, Seal, on_handle. ticks.
Qed.
