(* ===== verification/CollectionSpec.v ===== *)
(** * Collections against their specification

    The abstract state of a collection is a table from record ids to the revision,
    timestamp, data and deadline of the record; [table_of] computes it from the
    log of entries on disk.  [coll_inv] is the representation invariant: the files
    of the segments hold the log, the in-memory index is the one the log defines,
    and the segment files are exactly those the collection knows.  The theorems
    show that the operations keep the invariant and act on the table as the
    specification says. *)

From S2P Require Import Prelude GoFloat GoStrconv GoTime GoJson Value Query Store Disk Segment Index SecIndex Collection.

(** ** Segment paths *)
Lemma dec_value_leading_zeros k ds : dec_value (replicate k "0"%char ++ ds) = dec_value ds.
Proof. induction k as [|k IH]; [done|]. simpl. exact IH. Qed.

Lemma dec_value_pad6 n : dec_value (pad6 n) = n.
Proof. unfold pad6. by rewrite dec_value_leading_zeros, dec_value_digits. Qed.

Lemma pad6_digits n : Forall (λ c, is_digit c = true) (pad6 n).
Proof.
  unfold pad6. apply Forall_app. split; [|apply dec_digits_all].
  apply Forall_forall. by intros c [-> _]%elem_of_replicate.
Qed.

Lemma pad6_nonempty n : pad6 n ≠ [].
Proof. unfold pad6. intros [_ H]%app_eq_nil. by apply dec_digits_nonempty in H. Qed.

Lemma strip_prefix_app p b : strip_prefix p (p ++ b) = Some b.
Proof. unfold strip_prefix. by rewrite is_prefix_app, drop_app_length. Qed.

Lemma to_bytes_segmentPath dir n :
  to_bytes (segmentPath dir n) =
    to_bytes (dir +:+ "/") ++ to_bytes "seg_" ++ pad6 n ++ to_bytes ".ndjson".
Proof.
  unfold segmentPath, join. rewrite !to_bytes_app, to_of_bytes. by rewrite <-!app_assoc.
Qed.

Lemma seg_number_segmentPath dir n : (n < 2 ^ 64)%N → seg_number dir (segmentPath dir n) = Some n.
Proof.
  intros Hn. unfold seg_number, base_in. rewrite to_bytes_segmentPath, strip_prefix_app.
  cbn [mbind option_bind]. unfold scan_seg_number. rewrite strip_prefix_app.
  rewrite span_digits_app; [|apply pad6_digits|done].
  rewrite bool_decide_false by apply pad6_nonempty. rewrite dec_value_pad6.
  by rewrite (proj2 (N.leb_gt _ _)).
Qed.

Lemma segmentPath_inj dir m n : segmentPath dir m = segmentPath dir n → m = n.
Proof.
  intros H%(f_equal to_bytes). rewrite !to_bytes_segmentPath in H.
  apply app_inv_head, app_inv_head, app_inv_tail in H.
  by rewrite <-(dec_value_pad6 m), H, dec_value_pad6.
Qed.

(** The other files of the directory are not segments. *)
Lemma join_not_segment dir file n : is_prefix (to_bytes "seg_") (to_bytes file) = false → join dir file ≠ segmentPath dir n.
Proof.
  intros Hf H%(f_equal to_bytes). rewrite to_bytes_segmentPath in H. unfold join in H.
  rewrite !to_bytes_app, <-app_assoc in H. apply app_inv_head, app_inv_head in H.
  rewrite H, is_prefix_app in Hf. done.
Qed.

Lemma metaPath_not_segment dir n : metaPath dir ≠ segmentPath dir n ∧ metaPath dir +:+ ".tmp" ≠ segmentPath dir n.
Proof.
  split; [by apply join_not_segment|]. unfold metaPath. 
  assert (join dir "meta.json" +:+ ".tmp" = join dir "meta.json.tmp") as ->.
  { apply (inj to_bytes). unfold join. by rewrite !to_bytes_app, <-!app_assoc. }
  by apply join_not_segment.
Qed.

(** ** The table a log defines *)
Record arec := ARec {
  a_rev : N;
  a_ts : Time;
  a_data : option doc;
  a_exp : Z;
  a_epoch : N
}.

Abbreviation table := (gmap N arec).

(** The revision a write gets in a replay. *)
Definition next_rev (cur : N) (recorded : N) : N :=
  let rev := u64_add cur 1 in if (rev <? recorded)%N then recorded else rev.

Definition table_step (m : table) (e : Entry) : table :=
  match e_Op e with
  | OpInsert | OpUpdate =>
      <[e_ID e := ARec (next_rev (match m !! e_ID e with Some a => a_rev a | None => 0 end) (e_Rev e))
          (e_Ts e) (e_Data e) (e_ExpiresAt e) (e_Epoch e)]> m
  | OpDelete => delete (e_ID e) m
  | OpOther _ => m
  end.

Definition table_of (es : list Entry) : table := foldl table_step ∅ es.

Lemma table_of_snoc es e : table_of (es ++ [e]) = table_step (table_of es) e.
Proof. unfold table_of. by rewrite foldl_app. Qed.

(** The index and the table of one log: same ids, and the indexed location holds
    the record. *)
Definition stored_at (l : list located) (id : N) (ie : IndexEntry) (a : arec) : Prop :=
  ∃ e, (ie_SegmentPath ie, (ie_Offset ie, e)) ∈ l ∧ e_ID e = id ∧
    a = ARec (ie_Rev ie) (e_Ts e) (e_Data e) (ie_ExpiresAt ie) (ie_Epoch ie) ∧
    ie_ExpiresAt ie = e_ExpiresAt e ∧ ie_Epoch ie = e_Epoch e.

Definition index_table (l : list located) (idx : Index) (t : table) : Prop :=
  ∀ id, match idx !! id, t !! id with
    | None, None => True
    | Some ie, Some a => stored_at l id ie a
    | _, _ => False
    end.

Lemma stored_at_weaken l x id ie a : stored_at l id ie a → stored_at (l ++ [x]) id ie a.
Proof. intros (e & Hin & H). exists e. split; [|done]. apply elem_of_app. by left. Qed.

Lemma replay_table l : index_table l (replay l) (table_of (snd <$> (snd <$> l))).
Proof.
  induction l as [|[p [o e]] l IH] using rev_ind; [by intros id|].
  rewrite replay_snoc, !fmap_app. cbn [fmap list_fmap snd]. rewrite table_of_snoc. intros id.
  unfold replay_step, rebuild_entry, table_step. cbn [fst snd].
  assert (match replay l !! id, table_of (snd <$> (snd <$> l)) !! id with
    | None, None => True | Some ie, Some a => stored_at (l ++ [(p, (o, e))]) id ie a | _, _ => False end) as IH'.
  { specialize (IH id). repeat case_match; auto using stored_at_weaken. }
  assert (ie_Rev (default zero_index_entry (replay l !! e_ID e)) =
    match table_of (snd <$> (snd <$> l)) !! e_ID e with Some a => a_rev a | None => 0%N end) as Hrev.
  { specialize (IH (e_ID e)). destruct (replay l !! e_ID e), (table_of _ !! e_ID e); try done.
    destruct IH as (e' & _ & _ & -> & _). done. }
  destruct (e_Op e); [| | |done].
  1,2: destruct (decide (e_ID e = id)) as [<-|Hne];
    [rewrite !lookup_insert_eq, Hrev; exists e; split_and!; [apply elem_of_app; right; by apply list_elem_of_singleton|done..]
    |by rewrite !lookup_insert_ne].
  destruct (decide (e_ID e = id)) as [<-|Hne]; [by rewrite !lookup_delete_eq|by rewrite !lookup_delete_ne].
Qed.

(** ** The representation invariant *)
Definition paths (c : Collection) : list string := s_path <$> all_segments c.

(** The log of the whole collection, oldest entry first. *)
Definition coll_log (logs : list (list (Z * Entry))) (log : list (Z * Entry)) : list (Z * Entry) :=
  concat logs ++ log.

Record coll_inv (c : Collection) (w : World) (logs : list (list (Z * Entry))) (log : list (Z * Entry)) : Prop := {
  inv_sealed : Forall2 (λ s es, seg_rep s w es) (c_sealed c) logs;
  inv_active : seg_rep (c_active c) w log;
  inv_open : active (c_active c);
  inv_paths : NoDup (paths c);
  inv_numbers : Forall (λ p, ∃ n, (n < 2 ^ 64)%N ∧ p = segmentPath (c_dir c) n) (paths c);
  inv_files : ∀ n, is_Some (w_files w !! segmentPath (c_dir c) n) → segmentPath (c_dir c) n ∈ paths c;
  inv_index : c_index c = replay (located_log (all_segments c) (logs ++ [log]));
  inv_ids : ∀ o e, (o, e) ∈ coll_log logs log → (e_ID e ≤ c_idSeq c)%N
}.

Definition coll_table (logs : list (list (Z * Entry))) (log : list (Z * Entry)) : table :=
  table_of (snd <$> coll_log logs log).

Lemma located_log_snd segs (logs : list (list (Z * Entry))) :
  length segs = length logs → snd <$> located_log segs logs = concat logs.
Proof.
  revert logs. induction segs as [|s segs IH]; intros [|es logs] Hlen; try done. unfold located_log. simpl.
  rewrite fmap_app. fold (located_log segs logs). rewrite IH by (simpl in Hlen; lia).
  f_equal. rewrite <-list_fmap_compose. apply list_fmap_id.
Qed.

Lemma inv_length c w logs log : coll_inv c w logs log → length (c_sealed c) = length logs.
Proof. intros H. by eapply Forall2_length, inv_sealed. Qed.

Lemma inv_index_table c w logs log :
  coll_inv c w logs log →
  index_table (located_log (all_segments c) (logs ++ [log])) (c_index c) (coll_table logs log).
Proof.
  intros H. rewrite (inv_index _ _ _ _ H). unfold coll_table, coll_log.
  replace (concat logs ++ log) with (snd <$> located_log (all_segments c) (logs ++ [log])).
  - apply replay_table.
  - rewrite located_log_snd by (unfold all_segments; rewrite !length_app, (inv_length _ _ _ _ H); done).
    rewrite concat_app. simpl. by rewrite app_nil_r.
Qed.

(** The part of the state the invariant looks at. *)
Definition same_store (c c' : Collection) : Prop :=
  c_dir c' = c_dir c ∧ c_sealed c' = c_sealed c ∧ c_active c' = c_active c ∧ c_index c' = c_index c ∧
  c_idSeq c' = c_idSeq c.

Lemma coll_inv_same c c' w logs log : same_store c c' → coll_inv c w logs log → coll_inv c' w logs log.
Proof.
  intros (Hd & Hs & Ha & Hi & Hn) [H1 H2 H3 H4 H5 H6 H7 H8].
  split; unfold paths, all_segments in *; rewrite ?Hd, ?Hs, ?Ha, ?Hi, ?Hn; done.
Qed.

(** *** Reading *)
Lemma seg_of_path c w logs log p o e :
  coll_inv c w logs log → (p, (o, e)) ∈ located_log (all_segments c) (logs ++ [log]) →
  ∃ s es, s ∈ all_segments c ∧ s_path s = p ∧ seg_rep s w es ∧ (o, e) ∈ es.
Proof.
  intros Hinv Hin.
  assert (Forall2 (λ s es, seg_rep s w es) (all_segments c) (logs ++ [log])) as Hall.
  { apply Forall2_app; [apply Hinv|]. constructor; [apply Hinv|constructor]. }
  clear Hinv. induction Hall as [|s es segs lgs Hs Hr IH]; [by apply not_elem_of_nil in Hin|].
  unfold located_log in Hin. simpl in Hin. apply elem_of_app in Hin as [Hin|Hin].
  - apply list_elem_of_fmap in Hin as ([o' e'] & [= -> -> ->] & Hin).
    exists s, es. split_and!; [apply elem_of_cons; by left|done..].
  - destruct (IH Hin) as (s' & es' & ? & ? & ? & ?). exists s', es'. split_and!; [apply elem_of_cons; by right|done..].
Qed.

Lemma segmentByPath_spec c s :
  NoDup (paths c) → s ∈ all_segments c → segmentByPath c (s_path s) = Some s.
Proof.
  unfold paths, all_segments, segmentByPath. intros Hnd Hin.
  rewrite fmap_app in Hnd. apply NoDup_app in Hnd as (Hnd & Hdis & _).
  apply elem_of_app in Hin as [Hin|Hin%list_elem_of_singleton].
  - destruct (list_find_elem_of (λ s', s_path s' = s_path s) (c_sealed c) s Hin eq_refl) as ([i s'] & Hf).
    rewrite Hf. apply list_find_Some in Hf as (Hi & Heq & _). f_equal.
    apply list_elem_of_lookup_1 in Hin as (j & Hj).
    assert (i = j) as ->.
    { eapply (NoDup_lookup _ i j (s_path s) Hnd); rewrite list_lookup_fmap; [rewrite Hi|rewrite Hj]; simpl; congruence. }
    congruence.
  - subst s. destruct (list_find _ (c_sealed c)) as [[i s']|] eqn:Hf.
    + apply list_find_Some in Hf as (Hi & Heq & _). exfalso. apply (Hdis (s_path (c_active c))).
      * apply list_elem_of_fmap. exists s'. split; [done|]. by eapply list_elem_of_lookup_2.
      * by apply list_elem_of_singleton.
    + by rewrite bool_decide_true.
Qed.

(** [getStored] on every branch. *)
Lemma getStored_spec c w logs log id :
  coll_inv c w logs log → no_faults w →
  match coll_table logs log !! id with
  | Some a =>
      if expired (a_exp a) (UnixNano (w_now w)) then getStored id (c, w) = (Err ErrNotFound, (c, w))
      else ∃ e ie, getStored id (c, w) = (Ok (e, ie), (c, w)) ∧
        a = ARec (ie_Rev ie) (e_Ts e) (e_Data e) (ie_ExpiresAt ie) (ie_Epoch ie)
  | None => getStored id (c, w) = (Err ErrNotFound, (c, w))
  end.
Proof.
  intros Hinv Hw. pose proof (inv_index_table _ _ _ _ Hinv id) as Hit.
  unfold getStored. erewrite !bind_ok by reflexivity. unfold Get. cbn [fst snd].
  destruct (coll_table logs log !! id) as [a|], (c_index c !! id) as [ie|]; try done.
  destruct Hit as (e & Hin & Hid & -> & Hexp & Hep). unfold isExpired. cbn [a_exp].
  destruct (expired (ie_ExpiresAt ie) (UnixNano (w_now w))); [done|].
  destruct (seg_of_path _ _ _ _ _ _ _ Hinv Hin) as (s & es & Hs & Hp & Hrep & Hoe).
  rewrite <-Hp, (segmentByPath_spec c s) by (by try apply Hinv).
  exists e, ie. split; [|done]. erewrite bind_ok by (apply io_ok; by eapply ReadAt_log). done.
Qed.

(** *** Appending to the active segment *)
Lemma seg_rep_frame s w w' es :
  w_files w' !! s_path s = w_files w !! s_path s → seg_rep s w es → seg_rep s w' es.
Proof. intros Hf (b & Hb & H). exists b. by rewrite Hf. Qed.

Lemma seg_reps_frame segs logs w w' :
  Forall2 (λ s es, seg_rep s w es) segs logs →
  (∀ s, s ∈ segs → w_files w' !! s_path s = w_files w !! s_path s) →
  Forall2 (λ s es, seg_rep s w' es) segs logs.
Proof.
  intros H Hf. induction H as [|s es segs logs Hs Hr IH]; constructor.
  - apply (seg_rep_frame s w); [|done]. apply Hf, elem_of_cons. by left.
  - apply IH. intros s' Hs'. apply Hf, elem_of_cons. by right.
Qed.

Lemma with_active_append c w e b :
  no_faults w → active (c_active c) → Encode e = Ok b → (Z.of_nat (length b) ≤ maxScanTokenSize)%Z →
  with_active (Append e) (c, w) =
    (Ok (s_size (c_active c)), (set_active (grown (c_active c) b) c, append_world (c_active c) b w)).
Proof.
  intros Hw Ha He Hlen. unfold with_active. by rewrite (Append_nofault (c_active c) w e b).
Qed.

Lemma located_log_snoc segs logs s es x :
  length segs = length logs →
  located_log (segs ++ [s]) (logs ++ [es ++ [x]]) = located_log (segs ++ [s]) (logs ++ [es]) ++ [(s_path s, x)].
Proof.
  intros Hlen. unfold located_log. rewrite !zip_with_app by done. rewrite !concat_app. simpl.
  by rewrite !app_nil_r, fmap_app, app_assoc.
Qed.

Lemma located_log_path segs logs s s' es :
  length segs = length logs → s_path s = s_path s' →
  located_log (segs ++ [s]) (logs ++ [es]) = located_log (segs ++ [s']) (logs ++ [es]).
Proof. intros Hlen Hp. unfold located_log. rewrite !zip_with_app by done. simpl. by rewrite Hp. Qed.

(** The collection after an entry was appended and the index became [idx]. *)
Lemma append_inv c w logs log e b idx x :
  coll_inv c w logs log → segment_log (s_size (c_active c)) b [(s_size (c_active c), x)] →
  e_ID x = e_ID e → (e_ID e ≤ c_idSeq c)%N →
  idx = rebuild_entry (s_path (c_active c)) (c_index c) (s_size (c_active c)) x →
  coll_inv (set_index idx (set_active (grown (c_active c) b) c)) (append_world (c_active c) b w)
    logs (log ++ [(s_size (c_active c), x)]).
Proof.
  intros Hinv Hlog Hid Hle ->. destruct c as [name dir cfg cr sealed act index ids ttl wt wts sx enc em br fd cc cl cd].
  destruct Hinv as [H1 H2 H3 H4 H5 H6 H7 H8]. simpl in *.
  assert (∀ p, p ≠ s_path act → w_files (append_world act b w) !! p = w_files w !! p) as Hframe.
  { intros p Hp. unfold append_world. simpl. by rewrite lookup_insert_ne. }
  assert (paths (MkColl name dir cfg cr sealed (grown act b) (rebuild_entry (s_path act) index (s_size act) x)
      ids ttl wt wts sx enc em br fd cc cl cd) =
    paths (MkColl name dir cfg cr sealed act index ids ttl wt wts sx enc em br fd cc cl cd)) as Hpaths.
  { unfold paths, all_segments. simpl. by rewrite !fmap_app. }
  split; rewrite ?Hpaths; simpl; try done.
  - unfold paths, all_segments in H4. simpl in H4. rewrite fmap_app in H4. apply NoDup_app in H4 as (_ & Hdis & _).
    apply (seg_reps_frame _ _ w); [done|]. intros s Hs. apply Hframe. intros Heq. apply (Hdis (s_path s)).
    + apply list_elem_of_fmap. eauto.
    + simpl. rewrite Heq. by apply list_elem_of_singleton.
  - by apply seg_rep_append.
  - intros n. unfold append_world. simpl. intros [b' Hb']. destruct (decide (segmentPath dir n = s_path act)) as [Heq|Hne].
    + rewrite Heq. unfold paths, all_segments. rewrite fmap_app. apply elem_of_app. right. simpl.
      by apply list_elem_of_singleton.
    + rewrite lookup_insert_ne in Hb' by done. apply H6. eauto.
  - assert (length sealed = length logs) as Hlen by (by eapply Forall2_length).
    unfold all_segments in *. simpl in *. rewrite (located_log_path _ _ _ act) by done.
    rewrite located_log_snoc, replay_snoc, H7 by done. done.
  - intros o e'. unfold coll_log. rewrite app_assoc, elem_of_app. intros [Hin|Hin%list_elem_of_singleton].
    + by apply (H8 o).
    + simplify_eq. by rewrite Hid.
Qed.

Lemma written_eq e :
  wf_entry e → ∃ c, checksum e = Ok c ∧ written e = stored (set_crc e (Some c)).
Proof.
  intros He. destruct (checksum_total e He) as (c & Hc & _). exists c. unfold written. by rewrite Hc.
Qed.

Definition cur_rev (c : Collection) (id : N) : N := ie_Rev (default zero_index_entry (c_index c !! id)).

(** [index_write] of a later revision of a record. *)
Lemma index_write_later c w logs log e :
  coll_inv c w logs log → no_faults w → wf_entry e → (encoded_size e ≤ maxScanTokenSize)%Z →
  e_Op e = OpInsert ∨ e_Op e = OpUpdate → next_rev (cur_rev c (e_ID e)) (e_Rev e) = e_Rev e →
  (e_ID e ≤ c_idSeq c)%N →
  ∃ a idx w', index_write e (c, w) = (Ok tt, (set_index idx (set_active a c), w')) ∧ no_faults w' ∧
    w_now w' = w_now w ∧ s_path a = s_path (c_active c) ∧
    coll_inv (set_index idx (set_active a c)) w' logs (log ++ [(s_size (c_active c), written e)]).
Proof.
  intros Hinv Hw He Hsz Hop Hrev Hle.
  destruct (Encode_segment_log e (s_size (c_active c)) He Hsz) as (b & Hb & Hlog).
  unfold encoded_size in Hsz. rewrite Hb in Hsz.
  eexists (grown (c_active c) b), _, (append_world (c_active c) b w). unfold index_write.
  erewrite bind_ok by (apply with_active_append; [done|apply Hinv|exact Hb|done]).
  split; [by destruct c|]. split_and!; [done|done|done|].
  destruct (written_eq e He) as (sum & _ & Hwr).
  eapply (append_inv _ _ _ _ e); [exact Hinv|exact Hlog|by rewrite Hwr|done|].
  rewrite Hwr. unfold rebuild_entry, stored, set_crc. cbn [e_Op e_ID e_Rev e_ExpiresAt e_Epoch].
  fold (cur_rev c (e_ID e)). fold (next_rev (cur_rev c (e_ID e)) (e_Rev e)). rewrite Hrev.
  destruct c. destruct Hop as [-> | ->]; done.
Qed.

Lemma next_rev_same cur : next_rev cur (u64_add cur 1) = u64_add cur 1.
Proof. unfold next_rev. by rewrite (proj2 (N.ltb_ge _ _)) by lia. Qed.

(** [index_write] of the next revision of a record. *)
Lemma index_write_spec c w logs log e :
  coll_inv c w logs log → no_faults w → wf_entry e → (encoded_size e ≤ maxScanTokenSize)%Z →
  e_Op e = OpInsert ∨ e_Op e = OpUpdate → e_Rev e = u64_add (cur_rev c (e_ID e)) 1 →
  (e_ID e ≤ c_idSeq c)%N →
  ∃ a idx w', index_write e (c, w) = (Ok tt, (set_index idx (set_active a c), w')) ∧ no_faults w' ∧
    w_now w' = w_now w ∧ s_path a = s_path (c_active c) ∧
    coll_inv (set_index idx (set_active a c)) w' logs (log ++ [(s_size (c_active c), written e)]).
Proof. intros ????? Hrev ?. apply index_write_later; [done..| |done]. by rewrite Hrev, next_rev_same. Qed.

(** Appending a tombstone and dropping the id. *)
Lemma delete_write_spec c w logs log e id :
  coll_inv c w logs log → no_faults w → wf_entry e → (encoded_size e ≤ maxScanTokenSize)%Z →
  e_Op e = OpDelete → e_ID e = id → (id ≤ c_idSeq c)%N →
  ∃ a o w', with_active (Append e) (c, w) = (Ok o, (set_active a c, w')) ∧ no_faults w' ∧ w_now w' = w_now w ∧
    s_path a = s_path (c_active c) ∧
    coll_inv (set_index (Delete_ (c_index c) id) (set_active a c)) w' logs (log ++ [(s_size (c_active c), written e)]).
Proof.
  intros Hinv Hw He Hsz Hop Hid Hle.
  destruct (Encode_segment_log e (s_size (c_active c)) He Hsz) as (b & Hb & Hlog).
  unfold encoded_size in Hsz. rewrite Hb in Hsz.
  exists (grown (c_active c) b), (s_size (c_active c)), (append_world (c_active c) b w).
  split; [apply with_active_append; [done|apply Hinv|exact Hb|done]|]. split_and!; [done|done|done|].
  destruct (written_eq e He) as (sum & _ & Hwr).
  eapply (append_inv _ _ _ _ e); [exact Hinv|exact Hlog|by rewrite Hwr|by rewrite Hid|].
  rewrite Hwr. unfold rebuild_entry, stored, set_crc. cbn [e_Op e_ID]. by rewrite Hop, Hid.
Qed.

(** Files other than segments do not matter. *)
Lemma coll_inv_frame c w w' logs log :
  coll_inv c w logs log → (∀ n, w_files w' !! segmentPath (c_dir c) n = w_files w !! segmentPath (c_dir c) n) →
  coll_inv c w' logs log.
Proof.
  intros Hinv Hf. pose proof (inv_numbers _ _ _ _ Hinv) as Hnum. rewrite Forall_forall in Hnum.
  assert (∀ s, s ∈ all_segments c → w_files w' !! s_path s = w_files w !! s_path s) as Hs.
  { intros s Hs. destruct (Hnum (s_path s)) as (n & _ & ->); [apply list_elem_of_fmap; eauto|done]. }
  destruct Hinv as [H1 H2 H3 H4 H5 H6 H7 H8]. split; try done.
  - apply (seg_reps_frame _ _ w); [done|]. intros s Hin. apply Hs, elem_of_app. by left.
  - apply (seg_rep_frame _ w); [|done]. apply Hs, elem_of_app. right. by apply list_elem_of_singleton.
  - intros n. rewrite Hf. apply H6.
Qed.

(** *** Rotation *)
Lemma foldl_max_le dir segs m0 :
  (m0 ≤ foldl (λ m s, match seg_number dir (s_path s) with
    | Some n => if (m <? n)%N then n else m | None => m end) m0 segs)%N.
Proof.
  revert m0. induction segs as [|s segs IH]; intros m0; simpl; [lia|].
  etrans; [|apply IH]. destruct (seg_number dir (s_path s)) as [n|]; [|lia].
  destruct (N.ltb_spec m0 n); lia.
Qed.

Lemma max_segment_ge dir segs s n :
  s ∈ segs → seg_number dir (s_path s) = Some n → (n ≤ max_segment dir segs)%N.
Proof.
  unfold max_segment. generalize 0%N. induction segs as [|s' segs IH]; intros m0 Hin Hn; [by apply not_elem_of_nil in Hin|].
  apply elem_of_cons in Hin as [->|Hin]; simpl; [|by apply IH].
  rewrite Hn. etrans; [|apply foldl_max_le]. destruct (N.ltb_spec m0 n); lia.
Qed.

(** There is a segment number left. *)
Definition room (c : Collection) : Prop := (max_segment (c_dir c) (all_segments c) + 1 < 2 ^ 64)%N.

Lemma openActiveSegment_fresh path w :
  no_faults w → w_files w !! path = None →
  openActiveSegment path w = (Ok (MkSegment path 0 false OpenFile), set_files (<[path := []]> (w_files w)) w).
Proof.
  intros Hw Hp. unfold openActiveSegment. step_sys.
  erewrite bind_ok by (unfold create_file; rewrite Hp; reflexivity).
  erewrite bind_ok.
  2:{ apply (recoverPartialLine_spec path [] []); [done|simpl; by rewrite lookup_insert_eq|by left|constructor]. }
  simpl. by rewrite insert_insert_eq.
Qed.

(** What sealing does to the object. *)
Lemma Seal_nofault s w :
  no_faults w → active s → Seal (s, w) = (Ok tt, (MkSegment (s_path s) (s_size s) true NoFile, w)).
Proof.
  intros Hw [Hs Ho]. unfold Seal. erewrite bind_ok by reflexivity. cbn [fst]. rewrite Hs.
  erewrite bind_ok by reflexivity. rewrite Ho, bool_decide_false by done.
  unfold on_handle. rewrite bool_decide_true by done.
  erewrite bind_ok by (apply io_ok, syscall_nofault; done). erewrite bind_ok by reflexivity.
  erewrite bind_ok by (apply io_ok, syscall_nofault; done). done.
Qed.

(** Writes of meta.json leave the segments alone. *)
Lemma persistMeta_frame dir m w :
  no_faults w → no_faults (persistMeta (metaPath dir) m w).2 ∧ w_now (persistMeta (metaPath dir) m w).2 = w_now w ∧
  ∀ n, w_files (persistMeta (metaPath dir) m w).2 !! segmentPath dir n = w_files w !! segmentPath dir n.
Proof.
  intros Hw. unfold persistMeta. destruct (meta_to_json m) as [j|e]; [|done].
  erewrite bind_ok by reflexivity.
  destruct (writeFileAtomic_nofault (metaPath dir) (print_json j) w Hw) as (fs & -> & _ & Hfs).
  split; [done|]. split; [done|]. intros n. destruct (metaPath_not_segment dir n). by apply Hfs.
Qed.

Definition sealed_segment (s : Segment) : Segment := MkSegment (s_path s) (s_size s) true NoFile.

(** The parts of the collection a rotation leaves alone. *)
Definition same_data (c c' : Collection) : Prop :=
  c_name c' = c_name c ∧ c_dir c' = c_dir c ∧ c_cfg c' = c_cfg c ∧ c_index c' = c_index c ∧
  c_idSeq c' = c_idSeq c ∧ c_sidxMap c' = c_sidxMap c ∧ c_enc c' = c_enc c ∧ c_feed c' = c_feed c ∧
  c_broker c' = c_broker c ∧ c_watchers c' = c_watchers c.

Lemma coll_log_rotate logs log : coll_log (logs ++ [log]) [] = coll_log logs log.
Proof. unfold coll_log. by rewrite concat_app, app_nil_r; simpl; rewrite app_nil_r. Qed.

Lemma coll_table_rotate logs log : coll_table (logs ++ [log]) [] = coll_table logs log.
Proof. unfold coll_table. by rewrite coll_log_rotate. Qed.

(** The layout after a rotation to segment number [n]. *)
Lemma rotate_inv c c' w w' logs log n :
  coll_inv c w logs log → same_data c c' →
  c_sealed c' = c_sealed c ++ [sealed_segment (c_active c)] →
  c_active c' = MkSegment (segmentPath (c_dir c) n) 0 false OpenFile →
  (n < 2 ^ 64)%N → segmentPath (c_dir c) n ∉ paths c →
  w_files w' !! segmentPath (c_dir c) n = Some [] →
  (∀ m, m ≠ n → w_files w' !! segmentPath (c_dir c) m = w_files w !! segmentPath (c_dir c) m) →
  coll_inv c' w' (logs ++ [log]) [].
Proof.
  intros Hinv (_ & Hd & _ & Hidx & Hids & _) Hs Ha Hn Hnew Hnil Hframe.
  assert (paths c' = paths c ++ [segmentPath (c_dir c) n]) as Hpaths.
  { unfold paths, all_segments. rewrite Hs, Ha, !fmap_app. done. }
  assert (∀ s, s_path s ∈ paths c → w_files w' !! s_path s = w_files w !! s_path s) as Hfr.
  { intros s Hin. pose proof (inv_numbers _ _ _ _ Hinv) as Hnum. rewrite Forall_forall in Hnum.
    destruct (Hnum _ Hin) as (m & _ & Hm). rewrite Hm. apply Hframe. intros ->. congruence. }
  assert (∀ s, s ∈ all_segments c → s_path s ∈ paths c) as Hin
    by (intros s Hs'; apply list_elem_of_fmap; eauto).
  split; rewrite ?Hpaths, ?Hd.
  - rewrite Hs. apply Forall2_app.
    + apply (seg_reps_frame _ _ w); [apply Hinv|]. intros s Hs'. apply Hfr, Hin, elem_of_app. by left.
    + constructor; [|constructor]. apply (seg_rep_frame _ w); [|by destruct (inv_active _ _ _ _ Hinv) as (b & ?); exists b].
      apply (Hfr (c_active c)), Hin, elem_of_app. right. by apply list_elem_of_singleton.
  - rewrite Ha. exists []. split_and!; [done|constructor|done].
  - by rewrite Ha.
  - apply NoDup_app. split_and!; [apply Hinv| |apply NoDup_singleton].
    intros p Hp ->%list_elem_of_singleton. done.
  - apply Forall_app. split; [apply Hinv|]. constructor; [by exists n|constructor].
  - intros m Hm. destruct (decide (m = n)) as [->|Hne]; [apply elem_of_app; right; by apply list_elem_of_singleton|].
    apply elem_of_app. left. apply (inv_files _ _ _ _ Hinv). by rewrite <-Hframe.
  - rewrite Hidx, (inv_index _ _ _ _ Hinv). f_equal. unfold all_segments. rewrite Hs, Ha. unfold located_log.
    pose proof (inv_length _ _ _ _ Hinv) as Hlen.
    rewrite !zip_with_app by (rewrite ?length_app; simpl; lia). simpl. by rewrite !concat_app, app_nil_r.
  - intros o e. rewrite coll_log_rotate, Hids. apply Hinv.
Qed.

Lemma rotateSegment_spec c w logs log :
  coll_inv c w logs log → no_faults w → room c →
  ∃ c' w', rotateSegment (c, w) = (Ok tt, (c', w')) ∧ no_faults w' ∧ w_now w' = w_now w ∧ same_data c c' ∧
    coll_inv c' w' (logs ++ [log]) [].
Proof.
  intros Hinv Hw Hroom. unfold rotateSegment.
  set (c1 := set_active (sealed_segment (c_active c)) c).
  set (c2 := set_sealed (c_sealed c1 ++ [c_active c1]) c1).
  erewrite bind_ok by (unfold with_active; rewrite Seal_nofault; [reflexivity|done|apply Hinv]).
  erewrite bind_ok by reflexivity. fold (sealed_segment (c_active c)). fold c1. erewrite bind_ok by reflexivity.
  cbn [fst]. fold c2. set (n := u64_add (max_segment (c_dir c2) (c_sealed c2)) 1).
  assert (c_dir c2 = c_dir c ∧ max_segment (c_dir c2) (c_sealed c2) = max_segment (c_dir c) (all_segments c)) as [Hd Hmax].
  { subst c2 c1. destruct c. split; [done|]. unfold max_segment, all_segments. simpl.
    rewrite !foldl_app. done. }
  assert (n = max_segment (c_dir c) (all_segments c) + 1)%N as Hn.
  { unfold n, u64_add. rewrite Hmax. by apply wrap64_small. }
  assert (segmentPath (c_dir c) n ∉ paths c) as Hnew.
  { intros Hin. apply list_elem_of_fmap in Hin as (s & Hp & Hs).
    pose proof (max_segment_ge (c_dir c) (all_segments c) s n Hs) as Hge.
    rewrite <-Hp, seg_number_segmentPath in Hge by (rewrite Hn; apply Hroom). specialize (Hge eq_refl). lia. }
  assert (w_files w !! segmentPath (c_dir c) n = None) as Hnone.
  { apply eq_None_not_Some. intros Hf. by apply (inv_files _ _ _ _ Hinv) in Hf. }
  rewrite Hd. set (w1 := set_files (<[segmentPath (c_dir c) n := []]> (w_files w)) w).
  erewrite bind_ok by (apply io_ok, openActiveSegment_fresh; [done|exact Hnone]).
  erewrite bind_ok by reflexivity. fold w1.
  erewrite bind_ok.
  2:{ case_bool_decide; [reflexivity|]. apply io_ok, fsyncDir_nofault. done. }
  erewrite bind_ok by reflexivity. cbn [fst].
  set (c3 := set_active (MkSegment (segmentPath (c_dir c) n) 0 false OpenFile) c2).
  assert (c_dir c3 = c_dir c) as Hd3 by (subst c3 c2 c1; by destruct c).
  rewrite Hd3. destruct (persistMeta_frame (c_dir c) (metaSnapshot c3) w1 ltac:(done)) as (Hw2 & Hnow & Hfr).
  destruct (persistMeta (metaPath (c_dir c)) (metaSnapshot c3) w1) as [r w2] eqn:E. simpl in Hw2, Hnow, Hfr.
  erewrite bind_ok by (unfold ignore; rewrite (io_ok _ c3 w1 r w2 E); reflexivity).
  exists (set_compactC true c3), w2. split; [reflexivity|].
  split; [done|]. split; [done|].
  assert (same_data c (set_compactC true c3)) as Hsame by (subst c3 c2 c1; by destruct c).
  split; [done|]. eapply (rotate_inv c _ w); [done|done|by subst c3 c2 c1; destruct c|by subst c3 c2 c1; destruct c| |done|..].
  - rewrite Hn. apply Hroom.
  - rewrite Hfr. simpl. by rewrite lookup_insert_eq.
  - intros m Hm. rewrite Hfr. simpl. rewrite lookup_insert_ne; [done|]. intros Heq%segmentPath_inj. done.
Qed.

(** *** The common tail of the writes *)
Lemma max_segment_paths dir segs segs' :
  s_path <$> segs = s_path <$> segs' → max_segment dir segs = max_segment dir segs'.
Proof.
  unfold max_segment. generalize 0%N. revert segs'. induction segs as [|s segs IH]; intros [|s' segs'] m H; try done.
  simpl in *. injection H as Hp H. rewrite Hp. by apply IH.
Qed.

Lemma room_same c c' : c_dir c' = c_dir c → paths c' = paths c → room c → room c'.
Proof. unfold room. intros Hd Hp. rewrite Hd. by rewrite (max_segment_paths _ (all_segments c') (all_segments c)). Qed.

Lemma set_active_same c : set_active (c_active c) c = c.
Proof. by destruct c. Qed.

Lemma syncActiveLocked_nofault c w :
  no_faults w → active (c_active c) → syncActiveLocked (c, w) = (Ok tt, (c, w)).
Proof.
  intros Hw [Hs Ho]. unfold syncActiveLocked. erewrite bind_ok by reflexivity. case_bool_decide; [|done].
  unfold with_active, Sync. erewrite bind_ok by reflexivity. cbn [fst]. rewrite Hs, Ho.
  rewrite (bool_decide_false (OpenFile = NoFile)) by done. cbn [orb].
  unfold on_handle. rewrite bool_decide_true by done.
  rewrite (io_ok _ (c_active c) w (Ok tt) w) by (by apply syscall_nofault). by rewrite set_active_same.
Qed.

Lemma publishCommit_same e c : same_store c (publishCommit e c).
Proof. unfold publishCommit. destruct (c_broker c); by destruct c. Qed.

Lemma maybeRotate_spec c w logs log :
  coll_inv c w logs log → no_faults w → room c →
  ∃ c' w' logs' log', maybeRotate (c, w) = (Ok tt, (c', w')) ∧ no_faults w' ∧ w_now w' = w_now w ∧
    same_data c c' ∧ coll_inv c' w' logs' log' ∧ coll_log logs' log' = coll_log logs log.
Proof.
  intros Hinv Hw Hroom. unfold maybeRotate. erewrite bind_ok by reflexivity. cbn [fst].
  destruct (_ <=? _)%Z.
  - destruct (rotateSegment_spec c w logs log Hinv Hw Hroom) as (c' & w' & H1 & H2 & H3 & H4 & H5).
    exists c', w', (logs ++ [log]), []. split_and!; try done. apply coll_log_rotate.
  - exists c, w, logs, log. split_and!; try done.
Qed.

Definition emitted (now : Time) (ev : WatchEvent) (c : Collection) : Collection :=
  set_watchers (emit_one now ev <$> c_watchers c) c.

Lemma emit_eq ev c w : emit ev (c, w) = (Ok tt, (emitted (w_now w) ev c, w)).
Proof. done. Qed.

Lemma emitted_same now ev c : same_store c (emitted now ev c).
Proof. by destruct c. Qed.

(** What a write leaves: the outcome of the steps after the append. *)
Record committed (c c' : Collection) (e : Entry) : Prop := {
  cm_name : c_name c' = c_name c;
  cm_dir : c_dir c' = c_dir c;
  cm_cfg : c_cfg c' = c_cfg c;
  cm_idSeq : c_idSeq c' = c_idSeq c;
  cm_sidx : c_sidxMap c' = c_sidxMap c;
  cm_enc : c_enc c' = c_enc c;
  cm_broker : c_broker c' = c_broker c;
  cm_feed : c_feed c' = c_feed (publishCommit e c)
}.

Lemma write_tail {A} (x : A) c w logs log e ev :
  coll_inv c w logs log → no_faults w → room c →
  ∃ c' w' logs' log',
    (syncActiveLocked;; modify (publishCommit e);; maybeRotate;; emit ev;; mret x) (c, w) = (Ok x, (c', w')) ∧
    no_faults w' ∧ committed c c' e ∧ coll_inv c' w' logs' log' ∧ coll_log logs' log' = coll_log logs log.
Proof.
  intros Hinv Hw Hroom.
  erewrite bind_ok by (apply syncActiveLocked_nofault; [done|apply Hinv]).
  erewrite bind_ok by reflexivity.
  destruct (maybeRotate_spec (publishCommit e c) w logs log) as (c' & w' & lg & lg' & H1 & H2 & H3 & H4 & H5 & H6).
  { eapply coll_inv_same; [apply publishCommit_same|done]. }
  { done. }
  { unfold publishCommit. destruct (c_broker c); [|done]. by destruct c. }
  erewrite bind_ok by exact H1. erewrite bind_ok by apply emit_eq.
  eexists _, w', lg, lg'. split; [reflexivity|]. split; [done|].
  destruct H4 as (G1 & G2 & G3 & G4 & G5 & G6 & G7 & G8 & G9 & G10).
  split_and!; [|eapply coll_inv_same; [|exact H5]; unfold same_store, emitted; by destruct c'|done].
  assert (committed c (publishCommit e c) e) as [K1 K2 K3 K4 K5 K6 K7 K8].
  { split; try done; unfold publishCommit; by destruct c as [? ? ? ? ? ? ? ? ? ? ? ? ? ? [] ? ? ? ?]. }
  split; unfold emitted; destruct c'; simpl in *; congruence.
Qed.

(** ** The operations *)

(** The table entry of a written record. *)
Lemma coll_table_write logs log o e :
  wf_entry e → e_Op e = OpInsert ∨ e_Op e = OpUpdate →
  coll_table logs (log ++ [(o, written e)]) =
    <[e_ID e := ARec (next_rev (match coll_table logs log !! e_ID e with Some a => a_rev a | None => 0%N end) (e_Rev e))
        (e_Ts e) (norm_doc <$> e_Data e) (e_ExpiresAt e) (e_Epoch e)]> (coll_table logs log).
Proof.
  intros He Hop. destruct (written_eq e He) as (sum & _ & ->).
  unfold coll_table, coll_log. rewrite app_assoc, fmap_app. cbn [fmap list_fmap snd]. rewrite table_of_snoc.
  unfold table_step. simpl. by destruct Hop as [-> | ->].
Qed.

Lemma coll_table_delete logs log o e :
  wf_entry e → e_Op e = OpDelete → coll_table logs (log ++ [(o, written e)]) = delete (e_ID e) (coll_table logs log).
Proof.
  intros He Hop. destruct (written_eq e He) as (sum & _ & ->).
  unfold coll_table, coll_log. rewrite app_assoc, fmap_app. cbn [fmap list_fmap snd]. rewrite table_of_snoc.
  unfold table_step. simpl. by rewrite Hop.
Qed.

Lemma coll_table_log logs log logs' log' : coll_log logs log = coll_log logs' log' → coll_table logs log = coll_table logs' log'.
Proof. unfold coll_table. by intros ->. Qed.

(** Ids beyond the counter are unused. *)
Lemma table_fresh c w logs log id :
  coll_inv c w logs log → (c_idSeq c < id)%N → coll_table logs log !! id = None ∧ c_index c !! id = None.
Proof.
  intros Hinv Hid. pose proof (inv_index_table _ _ _ _ Hinv id) as Hit.
  destruct (coll_table logs log !! id) as [a|], (c_index c !! id) as [ie|]; try done. exfalso.
  destruct Hit as (e & Hin & He & _).
  assert ((ie_Offset ie, e) ∈ coll_log logs log) as Hlog.
  { assert (snd <$> located_log (all_segments c) (logs ++ [log]) = coll_log logs log) as <-.
    { rewrite located_log_snd by (unfold all_segments; rewrite !length_app, (inv_length _ _ _ _ Hinv); done).
      unfold coll_log. rewrite concat_app. simpl. by rewrite app_nil_r. }
    apply list_elem_of_fmap. by exists (ie_SegmentPath ie, (ie_Offset ie, e)). }
  pose proof (inv_ids _ _ _ _ Hinv _ _ Hlog). lia.
Qed.

Lemma table_rev c w logs log id :
  coll_inv c w logs log →
  cur_rev c id = match coll_table logs log !! id with Some a => a_rev a | None => 0%N end.
Proof.
  intros Hinv. pose proof (inv_index_table _ _ _ _ Hinv id) as Hit. unfold cur_rev.
  destruct (coll_table logs log !! id) as [a|], (c_index c !! id) as [ie|]; try done.
  by destruct Hit as (e & _ & _ & -> & _).
Qed.

Lemma Append_too_large c w e :
  active (c_active c) → wf_entry e → (maxScanTokenSize < encoded_size e)%Z →
  with_active (Append e) (c, w) = (Err ErrRecordTooLarge, (c, w)).
Proof.
  intros [Hs Ho] He Hsz. destruct (Encode_log_line e He) as (line & sum & H1 & _). unfold encoded_size in Hsz.
  unfold with_active, Append. erewrite bind_ok by reflexivity. cbn [fst]. rewrite Hs, H1 in *.
  erewrite bind_ok by reflexivity. rewrite (proj2 (Z.ltb_lt _ _)) by done. simpl. by rewrite set_active_same.
Qed.

Lemma index_write_too_large c w e :
  active (c_active c) → wf_entry e → (maxScanTokenSize < encoded_size e)%Z →
  index_write e (c, w) = (Err ErrRecordTooLarge, (c, w)).
Proof. intros Ha He Hsz. unfold index_write. by rewrite (bind_err _ _ _ _ _ (Append_too_large c w e Ha He Hsz)). Qed.

(** Raising the id counter keeps the invariant. *)
Lemma set_idSeq_inv c w logs log id :
  coll_inv c w logs log → (c_idSeq c ≤ id)%N → coll_inv (set_idSeq id c) w logs log.
Proof.
  intros [H1 H2 H3 H4 H5 H6 H7 H8] Hle. destruct c. simpl in *.
  split; try done. intros o e Hin. specialize (H8 o e Hin). simpl. lia.
Qed.

(** The write of one entry with its index maintenance and tail: what every record
    write shares. *)
Lemma write_spec {A} (x : A) c w logs log e (f : Collection → Collection) ev :
  coll_inv c w logs log → no_faults w → room c → wf_entry e →
  (encoded_size e ≤ maxScanTokenSize)%Z → e_Op e = OpInsert ∨ e_Op e = OpUpdate →
  e_Rev e = u64_add (cur_rev c (e_ID e)) 1 → (e_ID e ≤ c_idSeq c)%N →
  (∀ c0, same_store c0 (f c0)) →
  ∃ c' w' logs' log',
    (index_write e;; modify f;; syncActiveLocked;; modify (publishCommit e);; maybeRotate;; emit ev;; mret x) (c, w) =
      (Ok x, (c', w')) ∧
    no_faults w' ∧ coll_inv c' w' logs' log' ∧ c_idSeq c' = c_idSeq c ∧
    coll_table logs' log' =
      <[e_ID e := ARec (e_Rev e) (e_Ts e) (norm_doc <$> e_Data e) (e_ExpiresAt e) (e_Epoch e)]> (coll_table logs log).
Proof.
  intros Hinv Hw Hroom He Hsz Hop Hrev Hid Hf.
  destruct (index_write_spec c w logs log e) as (a & idx & w1 & H1 & Hw1 & _ & Hpath & Hinv1); [done..|].
  erewrite bind_ok by exact H1. erewrite bind_ok by reflexivity.
  set (c1 := set_index idx (set_active a c)) in *.
  assert (same_store c1 (f c1)) as (Hd & Hs & Ha & Hi & Hn) by apply Hf.
  destruct (write_tail x (f c1) w1 logs (log ++ [(s_size (c_active c), written e)]) e ev)
    as (c' & w' & lg & lg' & H2 & Hw2 & Hcm & Hinv2 & Hlog).
  - by eapply coll_inv_same; [apply Hf|].
  - done.
  - apply (room_same c); [rewrite Hd; subst c1; by destruct c| |done].
    unfold paths, all_segments. rewrite Hs, Ha. subst c1. destruct c. simpl in *. rewrite !fmap_app. simpl. by rewrite Hpath.
  - exists c', w', lg, lg'. split_and!; [exact H2|done|done| |].
    + rewrite (cm_idSeq _ _ _ Hcm), Hn. subst c1. by destruct c.
    + rewrite (coll_table_log _ _ _ _ Hlog), coll_table_write by done.
      by rewrite <-(table_rev c w logs log), Hrev, next_rev_same.
Qed.

(** ** Conditions on inputs *)
Definition data_ok (data : option doc) : Prop :=
  match data with None => True | Some d => d ≠ ∅ ∧ wf_doc d end.
Definition exp_ok (exp : Z) : Prop := (- 2 ^ 63 <= exp < 2 ^ 63)%Z.
Definition clock_ok (w : World) : Prop := is_Ok (format_time (w_now w)) = true.

(** A collection and world in which a plain write is possible: no faults, no
    encryption, a segment number and a record id left. *)
Record writable (c : Collection) (w : World) : Prop := {
  wr_faults : no_faults w;
  wr_clock : clock_ok w;
  wr_room : room c;
  wr_ids : (c_idSeq c + 1 < 2 ^ 64)%N;
  wr_plain : c_enc c = None
}.

Lemma wf_plain_entry op id ts rev data exp :
  (id < 2 ^ 64)%N → (rev < 2 ^ 64)%N → op = OpInsert ∨ op = OpUpdate ∨ op = OpDelete →
  is_Ok (format_time ts) = true → data_ok data → exp_ok exp → wf_entry (MkEntry id op ts rev data 0 exp None).
Proof. intros. by split. Qed.

Definition insert_entry (w : World) (id : N) (data : option doc) (exp : Z) : Entry :=
  set_ts (NewInsert (w_now w) id data) (w_now w) 1 exp.
Definition update_entry (w : World) (id : N) (data : option doc) (rev : N) (exp : Z) : Entry :=
  set_ts (NewUpdate (w_now w) id data) (w_now w) rev exp.

Lemma sidx_update_same id data c0 : same_store c0 (sidxUpdateEntry id data c0).
Proof. by destruct c0. Qed.
Lemma sidx_index_same id data c0 : same_store c0 (sidxIndexEntry id data c0).
Proof. by destruct c0. Qed.

(** The checks before an insert, in the code's order. *)
Definition insert_check (c : Collection) (e : Entry) (data : option doc) : option error :=
  match checkQuotaLocked c 1 (entryQuotaBytes c e) with
  | Err err => Some err
  | Ok _ =>
      match sidxCheckUnique c (e_ID e) data with
      | Err err => Some err
      | Ok _ => if (maxScanTokenSize <? encoded_size e)%Z then Some ErrRecordTooLarge else None
      end
  end.

Lemma nextID_eq c w :
  nextID (c, w) = (Ok (u64_add (c_idSeq c) 1), (set_idSeq (u64_add (c_idSeq c) 1) c, w)).
Proof. done. Qed.

Lemma sealEntryData_plain e c w : c_enc c = None → sealEntryData e (c, w) = (Ok e, (c, w)).
Proof. intros H. unfold sealEntryData. erewrite bind_ok by reflexivity. cbn [fst]. by rewrite H. Qed.

Lemma insert_spec c w logs log data exp :
  coll_inv c w logs log → writable c w → data_ok data → exp_ok exp →
  let id := (c_idSeq c + 1)%N in
  let e := insert_entry w id data exp in
  match insert_check c e data with
  | Some err => insert_ data exp (c, w) = (Err err, (set_idSeq id c, w))
  | None =>
      ∃ c' w' logs' log', insert_ data exp (c, w) = (Ok (id, w_now w), (c', w')) ∧
        no_faults w' ∧ coll_inv c' w' logs' log' ∧ c_idSeq c' = id ∧ coll_table logs log !! id = None ∧
        coll_table logs' log' = <[id := ARec 1 (w_now w) (norm_doc <$> data) exp 0]> (coll_table logs log)
  end.
Proof.
  intros Hinv [Hw Hck Hroom Hids Henc] Hdata Hexp id e.
  assert (wf_entry e) as He by (apply wf_plain_entry; auto; subst id; lia).
  assert (u64_add (c_idSeq c) 1 = id) as Hid by (by apply wrap64_small).
  destruct (table_fresh c w logs log id Hinv) as [Hfresh Hfresh']; [subst id; lia|].
  unfold insert_. erewrite bind_ok by apply nextID_eq. cbn [fst snd]. rewrite Hid. erewrite bind_ok by reflexivity. cbn [fst snd].
  set (c1 := set_idSeq id c). assert (c_enc c1 = None) as Henc1 by (subst c1; by destruct c).
  erewrite bind_ok by (by apply sealEntryData_plain).
  fold (insert_entry w id data exp). fold e. erewrite bind_ok by reflexivity. cbn [fst].
  assert (checkQuotaLocked c1 1 (entryQuotaBytes c1 e) = checkQuotaLocked c 1 (entryQuotaBytes c e)) as ->
    by (subst c1; by destruct c).
  assert (sidxCheckUnique c1 id data = sidxCheckUnique c (e_ID e) data) as -> by (subst c1; by destruct c).
  unfold insert_check. destruct (checkQuotaLocked c 1 (entryQuotaBytes c e)) as [[]|err]; [|done].
  erewrite bind_ok by reflexivity. destruct (sidxCheckUnique c (e_ID e) data) as [[]|err]; [|done].
  erewrite bind_ok by reflexivity.
  assert (coll_inv c1 w logs log) as Hinv1 by (apply set_idSeq_inv; [done|subst id; lia]).
  destruct (Z.ltb_spec maxScanTokenSize (encoded_size e)) as [Hbig|Hsz].
  - by erewrite bind_err by (apply index_write_too_large; [apply Hinv1|done|done]).
  - destruct (write_spec (id, w_now w) c1 w logs log e (sidxIndexEntry id data)
      (MkWatchEvent OpInsert id data (w_now w))) as (c' & w' & lg & lg' & H1 & H2 & H3 & H4 & H5);
      [done|done|by apply (room_same c); [subst c1; destruct c..|]|done|done|by left| | |apply sidx_index_same|].
    + subst c1. unfold cur_rev. destruct c. simpl in *. by rewrite Hfresh'.
    + subst c1. by destruct c.
    + exists c', w', lg, lg'. split_and!; [exact H1|done|done|rewrite H4; subst c1; by destruct c|done|exact H5].
Qed.

(** The checks of an update of a live record. *)
Definition update_check (c : Collection) (e : Entry) (data : option doc) : option error :=
  match sidxCheckUnique c (e_ID e) data with
  | Err err => Some err
  | Ok _ => if (maxScanTokenSize <? encoded_size e)%Z then Some ErrRecordTooLarge else None
  end.

Lemma inv_index_lookup c w logs log id :
  coll_inv c w logs log →
  match c_index c !! id with
  | Some ie => ∃ a, coll_table logs log !! id = Some a ∧ a_rev a = ie_Rev ie ∧ a_exp a = ie_ExpiresAt ie
  | None => coll_table logs log !! id = None
  end.
Proof.
  intros Hinv. pose proof (inv_index_table _ _ _ _ Hinv id) as Hit.
  destruct (c_index c !! id) as [ie|], (coll_table logs log !! id) as [a|]; try done.
  exists a. destruct Hit as (e & _ & _ & -> & _). done.
Qed.

Lemma live_id_le c w logs log id :
  coll_inv c w logs log → is_Some (c_index c !! id) → (id ≤ c_idSeq c)%N.
Proof.
  intros Hinv [ie Hie]. destruct (N.le_gt_cases id (c_idSeq c)) as [|Hgt]; [done|].
  destruct (table_fresh _ _ _ _ _ Hinv Hgt) as [_ H]. congruence.
Qed.

Lemma update_spec c w logs log id data exp (keep : bool) :
  coll_inv c w logs log → writable c w → data_ok data →
  match coll_table logs log !! id with
  | None => update_ id data exp keep (c, w) = (Err ErrNotFound, (c, w))
  | Some a =>
      let exp' := if keep then a_exp a else exp in
      let e := update_entry w id data (u64_add (a_rev a) 1) exp' in
      exp_ok exp' →
      match update_check c e data with
      | Some err => update_ id data exp keep (c, w) = (Err err, (c, w))
      | None =>
          ∃ c' w' logs' log', update_ id data exp keep (c, w) = (Ok (w_now w), (c', w')) ∧
            no_faults w' ∧ coll_inv c' w' logs' log' ∧ c_idSeq c' = c_idSeq c ∧
            coll_table logs' log' =
              <[id := ARec (u64_add (a_rev a) 1) (w_now w) (norm_doc <$> data) exp' 0]> (coll_table logs log)
      end
  end.
Proof.
  intros Hinv [Hw Hck Hroom Hids Henc] Hdata. pose proof (inv_index_lookup c w logs log id Hinv) as Hidx.
  unfold update_. erewrite bind_ok by reflexivity. cbn [fst snd].
  erewrite bind_ok by (by apply sealEntryData_plain).
  erewrite bind_ok by reflexivity. cbn [fst]. unfold Get.
  destruct (c_index c !! id) as [ie|] eqn:Eie; [|by rewrite Hidx].
  destruct Hidx as (a & -> & Har & Hax). rewrite <-Har, <-Hax.
  intros Hexp. set (exp' := if keep then a_exp a else exp) in *.
  set (e := update_entry w id data (u64_add (a_rev a) 1) exp') in *.
  assert (id ≤ c_idSeq c)%N as Hle by (apply (live_id_le c w logs log); [done|rewrite Eie; eauto]).
  assert (wf_entry e) as He by (apply wf_plain_entry; [change (id < 2 ^ 64)%N; lia|apply wrap64_lt|auto|done..]).
  unfold update_check. change (e_ID e) with id. destruct (sidxCheckUnique c id data) as [[]|err]; [|done].
  erewrite bind_ok by reflexivity.
  change (set_ts (set_ts (NewUpdate (w_now w) id data) (w_now w) 0 0) (w_now w) (u64_add (a_rev a) 1)
    exp') with e.
  destruct (Z.ltb_spec maxScanTokenSize (encoded_size e)) as [Hbig|Hsz].
  - by erewrite bind_err by (apply index_write_too_large; [apply Hinv|done|done]).
  - destruct (write_spec (w_now w) c w logs log e (sidxUpdateEntry id data)
      (MkWatchEvent OpUpdate id data (w_now w))) as (c' & w' & lg & lg' & H1 & H2 & H3 & H4 & H5);
      [done|done|done|done|done|by right| |done|apply sidx_update_same|].
    + change (e_ID e) with id. unfold cur_rev. rewrite Eie. simpl. by rewrite <-Har.
    + exists c', w', lg, lg'. split_and!; [exact H1|done|done|done|exact H5].
Qed.

Lemma delete_spec c w logs log id :
  coll_inv c w logs log → writable c w → (encoded_size (NewDelete (w_now w) id) ≤ maxScanTokenSize)%Z →
  match coll_table logs log !! id with
  | None => Delete id (c, w) = (Err ErrNotFound, (c, w))
  | Some _ =>
      ∃ c' w' log', Delete id (c, w) = (Ok tt, (c', w')) ∧ no_faults w' ∧ coll_inv c' w' logs log' ∧
        c_idSeq c' = c_idSeq c ∧ coll_table logs log' = delete id (coll_table logs log)
  end.
Proof.
  intros Hinv [Hw Hck Hroom Hids Henc] Hsz. pose proof (inv_index_lookup c w logs log id Hinv) as Hidx.
  unfold Delete. erewrite bind_ok by reflexivity. cbn [fst snd]. erewrite bind_ok by reflexivity. cbn [fst]. unfold Get.
  destruct (c_index c !! id) as [ie|] eqn:Eie; [|by rewrite Hidx].
  destruct Hidx as (a & -> & _). set (e := NewDelete (w_now w) id) in *.
  assert (id ≤ c_idSeq c)%N as Hle by (apply (live_id_le c w logs log); [done|rewrite Eie; eauto]).
  assert (wf_entry e) as He by (apply wf_plain_entry; [change (id < 2 ^ 64)%N; lia|done|auto|done..]).
  destruct (delete_write_spec c w logs log e id) as (act & o & w1 & H1 & Hw1 & _ & Hp & Hinv1); [done..|].
  erewrite bind_ok by exact H1. erewrite bind_ok by reflexivity.
  set (c1 := set_index (Delete_ (c_index (set_active act c)) id) (set_active act c)).
  assert (c1 = set_index (Delete_ (c_index c) id) (set_active act c)) as Hc1 by (subst c1; by destruct c).
  rewrite <-Hc1 in Hinv1. clear Hc1.
  assert (coll_inv (sidxRemoveEntry id c1) w1 logs (log ++ [(s_size (c_active c), written e)])) as Hinv2
    by (eapply coll_inv_same; [|exact Hinv1]; by destruct c1).
  erewrite bind_ok by (apply syncActiveLocked_nofault; [done|apply Hinv2]).
  erewrite bind_ok by reflexivity. rewrite emit_eq.
  eexists _, w1, _. split; [reflexivity|]. split; [done|]. split; [|split].
  - eapply coll_inv_same; [apply emitted_same|]. eapply coll_inv_same; [apply publishCommit_same|exact Hinv2].
  - etrans; [apply (proj2 (proj2 (proj2 (proj2 (emitted_same _ _ _)))))|].
    etrans; [apply (proj2 (proj2 (proj2 (proj2 (publishCommit_same _ _)))))|]. subst c1. by destruct c.
  - by apply coll_table_delete.
Qed.

Lemma get_spec c w logs log id :
  coll_inv c w logs log → no_faults w → c_enc c = None →
  GetRecord id (c, w) =
    match coll_table logs log !! id with
    | None => (Err ErrNotFound, (c, w))
    | Some a =>
        if expired (a_exp a) (UnixNano (w_now w)) then (Err ErrNotFound, (c, w))
        else (Ok (MkRecord id (key_of (a_data a)) (a_rev a) (a_ts a) (a_data a)), (c, w))
    end.
Proof.
  intros Hinv Hw Henc. pose proof (getStored_spec c w logs log id Hinv Hw) as Hg. unfold GetRecord.
  destruct (coll_table logs log !! id) as [a|]; [|by rewrite (bind_err _ _ _ _ _ Hg)].
  destruct (expired _ _); [by rewrite (bind_err _ _ _ _ _ Hg)|].
  destruct Hg as (e & ie & Hg & ->). rewrite (bind_ok _ _ _ _ _ Hg). erewrite bind_ok by reflexivity. cbn [fst snd].
  unfold materialize. by rewrite Henc.
Qed.

(** ** Properties *)

(** [C7] Insert refines the specification, for a collection that is not
    encrypted, has an id and a segment number left, while no system call fails
    ([writable]), a deadline that is an int64, and data that is absent or, as
    the engine can store it, not empty with every value exactly representable
    ([data_ok]; an empty map is accepted and lost, see
    [empty_record_unreadable]). With the id counter, the table and the clock
    as inputs, an insert either fails one of its checks in the code's order
    (quota, unique indexes, record size) and changes nothing but the id
    counter, or it adds exactly one record, under the next id, which was
    unused, at revision 1 with the data as JSON carries it and the given
    deadline; the representation invariant holds again, whether or not the
    segment rotated. *)
Theorem insert_refines (c : Collection) (w : World) (logs : list (list (Z * Entry))) (log : list (Z * Entry))
    (data : option doc) (exp : Z) :
  coll_inv c w logs log → writable c w → data_ok data → exp_ok exp →
  let id := (c_idSeq c + 1)%N in
  let e := insert_entry w id data exp in
  match insert_check c e data with
  | Some err => insert_ data exp (c, w) = (Err err, (set_idSeq id c, w))
  | None =>
      ∃ c' w' logs' log', insert_ data exp (c, w) = (Ok (id, w_now w), (c', w')) ∧
        no_faults w' ∧ coll_inv c' w' logs' log' ∧ c_idSeq c' = id ∧ coll_table logs log !! id = None ∧
        coll_table logs' log' = <[id := ARec 1 (w_now w) (norm_doc <$> data) exp 0]> (coll_table logs log)
  end.
Proof. apply insert_spec. Qed.

(** [C8] Update refines the specification, under the same conditions as
    insert: a collection that is not encrypted while no system call fails
    ([writable]), a deadline that is an int64, and data that is absent or not
    empty with every value exactly representable ([data_ok]). An update of an
    id that is not in the table reports not found; of a record in it the
    update either fails a check (unique index, record size) and changes
    nothing, or replaces the record's data, raises its revision by one and
    keeps its deadline (or sets the new one), leaving every other record
    alone. *)
Theorem update_refines (c : Collection) (w : World) (logs : list (list (Z * Entry))) (log : list (Z * Entry))
    (id : N) (data : option doc) (exp : Z) (keep : bool) :
  coll_inv c w logs log → writable c w → data_ok data →
  match coll_table logs log !! id with
  | None => update_ id data exp keep (c, w) = (Err ErrNotFound, (c, w))
  | Some a =>
      let exp' := if keep then a_exp a else exp in
      let e := update_entry w id data (u64_add (a_rev a) 1) exp' in
      exp_ok exp' →
      match update_check c e data with
      | Some err => update_ id data exp keep (c, w) = (Err err, (c, w))
      | None =>
          ∃ c' w' logs' log', update_ id data exp keep (c, w) = (Ok (w_now w), (c', w')) ∧
            no_faults w' ∧ coll_inv c' w' logs' log' ∧ c_idSeq c' = c_idSeq c ∧
            coll_table logs' log' =
              <[id := ARec (u64_add (a_rev a) 1) (w_now w) (norm_doc <$> data) exp' 0]> (coll_table logs log)
      end
  end.
Proof. apply update_spec. Qed.

(** [C9] Delete refines the specification: it removes exactly the given id from the
    table, or reports that it is not there. *)
Theorem delete_refines (c : Collection) (w : World) (logs : list (list (Z * Entry))) (log : list (Z * Entry)) (id : N) :
  coll_inv c w logs log → writable c w → (encoded_size (NewDelete (w_now w) id) ≤ maxScanTokenSize)%Z →
  match coll_table logs log !! id with
  | None => Delete id (c, w) = (Err ErrNotFound, (c, w))
  | Some _ =>
      ∃ c' w' log', Delete id (c, w) = (Ok tt, (c', w')) ∧ no_faults w' ∧ coll_inv c' w' logs log' ∧
        c_idSeq c' = c_idSeq c ∧ coll_table logs log' = delete id (coll_table logs log)
  end.
Proof. apply delete_spec. Qed.

(** [C10] Get refines the specification: it returns the record of the table with its
    revision and timestamp, and reports not found for an id that is absent or
    whose deadline has passed, even when the record is still on disk. *)
Theorem get_refines (c : Collection) (w : World) (logs : list (list (Z * Entry))) (log : list (Z * Entry)) (id : N) :
  coll_inv c w logs log → no_faults w → c_enc c = None →
  GetRecord id (c, w) =
    match coll_table logs log !! id with
    | None => (Err ErrNotFound, (c, w))
    | Some a =>
        if expired (a_exp a) (UnixNano (w_now w)) then (Err ErrNotFound, (c, w))
        else (Ok (MkRecord id (key_of (a_data a)) (a_rev a) (a_ts a) (a_data a)), (c, w))
    end.
Proof. apply get_spec. Qed.

(** ** Witnesses: a collection with one record *)
Definition demo_dir : string := "d/u".
Definition stamp : Time := 1718000000000000000.
Definition rec_a : option doc := Some {["a" := VFloat (f64_of_Z 1)]}.
Definition rec_b : option doc := Some {["a" := VFloat (f64_of_Z 2)]}.

Definition demo_entry : Entry := insert_entry (MkWorld ∅ [] stamp 0) 1 rec_a 0.
Definition demo_line : bytes := match Encode demo_entry with Ok b => b | Err _ => [] end.
Definition demo_log : list (Z * Entry) := [(0%Z, written demo_entry)].
Definition demo_world : World := MkWorld {[segmentPath demo_dir 1 := demo_line]} [] stamp 0.
Definition demo_coll : Collection :=
  MkColl "u" demo_dir defaultConfig stamp [] (MkSegment (segmentPath demo_dir 1) (Z.of_nat (length demo_line)) false OpenFile)
    {[1%N := MkIndexEntry (segmentPath demo_dir 1) 0 1 0 0]} 1 0 ∅ 0 ∅ None None false [] false false false.

Lemma rec_ok d : wf_doc {["a" := VFloat (f64_of_Z d)]} → data_ok (Some {["a" := VFloat (f64_of_Z d)]}).
Proof. intros H. split; [apply insert_non_empty|done]. Qed.

Lemma wf_rec d : wf_any (VFloat (f64_of_Z d)) = true → wf_doc {["a" := VFloat (f64_of_Z d)]}.
Proof. intros H k v [<- <-]%lookup_singleton_Some. exact H. Qed.

Lemma demo_inv : coll_inv demo_coll demo_world [] demo_log.
Proof.
  assert (wf_entry demo_entry) as He.
  { apply wf_plain_entry; [done|done|by left|vm_compute; reflexivity|apply rec_ok, wf_rec; vm_compute; reflexivity|done]. }
  destruct (Encode_segment_log demo_entry 0 He) as (b & Hb & Hlog); [vm_compute; discriminate|].
  assert (demo_line = b) as Hl by (unfold demo_line; by rewrite Hb).
  split.
  - constructor.
  - exists demo_line. split; [apply lookup_singleton_eq|]. split; [rewrite Hl; exact Hlog|done].
  - split; reflexivity.
  - apply NoDup_singleton.
  - constructor; [|constructor]. exists 1%N. split; reflexivity.
  - intros n [b' Hn]. unfold demo_world in Hn. cbn [w_files] in Hn. apply lookup_singleton_Some in Hn as [<- _]. by apply list_elem_of_singleton.
  - vm_compute. reflexivity.
  - intros o e Hin%list_elem_of_singleton. injection Hin as -> ->. vm_compute. discriminate.
Qed.

Lemma demo_writable : writable demo_coll demo_world.
Proof. split; try (vm_compute; reflexivity). Qed.

Lemma exp_ok_never : exp_ok 0.
Proof. unfold exp_ok. lia. Qed.

Lemma demo_data : data_ok rec_b.
Proof. apply rec_ok, wf_rec. vm_compute. reflexivity. Qed.

Lemma insert_refines_witness :
  ∃ c' w' logs' log', insert_ rec_b 0 (demo_coll, demo_world) = (Ok (2%N, stamp), (c', w')) ∧
    no_faults w' ∧ coll_inv c' w' logs' log' ∧ c_idSeq c' = 2%N ∧ coll_table [] demo_log !! 2%N = None ∧
    coll_table logs' log' = <[2%N := ARec 1 stamp (norm_doc <$> rec_b) 0 0]> (coll_table [] demo_log).
Proof.
  pose proof (insert_refines demo_coll demo_world [] demo_log rec_b 0 demo_inv demo_writable demo_data exp_ok_never) as H.
  assert (insert_check demo_coll (insert_entry demo_world (c_idSeq demo_coll + 1) rec_b 0) rec_b = None) as E
    by (vm_compute; reflexivity).
  cbv zeta in H. rewrite E in H. exact H.
Defined.

Lemma demo_table : coll_table [] demo_log !! 1%N = Some (ARec 1 stamp (norm_doc <$> rec_a) 0 0).
Proof. vm_compute. reflexivity. Qed.

Lemma update_refines_witness :
  ∃ c' w' logs' log', update_ 1 rec_b 0 true (demo_coll, demo_world) = (Ok stamp, (c', w')) ∧
    no_faults w' ∧ coll_inv c' w' logs' log' ∧ c_idSeq c' = 1%N ∧
    coll_table logs' log' = <[1%N := ARec 2 stamp (norm_doc <$> rec_b) 0 0]> (coll_table [] demo_log).
Proof.
  pose proof (update_refines demo_coll demo_world [] demo_log 1 rec_b 0 true demo_inv demo_writable demo_data) as H.
  rewrite demo_table in H. specialize (H exp_ok_never).
  assert (update_check demo_coll (update_entry demo_world 1 rec_b (u64_add 1 1) 0) rec_b = None) as E
    by (vm_compute; reflexivity).
  cbn [a_rev a_exp] in H. rewrite E in H. exact H.
Defined.

Lemma delete_refines_witness :
  ∃ c' w' log', Delete 1 (demo_coll, demo_world) = (Ok tt, (c', w')) ∧ no_faults w' ∧ coll_inv c' w' [] log' ∧
    c_idSeq c' = 1%N ∧ coll_table [] log' = delete 1%N (coll_table [] demo_log).
Proof.
  pose proof (delete_refines demo_coll demo_world [] demo_log 1 demo_inv demo_writable) as H.
  rewrite demo_table in H. apply H. vm_compute. discriminate.
Defined.

Lemma get_refines_witness :
  GetRecord 1 (demo_coll, demo_world) =
    (Ok (MkRecord 1 "" 1 stamp (norm_doc <$> rec_a)), (demo_coll, demo_world)).
Proof.
  pose proof (get_refines demo_coll demo_world [] demo_log 1 demo_inv) as H.
  rewrite demo_table in H. rewrite H by reflexivity. vm_compute. reflexivity.
Defined.
