(* ===== verification/Scan.v ===== *)
(** * Scanning (engine/scan.go, engine/count.go)

    Streaming of the live records that match a filter, in insertion order or
    sorted, with offset, limit, projection and keyset page tokens.  The closures
    of the source become functions over a scan state: the context, the statistics,
    the variables the closures of the running scan share ([ss_local]) and the
    caller's own state, which its [yield] changes.  A scan does not change the
    collection. *)

From S2P Require Import Prelude GoFloat GoTime GoJson GoBase64 Value Query Store Disk Segment Index SecIndex Collection TopK.

(** ** Data *)
Record ScanResult := MkScanResult {
  sr_ID : N;
  sr_Rev : N;
  sr_Data : option doc;
  sr_Ts : Time
}.

Record SortField := MkSortField { sf_Field : string; sf_Desc : bool }.

Record ScanOptions := MkScanOptions {
  o_Filter : option Filter;
  o_Limit : Z;
  o_Offset : Z;
  o_OrderBy : string;
  o_Descending : bool;
  o_Sort : list SortField;
  o_PageToken : string;
  o_Fields : list string
}.

Record ScanStats := MkScanStats {
  RowsScanned : Z;
  RowsReturned : Z;
  IndexUsed : bool;
  NextPageToken : string
}.

Definition zero_stats : ScanStats := MkScanStats 0 0 false "".

(** The variables a scan threads: the context (the number of polls of [ctx.Err]
    after which it is done, [None] when it never is), the statistics, the
    variables captured by the closures of the scan, and the caller's state. *)
Record scan_state (L U : Type) := MkScanState {
  ss_ctx : option nat;
  ss_stats : ScanStats;
  ss_local : L;
  ss_user : U
}.
Arguments MkScanState {L U} _ _ _ _.
Arguments ss_ctx {L U} _.
Arguments ss_stats {L U} _.
Arguments ss_local {L U} _.
Arguments ss_user {L U} _.

Abbreviation SM L U := (SE (scan_state L U * World)).

Definition ctx_Err {L U} : SM L U unit := λ '(s, w),
  match ss_ctx s with
  | None => (Ok tt, (s, w))
  | Some O => (Err ErrCanceled, (s, w))
  | Some (S n) => (Ok tt, (MkScanState (Some n) (ss_stats s) (ss_local s) (ss_user s), w))
  end.

Definition set_stats {L U} (f : ScanStats → ScanStats) : SM L U unit := λ '(s, w),
  (Ok tt, (MkScanState (ss_ctx s) (f (ss_stats s)) (ss_local s) (ss_user s), w)).

Definition locals {L U} : SM L U L := λ '(s, w), (Ok (ss_local s), (s, w)).
Definition set_locals {L U} (l : L) : SM L U unit := λ '(s, w),
  (Ok tt, (MkScanState (ss_ctx s) (ss_stats s) l (ss_user s), w)).

(** Run with fresh captured variables and return their final values; on an error
    they are gone with the closure. *)
Definition with_locals {L L' U A} (l : L') (m : SM L' U A) : SM L U (A * L') := λ '(s, w),
  let '(r, (s', w)) := m (MkScanState (ss_ctx s) (ss_stats s) l (ss_user s), w) in
  (match r with Ok a => Ok (a, ss_local s') | Err e => Err e end,
   (MkScanState (ss_ctx s') (ss_stats s') (ss_local s) (ss_user s'), w)).

(** A call of the caller's function. *)
Definition on_user {L U} (m : SE U unit) : SM L U unit := λ '(s, w),
  let '(r, u) := m (ss_user s) in (r, (MkScanState (ss_ctx s) (ss_stats s) (ss_local s) u, w)).

(** A read of the collection. *)
Definition on_coll {L U A} (c : Collection) (m : CM A) : SM L U (result A) := λ '(s, w),
  let '(r, (_, w)) := m (c, w) in (Ok r, (s, w)).

(** [for _, x := range l { ... }] with early return on an error. *)
Fixpoint for_each {S A} (body : A → SE S unit) (l : list A) : SE S unit :=
  match l with [] => mret tt | x :: l => body x;; for_each body l end.

(** ** Statistics *)
Definition scanned (st : ScanStats) : ScanStats :=
  MkScanStats (RowsScanned st + 1) (RowsReturned st) (IndexUsed st) (NextPageToken st).
Definition returned (st : ScanStats) : ScanStats :=
  MkScanStats (RowsScanned st) (RowsReturned st + 1) (IndexUsed st) (NextPageToken st).
Definition index_used (st : ScanStats) : ScanStats :=
  MkScanStats (RowsScanned st) (RowsReturned st) true (NextPageToken st).
Definition set_token (tok : string) (st : ScanStats) : ScanStats :=
  MkScanStats (RowsScanned st) (RowsReturned st) (IndexUsed st) tok.

(** ** Opaque fields (engine/encryption.go) *)
Definition checkField (enc : encryptor) (field : string) : result unit :=
  if (negb (bool_decide (field = "")) && enc_isEncryptedField enc field)%bool
  then Err ErrFieldEncrypted else Ok tt.

Fixpoint encryptedFilterField (enc : encryptor) (f : Filter) : bool :=
  match f with
  | MatchAll => false
  | FieldFilter field _ _ => enc_isEncryptedField enc field
  | AndFilter fs | OrFilter fs => existsb (encryptedFilterField enc) fs
  end.

Definition checkFilterFields (enc : encryptor) (f : Filter) : result unit :=
  if encryptedFilterField enc f then Err ErrFieldEncrypted else Ok tt.

Definition check_enc (c : Collection) (check : encryptor → result unit) : result unit :=
  match c_enc c with Some enc => check enc | None => Ok tt end.

(** ** Projection *)
Definition ProjectData (data : option doc) (fields : list string) : option doc :=
  match fields with
  | [] => data
  | _ =>
      let copy out f := match data_field data f with Some v => <[f := v]> out | None => out end in
      Some (copy (foldl copy ∅ fields) KeyField)
  end.

Definition finalizeRecord (c : Collection) (stored : option doc) (fields : list string) : result (option doc) :=
  match c_enc c with
  | None => Ok (ProjectData stored fields)
  | Some enc => enc_materialize enc stored fields
  end.

(** ** Order *)

(** [r.Data[field]]: nil when the record has no such field. *)
Definition data_at (r : ScanResult) (field : string) : any := default VNil (data_field (sr_Data r) field).

Fixpoint sortLess (fields : list SortField) (a b : ScanResult) : bool :=
  match fields with
  | [] => (sr_ID a <? sr_ID b)%N
  | sf :: fields =>
      let c := Compare (data_at a (sf_Field sf)) (data_at b (sf_Field sf)) in
      let c := if sf_Desc sf then (- c)%Z else c in
      if (c =? 0)%Z then sortLess fields a b else (c <? 0)%Z
  end.

(** ** Page tokens *)
Record pageCursor := MkCursor { pc_Keys : list any; pc_ID : N }.

Definition cursor_json (cur : pageCursor) : result json :=
  js ← mapR to_json (pc_Keys cur); Ok (JObj [("k", JArr js); ("i", j_uint (pc_ID cur))]).

Definition encodeCursor (keys : list any) (id : N) : result string :=
  j ← cursor_json (MkCursor keys id); Ok (of_bytes (b64_encode (print_json j))).

Definition set_cursor_field (cur : pageCursor) (kv : string * json) : result pageCursor :=
  let '(k, v) := kv in
  let name := field_name k in
  if bool_decide (name = "k") then
    match v with
    | JNull => Ok (MkCursor [] (pc_ID cur))
    | JArr l => keys ← mapR of_json l; Ok (MkCursor keys (pc_ID cur))
    | _ => Err ErrSyntax
    end
  else if bool_decide (name = "i") then id ← as_uint 64 (pc_ID cur) v; Ok (MkCursor (pc_Keys cur) id)
  else Ok cur.

Fixpoint set_cursor_fields (cur : pageCursor) (l : list (string * json)) : result pageCursor :=
  match l with
  | [] => Ok cur
  | kv :: l => cur ← set_cursor_field cur kv; set_cursor_fields cur l
  end.

Definition cursor_of_json (v : json) : result pageCursor :=
  match v with
  | JNull => Ok (MkCursor [] 0)
  | JObj l => set_cursor_fields (MkCursor [] 0) l
  | _ => Err ErrSyntax
  end.

(** Every failure is [ErrInvalidPageToken]. *)
Definition decodeCursor (tok : string) : result pageCursor :=
  match b64_decode (to_bytes tok) with
  | None => Err ErrInvalidPageToken
  | Some b =>
      match parse_json b with
      | None => Err ErrInvalidPageToken
      | Some j => match cursor_of_json j with Ok cur => Ok cur | Err _ => Err ErrInvalidPageToken end
      end
  end.

(** The synthetic row that carries the cursor's keys. *)
Definition boundary (cur : pageCursor) (sortFields : list SortField) : ScanResult :=
  MkScanResult (pc_ID cur) 0
    (Some (foldl (λ d kv, <[sf_Field kv.1 := kv.2]> d) ∅ (zip sortFields (pc_Keys cur)))) zero_time.

Definition cursorAfter (token : string) (sortFields : list SortField) : result (option (ScanResult → bool)) :=
  if bool_decide (token = "") then Ok None
  else
    cur ← decodeCursor token;
    if negb (length (pc_Keys cur) =? length sortFields)%nat then Err ErrInvalidPageToken
    else Ok (Some (sortLess sortFields (boundary cur sortFields))).

Section scan.
Context `{!Regexp} {U : Type}.

(** ** Candidates *)
Definition indexCandidates (c : Collection) (f : Filter) : option (list N) :=
  match f with
  | FieldFilter field op value =>
      match op with
      | OpEq => IndexLookup c field (filterValueToIndexKey value)
      | OpGt | OpGte | OpLt | OpLte => indexRangeLookup c field op (filterValueTyped value)
      | _ => None
      end
  | _ => None
  end.

Definition visit_candidate {L} (c : Collection) (f : Filter) (visit : ScanResult → SM L U unit) (id : N) : SM L U unit :=
  ctx_Err;;
  r ← on_coll c (getStored id);
  match r with
  | Err _ => mret tt
  | Ok (e, loc) =>
      set_stats scanned;;
      if Match f (default ∅ (e_Data e)) then visit (MkScanResult id (ie_Rev loc) (e_Data e) (e_Ts e)) else mret tt
  end.

(** [sort.Slice(ids, <)]. *)
Definition sort_ids (ids : list N) : list N := merge_sort N.le ids.

Definition visitCandidates {L} (c : Collection) (f : Filter) (ids : list N) (visit : ScanResult → SM L U unit) : SM L U unit :=
  for_each (visit_candidate c f visit) (sort_ids ids).

(** ** Streaming the segments *)
Definition stream_entry {L} (c : Collection) (f : Filter) (visit : ScanResult → SM L U unit) (path : string)
    (offset : Z) (e : Entry) : SM L U unit :=
  ctx_Err;;
  n ← io now;
  match Get (c_index c) (e_ID e) with
  | None => mret tt
  | Some loc =>
      if (negb (bool_decide (ie_SegmentPath loc = path)) || negb (ie_Offset loc =? offset)%Z)%bool then mret tt
      else if bool_decide (e_Op e = OpDelete) then mret tt
      else if isExpired loc n then mret tt
      else
        set_stats scanned;;
        if Match f (default ∅ (e_Data e)) then visit (MkScanResult (e_ID e) (ie_Rev loc) (e_Data e) (e_Ts e)) else mret tt
  end.

Definition streamLive {L} (c : Collection) (f : Filter) (visit : ScanResult → SM L U unit) : SM L U unit :=
  for_each (λ seg, ctx_Err;; ScanFrom (stream_entry c f visit (s_path seg)) seg) (all_segments c).

Definition forEachMatch {L} (c : Collection) (f : Filter) (visit : ScanResult → SM L U unit) : SM L U unit :=
  lift (check_enc c (λ enc, checkFilterFields enc f));;
  match indexCandidates c f with
  | Some ids => set_stats index_used;; visitCandidates c f ids visit
  | None => streamLive c f visit
  end.

(** ** Unordered scans

    The captured variables are [skipped] and [emitted]. *)
Definition unordered_visit (opts : ScanOptions) (yield : ScanResult → SM (Z * Z) U unit) (r : ScanResult) : SM (Z * Z) U unit :=
  se ← locals;
  let '(skipped, emitted) := se in
  if (skipped <? o_Offset opts)%Z then set_locals (skipped + 1, emitted)%Z
  else
    yield r;;
    set_locals (skipped, emitted + 1)%Z;;
    if ((0 <? o_Limit opts) && (o_Limit opts <=? emitted + 1))%Z%bool then fail ErrStopScan else mret tt.

(** The end of a scan that reached its limit is not an error. *)
Definition stop_is_ok {S} (m : SE S unit) : SE S unit := λ s,
  match m s with
  | (Err e, s) => if bool_decide (e = ErrStopScan) then (Ok tt, s) else (Err e, s)
  | r => r
  end.

Definition scanUnordered (c : Collection) (f : Filter) (opts : ScanOptions)
    (yield : ∀ L, ScanResult → SM L U unit) : SM unit U unit :=
  stop_is_ok (with_locals (0, 0)%Z (forEachMatch c f (unordered_visit opts (yield _)));; mret tt).

(** ** Ordered scans

    The captured variables are [matched] and the page or the bounded buffer. *)
Definition passes (after : option (ScanResult → bool)) (r : ScanResult) : bool :=
  match after with Some p => p r | None => true end.

Definition collect_all (after : option (ScanResult → bool)) (r : ScanResult) : SM (Z * list ScanResult) U unit :=
  mp ← locals;
  if passes after r then set_locals (mp.1 + 1, mp.2 ++ [r])%Z else mret tt.

Definition collect_top (less : ScanResult → ScanResult → bool) (after : option (ScanResult → bool)) (r : ScanResult)
    : SM (Z * topK) U unit :=
  mt ← locals;
  if passes after r then set_locals (mt.1 + 1, push less mt.2 r)%Z else mret tt.

(** [page[from:]] and [page[:to]]. *)
Definition slice_from {A} (from : Z) (l : list A) : result (list A) :=
  if (from <? 0)%Z then Err ErrPanic else Ok (drop (Z.to_nat from) l).
Definition slice_to {A} (to : Z) (l : list A) : list A := take (Z.to_nat to) l.

Definition cut_page (opts : ScanOptions) (page : list ScanResult) : result (list ScanResult) :=
  page ← (if (o_Offset opts <? Z.of_nat (length page))%Z then slice_from (o_Offset opts) page else Ok []);
  Ok (if ((0 <? o_Limit opts) && (o_Limit opts <? Z.of_nat (length page)))%Z%bool
      then slice_to (o_Limit opts) page else page).

(** [opts.Offset + opts.Limit], an [int] sum. *)
Definition offset_limit (opts : ScanOptions) : Z := int64_wrap (o_Offset opts + o_Limit opts).

Definition page_token (opts : ScanOptions) (sortFields : list SortField) (matched : Z) (page : list ScanResult)
    : result (option string) :=
  match last page with
  | Some r =>
      if ((0 <? o_Limit opts) && (offset_limit opts <? matched))%Z%bool then
        tok ← encodeCursor (map (λ sf, data_at r (sf_Field sf)) sortFields) (sr_ID r); Ok (Some tok)
      else Ok None
  | None => Ok None
  end.

Definition scanOrdered (c : Collection) (f : Filter) (opts : ScanOptions) (sortFields : list SortField)
    (yield : ∀ L, ScanResult → SM L U unit) : SM unit U unit :=
  let less := sortLess sortFields in
  after ← lift (cursorAfter (o_PageToken opts) sortFields);
  mp ← (if (0 <? o_Limit opts)%Z then
          mt ← with_locals (0%Z, MkTopK (offset_limit opts) []) (forEachMatch c f (collect_top less after));
          mret (mt.2.1, sorted less mt.2.2)
        else
          mp ← with_locals (0%Z, []) (forEachMatch c f (collect_all after));
          mret (mp.2.1, SliceStable less mp.2.2)) : SM unit U (Z * list ScanResult);
  let '(matched, page) := mp in
  page ← lift (cut_page opts page);
  for_each (yield unit) page;;
  tok ← lift (page_token opts sortFields matched page);
  match tok with Some tok => set_stats (set_token tok) | None => mret tt end.

(** ** ScanStream *)
Definition counting (c : Collection) (opts : ScanOptions) (yield : ScanResult → SE U unit) (L : Type) (r : ScanResult) : SM L U unit :=
  out ← lift (finalizeRecord c (sr_Data r) (o_Fields opts));
  on_user (yield (MkScanResult (sr_ID r) (sr_Rev r) out (sr_Ts r)));;
  set_stats returned.

Definition check_sort (opts : ScanOptions) (enc : encryptor) : result unit :=
  mapR (λ sf, checkField enc (sf_Field sf)) (o_Sort opts) ≫= λ _, checkField enc (o_OrderBy opts).

Definition effective_sort (opts : ScanOptions) : list SortField :=
  match o_Sort opts with
  | [] => if bool_decide (o_OrderBy opts = "") then [] else [MkSortField (o_OrderBy opts) (o_Descending opts)]
  | s => s
  end.

Definition scan_stream (c : Collection) (opts : ScanOptions) (yield : ScanResult → SE U unit) : SM unit U unit :=
  let f := default MatchAll (o_Filter opts) in
  lift (check_enc c (check_sort opts));;
  let sortFields := effective_sort opts in
  if (bool_decide (sortFields = []) && bool_decide (o_PageToken opts = ""))%bool
  then scanUnordered c f opts (counting c opts yield)
  else scanOrdered c f opts sortFields (counting c opts yield).

(** The outcome, the statistics and the caller's final state. *)
Definition ScanStream (ctx : option nat) (c : Collection) (opts : ScanOptions) (yield : ScanResult → SE U unit)
    (u : U) (w : World) : result unit * ScanStats * U * World :=
  let '(r, (s, w)) := scan_stream c opts yield (MkScanState ctx zero_stats tt u, w) in
  (r, ss_stats s, ss_user s, w).
End scan.

Definition no_options : ScanOptions := MkScanOptions None 0 0 "" false [] "" [].

(** Collect the emitted rows. *)
Definition append_row (r : ScanResult) : SE (list ScanResult) unit := λ out, (Ok tt, out ++ [r]).

Definition Scan `{!Regexp} (c : Collection) (f : option Filter) (w : World) : result (list ScanResult) * World :=
  let '(r, _, out, w) :=
    ScanStream None c (MkScanOptions f 0 0 "" false [] "" []) append_row [] w in
  (match r with Ok _ => Ok out | Err e => Err e end, w).

(** ** Count (engine/count.go) *)
Definition count_visit {U} (r : ScanResult) : SM N U unit := n ← locals; set_locals (u64_add n 1).

Definition Count `{!Regexp} (c : Collection) (f : option Filter) (w : World) : result N * World :=
  match f with
  | None | Some MatchAll => (Ok (N.of_nat (Len (c_index c))), w)
  | Some f =>
      let fast :=
        match f with
        | FieldFilter field OpEq value => IndexLookup c field (filterValueToIndexKey value)
        | _ => None
        end in
      match fast with
      | Some ids => (Ok (N.of_nat (length ids)), w)
      | None =>
          let '(r, (s, w)) := forEachMatch c f count_visit (MkScanState None zero_stats 0%N tt, w) in
          (match r with Ok _ => Ok (ss_local s) | Err e => Err e end, w)
      end
  end.
