(* ===== verification/ScanSpec.v ===== *)
(** * Scanning: what scans return

    [rows_of] is the list of live records in the order a full scan meets them;
    [live_rows] relates it to the table of the collection.  [forEachMatch_spec]
    reduces every scan to a loop over rows, by segments or by index.  On top of it:
    unordered scans emit the requested window of the matching rows, ordered scans
    the window of the sorted rows, paging with tokens visits every matching row
    once, [Count] agrees with the scan. *)

From S2P Require Import Prelude GoFloat GoTime GoJson GoBase64 Value Query Store Disk Segment Index SecIndex Collection CollectionSpec TopK Scan.

(** ** Rows *)
Definition table_row (id : N) (a : arec) : ScanResult := MkScanResult id (a_rev a) (a_data a) (a_ts a).

(** The records that are not expired at [now] (nanoseconds). *)
Definition live (now : Z) (t : table) : table := filter (λ ia, expired (a_exp ia.2) now = false) t.

Definition table_rows (t : table) : list ScanResult := (λ ia, table_row ia.1 ia.2) <$> map_to_list t.

(** The row a full scan yields for a log entry, if the entry is live. *)
Definition entry_row (c : Collection) (n : Time) (x : located) : option ScanResult :=
  let '(p, (o, e)) := x in
  match Get (c_index c) (e_ID e) with
  | None => None
  | Some loc =>
      if (negb (bool_decide (ie_SegmentPath loc = p)) || negb (ie_Offset loc =? o)%Z)%bool then None
      else if bool_decide (e_Op e = OpDelete) then None
      else if isExpired loc n then None
      else Some (MkScanResult (e_ID e) (ie_Rev loc) (e_Data e) (e_Ts e))
  end.

Definition rows_of (c : Collection) (n : Time) (l : list located) : list ScanResult := omap (entry_row c n) l.

(** ** Positions in a log are distinct *)
Lemma segment_log_NoDup off b es : segment_log off b es → NoDup es.*1.
Proof.
  induction 1 as [off|off l e b es Hl Hlog IH]; [constructor|]. simpl. constructor; [|done].
  intros ([o e'] & -> & Hin)%list_elem_of_fmap. pose proof (segment_log_offsets _ _ _ _ _ Hlog Hin). simpl in *. lia.
Qed.

Definition position (x : located) : string * Z := (x.1, x.2.1).

Lemma located_NoDup segs logs w :
  NoDup (s_path <$> segs) → Forall2 (λ s es, seg_rep s w es) segs logs →
  NoDup (position <$> located_log segs logs).
Proof.
  intros Hnd H. induction H as [|s es segs logs (b & _ & Hlog & _) Hr IH]; [constructor|].
  unfold located_log. simpl. rewrite fmap_app. simpl in Hnd. apply NoDup_cons in Hnd as [Hni Hnd].
  apply NoDup_app. split_and!; [|intros x Hx Hx'|by apply IH].
  - rewrite <-list_fmap_compose.
    assert ((position ∘ pair (s_path s)) <$> es = pair (s_path s) <$> es.*1) as ->.
    { rewrite <-list_fmap_compose. apply list_fmap_ext. by intros ? [] ?. }
    apply (NoDup_fmap_2 _). by eapply segment_log_NoDup.
  - rewrite <-list_fmap_compose in Hx. apply list_elem_of_fmap in Hx as ([o e] & -> & _). simpl in Hx'.
    apply list_elem_of_fmap in Hx' as ([p [o' e']] & [= <- ->] & Hin).
    apply Hni. clear -Hin Hr. revert logs Hr Hin. induction segs as [|s' segs IH]; intros logs Hr Hin.
    + inversion Hr; subst. by apply not_elem_of_nil in Hin.
    + inversion Hr as [|? es' ? logs' Hs Hr']; subst. simpl in Hin. apply elem_of_app in Hin as [Hin|Hin].
      * apply list_elem_of_fmap in Hin as (x & Hx & _). simplify_eq. simpl. apply elem_of_cons. by left.
      * simpl. apply elem_of_cons. right. by apply (IH logs').
Qed.

Lemma inv_located_NoDup c w logs log :
  coll_inv c w logs log → NoDup (position <$> located_log (all_segments c) (logs ++ [log])).
Proof.
  intros H. apply (located_NoDup _ _ w); [apply H|].
  apply Forall2_app; [apply H|]. constructor; [apply H|constructor].
Qed.

Lemma position_inj (l : list located) p o e e' :
  NoDup (position <$> l) → (p, (o, e)) ∈ l → (p, (o, e')) ∈ l → e = e'.
Proof.
  intros Hnd (i & Hi)%list_elem_of_lookup_1 (j & Hj)%list_elem_of_lookup_1.
  assert (i = j) as ->.
  { eapply (NoDup_lookup _ i j (p, o) Hnd); rewrite list_lookup_fmap; [rewrite Hi|rewrite Hj]; done. }
  congruence.
Qed.

(** An index entry points at a write of its record. *)
Lemma replay_points l id ie :
  replay l !! id = Some ie →
  ∃ e, (ie_SegmentPath ie, (ie_Offset ie, e)) ∈ l ∧ e_ID e = id ∧ e_Op e ≠ OpDelete.
Proof.
  revert ie. induction l as [|[p [o e]] l IH] using rev_ind; intros ie; [done|].
  assert (replay l !! id = Some ie → ∃ e0, (ie_SegmentPath ie, (ie_Offset ie, e0)) ∈ l ++ [(p, (o, e))] ∧
    e_ID e0 = id ∧ e_Op e0 ≠ OpDelete) as Hold.
  { intros (e0 & Hin & H)%IH. exists e0. split; [apply elem_of_app; by left|done]. }
  rewrite replay_snoc. unfold replay_step, rebuild_entry. cbn [fst snd].
  destruct (e_Op e) eqn:Hop; [| | |done].
  1,2: rewrite lookup_insert_Some; intros [[<- <-]|[_ ?]]; [|by apply Hold];
    exists e; split_and!; [apply elem_of_app; right; by apply list_elem_of_singleton|done|by rewrite Hop].
  rewrite lookup_delete_Some. intros [_ ?]. by apply Hold.
Qed.

(** ** Rows and the table *)
Lemma entry_row_ID c n x r : entry_row c n x = Some r → sr_ID r = e_ID x.2.2.
Proof. destruct x as [p [o e]]. unfold entry_row. repeat case_match; naive_solver. Qed.

Lemma entry_row_position c n x r :
  entry_row c n x = Some r → ∃ loc, c_index c !! sr_ID r = Some loc ∧ position x = (ie_SegmentPath loc, ie_Offset loc).
Proof.
  intros H. pose proof (entry_row_ID _ _ _ _ H) as Hid. destruct x as [p [o e]]. unfold entry_row, Get in H. simpl in Hid.
  rewrite Hid. destruct (c_index c !! e_ID e) as [loc|]; [|done]. exists loc. split; [done|].
  destruct (bool_decide (ie_SegmentPath loc = p)) eqn:Hp; [|done]. simpl in H.
  destruct (ie_Offset loc =? o)%Z eqn:Ho; [|done]. bools. by subst.
Qed.

Lemma rows_of_NoDup c n l : NoDup (position <$> l) → NoDup (sr_ID <$> rows_of c n l).
Proof.
  unfold rows_of. induction l as [|x l IH]; [constructor|]. rewrite fmap_cons. intros [Hni Hnd]%NoDup_cons.
  simpl. destruct (entry_row c n x) as [r|] eqn:E; [|by apply IH]. rewrite fmap_cons. constructor; [|by apply IH].
  intros (r' & Hr & (y & Hy & Ey)%list_elem_of_omap)%list_elem_of_fmap. apply Hni.
  apply entry_row_position in E as (loc & Hl & ->), Ey as (loc' & Hl' & Hp). rewrite Hr in Hl.
  apply list_elem_of_fmap. exists y. split; [|done]. rewrite Hp. congruence.
Qed.

Section rows.
Context (c : Collection) (w : World) (logs : list (list (Z * Entry))) (log : list (Z * Entry)).
Context (Hinv : coll_inv c w logs log).

Definition scan_log : list located := located_log (all_segments c) (logs ++ [log]).
Definition live_now : table := live (UnixNano (w_now w)) (coll_table logs log).

Lemma elem_of_rows r : r ∈ rows_of c (w_now w) scan_log ↔ ∃ a, live_now !! sr_ID r = Some a ∧ r = table_row (sr_ID r) a.
Proof using Hinv.
  pose proof (inv_index_table _ _ _ _ Hinv) as Hit. pose proof (inv_located_NoDup _ _ _ _ Hinv) as Hnd.
  unfold rows_of, live_now, live. rewrite list_elem_of_omap. setoid_rewrite map_lookup_filter_Some. split.
  - intros ([p [o e]] & Hin & E). pose proof (entry_row_ID _ _ _ _ E) as Hid. simpl in Hid.
    unfold entry_row, Get in E. specialize (Hit (e_ID e)).
    destruct (c_index c !! e_ID e) as [loc|] eqn:Hloc; [|done].
    destruct (bool_decide (ie_SegmentPath loc = p)) eqn:Hp; [|done]. simpl in E.
    destruct (ie_Offset loc =? o)%Z eqn:Ho; [|done]. simpl in E.
    destruct (bool_decide (e_Op e = OpDelete)); [done|].
    destruct (isExpired loc (w_now w)) eqn:Hx; [done|]. injection E as <-. bools. subst p o. simpl.
    destruct (coll_table logs log !! e_ID e) as [a|] eqn:Ha; [|done].
    destruct Hit as (e' & Hin' & Hid' & -> & _ & _).
    assert (e = e') as <- by (by eapply position_inj). eexists. by split_and!.
  - intros (a & [Ha Hx] & ->). cbn [sr_ID table_row] in *. specialize (Hit (sr_ID r)). rewrite Ha in Hit.
    destruct (c_index c !! sr_ID r) as [loc|] eqn:Hloc; [|done].
    destruct Hit as (e & Hin & Hid & -> & _ & _). exists (ie_SegmentPath loc, (ie_Offset loc, e)). split; [done|].
    unfold entry_row, Get. rewrite Hid, Hloc, bool_decide_true, Z.eqb_refl by done. simpl.
    rewrite bool_decide_false.
    + unfold isExpired. simpl in Hx. by rewrite Hx.
    + pose proof Hloc as Hloc'. rewrite (inv_index _ _ _ _ Hinv) in Hloc'.
      destruct (replay_points _ _ _ Hloc') as (e' & Hin' & _ & Hop). by rewrite (position_inj _ _ _ e e' Hnd Hin Hin').
Qed.

Lemma rows_NoDup : NoDup (sr_ID <$> rows_of c (w_now w) scan_log).
Proof using Hinv. apply rows_of_NoDup. by eapply inv_located_NoDup. Qed.

(** The rows of a full scan are the live records, each once. *)
Lemma live_rows : rows_of c (w_now w) scan_log ≡ₚ table_rows live_now.
Proof using Hinv.
  apply NoDup_Permutation.
  - eapply NoDup_fmap_1, rows_NoDup.
  - apply (NoDup_fmap_1 sr_ID). unfold table_rows. rewrite <-list_fmap_compose. apply NoDup_fst_map_to_list.
  - intros r. rewrite elem_of_rows. unfold table_rows. rewrite list_elem_of_fmap. split.
    + intros (a & Ha & Hr). exists (sr_ID r, a). split; [done|]. by apply elem_of_map_to_list.
    + intros ([id a] & -> & Hin%elem_of_map_to_list). exists a. by split.
Qed.
End rows.

(** ** A scan is a loop over rows *)
Lemma bind_mret_tt {S} (m : SE S unit) s : (m;; mret tt) s = m s.
Proof. unfold mbind, SE_bind. by destruct (m s) as [[[]|] ?]. Qed.

Section stream.
Context {RE : Regexp} {L U : Type}.
Implicit Types (s : scan_state L U) (visit : ScanResult → SM L U unit).

Lemma for_each_foldr {S A} (body : A → SE S unit) l (s : S) :
  foldr (λ x k, body x;; k) (mret tt) l s = for_each body l s.
Proof.
  revert s. induction l as [|x l IH]; intros s; [done|]. simpl. unfold mbind, SE_bind.
  destruct (body x s) as [[[]|] ?]; [apply IH|done].
Qed.

Lemma for_each_app {S A} (body : A → SE S unit) l1 l2 (s : S) :
  for_each body (l1 ++ l2) s = (for_each body l1;; for_each body l2) s.
Proof.
  revert s. induction l1 as [|x l1 IH]; intros s; [done|]. simpl. unfold mbind, SE_bind.
  destruct (body x s) as [[[]|e] s']; [|done]. by rewrite IH.
Qed.

(** The body of a scan's loop: a live record is counted and, if it matches, visited. *)
Definition scan_row (f : Filter) visit (r : ScanResult) : SM L U unit :=
  set_stats scanned;; if Match f (default ∅ (sr_Data r)) then visit r else mret tt.

(** A visit that leaves the world and an endless context as they are. *)
Definition quiet_visit (m : SM L U unit) : Prop :=
  ∀ s w, ss_ctx s = None → ∃ r s', m (s, w) = (r, (s', w)) ∧ ss_ctx s' = None.

Lemma scan_row_quiet f visit r : (∀ r, quiet_visit (visit r)) → quiet_visit (scan_row f visit r).
Proof.
  intros Hv s w Hs. unfold scan_row. erewrite bind_ok by reflexivity.
  case_match; [|by eexists _, _]. by apply Hv.
Qed.

Lemma ctx_Err_none s w : ss_ctx s = None → ctx_Err (s, w) = (Ok tt, (s, w)).
Proof. intros H. unfold ctx_Err. by rewrite H. Qed.

Lemma stream_entry_eq c f visit p o e s w :
  ss_ctx s = None →
  stream_entry c f visit p o e (s, w) =
    for_each (scan_row f visit) (option_list (entry_row c (w_now w) (p, (o, e)))) (s, w).
Proof.
  intros Hs. unfold stream_entry, entry_row. erewrite bind_ok by (by apply ctx_Err_none).
  erewrite bind_ok by reflexivity. destruct (Get (c_index c) (e_ID e)) as [loc|]; [|done].
  do 3 (case_match; [done|]). cbn. by rewrite bind_mret_tt.
Qed.

(** A loop whose bodies run in quiet_visit states. *)
Lemma for_each_quiet {A} (body : A → SM L U unit) l s w :
  (∀ x, quiet_visit (body x)) → ss_ctx s = None → ∃ r s', for_each body l (s, w) = (r, (s', w)) ∧ ss_ctx s' = None.
Proof.
  intros Hb. revert s. induction l as [|x l IH]; intros s Hs; [by eexists _, _|]. simpl.
  destruct (Hb x s w Hs) as ([[]|e] & s' & Hx & Hs').
  - erewrite bind_ok by exact Hx. by apply IH.
  - erewrite bind_err by exact Hx. by eexists _, _.
Qed.

(** Two loops agree when their bodies do, piecewise. *)
Lemma for_each_flat {A B} (body : A → SM L U unit) (g : A → list B) (body' : B → SM L U unit) l s w :
  (∀ x, quiet_visit (body' x)) → ss_ctx s = None →
  (∀ x s, x ∈ l → ss_ctx s = None → body x (s, w) = for_each body' (g x) (s, w)) →
  for_each body l (s, w) = for_each body' (l ≫= g) (s, w).
Proof.
  intros Hq. revert s. induction l as [|x l IH]; intros s Hs Hb; [done|].
  rewrite bind_cons, for_each_app. simpl. unfold mbind at 1 2, SE_bind at 1 2.
  rewrite Hb by (done || apply elem_of_cons; by left).
  destruct (for_each_quiet body' (g x) s w Hq Hs) as (r & s' & -> & Hs').
  destruct r as [[]|e]; [|done]. apply IH; [done|]. intros y s0 Hy. apply Hb. apply elem_of_cons. by right.
Qed.

Lemma omap_fmap_bind {A B C} (f : A → B) (g : B → option C) (l : list A) :
  omap g (f <$> l) = l ≫= λ x, option_list (g (f x)).
Proof. induction l as [|x l IH]; [done|]. rewrite bind_cons, <-IH. simpl. by destruct (g (f x)). Qed.

Lemma ScanFrom_rows c f visit seg es s w :
  no_faults w → seg_rep seg w es → (∀ r, quiet_visit (visit r)) → ss_ctx s = None →
  ScanFrom (stream_entry c f visit (s_path seg)) seg (s, w) =
    for_each (scan_row f visit) (rows_of c (w_now w) (pair (s_path seg) <$> es)) (s, w).
Proof.
  intros Hw Hrep Hv Hs. rewrite (ScanFrom_log _ _ _ es) by done.
  change (foldr _ _ es) with (foldr (λ oe k, (λ oe, stream_entry c f visit (s_path seg) oe.1 oe.2) oe;; k) (mret tt) es).
  rewrite for_each_foldr.
  unfold rows_of. rewrite omap_fmap_bind.
  apply for_each_flat; [eauto using scan_row_quiet|done|].
  intros [o e] s' _ Hs'. by apply stream_entry_eq.
Qed.

Lemma streamLive_rows c f visit s w logs log :
  coll_inv c w logs log → no_faults w → (∀ r, quiet_visit (visit r)) → ss_ctx s = None →
  streamLive c f visit (s, w) = for_each (scan_row f visit) (rows_of c (w_now w) (scan_log c logs log)) (s, w).
Proof.
  intros Hinv Hw Hv Hs. unfold streamLive, scan_log, rows_of.
  assert (Forall2 (λ (sg : Segment) es, seg_rep sg w es) (all_segments c) (logs ++ [log])) as Hall.
  { apply Forall2_app; [apply Hinv|]. constructor; [apply Hinv|constructor]. }
  clear Hinv. revert s Hs. induction Hall as [|seg es segs lgs Hseg Hr IH]; intros s Hs; [done|].
  unfold located_log. cbn [zip_with concat]. rewrite omap_app, for_each_app. cbn [for_each].
  destruct (for_each_quiet (scan_row f visit) (rows_of c (w_now w) (pair (s_path seg) <$> es)) s w)
    as (r & s' & Hrun & Hs'); [eauto using scan_row_quiet|done|].
  assert ((ctx_Err;; ScanFrom (stream_entry c f visit (s_path seg)) seg) (s, w) = (r, (s', w))) as Hbody.
  { erewrite bind_ok by (by apply ctx_Err_none). by rewrite (ScanFrom_rows c f visit seg es s w). }
  destruct r as [[]|e].
  - erewrite bind_ok by exact Hbody. erewrite bind_ok by exact Hrun. by apply IH.
  - erewrite bind_err by exact Hbody. by erewrite bind_err by exact Hrun.
Qed.
End stream.

(** ** Candidates from an index *)
Section rows_by_index.
Context {RE : Regexp} (c : Collection) (w : World) (logs : list (list (Z * Entry))) (log : list (Z * Entry)).

Definition matches (f : Filter) (r : ScanResult) : Prop := Match f (default ∅ (sr_Data r)) = true.
#[global] Instance matches_dec f r : Decision (matches f r).
Proof. unfold matches. apply _. Defined.

Definition candidate_row (id : N) : option ScanResult := table_row id <$> live_now w logs log !! id.

(** The rows a scan examines, in the order it examines them. *)
Definition scan_rows (f : Filter) : list ScanResult :=
  match indexCandidates c f with
  | Some ids => omap candidate_row (sort_ids ids)
  | None => rows_of c (w_now w) (scan_log c logs log)
  end.

(** The rows a scan of [f] must return. *)
Definition matching_rows (f : Filter) : list ScanResult := filter (matches f) (table_rows (live_now w logs log)).

(** The index that serves [f], if any, lists every live record [f] accepts, and
    no id twice. *)
Definition index_covers (f : Filter) : Prop :=
  ∀ ids, indexCandidates c f = Some ids →
    NoDup ids ∧ ∀ id a, live_now w logs log !! id = Some a → matches f (table_row id a) → id ∈ ids.

Lemma sort_ids_perm ids : sort_ids ids ≡ₚ ids.
Proof. apply merge_sort_Permutation. Qed.

Lemma candidate_rows_NoDup ids : NoDup ids → NoDup (sr_ID <$> omap candidate_row ids).
Proof.
  induction 1 as [|id ids Hni Hnd IH]; [constructor|]. simpl. unfold candidate_row at 1.
  destruct (live_now w logs log !! id) as [a|]; [|done]. simpl. constructor; [|done].
  intros (r & -> & (id' & Hin & Hr)%list_elem_of_omap)%list_elem_of_fmap.
  unfold candidate_row in Hr. apply fmap_Some in Hr as (? & _ & ->). done.
Qed.

Context (Hinv : coll_inv c w logs log).

Lemma scan_rows_NoDup f : index_covers f → NoDup (sr_ID <$> scan_rows f).
Proof using Hinv.
  intros Hc. unfold scan_rows. destruct (indexCandidates c f) as [ids|] eqn:E; [|by apply rows_NoDup].
  apply candidate_rows_NoDup. rewrite sort_ids_perm. by apply Hc.
Qed.

(** What a scan examines contains what it must return, and nothing that is not live. *)
Lemma scan_rows_matching f : index_covers f → filter (matches f) (scan_rows f) ≡ₚ matching_rows f.
Proof using Hinv.
  intros Hc. unfold scan_rows, matching_rows. destruct (indexCandidates c f) as [ids|] eqn:E.
  2:{ apply filter_Permutation. by apply live_rows. }
  destruct (Hc _ E) as [Hnd Hin]. apply NoDup_Permutation.
  - apply NoDup_filter, (NoDup_fmap_1 sr_ID), candidate_rows_NoDup. by rewrite sort_ids_perm.
  - apply NoDup_filter, (NoDup_fmap_1 sr_ID). unfold table_rows. rewrite <-list_fmap_compose. apply NoDup_fst_map_to_list.
  - intros r. rewrite !list_elem_of_filter, list_elem_of_omap. unfold table_rows, candidate_row. rewrite list_elem_of_fmap.
    split; (intros [Hm H]; split; [done|]).
    + destruct H as (id & _ & (a & Ha & ->)%fmap_Some). exists (id, a). split; [done|]. by apply elem_of_map_to_list.
    + destruct H as ([id a] & -> & Ha%elem_of_map_to_list). simpl in *. exists id.
      rewrite sort_ids_perm, Ha. split; [by eapply Hin|done].
Qed.

Context {L U : Type}.
Implicit Types (s : scan_state L U) (visit : ScanResult → SM L U unit).

Lemma visit_candidate_eq f visit id s :
  no_faults w → ss_ctx s = None →
  visit_candidate c f visit id (s, w) = for_each (scan_row f visit) (option_list (candidate_row id)) (s, w).
Proof using Hinv.
  intros Hw Hs. unfold visit_candidate. erewrite bind_ok by (by apply ctx_Err_none).
  pose proof (getStored_spec _ _ _ _ id Hinv Hw) as Hg. unfold candidate_row, live_now, live.
  destruct (coll_table logs log !! id) as [a|] eqn:Ha.
  - destruct (expired (a_exp a) (UnixNano (w_now w))) eqn:Hx.
    + erewrite bind_ok by (unfold on_coll; rewrite Hg; reflexivity). rewrite map_lookup_filter_None_2; [done|].
      right. intros a' Ha'. simplify_eq. simpl. by rewrite Hx.
    + destruct Hg as (e & ie & Hg & ->). erewrite bind_ok by (unfold on_coll; rewrite Hg; reflexivity).
      erewrite map_lookup_filter_Some_2; [|done|done]. cbn. by rewrite bind_mret_tt.
  - erewrite bind_ok by (unfold on_coll; rewrite Hg; reflexivity). rewrite map_lookup_filter_None_2; [done|]. by left.
Qed.

Definition scan_start (f : Filter) s : scan_state L U :=
  match indexCandidates c f with
  | Some _ => MkScanState (ss_ctx s) (index_used (ss_stats s)) (ss_local s) (ss_user s)
  | None => s
  end.

(** Every scan is a loop over [scan_rows]. *)
Lemma forEachMatch_spec f visit s :
  no_faults w → c_enc c = None → (∀ r, quiet_visit (visit r)) → ss_ctx s = None →
  forEachMatch c f visit (s, w) = for_each (scan_row f visit) (scan_rows f) (scan_start f s, w).
Proof using Hinv.
  intros Hw Henc Hv Hs. unfold forEachMatch, check_enc. rewrite Henc. erewrite bind_ok by reflexivity.
  unfold scan_rows, scan_start. destruct (indexCandidates c f) as [ids|]; [|by apply streamLive_rows].
  erewrite bind_ok by reflexivity. unfold visitCandidates.
  pose proof (omap_fmap_bind id candidate_row (sort_ids ids)) as Ho. rewrite list_fmap_id in Ho. rewrite Ho.
  apply for_each_flat; [eauto using scan_row_quiet|done|]. intros i s' _ Hs'. by apply visit_candidate_eq.
Qed.
End rows_by_index.

(** ** Visits that only fold the captured variables *)
Definition rows_scanned (n : nat) (st : ScanStats) : ScanStats :=
  MkScanStats (RowsScanned st + Z.of_nat n) (RowsReturned st) (IndexUsed st) (NextPageToken st).

Definition folds {L U} (step : L → ScanResult → L) (visit : ScanResult → SM L U unit) : Prop :=
  ∀ r s w, visit r (s, w) = (Ok tt, (MkScanState (ss_ctx s) (ss_stats s) (step (ss_local s) r) (ss_user s), w)).

Lemma folds_quiet {L U} step (visit : ScanResult → SM L U unit) r : folds step visit → quiet_visit (visit r).
Proof. intros H s w Hs. rewrite H. by eexists _, _. Qed.

Definition count_row {L U} (s : scan_state L U) : scan_state L U :=
  MkScanState (ss_ctx s) (scanned (ss_stats s)) (ss_local s) (ss_user s).

Lemma scan_row_yes {RE : Regexp} {L U} f (visit : ScanResult → SM L U unit) r s w :
  matches f r → scan_row f visit r (s, w) = visit r (count_row s, w).
Proof. unfold matches, scan_row. by intros ->. Qed.

Lemma scan_row_no {RE : Regexp} {L U} f (visit : ScanResult → SM L U unit) r s w :
  ¬ matches f r → scan_row f visit r (s, w) = (Ok tt, (count_row s, w)).
Proof. unfold matches, scan_row. by intros ->%not_true_is_false. Qed.

Lemma for_each_folds {RE : Regexp} {L U} step (visit : ScanResult → SM L U unit) f rows s w :
  folds step visit →
  for_each (scan_row f visit) rows (s, w) =
    (Ok tt, (MkScanState (ss_ctx s) (rows_scanned (length rows) (ss_stats s))
      (foldl step (ss_local s) (filter (matches f) rows)) (ss_user s), w)).
Proof.
  intros Hv. revert s. induction rows as [|r rows IH]; intros s.
  { cbn. destruct s as [? [] ? ?]. unfold rows_scanned. simpl. by rewrite Z.add_0_r. }
  cbn [for_each]. rewrite filter_cons.
  assert (∀ n st, rows_scanned n (scanned st) = rows_scanned (S n) st) as Hst.
  { intros n []. unfold rows_scanned, scanned. simpl. f_equal. lia. }
  destruct (decide (matches f r)) as [Hm|Hm].
  - erewrite bind_ok by (rewrite scan_row_yes by done; apply Hv). rewrite IH. simpl. by rewrite Hst.
  - erewrite bind_ok by (by rewrite scan_row_no). rewrite IH. simpl. by rewrite Hst.
Qed.

(** [forEachMatch] with a folding visit. *)
Lemma forEachMatch_folds {RE : Regexp} {L U} c w logs log f step (visit : ScanResult → SM L U unit) s :
  coll_inv c w logs log → no_faults w → c_enc c = None → folds step visit → ss_ctx s = None →
  ∃ st, forEachMatch c f visit (s, w) =
    (Ok tt, (MkScanState None st (foldl step (ss_local s) (filter (matches f) (scan_rows c w logs log f))) (ss_user s), w))
    ∧ RowsScanned st = (RowsScanned (ss_stats s) + Z.of_nat (length (scan_rows c w logs log f)))%Z
    ∧ RowsReturned st = RowsReturned (ss_stats s) ∧ NextPageToken st = NextPageToken (ss_stats s).
Proof.
  intros Hinv Hw Henc Hf Hs. erewrite forEachMatch_spec; [|done..|eauto using folds_quiet|done].
  rewrite (for_each_folds step) by done. destruct s as [ctx st l u]. simpl in *. subst ctx.
  unfold scan_start. destruct (indexCandidates c f); simpl; eexists; (split; [reflexivity|done]).
Qed.

(** ** Unordered scans *)

(** The rows from the offset on, at most the limit. *)
Definition window (opts : ScanOptions) (rows : list ScanResult) : list ScanResult :=
  let rest := drop (Z.to_nat (o_Offset opts)) rows in
  if (0 <? o_Limit opts)%Z then take (Z.to_nat (o_Limit opts)) rest else rest.

Definition project (opts : ScanOptions) (r : ScanResult) : ScanResult :=
  MkScanResult (sr_ID r) (sr_Rev r) (ProjectData (sr_Data r) (o_Fields opts)) (sr_Ts r).

Section emit.
Context {U : Type} (c : Collection) (opts : ScanOptions) (yield : ScanResult → SE U unit).
Context (Henc : c_enc c = None).

Definition emit_rows (rows : list ScanResult) : SE U unit := for_each (λ r, yield (project opts r)) rows.

Lemma emit_rows_cons r rows u :
  emit_rows (r :: rows) u =
    match yield (project opts r) u with (Ok _, u') => emit_rows rows u' | (Err e, u') => (Err e, u') end.
Proof using Type. unfold emit_rows. cbn. unfold mbind, SE_bind. by destruct (yield (project opts r) u) as [[]]. Qed.

Lemma counting_eq L r (s : scan_state L U) w :
  counting c opts yield L r (s, w) =
    let '(res, u) := yield (project opts r) (ss_user s) in
    (res, (MkScanState (ss_ctx s) (match res with Ok _ => returned (ss_stats s) | Err _ => ss_stats s end) (ss_local s) u, w)).
Proof using Henc.
  unfold counting, finalizeRecord. rewrite Henc. erewrite bind_ok by reflexivity.
  unfold on_user, mbind, SE_bind. fold (project opts r). simpl.
  destruct (yield (project opts r) (ss_user s)) as [[[]|e] u]; done.
Qed.

Lemma counting_quiet L r : quiet_visit (counting c opts yield L r).
Proof using Henc.
  intros s w Hs. rewrite counting_eq. destruct (yield (project opts r) (ss_user s)) as [res u]. by eexists _, _.
Qed.

Lemma unordered_quiet r : quiet_visit (unordered_visit opts (counting c opts yield _) r).
Proof using Henc.
  intros s w Hs. unfold unordered_visit. erewrite bind_ok by reflexivity. destruct (ss_local s) as [sk em].
  case_match; [by eexists _, _|].
  destruct (counting_quiet (Z * Z) r s w Hs) as ([[]|e] & s' & Hrun & Hs').
  - erewrite bind_ok by exact Hrun. erewrite bind_ok by reflexivity. case_match; by eexists _, _.
  - erewrite bind_err by exact Hrun. by eexists _, _.
Qed.

Lemma unordered_loop {RE : Regexp} f rows sk em st u w :
  ((0 < o_Limit opts)%Z → (em < o_Limit opts)%Z) →
  let rest := drop (Z.to_nat (o_Offset opts - sk)) (filter (matches f) rows) in
  let page := if (0 <? o_Limit opts)%Z then take (Z.to_nat (o_Limit opts - em)) rest else rest in
  ∃ st' l', for_each (scan_row f (unordered_visit opts (counting c opts yield _))) rows
      (MkScanState None st (sk, em) u, w) =
    let '(res, u') := emit_rows page u in
    (match res with
     | Ok _ => if ((0 <? o_Limit opts) && (o_Limit opts - em <=? Z.of_nat (length rest)))%Z%bool
               then Err ErrStopScan else Ok tt
     | Err e => Err e
     end, (MkScanState None st' l' u', w)).
Proof using Henc.
  revert sk em st u. induction rows as [|r rows IH]; intros sk em st u Hem; cbn zeta.
  { cbn [filter list_filter]. rewrite drop_nil, take_nil. exists st, (sk, em).
    destruct (Z.ltb_spec 0 (o_Limit opts)) as [Hl|Hl]; simpl; [|done].
    rewrite (proj2 (Z.leb_gt _ _)) by lia. done. }
  rewrite filter_cons. cbn [for_each]. destruct (decide (matches f r)) as [Hm|Hm].
  2:{ erewrite bind_ok by (by rewrite scan_row_no). by apply IH. }
  assert (scan_row f (unordered_visit opts (counting c opts yield _)) r (MkScanState None st (sk, em) u, w) =
    unordered_visit opts (counting c opts yield _) r (MkScanState None (scanned st) (sk, em) u, w)) as Hrow
    by (by rewrite scan_row_yes).
  unfold mbind at 1, SE_bind at 1. rewrite Hrow. clear Hrow.
  unfold unordered_visit. unfold mbind at 1, SE_bind at 1. cbn [locals ss_local].
  destruct (Z.ltb_spec sk (o_Offset opts)) as [Hsk|Hsk].
  { unfold set_locals. cbn [ss_ctx ss_stats ss_user].
    replace (Z.to_nat (o_Offset opts - sk)) with (S (Z.to_nat (o_Offset opts - (sk + 1)))) by lia. by apply IH. }
  replace (Z.to_nat (o_Offset opts - sk)) with 0 by lia. rewrite drop_0.
  unfold mbind at 1, SE_bind at 1. rewrite counting_eq. cbn [ss_user].
  assert (∃ page', (if (0 <? o_Limit opts)%Z then take (Z.to_nat (o_Limit opts - em)) (r :: filter (matches f) rows)
    else r :: filter (matches f) rows) = r :: page' ∧
    page' = if (0 <? o_Limit opts)%Z then take (Z.to_nat (o_Limit opts - (em + 1))) (filter (matches f) rows)
            else filter (matches f) rows) as (page' & -> & Hpage').
  { eexists. split; [|reflexivity]. destruct (Z.ltb_spec 0 (o_Limit opts)) as [Hl|Hl]; [|done].
    specialize (Hem Hl). by replace (Z.to_nat (o_Limit opts - em)) with (S (Z.to_nat (o_Limit opts - (em + 1)))) by lia. }
  rewrite emit_rows_cons.
  destruct (yield (project opts r) u) as [[[]|e] u1]; [|by eexists _, _].
  cbn [ss_ctx ss_stats ss_local]. unfold mbind at 1, SE_bind at 1, set_locals at 1. cbn [ss_ctx ss_stats ss_user].
  destruct ((0 <? o_Limit opts)%Z && (o_Limit opts <=? em + 1)%Z) eqn:Hstop.
  - bools. assert (page' = []) as ->.
    { rewrite Hpage'. rewrite (proj2 (Z.ltb_lt _ _)) by done.
      by replace (Z.to_nat (o_Limit opts - (em + 1))) with 0 by lia. }
    cbn. rewrite (proj2 (Z.ltb_lt 0 (o_Limit opts))) by done. simpl.
    rewrite (proj2 (Z.leb_le _ _)) by lia. by eexists _, _.
  - destruct (IH sk (em + 1)%Z (returned (scanned st)) u1) as (st' & l' & Hrun).
    { intros Hl. apply andb_false_iff in Hstop as [?|?]; bools; lia. }
    replace (Z.to_nat (o_Offset opts - sk)) with 0 in Hrun by lia. rewrite drop_0, <-Hpage' in Hrun.
    exists st', l'. etrans; [exact Hrun|]. cbn [length].
    assert ((o_Limit opts - (em + 1) <=? Z.of_nat (length (filter (matches f) rows)))%Z =
      (o_Limit opts - em <=? Z.of_nat (S (length (filter (matches f) rows))))%Z) as -> by
      (apply eq_true_iff_eq; rewrite !Z.leb_le; lia). done.
Qed.
End emit.

(** What a scan relies on: the collection holds its log, no call fails, the data
    is not encrypted, and an index that serves the filter is up to date. *)
Record scannable {RE : Regexp} (c : Collection) (w : World) (logs : list (list (Z * Entry))) (log : list (Z * Entry))
    (f : Filter) : Prop := {
  sc_inv : coll_inv c w logs log;
  sc_faults : no_faults w;
  sc_plain : c_enc c = None;
  sc_index : index_covers c w logs log f
}.

Definition filter_of (opts : ScanOptions) : Filter := default MatchAll (o_Filter opts).

Lemma scan_stream_unordered {RE : Regexp} {U} c w logs log opts (yield : ScanResult → SE U unit) u :
  scannable c w logs log (filter_of opts) →
  effective_sort opts = [] → o_PageToken opts = "" → (∀ r u, (yield r u).1 ≠ Err ErrStopScan) →
  ∃ stats, ScanStream None c opts yield u w =
    let '(res, u') := emit_rows opts yield (window opts (filter (matches (filter_of opts))
      (scan_rows c w logs log (filter_of opts)))) u in
    (res, stats, u', w).
Proof.
  intros [Hinv Hw Henc Hidx] Hsort Htok Hy. unfold ScanStream, scan_stream, check_enc. rewrite Henc.
  erewrite bind_ok by reflexivity. rewrite Hsort, Htok, !bool_decide_true by done. cbn [andb]. fold (filter_of opts).
  unfold scanUnordered, stop_is_ok, with_locals. unfold mbind at 1, SE_bind at 1. cbn [ss_ctx ss_stats ss_user].
  erewrite forEachMatch_spec; [|done..|intros; by apply unordered_quiet|done].
  set (s0 := scan_start c (filter_of opts) (MkScanState None zero_stats (0, 0)%Z u)).
  assert (∃ st, s0 = MkScanState None st (0, 0)%Z u) as (st & ->).
  { unfold s0, scan_start. case_match; by eexists. }
  destruct (unordered_loop c opts yield Henc (filter_of opts) (scan_rows c w logs log (filter_of opts)) 0 0 st u w)
    as (st' & l' & ->); [lia|].
  rewrite !Z.sub_0_r. unfold window.
  set (page := if (0 <? o_Limit opts)%Z then _ else _).
  destruct (emit_rows opts yield page u) as [[[]|e] u'] eqn:E.
  - destruct ((0 <? o_Limit opts)%Z && _); cbn; by eexists.
  - cbn. rewrite bool_decide_false; [by eexists|]. intros ->.
    assert (∀ rows u u', emit_rows opts yield rows u ≠ (Err ErrStopScan, u')) as Hno; [|by eapply Hno].
    clear -Hy. intros rows. induction rows as [|r rows IH]; intros u u'; [done|]. rewrite emit_rows_cons.
    pose proof (Hy (project opts r) u). destruct (yield (project opts r) u) as [[]]; [apply IH|simpl in *; congruence].
Qed.

(** ** Sort orders *)

(** A comparison that is a total preorder on the rows of [P]. *)
Record preorder_on (P : ScanResult → Prop) (cmp : ScanResult → ScanResult → Z) : Prop := {
  po_antisym : ∀ a b, P a → P b → cmp a b = (- cmp b a)%Z;
  po_trans : ∀ a b c, P a → P b → P c → (cmp a b ≤ 0)%Z → (cmp b c ≤ 0)%Z → (cmp a c ≤ 0)%Z
}.

Definition field_cmp (sf : SortField) (a b : ScanResult) : Z :=
  let c := Compare (data_at a (sf_Field sf)) (data_at b (sf_Field sf)) in if sf_Desc sf then (- c)%Z else c.

(** The values of the sort fields are of one kind, field by field. *)
Definition sortable (fields : list SortField) (P : ScanResult → Prop) : Prop :=
  ∀ sf, sf ∈ fields → ∃ k, ∀ r, P r → has_kind k (data_at r (sf_Field sf)) = true.

Lemma field_cmp_preorder sf P k :
  (∀ r, P r → has_kind k (data_at r (sf_Field sf)) = true) → preorder_on P (field_cmp sf).
Proof.
  intros Hk. unfold field_cmp. split.
  - intros a b Ha Hb. pose proof (Compare_kind_antisym k _ _ (Hk a Ha) (Hk b Hb)). destruct (sf_Desc sf); lia.
  - intros a b d Ha Hb Hd.
    pose proof (Compare_trans_le k _ _ _ (Hk a Ha) (Hk b Hb) (Hk d Hd)).
    pose proof (Compare_trans_le k _ _ _ (Hk d Hd) (Hk b Hb) (Hk a Ha)).
    pose proof (Compare_kind_antisym k _ _ (Hk a Ha) (Hk b Hb)). pose proof (Compare_kind_antisym k _ _ (Hk b Hb) (Hk d Hd)).
    pose proof (Compare_kind_antisym k _ _ (Hk a Ha) (Hk d Hd)). destruct (sf_Desc sf); lia.
Qed.

Lemma sortLess_cons sf fields a b :
  sortLess (sf :: fields) a b = true ↔
    (field_cmp sf a b < 0)%Z ∨ (field_cmp sf a b = 0%Z ∧ sortLess fields a b = true).
Proof.
  cbn [sortLess]. fold (field_cmp sf a b). destruct (Z.eqb_spec (field_cmp sf a b) 0) as [->|Hne].
  - split; [by right|by intros [?|[_ ?]]].
  - rewrite Z.ltb_lt. naive_solver.
Qed.

Lemma sortLess_ordered fields P : sortable fields P → ordered_on (sortLess fields) P.
Proof.
  induction fields as [|sf fields IH]; intros Hs.
  { split; cbn [sortLess]; intros; bools; rewrite ?N.ltb_lt, ?N.ltb_ge; lia. }
  destruct IH as [Hi Ht Hn]; [intros ??; apply Hs, elem_of_cons; by right|].
  destruct (Hs sf) as [k Hk]; [apply elem_of_cons; by left|].
  pose proof (field_cmp_preorder sf P k Hk) as [Ha Hc].
  assert (∀ a b, sortLess (sf :: fields) a b = false ↔
    ¬ ((field_cmp sf a b < 0)%Z ∨ (field_cmp sf a b = 0%Z ∧ sortLess fields a b = true))) as Hf.
  { intros a b. rewrite <-sortLess_cons. symmetry. apply not_true_iff_false. }
  split.
  - intros a HP. rewrite Hf, Hi by done. pose proof (Ha a a HP HP). naive_solver lia.
  - intros a b d Pa Pb Pd. rewrite !sortLess_cons. specialize (Ht a b d Pa Pb Pd).
    pose proof (Hc a b d Pa Pb Pd). pose proof (Hc b d a Pb Pd Pa). pose proof (Hc d a b Pd Pa Pb).
    pose proof (Hc d b a Pd Pb Pa). pose proof (Hc a d b Pa Pd Pb). pose proof (Hc b a d Pb Pa Pd).
    pose proof (Ha a b Pa Pb). pose proof (Ha b d Pb Pd). pose proof (Ha a d Pa Pd).
    intros [?|[? ?]] [?|[? ?]]; [left; lia..|right; split; [lia|auto]].
  - intros a b d Pa Pb Pd. rewrite !Hf. specialize (Hn a b d Pa Pb Pd).
    pose proof (Hc a b d Pa Pb Pd). pose proof (Hc b d a Pb Pd Pa). pose proof (Hc d a b Pd Pa Pb).
    pose proof (Hc d b a Pd Pb Pa). pose proof (Hc a d b Pa Pd Pb). pose proof (Hc b a d Pb Pa Pd).
    pose proof (Ha a b Pa Pb). pose proof (Ha b d Pb Pd). pose proof (Ha a d Pa Pd).
    intros G1 G2 G3. assert (0 ≤ field_cmp sf a b)%Z by (apply Z.nlt_ge; tauto).
    assert (0 ≤ field_cmp sf b d)%Z by (apply Z.nlt_ge; tauto). destruct G3 as [?|[? G3]]; [lia|].
    assert (field_cmp sf a b = 0%Z ∧ field_cmp sf b d = 0%Z) as [E1 E2] by lia.
    rewrite Hn in G3; [done|..]; apply not_true_iff_false; naive_solver.
Qed.

Lemma sortLess_strict fields P :
  sortable fields P → (∀ a b, P a → P b → sr_ID a = sr_ID b → a = b) → strict_on (sortLess fields) P.
Proof.
  intros Hs Hid a b Pa Pb Hab Hba. apply Hid; [done..|]. unfold le in *. revert Hs Hab Hba.
  induction fields as [|sf fields IH]; intros Hs Hab Hba.
  { cbn [sortLess] in *. bools. lia. }
  destruct (Hs sf) as [k Hk]; [apply elem_of_cons; by left|].
  pose proof (field_cmp_preorder sf P k Hk) as [Ha _]. specialize (Ha a b Pa Pb).
  apply not_true_iff_false in Hab, Hba. rewrite sortLess_cons in Hab, Hba.
  assert (field_cmp sf a b = 0%Z) as E by (destruct (Z.lt_total (field_cmp sf a b) 0) as [?|[?|?]]; [naive_solver|done|];
    exfalso; apply Hab; left; lia).
  apply IH; [intros ??; apply Hs, elem_of_cons; by right|apply not_true_iff_false; naive_solver lia..].
Qed.

(** ** Ordered scans *)
Section ordered.
Context {U : Type} (less : ScanResult → ScanResult → bool) (after : option (ScanResult → bool)).

Definition past (r : ScanResult) : Prop := passes after r = true.
#[global] Instance past_dec r : Decision (past r).
Proof. unfold past. apply _. Defined.

Definition all_step (mp : Z * list ScanResult) (r : ScanResult) : Z * list ScanResult :=
  if passes after r then (mp.1 + 1, mp.2 ++ [r])%Z else mp.
Definition top_step (mt : Z * topK) (r : ScanResult) : Z * topK :=
  if passes after r then (mt.1 + 1, push less mt.2 r)%Z else mt.

Lemma collect_all_folds : folds all_step (collect_all (U := U) after).
Proof. intros r [ctx st l u] w. unfold collect_all, all_step. erewrite bind_ok by reflexivity. by case_match. Qed.

Lemma collect_top_folds : folds top_step (collect_top (U := U) less after).
Proof. intros r [ctx st l u] w. unfold collect_top, top_step. erewrite bind_ok by reflexivity. by case_match. Qed.

Lemma foldl_all_step l n p :
  foldl all_step (n, p) l = ((n + Z.of_nat (length (filter past l)))%Z, p ++ filter past l).
Proof.
  revert n p. induction l as [|r l IH]; intros n p; cbn [foldl].
  { cbn. by rewrite Z.add_0_r, app_nil_r. }
  rewrite filter_cons. unfold all_step at 2. destruct (decide (past r)) as [Hp|Hp]; unfold past in Hp.
  - rewrite Hp, IH. cbn [fst snd length]. rewrite <-app_assoc. f_equal. lia.
  - apply not_true_is_false in Hp. by rewrite Hp, IH.
Qed.

Lemma foldl_top_step l n t :
  foldl top_step (n, t) l = ((n + Z.of_nat (length (filter past l)))%Z, foldl (push less) t (filter past l)).
Proof.
  revert n t. induction l as [|r l IH]; intros n t; cbn [foldl].
  { cbn. by rewrite Z.add_0_r. }
  rewrite filter_cons. unfold top_step at 2. destruct (decide (past r)) as [Hp|Hp]; unfold past in Hp.
  - rewrite Hp, IH. cbn [fst snd length foldl]. f_equal. lia.
  - apply not_true_is_false in Hp. by rewrite Hp, IH.
Qed.
End ordered.

(** The offset and limit of a page are within the range of [int]. *)
Definition page_bounds (opts : ScanOptions) : Prop :=
  (0 ≤ o_Offset opts)%Z ∧ ((0 < o_Limit opts)%Z → (o_Offset opts + o_Limit opts < 2 ^ 63)%Z).

Lemma offset_limit_eq opts :
  page_bounds opts → (0 < o_Limit opts)%Z → offset_limit opts = (o_Offset opts + o_Limit opts)%Z.
Proof.
  intros [H1 H2] Hl. specialize (H2 Hl). unfold offset_limit, int64_wrap.
  rewrite Z.mod_small; [lia|]. split; [lia|]. change (2 ^ 64)%Z with (2 ^ 63 + 2 ^ 63)%Z. lia.
Qed.

Lemma cut_page_window opts rows :
  page_bounds opts →
  cut_page opts (if (0 <? o_Limit opts)%Z then take (Z.to_nat (offset_limit opts)) rows else rows) = Ok (window opts rows).
Proof.
  intros Hb. pose proof Hb as [Ho _]. unfold cut_page, window, slice_from, slice_to.
  rewrite (proj2 (Z.ltb_ge (o_Offset opts) 0)) by done.
  destruct (Z.ltb_spec 0 (o_Limit opts)) as [Hl|Hl].
  - rewrite offset_limit_eq, Z2Nat.inj_add by (done || lia). rewrite length_take, <-take_drop_commute.
    case_match eqn:Hlt; cbn [mbind result_bind]; f_equal.
    + cbn [andb]. rewrite length_take, length_drop.
      destruct (Z.ltb_spec (o_Limit opts) (Z.of_nat (Z.to_nat (o_Limit opts) `min` (length rows - Z.to_nat (o_Offset opts)))));
        [|done]. rewrite take_take. f_equal. lia.
    + bools. rewrite drop_ge by lia. rewrite take_nil. by case_match.
  - destruct (Z.ltb_spec (o_Offset opts) (Z.of_nat (length rows))); cbn; [done|]. by rewrite drop_ge by lia.
Qed.

Lemma counting_loop {U} c opts (yield : ScanResult → SE U unit) L rows (s : scan_state L U) w :
  c_enc c = None →
  ∃ st, for_each (counting c opts yield L) rows (s, w) =
    (let '(res, u) := emit_rows opts yield rows (ss_user s) in (res, (MkScanState (ss_ctx s) st (ss_local s) u, w)))
    ∧ NextPageToken st = NextPageToken (ss_stats s).
Proof.
  intros Henc. revert s. induction rows as [|r rows IH]; intros s.
  { exists (ss_stats s). by destruct s. }
  cbn [for_each]. rewrite emit_rows_cons. unfold mbind at 1, SE_bind at 1. rewrite counting_eq by done.
  destruct (yield (project opts r) (ss_user s)) as [[[]|e] u]; [|by eexists].
  destruct (IH (MkScanState (ss_ctx s) (returned (ss_stats s)) (ss_local s) u)) as (st & -> & Ht). by exists st.
Qed.

(** The rows of an ordered scan, in its order. *)
Definition ordered_rows {RE : Regexp} (w : World) (logs : list (list (Z * Entry))) (log : list (Z * Entry))
    (f : Filter) (fields : list SortField) (after : option (ScanResult → bool)) : list ScanResult :=
  SliceStable (sortLess fields) (filter (past after) (matching_rows w logs log f)).

Lemma matching_ids {RE : Regexp} w logs log f a b :
  a ∈ matching_rows w logs log f → b ∈ matching_rows w logs log f → sr_ID a = sr_ID b → a = b.
Proof.
  unfold matching_rows, table_rows. intros [_ Ha]%list_elem_of_filter [_ Hb]%list_elem_of_filter.
  apply list_elem_of_fmap in Ha as ([i x] & -> & Hx%elem_of_map_to_list), Hb as ([j y] & -> & Hy%elem_of_map_to_list).
  simpl. intros ->. by simplify_eq.
Qed.

(** Sorting does not depend on the order in which rows were met. *)
Lemma sorted_matching {RE : Regexp} w logs log f fields rows :
  sortable fields (λ r, r ∈ matching_rows w logs log f) → (∀ r, r ∈ rows → r ∈ matching_rows w logs log f) →
  ∀ rows', rows' ≡ₚ rows → SliceStable (sortLess fields) rows' = SliceStable (sortLess fields) rows.
Proof.
  intros Hs Hin rows' Hp. set (P := λ r, r ∈ matching_rows w logs log f) in *.
  pose proof (sortLess_ordered fields P Hs) as Ho.
  assert (Forall P rows) as HP by (by apply Forall_forall).
  assert (Forall P rows') as HP' by (by rewrite Hp).
  apply (SliceStable_unique _ P Ho); [|done|by rewrite SliceStable_perm|by apply (SliceStable_sorted _ P Ho)].
  apply sortLess_strict; [done|]. apply matching_ids.
Qed.

Lemma ordered_rows_spec {RE : Regexp} w logs log f fields after :
  sortable fields (λ r, r ∈ matching_rows w logs log f) →
  ordered_rows w logs log f fields after ≡ₚ filter (past after) (matching_rows w logs log f) ∧
  StronglySorted (le (sortLess fields)) (ordered_rows w logs log f fields after).
Proof.
  intros Hs. pose proof (sortLess_ordered _ _ Hs) as Ho. split; [apply SliceStable_perm|]. apply (SliceStable_sorted _ _ Ho).
  apply Forall_forall. by intros r [_ ?]%list_elem_of_filter.
Qed.

Section scan_ordered.
Context {RE : Regexp} {U : Type} (c : Collection) (w : World) (logs : list (list (Z * Entry))) (log : list (Z * Entry)).
Context (opts : ScanOptions) (yield : ScanResult → SE U unit) (fields : list SortField) (after : option (ScanResult → bool)).
Context (Hsc : scannable c w logs log (filter_of opts)).
Context (Hs : sortable fields (λ r, r ∈ matching_rows w logs log (filter_of opts))).
Context (Hb : page_bounds opts).

(** The first half of an ordered scan: how many rows are past the cursor, and the
    rows of the page with those before its offset. *)
Lemma ordered_collect (u : U) :
  ∃ st, (if (0 <? o_Limit opts)%Z then
          mt ← with_locals (0%Z, MkTopK (offset_limit opts) []) (forEachMatch c (filter_of opts) (collect_top (sortLess fields) after));
          mret (mt.2.1, sorted (sortLess fields) mt.2.2)
        else
          mp ← with_locals (0%Z, []) (forEachMatch c (filter_of opts) (collect_all after));
          mret (mp.2.1, SliceStable (sortLess fields) mp.2.2) : SM unit U (Z * list ScanResult))
      (MkScanState None zero_stats tt u, w) =
    (Ok (Z.of_nat (length (ordered_rows w logs log (filter_of opts) fields after)),
       if (0 <? o_Limit opts)%Z then take (Z.to_nat (offset_limit opts)) (ordered_rows w logs log (filter_of opts) fields after)
       else ordered_rows w logs log (filter_of opts) fields after), (MkScanState None st tt u, w)) ∧
    NextPageToken st = "".
Proof using Hsc Hs Hb.
  destruct Hsc as [Hinv Hw Henc Hidx]. set (f := filter_of opts) in *.
  set (P := λ r, r ∈ matching_rows w logs log f) in *. pose proof (sortLess_ordered fields P Hs) as Ho.
  pose proof (sortLess_strict fields P Hs (matching_ids w logs log f)) as Hst.
  pose proof (scan_rows_matching c w logs log Hinv f Hidx) as Hperm.
  set (m := filter (past after) (filter (matches f) (scan_rows c w logs log f))).
  assert (m ≡ₚ filter (past after) (matching_rows w logs log f)) as Hm by (unfold m; by rewrite Hperm).
  assert (Forall P m) as HPm. { rewrite Hm. apply Forall_forall. by intros r [_ ?]%list_elem_of_filter. }
  assert (SliceStable (sortLess fields) m = ordered_rows w logs log f fields after) as Hsort.
  { apply (sorted_matching w logs log f); [done| |done]. by intros r [_ ?]%list_elem_of_filter. }
  assert (length m = length (ordered_rows w logs log f fields after)) as Hlen.
  { rewrite <-Hsort. by rewrite SliceStable_perm. }
  destruct (Z.ltb_spec 0 (o_Limit opts)) as [Hl|Hl].
  - destruct (forEachMatch_folds c w logs log f (top_step (sortLess fields) after) (collect_top (U := U) (sortLess fields) after)
      (MkScanState None zero_stats (0%Z, MkTopK (offset_limit opts) []) u)) as (st & Hrun & _ & _ & Ht);
      [done..|apply collect_top_folds|done|].
    exists st. split; [|done]. erewrite bind_ok; [|unfold with_locals; cbn [ss_ctx ss_stats ss_user]; rewrite Hrun; reflexivity].
    cbn [ss_local ss_ctx ss_stats ss_user fst snd]. rewrite foldl_top_step. fold m. cbn [fst snd].
    rewrite (topK_run _ P Ho), Hsort, Hlen; [done|done| |done]. rewrite offset_limit_eq by done. destruct Hb. lia.
  - destruct (forEachMatch_folds c w logs log f (all_step after) (collect_all (U := U) after)
      (MkScanState None zero_stats (0%Z, []) u)) as (st & Hrun & _ & _ & Ht); [done..|apply collect_all_folds|done|].
    exists st. split; [|done]. erewrite bind_ok; [|unfold with_locals; cbn [ss_ctx ss_stats ss_user]; rewrite Hrun; reflexivity].
    cbn [ss_local ss_ctx ss_stats ss_user fst snd]. rewrite foldl_all_step. fold m. cbn [fst snd app].
    by rewrite Hsort, Hlen.
Qed.

Lemma scan_stream_ordered (u : U) :
  effective_sort opts = fields → ¬ (fields = [] ∧ o_PageToken opts = "") → cursorAfter (o_PageToken opts) fields = Ok after →
  let S := ordered_rows w logs log (filter_of opts) fields after in
  let token := page_token opts fields (Z.of_nat (length S)) (window opts S) in
  ∃ stats, ScanStream None c opts yield u w =
    (let '(res, u') := emit_rows opts yield (window opts S) u in
     (match res with Ok _ => (λ _, tt) <$> token | Err e => Err e end, stats, u', w)) ∧
    NextPageToken stats = match (emit_rows opts yield (window opts S) u).1, token with
      | Ok _, Ok (Some tok) => tok | _, _ => "" end.
Proof using Hsc Hs Hb.
  intros Hf Hord Hc S token. destruct Hsc as [Hinv Hw Henc Hidx].
  unfold ScanStream, scan_stream, check_enc. rewrite Henc, Hf. erewrite bind_ok by reflexivity.
  assert (bool_decide (fields = []) && bool_decide (o_PageToken opts = "") = false) as ->.
  { apply not_true_iff_false. intros ?. bools. naive_solver. }
  fold (filter_of opts). unfold scanOrdered. rewrite Hc. erewrite bind_ok by reflexivity.
  destruct (ordered_collect u) as (st & Hrun & Ht). erewrite bind_ok by exact Hrun.
  cbv beta iota. fold S. rewrite cut_page_window by done. erewrite bind_ok by reflexivity.
  destruct (counting_loop c opts yield unit (window opts S) (MkScanState None st tt u) w Henc) as (st' & Hemit & Ht').
  cbn [ss_user ss_ctx ss_local ss_stats] in Hemit, Ht'.
  destruct (emit_rows opts yield (window opts S) u) as [[[]|e] u'].
  - erewrite bind_ok by exact Hemit. fold token. destruct token as [[tok|]|e]; eexists; (split; [reflexivity|]); cbn; congruence.
  - erewrite bind_err by exact Hemit. eexists. split; [reflexivity|]. cbn. congruence.
Qed.
End scan_ordered.

(** ** Properties *)

(** Unordered scans: the caller's function receives, in the order of the scan
    and up to its own first error, the rows from the offset on, at most the limit,
    of the live records the filter accepts; each record is visited once, projected
    to the requested fields, and the world is unchanged.  The filter may be
    answered from the segments or from an index. *)
Theorem scan_unordered_exact {RE : Regexp} {U : Type} (c : Collection) (w : World)
    (logs : list (list (Z * Entry))) (log : list (Z * Entry)) (opts : ScanOptions) (yield : ScanResult → SE U unit) (u : U) :
  scannable c w logs log (filter_of opts) →
  effective_sort opts = [] → o_PageToken opts = "" → (∀ r u, (yield r u).1 ≠ Err ErrStopScan) →
  ∃ rows stats, rows ≡ₚ matching_rows w logs log (filter_of opts) ∧
    ScanStream None c opts yield u w =
      let '(res, u') := emit_rows opts yield (window opts rows) u in (res, stats, u', w).
Proof.
  intros Hsc Hs Ht Hy. destruct (scan_stream_unordered c w logs log opts yield u Hsc Hs Ht Hy) as (stats & Hrun).
  eexists _, stats. split; [|exact Hrun]. apply scan_rows_matching; apply Hsc.
Qed.

(** [C22] Ordered scans, on a collection that is not encrypted and while no
    system call fails. If the values of each sort field are of one kind over
    the matching records ([sortable]; the comparison has cycles over mixed
    kinds), the index that serves the filter, if any, lists every match
    ([index_covers], in [scannable]; see [eq_index_misses]), and offset and
    limit do not overflow ([page_bounds]), the caller's function receives the
    requested window of the matching rows past the page token, sorted by the
    sort fields with the id breaking ties, up to its own first error; the
    outcome and the next token are those of [page_token]. The bounded buffer
    changes nothing. *)
Theorem scan_ordered_exact {RE : Regexp} {U : Type} (c : Collection) (w : World)
    (logs : list (list (Z * Entry))) (log : list (Z * Entry)) (opts : ScanOptions) (yield : ScanResult → SE U unit) (u : U)
    (after : option (ScanResult → bool)) :
  scannable c w logs log (filter_of opts) → page_bounds opts →
  sortable (effective_sort opts) (λ r, r ∈ matching_rows w logs log (filter_of opts)) →
  ¬ (effective_sort opts = [] ∧ o_PageToken opts = "") →
  cursorAfter (o_PageToken opts) (effective_sort opts) = Ok after →
  ∃ rows stats, rows ≡ₚ filter (past after) (matching_rows w logs log (filter_of opts)) ∧
    StronglySorted (le (sortLess (effective_sort opts))) rows ∧
    let token := page_token opts (effective_sort opts) (Z.of_nat (length rows)) (window opts rows) in
    let '(res, u') := emit_rows opts yield (window opts rows) u in
    ScanStream None c opts yield u w =
      (match res with Ok _ => (λ _, tt) <$> token | Err e => Err e end, stats, u', w) ∧
    NextPageToken stats = match res, token with Ok _, Ok (Some tok) => tok | _, _ => "" end.
Proof.
  intros Hsc Hb Hs Hne Hc.
  destruct (scan_stream_ordered c w logs log opts yield (effective_sort opts) after Hsc Hs Hb u) as (stats & Hrun & Htok); [done..|].
  eexists _, stats. destruct (ordered_rows_spec w logs log (filter_of opts) (effective_sort opts) after Hs) as [Hp Hsort].
  split_and!; [exact Hp|exact Hsort|]. cbv zeta.
  destruct (emit_rows opts yield _ u) as [res u'] eqn:E. by split.
Qed.

(** ** A collection with two records *)
Definition duo_entry : Entry := insert_entry (MkWorld ∅ [] stamp 0) 2 rec_b 0.
Definition duo_line : bytes := match Encode duo_entry with Ok b => b | Err _ => [] end.
Definition duo_size : Z := s_size (c_active demo_coll).
Definition duo_log : list (Z * Entry) := demo_log ++ [(duo_size, written duo_entry)].
Definition duo_base : Collection := set_idSeq 2 demo_coll.
Definition duo_coll : Collection :=
  set_index (rebuild_entry (segmentPath demo_dir 1) (c_index demo_coll) duo_size (written duo_entry))
    (set_active (grown (c_active demo_coll) duo_line) duo_base).
Definition duo_world : World := append_world (c_active demo_coll) duo_line demo_world.

Lemma duo_inv : coll_inv duo_coll duo_world [] duo_log.
Proof.
  assert (coll_inv duo_base demo_world [] demo_log) as Hbase.
  { destruct demo_inv as [H1 H2 H3 H4 H5 H6 H7 H8]. split; try done.
    intros o e Hin. specialize (H8 o e Hin). change (c_idSeq duo_base) with 2%N. change (c_idSeq demo_coll) with 1%N in H8. lia. }
  assert (wf_entry duo_entry) as He.
  { apply wf_plain_entry; [done|done|by left|vm_compute; reflexivity|apply demo_data|done]. }
  destruct (Encode_segment_log duo_entry duo_size He) as (b & Hb & Hlog); [vm_compute; discriminate|].
  assert (duo_line = b) as Hl by (unfold duo_line; by rewrite Hb). subst b.
  refine (append_inv duo_base demo_world [] demo_log duo_entry duo_line _ (written duo_entry) Hbase Hlog _ _ eq_refl).
  - vm_compute. reflexivity.
  - vm_compute. discriminate.
Qed.

(** Largest value first, one row at a time. *)
Definition duo_opts : ScanOptions := MkScanOptions None 1 0 "a" true [] "" [].

Lemma duo_scannable : @scannable no_regexp duo_coll duo_world [] duo_log MatchAll.
Proof. split; [apply duo_inv|reflexivity|reflexivity|]. intros ids. discriminate. Qed.

Lemma duo_matching :
  @matching_rows no_regexp duo_world [] duo_log MatchAll =
    [MkScanResult 1 1 (norm_doc <$> rec_a) stamp; MkScanResult 2 1 (norm_doc <$> rec_b) stamp] ∨
  @matching_rows no_regexp duo_world [] duo_log MatchAll =
    [MkScanResult 2 1 (norm_doc <$> rec_b) stamp; MkScanResult 1 1 (norm_doc <$> rec_a) stamp].
Proof. vm_compute. auto. Qed.

Lemma duo_row r :
  r ∈ @matching_rows no_regexp duo_world [] duo_log MatchAll →
  r = MkScanResult 1 1 (norm_doc <$> rec_a) stamp ∨ r = MkScanResult 2 1 (norm_doc <$> rec_b) stamp.
Proof. destruct duo_matching as [-> | ->]; rewrite !elem_of_cons, elem_of_nil; naive_solver. Qed.

Lemma duo_sortable : sortable (effective_sort duo_opts) (λ r, r ∈ @matching_rows no_regexp duo_world [] duo_log MatchAll).
Proof.
  intros sf Hsf%list_elem_of_singleton. subst sf. exists KNum. intros r [-> | ->]%duo_row; vm_compute; reflexivity.
Qed.

Lemma scan_unordered_exact_witness :
  ∃ rows stats, rows ≡ₚ @matching_rows no_regexp duo_world [] duo_log MatchAll ∧
    @ScanStream no_regexp _ None duo_coll no_options append_row [] duo_world =
      let '(res, u') := emit_rows no_options append_row (window no_options rows) [] in (res, stats, u', duo_world).
Proof.
  apply (@scan_unordered_exact no_regexp _ duo_coll duo_world [] duo_log no_options append_row []).
  - apply duo_scannable.
  - reflexivity.
  - reflexivity.
  - intros r u. discriminate.
Defined.

Lemma scan_ordered_exact_witness :
  ∃ rows stats, rows ≡ₚ filter (past None) (@matching_rows no_regexp duo_world [] duo_log MatchAll) ∧
    StronglySorted (le (sortLess [MkSortField "a" true])) rows ∧
    let token := page_token duo_opts [MkSortField "a" true] (Z.of_nat (length rows)) (window duo_opts rows) in
    let '(res, u') := emit_rows duo_opts append_row (window duo_opts rows) [] in
    @ScanStream no_regexp _ None duo_coll duo_opts append_row [] duo_world =
      (match res with Ok _ => (λ _, tt) <$> token | Err e => Err e end, stats, u', duo_world) ∧
    NextPageToken stats = match res, token with Ok _, Ok (Some tok) => tok | _, _ => "" end.
Proof.
  apply (@scan_ordered_exact no_regexp _ duo_coll duo_world [] duo_log duo_opts append_row [] None).
  - apply duo_scannable.
  - split; simpl; lia.
  - apply duo_sortable.
  - intros [? _]. discriminate.
  - reflexivity.
Defined.
