(* ===== verification/Paging.v ===== *)
(** * Paging

    Page tokens round trip, a token resumes exactly after the row it was made
    from, and a client that follows tokens until there is none sees every
    matching row once, in order, and stops. *)

From S2P Require Import Prelude GoFloat GoTime GoJson GoBase64 Value Query Store Disk Segment Index SecIndex Collection CollectionSpec TopK Scan ScanSpec.

(** ** Tokens *)

(** A sort key as a stored record holds it: a value JSON can carry unchanged. *)
Definition key_ok (v : any) : Prop := wf_any v = true ∧ decoded v = true.

Lemma keys_json keys :
  Forall key_ok keys → ∃ js, mapR to_json keys = Ok js ∧ Forall wf_json js ∧ mapR of_json js = Ok keys.
Proof.
  induction 1 as [|v keys [Hw Hd] Hk (js & H1 & H2 & H3)]; [by exists []|].
  destruct (to_json_roundtrip v Hw) as (j & Hj & Hjw & Ho). rewrite norm_decoded in Ho by done.
  exists (j :: js). cbn [mapR]. rewrite Hj, H1, Ho, H3. auto.
Qed.

Lemma cursor_field_k cur js keys :
  mapR of_json js = Ok keys → set_cursor_field cur ("k", JArr js) = Ok (MkCursor keys (pc_ID cur)).
Proof.
  intros H. unfold set_cursor_field. cbv beta iota zeta. change (field_name "k") with "k".
  rewrite bool_decide_true by done. by rewrite H.
Qed.

Lemma cursor_field_i cur id :
  (id < 2 ^ 64)%N → set_cursor_field cur ("i", j_uint id) = Ok (MkCursor (pc_Keys cur) id).
Proof.
  intros H. unfold set_cursor_field. cbv beta iota zeta. change (field_name "i") with "i".
  rewrite bool_decide_false, bool_decide_true by done. unfold as_uint, j_uint. by rewrite parse_uint_json.
Qed.

Lemma decode_encode_cursor keys id :
  Forall key_ok keys → (id < 2 ^ 64)%N →
  ∃ tok, encodeCursor keys id = Ok tok ∧ tok ≠ "" ∧ decodeCursor tok = Ok (MkCursor keys id).
Proof.
  intros (js & H1 & H2 & H3)%keys_json Hid. unfold encodeCursor, cursor_json. cbn [pc_Keys pc_ID].
  rewrite H1. cbn [mbind result_bind]. eexists. split; [reflexivity|].
  assert (wf_json (JObj [("k", JArr js); ("i", j_uint id)])) as Hwf.
  { apply wf_json_obj. apply Forall_cons. split; [split; [done|by apply wf_json_arr]|].
    apply Forall_singleton. split; [done|apply wf_j_uint]. }
  split.
  - intros E%(f_equal to_bytes). rewrite to_of_bytes in E. by apply b64_encode_nil in E.
  - unfold decodeCursor. rewrite to_of_bytes, b64_decode_encode, parse_print_json by done.
    cbn [cursor_of_json set_cursor_fields]. rewrite (cursor_field_k _ _ keys) by done.
    cbn [mbind result_bind]. by rewrite cursor_field_i.
Qed.

(** ** Resuming after a row *)
Lemma boundary_data (g : string → any) (fields : list SortField) (d : doc) f :
  foldl (λ d kv, <[sf_Field kv.1 := kv.2]> d) d (zip fields (map (λ sf, g (sf_Field sf)) fields)) !! f =
    if decide (f ∈ sf_Field <$> fields) then Some (g f) else d !! f.
Proof.
  revert d. induction fields as [|sf fields IH]; intros d; [done|]. cbn [map zip zip_with foldl fst snd].
  rewrite IH, fmap_cons. destruct (decide (f ∈ sf_Field <$> fields)) as [Hin|Hin].
  - rewrite decide_True; [done|]. apply elem_of_cons. by right.
  - destruct (decide (f = sf_Field sf)) as [->|Hne].
    + rewrite lookup_insert_eq, decide_True; [done|]. apply elem_of_cons. by left.
    + rewrite lookup_insert_ne, decide_False by (done || set_solver). done.
Qed.

Lemma sortLess_ext fields a a' b :
  (∀ sf, sf ∈ fields → data_at a (sf_Field sf) = data_at a' (sf_Field sf)) → sr_ID a = sr_ID a' →
  sortLess fields a b = sortLess fields a' b.
Proof.
  intros Hf Hid. induction fields as [|sf fields IH]; cbn [sortLess]; [by rewrite Hid|].
  rewrite Hf by (apply elem_of_cons; by left). rewrite IH; [done|]. intros sf' ?. apply Hf, elem_of_cons. by right.
Qed.

Definition sort_keys (fields : list SortField) (r : ScanResult) : list any := map (λ sf, data_at r (sf_Field sf)) fields.

(** The token of a row selects the rows after it. *)
Lemma cursorAfter_row fields r :
  Forall key_ok (sort_keys fields r) → (sr_ID r < 2 ^ 64)%N →
  ∃ tok after, encodeCursor (sort_keys fields r) (sr_ID r) = Ok tok ∧ tok ≠ "" ∧
    cursorAfter tok fields = Ok (Some after) ∧ ∀ x, after x = sortLess fields r x.
Proof.
  intros Hk Hid. destruct (decode_encode_cursor _ _ Hk Hid) as (tok & He & Hne & Hd).
  exists tok. eexists. split_and!; [done|done| |].
  - unfold cursorAfter. rewrite bool_decide_false, Hd by done. cbn [mbind result_bind pc_Keys].
    unfold sort_keys. rewrite length_map, Nat.eqb_refl. reflexivity.
  - intros x. apply sortLess_ext; [|done]. intros sf Hsf. unfold boundary, data_at at 1. cbn [sr_Data pc_Keys data_field].
    unfold data_field. cbn [mbind option_bind]. unfold sort_keys.
    rewrite (boundary_data (data_at r)), decide_True; [done|]. by apply list_elem_of_fmap_2.
Qed.

(** In a sorted list without duplicates, the rows after the [i]-th. *)
Lemma filter_after {A} (less : A → A → bool) (P : A → Prop) (HP : ordered_on less P) (Hst : strict_on less P) l1 x l2
    (after : A → bool) `{!∀ y, Decision (after y = true)} :
  Forall P (l1 ++ x :: l2) → NoDup (l1 ++ x :: l2) → StronglySorted (le less) (l1 ++ x :: l2) →
  (∀ y, after y = less x y) → filter (λ y, after y = true) (l1 ++ x :: l2) = l2.
Proof.
  intros HPl Hnd Hs Ha. rewrite filter_app, filter_cons.
  pose proof HPl as HPl'. rewrite Forall_forall in HPl'.
  assert (P x) as Px by (apply HPl'; set_solver).
  rewrite decide_False by (rewrite Ha, (oo_irrefl _ _ HP); done).
  apply NoDup_app in Hnd as (_ & _ & [Hx Hnd]%NoDup_cons).
  assert (filter (λ y, after y = true) l1 = []) as ->.
  { apply filter_none, Forall_forall. intros y Hy. rewrite Ha. apply not_true_iff_false.
    apply (StronglySorted_app_1_elem_of (le less) l1 (x :: l2) y x Hs); set_solver. }
  assert (Forall (λ y, after y = true) l2) as Hall.
  { apply Forall_forall. intros y Hy. rewrite Ha. destruct (less x y) eqn:E; [done|]. exfalso.
    assert (le less x y) as Hxy.
    { apply StronglySorted_app_1_r in Hs. inversion Hs as [|?? _ Hf]; subst. rewrite Forall_forall in Hf. by apply Hf. }
    assert (x = y) as ->; [|done]. apply Hst; [done|apply HPl'; set_solver|done|done]. }
  by apply filter_all.
Qed.

(** ** Following tokens *)
Definition with_token (opts : ScanOptions) (tok : string) : ScanOptions :=
  MkScanOptions (o_Filter opts) (o_Limit opts) (o_Offset opts) (o_OrderBy opts) (o_Descending opts) (o_Sort opts) tok
    (o_Fields opts).

(** A client asks for pages until a page carries no token; the fuel bounds the
    number of pages. *)
Fixpoint all_pages `{!Regexp} (fuel : nat) (c : Collection) (opts : ScanOptions) (w : World) : result (list ScanResult) :=
  match fuel with
  | O => Err ErrOther
  | S fuel =>
      let '(r, stats, out, w) := ScanStream None c opts append_row [] w in
      match r with
      | Err e => Err e
      | Ok _ =>
          if bool_decide (NextPageToken stats = "") then Ok out
          else rest ← all_pages fuel c (with_token opts (NextPageToken stats)) w; Ok (out ++ rest)
      end
  end.

Lemma emit_append opts rows out : emit_rows opts append_row rows out = (Ok tt, out ++ map (project opts) rows).
Proof.
  revert out. induction rows as [|r rows IH]; intros out; [by rewrite app_nil_r|].
  rewrite emit_rows_cons. cbn [append_row]. rewrite IH. cbn. by rewrite <-app_assoc.
Qed.

Section paging.
Context {RE : Regexp} (c : Collection) (w : World) (logs : list (list (Z * Entry))) (log : list (Z * Entry)).
Context (opts : ScanOptions).
Let f := filter_of opts.
Let fields := effective_sort opts.
Let P r := r ∈ matching_rows w logs log f.

Context (Hsc : scannable c w logs log f).
Context (Hs : sortable fields P).
Context (Hk : ∀ r, P r → Forall key_ok (sort_keys fields r) ∧ (sr_ID r < 2 ^ 64)%N).
Context (Hoff : o_Offset opts = 0%Z) (Hlim : (0 < o_Limit opts < 2 ^ 63)%Z) (Hne : fields ≠ []).

Let all := ordered_rows w logs log f fields None.

(** The state of the client after the rows [l1]: the token it holds resumes after them. *)
Definition resumes (tok : string) (l1 : list ScanResult) : Prop :=
  ∃ after, cursorAfter tok fields = Ok after ∧ (∃ l2, all = l1 ++ l2 ∧ ordered_rows w logs log f fields after = l2).

Lemma all_in : Forall P all ∧ NoDup all ∧ StronglySorted (le (sortLess fields)) all ∧ all ≡ₚ matching_rows w logs log f.
Proof using Hs.
  pose proof (sortLess_ordered fields P Hs) as Ho. unfold all, ordered_rows.
  assert (filter (past None) (matching_rows w logs log f) = matching_rows w logs log f) as Hfil.
  { apply filter_all. by apply Forall_forall. }
  rewrite Hfil.
  assert (Forall P (matching_rows w logs log f)) as HP by (by apply Forall_forall).
  pose proof (SliceStable_perm (sortLess fields) (matching_rows w logs log f)) as Hp. split_and!; [by rewrite Hp| |by apply (SliceStable_sorted _ P Ho)|done].
  rewrite Hp. unfold matching_rows. apply NoDup_filter, (NoDup_fmap_1 sr_ID). unfold table_rows.
  rewrite <-list_fmap_compose. apply NoDup_fst_map_to_list.
Qed.

Lemma resumes_start : resumes "" [].
Proof using Type. exists None. split; [done|]. by exists all. Qed.

(** The token made from the last row of [l1] resumes after [l1]. *)
Lemma resumes_row l1 x l2 :
  all = (l1 ++ [x]) ++ l2 →
  ∃ tok, encodeCursor (sort_keys fields x) (sr_ID x) = Ok tok ∧ tok ≠ "" ∧ resumes tok (l1 ++ [x]).
Proof using Hs Hk Hlim.
  intros Hall. destruct all_in as (HP & Hnd & Hsorted & Hperm). pose proof (sortLess_ordered fields P Hs) as Ho.
  pose proof (sortLess_strict fields P Hs (matching_ids w logs log f)) as Hst.
  assert (P x) as Px by (rewrite Hall, Forall_app, Forall_app, Forall_singleton in HP; tauto).
  destruct (Hk x Px) as [Hkx Hidx]. destruct (cursorAfter_row fields x Hkx Hidx) as (tok & after & He & Hne' & Hc & Ha).
  exists tok. split_and!; [done|done|]. exists (Some after). split; [done|]. exists l2. split; [by rewrite Hall|].
  rewrite <-app_assoc in Hall. cbn [app] in Hall. rewrite Hall in HP, Hnd, Hsorted.
  assert (filter (past (Some after)) (l1 ++ x :: l2) = l2) as Hfil.
  { by apply (filter_after (sortLess fields) P Ho Hst). }
  unfold ordered_rows. symmetry. apply (SliceStable_unique _ P Ho).
  - done.
  - apply Forall_forall. by intros r [_ ?]%list_elem_of_filter.
  - by rewrite <-Hperm, Hall, Hfil.
  - apply StronglySorted_app_1_r in Hsorted. by inversion Hsorted.
Qed.

Lemma page_step tok l1 l2 :
  all = l1 ++ l2 → resumes tok l1 →
  ∃ stats, ScanStream None c (with_token opts tok) append_row [] w =
      (Ok tt, stats, map (project opts) (take (Z.to_nat (o_Limit opts)) l2), w) ∧
    if (o_Limit opts <? Z.of_nat (length l2))%Z
    then NextPageToken stats ≠ "" ∧ resumes (NextPageToken stats) (l1 ++ take (Z.to_nat (o_Limit opts)) l2)
    else NextPageToken stats = "".
Proof using Hsc Hs Hk Hoff Hlim Hne.
  intros Hall (after & Hc & l2' & Hall' & Hl2). assert (l2' = l2) as -> by (rewrite Hall in Hall'; by apply app_inv_head in Hall').
  destruct (scan_stream_ordered c w logs log (with_token opts tok) append_row fields after Hsc Hs) with (u := @nil ScanResult)
    as (stats & Hrun & Htok).
  - split; cbn; rewrite Hoff; lia.
  - done.
  - naive_solver.
  - done.
  - change (filter_of (with_token opts tok)) with f in *. rewrite Hl2 in *.
    assert (window (with_token opts tok) l2 = take (Z.to_nat (o_Limit opts)) l2) as Hwin.
    { unfold window. cbn. by rewrite Hoff, (proj2 (Z.ltb_lt _ _)) by lia. }
    rewrite Hwin in *. rewrite emit_append in *. cbn [app fst] in Hrun, Htok. unfold page_token in Hrun, Htok.
    change (o_Limit (with_token opts tok)) with (o_Limit opts) in *.
    assert (offset_limit (with_token opts tok) = o_Limit opts) as Hol.
    { rewrite offset_limit_eq; [cbn; lia|split; cbn; lia|cbn; lia]. }
    rewrite Hol, (proj2 (Z.ltb_lt 0 (o_Limit opts))) in Hrun, Htok by lia. cbn [andb] in *.
    destruct (Z.ltb_spec (o_Limit opts) (Z.of_nat (length l2))) as [Hmore|Hdone].
    + destruct (last (take (Z.to_nat (o_Limit opts)) l2)) as [x|] eqn:Hlast.
      2:{ apply last_None in Hlast. apply (f_equal length) in Hlast. rewrite length_take in Hlast. simpl in Hlast. lia. }
      apply last_Some in Hlast as [p Hp].
      destruct (resumes_row (l1 ++ p) x (drop (Z.to_nat (o_Limit opts)) l2)) as (t & He & Hnt & Hres).
      { rewrite Hall, <-(take_drop (Z.to_nat (o_Limit opts)) l2) at 1. by rewrite Hp, <-!app_assoc. }
      fold (sort_keys fields x) in Hrun, Htok. rewrite He in Hrun, Htok. cbn in Hrun, Htok. exists stats.
      split; [exact Hrun|]. rewrite Htok. split; [done|]. by rewrite Hp, app_assoc.
    + exists stats. destruct (last (take (Z.to_nat (o_Limit opts)) l2)); cbn in Hrun, Htok; by split.
Qed.

Lemma all_pages_from fuel tok l1 l2 :
  all = l1 ++ l2 → resumes tok l1 → length l2 < fuel →
  all_pages fuel c (with_token opts tok) w = Ok (map (project opts) l2).
Proof using Hsc Hs Hk Hoff Hlim Hne.
  revert tok l1 l2. induction fuel as [|fuel IH]; intros tok l1 l2 Hall Hres Hf; [lia|]. cbn [all_pages].
  destruct (page_step tok l1 l2 Hall Hres) as (stats & -> & Hnext).
  destruct (Z.ltb_spec (o_Limit opts) (Z.of_nat (length l2))) as [Hmore|Hdone].
  - destruct Hnext as [Hnt Hres']. rewrite bool_decide_false by done.
    change (with_token (with_token opts tok) (NextPageToken stats)) with (with_token opts (NextPageToken stats)).
    rewrite (IH _ (l1 ++ take (Z.to_nat (o_Limit opts)) l2) (drop (Z.to_nat (o_Limit opts)) l2)).
    + cbn [mbind result_bind]. by rewrite <-map_app, take_drop.
    + by rewrite <-app_assoc, take_drop.
    + done.
    + rewrite length_drop. lia.
  - rewrite bool_decide_true by done. by rewrite take_ge by lia.
Qed.
End paging.

(** ** Properties *)

(** [C23] Paging is complete and ends: on a collection that does not change,
    is not encrypted and whose calls do not fail, a client asks for pages of
    any positive size in an order by at least one field, starting without
    token and offset, and follows the tokens until a page carries none. If the
    values of each sort field are of one kind over the matching records
    ([sortable]) and of a form JSON carries unchanged ([key_ok]), and the
    index that serves the filter, if any, lists every match ([scannable]), it
    makes at most one request per row and one more, and receives every live
    record the filter accepts exactly once, in sort order. *)
Theorem paging_complete {RE : Regexp} (c : Collection) (w : World) (logs : list (list (Z * Entry))) (log : list (Z * Entry))
    (opts : ScanOptions) :
  scannable c w logs log (filter_of opts) →
  effective_sort opts ≠ [] →
  sortable (effective_sort opts) (λ r, r ∈ matching_rows w logs log (filter_of opts)) →
  (∀ r, r ∈ matching_rows w logs log (filter_of opts) →
    Forall key_ok (sort_keys (effective_sort opts) r) ∧ (sr_ID r < 2 ^ 64)%N) →
  o_PageToken opts = "" → o_Offset opts = 0%Z → (0 < o_Limit opts < 2 ^ 63)%Z →
  ∃ rows, rows ≡ₚ matching_rows w logs log (filter_of opts) ∧
    StronglySorted (le (sortLess (effective_sort opts))) rows ∧
    ∀ fuel, length rows < fuel → all_pages fuel c opts w = Ok (map (project opts) rows).
Proof.
  intros Hsc Hne Hs Hk Htok Hoff Hlim.
  destruct (all_in w logs log opts Hs) as (_ & _ & Hsorted & Hperm).
  eexists. split; [exact Hperm|]. split; [exact Hsorted|]. intros fuel Hf.
  assert (opts = with_token opts "") as Heq by (destruct opts; unfold with_token; simpl in *; by subst).
  rewrite Heq at 1.
  eapply (all_pages_from c w logs log opts Hsc Hs Hk Hoff Hlim Hne fuel "" []); [done|apply resumes_start|done].
Qed.

Lemma duo_keys r :
  r ∈ @matching_rows no_regexp duo_world [] duo_log MatchAll →
  Forall key_ok (sort_keys (effective_sort duo_opts) r) ∧ (sr_ID r < 2 ^ 64)%N.
Proof. intros [-> | ->]%duo_row; (split; [constructor; [split; vm_compute; reflexivity|constructor]|done]). Qed.

Lemma paging_complete_witness :
  ∃ rows, rows ≡ₚ @matching_rows no_regexp duo_world [] duo_log MatchAll ∧
    StronglySorted (le (sortLess [MkSortField "a" true])) rows ∧
    ∀ fuel, length rows < fuel → @all_pages no_regexp fuel duo_coll duo_opts duo_world = Ok (map (project duo_opts) rows).
Proof.
  apply (@paging_complete no_regexp duo_coll duo_world [] duo_log duo_opts).
  - apply duo_scannable.
  - discriminate.
  - apply duo_sortable.
  - apply duo_keys.
  - reflexivity.
  - reflexivity.
  - simpl. lia.
Defined.

(** The two pages of the example. *)
Example duo_pages :
  @all_pages no_regexp 3 duo_coll duo_opts duo_world =
    Ok [MkScanResult 2 1 (norm_doc <$> rec_b) stamp; MkScanResult 1 1 (norm_doc <$> rec_a) stamp].
Proof. vm_compute. reflexivity. Qed.
