(* ===== verification/IndexInv.v ===== *)
(** * Secondary indexes over the life of a collection

    [index_inv] states that every index of a collection represents the values its
    field has in the table and that a unique index has no two records with one
    key.  Inserts, updates and deletes keep it, so it holds in every reachable
    state; with it, scans served by an index return what a full scan returns, and
    the fast path of [Count] counts what the scan emits. *)

From S2P Require Import Prelude GoFloat GoTime GoJson Value Query Store Disk Segment Index SecIndex Collection Steps CollectionSpec TopK Scan ScanSpec.

(** ** The invariant *)
Definition field_values (field : string) (t : table) : gmap N any := omap (λ a, data_field (a_data a) field) t.

Record index_inv (c : Collection) (t : table) : Prop := {
  ii_rep : ∀ field s, c_sidxMap c !! field = Some s → sidx_rep s (field_values field t);
  ii_unique : ∀ field s id1 id2 v1 v2, c_sidxMap c !! field = Some s → x_unique s = true →
    field_values field t !! id1 = Some v1 → field_values field t !! id2 = Some v2 →
    toIndexKey v1 = toIndexKey v2 → id1 = id2
}.

(** Data whose values JSON does not change and whose numbers print and parse
    back; what the JSON interfaces deliver. *)
Definition indexable (data : option doc) : Prop :=
  ∀ f v, data_field data f = Some v → decoded v = true ∧ value_ok v = true.

Lemma data_field_norm data f : indexable data → data_field (norm_doc <$> data) f = data_field data f.
Proof.
  intros Hd. destruct data as [d|]; [|done]. specialize (Hd f). unfold data_field in *. simpl in *.
  unfold norm_doc. rewrite lookup_fmap. destruct (d !! f) as [v|]; [|done]. simpl.
  by rewrite norm_decoded by (by apply (Hd v)).
Qed.

Lemma field_values_insert field id a t :
  field_values field (<[id := a]> t) =
    match data_field (a_data a) field with
    | Some v => <[id := v]> (field_values field t)
    | None => delete id (field_values field t)
    end.
Proof.
  unfold field_values. destruct (data_field (a_data a) field) as [v|] eqn:E.
  - by rewrite (omap_insert_Some _ _ _ _ v).
  - by rewrite omap_insert_None.
Qed.

Lemma field_values_delete field id t : field_values field (delete id t) = delete id (field_values field t).
Proof. apply omap_delete. Qed.

Lemma field_values_fresh field id t : t !! id = None → field_values field t !! id = None.
Proof. intros H. unfold field_values. by rewrite lookup_omap, H. Qed.

(** ** What the writes do to the indexes *)
Definition sidx_added (id : N) (data : option doc) (m : gmap string SecondaryIndex) : gmap string SecondaryIndex :=
  map_imap (λ field s, Some match data_field data field with Some val => add s val id | None => s end) m.
Definition sidx_updated (id : N) (data : option doc) (m : gmap string SecondaryIndex) : gmap string SecondaryIndex :=
  map_imap (λ field s, Some match data_field data field with Some val => update s id val | None => remove s id end) m.
Definition sidx_removed (id : N) (m : gmap string SecondaryIndex) : gmap string SecondaryIndex := (λ s, remove s id) <$> m.

Lemma sidxIndex_map id data c : c_sidxMap (sidxIndexEntry id data c) = sidx_added id data (c_sidxMap c).
Proof. by destruct c. Qed.
Lemma sidxUpdate_map id data c : c_sidxMap (sidxUpdateEntry id data c) = sidx_updated id data (c_sidxMap c).
Proof. by destruct c. Qed.
Lemma sidxRemove_map id c idx : c_sidxMap (sidxRemoveEntry id (set_index idx c)) = sidx_removed id (c_sidxMap c).
Proof. by destruct c. Qed.

Ltac chain :=
  repeat match goal with
  | E : context [c_sidxMap (sidxIndexEntry _ _ _)] |- _ => rewrite sidxIndex_map in E
  | E : context [c_sidxMap (sidxUpdateEntry _ _ _)] |- _ => rewrite sidxUpdate_map in E
  | E : context [c_sidxMap (sidxRemoveEntry _ _)] |- _ => rewrite sidxRemove_map in E
  end; congruence.

Lemma insert_effect data exp c w id ts c' w' :
  insert_ data exp (c, w) = (Ok (id, ts), (c', w')) → c_sidxMap c' = sidx_added id data (c_sidxMap c).
Proof.
  unfold insert_. intros H. do 7 peel c_sidxMap H. peel_modify H. do 4 peel c_sidxMap H. injection H as <- <- <- <-. chain.
Qed.

Lemma update_effect id data exp keep c w ts c' w' :
  update_ id data exp keep (c, w) = (Ok ts, (c', w')) → c_sidxMap c' = sidx_updated id data (c_sidxMap c).
Proof.
  unfold update_. intros H. do 3 peel c_sidxMap H. destruct (Get (c_index x1) id); [|done].
  do 2 peel c_sidxMap H. peel_modify H. do 4 peel c_sidxMap H. injection H as <- <- <-. chain.
Qed.

Lemma delete_effect id c w c' w' :
  Delete id (c, w) = (Ok tt, (c', w')) → c_sidxMap c' = sidx_removed id (c_sidxMap c).
Proof.
  unfold Delete. intros H. do 2 peel c_sidxMap H. destruct (Get (c_index x0) id); [|done].
  peel c_sidxMap H. peel_modify H. do 2 peel c_sidxMap H. apply (keeps_run c_sidxMap) in H; [|keeps]. chain.
Qed.

(** ** The writes keep the invariant *)
Lemma drop_key_unique s id key : x_unique (drop_key s id key) = x_unique s.
Proof. unfold drop_key. by case_match. Qed.
Lemma add_unique s v id : x_unique (add s v id) = x_unique s.
Proof. done. Qed.
Lemma remove_unique s id : x_unique (remove s id) = x_unique s.
Proof. unfold remove. case_match; [|done]. simpl. apply drop_key_unique. Qed.
Lemma update_unique s id v : x_unique (update s id v) = x_unique s.
Proof. unfold update. case_match; [|done]. simpl. apply drop_key_unique. Qed.

(** The uniqueness check passed for every unique index. *)
Definition no_conflict (c : Collection) (id : N) (data : option doc) : Prop :=
  ∀ field s v, c_sidxMap c !! field = Some s → x_unique s = true → data_field data field = Some v →
    conflict s (toIndexKey v) id = false.

Lemma checkUnique_ok c id data : sidxCheckUnique c id data = Ok tt → no_conflict c id data.
Proof.
  unfold sidxCheckUnique, sidx_conflicts. destruct (existsb _ _) eqn:E; [done|]. intros _ field s v Hs Hu Hv.
  apply not_true_is_false. intros Hc. apply not_true_iff_false in E. apply E, existsb_exists.
  exists (field, s). split; [by apply list_elem_of_In, elem_of_map_to_list|]. simpl. by rewrite Hv, Hu, Hc.
Qed.

(** A record is put in place: its values enter indexes that accept them. *)
Lemma index_inv_put c c' t id a :
  index_inv c t → no_conflict c id (a_data a) →
  (∀ field s', c_sidxMap c' !! field = Some s' → ∃ s, c_sidxMap c !! field = Some s ∧ x_unique s' = x_unique s ∧
    sidx_rep s' (field_values field (<[id := a]> t))) →
  index_inv c' (<[id := a]> t).
Proof.
  intros [Hr Hu] Hc Hs. split.
  - intros field s' Hs'. by destruct (Hs field s' Hs') as (s & _ & _ & ?).
  - intros field s' i j v1 v2 Hs' Hun H1 H2 Hk. destruct (Hs field s' Hs') as (s & Hs0 & Hsu & _).
    rewrite field_values_insert in H1, H2. rewrite Hsu in Hun.
    destruct (data_field (a_data a) field) as [v|] eqn:Hv.
    + pose proof (Hc field s v Hs0 Hun Hv) as Hcf.
      assert (∀ k u, k ≠ id → field_values field t !! k = Some u → toIndexKey u = toIndexKey v → False) as Hno.
      { intros k u Hne Hl Hkey. apply not_true_iff_false in Hcf. apply Hcf.
        apply (conflict_spec s (field_values field t)); [by apply Hr|]. exists k. split; [done|]. by rewrite Hl, <-Hkey. }
      apply lookup_insert_Some in H1 as [[<- <-]|[Hi H1]], H2 as [[<- <-]|[Hj H2]]; try done; [exfalso; by eapply Hno..|].
      by eapply Hu.
    + apply lookup_delete_Some in H1 as [_ H1], H2 as [_ H2]. by eapply Hu.
Qed.

Lemma index_inv_added c c' t id a data :
  index_inv c t → t !! id = None → indexable data → a_data a = norm_doc <$> data → no_conflict c id data →
  c_sidxMap c' = sidx_added id data (c_sidxMap c) → index_inv c' (<[id := a]> t).
Proof.
  intros Hi Hf Hd Ha Hc Hmap. apply (index_inv_put c); [done| |].
  - intros field s v. rewrite Ha, data_field_norm by done. apply Hc.
  - intros field s' Hs'. rewrite Hmap in Hs'. unfold sidx_added in Hs'. rewrite map_lookup_imap in Hs'.
    destruct (c_sidxMap c !! field) as [s|] eqn:Hs; [|done]. injection Hs' as <-. exists s. split; [done|].
    rewrite field_values_insert, Ha, data_field_norm by done.
    destruct (data_field data field) as [v|] eqn:Hv.
    + split; [apply add_unique|]. apply add_rep; [by eapply ii_rep|by apply field_values_fresh|by apply (Hd field)].
    + split; [done|]. rewrite delete_id by (by apply field_values_fresh). by eapply ii_rep.
Qed.

Lemma index_inv_updated c c' t id a data :
  index_inv c t → indexable data → a_data a = norm_doc <$> data → no_conflict c id data →
  c_sidxMap c' = sidx_updated id data (c_sidxMap c) → index_inv c' (<[id := a]> t).
Proof.
  intros Hi Hd Ha Hc Hmap. apply (index_inv_put c); [done| |].
  - intros field s v. rewrite Ha, data_field_norm by done. apply Hc.
  - intros field s' Hs'. rewrite Hmap in Hs'. unfold sidx_updated in Hs'. rewrite map_lookup_imap in Hs'.
    destruct (c_sidxMap c !! field) as [s|] eqn:Hs; [|done]. injection Hs' as <-. exists s. split; [done|].
    rewrite field_values_insert, Ha, data_field_norm by done.
    destruct (data_field data field) as [v|] eqn:Hv.
    + split; [apply update_unique|]. apply update_rep; [by eapply ii_rep|by apply (Hd field)].
    + split; [apply remove_unique|]. apply remove_rep. by eapply ii_rep.
Qed.

Lemma index_inv_removed c c' t id :
  index_inv c t → c_sidxMap c' = sidx_removed id (c_sidxMap c) → index_inv c' (delete id t).
Proof.
  intros [Hr Hu] Hmap.
  assert (∀ field s', c_sidxMap c' !! field = Some s' → ∃ s, c_sidxMap c !! field = Some s ∧ s' = remove s id) as Hs.
  { intros field s'. rewrite Hmap. unfold sidx_removed. rewrite lookup_fmap.
    destruct (c_sidxMap c !! field) as [s|]; [|done]. intros [= <-]. eauto. }
  split.
  - intros field s' (s & Hs0 & ->)%Hs. rewrite field_values_delete. by apply remove_rep, Hr.
  - intros field s' i j v1 v2 (s & Hs0 & ->)%Hs Hun. rewrite field_values_delete, remove_unique in *.
    intros [_ H1]%lookup_delete_Some [_ H2]%lookup_delete_Some. by eapply Hu.
Qed.

Lemma index_inv_same c c' t : c_sidxMap c' = c_sidxMap c → index_inv c t → index_inv c' t.
Proof. intros E [Hr Hu]. split; rewrite E; done. Qed.

(** ** Reachable states *)
Inductive write_op :=
  | WInsert (data : option doc) (exp : Z)
  | WUpdate (id : N) (data : option doc) (exp : Z) (keep : bool)
  | WDelete (id : N).

Definition run_op (op : write_op) : CM unit :=
  match op with
  | WInsert data exp => insert_ data exp;; mret tt
  | WUpdate id data exp keep => update_ id data exp keep;; mret tt
  | WDelete id => Delete id
  end.

(** Arguments the JSON interfaces can deliver. *)
Definition op_ok (c : Collection) (w : World) (op : write_op) : Prop :=
  match op with
  | WInsert data exp => data_ok data ∧ indexable data ∧ exp_ok exp
  | WUpdate id data exp keep =>
      data_ok data ∧ indexable data ∧ exp_ok exp ∧ ∀ ie, c_index c !! id = Some ie → exp_ok (ie_ExpiresAt ie)
  | WDelete id => (encoded_size (NewDelete (w_now w) id) ≤ maxScanTokenSize)%Z
  end.

Definition write_step (s s' : Collection * World) : Prop :=
  writable s.1 s.2 ∧ ∃ op, op_ok s.1 s.2 op ∧ (run_op op s).2 = s'.

(** The states any number of such writes can reach. *)
Definition reachable : Collection * World → Collection * World → Prop := rtc write_step.

Lemma drop_value {S A} (m : SE S A) s : (m;; mret tt) s = (match (m s).1 with Ok _ => Ok tt | Err e => Err e end, (m s).2).
Proof. unfold mbind, SE_bind. by destruct (m s) as [[a|e] s']. Qed.

Lemma run_op_inv c w logs log op r c' w' :
  coll_inv c w logs log → index_inv c (coll_table logs log) → writable c w → op_ok c w op →
  run_op op (c, w) = (r, (c', w')) →
  ∃ logs' log', coll_inv c' w' logs' log' ∧ index_inv c' (coll_table logs' log').
Proof.
  intros Hinv Hidx Hw Hok Hrun. destruct op as [data exp|id data exp keep|id]; cbn [run_op op_ok] in *.
  - destruct Hok as (Hd & Hi & He). pose proof (insert_spec c w logs log data exp Hinv Hw Hd He) as Hspec.
    rewrite drop_value in Hrun. cbv zeta in Hspec. unfold insert_check in Hspec.
    destruct (checkQuotaLocked _ _ _) as [[]|err].
    2:{ rewrite Hspec in Hrun. injection Hrun as _ <- <-. exists logs, log.
        split; [apply set_idSeq_inv; [done|lia]|]. by apply (index_inv_same c); [destruct c|]. }
    destruct (sidxCheckUnique _ _ _) as [[]|err] eqn:Hu.
    2:{ rewrite Hspec in Hrun. injection Hrun as _ <- <-. exists logs, log.
        split; [apply set_idSeq_inv; [done|lia]|]. by apply (index_inv_same c); [destruct c|]. }
    destruct (_ <? _)%Z.
    { rewrite Hspec in Hrun. injection Hrun as _ <- <-. exists logs, log.
      split; [apply set_idSeq_inv; [done|lia]|]. by apply (index_inv_same c); [destruct c|]. }
    destruct Hspec as (c1 & w1 & logs' & log' & Hins & _ & Hinv' & _ & Hfresh & Ht). rewrite Hins in Hrun.
    injection Hrun as _ <- <-. exists logs', log'. split; [done|]. rewrite Ht.
    eapply (index_inv_added c); [done|done|exact Hi|done|by apply checkUnique_ok|]. by eapply insert_effect.
  - destruct Hok as (Hd & Hi & He & Hie). pose proof (update_spec c w logs log id data exp keep Hinv Hw Hd) as Hspec.
    rewrite drop_value in Hrun. pose proof (inv_index_lookup c w logs log id Hinv) as Hlk.
    destruct (coll_table logs log !! id) as [a|] eqn:Ha.
    2:{ rewrite Hspec in Hrun. injection Hrun as _ <- <-. by exists logs, log. }
    destruct (c_index c !! id) as [ie|] eqn:Eie; [|done]. destruct Hlk as (a' & [= <-] & _ & Hx).
    assert (exp_ok (if keep then a_exp a else exp)) as Hexp by (destruct keep; [rewrite Hx; by apply Hie|done]).
    specialize (Hspec Hexp). cbv zeta in Hspec. unfold update_check in Hspec.
    destruct (sidxCheckUnique _ _ _) as [[]|err] eqn:Hu.
    2:{ rewrite Hspec in Hrun. injection Hrun as _ <- <-. by exists logs, log. }
    destruct (_ <? _)%Z.
    { rewrite Hspec in Hrun. injection Hrun as _ <- <-. by exists logs, log. }
    destruct Hspec as (c1 & w1 & logs' & log' & Hupd & _ & Hinv' & _ & Ht). rewrite Hupd in Hrun.
    injection Hrun as _ <- <-. exists logs', log'. split; [done|]. rewrite Ht.
    eapply (index_inv_updated c); [done|exact Hi|done|by apply checkUnique_ok|]. by eapply update_effect.
  - pose proof (delete_spec c w logs log id Hinv Hw Hok) as Hspec.
    destruct (coll_table logs log !! id) as [a|].
    + destruct Hspec as (c1 & w1 & log' & Hdel & _ & Hinv' & _ & Ht). rewrite Hdel in Hrun. injection Hrun as <- <- <-.
      exists logs, log'. split; [done|]. rewrite Ht. eapply (index_inv_removed c); [done|]. by eapply delete_effect.
    + rewrite Hspec in Hrun. injection Hrun as <- <- <-. by exists logs, log.
Qed.

(** ** Scans by index *)

(** The filter is one the indexes answer exactly: its value is neither a negative
    zero nor a number of lossy printing, and, for equality, no stored value of the
    field is a negative zero. *)
Definition served (t : table) (f : Filter) : Prop :=
  match f with
  | FieldFilter field OpEq value =>
      value_ok (filter_value value) = true ∧ plain (filter_value value) = true ∧
      ∀ id v, field_values field t !! id = Some v → plain v = true
  | FieldFilter field _ value => value_ok (filter_value value) = true ∧ not_int (filter_value value) = true
  | _ => True
  end.

Section served.
Context {RE : Regexp} (c : Collection) (t : table) (Hidx : index_inv c t).

(** A predicate on a field's values is the filter on the records. *)
Lemma field_matches field op value id :
  (∃ v, field_values field t !! id = Some v ∧ match_op op v (filter_value value) = true) ↔
  ∃ a, t !! id = Some a ∧ Match (FieldFilter field op value) (default ∅ (a_data a)) = true.
Proof using Type.
  unfold field_values. rewrite lookup_omap. cbn [Match].
  assert (∀ a, match_field field op value (default ∅ (a_data a)) = true ↔
    ∃ v, data_field (a_data a) field = Some v ∧ match_op op v (filter_value value) = true) as Hm.
  { intros a. unfold match_field, data_field. destruct (a_data a) as [d|]; simpl.
    - destruct (d !! field) as [v|]; naive_solver.
    - rewrite lookup_empty. naive_solver. }
  setoid_rewrite Hm. destruct (t !! id) as [a|]; simpl; naive_solver.
Qed.

Lemma eq_candidates field value ids :
  served t (FieldFilter field OpEq value) → IndexLookup c field (filterValueToIndexKey value) = Some ids →
  NoDup ids ∧ ∀ id, id ∈ ids ↔ ∃ a, t !! id = Some a ∧ Match (FieldFilter field OpEq value) (default ∅ (a_data a)) = true.
Proof using Hidx.
  intros (Hv & Hp & Hall) Hl. unfold IndexLookup in Hl.
  destruct (c_sidxMap c !! field) as [s|] eqn:Hs; [|done]. injection Hl as <-. split; [apply NoDup_elements|].
  intros id. rewrite (Lookup_eq_exact s (field_values field t)); [|by eapply ii_rep|done..].
  apply field_matches.
Qed.

Lemma range_candidates field op value ids :
  served t (FieldFilter field op value) → indexRangeLookup c field op (filterValueTyped value) = Some ids →
  op = OpGt ∨ op = OpGte ∨ op = OpLt ∨ op = OpLte →
  NoDup ids ∧ ∀ id, id ∈ ids ↔ ∃ a, t !! id = Some a ∧ Match (FieldFilter field op value) (default ∅ (a_data a)) = true.
Proof using Hidx.
  intros Hsv Hl Hop. unfold indexRangeLookup in Hl.
  destruct (c_sidxMap c !! field) as [s|] eqn:Hs; [|done]. cbn [mbind option_bind] in Hl.
  assert (value_ok (filter_value value) = true ∧ not_int (filter_value value) = true) as [Hv Hi]
    by (destruct Hop as [->|[->|[->| ->]]]; done).
  change (filterValueTyped value) with (filter_value value) in Hl.
  destruct (LookupRange_exact s (field_values field t) op (filter_value value) ids) as [Hnd Hin];
    [by eapply ii_rep|done..|]. split; [done|]. intros id. rewrite Hin.
  apply field_matches.
Qed.

Lemma candidates_exact f ids :
  served t f → indexCandidates c f = Some ids →
  NoDup ids ∧ ∀ id, id ∈ ids ↔ ∃ a, t !! id = Some a ∧ Match f (default ∅ (a_data a)) = true.
Proof using Hidx.
  intros Hsv Hc. destruct f as [|field op value|fs|fs]; try done. cbn [indexCandidates] in Hc.
  destruct op; try done; first [by apply eq_candidates|apply range_candidates; auto].
Qed.
End served.

Lemma index_inv_covers {RE : Regexp} c w logs log f :
  index_inv c (coll_table logs log) → served (coll_table logs log) f → index_covers c w logs log f.
Proof.
  intros Hidx Hsv ids Hc. destruct (candidates_exact c _ Hidx f ids Hsv Hc) as [Hnd Hin]. split; [done|].
  intros id a [Ha _]%map_lookup_filter_Some Hm. apply Hin. eauto.
Qed.

(** ** Count *)
Lemma count_folds : folds (λ n _, u64_add n 1) (@count_visit unit).
Proof. intros r [ctx st l u] w. done. Qed.

Lemma foldl_count {A} (l : list A) n :
  (n + N.of_nat (length l) < 2 ^ 64)%N → foldl (λ n _, u64_add n 1) n l = (n + N.of_nat (length l))%N.
Proof.
  revert n. induction l as [|x l IH]; intros n Hn; cbn [foldl length] in *; [lia|].
  assert (u64_add n 1 = n + 1)%N as -> by (apply wrap64_small; lia). rewrite IH by lia. lia.
Qed.

(** No record has reached its deadline. *)
Definition none_expired (w : World) (t : table) : Prop :=
  ∀ id a, t !! id = Some a → expired (a_exp a) (UnixNano (w_now w)) = false.

Lemma live_none_expired w logs log : none_expired w (coll_table logs log) → live_now w logs log = coll_table logs log.
Proof.
  intros H. unfold live_now, live. apply map_eq. intros id.
  destruct (coll_table logs log !! id) as [a|] eqn:E.
  - apply map_lookup_filter_Some. split; [done|]. by eapply H.
  - apply map_lookup_filter_None. by left.
Qed.

Lemma Len_table c w logs log : coll_inv c w logs log → Len (c_index c) = size (coll_table logs log).
Proof.
  intros Hinv. unfold Len. rewrite <-!size_dom. f_equal. apply set_eq. intros id. rewrite !elem_of_dom.
  pose proof (inv_index_table _ _ _ _ Hinv id) as H.
  destruct (c_index c !! id), (coll_table logs log !! id); split; intros []; done || eauto.
Qed.

Lemma length_matching {RE : Regexp} w logs log f ids :
  NoDup ids → (∀ id, id ∈ ids ↔ ∃ a, live_now w logs log !! id = Some a ∧ Match f (default ∅ (a_data a)) = true) →
  length ids = length (matching_rows w logs log f).
Proof.
  intros Hnd Hin. rewrite <-(length_fmap sr_ID (matching_rows w logs log f)). apply Permutation_length, NoDup_Permutation; [done|..].
  - unfold matching_rows. eapply sublist_NoDup; [|apply fmap_sublist, sublist_filter].
    unfold table_rows. rewrite <-list_fmap_compose. apply NoDup_fst_map_to_list.
  - intros id. rewrite Hin, list_elem_of_fmap. unfold matching_rows, table_rows. split.
    + intros (a & Ha & Hm). exists (table_row id a). split; [done|]. apply list_elem_of_filter. split; [exact Hm|].
      apply list_elem_of_fmap. exists (id, a). split; [done|]. by apply elem_of_map_to_list.
    + intros (r & -> & Hr). apply list_elem_of_filter in Hr as [Hm Hr].
      apply list_elem_of_fmap in Hr as ([i a] & -> & Hx%elem_of_map_to_list). exists a. by split.
Qed.

(** A scan collects the rows of the filter. *)
Lemma append_rows opts rows out : o_Fields opts = [] → emit_rows opts append_row rows out = (Ok tt, out ++ rows).
Proof.
  intros Hf. revert out. induction rows as [|r rows IH]; intros out; [by rewrite app_nil_r|]. rewrite emit_rows_cons. unfold append_row at 1.
  assert (project opts r = r) as ->; [|by rewrite IH, <-app_assoc]. unfold project. rewrite Hf. by destruct r.
Qed.

Lemma Scan_matching {RE : Regexp} c w logs log f :
  coll_inv c w logs log → no_faults w → c_enc c = None → index_inv c (coll_table logs log) →
  served (coll_table logs log) (default MatchAll f) →
  ∃ rows, Scan c f w = (Ok rows, w) ∧ rows ≡ₚ matching_rows w logs log (default MatchAll f).
Proof.
  intros Hinv Hw Henc Hidx Hsv. set (opts := MkScanOptions f 0 0 "" false [] "" []).
  assert (index_covers c w logs log (default MatchAll f)) as Hc by (by apply index_inv_covers).
  destruct (scan_stream_unordered c w logs log opts append_row []) as (stats & Hrun); [by split|reflexivity|reflexivity|done|].
  eexists. split; [unfold Scan; fold opts; rewrite Hrun, append_rows by reflexivity; reflexivity|].
  change (window opts ?l) with l. by apply scan_rows_matching.
Qed.

Lemma count_matching {RE : Regexp} (c : Collection) (w : World) (logs : list (list (Z * Entry))) (log : list (Z * Entry))
    (f : option Filter) :
  coll_inv c w logs log → no_faults w → c_enc c = None → index_inv c (coll_table logs log) →
  served (coll_table logs log) (default MatchAll f) → none_expired w (coll_table logs log) →
  (N.of_nat (length (matching_rows w logs log (default MatchAll f))) < 2 ^ 64)%N →
  Count c f w = (Ok (N.of_nat (length (matching_rows w logs log (default MatchAll f)))), w).
Proof.
  intros Hinv Hw Henc Hidx Hsv Hexp Hlen. pose proof (live_none_expired w logs log Hexp) as Hlive.
  assert (∀ f, served (coll_table logs log) f → (N.of_nat (length (matching_rows w logs log f)) < 2 ^ 64)%N →
    (let '(r, (s, w)) := forEachMatch c f count_visit (MkScanState None zero_stats 0%N tt, w) in
     (match r with Ok _ => Ok (ss_local s) | Err e => Err e end, w)) =
    (Ok (N.of_nat (length (matching_rows w logs log f))), w)) as Hscan.
  { clear f Hsv Hlen. intros f Hsv Hlen.
    destruct (forEachMatch_folds c w logs log f _ _ (MkScanState None zero_stats 0%N tt) Hinv Hw Henc count_folds eq_refl)
      as (st & -> & _). cbn [ss_local].
    pose proof (scan_rows_matching c w logs log Hinv f (index_inv_covers c w logs log f Hidx Hsv)) as Hp.
    apply Permutation_length in Hp. rewrite foldl_count by (rewrite Hp; lia). by rewrite Hp. }
  assert (N.of_nat (Len (c_index c)) = N.of_nat (length (matching_rows w logs log MatchAll))) as Hall.
  { rewrite (Len_table c w logs log Hinv). unfold matching_rows, table_rows. rewrite Hlive.
    assert (filter (matches MatchAll) ((λ ia, table_row ia.1 ia.2) <$> map_to_list (coll_table logs log)) =
      (λ ia, table_row ia.1 ia.2) <$> map_to_list (coll_table logs log)) as ->.
    { generalize ((λ ia, table_row ia.1 ia.2) <$> map_to_list (coll_table logs log)). intros l.
      induction l as [|r l IH]; [done|]. rewrite filter_cons, decide_True by done. by rewrite IH. }
    by rewrite length_fmap, length_map_to_list. }
  destruct f as [[|field op value|fs|fs]|]; cbn [Count default] in *; rewrite ?Hall; auto; try (by apply Hscan).
  destruct op; try (by apply Hscan).
  destruct (IndexLookup c field (filterValueToIndexKey value)) as [ids|] eqn:E; [|by apply Hscan].
  destruct (eq_candidates c _ Hidx field value ids Hsv E) as [Hnd Hin].
  rewrite (length_matching w logs log (FieldFilter field OpEq value) ids); [done|done|]. by rewrite Hlive.
Qed.

(** ** Properties *)

(** [C24] Index invariant: in every state that inserts, updates and deletes of
    data as the JSON interfaces deliver it reach from a collection whose
    indexes are exact, each index represents exactly the values of its field
    in the table, and no two records share a key of a unique index, whatever
    the outcome of the operations. *)
Theorem indexes_stay_exact (c0 c : Collection) (w0 w : World) (logs : list (list (Z * Entry))) (log : list (Z * Entry)) :
  coll_inv c0 w0 logs log → index_inv c0 (coll_table logs log) → reachable (c0, w0) (c, w) →
  ∃ logs' log', coll_inv c w logs' log' ∧ index_inv c (coll_table logs' log').
Proof.
  intros Hinv Hidx Hr. assert (∀ s, reachable (c0, w0) s →
    ∃ logs' log', coll_inv s.1 s.2 logs' log' ∧ index_inv s.1 (coll_table logs' log')) as H; [|by apply (H (c, w))].
  clear c w Hr. apply rtc_ind_r; [by exists logs, log|]. intros s s' _ (Hw & op & Hok & Hrun) (lg & lg' & IHc & IHi).
  destruct s as [c w]. destruct (run_op op (c, w)) as [r [c' w']] eqn:E. simpl in Hrun. subst s'. by eapply run_op_inv.
Qed.

(** [C25] Counting agrees with scanning: on a collection whose indexes are exact, with
    no record past its deadline, for a filter the indexes answer exactly ([served]),
    a scan returns exactly the live records the filter accepts, and [Count] returns
    their number, on its fast paths and on the general one; neither changes
    anything. *)
Theorem count_exact {RE : Regexp} (c : Collection) (w : World) (logs : list (list (Z * Entry))) (log : list (Z * Entry))
    (f : option Filter) :
  coll_inv c w logs log → no_faults w → c_enc c = None → index_inv c (coll_table logs log) →
  served (coll_table logs log) (default MatchAll f) → none_expired w (coll_table logs log) →
  (N.of_nat (length (matching_rows w logs log (default MatchAll f))) < 2 ^ 64)%N →
  ∃ rows, Scan c f w = (Ok rows, w) ∧ rows ≡ₚ matching_rows w logs log (default MatchAll f) ∧
    Count c f w = (Ok (N.of_nat (length rows)), w).
Proof.
  intros Hinv Hw Henc Hidx Hsv Hexp Hlen. destruct (Scan_matching c w logs log f Hinv Hw Henc Hidx Hsv) as (rows & Hs & Hp).
  exists rows. split_and!; [done|done|]. rewrite (Permutation_length Hp). by apply count_matching.
Qed.

(** ** Witnesses *)
Definition unique_a : SecondaryIndex := add (newSecondaryIndex "a" true) (VFloat (f64_of_Z 1)) 1.
Definition indexed_coll : Collection := set_sidxMap {["a" := unique_a]} demo_coll.

Lemma indexed_coll_inv : coll_inv indexed_coll demo_world [] demo_log.
Proof. apply (coll_inv_same demo_coll); [done|apply demo_inv]. Qed.

Lemma demo_values : field_values "a" (coll_table [] demo_log) = <[1%N := VFloat (f64_of_Z 1)]> ∅.
Proof. vm_compute. reflexivity. Qed.

Lemma indexed_index_inv : index_inv indexed_coll (coll_table [] demo_log).
Proof.
  assert (∀ field s, c_sidxMap indexed_coll !! field = Some s → field = "a" ∧ s = unique_a) as Hs.
  { intros field s. change (c_sidxMap indexed_coll) with ({["a" := unique_a]} : gmap string SecondaryIndex).
    by intros [<- <-]%lookup_singleton_Some. }
  split.
  - intros field s [-> ->]%Hs. rewrite demo_values. apply add_rep; [apply newSecondaryIndex_rep|done|vm_compute; reflexivity].
  - intros field s i j v1 v2 [-> ->]%Hs _. rewrite demo_values.
    intros [[<- _]|[_ [=]]]%lookup_insert_Some [[<- _]|[_ [=]]]%lookup_insert_Some _. done.
Qed.

Lemma rec_b_indexable : indexable rec_b.
Proof. intros f v. unfold rec_b, data_field. simpl. intros [<- <-]%lookup_singleton_Some. split; vm_compute; reflexivity. Qed.

(** The state after inserting the second record. *)
Definition indexed_after : Collection * World := (run_op (WInsert rec_b 0) (indexed_coll, demo_world)).2.

Lemma indexes_stay_exact_witness :
  ∃ logs' log', coll_inv indexed_after.1 indexed_after.2 logs' log' ∧
    index_inv indexed_after.1 (coll_table logs' log').
Proof.
  apply (indexes_stay_exact indexed_coll indexed_after.1 demo_world indexed_after.2 [] demo_log).
  - apply indexed_coll_inv.
  - apply indexed_index_inv.
  - apply rtc_once. split; [split; vm_compute; reflexivity|]. exists (WInsert rec_b 0).
    split; [split_and!; [apply demo_data|apply rec_b_indexable|apply exp_ok_never]|].
    unfold indexed_after. by destruct (run_op (WInsert rec_b 0) (indexed_coll, demo_world)) as [? [? ?]].
Defined.

Lemma count_exact_witness :
  ∃ rows, @Scan no_regexp indexed_coll (Some (FieldFilter "a" OpEq "1")) demo_world = (Ok rows, demo_world) ∧
    rows ≡ₚ @matching_rows no_regexp demo_world [] demo_log (FieldFilter "a" OpEq "1") ∧
    @Count no_regexp indexed_coll (Some (FieldFilter "a" OpEq "1")) demo_world = (Ok (N.of_nat (length rows)), demo_world).
Proof.
  apply (@count_exact no_regexp indexed_coll demo_world [] demo_log (Some (FieldFilter "a" OpEq "1"))).
  - apply indexed_coll_inv.
  - reflexivity.
  - reflexivity.
  - apply indexed_index_inv.
  - split_and!; [vm_compute; reflexivity..|]. intros id v. rewrite demo_values.
    intros [[_ <-]|[_ [=]]]%lookup_insert_Some. reflexivity.
  - intros id a Ha. assert (a_exp a = 0%Z) as ->; [|reflexivity].
    destruct (decide (id = 1%N)) as [->|Hne].
    + rewrite demo_table in Ha. by injection Ha as <-.
    + exfalso. assert (coll_table [] demo_log = {[1%N := ARec 1 stamp (norm_doc <$> rec_a) 0 0]}) as E by (vm_compute; reflexivity).
      rewrite E, lookup_singleton_ne in Ha by done. done.
  - vm_compute. reflexivity.
Defined.

(** Expired records: a record is inserted with a deadline beside one without;
    once the deadline passes, and until the reaper runs, a scan no longer returns
    it, while [Count] of the whole collection still counts it. *)
Theorem count_includes_expired :
  let '(_, (c, w)) := InsertWithExpiry rec_b (stamp + 5)%Z (demo_coll, demo_world) in
  let later := MkWorld (w_files w) [] (stamp + 10)%Z 0 in
  map sr_ID <$> (@Scan no_regexp c None later).1 = Ok [1%N] ∧ (@Count no_regexp c None later).1 = Ok 2%N.
Proof. vm_compute. split; reflexivity. Qed.
