(* ===== verification/Aggregate.v ===== *)
(** * Aggregation (engine/aggregate.go)

    Grouped counts, sums, averages, minima and maxima over the matching records,
    folded during one scan.  [aggregate_exact] compares the streaming fold with a
    reference that first collects the rows of each group. *)

From S2P Require Import Prelude GoFloat GoTime GoJson Value Query Store Disk Segment Index SecIndex Collection CollectionSpec TopK Scan ScanSpec.
From Stdlib Require Import SpecFloat.

(** ** Data *)
Record AggregateSpec := MkAggregateSpec {
  ag_Filter : option Filter;
  ag_GroupBy : string;
  ag_Field : string
}.

Record GroupResult := MkGroupResult {
  g_Key : any;
  g_Count : N;
  g_Sum : f64;
  g_Avg : f64;
  g_Min : f64;
  g_Max : f64;
  g_Numeric : bool
}.

Record aggAcc := MkAggAcc {
  acc_key : any;
  acc_count : N;
  acc_numCount : N;
  acc_sum : f64;
  acc_min : f64;
  acc_max : f64;
  acc_hasNum : bool
}.

(** The order in which [range] visits the groups, which Go leaves open. *)
Class GroupOrder := {
  range_groups : gmap string aggAcc → list aggAcc;
  range_groups_perm m : range_groups m ≡ₚ (map_to_list m).*2
}.

(** ** Group keys *)

(** [fmt.Sprintf("%T", v)]. *)
Definition type_name (v : any) : string :=
  match v with
  | VNil => "<nil>"
  | VBool _ => "bool"
  | VFloat _ => "float64"
  | VInt _ => "int"
  | VStr _ => "string"
  | VList _ => "[]interface {}"
  | VMap _ => "map[string]interface {}"
  end.

Definition nul : string := String "000"%char "".

Definition canonicalGroupKey (v : any) : string :=
  match v with
  | VNil => nul +:+ "null"
  | _ => type_name v +:+ nul +:+ sprint v
  end.

(** ** The fold *)
Definition new_acc (key : any) : aggAcc := MkAggAcc key 0 0 f64_zero f64_zero f64_zero false.

Definition group_key (spec : AggregateSpec) (r : ScanResult) : any :=
  if bool_decide (ag_GroupBy spec = "") then VNil else data_at r (ag_GroupBy spec).

(** The number a record contributes, if any. *)
Definition contribution (spec : AggregateSpec) (r : ScanResult) : option f64 :=
  if bool_decide (ag_Field spec = "") then None else AsNumber (data_at r (ag_Field spec)).

Definition acc_row (spec : AggregateSpec) (acc : aggAcc) (r : ScanResult) : aggAcc :=
  let '(MkAggAcc key count numCount sum mn mx hasNum) := acc in
  let count := u64_add count 1 in
  match contribution spec r with
  | None => MkAggAcc key count numCount sum mn mx hasNum
  | Some n =>
      let sum := f64_add sum n in
      let numCount := u64_add numCount 1 in
      if negb hasNum then MkAggAcc key count numCount sum n n true
      else MkAggAcc key count numCount sum (if f64_lt n mn then n else mn) (if f64_lt mx n then n else mx) hasNum
  end.

Definition agg_step (spec : AggregateSpec) (groups : gmap string aggAcc) (r : ScanResult) : gmap string aggAcc :=
  let key := group_key spec r in
  let ck := canonicalGroupKey key in
  <[ck := acc_row spec (default (new_acc key) (groups !! ck)) r]> groups.

Definition agg_visit {U} (spec : AggregateSpec) (r : ScanResult) : SM (gmap string aggAcc) U unit :=
  groups ← locals; set_locals (agg_step spec groups r).

Definition group_result (a : aggAcc) : GroupResult :=
  if acc_hasNum a
  then MkGroupResult (acc_key a) (acc_count a) (acc_sum a) (f64_div (acc_sum a) (f64_of_Z (Z.of_N (acc_numCount a))))
    (acc_min a) (acc_max a) true
  else MkGroupResult (acc_key a) (acc_count a) f64_zero f64_zero f64_zero f64_zero false.

(** [sort.Slice(accs, ...)].  It need not be stable; the order in which it finds
    the groups is open already, so a stable sort has the same outcomes. *)
Definition acc_less (a b : aggAcc) : bool := (Compare (acc_key a) (acc_key b) <? 0)%Z.

Definition Aggregate `{!Regexp, !GroupOrder} {U} (ctx : option nat) (c : Collection) (spec : AggregateSpec)
    (emit : GroupResult → SE U unit) (u : U) (w : World) : result unit * U * World :=
  let f := default MatchAll (ag_Filter spec) in
  match check_enc c (λ enc, checkField enc (ag_GroupBy spec) ≫= λ _, checkField enc (ag_Field spec)) with
  | Err e => (Err e, u, w)
  | Ok _ =>
      if (bool_decide (ag_GroupBy spec = "") && bool_decide (ag_Field spec = ""))%bool then
        match Count c (Some f) w with
        | (Err e, w) => (Err e, u, w)
        | (Ok n, w) =>
            let '(r, u) := emit (MkGroupResult VNil n f64_zero f64_zero f64_zero f64_zero false) u in (r, u, w)
        end
      else
        match forEachMatch c f (agg_visit spec) (MkScanState ctx zero_stats ∅ u, w) with
        | (Err e, (s, w)) => (Err e, ss_user s, w)
        | (Ok _, (s, w)) =>
            let accs := SliceStable acc_less (range_groups (ss_local s)) in
            let '(r, u) := for_each emit (map group_result accs) (ss_user s) in (r, u, w)
        end
  end.

(** ** The reference *)

(** The aggregates of the rows of one group. *)
Definition summary (spec : AggregateSpec) (rows : list ScanResult) : option GroupResult :=
  match rows with
  | [] => None
  | r :: _ =>
      let nums := omap (contribution spec) rows in
      let count := wrap64 (N.of_nat (length rows)) in
      match nums with
      | [] => Some (MkGroupResult (group_key spec r) count f64_zero f64_zero f64_zero f64_zero false)
      | n :: ns =>
          let sum := foldl f64_add f64_zero nums in
          Some (MkGroupResult (group_key spec r) count sum
            (f64_div sum (f64_of_Z (Z.of_N (wrap64 (N.of_nat (length nums))))))
            (foldl (λ m x, if f64_lt x m then x else m) n ns) (foldl (λ m x, if f64_lt m x then x else m) n ns) true)
      end
  end.

Definition in_group (spec : AggregateSpec) (ck : string) (r : ScanResult) : Prop :=
  canonicalGroupKey (group_key spec r) = ck.
#[global] Instance in_group_dec spec ck r : Decision (in_group spec ck r).
Proof. unfold in_group. apply _. Defined.

(** ** The fold computes the reference *)
Lemma groups_lookup spec rows ck :
  foldl (agg_step spec) ∅ rows !! ck =
    match filter (in_group spec ck) rows with
    | [] => None
    | r :: rs => Some (foldl (acc_row spec) (new_acc (group_key spec r)) (r :: rs))
    end.
Proof.
  induction rows as [|x rows IH] using rev_ind; [done|].
  rewrite foldl_app, filter_app. cbn [foldl]. unfold agg_step at 1. rewrite filter_cons.
  change (filter (in_group spec ck) []) with (@nil ScanResult).
  destruct (decide (in_group spec ck x)) as [Hx|Hx]; unfold in_group in Hx.
  - rewrite Hx, lookup_insert_eq, IH. destruct (filter (in_group spec ck) rows) as [|r rs]; [done|].
    cbn [app foldl default]. by rewrite foldl_app.
  - rewrite lookup_insert_ne, IH by done. by rewrite app_nil_r.
Qed.

Lemma u64_add_wrap n : u64_add (wrap64 n) 1 = wrap64 (n + 1).
Proof. unfold u64_add, wrap64. by rewrite N.Div0.add_mod_idemp_l. Qed.

(** The accumulator after some rows. *)
Lemma acc_rows spec key rows :
  let nums := omap (contribution spec) rows in
  foldl (acc_row spec) (new_acc key) rows =
    MkAggAcc key (wrap64 (N.of_nat (length rows))) (wrap64 (N.of_nat (length nums))) (foldl f64_add f64_zero nums)
      (match nums with [] => f64_zero | n :: ns => foldl (λ m x, if f64_lt x m then x else m) n ns end)
      (match nums with [] => f64_zero | n :: ns => foldl (λ m x, if f64_lt m x then x else m) n ns end)
      (match nums with [] => false | _ => true end).
Proof.
  cbv zeta. induction rows as [|x rows IH] using rev_ind; [done|].
  rewrite foldl_app, omap_app, IH. cbn [foldl acc_row]. rewrite u64_add_wrap, !length_app. cbn [omap list_omap length].
  replace (N.of_nat (length rows) + 1)%N with (N.of_nat (length rows + 1)) by lia.
  destruct (contribution spec x) as [n|].
  - rewrite u64_add_wrap. cbn [length]. rewrite foldl_app.
    replace (N.of_nat (length (omap (contribution spec) rows)) + 1)%N
      with (N.of_nat (length (omap (contribution spec) rows) + 1)) by lia.
    destruct (omap (contribution spec) rows) as [|m ms]; [done|]. cbn [negb app]. by rewrite !foldl_app.
  - rewrite !app_nil_r. cbn [length]. by rewrite Nat.add_0_r.
Qed.

Lemma summary_acc spec r rs :
  summary spec (r :: rs) = Some (group_result (foldl (acc_row spec) (new_acc (group_key spec r)) (r :: rs))).
Proof.
  rewrite acc_rows. unfold summary, group_result. cbn [acc_hasNum acc_key acc_count acc_sum acc_min acc_max acc_numCount].
  by destruct (omap (contribution spec) (r :: rs)).
Qed.

(** The groups of a list of rows, one summary per distinct key. *)
Definition group_keys (spec : AggregateSpec) (rows : list ScanResult) : gset string :=
  list_to_set (map (λ r, canonicalGroupKey (group_key spec r)) rows).
Definition reference (spec : AggregateSpec) (rows : list ScanResult) : list GroupResult :=
  omap (λ ck, summary spec (filter (in_group spec ck) rows)) (elements (group_keys spec rows)).

Lemma groups_dom spec rows : dom (foldl (agg_step spec) ∅ rows) = group_keys spec rows.
Proof.
  unfold group_keys. induction rows as [|x rows IH] using rev_ind; [apply dom_empty_L|].
  rewrite foldl_app, map_app, list_to_set_app_L. cbn [foldl]. unfold agg_step at 1. rewrite dom_insert_L, IH. simpl. set_solver.
Qed.

Lemma groups_reference spec rows :
  map group_result (map_to_list (foldl (agg_step spec) ∅ rows)).*2 ≡ₚ reference spec rows.
Proof.
  set (m := foldl (agg_step spec) ∅ rows).
  assert (map_to_list m ≡ₚ omap (λ ck, pair ck <$> m !! ck) (elements (dom m))) as Hm.
  { apply NoDup_Permutation; [apply NoDup_map_to_list| |].
    - assert (NoDup (elements (dom m))) as Hnd by apply NoDup_elements. revert Hnd. generalize (elements (dom m)).
      induction 1 as [|k ks Hk Hnd IH]; [constructor|]. simpl. destruct (m !! k) as [a|]; [|done]. simpl. constructor; [|done].
      intros (k' & Hin & Heq)%list_elem_of_omap. by destruct (m !! k'); simplify_eq/=.
    - intros [k a]. rewrite elem_of_map_to_list, list_elem_of_omap. split.
      + intros Ha. exists k. rewrite elem_of_elements, Ha. split; [|done]. by eapply elem_of_dom_2.
      + intros (k' & _ & Heq). destruct (m !! k') eqn:E; by simplify_eq/=. }
  rewrite Hm. unfold reference. rewrite <-(groups_dom spec rows). fold m. generalize (elements (dom m)). intros ks.
  induction ks as [|k ks IH]; [done|]. cbn [omap list_omap].
  unfold m at 1. rewrite groups_lookup. destruct (filter (in_group spec k) rows) as [|r rs]; [exact IH|].
  rewrite summary_acc. cbn [fmap option_fmap option_map fst snd list_fmap map]. by rewrite IH.
Qed.

(** ** What [Aggregate] emits *)
Lemma agg_visit_folds {U} spec : folds (agg_step spec) (agg_visit (U := U) spec).
Proof. intros r [ctx st l u] w. reflexivity. Qed.

(** The accumulators of a scan, in the order of emission. *)
Definition emitted `{!GroupOrder} (spec : AggregateSpec) (rows : list ScanResult) : list aggAcc :=
  SliceStable acc_less (range_groups (foldl (agg_step spec) ∅ rows)).

Lemma emitted_reference `{!GroupOrder} spec rows : map group_result (emitted spec rows) ≡ₚ reference spec rows.
Proof. unfold emitted. by rewrite SliceStable_perm, range_groups_perm, groups_reference. Qed.

Lemma group_result_Key a : g_Key (group_result a) = acc_key a.
Proof. unfold group_result. by destruct (acc_hasNum a). Qed.

Lemma acc_less_ordered k : ordered_on acc_less (λ a, has_kind k (acc_key a) = true).
Proof.
  unfold acc_less. split.
  - intros a Ha. pose proof (Compare_kind_antisym k _ _ Ha Ha). apply Z.ltb_ge. lia.
  - intros a b c Ha Hb Hc Hab Hbc. bools. apply Z.ltb_lt. by eapply (Compare_trans_lt k _ (acc_key b)).
  - intros a b c Ha Hb Hc Hab Hbc. bools. apply Z.ltb_ge.
    pose proof (Compare_trans_le k _ _ _ Hc Hb Ha).
    pose proof (Compare_kind_antisym k _ _ Ha Hb). pose proof (Compare_kind_antisym k _ _ Hb Hc).
    pose proof (Compare_kind_antisym k _ _ Ha Hc). lia.
Qed.

(** Keys of one kind come out in ascending order. *)
Lemma emitted_sorted `{!GroupOrder} spec rows k :
  Forall (λ g, has_kind k (g_Key g) = true) (reference spec rows) →
  StronglySorted (λ g h, (Compare (g_Key g) (g_Key h) ≤ 0)%Z) (map group_result (emitted spec rows)).
Proof.
  rewrite <-(emitted_reference spec rows), Forall_map. intros Hk.
  assert (Forall (λ a, has_kind k (acc_key a) = true) (emitted spec rows)) as Hk'.
  { eapply Forall_impl; [exact Hk|]. intros a. simpl. by rewrite group_result_Key. }
  unfold emitted in *. rewrite SliceStable_perm in Hk'.
  set (P := λ a : aggAcc, has_kind k (acc_key a) = true) in *.
  pose proof (acc_less_ordered k : ordered_on acc_less P) as Ho.
  pose proof (SliceStable_sorted acc_less P Ho _ Hk') as Hs.
  rewrite <-(SliceStable_perm acc_less) in Hk'. clear Hk Ho. induction Hs as [|a l Hs IH Ha]; [constructor|].
  apply Forall_cons in Hk' as [Hpa Hpl]. simpl. constructor; [by apply IH|]. apply Forall_map.
  apply Forall_forall. intros b Hb. rewrite !group_result_Key. unfold le, acc_less in Ha.
  rewrite Forall_forall in Ha, Hpl. specialize (Ha b Hb). specialize (Hpl b Hb). bools.
  pose proof (Compare_kind_antisym k _ _ Hpa Hpl). lia.
Qed.

(** Minimum and maximum of numbers that are not NaN. *)
Lemma fold_extreme (better : f64 → f64 → bool) (P : f64 → Prop) n ns :
  (∀ x, P x → better x x = false) →
  (∀ x y z, P x → P y → P z → better x y = false → better y z = false → better x z = false) →
  (∀ x y, P x → P y → better x y = true → better y x = false) →
  Forall P (n :: ns) →
  let m := foldl (λ m x, if better x m then x else m) n ns in
  m ∈ n :: ns ∧ ∀ x, x ∈ n :: ns → better x m = false.
Proof.
  intros Hi Ht Ha HP. cbv zeta. revert n HP. induction ns as [|y ns IH]; intros n HP; simpl.
  { apply Forall_cons in HP as [Hn _]. split; [by apply list_elem_of_singleton|].
    intros x ->%list_elem_of_singleton. by apply Hi. }
  pose proof HP as HP0. rewrite Forall_forall in HP0.
  apply Forall_cons in HP as [Hn [Hy HP]%Forall_cons].
  destruct (better y n) eqn:E.
  - destruct (IH y) as [Hin Hb]; [by constructor|]. split; [apply elem_of_cons; by right|].
    intros x [->|Hx]%elem_of_cons; [|by apply Hb].
    eapply (Ht _ y); [done|done|by apply HP0, elem_of_cons; right|by apply Ha|]. apply Hb, elem_of_cons. by left.
  - destruct (IH n) as [Hin Hb]; [by constructor|]. set (m := foldl _ n ns) in *.
    assert (m ∈ n :: y :: ns) as Hm by (apply elem_of_cons in Hin as [Hin|Hin]; rewrite !elem_of_cons; auto).
    split; [done|]. intros x [->|[->|Hx]%elem_of_cons]%elem_of_cons; [by apply Hb, elem_of_cons; left| |by apply Hb, elem_of_cons; right].
    eapply (Ht _ n); [done|done|by apply HP0|done|]. apply Hb, elem_of_cons. by left.
Qed.

Lemma f64_lt_negtrans x y z :
  is_nan x = false → is_nan y = false → is_nan z = false → f64_lt x y = false → f64_lt y z = false → f64_lt x z = false.
Proof.
  intros Hx Hy Hz. rewrite <-!not_true_iff_false, !f64_lt_key by done. unfold key_lt.
  destruct (f64_key x) as [[? ?] ?], (f64_key y) as [[? ?] ?], (f64_key z) as [[? ?] ?]. lia.
Qed.

Lemma f64_lt_irrefl x : is_nan x = false → f64_lt x x = false.
Proof. intros Hx. apply not_true_iff_false. intros H. pose proof (f64_lt_asym x x H). congruence. Qed.

(** ** Properties *)

(** [C26] [Aggregate] emits the reference aggregation: for every distinct group
    key of the matching live records one result whose count, sum, average,
    minimum and maximum are those of the records of that group collected first;
    keys of one kind are emitted in ascending order; an error of the callback
    ends the emission and is returned; nothing is written. *)
Theorem aggregate_exact {RE : Regexp} {GO : GroupOrder} {U : Type} (c : Collection) (w : World)
    (logs : list (list (Z * Entry))) (log : list (Z * Entry)) (spec : AggregateSpec) (emit : GroupResult → SE U unit) (u : U) :
  scannable c w logs log (default MatchAll (ag_Filter spec)) →
  ag_GroupBy spec ≠ "" ∨ ag_Field spec ≠ "" →
  ∃ rows groups, rows ≡ₚ matching_rows w logs log (default MatchAll (ag_Filter spec)) ∧
    groups ≡ₚ reference spec rows ∧
    (∀ k, Forall (λ g, has_kind k (g_Key g) = true) (reference spec rows) →
      StronglySorted (λ g h, (Compare (g_Key g) (g_Key h) ≤ 0)%Z) groups) ∧
    Aggregate None c spec emit u w = (let '(r, u') := for_each emit groups u in (r, u', w)).
Proof.
  intros [Hinv Hw Henc Hidx] Hspec. set (f := default MatchAll (ag_Filter spec)) in *.
  destruct (forEachMatch_folds c w logs log f (agg_step spec) (agg_visit spec) (MkScanState None zero_stats ∅ u))
    as (st & Hrun & _); [done|done|done|apply agg_visit_folds|done|].
  set (rows := filter (matches f) (scan_rows c w logs log f)) in *.
  exists rows, (map group_result (emitted spec rows)).
  split_and!; [by apply scan_rows_matching|apply emitted_reference|intros k; apply emitted_sorted|].
  unfold Aggregate, check_enc. rewrite Henc. fold f.
  assert ((bool_decide (ag_GroupBy spec = "") && bool_decide (ag_Field spec = ""))%bool = false) as ->.
  { apply andb_false_iff. rewrite !bool_decide_eq_false. done. }
  rewrite Hrun. done.
Qed.

(** The minimum and maximum of a group bound it: when some row of the group
    carries a number and none carries a NaN, [min] and [max] are numbers of the
    group, no number of the group is smaller than [min] and none is larger than
    [max]. *)
Theorem aggregate_bounds (spec : AggregateSpec) (key : any) (rows : list ScanResult) :
  let nums := omap (contribution spec) rows in
  let acc := foldl (acc_row spec) (new_acc key) rows in
  nums ≠ [] → Forall (λ n, is_nan n = false) nums →
  acc_hasNum acc = true ∧
  (acc_min acc ∈ nums ∧ ∀ n, n ∈ nums → f64_lt n (acc_min acc) = false) ∧
  (acc_max acc ∈ nums ∧ ∀ n, n ∈ nums → f64_lt (acc_max acc) n = false).
Proof.
  cbv zeta. rewrite acc_rows. cbn [acc_hasNum acc_min acc_max].
  destruct (omap (contribution spec) rows) as [|n ns]; [done|]. intros _ Hnum. split; [done|split].
  - refine (fold_extreme f64_lt (λ x, is_nan x = false) n ns _ _ _ Hnum); eauto using f64_lt_irrefl, f64_lt_negtrans, f64_lt_asym.
  - refine (fold_extreme (λ x y, f64_lt y x) (λ x, is_nan x = false) n ns _ _ _ Hnum); eauto using f64_lt_irrefl, f64_lt_negtrans, f64_lt_asym.
Qed.

(** ** Witnesses *)
#[global] Instance map_group_order : GroupOrder :=
  {| range_groups m := (map_to_list m).*2; range_groups_perm m := reflexivity _ |}.

Definition duo_agg : AggregateSpec := MkAggregateSpec None "a" "a".
Definition append_group (g : GroupResult) : SE (list GroupResult) unit := λ out, (Ok tt, out ++ [g]).

Lemma aggregate_exact_witness :
  ∃ rows groups, rows ≡ₚ @matching_rows no_regexp duo_world [] duo_log MatchAll ∧
    groups ≡ₚ reference duo_agg rows ∧
    (∀ k, Forall (λ g, has_kind k (g_Key g) = true) (reference duo_agg rows) →
      StronglySorted (λ g h, (Compare (g_Key g) (g_Key h) ≤ 0)%Z) groups) ∧
    @Aggregate no_regexp map_group_order _ None duo_coll duo_agg append_group [] duo_world =
      (let '(r, u') := for_each append_group groups [] in (r, u', duo_world)).
Proof.
  apply (@aggregate_exact no_regexp map_group_order _ duo_coll duo_world [] duo_log duo_agg append_group []).
  - apply duo_scannable.
  - left. discriminate.
Defined.

Definition duo_rows : list ScanResult :=
  [MkScanResult 1 1 (norm_doc <$> rec_a) stamp; MkScanResult 2 1 (norm_doc <$> rec_b) stamp].

Lemma aggregate_bounds_witness :
  let nums := omap (contribution duo_agg) duo_rows in
  let acc := foldl (acc_row duo_agg) (new_acc VNil) duo_rows in
  acc_hasNum acc = true ∧
  (acc_min acc ∈ nums ∧ ∀ n, n ∈ nums → f64_lt n (acc_min acc) = false) ∧
  (acc_max acc ∈ nums ∧ ∀ n, n ∈ nums → f64_lt (acc_max acc) n = false).
Proof.
  apply (aggregate_bounds duo_agg VNil duo_rows).
  - vm_compute. discriminate.
  - repeat constructor.
Defined.

(** Two groups that differ are folded into one when their values print alike. *)
Example canonicalGroupKey_collides :
  canonicalGroupKey (VList [VStr "a b"]) = canonicalGroupKey (VList [VStr "a"; VStr "b"]).
Proof. reflexivity. Qed.
