(* ===== verification/Open.v ===== *)
(** * Opening a collection

    The swap-intent manifest of engine/compact_manifest.go with its recovery, and
    [load] and [OpenCollection] of engine/collection.go: discovery of the segment
    files, recovery of the active segment, the persisted indexes with their
    validation, and the id counter. *)

From S2P Require Import Prelude GoFloat GoStrconv GoTime GoJson Value Query Store Disk Segment Index SecIndex Collection.

(** ** Directory listings

    [filepath.Glob(dir/prefix*suffix)], sorted: the names in [dir] itself (no
    further separator) with the prefix and the suffix. *)
Definition is_suffix (s b : bytes) : bool := is_prefix (rev s) (rev b).

Definition glob_match (dir prefix suffix path : string) : bool :=
  match base_in dir path with
  | None => false
  | Some base =>
      match strip_prefix (to_bytes prefix) base with
      | None => false
      | Some rest => is_suffix (to_bytes suffix) rest && negb (bool_decide ("/"%char ∈ rest))
      end
  end.

Definition glob (dir prefix suffix : string) (files : gmap string bytes) : list string :=
  filter (λ p, glob_match dir prefix suffix p = true) (sorted_pairs files).*1.

Definition list_dir (dir prefix suffix : string) : M (list string) := λ w,
  (Ok (glob dir prefix suffix (w_files w)), w).

(** [os.Stat]: whether the file exists and its size. *)
Definition stat (p : string) : M (option Z) :=
  syscall;; (λ w, (Ok ((λ b : bytes, Z.of_nat (length b)) <$> w_files w !! p), w)) : M (option Z).

(** ** The manifest *)
Record compactManifest := MkManifest {
  Renames : gmap string string;
  Removals : option (list string) (* [None] is the nil slice *)
}.

Definition compactManifestPath (dir : string) : string := join dir "compact.manifest".

Definition manifest_json (m : compactManifest) : json :=
  JObj [("renames", JObj ((λ kv, (kv.1, JStr kv.2)) <$> sorted_pairs (Renames m)));
        ("removals", match Removals m with Some l => JArr (JStr <$> l) | None => JNull end)].

Definition writeCompactManifest (dir : string) (m : compactManifest) : M unit :=
  writeFileAtomic (compactManifestPath dir) (print_json (manifest_json m)).

(** Remove a file, a missing one being no error. *)
Definition remove_if_exists (p : string) : M unit := λ w,
  match remove_file p w with
  | (Err ErrNotExist, w) => (Ok tt, w)
  | r => r
  end.

Definition clearCompactManifest (dir : string) : M unit :=
  remove_if_exists (compactManifestPath dir);; fsyncDir.

Fixpoint remove_all (ps : list string) : M unit :=
  match ps with [] => mret tt | p :: ps => remove_if_exists p;; remove_all ps end.

Definition discardCompactTemps (dir : string) : M unit :=
  stray ← list_dir dir ".compact_" ""; remove_all stray.

Definition set_rename (kv : string * json) : result (string * string) :=
  s ← as_string "" kv.2; Ok (kv.1, s).

Definition set_manifest_field (m : compactManifest) (kv : string * json) : result compactManifest :=
  let '(k, v) := kv in
  let '(MkManifest ren rem) := m in
  let name := field_name k in
  if bool_decide (name = "renames") then
    match v with
    | JNull => Ok (MkManifest ∅ rem)
    | JObj l => kvs ← mapR set_rename l; Ok (MkManifest (assign_all kvs ren) rem)
    | _ => Err ErrSyntax
    end
  else if bool_decide (name = "removals") then
    match v with
    | JNull => Ok (MkManifest ren None)
    | JArr l => ps ← mapR (as_string "") l; Ok (MkManifest ren (Some ps))
    | _ => Err ErrSyntax
    end
  else Ok m.

Fixpoint set_manifest_fields (m : compactManifest) (l : list (string * json)) : result compactManifest :=
  match l with
  | [] => Ok m
  | kv :: l => m ← set_manifest_field m kv; set_manifest_fields m l
  end.

Definition manifest_of_json (v : json) : result compactManifest :=
  let zero := MkManifest ∅ None in
  match v with
  | JNull => Ok zero
  | JObj l => set_manifest_fields zero l
  | _ => Err ErrSyntax
  end.

(** Apply the renames that have not happened yet. *)
Fixpoint roll_renames (l : list (string * string)) : M unit :=
  match l with
  | [] => mret tt
  | (src, dst) :: l =>
      st ← stat src;
      match st with
      | Some _ => rename_file src dst;; roll_renames l
      | None => roll_renames l
      end
  end.

Definition recoverCompaction (dir : string) : M bool := λ w,
  match read_file (compactManifestPath dir) w with
  | (Err ErrNotExist, w) => (discardCompactTemps dir;; mret false) w
  | (Err e, w) => (Err e, w)
  | (Ok b, w) =>
      (m ← lift (match parse_json b with Some j => manifest_of_json j | None => Err ErrSyntax end);
       roll_renames (map_to_list (Renames m));;
       remove_all (default [] (Removals m));;
       discardCompactTemps dir;;
       fsyncDir;;
       clearCompactManifest dir;;
       mret true) w
  end.

(** ** Loading *)
Fixpoint stat_sealed (ps : list string) : M (list Segment) :=
  match ps with
  | [] => mret []
  | p :: ps =>
      st ← stat p;
      match st with
      | Some size => segs ← stat_sealed ps; mret (openSealedSegment p size :: segs)
      | None => fail ErrNotExist
      end
  end.

Definition max_id (es : list Entry) (m : N) : N := foldl (λ m e, if (m <? e_ID e)%N then e_ID e else m) m es.

(** [activeMaxID]: 0 when the segment cannot be read. *)
Definition activeMaxID : CM N := λ '(c, w),
  match ScanAll (c_active c) w with
  | (Ok es, w) => (Ok (max_id es 0), (c, w))
  | (Err _, w) => (Ok 0%N, (c, w))
  end.

(** The slow path's scan; a segment that cannot be read is skipped. *)
Fixpoint scan_max_id (segs : list Segment) (m : N) : M N :=
  match segs with
  | [] => mret m
  | s :: segs => λ w,
      match ScanAll s w with
      | (Ok es, w) => scan_max_id segs (max_id es m) w
      | (Err _, w) => scan_max_id segs m w
      end
  end.

Definition segment_sizes (segs : list Segment) : gmap string Z :=
  foldl (λ m s, <[s_path s := s_size s]> m) ∅ segs.

(** The field name of [sidx_<field>.json]. *)
Definition sidx_field_of (dir path : string) : string :=
  match base_in dir path with
  | Some base => of_bytes (take (length base - 10) (drop 5 base))
  | None => ""
  end.

Section load.
Context {sha : Sha256}.

(** Discovery of the segments: the last path is the active one. *)
Definition load_segments : CM unit :=
  c ← obj;
  paths ← io (list_dir (c_dir c) "seg_" ".ndjson");
  let activePath := match last paths with Some p => p | None => segmentPath (c_dir c) 1 end in
  sealed ← io (stat_sealed (removelast paths));
  modify (set_sealed sealed);;
  active ← io (openActiveSegment activePath);
  modify (set_active active).

(** The primary index: whether it had to be rebuilt. *)
Definition load_index (swapRecovered : bool) : CM bool := λ '(c, w),
  let all := all_segments c in
  let path := indexPath (c_dir c) in
  let rebuild_index w :=
    match Rebuild all w with
    | (Err e, w) => (Err e, (c, w))
    | (Ok idx, w) =>
        let '(_, w) := Index.Persist idx path w in (Ok true, (set_index idx c, w))
    end in
  if swapRecovered then rebuild_index w
  else
    match Index.Load path w with
    | (Ok idx, w) =>
        if segmentsValid idx (segment_sizes all) then (Ok false, (set_index idx c, w))
        else rebuild_index w
    | (Err ErrIndexStale, w) | (Err ErrNotExist, w) => rebuild_index w
    | (Err e, w) => (Err e, (c, w))
    end.

(** One persisted secondary index. *)
Definition load_sidx (rebuilt : bool) (p : string) : CM unit := λ '(c, w),
  let field := sidx_field_of (c_dir c) p in
  let '(r, (s, w)) := SecIndex.Load p (newSecondaryIndex field false, w) in
  let keep s w := (Ok tt, (set_sidxMap (<[field := s]> (c_sidxMap c)) c, w)) in
  match r, rebuilt with
  | Ok _, false => keep s w
  | _, _ =>
      match rebuild s (all_segments c) w with
      | (Err e, w) => (Err e, (c, w))
      | (Ok s, w) => let '(_, w) := SecIndex.Persist s p w in keep s w
      end
  end.

Fixpoint load_sidxs (rebuilt : bool) (ps : list string) : CM unit :=
  match ps with [] => mret tt | p :: ps => load_sidx rebuilt p;; load_sidxs rebuilt ps end.

(** The id counter, creation time and default TTL. *)
Definition load_meta : CM unit := λ '(c, w),
  match loadMeta (metaPath (c_dir c)) w with
  | (Ok meta, w) =>
      let c := applyPersistedDefaultTTL (m_DefaultTTLSeconds meta)
        (set_createdAt (m_CreatedAt meta) (set_idSeq (m_IDCounter meta) c)) in
      (amax ← activeMaxID;
       modify (λ c, if (c_idSeq c <? amax)%N then set_idSeq amax c else c)) (c, w)
  | (Err _, w) =>
      let indexed := foldl (λ m (kv : N * IndexEntry), if (m <? kv.1)%N then kv.1 else m) 0%N (map_to_list (c_index c)) in
      (m ← io (scan_max_id (all_segments c) indexed);
       n ← io now;
       modify (λ c, set_createdAt n (set_idSeq m c));;
       c ← obj;
       ignore (io (persistMeta (metaPath (c_dir c)) (metaSnapshot c)))) (c, w)
  end.

Definition load : CM unit :=
  c ← obj;
  swapRecovered ← io (recoverCompaction (c_dir c));
  load_segments;;
  rebuilt ← load_index swapRecovered;
  sidxPaths ← io (list_dir (c_dir c) "sidx_" ".json");
  load_sidxs rebuilt sidxPaths;;
  load_meta.

Definition fresh_collection (name dir : string) (cfg : CollectionConfig) : Collection :=
  MkColl name dir (normalizeConfig name cfg) zero_time [] (MkSegment "" 0 false NoFile) ∅ 0 0 ∅ 0 ∅ None None
    false [] false false false.

(** [OpenCollection] without an encryption policy and before its background
    goroutines start. *)
Definition OpenCollection (name dataDir : string) (cfg : CollectionConfig) : M Collection := λ w,
  let dir := join dataDir name in
  match (io syscall;; load) (fresh_collection name dir cfg, w) with
  | (Ok _, (c, w)) => (Ok c, w)
  | (Err e, (_, w)) => (Err e, w)
  end.
End load.
