(* ===== verification/OpenSpec.v ===== *)
(** * Recovery when a collection is opened

    What [OpenCollection] restores from the directory a crash or a clean shutdown
    left behind: when the persisted index is absent, rejected or current, the table
    is exactly the one the complete lines of the segments define.  Two situations
    in which the code restores less are exhibited: an index file persisted at an
    earlier open is trusted although later writes are missing from it, and a
    rotation whose metadata write failed lets ids be assigned twice. *)

From S2P Require Import Prelude GoFloat GoStrconv GoTime GoJson Value Query Store Disk Segment Index SecIndex Meta Collection CollectionSpec Open.

(** ** The files of a collection at rest *)
Record at_rest (dir : string) (w : World) (ps : list string) (ap : string) (logs : list (list (Z * Entry)))
    (log : list (Z * Entry)) (b rest : bytes) : Prop := {
  ar_glob : glob dir "seg_" ".ndjson" (w_files w) = ps ++ [ap];
  ar_sealed : Forall2 (λ p es, ∃ b, w_files w !! p = Some b ∧ segment_log 0 b es) ps logs;
  ar_active : w_files w !! ap = Some (b ++ rest);
  ar_log : segment_log 0 b log;
  ar_torn : no_nl rest;
  ar_nodup : NoDup (ps ++ [ap]);
  ar_numbers : Forall (λ p, ∃ n, (n < 2 ^ 64)%N ∧ p = segmentPath dir n) (ps ++ [ap]);
  ar_files : ∀ n, is_Some (w_files w !! segmentPath dir n) → segmentPath dir n ∈ ps ++ [ap]
}.

(** Nothing else to recover: no interrupted compaction. *)
Record quiet (dir : string) (w : World) : Prop := {
  qu_manifest : w_files w !! compactManifestPath dir = None;
  qu_temps : glob dir ".compact_" "" (w_files w) = []
}.

(** The persisted index is missing, is rejected by its checksum, or is [idx]. *)
Definition index_current `{Sha256} (dir : string) (w : World) (idx : Index) : Prop :=
  match (Index.Load (indexPath dir) w).1 with
  | Ok m => m = idx
  | Err e => e = ErrIndexStale ∨ e = ErrNotExist
  end.

Lemma max_id_ge es m : (m ≤ max_id es m)%N ∧ ∀ e, e ∈ es → (e_ID e ≤ max_id es m)%N.
Proof.
  revert m. induction es as [|e es IH]; intros m; simpl; [split; [lia|by intros e ?%not_elem_of_nil]|].
  destruct (IH (if (m <? e_ID e)%N then e_ID e else m)) as [H1 H2].
  destruct (N.ltb_spec m (e_ID e)); (split; [lia|]); intros e' [->|Hin]%elem_of_cons; auto; lia.
Qed.

Lemma scan_max_id_spec segs logs m w :
  no_faults w → Forall2 (λ s es, seg_rep s w es) segs logs →
  ∃ r, scan_max_id segs m w = (Ok r, w) ∧ ∀ o e, (o, e) ∈ concat logs → (e_ID e ≤ r)%N.
Proof.
  intros Hw H. assert (∃ r, scan_max_id segs m w = (Ok r, w) ∧ (m ≤ r)%N ∧
    ∀ o e, (o, e) ∈ concat logs → (e_ID e ≤ r)%N) as (r & ? & _ & ?); [|by exists r].
  revert m. induction H as [|s es segs logs Hs Hr IH]; intros m.
  { exists m. split_and!; [done|lia|]. by intros o e ?%not_elem_of_nil. }
  simpl. rewrite (ScanAll_log s w es Hw Hs). destruct (IH (max_id es.*2 m)) as (r & Hr1 & Hr2 & Hr3).
  exists r. destruct (max_id_ge es.*2 m) as [H1 H2]. split_and!; [done|lia|].
  intros o e [Hin|Hin]%elem_of_app; [|by eapply Hr3]. etrans; [|exact Hr2]. apply H2, list_elem_of_fmap. by exists (o, e).
Qed.

Lemma stat_nofault p b w :
  no_faults w → w_files w !! p = Some b → stat p w = (Ok (Some (Z.of_nat (length b))), w).
Proof. intros Hw Hp. unfold stat. step_sys. by rewrite Hp. Qed.

(** The sealed segments are opened with their sizes. *)
Lemma stat_sealed_spec ps logs w :
  no_faults w → Forall2 (λ p es, ∃ b, w_files w !! p = Some b ∧ segment_log 0 b es) ps logs →
  ∃ segs, stat_sealed ps w = (Ok segs, w) ∧ s_path <$> segs = ps ∧ Forall2 (λ s es, seg_rep s w es) segs logs.
Proof.
  intros Hw H. induction H as [|p es ps logs (b & Hb & Hlog) Hr (segs & H1 & H2 & H3)].
  { exists []. by split_and!. }
  exists (openSealedSegment p (Z.of_nat (length b)) :: segs). cbn [stat_sealed].
  erewrite bind_ok by (by apply stat_nofault). cbv beta iota. erewrite bind_ok by exact H1.
  split_and!; [done|cbn [fmap list_fmap]; by rewrite <-H2|]. constructor; [|done]. exists b. by split_and!.
Qed.

Section load.
Context {sha : Sha256}.

Lemma recoverCompaction_none dir w :
  no_faults w → quiet dir w → recoverCompaction dir w = (Ok false, w).
Proof.
  intros Hw [H1 H2]. unfold recoverCompaction, read_file. step_sys. unfold file_bytes. rewrite H1.
  cbn [of_option]. unfold discardCompactTemps, list_dir. unfold mbind, SE_bind. by rewrite H2.
Qed.

Lemma load_segments_spec c w ps ap logs log b rest :
  no_faults w → at_rest (c_dir c) w ps ap logs log b rest →
  ∃ segs, let c' := set_active (MkSegment ap (Z.of_nat (length b)) false OpenFile) (set_sealed segs c) in
    let w' := set_files (<[ap := b]> (w_files w)) w in
    load_segments (c, w) = (Ok tt, (c', w')) ∧ s_path <$> segs = ps ∧
    Forall2 (λ s es, seg_rep s w' es) segs logs ∧ seg_rep (c_active c') w' log.
Proof.
  intros Hw [H1 H2 H3 H4 H5 H6 H7 H8]. destruct (stat_sealed_spec ps logs w Hw H2) as (segs & Hs1 & Hs2 & Hs3).
  exists segs. intros c' w'. unfold load_segments. erewrite bind_ok by reflexivity. cbn [fst].
  erewrite bind_ok by (apply io_ok; unfold list_dir; rewrite H1; reflexivity).
  rewrite last_snoc, removelast_last. erewrite bind_ok by (apply io_ok; exact Hs1).
  erewrite bind_ok by reflexivity.
  erewrite bind_ok.
  2:{ apply io_ok, (openActiveSegment_spec ap b rest); [done|done|by eapply segment_log_last|done]. }
  split; [done|]. split; [done|]. split.
  - apply NoDup_app in H6 as (_ & Hdis & _). rewrite <-Hs2 in Hdis.
    apply (seg_reps_frame _ _ w); [done|]. intros s Hs. simpl. rewrite lookup_insert_ne; [done|]. intros Heq.
    apply (Hdis (s_path s)); [apply list_elem_of_fmap; eauto|by apply list_elem_of_singleton].
  - exists b. subst c' w'. destruct c. simpl. rewrite lookup_insert_eq. by split_and!.
Qed.

(** What the metadata must cover: the ids of the sealed segments. *)
Definition meta_covers (dir : string) (w : World) (logs : list (list (Z * Entry))) : Prop :=
  match loadMeta (metaPath dir) w with
  | (Ok m, _) => ∀ o e, (o, e) ∈ concat logs → (e_ID e ≤ m_IDCounter m)%N
  | (Err _, _) => True
  end.

Lemma loadMeta_frame dir w w' :
  no_faults w → no_faults w' → w_files w' !! metaPath dir = w_files w !! metaPath dir →
  (loadMeta (metaPath dir) w').1 = (loadMeta (metaPath dir) w).1 ∧ (loadMeta (metaPath dir) w').2 = w'.
Proof.
  intros Hw Hw' Hf. unfold loadMeta, read_file, mbind, SE_bind. rewrite !syscall_nofault by done.
  unfold file_bytes. rewrite Hf. by destruct (w_files w !! metaPath dir).
Qed.

Lemma load_meta_spec c w logs log :
  no_faults w → meta_covers (c_dir c) w logs →
  Forall2 (λ s es, seg_rep s w es) (all_segments c) (logs ++ [log]) → seg_rep (c_active c) w log →
  ∃ c' w', load_meta (c, w) = (Ok tt, (c', w')) ∧ no_faults w' ∧
    c_dir c' = c_dir c ∧ c_sealed c' = c_sealed c ∧ c_active c' = c_active c ∧ c_index c' = c_index c ∧
    (∀ n, w_files w' !! segmentPath (c_dir c) n = w_files w !! segmentPath (c_dir c) n) ∧
    ∀ o e, (o, e) ∈ coll_log logs log → (e_ID e ≤ c_idSeq c')%N.
Proof.
  intros Hw Hcov Hall Hact. unfold load_meta, meta_covers in *.
  assert ((loadMeta (metaPath (c_dir c)) w).2 = w) as Hsnd by (by apply (loadMeta_frame _ w w)).
  destruct (loadMeta (metaPath (c_dir c)) w) as [[m|err] w1]; simpl in Hsnd; subst w1.
  - set (c1 := applyPersistedDefaultTTL _ _).
    assert (c_dir c1 = c_dir c ∧ c_sealed c1 = c_sealed c ∧ c_active c1 = c_active c ∧ c_index c1 = c_index c ∧
      c_idSeq c1 = m_IDCounter m) as (G1 & G2 & G3 & G4 & G5).
    { subst c1. unfold applyPersistedDefaultTTL, set_DefaultTTL. destruct (_ <=? 0)%Z; destruct c; simpl; [done|].
      by destruct c_cfg. }
    erewrite bind_ok by (unfold activeMaxID; rewrite G3, (ScanAll_log _ w log Hw Hact); reflexivity).
    eexists _, w. split; [reflexivity|]. split; [done|].
    destruct (max_id_ge log.*2 0) as [_ Hmax].
    split_and!; try (destruct (_ <? _)%N; [destruct c1|]; done); try done.
    intros o e. unfold coll_log. rewrite elem_of_app. intros [Hin|Hin].
    + specialize (Hcov o e Hin). rewrite <-G5 in Hcov.
      destruct (N.ltb_spec (c_idSeq c1) (max_id log.*2 0)); [|done]. destruct c1. simpl in *. lia.
    + assert (e_ID e ≤ max_id log.*2 0)%N by (apply Hmax, list_elem_of_fmap; by exists (o, e)).
      destruct (N.ltb_spec (c_idSeq c1) (max_id log.*2 0)); [destruct c1; done|lia].
  - set (indexed := foldl _ _ _).
    destruct (scan_max_id_spec (all_segments c) (logs ++ [log]) indexed w Hw Hall) as (r & Hr1 & Hr2).
    erewrite bind_ok by (apply io_ok; exact Hr1). erewrite bind_ok by reflexivity. erewrite bind_ok by reflexivity.
    erewrite bind_ok by reflexivity. cbn [fst]. set (c1 := set_createdAt _ _).
    assert (c_dir c1 = c_dir c ∧ c_sealed c1 = c_sealed c ∧ c_active c1 = c_active c ∧ c_index c1 = c_index c ∧
      c_idSeq c1 = r) as (G1 & G2 & G3 & G4 & G5) by (subst c1; by destruct c).
    rewrite G1. destruct (persistMeta_frame (c_dir c) (metaSnapshot c1) w Hw) as (F1 & F2 & F3).
    destruct (persistMeta (metaPath (c_dir c)) (metaSnapshot c1) w) as [res w2] eqn:E. simpl in *.
    exists c1, w2. unfold ignore. rewrite (io_ok _ c1 w res w2 E).
    split_and!; try done. intros o e Hin. rewrite G5. apply (Hr2 o). rewrite concat_app. simpl. by rewrite app_nil_r.
Qed.
End load.

(** ** Names in a directory *)
Lemma strip_prefix_Some p b r : strip_prefix p b = Some r → b = p ++ r.
Proof.
  unfold strip_prefix. destruct (is_prefix p b) eqn:E; [|done]. apply is_prefix_split in E as [r' ->]. rewrite drop_app_length. by intros [= ->].
Qed.

Lemma base_in_join dir file : base_in dir (join dir file) = Some (to_bytes file).
Proof. unfold base_in, join. rewrite !to_bytes_app. rewrite <-strip_prefix_app with (p := to_bytes dir ++ to_bytes "/"). by rewrite <-app_assoc. Qed.

Lemma join_inj dir f g : join dir f = join dir g → f = g.
Proof.
  intros H. apply (inj to_bytes), (inj Some). by rewrite <-!(base_in_join dir), H.
Qed.

Lemma join_tmp dir file : join dir file +:+ ".tmp" = join dir (file +:+ ".tmp").
Proof. apply (inj to_bytes). unfold join. by rewrite !to_bytes_app, <-!app_assoc. Qed.

Lemma glob_nil dir prefix suffix files :
  glob dir prefix suffix files = [] ↔ ∀ p, is_Some (files !! p) → glob_match dir prefix suffix p = false.
Proof.
  unfold glob. split.
  - intros H p [b Hb]. apply not_true_iff_false. intros Hm. apply (not_elem_of_nil p). rewrite <-H.
    apply list_elem_of_filter. split; [done|]. apply list_elem_of_fmap. exists (p, b). split; [done|].
    by apply elem_of_sorted_pairs.
  - intros H. apply elem_of_nil_inv. intros p (Hm & Hp)%list_elem_of_filter.
    apply list_elem_of_fmap in Hp as ([p' b] & -> & Hb%elem_of_sorted_pairs). simpl in Hm. by rewrite H in Hm by eauto.
Qed.

Lemma glob_match_join dir prefix suffix file :
  is_prefix (to_bytes prefix) (to_bytes file) = false → glob_match dir prefix suffix (join dir file) = false.
Proof. intros H. unfold glob_match. rewrite base_in_join. unfold strip_prefix. by rewrite H. Qed.

(** Directory listings depend only on which matching names exist. *)
Lemma elem_of_glob dir prefix suffix (files : gmap string bytes) p :
  p ∈ glob dir prefix suffix files ↔ glob_match dir prefix suffix p = true ∧ is_Some (files !! p).
Proof.
  unfold glob. rewrite list_elem_of_filter, list_elem_of_fmap. apply and_iff_compat_l. split.
  - intros ([p' b] & -> & Hb%elem_of_sorted_pairs). eauto.
  - intros [b Hb]. exists (p, b). by rewrite elem_of_sorted_pairs.
Qed.
Lemma glob_nodup dir prefix suffix (files : gmap string bytes) : NoDup (glob dir prefix suffix files).
Proof. apply NoDup_filter, sorted_pairs_nodup. Qed.
Lemma glob_sorted dir prefix suffix (files : gmap string bytes) : StronglySorted str_le (glob dir prefix suffix files).
Proof.
  unfold glob. pose proof (sorted_pairs_sorted files) as Hss.
  induction Hss as [|[k v] l Hl IH Hk]; cbn [fmap list_fmap fst]; [rewrite filter_nil; constructor|].
  rewrite filter_cons. destruct (decide _); [|done]. constructor; [done|].
  apply Forall_forall. intros p (_ & Hp)%list_elem_of_filter.
  apply list_elem_of_fmap in Hp as ([p' b] & -> & Hin). rewrite Forall_forall in Hk. by apply Hk in Hin.
Qed.

Lemma sorted_names_unique (l1 l2 : list string) :
  NoDup l1 → NoDup l2 → StronglySorted str_le l1 → StronglySorted str_le l2 → (∀ p, p ∈ l1 ↔ p ∈ l2) → l1 = l2.
Proof.
  intros N1 N2 S1 S2 Hin. set (tag := λ p : string, (p, tt)).
  assert (∀ l, StronglySorted str_le l → StronglySorted key_le (tag <$> l)) as Htag.
  { intros l Hs. induction Hs as [|p l Hl IH Hp]; simpl; constructor; [done|]. by apply Forall_fmap. }
  apply (inj (fmap tag)). apply sorted_pairs_unique; [|apply fmap_Permutation|by apply Htag..].
  - rewrite <-list_fmap_compose. change (fst ∘ tag) with (λ p : string, p). by rewrite list_fmap_id.
  - by apply NoDup_Permutation.
Qed.

Lemma glob_ext dir prefix suffix fs fs' :
  (∀ p, glob_match dir prefix suffix p = true → is_Some (fs !! p) ↔ is_Some (fs' !! p)) →
  glob dir prefix suffix fs = glob dir prefix suffix fs'.
Proof.
  intros H. apply sorted_names_unique; auto using glob_nodup, glob_sorted.
  intros p. rewrite !elem_of_glob. split; intros [Hm Hp]; (split; [done|]); by apply (H p Hm).
Qed.

(** ** Leftovers of a compaction that did not reach its manifest *)

(** Removing the listed files, present or not. *)
Lemma remove_if_exists_spec p w : no_faults w → remove_if_exists p w = (Ok tt, set_files (delete p (w_files w)) w).
Proof.
  intros Hw. unfold remove_if_exists, remove_file. rewrite (bind_ok _ _ w tt w) by (by apply syscall_nofault).
  unfold unlink_file. destruct (w_files w !! p) eqn:E; [done|]. by rewrite delete_id, set_files_id.
Qed.

Lemma remove_all_spec ps w : no_faults w →
  ∃ fs, remove_all ps w = (Ok tt, set_files fs w) ∧
    (∀ p, p ∈ ps → fs !! p = None) ∧ (∀ p, p ∉ ps → fs !! p = w_files w !! p).
Proof.
  revert w. induction ps as [|q ps IH]; intros w Hw.
  { exists (w_files w). rewrite set_files_id. split_and!; [done|by intros ? ?%not_elem_of_nil|done]. }
  cbn [remove_all]. erewrite bind_ok by (by apply remove_if_exists_spec).
  destruct (IH (set_files (delete q (w_files w)) w)) as (fs & H1 & H2 & H3); [done|]. exists fs.
  split_and!; [exact H1|..]; intros p Hp.
  - destruct (decide (p ∈ ps)) as [|Hn]; [by apply H2|]. rewrite H3 by done. apply elem_of_cons in Hp as [->|]; [|done]. apply lookup_delete_eq.
  - apply not_elem_of_cons in Hp as [Hne Hp]. rewrite H3 by done. by apply lookup_delete_ne.
Qed.

Lemma discardCompactTemps_spec dir w : no_faults w →
  ∃ fs, discardCompactTemps dir w = (Ok tt, set_files fs w) ∧
    (∀ p, glob_match dir ".compact_" "" p = true → fs !! p = None) ∧
    (∀ p, glob_match dir ".compact_" "" p = false → fs !! p = w_files w !! p).
Proof.
  intros Hw. unfold discardCompactTemps. erewrite bind_ok by reflexivity.
  destruct (remove_all_spec (glob dir ".compact_" "" (w_files w)) w Hw) as (fs & H1 & H2 & H3). exists fs.
  split_and!; [done|..]; intros p Hm; (destruct (decide (p ∈ glob dir ".compact_" "" (w_files w))) as [Hin|Hin]; [|rewrite H3 by done]).
  - by apply H2.
  - apply eq_None_not_Some. intros Hs. apply Hin, elem_of_glob. done.
  - apply elem_of_glob in Hin as [Hm' _]. congruence.
  - done.
Qed.

(** Without a manifest the temporary segments are discarded. *)
Lemma recoverCompaction_discards dir w :
  no_faults w → w_files w !! compactManifestPath dir = None →
  ∃ fs, recoverCompaction dir w = (Ok false, set_files fs w) ∧
    ∀ p, glob_match dir ".compact_" "" p = false → fs !! p = w_files w !! p.
Proof.
  intros Hw Hm. destruct (discardCompactTemps_spec dir w Hw) as (fs & H1 & _ & H2). exists fs. split; [|done].
  unfold recoverCompaction, read_file. rewrite (bind_ok _ _ w tt w) by (by apply syscall_nofault). unfold file_bytes. rewrite Hm.
  cbn [of_option]. by erewrite bind_ok by exact H1.
Qed.

(** The segments at rest depend on the files named like segments only. *)
Lemma at_rest_frame dir w w' ps ap logs log b rest :
  at_rest dir w ps ap logs log b rest →
  (∀ f, is_prefix (to_bytes "seg_") (to_bytes f) = true → w_files w' !! join dir f = w_files w !! join dir f) →
  at_rest dir w' ps ap logs log b rest.
Proof.
  intros [R1 R2 R3 R4 R5 R6 R7 R8] Hf.
  assert (∀ n, w_files w' !! segmentPath dir n = w_files w !! segmentPath dir n) as Hn by (intros n; by apply Hf).
  apply Forall_app in R7 as R7'. destruct R7' as [Hps Hap].
  assert (w_files w' !! ap = w_files w !! ap) as Ha by (apply Forall_cons in Hap as [(n & _ & ->) _]; apply Hn).
  split; try done.
  - rewrite <-R1. apply glob_ext. intros p Hm. unfold glob_match in Hm. destruct (base_in dir p) as [base|] eqn:Hb; [|done].
    destruct (strip_prefix _ base) as [r|] eqn:Hs; [|done]. unfold base_in in Hb. apply strip_prefix_Some in Hb, Hs. subst base.
    assert (p = join dir ("seg_" +:+ of_bytes r)) as ->.
    { apply (inj to_bytes). rewrite Hb. unfold join. by rewrite !to_bytes_app, to_of_bytes, <-!app_assoc. }
    rewrite Hf; [done|]. rewrite to_bytes_app. apply is_prefix_app.
  - clear -R2 Hps Hn. induction R2 as [|p es ps logs (b & Hb & Hl) HF IH]; [constructor|].
    apply Forall_cons in Hps as [(n & _ & ->) Hps]. constructor; [|by apply IH]. exists b. by rewrite Hn.
  - by rewrite Ha.
  - intros n. rewrite Hn. apply R8.
Qed.

Section open.
Context {sha : Sha256}.

(** Writing index.json touches no segment and no metadata. *)
Lemma persist_index_frame idx dir w :
  no_faults w → ∃ fs, Index.Persist idx (indexPath dir) w = (Ok tt, set_files fs w) ∧
    (∀ n, fs !! segmentPath dir n = w_files w !! segmentPath dir n) ∧
    fs !! metaPath dir = w_files w !! metaPath dir.
Proof.
  intros Hw. unfold Index.Persist, indexPath.
  destruct (writeFileAtomic_nofault (join dir "index.json") (index_file idx) w Hw) as (fs & H1 & _ & Hfr).
  rewrite join_tmp in Hfr. exists fs. split; [done|].
  assert (∀ f, f ≠ "index.json" → f ≠ "index.json.tmp" → fs !! join dir f = w_files w !! join dir f) as Hj.
  { intros f Hf Hf'. apply Hfr; intros ?%join_inj; done. }
  split; [|by apply Hj]. intros n. apply Hj; intros H%(f_equal to_bytes); rewrite !to_bytes_app in H; discriminate H.
Qed.

Lemma Load_frame dir w w' :
  no_faults w → no_faults w' → w_files w' !! indexPath dir = w_files w !! indexPath dir →
  (Index.Load (indexPath dir) w').1 = (Index.Load (indexPath dir) w).1 ∧
  (Index.Load (indexPath dir) w').2 = w'.
Proof.
  intros Hw Hw' Hf. unfold Index.Load, read_file, mbind, SE_bind. rewrite !syscall_nofault by done.
  unfold file_bytes. rewrite Hf. destruct (w_files w !! indexPath dir) as [b|]; [|done]. simpl.
  destruct (parse_json b) as [j|]; [|done]. simpl. destruct (index_file_of_json j) as [[m sum]|]; simpl; [|done].
  by case_bool_decide.
Qed.

Lemma load_index_spec sw c w logs log :
  let idx := replay (located_log (all_segments c) (logs ++ [log])) in
  no_faults w → sw = true ∨ index_current (c_dir c) w idx →
  Forall2 (λ s es, seg_rep s w es) (all_segments c) (logs ++ [log]) →
  ∃ fs r, load_index sw (c, w) = (Ok r, (set_index idx c, set_files fs w)) ∧
    (∀ n, fs !! segmentPath (c_dir c) n = w_files w !! segmentPath (c_dir c) n) ∧
    fs !! metaPath (c_dir c) = w_files w !! metaPath (c_dir c).
Proof.
  intros idx Hw Hi Hall.
  assert (Rebuild (all_segments c) w = (Ok idx, w)) as HR by (by apply rebuild_segments_spec).
  destruct (persist_index_frame idx (c_dir c) w Hw) as (fs & H1 & H2 & H3).
  assert ((Index.Load (indexPath (c_dir c)) w).2 = w) as Hsnd by (by apply (Load_frame _ w w)).
  unfold load_index, index_current in *. destruct sw; [exists fs, true; by rewrite HR, H1|]. destruct Hi as [?|Hi]; [done|].
  destruct (Index.Load (indexPath (c_dir c)) w) as [[m|e] w1]; simpl in Hi, Hsnd; subst w1.
  - subst m. destruct (segmentsValid idx _).
    + exists (w_files w), false. split; [by destruct w|done].
    + exists fs, true. by rewrite HR, H1.
  - exists fs, true. destruct Hi as [-> | ->]; by rewrite HR, H1.
Qed.

(** A collection whose segments are loaded. *)
Record loaded (c : Collection) (w : World) (ps : list string) (ap : string)
    (logs : list (list (Z * Entry))) (log : list (Z * Entry)) : Prop := {
  ld_all : Forall2 (λ s es, seg_rep s w es) (all_segments c) (logs ++ [log]);
  ld_length : length (c_sealed c) = length logs;
  ld_open : active (c_active c);
  ld_paths : paths c = ps ++ [ap];
  ld_files : ∀ n, is_Some (w_files w !! segmentPath (c_dir c) n) → segmentPath (c_dir c) n ∈ ps ++ [ap]
}.

Lemma loaded_active c w ps ap logs log : loaded c w ps ap logs log → seg_rep (c_active c) w log.
Proof.
  intros [H1 H2 _ _ _]. unfold all_segments in H1. apply Forall2_app_inv in H1 as [_ H]; [|done].
  by apply Forall2_cons_1 in H as [H _].
Qed.

(** Changes of other files, and of other fields, keep it. *)
Lemma loaded_frame c c' w w' ps ap logs log :
  loaded c w ps ap logs log → Forall (λ p, ∃ n, (n < 2 ^ 64)%N ∧ p = segmentPath (c_dir c) n) (ps ++ [ap]) →
  c_dir c' = c_dir c → c_sealed c' = c_sealed c → c_active c' = c_active c →
  (∀ n, w_files w' !! segmentPath (c_dir c) n = w_files w !! segmentPath (c_dir c) n) →
  loaded c' w' ps ap logs log.
Proof.
  intros [H1 H2 H3 H4 H5] Hn Hd Hs Ha Hf.
  assert (all_segments c' = all_segments c) as Hall by (unfold all_segments; congruence).
  assert (paths c' = ps ++ [ap]) as Hp by (unfold paths in *; by rewrite Hall).
  split; rewrite ?Hall, ?Hs, ?Ha, ?Hd; try done.
  - apply (seg_reps_frame _ _ w); [done|]. intros s Hin. rewrite Forall_forall in Hn.
    destruct (Hn (s_path s)) as (n & _ & ->); [|apply Hf].
    rewrite <-Hp. unfold paths. rewrite Hall. apply list_elem_of_fmap. eauto.
  - intros n. rewrite Hf. apply H5.
Qed.

Lemma load_segments_loaded c w ps ap logs log b rest :
  no_faults w → at_rest (c_dir c) w ps ap logs log b rest →
  ∃ c' fs, load_segments (c, w) = (Ok tt, (c', set_files fs w)) ∧ c_dir c' = c_dir c ∧
    loaded c' (set_files fs w) ps ap logs log ∧
    (∀ f, is_prefix (to_bytes "seg_") (to_bytes f) = false → fs !! join (c_dir c) f = w_files w !! join (c_dir c) f).
Proof.
  intros Hw Hrest. destruct (load_segments_spec c w ps ap logs log b rest Hw Hrest) as (segs & Hl & Hps & Hseg & Hact).
  destruct Hrest as [R1 R2 R3 R4 R5 R6 R7 R8].
  assert (∃ na, ap = segmentPath (c_dir c) na) as (na & Hna).
  { apply Forall_app in R7 as [_ R7]. apply Forall_cons in R7 as [(n & _ & ->) _]. eauto. }
  eexists _, _. split; [exact Hl|]. set (c1 := set_active _ _) in *.
  assert (c_dir c1 = c_dir c) as Hd1 by (subst c1; by destruct c).
  assert (c_sealed c1 = segs ∧ c_active c1 = MkSegment ap (Z.of_nat (length b)) false OpenFile) as [Hs1 Ha1]
    by (subst c1; by destruct c).
  split; [done|]. split.
  - split; unfold paths, all_segments; rewrite ?Hs1, ?Ha1, ?Hd1.
    + apply Forall2_app; [done|]. constructor; [|constructor]. by rewrite <-Ha1.
    + by eapply Forall2_length.
    + done.
    + by rewrite fmap_app, <-Hps.
    + intros n Hn. apply R8. simpl in Hn. destruct (decide (segmentPath (c_dir c) n = ap)) as [->|Hne]; [rewrite R3; eauto|].
      by rewrite lookup_insert_ne in Hn.
  - intros f Hf. simpl. rewrite lookup_insert_ne; [done|]. rewrite Hna. intros Heq.
    by eapply join_not_segment; [exact Hf|symmetry; exact Heq].
Qed.

Lemma located_log_paths segs segs' logs :
  s_path <$> segs = s_path <$> segs' → located_log segs logs = located_log segs' logs.
Proof.
  revert segs' logs. induction segs as [|x segs IH]; intros [|x' segs'] [|es logs] H; try done.
  simpl in H. injection H as Hp H. unfold located_log. simpl. rewrite Hp.
  change (concat (zip_with ?f ?a ?b)) with (concat (zip_with f a b)). f_equal. by apply IH.
Qed.

(** Loading the secondary indexes succeeds, whatever their files hold: an index that
    cannot be read is rebuilt.  It touches their own files only. *)
Lemma sidx_Load_world s p w : no_faults w → (SecIndex.Load p (s, w)).2.2 = w ∧ x_field (SecIndex.Load p (s, w)).2.1 = x_field s.
Proof.
  intros Hw. unfold SecIndex.Load, read_file, mbind, SE_bind, io. rewrite syscall_nofault by done. unfold file_bytes.
  destruct (w_files w !! p) as [b|]; [|done]. simpl. unfold lift. destruct (parse_json b) as [j|]; [|done].
  destruct (sidx_file_of_json j) as [f|e]; [|done]. simpl. by case_bool_decide.
Qed.

Lemma rebuild_total s segs logs w : no_faults w → Forall2 (λ s es, seg_rep s w es) segs logs → ∃ s', rebuild s segs w = (Ok s', w).
Proof.
  intros Hw Hsegs. unfold rebuild. erewrite bind_ok by (by apply rebuild_latest_spec).
  destruct (foldl _ _ (map_to_list _)) as [[fresh rev] kind]. eauto.
Qed.

Definition sidx_named (dir p : string) : Prop := ∃ f, p = join dir ("sidx_" +:+ f).

Lemma load_sidxs_spec rb ps c w logs log n0 :
  no_faults w → Forall2 (λ s es, seg_rep s w es) (all_segments c) (logs ++ [log]) →
  Forall (λ p, ∃ n, (n < n0)%N ∧ p = segmentPath (c_dir c) n) (paths c) → Forall (sidx_named (c_dir c)) ps →
  ∃ m fs, load_sidxs rb ps (c, w) = (Ok tt, (set_sidxMap m c, set_files fs w)) ∧
    ∀ f, is_prefix (to_bytes "sidx_") (to_bytes f) = false → fs !! join (c_dir c) f = w_files w !! join (c_dir c) f.
Proof.
  intros Hw Hsegs Hnum Hps. revert c w Hw Hsegs Hnum Hps. induction ps as [|p ps IH]; intros c w Hw Hsegs Hnum Hps.
  { exists (c_sidxMap c), (w_files w). split; [|done]. by destruct c, w. }
  apply Forall_cons in Hps as [(f0 & ->) Hps]. set (p := join (c_dir c) ("sidx_" +:+ f0)) in *. cbn [load_sidxs].
  assert (∃ s fs, load_sidx rb p (c, w) = (Ok tt, (set_sidxMap s c, set_files fs w)) ∧
    ∀ f, is_prefix (to_bytes "sidx_") (to_bytes f) = false → fs !! join (c_dir c) f = w_files w !! join (c_dir c) f) as (m & fs & Hl & Hfr).
  { unfold load_sidx. set (s0 := newSecondaryIndex _ _). destruct (sidx_Load_world s0 p w Hw) as [Hw0 _].
    destruct (SecIndex.Load p (s0, w)) as [r [s w0]]. simpl in Hw0. subst w0.
    destruct (rebuild_total s (all_segments c) (logs ++ [log]) w Hw Hsegs) as (s' & Hr). rewrite Hr.
    destruct (writeFileAtomic_nofault p (sidx_file s') w Hw) as (fs & Hp & _ & Hfs). unfold SecIndex.Persist. rewrite Hp.
    assert (∀ f, is_prefix (to_bytes "sidx_") (to_bytes f) = false → fs !! join (c_dir c) f = w_files w !! join (c_dir c) f) as Hfr.
    { intros f Hf. apply Hfs; subst p; rewrite ?join_tmp; intros ->%join_inj;
        rewrite ?to_bytes_app, <-?app_assoc, is_prefix_app in Hf; discriminate Hf. }
    destruct r as [[]|e], rb; try (eexists _, fs; split; [reflexivity|done]).
    eexists _, (w_files w). split; [|done]. rewrite set_files_id. reflexivity. }
  erewrite bind_ok by exact Hl. destruct (IH (set_sidxMap m c) (set_files fs w)) as (m' & fs' & Hl' & Hfr').
  - done.
  - apply (seg_reps_frame _ _ w); [by destruct c|]. intros s Hin. rewrite Forall_forall in Hnum.
    destruct (Hnum (s_path s)) as (n & _ & ->); [apply list_elem_of_fmap; destruct c; eauto|]. apply Hfr. reflexivity.
  - by destruct c.
  - by destruct c.
  - exists m', fs'. rewrite Hl'. split; [by destruct c|]. intros f Hf. replace (c_dir (set_sidxMap m c)) with (c_dir c) in Hfr' by (by destruct c).
    rewrite Hfr' by done. by apply Hfr.
Qed.

Lemma glob_sidx_named dir files : Forall (sidx_named dir) (glob dir "sidx_" ".json" files).
Proof.
  apply Forall_forall. intros p [Hm _]%list_elem_of_filter. unfold glob_match in Hm.
  destruct (base_in dir p) as [base|] eqn:Hb; [|done]. destruct (strip_prefix _ base) as [rest|] eqn:Hs; [|done].
  exists (of_bytes rest). unfold base_in in Hb. apply strip_prefix_Some in Hb, Hs. subst base. apply (inj to_bytes).
  rewrite Hb. unfold join. by rewrite !to_bytes_app, to_of_bytes, <-!app_assoc.
Qed.

(** Loading the directory that the recovery of a compaction leaves. *)
Lemma load_recovered c w0 w sw ps ap logs log b rest all :
  recoverCompaction (c_dir c) w0 = (Ok sw, w) → no_faults w → at_rest (c_dir c) w ps ap logs log b rest →
  s_path <$> all = ps ++ [ap] → sw = true ∨ index_current (c_dir c) w (replay (located_log all (logs ++ [log]))) →
  meta_covers (c_dir c) w logs →
  ∃ c' w', load (c, w0) = (Ok tt, (c', w')) ∧ no_faults w' ∧ c_dir c' = c_dir c ∧ coll_inv c' w' logs log.
Proof.
  intros Hrec Hw Hrest Hall Hidx Hcov.
  unfold load. erewrite bind_ok by reflexivity. cbn [fst].
  erewrite bind_ok by (apply io_ok; exact Hrec).
  destruct (load_segments_loaded c w ps ap logs log b rest Hw Hrest) as (c1 & fs1 & Hl & Hd1 & Hld1 & Hfr1).
  erewrite bind_ok by exact Hl. set (w1 := set_files fs1 w) in *.
  destruct (load_index_spec sw c1 w1 logs log) as (fs & r & Hi & Hf1 & Hf2); [done| |apply Hld1|].
  { destruct Hidx as [->|Hidx]; [by left|right]. unfold index_current in *. rewrite (located_log_paths _ all) by (rewrite Hall; apply Hld1).
    rewrite Hd1. destruct (Load_frame (c_dir c) w w1) as [-> _]; [done|done| |done].
    unfold w1. simpl. by apply Hfr1. }
  erewrite bind_ok by exact Hi. rewrite Hd1 in *.
  erewrite bind_ok by (apply io_ok; unfold list_dir; reflexivity).
  pose proof (ar_numbers _ _ _ _ _ _ _ _ Hrest) as Hnum. set (ci := set_index _ c1) in *. set (wi := set_files fs w1) in *.
  assert (c_dir ci = c_dir c ∧ c_sealed ci = c_sealed c1 ∧ c_active ci = c_active c1 ∧
    c_index ci = replay (located_log (all_segments c1) (logs ++ [log]))) as (Hdi & Hsi & Hai & Hii)
    by (subst ci; destruct c1; done).
  assert (loaded ci wi ps ap logs log) as Hldi.
  { apply (loaded_frame c1 _ w1); [done|by rewrite Hd1|congruence|done|done|]. intros n. rewrite Hd1. apply Hf1. }
  destruct (load_sidxs_spec r (glob (c_dir c) "sidx_" ".json" (w_files wi)) ci wi logs log (2 ^ 64)) as (m & fs2 & Hx & Hfx);
    [done|apply Hldi|rewrite (ld_paths _ _ _ _ _ _ Hldi), Hdi; exact Hnum|rewrite Hdi; apply glob_sidx_named|].
  erewrite bind_ok by exact Hx. rewrite Hdi in Hfx.
  set (c2 := set_sidxMap m ci) in *. set (w2 := set_files fs2 wi) in *.
  assert (c_dir c2 = c_dir c ∧ c_sealed c2 = c_sealed c1 ∧ c_active c2 = c_active c1 ∧
    c_index c2 = replay (located_log (all_segments c1) (logs ++ [log]))) as (Hd2 & Hs2 & Ha2 & Hi2)
    by (rewrite <-Hdi, <-Hsi, <-Hai, <-Hii; subst c2; by destruct ci).
  assert (loaded c2 w2 ps ap logs log) as Hld2.
  { apply (loaded_frame ci _ wi); [done|by rewrite Hdi|congruence|congruence|congruence|]. intros n. rewrite Hdi. by apply Hfx. }
  destruct (load_meta_spec c2 w2 logs log) as (c' & w' & Hm & Hw' & M1 & M2 & M3 & M4 & M5 & M6);
    [done| |apply Hld2|by eapply loaded_active|].
  { unfold meta_covers in *. rewrite Hd2.
    destruct (loadMeta_frame (c_dir c) w w2) as [E _]; [done|done|trans (fs !! metaPath (c_dir c)); [by apply Hfx|]; rewrite Hf2; by apply Hfr1|].
    destruct (loadMeta (metaPath (c_dir c)) w) as [r1 ?], (loadMeta (metaPath (c_dir c)) w2) as [r2 ?].
    simpl in E. subst r2. done. }
  rewrite Hd2 in *. exists c', w'. split; [exact Hm|]. split; [done|]. split; [congruence|].
  assert (loaded c' w' ps ap logs log) as Hld'.
  { apply (loaded_frame c2 _ w2); [done|by rewrite Hd2|congruence|done|done|]. intros n. rewrite Hd2. apply M5. }
  pose proof (ld_all _ _ _ _ _ _ Hld') as HF. unfold all_segments in HF.
  apply Forall2_app_inv in HF as [HS _]; [|apply Hld'].
  split; [done|by eapply loaded_active|apply Hld'|..]; rewrite ?(ld_paths _ _ _ _ _ _ Hld'), ?M1.
  - apply Hrest.
  - done.
  - intros n Hn. rewrite <-M1 in Hn |- *. by apply (ld_files _ _ _ _ _ _ Hld').
  - rewrite M4, Hi2. do 2 f_equal. unfold all_segments. congruence.
  - apply M6.
Qed.

(** Loading a directory without a manifest. *)
Lemma load_spec c w ps ap logs log b rest all :
  no_faults w → at_rest (c_dir c) w ps ap logs log b rest → w_files w !! compactManifestPath (c_dir c) = None →
  s_path <$> all = ps ++ [ap] → index_current (c_dir c) w (replay (located_log all (logs ++ [log]))) →
  meta_covers (c_dir c) w logs →
  ∃ c' w', load (c, w) = (Ok tt, (c', w')) ∧ no_faults w' ∧ c_dir c' = c_dir c ∧ coll_inv c' w' logs log.
Proof.
  intros Hw Hrest Hm Hall Hidx Hcov. destruct (recoverCompaction_discards (c_dir c) w Hw Hm) as (fs & Hrec & Hfr).
  assert (∀ f, is_prefix (to_bytes ".compact_") (to_bytes f) = false → fs !! join (c_dir c) f = w_files w !! join (c_dir c) f) as Hj
    by (intros f Hf; by apply Hfr, glob_match_join).
  apply (load_recovered c w (set_files fs w) false ps ap logs log b rest all); try done.
  - apply (at_rest_frame _ w); [done|]. intros f Hf. apply is_prefix_split in Hf as [r Hr]. apply Hj. by rewrite Hr.
  - right. unfold index_current in *. by destruct (Load_frame (c_dir c) w (set_files fs w)) as [-> _]; [done|done|by apply Hj|].
  - unfold meta_covers in *. destruct (loadMeta_frame (c_dir c) w (set_files fs w)) as [E _]; [done|done|by apply Hj|].
    destruct (loadMeta (metaPath (c_dir c)) w), (loadMeta (metaPath (c_dir c)) (set_files fs w)). simpl in E. by subst.
Qed.
End open.

(** ** Properties *)
Section properties.
Context {sha : Sha256}.

Lemma OpenCollection_load name dataDir cfg w c' w' :
  no_faults w → load (fresh_collection name (join dataDir name) cfg, w) = (Ok tt, (c', w')) →
  OpenCollection name dataDir cfg w = (Ok c', w').
Proof.
  intros Hw Hl. unfold OpenCollection.
  assert ((io syscall;; load) (fresh_collection name (join dataDir name) cfg, w) = (Ok tt, (c', w'))) as ->; [|done].
  by erewrite bind_ok by (apply io_ok, syscall_nofault; done).
Qed.

(** The segments of a collection with the invariant, its active one followed by a
    torn line. *)
Lemma inv_at_rest dir (c : Collection) (w w2 : World) (logs : list (list (Z * Entry))) (log : list (Z * Entry)) (b rest : bytes) :
  coll_inv c w logs log → c_dir c = dir →
  w_files w !! s_path (c_active c) = Some b → w_files w2 !! s_path (c_active c) = Some (b ++ rest) → no_nl rest →
  (∀ n, segmentPath dir n ≠ s_path (c_active c) → w_files w2 !! segmentPath dir n = w_files w !! segmentPath dir n) →
  glob dir "seg_" ".ndjson" (w_files w2) = paths c →
  at_rest dir w2 (s_path <$> c_sealed c) (s_path (c_active c)) logs log b rest.
Proof.
  intros Hinv Hd Hb Hb2 Hrest Hfr Hglob.
  assert (paths c = (s_path <$> c_sealed c) ++ [s_path (c_active c)]) as Hp
    by (unfold paths, all_segments; by rewrite fmap_app).
  pose proof (inv_paths _ _ _ _ Hinv) as Hnd. pose proof (inv_numbers _ _ _ _ Hinv) as Hnum.
  rewrite Hp in *. rewrite Hd in Hnum.
  apply Forall_app in Hnum as [Hnum Hnuma]. apply NoDup_app in Hnd as (Hnd1 & Hdis & Hnd2).
  split; try done.
  - pose proof (inv_sealed _ _ _ _ Hinv) as HF. clear -HF Hdis Hfr Hnum.
    induction HF as [|s es segs lgs (b' & Hb' & Hlog' & _) Hr IH]; constructor.
    + exists b'. split; [|done]. cbn [fmap list_fmap] in *. apply Forall_cons in Hnum as [(n & _ & Hn) _].
      rewrite Hn, Hfr, <-Hn; [done|]. rewrite <-Hn. intros Heq.
      apply (Hdis (s_path s)); [apply elem_of_cons; by left|rewrite Heq; by apply list_elem_of_singleton].
    + cbn [fmap list_fmap] in *. apply IH; [intros p Hin; apply Hdis, elem_of_cons; by right|by apply Forall_cons in Hnum as [_ ?]].
  - destruct (inv_active _ _ _ _ Hinv) as (b' & Hb' & Hlog & _). congruence.
  - by apply NoDup_app.
  - by apply Forall_app.
  - intros n [b' Hn]. rewrite <-Hp. rewrite <-Hd in *.
    destruct (decide (segmentPath (c_dir c) n = s_path (c_active c))) as [->|Hne'].
    + rewrite Hp. apply elem_of_app. right. by apply list_elem_of_singleton.
    + rewrite Hfr in Hn by done. apply (inv_files _ _ _ _ Hinv). eauto.
Qed.

(** The directory of a running collection, its active segment followed by a
    torn line. *)
Lemma recovery_spec (name dataDir : string) (cfg : CollectionConfig) (c : Collection) (w w2 : World)
    (logs : list (list (Z * Entry))) (log : list (Z * Entry)) (b rest : bytes) :
  let dir := join dataDir name in
  coll_inv c w logs log → no_faults w2 → c_dir c = dir →
  w_files w !! s_path (c_active c) = Some b → w_files w2 !! s_path (c_active c) = Some (b ++ rest) →
  no_nl rest →
  (∀ n, segmentPath dir n ≠ s_path (c_active c) →
    w_files w2 !! segmentPath dir n = w_files w !! segmentPath dir n) →
  glob dir "seg_" ".ndjson" (w_files w2) = paths c → w_files w2 !! compactManifestPath dir = None →
  index_current dir w2 (c_index c) → meta_covers dir w2 logs →
  ∃ c' w', OpenCollection name dataDir cfg w2 = (Ok c', w') ∧ coll_inv c' w' logs log.
Proof.
  intros dir Hinv Hw Hd Hb Hb2 Hrest Hfr Hglob Hq Hidx Hcov.
  set (c0 := fresh_collection name dir cfg).
  pose proof (inv_at_rest dir c w w2 logs log b rest Hinv Hd Hb Hb2 Hrest Hfr Hglob) as Hr.
  destruct (load_spec c0 w2 (s_path <$> c_sealed c) (s_path (c_active c)) logs log b rest (all_segments c))
    as (c' & w' & Hl & _ & _ & Hinv'); [done..| | |done|].
  - unfold all_segments. by rewrite fmap_app.
  - by rewrite <-(inv_index _ _ _ _ Hinv).
  - exists c', w'. split; [|done]. by apply OpenCollection_load.
Qed.

(** [C2] Crash recovery: let the process running a collection stop between
    operations, in the middle of an append that leaves any torn line [rest], or in
    a compaction that has not yet put its manifest in place, so that the directory
    [w2] holds the segments as they were, the active one followed by [rest], any
    temporary files and no manifest.  If the index file is absent, rejected by its
    checksum or up to date, the metadata is absent, unreadable or covers the ids of
    the sealed segments, and no system call fails, opening the collection succeeds
    and restores the invariant over the same log, so exactly the records of the
    table before the crash: no acknowledged write is lost, no deleted record
    returns.  (The names of the segments must sort in their order, which they do
    below a million; a stop inside the swap of a compaction is the subject of
    [swap_recovery].) *)
Theorem crash_recovery (name dataDir : string) (cfg : CollectionConfig) (c : Collection) (w w2 : World)
    (logs : list (list (Z * Entry))) (log : list (Z * Entry)) (b rest : bytes) :
  let dir := join dataDir name in
  coll_inv c w logs log → no_faults w2 → c_dir c = dir →
  w_files w !! s_path (c_active c) = Some b → w_files w2 !! s_path (c_active c) = Some (b ++ rest) →
  no_nl rest →
  (∀ n, segmentPath dir n ≠ s_path (c_active c) →
    w_files w2 !! segmentPath dir n = w_files w !! segmentPath dir n) →
  glob dir "seg_" ".ndjson" (w_files w2) = paths c → w_files w2 !! compactManifestPath dir = None →
  index_current dir w2 (c_index c) → meta_covers dir w2 logs →
  ∃ c' w', OpenCollection name dataDir cfg w2 = (Ok c', w') ∧ coll_inv c' w' logs log.
Proof. apply recovery_spec. Qed.
End properties.

(** ** Clean shutdown *)

(** Metadata that survives the JSON encoding. *)
Record wf_meta (m : collectionMeta) : Prop := {
  wm_ids : (m_IDCounter m < 2 ^ 64)%N;
  wm_created : is_Ok (format_time (m_CreatedAt m)) = true;
  wm_ttl : (- 2 ^ 63 <= m_DefaultTTLSeconds m < 2 ^ 63)%Z;
  wm_enc : match m_Encryption m with Some e => wf_encMeta e | None => True end
}.

Ltac meta_step :=
  unfold set_meta_field; cbv beta iota zeta;
  repeat match goal with
  | |- context [field_name ?k] => let v := eval vm_compute in (field_name k) in change (field_name k) with v
  end;
  repeat first [rewrite (bool_decide_true (_ = _)) by done | rewrite (bool_decide_false (_ = _)) by done];
  cbv iota; unfold as_uint, as_int, as_time, j_uint; rewrite ?parse_uint_json, ?parse_int_json by done.

Lemma set_meta_tail m ttl enc :
  m_DefaultTTLSeconds m = 0%Z → m_Encryption m = None → (- 2 ^ 63 <= ttl < 2 ^ 63)%Z →
  match enc with Some e => wf_encMeta e | None => True end →
  set_meta_fields m (omit (ttl =? 0)%Z "default_ttl_seconds" (JNum (json_int ttl)) ++
    match enc with Some e => [("encryption", encMeta_json e)] | None => [] end) =
  Ok (MkMeta (m_IDCounter m) (m_CreatedAt m) ttl enc).
Proof.
  intros Ht He Hr Hn. destruct m as [ids cr t e]. simpl in *. subst t e.
  assert (∀ t, set_meta_fields (MkMeta ids cr t None) match enc with Some e => [("encryption", encMeta_json e)] | None => [] end =
    Ok (MkMeta ids cr t enc)) as Henc.
  { intros t. destruct enc as [j|]; [|done]. cbn [set_meta_fields]. meta_step. by rewrite encMeta_roundtrip. }
  unfold omit. destruct (Z.eqb_spec ttl 0) as [->|]; [apply Henc|]. cbn [app set_meta_fields]. meta_step.
  cbn [mbind result_bind]. apply Henc.
Qed.

Lemma meta_roundtrip m :
  wf_meta m → ∃ j, meta_to_json m = Ok j ∧ wf_json j ∧ meta_of_json j = Ok m.
Proof.
  intros [H1 H2 H3 H4]. unfold meta_to_json. destruct (format_time (m_CreatedAt m)) as [b|] eqn:Hb; [|done].
  cbn [mbind result_bind]. eexists. split; [reflexivity|]. split.
  { apply wf_json_obj. repeat apply Forall_app_2.
    - repeat apply Forall_cons_2; [..|apply Forall_nil_2]; (split; [done|]); simpl fst; simpl snd.
      + by apply wf_j_uint.
      + by eapply wf_time_string.
    - apply wf_omit; [done|]. apply wf_json_int.
    - destruct (m_Encryption m) as [j|]; [|constructor]. constructor; [|constructor]. split; [done|]. by apply encMeta_json_wf. }
  cbn [meta_of_json app set_meta_fields]. meta_step. cbn [mbind result_bind]. meta_step.
  rewrite to_of_bytes, (parse_format_time _ _ Hb). cbn [of_option mbind result_bind].
  rewrite set_meta_tail; [by destruct m|done..].
Qed.

Lemma loadMeta_persistMeta dir m w :
  no_faults w → wf_meta m →
  ∃ fs, persistMeta (metaPath dir) m w = (Ok tt, set_files fs w) ∧
    loadMeta (metaPath dir) (set_files fs w) = (Ok m, set_files fs w) ∧
    ∀ p, p ≠ metaPath dir → p ≠ metaPath dir +:+ ".tmp" → fs !! p = w_files w !! p.
Proof.
  intros Hw Hm. destruct (meta_roundtrip m Hm) as (j & Hj & Hwf & Hr). unfold persistMeta. rewrite Hj.
  erewrite bind_ok by reflexivity.
  destruct (writeFileAtomic_nofault (metaPath dir) (print_json j) w Hw) as (fs & H1 & H2 & H3).
  exists fs. split; [done|]. split; [|done]. unfold loadMeta.
  erewrite bind_ok by (apply read_file_nofault; [done|exact H2]). by rewrite parse_print_json, Hr.
Qed.

(** The files [Close] writes match no listing. *)
Lemma glob_frame dir prefix suffix name fs fs' :
  (∀ p, p ≠ join dir name → p ≠ join dir name +:+ ".tmp" → fs' !! p = fs !! p) →
  is_prefix (to_bytes prefix) (to_bytes name) = false →
  is_prefix (to_bytes prefix) (to_bytes (name +:+ ".tmp")) = false →
  glob dir prefix suffix fs' = glob dir prefix suffix fs.
Proof.
  intros Hf H1 H2. apply glob_ext. intros p Hm.
  rewrite Hf; [done|intros ->; by rewrite glob_match_join in Hm|].
  rewrite join_tmp. intros ->. by rewrite glob_match_join in Hm.
Qed.

(** Persisting secondary indexes touches their files only. *)
Lemma sidx_named_prefix dir f : sidx_named dir (join dir f) ↔ is_prefix (to_bytes "sidx_") (to_bytes f) = true.
Proof.
  split.
  - intros [f' ->%join_inj]. rewrite to_bytes_app. apply is_prefix_app.
  - intros [r Hr]%is_prefix_split. exists (of_bytes r). f_equal. apply (inj to_bytes). by rewrite Hr, to_bytes_app, to_of_bytes.
Qed.

Lemma persist_sidxs_spec {sha : Sha256} dir l w : no_faults w →
  ∃ fs, persist_sidxs dir l w = (Ok tt, set_files fs w) ∧ ∀ p, ¬ sidx_named dir p → fs !! p = w_files w !! p.
Proof.
  intros Hw. revert w Hw. induction l as [|[field s] l IH]; intros w Hw; [exists (w_files w); by rewrite set_files_id|].
  cbn [persist_sidxs]. unfold SecIndex.Persist.
  destruct (writeFileAtomic_nofault (sidxFilePath dir field) (sidx_file s) w Hw) as (fs & Hp & _ & Hfr).
  erewrite bind_ok by (unfold ignore; rewrite Hp; reflexivity). destruct (IH (set_files fs w)) as (fs' & Hl & Hfr'); [done|].
  exists fs'. split; [exact Hl|]. intros p Hn. rewrite Hfr' by done. apply Hfr; intros ->; apply Hn;
    change (sidxFilePath dir field) with (join dir ("sidx_" +:+ field +:+ ".json")); rewrite ?join_tmp; apply sidx_named_prefix; rewrite ?to_bytes_app, <-?app_assoc; apply is_prefix_app.
Qed.

Lemma Close_nofault s w :
  no_faults w → active s → Close (s, w) = (Ok tt, (MkSegment (s_path s) (s_size s) (s_sealed s) ClosedFile, w)).
Proof.
  intros Hw [Hs Ho]. unfold Close. erewrite bind_ok by reflexivity. cbn [fst]. rewrite Ho.
  rewrite bool_decide_false by done. unfold on_handle. rewrite bool_decide_true by done.
  erewrite bind_ok by (apply io_ok, syscall_nofault; done). erewrite bind_ok by reflexivity.
  by apply io_ok, syscall_nofault.
Qed.

Section shutdown.
Context {sha : Sha256}.

(** What [CloseCollection] leaves on disk. *)
Lemma CloseCollection_spec c w logs log :
  coll_inv c w logs log → no_faults w → wf_index (c_index c) → wf_meta (metaSnapshot c) →
  ∃ c' fs, CloseCollection (c, w) = (Ok tt, (c', set_files fs w)) ∧
    index_current (c_dir c) (set_files fs w) (c_index c) ∧ meta_covers (c_dir c) (set_files fs w) logs ∧
    (∀ f, f ∉ ["index.json"; "index.json.tmp"; "meta.json"; "meta.json.tmp"] → is_prefix (to_bytes "sidx_") (to_bytes f) = false →
      fs !! join (c_dir c) f = w_files w !! join (c_dir c) f) ∧
    (∀ prefix suffix, Forall (λ f, is_prefix (to_bytes prefix) (to_bytes f) = false)
      ["index.json"; "index.json.tmp"; "meta.json"; "meta.json.tmp"] →
      (∀ f, is_prefix (to_bytes prefix) (to_bytes ("sidx_" +:+ f)) = false) →
      glob (c_dir c) prefix suffix fs = glob (c_dir c) prefix suffix (w_files w)).
Proof.
  intros Hinv Hw Hidx Hm. unfold CloseCollection. erewrite bind_ok by reflexivity.
  set (c1 := set_closeDone true (set_closed true c)).
  assert (c_active c1 = c_active c) as Ha by (subst c1; by destruct c).
  erewrite bind_ok.
  2:{ unfold with_active. rewrite Ha, Close_nofault by (by try apply Hinv). reflexivity. }
  set (c2 := set_active _ c1). erewrite bind_ok by reflexivity. cbn [fst].
  assert (c_dir c2 = c_dir c ∧ c_index c2 = c_index c ∧ metaSnapshot c2 = metaSnapshot c)
    as (-> & -> & ->) by (subst c2 c1; by destruct c).
  destruct (Persist_spec (c_index c) (indexPath (c_dir c)) w Hw Hidx) as (fs1 & P1 & P2 & P3).
  erewrite bind_ok by (apply io_ok; exact P1).
  destruct (persist_sidxs_spec (c_dir c) (map_to_list (c_sidxMap c2)) (set_files fs1 w)) as (fsx & X1 & X2); [done|].
  erewrite bind_ok by (apply io_ok; exact X1). rewrite set_files_set. cbn [w_files set_files] in X2.
  destruct (loadMeta_persistMeta (c_dir c) (metaSnapshot c) (set_files fsx w)) as (fs & M1 & M2 & M3); [done|done|].
  rewrite set_files_set in M1, M2. cbn [w_files set_files] in M3.
  assert (∀ f, is_prefix (to_bytes "sidx_") (to_bytes f) = false → ¬ sidx_named (c_dir c) (join (c_dir c) f)) as Hns.
  { intros f Hf Hn%sidx_named_prefix. congruence. }
  exists c2, fs. split; [by apply io_ok|]. split_and!.
  - unfold index_current. destruct (Load_frame (c_dir c) (set_files fs1 w) (set_files fs w)) as [-> _]; [done..| |by rewrite P2].
    cbn [w_files set_files]. rewrite M3; [by apply X2, Hns|..]; unfold indexPath, metaPath; rewrite ?join_tmp; by intros ?%join_inj.
  - unfold meta_covers. rewrite M2. intros o e Hin. apply (inv_ids _ _ _ _ Hinv o). apply elem_of_app. by left.
  - intros f Hf Hs. rewrite !not_elem_of_cons in Hf. destruct Hf as (F1 & F2 & F3 & F4 & _).
    unfold indexPath, metaPath in *. rewrite M3, X2, P3; rewrite ?join_tmp; try done; try (by intros ?%join_inj). by apply Hns.
  - intros prefix suffix HF Hs. rewrite !Forall_cons in HF. destruct HF as (F1 & F2 & F3 & F4 & _).
    transitivity (glob (c_dir c) prefix suffix fsx); [by apply (glob_frame _ _ _ _ _ _ M3)|].
    transitivity (glob (c_dir c) prefix suffix fs1); [|by apply (glob_frame _ _ _ _ _ _ P3)].
    apply glob_ext. intros p Hp. rewrite X2; [done|]. intros [f ->]. by rewrite glob_match_join in Hp.
Qed.

Lemma CloseCollection_reopen (name dataDir : string) (cfg : CollectionConfig) (c : Collection) (w : World)
    (logs : list (list (Z * Entry))) (log : list (Z * Entry)) :
  let dir := join dataDir name in
  coll_inv c w logs log → no_faults w → c_dir c = dir →
  wf_index (c_index c) → wf_meta (metaSnapshot c) →
  glob dir "seg_" ".ndjson" (w_files w) = paths c → quiet dir w →
  ∃ c1 w1 c2 w2, CloseCollection (c, w) = (Ok tt, (c1, w1)) ∧
    OpenCollection name dataDir cfg w1 = (Ok c2, w2) ∧ coll_inv c2 w2 logs log.
Proof.
  intros dir Hinv Hw Hd Hidx Hm Hglob [Q1 Q2].
  destruct (CloseCollection_spec c w logs log Hinv Hw Hidx Hm) as (c1 & fs & H1 & H2 & H3 & H4 & H5).
  rewrite Hd in *. destruct (inv_active _ _ _ _ Hinv) as (b & Hb & _).
  assert (∀ n, fs !! segmentPath dir n = w_files w !! segmentPath dir n) as Hseg.
  { intros n. apply H4; [|reflexivity]. unfold not. rewrite !elem_of_cons. intros Hin.
    assert (is_prefix (to_bytes "seg_") (to_bytes ("seg_" +:+ of_bytes (pad6 n) +:+ ".ndjson")) = true) as Hpre
      by (rewrite to_bytes_app; apply is_prefix_app).
    destruct Hin as [Hin|[Hin|[Hin|[Hin|?%not_elem_of_nil]]]]; try done; rewrite Hin in Hpre; discriminate Hpre. }
  destruct (recovery_spec name dataDir cfg c w (set_files fs w) logs log b []) as (c2 & w2 & G1 & G2); try done.
  - rewrite app_nil_r. cbn [w_files set_files]. pose proof (inv_numbers _ _ _ _ Hinv) as Hn.
    rewrite Forall_forall in Hn. destruct (Hn (s_path (c_active c))) as (n & _ & Hp).
    { unfold paths, all_segments. rewrite fmap_app. apply elem_of_app. right. by apply list_elem_of_singleton. }
    rewrite Hd in Hp. rewrite Hp in Hb |- *. by rewrite Hseg.
  - rewrite <-Hglob. by apply H5; repeat constructor.
  - cbn [w_files set_files]. rewrite <-Q1. apply H4; [|reflexivity]. by apply (bool_decide_unpack _); vm_compute.
  - by exists c1, (set_files fs w), c2, w2.
Qed.

(** [C14] Clean shutdown: closing a collection and opening its directory again
    succeeds and gives a collection with the same log, hence the same table of
    records, whether or not the persisted index is used. *)
Theorem close_reopen (name dataDir : string) (cfg : CollectionConfig) (c : Collection) (w : World)
    (logs : list (list (Z * Entry))) (log : list (Z * Entry)) :
  let dir := join dataDir name in
  coll_inv c w logs log → no_faults w → c_dir c = dir →
  wf_index (c_index c) → wf_meta (metaSnapshot c) →
  glob dir "seg_" ".ndjson" (w_files w) = paths c → quiet dir w →
  ∃ c1 w1 c2 w2, CloseCollection (c, w) = (Ok tt, (c1, w1)) ∧
    OpenCollection name dataDir cfg w1 = (Ok c2, w2) ∧ coll_inv c2 w2 logs log.
Proof. apply CloseCollection_reopen. Qed.
End shutdown.

(** ** Scenarios *)
Definition empty_disk : World := MkWorld ∅ [] stamp 0.

(** Run an operation on an opened collection and keep only the disk, as when the
    process is killed. *)
Definition crash_after {A} (m : CM A) (x : result Collection * World) : result A * World :=
  match x with
  | (Ok c, w) => let '(r, (_, w)) := m (c, w) in (r, w)
  | (Err e, w) => (Err e, w)
  end.

Definition reopen (cfg : CollectionConfig) (w : World) : result Collection * World :=
  @OpenCollection length_digest "u" "d" cfg w.

(** A persisted index outlives the writes that follow it.  Opening a directory
    for the first time rebuilds the (empty) index and persists it; after an
    acknowledged insert and a crash, the record is on disk but the reopened
    collection trusts the old index file and does not find it. *)
Theorem stale_index_hides_writes :
  let run := crash_after (Insert_ rec_a) (reopen defaultConfig empty_disk) in
  run.1 = Ok (1%N, stamp) ∧
  ∃ c, reopen defaultConfig run.2 = (Ok c, run.2) ∧
    (GetRecord 1 (c, run.2)).1 = Err ErrNotFound ∧
    map e_ID <$> (ScanAll (c_active c) run.2).1 = Ok [1%N].
Proof.
  split; [vm_compute; reflexivity|].
  eexists. split; [vm_compute; reflexivity|]. split; vm_compute; reflexivity.
Qed.

(** Segments of one entry: every insert rotates. *)
Definition one_entry_segments : CollectionConfig := MkConfig 1 0 f64_zero None 0 0 0 0 0 ∅.

Definition with_faults (fs : list (option nat)) (w : World) : World :=
  MkWorld (w_files w) fs (w_now w) (w_seed w).

(** The metadata write of a rotation, whose error is dropped, fails. *)
Definition insert_meta_fails : result (N * Time) * World :=
  let '(r, w) := reopen one_entry_segments empty_disk in
  crash_after (Insert_ rec_a) (r, with_faults (replicate 5 None ++ [Some 0]) w).

(** Ids can be assigned twice.  The rotation after an insert drops the error of
    its metadata write; if the process then stops, the reopened collection takes
    the id counter from the old metadata, finds the new active segment empty, and
    gives the next insert the id of the acknowledged record: the sealed segment
    and the active one now hold an insert of the same id. *)
Theorem rotation_reuses_ids :
  let run := insert_meta_fails in
  run.1 = Ok (1%N, stamp) ∧
  match reopen one_entry_segments (with_faults [] run.2) with
  | (Ok c, w) =>
      let '(r, (c', w')) := Insert_ rec_b (c, w) in
      r = Ok (1%N, stamp) ∧
      (λ s, (map (λ e, (e_Op e, e_ID e)) <$> (ScanAll s w').1)) <$> c_sealed c' =
        [Ok [(OpInsert, 1%N)]; Ok [(OpInsert, 1%N)]]
  | (Err _, _) => False
  end.
Proof. split; vm_compute; [reflexivity|]. split; reflexivity. Qed.

(** [scanOffsets] ends without an error when a read of the file fails; the rebuild
    then looks for the offset of an entry that has none and panics. *)
Theorem failed_read_panics :
  (Rebuild [c_active demo_coll] demo_world).1 = Ok (c_index demo_coll) ∧
  (Rebuild [c_active demo_coll] (with_faults [None; None; Some 0] demo_world)).1 = Err ErrOther.
Proof. split; vm_compute; reflexivity. Qed.

(** ** Witnesses *)
Definition torn_line : bytes := to_bytes "{ torn".

Lemma demo_quiet w : dom (w_files w) = {[segmentPath demo_dir 1]} → quiet demo_dir w.
Proof.
  intros Hd.
  assert (∀ p, is_Some (w_files w !! p) → p = segmentPath demo_dir 1) as Hp.
  { intros p Hp. apply elem_of_dom in Hp. rewrite Hd in Hp. by apply elem_of_singleton in Hp. }
  split.
  - apply eq_None_not_Some. intros H%Hp. by apply join_inj in H.
  - apply glob_nil. intros p ->%Hp. by apply glob_match_join.
Qed.

(** The directory of the record of [demo_coll] after a stop in an append while a
    compaction was writing its first temporary segment. *)
Definition torn_world : World :=
  set_files (<[segmentPath demo_dir 1 := demo_line ++ torn_line]> {[join demo_dir ".compact_000001.ndjson" := torn_line]}) demo_world.

Lemma crash_recovery_witness :
  ∃ c' w', @OpenCollection length_digest "u" "d" defaultConfig torn_world = (Ok c', w') ∧ coll_inv c' w' [] demo_log.
Proof.
  apply (@crash_recovery length_digest "u" "d" defaultConfig demo_coll demo_world torn_world [] demo_log demo_line torn_line).
  - apply demo_inv.
  - reflexivity.
  - reflexivity.
  - apply lookup_singleton_eq.
  - apply lookup_insert_eq.
  - apply (bool_decide_unpack _). vm_compute. reflexivity.
  - intros n Hn. unfold torn_world. cbn [w_files set_files]. change (s_path (c_active demo_coll)) with (segmentPath demo_dir 1) in Hn.
    change (join "d" "u") with demo_dir in *. rewrite lookup_insert_ne by done. unfold demo_world. cbn [w_files].
    rewrite (lookup_singleton_ne (segmentPath demo_dir 1)) by done. apply lookup_singleton_ne.
    intros H%join_inj. apply (f_equal to_bytes) in H. rewrite to_bytes_app in H. discriminate H.
  - vm_compute. reflexivity.
  - vm_compute. reflexivity.
  - right. reflexivity.
  - vm_compute. constructor.
Defined.

Lemma close_reopen_witness :
  ∃ c1 w1 c2 w2, @CloseCollection length_digest (demo_coll, demo_world) = (Ok tt, (c1, w1)) ∧
    @OpenCollection length_digest "u" "d" defaultConfig w1 = (Ok c2, w2) ∧ coll_inv c2 w2 [] demo_log.
Proof.
  apply (@close_reopen length_digest "u" "d" defaultConfig demo_coll demo_world [] demo_log).
  - apply demo_inv.
  - reflexivity.
  - reflexivity.
  - intros id e He. unfold demo_coll in He. cbn [c_index] in He. apply lookup_singleton_Some in He as [<- <-].
    split; [reflexivity|]. split; simpl; first [vm_compute; reflexivity|lia].
  - split; [vm_compute; reflexivity|vm_compute; reflexivity|exact exp_ok_never|exact I].
  - vm_compute. reflexivity.
  - apply demo_quiet. vm_compute. reflexivity.
Defined.
