(* ===== verification/Compactor.v ===== *)
(** * Compaction

    engine/compactor.go: the dirty-ratio gate, the resolution of the sealed
    segments to the latest live entry of every id, the temporary segments with
    their rebalancing, the swap under the manifest of engine/compact_manifest.go,
    and the entry points [CompactNow], [MigrateNow] and the background loop.

    A pass holds the collection lock only for the swap.  [compact_plan] is the part
    before it, [compact_swap] the part under the lock and [compact_finish] the rest;
    [compact] is their composition, and other operations may run between them. *)

From S2P Require Import Prelude GoFloat GoStrconv GoTime GoJson Value Query Store Disk Segment Index SecIndex Collection Open.

(** The order in which [range] visits the entries of a map, which Go leaves open. *)
Class RangeOrder := {
  range_entries : gmap N Entry → list Entry;
  range_entries_perm m : range_entries m ≡ₚ (map_to_list m).*2
}.

(** Run a segment operation on a segment of the pass. *)
Definition on_segment {A} (s : Segment) (m : SE (Segment * World) A) : M (A * Segment) := λ w,
  let '(r, (s, w)) := m (s, w) in (match r with Ok a => Ok (a, s) | Err e => Err e end, w).

(** ** The gate *)

(** An entry is stale when it is a tombstone or the index does not point into its
    segment. *)
Definition is_stale (idx : Index) (path : string) (e : Entry) : bool :=
  bool_decide (e_Op e = OpDelete) ||
  match idx !! e_ID e with Some loc => negb (bool_decide (ie_SegmentPath loc = path)) | None => true end.

(** The totals over the segments; one that cannot be read is skipped. *)
Fixpoint count_stale (idx : Index) (segs : list Segment) (total stale : Z) : M (Z * Z) :=
  match segs with
  | [] => mret (total, stale)
  | s :: segs => λ w,
      match ScanAll s w with
      | (Ok es, w) =>
          count_stale idx segs (total + Z.of_nat (length es))
            (stale + Z.of_nat (length (filter (λ e, is_stale idx (s_path s) e = true) es))) w
      | (Err _, w) => count_stale idx segs total stale w
      end
  end.

Definition isDirty (c : Collection) (segs : list Segment) : M bool :=
  ts ← count_stale (c_index c) segs 0 0;
  let '(total, stale) := ts in
  mret (negb (total =? 0)%Z && f64_lt (CompactDirtyPct (c_cfg c)) (f64_div (f64_of_Z stale) (f64_of_Z total))).

Definition migrationPendingIn (c : Collection) (segs : list Segment) : bool :=
  match c_enc c with
  | None => false
  | Some enc =>
      existsb (λ kv : N * IndexEntry,
        negb (ie_Epoch kv.2 =? enc_epoch enc)%N && bool_decide (ie_SegmentPath kv.2 ∈ s_path <$> segs))
        (map_to_list (c_index c))
  end.

(** ** Resolution *)
Fixpoint resolve_latest (segs : list Segment) (latest : gmap N Entry) : M (gmap N Entry) :=
  match segs with
  | [] => mret latest
  | s :: segs =>
      es ← ScanAll s;
      resolve_latest segs (foldl (λ m e, <[e_ID e := e]> m) latest es)
  end.

(** Whether an entry survives: no tombstone, not expired. *)
Definition survives (now : Z) (e : Entry) : bool :=
  negb (bool_decide (e_Op e = OpDelete) || expired (e_ExpiresAt e) now).

Definition resolveEntries `{RangeOrder} (segs : list Segment) : M (list Entry) :=
  latest ← resolve_latest segs ∅;
  n ← now;
  mret (filter (λ e, survives (UnixNano n) e = true) (range_entries latest)).

(** [reencrypt]: decrypt, then seal under the current policy. *)
Definition reencrypt (enc : encryptor) (stored : option doc) : M (option doc) :=
  pt ← lift (enc_materialize enc stored []);
  seed ← rand_seed;
  lift (enc_encrypt enc seed pt).

Fixpoint reencrypt_entries (enc : encryptor) (es : list Entry) : M (list Entry) :=
  match es with
  | [] => mret []
  | e :: es =>
      e ← (if bool_decide (e_Op e = OpDelete) || (e_Epoch e =? enc_epoch enc)%N then mret e
           else d ← reencrypt enc (e_Data e); mret (set_sealed_data e d (enc_epoch enc)));
      es ← reencrypt_entries enc es;
      mret (e :: es)
  end.

Definition reencryptForMigration (c : Collection) (es : list Entry) : M (list Entry) :=
  match c_enc c with None => mret es | Some enc => reencrypt_entries enc es end.

(** ** Temporary segments *)
Definition compact_temp (dir : string) (n : N) : string :=
  join dir (".compact_" +:+ of_bytes (pad6 n) +:+ ".ndjson").

Definition append_to (s : Segment) (e : Entry) : M Segment := r ← on_segment s (Append e); mret r.2.
Definition seal_segment (s : Segment) : M Segment := r ← on_segment s Seal; mret r.2.

(** The loop of [writeCompacted]: the finished segments, the current one and the
    number of the next file. *)
Fixpoint write_entries (dir : string) (maxSize : Z) (segIdx : N) (segs : list Segment) (current : Segment)
    (es : list Entry) : M (list Segment * Segment) :=
  match es with
  | [] => mret (segs, current)
  | e :: es =>
      st ← (if (maxSize <=? s_size current)%Z then
              sealed ← seal_segment current;
              next ← openActiveSegment (compact_temp dir segIdx);
              mret ((segIdx + 1)%N, segs ++ [sealed], next)
            else mret (segIdx, segs, current));
      let '(segIdx, segs, current) := st in
      current ← append_to current e;
      write_entries dir maxSize segIdx segs current es
  end.

Fixpoint append_all (s : Segment) (es : list Entry) : M Segment :=
  match es with
  | [] => mret s
  | e :: es => s ← append_to s e; append_all s es
  end.

Definition mergeSegments (a b : Segment) : M Segment :=
  merged ← openActiveSegment (s_path a +:+ ".merge");
  es ← ScanAll a;
  merged ← append_all merged es;
  es ← ScanAll b;
  merged ← append_all merged es;
  seal_segment merged.

Fixpoint rebalance_from (minSize maxSize : Z) (segs : list Segment) : M (list Segment) :=
  match segs with
  | [] => mret []
  | s :: tl =>
      match tl with
      | [] => mret [s]
      | next :: rest =>
          if (minSize <=? s_size s)%Z then r ← rebalance_from minSize maxSize tl; mret (s :: r)
          else if (s_size s + s_size next <=? maxSize)%Z then
            merged ← mergeSegments s next;
            ignore (remove_file (s_path s));;
            ignore (remove_file (s_path next));;
            r ← rebalance_from minSize maxSize rest;
            mret (merged :: r)
          else r ← rebalance_from minSize maxSize tl; mret (s :: r)
      end
  end.

Definition rebalance (segs : list Segment) (maxSize : Z) : M (list Segment) :=
  rebalance_from (Z.quot maxSize 10) maxSize segs.

Definition writeCompacted (dir : string) (maxSize : Z) (es : list Entry) : M (list Segment) :=
  if bool_decide (es = []) then mret []
  else
    current ← openActiveSegment (compact_temp dir 1);
    st ← write_entries dir maxSize 2 [] current es;
    let '(segs, current) := st in
    last ← seal_segment current;
    rebalance (segs ++ [last]) maxSize.

(** ** A pass *)
Record plan := MkPlan {
  pl_temps : list Segment;
  pl_removals : list string
}.

(** [segmentPath i] for the temporary segments in order, numbered from [n]. *)
Definition final_paths (dir : string) (n : N) (temps : list Segment) : list string :=
  imap (λ i _, segmentPath dir (n + N.of_nat i)%N) temps.

Definition plan_manifest (dir : string) (p : plan) : compactManifest :=
  MkManifest (list_to_map (zip (s_path <$> pl_temps p) (final_paths dir 1 (pl_temps p))))
    (match pl_removals p with [] => None | l => Some l end).

Section pass.
Context `{RangeOrder} {sha : Sha256}.

(** Steps 1 to 5: [None] when the pass has nothing to do. *)
Definition compact_plan (force : bool) : CM (option plan) :=
  c ← obj;
  if c_closeDone c then mret None
  else if bool_decide (c_sealed c = []) then mret None
  else
    let toCompact := c_sealed c in
    go ← (if force then mret true
          else d ← io (isDirty c toCompact); mret (d || migrationPendingIn c toCompact));
    if negb go then mret None
    else
      resolved ← io (resolveEntries toCompact);
      resolved ← io (reencryptForMigration c resolved);
      temps ← io (writeCompacted (c_dir c) (SegmentMaxSize (c_cfg c)) resolved);
      let finals := final_paths (c_dir c) 1 temps in
      let p := MkPlan temps (filter (λ q, q ∉ finals) (s_path <$> toCompact)) in
      io (writeCompactManifest (c_dir c) (plan_manifest (c_dir c) p));;
      mret (Some p).

(** The renames; the size of a file that cannot be examined is 0. *)
Fixpoint rename_temps (dir : string) (n : N) (temps : list Segment) : M (list Segment) :=
  match temps with
  | [] => mret []
  | s :: temps =>
      let final := segmentPath dir n in
      rename_file (s_path s) final;;
      size ← (λ w, match stat final w with
        | (Ok (Some z), w) => (Ok z, w)
        | (_, w) => (Ok 0%Z, w)
        end) : M Z;
      segs ← rename_temps dir (n + 1)%N temps;
      mret (openSealedSegment final size :: segs)
  end.

Fixpoint remove_each (ps : list string) : M unit :=
  match ps with [] => mret tt | p :: ps => ignore (remove_file p);; remove_each ps end.

(** The swap, under the collection lock. *)
Definition compact_swap (p : plan) : CM unit :=
  c ← obj;
  newSegs ← io (rename_temps (c_dir c) 1 (pl_temps p));
  io (remove_each (pl_removals p));;
  modify (set_sealed newSegs);;
  c ← obj;
  idx ← io (Rebuild (all_segments c));
  modify (set_index idx).

Fixpoint rebuild_sidxs (segs : list Segment) (l : list (string * SecondaryIndex)) : CM unit :=
  match l with
  | [] => mret tt
  | (field, s) :: l =>
      s ← io (rebuild s segs);
      modify (λ c, set_sidxMap (<[field := s]> (c_sidxMap c)) c);;
      c ← obj;
      ignore (io (SecIndex.Persist s (sidxFilePath (c_dir c) field)));;
      rebuild_sidxs segs l
  end.

(** The indexes persisted and the manifest retired. *)
Definition compact_finish : CM unit :=
  c ← obj;
  io (Index.Persist (c_index c) (indexPath (c_dir c)));;
  rebuild_sidxs (all_segments c) (map_to_list (c_sidxMap c));;
  io (clearCompactManifest (c_dir c)).

Definition compact (force : bool) : CM unit :=
  p ← compact_plan force;
  match p with
  | None => mret tt
  | Some p => compact_swap p;; compact_finish
  end.

Definition CompactNow : CM unit :=
  c ← obj;
  if c_closed c then fail ErrOther else reapExpired;; compact true.

(** [MigrateNow] with a context that is not cancelled. *)
Definition MigrateNow : CM unit :=
  c ← obj;
  match c_enc c with
  | None => mret tt
  | Some _ =>
      if c_closed c then fail ErrOther
      else
        (if (0 <? s_size (c_active c))%Z then rotateSegment else mret tt);;
        reapExpired;;
        compact true
  end.

(** One iteration of [compactLoop], after a tick or a signal. *)
Definition compact_tick : CM unit :=
  c ← obj;
  if c_closed c then mret tt else ignore reapExpired;; ignore (compact false).
End pass.

(** The order of the map's representation, for evaluation. *)
Definition map_order : RangeOrder.
Proof. exists (λ m, (map_to_list m).*2). done. Defined.
