(* ===== verification/CompactorSpec.v ===== *)
(** * Compaction preserves the table

    A pass replaces the sealed segments by ones that hold the latest live entry of
    every id.  The theorems show that the records readable before the pass are
    exactly those readable after it, with their revisions, and that the
    representation invariant holds over the new layout, for every order in which
    the code may visit the entries.  The hypothesis that no new segment takes the
    name of the active one is needed; scenarios show what happens without it, when
    a segment is sealed between the two halves of a pass, and when temporary files
    of a failed pass are left behind. *)

From S2P Require Import Prelude GoFloat GoStrconv GoTime GoJson Value Query Store Disk Segment Index SecIndex Collection CollectionSpec Open OpenSpec Compactor.

(** ** Entries in the form the engine stores them *)
Record durable (e : Entry) : Prop := {
  du_wf : wf_entry e;
  du_size : (encoded_size e ≤ maxScanTokenSize)%Z;
  du_written : written e = e
}.

Lemma wf_any_norm v : wf_any v = true → wf_any (norm v) = true.
Proof.
  induction v as [| b | x | z | s | l IH | m IH] using any_ind_deep; intros Hwf; simpl in Hwf; try done.
  - unfold int_exact in Hwf. by bools.
  - cbn [norm wf_any]. induction IH as [|v l Hv _ IHl]; [done|]. simpl in *. bools. by rewrite Hv, IHl.
  - bools. cbn [norm wf_any]. rewrite keys_sorted_map, H. clear H.
    induction IH as [|[k v] m Hv _ IHl]; [done|]. simpl in *. bools. by rewrite H, Hv, IHl.
Qed.

Lemma norm_doc_ok d : d ≠ ∅ ∧ wf_doc d → norm_doc d ≠ ∅ ∧ wf_doc (norm_doc d).
Proof.
  intros [Hne Hd]. split; [by intros ?%fmap_empty_inv|].
  intros k v Hv. unfold norm_doc in Hv. rewrite lookup_fmap in Hv.
  destruct (d !! k) as [v'|] eqn:Hk; [|done]. injection Hv as <-. specialize (Hd k v' Hk). unfold wf_field in *. simpl in *.
  apply andb_true_iff in Hd as [Hs Hv']. apply andb_true_iff. auto using wf_any_norm.
Qed.

(** What the engine appended is in that form. *)
Lemma written_durable e : wf_entry e → (encoded_size e ≤ maxScanTokenSize)%Z → durable (written e).
Proof.
  intros He Hsz. destruct (checksum_total e He) as (c & Hc & _). pose proof (checksum_stored e (Some c) He) as Hcs.
  assert (written e = stored (set_crc e (Some c))) as Hw by (unfold written; by rewrite Hc).
  rewrite <-Hw in Hcs. destruct He as [H1 H2 H3 H4 H5 H6 H7].
  assert (e_Data (written e) = norm_doc <$> e_Data e) as Hdata by (by rewrite Hw).
  assert (∀ crc, entry_to_json (set_crc (written e) crc) = entry_to_json (set_crc e crc)) as Hj.
  { intros crc. rewrite Hw. unfold entry_to_json, set_crc, stored. cbn [e_Ts e_Data e_ID e_Op e_Rev e_Epoch e_ExpiresAt e_CRC].
    destruct (e_Data e) as [d|]; [|done]. cbn [fmap option_fmap option_map]. destruct H7 as [Hne Hd].
    rewrite doc_to_json_norm by done. assert (norm_doc d ≠ ∅) as Hne' by (by intros ?%fmap_empty_inv).
    by rewrite !bool_decide_false. }
  assert (Encode (written e) = Encode e) as HE by (unfold Encode; rewrite Hcs; destruct (checksum e); [by rewrite Hj|done]).
  split.
  - rewrite Hw. split; try done. cbn [e_Data stored set_crc]. destruct (e_Data e) as [d|]; [|done]. by apply norm_doc_ok.
  - unfold encoded_size. by rewrite HE.
  - unfold written at 1. rewrite Hcs, Hc, Hw. unfold stored, set_crc. cbn. f_equal.
    destruct (e_Data e) as [d|]; [|done]. cbn. by rewrite norm_doc_norm.
Qed.

(** ** The table of the resolved entries *)
Definition a_of (e : Entry) : arec := ARec (e_Rev e) (e_Ts e) (e_Data e) (e_ExpiresAt e) (e_Epoch e).
Definition writes (e : Entry) : Prop := e_Op e = OpInsert ∨ e_Op e = OpUpdate.
Definition rev_at (m : table) (id : N) : N := match m !! id with Some a => a_rev a | None => 0%N end.

(** Every write records its revision: at least one more than the record had. *)
Definition rev_recorded (m : table) (e : Entry) : Prop :=
  writes e → (1 ≤ e_Rev e ∧ u64_add (rev_at m (e_ID e)) 1 ≤ e_Rev e)%N.

Fixpoint revs_recorded (m : table) (es : list Entry) : Prop :=
  match es with [] => True | e :: es => rev_recorded m e ∧ revs_recorded (table_step m e) es end.

(** The last entry of every id. *)
Definition last_entries (m : gmap N Entry) (es : list Entry) : gmap N Entry :=
  foldl (λ m e, <[e_ID e := e]> m) m es.

Definition known_op (e : Entry) : Prop := e_Op e = OpInsert ∨ e_Op e = OpUpdate ∨ e_Op e = OpDelete.

Lemma next_rev_recorded m e cur :
  rev_recorded m e → writes e → cur = 0%N ∨ cur = rev_at m (e_ID e) → next_rev cur (e_Rev e) = e_Rev e.
Proof.
  intros Hr Hwr Hcur. destruct (Hr Hwr) as [H1 H2]. unfold next_rev. destruct Hcur as [-> | ->].
  - change (u64_add 0 1) with 1%N. destruct (N.ltb_spec 1 (e_Rev e)); lia.
  - destruct (N.ltb_spec (u64_add (rev_at m (e_ID e)) 1) (e_Rev e)); lia.
Qed.

Lemma table_step_write m m' e :
  rev_recorded m e → writes e → rev_at m' (e_ID e) = 0%N ∨ rev_at m' (e_ID e) = rev_at m (e_ID e) →
  table_step m' e = <[e_ID e := a_of e]> m'.
Proof.
  intros Hr Hwr Hcur. pose proof (next_rev_recorded m e (rev_at m' (e_ID e)) Hr Hwr Hcur) as Hn.
  unfold table_step. fold (rev_at m' (e_ID e)). rewrite Hn. by destruct Hwr as [-> | ->].
Qed.

(** [T'] is [T] without some records whose deadline has passed. *)
Record covers (now : Z) (T' T : table) : Prop := {
  cov_sub id a : T' !! id = Some a → T !! id = Some a;
  cov_live id a : T !! id = Some a → T' !! id = None → expired (a_exp a) now = true
}.

Lemma covers_rev now T' T id : covers now T' T → rev_at T' id = 0%N ∨ rev_at T' id = rev_at T id.
Proof.
  intros [H1 _]. unfold rev_at. destruct (T' !! id) as [a|] eqn:E; [|by left]. right. by rewrite (H1 id a E).
Qed.

Lemma covers_step now T' T e : known_op e → rev_recorded T e → covers now T' T → covers now (table_step T' e) (table_step T e).
Proof.
  intros Hop Hr Hc. destruct (decide (e_Op e = OpDelete)) as [Hd|Hnd].
  - unfold table_step. rewrite Hd. destruct Hc as [H1 H2].
    split; intros id a; rewrite !lookup_delete_Some; [naive_solver|].
    intros [Hne Ha] Hn. rewrite lookup_delete_ne in Hn by done. by eapply H2.
  - assert (writes e) as Hwr by (destruct Hop as [?|[?|?]]; [by left|by right|done]).
    rewrite (table_step_write T T' e), (table_step_write T T e) by (eauto using covers_rev).
    destruct Hc as [H1 H2]. split; intros id a; destruct (decide (e_ID e = id)) as [<-|Hne];
      rewrite ?lookup_insert_eq, ?lookup_insert_ne by done; [done|by apply H1|done|by apply H2].
Qed.

Lemma covers_fold now T' T es :
  Forall known_op es → revs_recorded T es → covers now T' T → covers now (foldl table_step T' es) (foldl table_step T es).
Proof.
  revert T T'. induction es as [|e es IH]; intros T T' Hop Hr Hc; [done|]. simpl.
  apply Forall_cons in Hop as [He Hes]. destruct Hr as [Hr1 Hr2]. apply IH; [done|done|]. by apply covers_step.
Qed.

Lemma revs_recorded_app m es1 es2 :
  revs_recorded m (es1 ++ es2) ↔ revs_recorded m es1 ∧ revs_recorded (foldl table_step m es1) es2.
Proof. revert m. induction es1 as [|e es1 IH]; intros m; simpl; [tauto|]. rewrite IH. tauto. Qed.

(** The table is what the last entries say. *)
Definition live_of (oe : option Entry) : option arec :=
  match oe with Some e => if bool_decide (e_Op e = OpDelete) then None else Some (a_of e) | None => None end.

Lemma table_last T m es :
  Forall known_op es → revs_recorded T es → (∀ id, T !! id = live_of (m !! id)) →
  ∀ id, foldl table_step T es !! id = live_of (last_entries m es !! id).
Proof.
  revert T m. induction es as [|e es IH]; intros T m Hop Hr Hm; [done|]. cbn [foldl last_entries].
  apply Forall_cons in Hop as [He Hes]. destruct Hr as [Hr1 Hr2]. apply IH; [done|done|]. intros id.
  destruct (decide (e_Op e = OpDelete)) as [Hd|Hnd].
  - unfold table_step. rewrite Hd. destruct (decide (e_ID e = id)) as [<-|Hne].
    + rewrite lookup_delete_eq, lookup_insert_eq. simpl. by rewrite bool_decide_true.
    + by rewrite lookup_delete_ne, lookup_insert_ne.
  - assert (writes e) as Hwr by (destruct He as [?|[?|?]]; [by left|by right|done]).
    rewrite (table_step_write T T e) by auto. destruct (decide (e_ID e = id)) as [<-|Hne].
    + rewrite !lookup_insert_eq. simpl. by rewrite bool_decide_false.
    + by rewrite !lookup_insert_ne.
Qed.

(** Entries with distinct ids define their table whatever their order. *)
Lemma table_distinct es :
  NoDup (e_ID <$> es) → Forall (λ e, writes e ∧ (1 ≤ e_Rev e)%N) es →
  ∀ id a, table_of es !! id = Some a ↔ ∃ e, e ∈ es ∧ e_ID e = id ∧ a = a_of e.
Proof.
  induction es as [|e es IH] using rev_ind; intros Hnd HF id a.
  { split; [done|]. by intros (e & ?%not_elem_of_nil & _). }
  rewrite fmap_app in Hnd. apply NoDup_app in Hnd as (Hnd & Hdis & _). apply Forall_app in HF as [HF He].
  apply Forall_cons in He as [[Hwr Hrev] _]. specialize (IH Hnd HF).
  assert (table_of es !! e_ID e = None) as Hnone.
  { apply eq_None_not_Some. intros [a' (e' & Hin & Hid & _)%IH]. apply (Hdis (e_ID e)).
    - rewrite <-Hid. apply list_elem_of_fmap. eauto.
    - by apply list_elem_of_singleton. }
  rewrite table_of_snoc, (table_step_write ∅ (table_of es) e); [|by intros _; unfold rev_at; rewrite lookup_empty|done|].
  2:{ left. unfold rev_at. by rewrite Hnone. }
  rewrite lookup_insert_Some, IH. setoid_rewrite elem_of_app. setoid_rewrite list_elem_of_singleton. split.
  - intros [[<- <-]|[Hne (e' & ? & ? & ?)]]; eauto 10.
  - intros (e' & [Hin| ->] & <- & ->); [|by left]. right. split; [|eauto]. intros Heq. apply (Hdis (e_ID e)).
    + rewrite Heq. apply list_elem_of_fmap. eauto.
    + by apply list_elem_of_singleton.
Qed.

Lemma last_entries_ids m es : (∀ id e, m !! id = Some e → e_ID e = id) →
  ∀ id e, last_entries m es !! id = Some e → e_ID e = id ∧ (m !! id = Some e ∨ e ∈ es).
Proof.
  revert m. induction es as [|e es IH]; intros m Hm id e' He; [simpl in He; auto|].
  simpl in He. destruct (IH (<[e_ID e:=e]> m)) with (id := id) (e := e') as [H1 H2]; [|done|].
  - intros id' e'' [[<- <-]|[_ ?]]%lookup_insert_Some; auto.
  - split; [done|]. destruct H2 as [[[_ <-]|[_ ?]]%lookup_insert_Some|?]; [right; apply elem_of_cons; by left|by left|].
    right. apply elem_of_cons. by right.
Qed.

Lemma revs_recorded_pos m es e : revs_recorded m es → e ∈ es → writes e → (1 ≤ e_Rev e)%N.
Proof.
  revert m. induction es as [|e' es IH]; intros m Hr Hin Hwr; [by apply not_elem_of_nil in Hin|].
  destruct Hr as [Hr1 Hr2]. apply elem_of_cons in Hin as [->|Hin]; [by apply Hr1|by eapply IH].
Qed.

Section resolution.
Context `{RangeOrder}.

Definition resolved (now : Z) (es : list Entry) : list Entry :=
  filter (λ e, survives now e = true) (range_entries (last_entries ∅ es)).

Lemma elem_of_resolved now es e :
  e ∈ resolved now es ↔ survives now e = true ∧ last_entries ∅ es !! e_ID e = Some e.
Proof.
  unfold resolved. rewrite list_elem_of_filter, range_entries_perm, list_elem_of_fmap. apply and_iff_compat_l. split.
  - intros ([id e'] & -> & Hin%elem_of_map_to_list). simpl.
    destruct (last_entries_ids ∅ es) with (id := id) (e := e') as [<- _]; [by intros ?? ?%lookup_empty_Some|done|done].
  - intros Hin. exists (e_ID e, e). split; [done|]. by apply elem_of_map_to_list.
Qed.

Lemma resolved_nodup now es : NoDup (e_ID <$> resolved now es).
Proof.
  unfold resolved. apply (sublist_NoDup _ (e_ID <$> range_entries (last_entries ∅ es))).
  - rewrite range_entries_perm, <-list_fmap_compose.
    rewrite (list_fmap_ext _ fst (map_to_list (last_entries ∅ es))); [apply NoDup_fst_map_to_list|].
    intros i [id e] Hi. apply list_elem_of_lookup_2, elem_of_map_to_list in Hi. simpl.
    by destruct (last_entries_ids ∅ es) with (id := id) (e := e) as [<- _]; [by intros ?? ?%lookup_empty_Some|done|].
  - apply fmap_sublist, sublist_filter.
Qed.

Lemma resolved_sub now es e : e ∈ resolved now es → e ∈ es.
Proof.
  intros [_ Hl]%elem_of_resolved.
  destruct (last_entries_ids ∅ es) with (id := e_ID e) (e := e) as [_ [?%lookup_empty_Some|?]]; [|done..].
  by intros ?? ?%lookup_empty_Some.
Qed.

(** The resolved entries define the table of the log, less expired records. *)
Lemma resolved_covers now es :
  Forall known_op es → revs_recorded ∅ es → covers now (table_of (resolved now es)) (table_of es).
Proof.
  intros Hop Hr. pose proof (table_last ∅ ∅ es Hop Hr) as HT.
  specialize (HT ltac:(intros id; by rewrite !lookup_empty)). fold (table_of es) in HT.
  assert (Forall (λ e, writes e ∧ (1 ≤ e_Rev e)%N) (resolved now es)) as HF.
  { apply Forall_forall. intros e He. pose proof (resolved_sub _ _ _ He) as Hin.
    apply elem_of_resolved in He as [Hs _]. rewrite Forall_forall in Hop. unfold survives in Hs. bools.
    assert (writes e) by (destruct (Hop e Hin) as [?|[?|?]]; [by left|by right|done]).
    eauto using revs_recorded_pos. }
  split; intros id a.
  - intros (e & He & <- & ->)%table_distinct; [|apply resolved_nodup|done].
    apply elem_of_resolved in He as [Hs Hl]. rewrite HT, Hl. unfold survives in Hs. bools. simpl.
    by rewrite bool_decide_false.
  - rewrite HT. destruct (last_entries ∅ es !! id) as [e|] eqn:He; [|done]. simpl.
    case_bool_decide as Hd; [done|]. intros [= <-] Hn. destruct (last_entries_ids ∅ es) with (id := id) (e := e) as [<- _];
      [by intros ?? ?%lookup_empty_Some|done|].
    destruct (expired (a_exp (a_of e)) now) eqn:Hx; [done|]. exfalso.
    assert (table_of (resolved now es) !! e_ID e = Some (a_of e)); [|congruence].
    apply table_distinct; [apply resolved_nodup|done|]. exists e. split; [|done]. apply elem_of_resolved.
    split; [|done]. unfold survives. rewrite bool_decide_false by done. simpl in *. by rewrite Hx.
Qed.

Lemma resolve_latest_spec segs logs m w :
  no_faults w → Forall2 (λ s es, seg_rep s w es) segs logs →
  resolve_latest segs m w = (Ok (last_entries m (concat logs).*2), w).
Proof.
  intros Hw HF. revert m. induction HF as [|s es segs logs Hs HF IH]; intros m; [done|]. cbn [resolve_latest].
  erewrite bind_ok by (by apply ScanAll_log). rewrite IH. unfold last_entries. cbn [concat]. by rewrite fmap_app, foldl_app.
Qed.

Lemma resolveEntries_spec segs logs w :
  no_faults w → Forall2 (λ s es, seg_rep s w es) segs logs →
  resolveEntries segs w = (Ok (resolved (UnixNano (w_now w)) (concat logs).*2), w).
Proof.
  intros Hw HF. unfold resolveEntries. erewrite bind_ok by (by apply resolve_latest_spec). by erewrite bind_ok by reflexivity.
Qed.
End resolution.

(** ** Segments of a pass *)

(** The file of a segment holds the entries [l]. *)
Definition holds (w : World) (s : Segment) (l : list Entry) : Prop := ∃ es, seg_rep s w es ∧ es.*2 = l.

Lemma holds_frame w w' s l :
  w_files w' !! s_path s = w_files w !! s_path s → holds w s l → holds w' s l.
Proof. intros Hf (es & Hs & Hl). exists es. split; [|done]. by apply (seg_rep_frame s w). Qed.

Lemma holds_all_frame w w' segs ls :
  (∀ p, p ∈ s_path <$> segs → w_files w' !! p = w_files w !! p) →
  Forall2 (holds w) segs ls → Forall2 (holds w') segs ls.
Proof.
  intros Hf HF. induction HF as [|s l segs ls Hs HF IH]; constructor.
  - apply (holds_frame w); [|done]. apply Hf. cbn [fmap list_fmap]. apply elem_of_cons. by left.
  - apply IH. intros p Hp. apply Hf. cbn [fmap list_fmap]. apply elem_of_cons. by right.
Qed.

(** What a file operation on the paths [ps] leaves alone. *)
Definition touches_only (P : string → Prop) (w : World) (fs : gmap string bytes) : Prop :=
  ∀ p, ¬ P p → fs !! p = w_files w !! p.

Lemma append_to_spec s w l e :
  no_faults w → holds w s l → active s → durable e →
  ∃ s' fs, append_to s e w = (Ok s', set_files fs w) ∧ holds (set_files fs w) s' (l ++ [e]) ∧ active s' ∧
    s_path s' = s_path s ∧ touches_only (λ p, p = s_path s) w fs.
Proof.
  intros Hw (es & Hs & Hl) Ha [He Hsz Hwr]. destruct (Encode_segment_log e (s_size s) He Hsz) as (b & Hb & Hlog).
  rewrite Hwr in Hlog. unfold encoded_size in Hsz. rewrite Hb in Hsz.
  eexists (grown s b), _. unfold append_to, on_segment. split; [|split; [|split; [|split]]].
  - erewrite bind_ok by (rewrite (Append_nofault s w e b) by done; reflexivity). reflexivity.
  - exists (es ++ [(s_size s, e)]). split; [by apply seg_rep_append|]. by rewrite fmap_app, Hl.
  - done.
  - done.
  - intros p Hp. by rewrite lookup_insert_ne.
Qed.

Lemma append_all_spec s w l es :
  no_faults w → holds w s l → active s → Forall durable es →
  ∃ s' fs, append_all s es w = (Ok s', set_files fs w) ∧ holds (set_files fs w) s' (l ++ es) ∧ active s' ∧
    s_path s' = s_path s ∧ touches_only (λ p, p = s_path s) w fs.
Proof.
  intros Hw Hh Ha HF. revert s w l Hw Hh Ha. induction HF as [|e es He HF IH]; intros s w l Hw Hh Ha.
  { exists s, (w_files w). rewrite app_nil_r. destruct w. by split_and!. }
  cbn [append_all]. destruct (append_to_spec s w l e Hw Hh Ha He) as (s1 & fs1 & H1 & H2 & H3 & H4 & H5).
  erewrite bind_ok by exact H1. destruct (IH s1 (set_files fs1 w) (l ++ [e])) as (s' & fs & G1 & G2 & G3 & G4 & G5); [done..|].
  rewrite set_files_set in G1, G2. exists s', fs. rewrite <-app_assoc in G2.
  split_and!; [done|done|done|congruence|]. intros p Hp. rewrite G5 by (by rewrite H4). by apply H5.
Qed.

Lemma seal_segment_spec s w : no_faults w → active s → seal_segment s w = (Ok (sealed_segment s), w).
Proof.
  intros Hw Ha. unfold seal_segment, on_segment. by erewrite bind_ok by (rewrite Seal_nofault by done; reflexivity).
Qed.

Lemma holds_sealed w s l : holds w s l → holds w (sealed_segment s) l.
Proof. done. Qed.

Lemma open_fresh_spec path w :
  no_faults w → w_files w !! path = None →
  ∃ s fs, openActiveSegment path w = (Ok s, set_files fs w) ∧ holds (set_files fs w) s [] ∧ active s ∧ s_path s = path ∧
    touches_only (λ p, p = path) w fs.
Proof.
  intros Hw Hp. eexists _, _. split; [by apply openActiveSegment_fresh|]. split_and!; [|done|done|].
  - exists []. split; [|done]. exists []. simpl. rewrite lookup_insert_eq. by split_and!; [|constructor|].
  - intros p Hne. by rewrite lookup_insert_ne.
Qed.

(** *** Names *)
Lemma to_bytes_compact_temp dir n :
  to_bytes (compact_temp dir n) = to_bytes (dir +:+ "/") ++ to_bytes ".compact_" ++ pad6 n ++ to_bytes ".ndjson".
Proof. unfold compact_temp, join. rewrite !to_bytes_app, to_of_bytes. by rewrite <-!app_assoc. Qed.

Lemma compact_temp_inj dir m n : compact_temp dir m = compact_temp dir n → m = n.
Proof.
  intros H%(f_equal to_bytes). rewrite !to_bytes_compact_temp in H.
  apply app_inv_head, app_inv_head, app_inv_tail in H.
  by rewrite <-(dec_value_pad6 m), H, dec_value_pad6.
Qed.

(** A temporary segment, or the merge of two. *)
Definition merge_of (p : string) : string := p +:+ ".merge".
Definition temp_name (dir p : string) : Prop := ∃ k, p = compact_temp dir k ∨ p = merge_of (compact_temp dir k).

Lemma temp_last dir k : last (to_bytes (compact_temp dir k)) = Some "n"%char.
Proof. rewrite to_bytes_compact_temp, !last_app. reflexivity. Qed.
Lemma merge_last p : last (to_bytes (merge_of p)) = Some "e"%char.
Proof. unfold merge_of. rewrite to_bytes_app, last_app. reflexivity. Qed.

Lemma merge_not_temp dir k p : merge_of p ≠ compact_temp dir k.
Proof. intros H%(f_equal (last ∘ to_bytes)). simpl in H. by rewrite merge_last, temp_last in H. Qed.

#[global] Instance merge_of_inj : Inj (=) (=) merge_of.
Proof. intros p q H%(f_equal to_bytes). unfold merge_of in H. rewrite !to_bytes_app in H. apply app_inv_tail in H. by apply (inj to_bytes). Qed.

Lemma temp_name_join dir p : temp_name dir p → ∃ f, p = join dir f ∧ is_prefix (to_bytes ".compact_") (to_bytes f) = true.
Proof.
  intros (k & [-> | ->]).
  - eexists. split; [reflexivity|]. rewrite to_bytes_app. apply is_prefix_app.
  - exists (".compact_" +:+ of_bytes (pad6 k) +:+ ".ndjson" +:+ ".merge"). split; [|rewrite to_bytes_app; apply is_prefix_app].
    apply (inj to_bytes). unfold merge_of, compact_temp, join. by rewrite !to_bytes_app, <-!app_assoc.
Qed.

(** A name that does not start with the prefix is no temporary. *)
Lemma temp_not_join dir p f :
  temp_name dir p → is_prefix (to_bytes ".compact_") (to_bytes f) = false → p ≠ join dir f.
Proof. intros (g & -> & Hg)%temp_name_join Hf Heq%join_inj. congruence. Qed.

Lemma temp_not_segment dir p n : temp_name dir p → p ≠ segmentPath dir n.
Proof. intros Hp. apply temp_not_join; [done|]. by rewrite !to_bytes_app. Qed.

(** *** Writing the temporary segments *)

(** The segments of a pass: their files hold [ls], their names are distinct
    temporaries numbered below [n], and no file has a higher number. *)
Record temps_inv (dir : string) (w : World) (n : N) (segs : list Segment) (ls : list (list Entry)) : Prop := {
  ti_holds : Forall2 (holds w) segs ls;
  ti_nodup : NoDup (s_path <$> segs);
  ti_names : ∀ p, p ∈ s_path <$> segs → ∃ k, (k < n)%N ∧ p = compact_temp dir k;
  ti_fresh : ∀ k, (n ≤ k)%N → w_files w !! compact_temp dir k = None
}.

Lemma holds_snoc w segs s ls l :
  Forall2 (holds w) (segs ++ [s]) (ls ++ [l]) → Forall2 (holds w) segs ls ∧ holds w s l.
Proof.
  intros HF. assert (length segs = length ls) as Hlen by (apply Forall2_length in HF; rewrite !length_app in HF; simpl in HF; lia).
  apply Forall2_app_inv in HF as [H1 H2]; [|done]. split; [done|]. by apply Forall2_cons_1 in H2 as [? _].
Qed.

(** Replacing the last segment after an append to it. *)
Lemma temps_inv_last dir w n segs s s' ls l l' fs :
  temps_inv dir w n (segs ++ [s]) (ls ++ [l]) → s_path s' = s_path s →
  touches_only (λ p, p = s_path s) w fs → holds (set_files fs w) s' l' →
  temps_inv dir (set_files fs w) n (segs ++ [s']) (ls ++ [l']).
Proof.
  intros [H1 H2 H3 H4] Hp Hfs Hh.
  assert (s_path <$> segs ++ [s'] = s_path <$> segs ++ [s]) as Hps by (rewrite !fmap_app; simpl; by rewrite Hp).
  apply holds_snoc in H1 as [H1 _].
  split; rewrite ?Hps; [|done|done|].
  - apply Forall2_app; [|by repeat constructor]. apply (holds_all_frame w); [|done]. intros p Hin. apply Hfs. intros ->.
    rewrite fmap_app in H2. apply NoDup_app in H2 as (_ & Hdis & _). apply (Hdis _ Hin). by apply list_elem_of_singleton.
  - intros k Hk. simpl. rewrite Hfs; [by apply H4|]. intros Heq.
    destruct (H3 (s_path s)) as (j & Hj & Hjp); [rewrite fmap_app; apply elem_of_app; right; by apply list_elem_of_singleton|].
    rewrite <-Heq in Hjp. apply compact_temp_inj in Hjp. lia.
Qed.

(** Opening the next file. *)
Lemma temps_inv_next dir w n segs s ls fs :
  temps_inv dir w n segs ls → s_path s = compact_temp dir n →
  touches_only (λ p, p = compact_temp dir n) w fs → holds (set_files fs w) s [] →
  temps_inv dir (set_files fs w) (n + 1) (segs ++ [s]) (ls ++ [[]]).
Proof.
  intros [H1 H2 H3 H4] Hp Hfs Hh.
  assert (compact_temp dir n ∉ s_path <$> segs) as Hnew.
  { intros (k & Hk & Heq)%H3. apply compact_temp_inj in Heq. lia. }
  split.
  - apply Forall2_app; [|by repeat constructor]. apply (holds_all_frame w); [|done]. intros p Hin. apply Hfs. by intros ->.
  - rewrite fmap_app. apply NoDup_app. split_and!; [done| |apply NoDup_singleton].
    intros p Hin ->%list_elem_of_singleton. by rewrite Hp in Hin.
  - intros p. rewrite fmap_app, elem_of_app. intros [Hin|Hin%list_elem_of_singleton].
    + destruct (H3 p Hin) as (k & Hk & ->). exists k. split; [lia|done].
    + exists n. split; [lia|]. subst p. done.
  - intros k Hk. simpl. rewrite Hfs; [apply H4; lia|]. intros Heq%compact_temp_inj. lia.
Qed.

Definition is_temp (dir p : string) : Prop := ∃ k, p = compact_temp dir k.

Lemma write_entries_spec dir maxSize n segs current es w ls l :
  no_faults w → temps_inv dir w n (segs ++ [current]) (ls ++ [l]) → active current → Forall durable es →
  ∃ segs' current' fs n' ls' l', write_entries dir maxSize n segs current es w = (Ok (segs', current'), set_files fs w) ∧
    temps_inv dir (set_files fs w) n' (segs' ++ [current']) (ls' ++ [l']) ∧ active current' ∧
    concat (ls' ++ [l']) = concat (ls ++ [l]) ++ es ∧ touches_only (is_temp dir) w fs.
Proof.
  intros Hw Hti Ha HF. revert n segs current w ls l Hw Hti Ha.
  induction HF as [|e es He HF IH]; intros n segs current w ls l Hw Hti Ha.
  { exists segs, current, (w_files w), n, ls, l. rewrite app_nil_r. destruct w. by split_and!. }
  cbn [write_entries].
  assert (∃ n1 segs1 cur1 fs1 ls1 l1,
    (if (maxSize <=? s_size current)%Z then
       sealed ← seal_segment current; next ← openActiveSegment (compact_temp dir n);
       mret ((n + 1)%N, segs ++ [sealed], next)
     else mret (n, segs, current)) w = (Ok (n1, segs1, cur1), set_files fs1 w) ∧
    temps_inv dir (set_files fs1 w) n1 (segs1 ++ [cur1]) (ls1 ++ [l1]) ∧ active cur1 ∧
    concat (ls1 ++ [l1]) = concat (ls ++ [l]) ∧ touches_only (is_temp dir) w fs1)
    as (n1 & segs1 & cur1 & fs1 & ls1 & l1 & H1 & H2 & H3 & H4 & H5).
  { destruct (maxSize <=? s_size current)%Z.
    - erewrite bind_ok by (by apply seal_segment_spec).
      destruct (open_fresh_spec (compact_temp dir n) w Hw) as (s & fs & G1 & G2 & G3 & G4 & G5); [by apply (ti_fresh _ _ _ _ _ Hti)|].
      erewrite bind_ok by exact G1. exists (n + 1)%N, (segs ++ [sealed_segment current]), s, fs, (ls ++ [l]), [].
      split_and!; [done| |done|by rewrite (concat_app (ls ++ [l])), app_nil_r|].
      + apply (temps_inv_next dir w n); [|done|done|done].
        replace w with (set_files (w_files w) w) by (by destruct w).
        apply (temps_inv_last dir w n segs current _ ls l); [done|done|done|].
        destruct (holds_snoc _ _ _ _ _ (ti_holds _ _ _ _ _ Hti)) as [_ HH]. by destruct w.
      + intros p Hp. apply G5. intros ->. apply Hp. by exists n.
    - exists n, segs, current, (w_files w), ls, l. destruct w. by split_and!. }
  erewrite bind_ok by exact H1. cbv beta iota.
  destruct (holds_snoc _ _ _ _ _ (ti_holds _ _ _ _ _ H2)) as [_ Hh1].
  destruct (append_to_spec cur1 (set_files fs1 w) l1 e) as (s2 & fs2 & A1 & A2 & A3 & A4 & A5); [done..|].
  erewrite bind_ok by exact A1.
  destruct (IH n1 segs1 s2 (set_files fs2 (set_files fs1 w)) ls1 (l1 ++ [e])) as (segs' & cur' & fs & n' & ls' & l' & R1 & R2 & R3 & R4 & R5); [done| |done|].
  { by eapply temps_inv_last. }
  rewrite set_files_set in R1, R2. rewrite set_files_set in R1, R2.
  exists segs', cur', fs, n', ls', l'. split_and!; [by rewrite set_files_set|done|done| |].
  - rewrite R4, <-H4, !concat_app. simpl. by rewrite !app_nil_r, <-!app_assoc.
  - intros p Hp. rewrite R5 by done. simpl. rewrite A5; [by apply H5|]. intros ->. apply Hp.
    destruct (ti_names _ _ _ _ _ H2 (s_path cur1)) as (k & _ & ->); [|by exists k].
    rewrite fmap_app. apply elem_of_app. right. by apply list_elem_of_singleton.
Qed.

(** *** Rebalancing *)
Lemma ignore_remove p w : no_faults w → ignore (remove_file p) w = (Ok tt, set_files (delete p (w_files w)) w).
Proof.
  intros Hw. unfold ignore, remove_file. rewrite (bind_ok _ _ w tt w) by (by apply syscall_nofault).
  unfold unlink_file. destruct (w_files w !! p) eqn:Hp; [done|]. simpl. rewrite delete_id by done. by destruct w.
Qed.

Lemma ScanAll_holds s w l : no_faults w → holds w s l → ScanAll s w = (Ok l, w).
Proof. intros Hw (es & Hs & <-). by apply ScanAll_log. Qed.

Lemma mergeSegments_spec a b w la lb :
  no_faults w → holds w a la → holds w b lb → Forall durable la → Forall durable lb →
  w_files w !! merge_of (s_path a) = None → merge_of (s_path a) ≠ s_path a → merge_of (s_path a) ≠ s_path b →
  ∃ s fs, mergeSegments a b w = (Ok s, set_files fs w) ∧ holds (set_files fs w) s (la ++ lb) ∧
    s_path s = merge_of (s_path a) ∧ touches_only (λ p, p = merge_of (s_path a)) w fs.
Proof.
  intros Hw Ha Hb Hda Hdb Hn Hna Hnb. unfold mergeSegments. fold (merge_of (s_path a)).
  destruct (open_fresh_spec _ w Hw Hn) as (s0 & fs0 & A1 & A2 & A3 & A4 & A5). erewrite bind_ok by exact A1.
  erewrite bind_ok by (apply ScanAll_holds; [done|]; apply (holds_frame w); [simpl; apply A5; congruence|exact Ha]).
  destruct (append_all_spec s0 (set_files fs0 w) [] la) as (s1 & fs1 & B1 & B2 & B3 & B4 & B5); [done..|].
  rewrite set_files_set in B1, B2. erewrite bind_ok by exact B1.
  assert (touches_only (λ p, p = merge_of (s_path a)) w fs1) as T1.
  { intros p Hp. rewrite B5 by (by rewrite A4). by apply A5. }
  erewrite bind_ok by (apply ScanAll_holds; [done|]; apply (holds_frame w); [simpl; apply T1; congruence|exact Hb]).
  destruct (append_all_spec s1 (set_files fs1 w) ([] ++ la) lb) as (s2 & fs2 & C1 & C2 & C3 & C4 & C5); [done..|].
  rewrite set_files_set in C1, C2. erewrite bind_ok by exact C1.
  exists (sealed_segment s2), fs2. split_and!; [by apply seal_segment_spec|done|simpl; congruence|].
  intros p Hp. rewrite C5 by (by rewrite B4, A4). by apply T1.
Qed.

(** The names a rebalancing of segments [ps] may use. *)
Definition family (ps : list string) (p : string) : Prop := ∃ q, q ∈ ps ∧ (p = q ∨ p = merge_of q).

Lemma family_app ps qs p : family (ps ++ qs) p ↔ family ps p ∨ family qs p.
Proof. unfold family. setoid_rewrite elem_of_app. naive_solver. Qed.

Record rebalanced (w : World) (fs : gmap string bytes) (ps : list string) (segs : list Segment) (es : list Entry) : Prop := {
  rb_holds : ∃ ls, Forall2 (holds (set_files fs w)) segs ls ∧ concat ls = es;
  rb_nodup : NoDup (s_path <$> segs);
  rb_family p : p ∈ s_path <$> segs → family ps p;
  rb_touches : touches_only (family ps) w fs
}.

(** Segments to rebalance: distinct temporaries whose merge name is free. *)
Record balanceable (dir : string) (w : World) (segs : list Segment) (ls : list (list Entry)) : Prop := {
  ba_holds : Forall2 (holds w) segs ls;
  ba_durable : Forall (Forall durable) ls;
  ba_nodup : NoDup (s_path <$> segs);
  ba_temp p : p ∈ s_path <$> segs → is_temp dir p;
  ba_free p : p ∈ s_path <$> segs → w_files w !! merge_of p = None
}.

Lemma temp_family_disjoint dir ps qs p :
  (∀ p, p ∈ ps ++ qs → is_temp dir p) → NoDup (ps ++ qs) → family ps p → ¬ family qs p.
Proof.
  intros Ht Hnd (q & Hq & Hpq) (r & Hr & Hpr). apply NoDup_app in Hnd as (_ & Hdis & _).
  destruct (Ht q) as [i ->]; [apply elem_of_app; by left|]. destruct (Ht r) as [j ->]; [apply elem_of_app; by right|].
  destruct Hpq as [-> | ->], Hpr as [Heq|Heq].
  - rewrite Heq in Hq. by apply (Hdis _ Hq).
  - symmetry in Heq. by apply merge_not_temp in Heq.
  - by apply merge_not_temp in Heq.
  - apply (inj merge_of) in Heq. rewrite Heq in Hq. by apply (Hdis _ Hq).
Qed.

Lemma family_self ps p : p ∈ ps → family ps p.
Proof. intros Hp. exists p. auto. Qed.

(** The rest of the segments after work on the first ones. *)
Lemma balanceable_rest dir w fs segs1 ls1 segs2 ls2 :
  length segs1 = length ls1 → balanceable dir w (segs1 ++ segs2) (ls1 ++ ls2) →
  touches_only (family (s_path <$> segs1)) w fs → balanceable dir (set_files fs w) segs2 ls2.
Proof.
  intros Hlen [H1 H2 H3 H4 H5] Hfs. rewrite fmap_app in *.
  assert (∀ p, family (s_path <$> segs2) p → fs !! p = w_files w !! p) as Hfr.
  { intros p Hp. apply Hfs. intros Hp1. by eapply temp_family_disjoint in Hp1. }
  apply Forall2_app_inv in H1 as [_ H1]; [|done]. apply Forall_app in H2 as [_ H2].
  split; [|done|by apply NoDup_app in H3 as (_ & _ & ?)|..].
  - apply (holds_all_frame w); [|done]. intros p Hp. by apply Hfr, family_self.
  - intros p Hp. apply H4, elem_of_app. by right.
  - intros p Hp. simpl. rewrite Hfr by (exists p; auto). apply H5, elem_of_app. by right.
Qed.

(** A segment put in front of a rebalanced rest. *)
Lemma rebalanced_cons dir w fs1 fs ps qs s r l es :
  (∀ p, p ∈ ps ++ qs → is_temp dir p) → NoDup (ps ++ qs) → touches_only (family ps) w fs1 →
  holds (set_files fs1 w) s l → family ps (s_path s) → rebalanced (set_files fs1 w) fs qs r es →
  rebalanced w fs (ps ++ qs) (s :: r) (l ++ es).
Proof.
  intros Ht Hnd T1 Hh Hs [(ls & Hls & Hc) H2 H3 H4]. pose proof (temp_family_disjoint dir ps qs) as Hdis.
  rewrite set_files_set in Hls. split.
  - exists (l :: ls). split; [|simpl; by rewrite Hc]. constructor; [|done].
    apply (holds_frame (set_files fs1 w)); [|done]. simpl. apply H4. by apply Hdis.
  - cbn [fmap list_fmap]. apply NoDup_cons. split; [|done]. intros Hin%H3. by apply (Hdis (s_path s)).
  - intros p Hp. cbn [fmap list_fmap] in Hp. rewrite family_app. apply elem_of_cons in Hp as [->|Hp]; auto.
  - intros p Hp. rewrite family_app in Hp. rewrite H4 by tauto. simpl. apply T1. tauto.
Qed.

Lemma rebalance_from_spec dir minSize maxSize segs ls w :
  no_faults w → balanceable dir w segs ls →
  ∃ segs' fs, rebalance_from minSize maxSize segs w = (Ok segs', set_files fs w) ∧
    rebalanced w fs (s_path <$> segs) segs' (concat ls).
Proof.
  remember (length segs) as n eqn:Hn. revert segs ls w Hn.
  induction (lt_wf n) as [n _ IH]. intros segs ls w -> Hw Hb.
  destruct segs as [|s tl].
  { destruct Hb as [H1 _ _ _ _]. apply Forall2_nil_inv_l in H1 as ->. exists [], (w_files w).
    split; [by destruct w|]. split; [by exists []|constructor|by intros p ?%not_elem_of_nil|done]. }
  destruct ls as [|l ls]; [by destruct Hb as [H1%Forall2_length _ _ _ _]|].
  pose proof (ba_nodup _ _ _ _ Hb) as Hnd. pose proof (ba_temp _ _ _ _ Hb) as Ht.
  destruct (Forall2_cons_1 _ _ _ _ _ (ba_holds _ _ _ _ Hb)) as [Hs Htl].
  assert (holds (set_files (w_files w) w) s l) as Hs' by (by destruct w).
  destruct tl as [|next rest].
  { apply Forall2_nil_inv_l in Htl as ->. exists [s], (w_files w). split; [by destruct w|].
    apply (rebalanced_cons dir w (w_files w) (w_files w) [s_path s] []); try done.
    - by apply family_self, list_elem_of_singleton.
    - split; [by exists []|constructor|by intros p ?%not_elem_of_nil|by destruct w]. }
  assert (∃ segs' fs, (r ← rebalance_from minSize maxSize (next :: rest); mret (s :: r)) w = (Ok segs', set_files fs w) ∧
    rebalanced w fs (s_path <$> s :: next :: rest) segs' (concat (l :: ls))) as Hkeep.
  { destruct (IH (length (next :: rest)) ltac:(simpl; lia) (next :: rest) ls (set_files (w_files w) w))
      as (r & fs & R1 & R2); [done|done|by apply (balanceable_rest dir w _ [s] [l])|].
    rewrite set_files_set in R1. replace (set_files (w_files w) w) with w in R1 by (by destruct w).
    exists (s :: r), fs. split; [by erewrite bind_ok by exact R1|].
    apply (rebalanced_cons dir w (w_files w) fs [s_path s]); try done. by apply family_self, list_elem_of_singleton. }
  cbn [rebalance_from]. destruct (minSize <=? s_size s)%Z; [exact Hkeep|].
  destruct (s_size s + s_size next <=? maxSize)%Z; [clear Hkeep|exact Hkeep].
  destruct ls as [|l2 ls]; [by apply Forall2_length in Htl|]. apply Forall2_cons_1 in Htl as [Hnext Hrest].
  pose proof (ba_durable _ _ _ _ Hb) as Hdur. apply Forall_cons in Hdur as [Hd1 Hdur]. apply Forall_cons in Hdur as [Hd2 _].
  destruct (Ht (s_path s)) as [k Hk]; [apply elem_of_cons; by left|].
  destruct (Ht (s_path next)) as [k2 Hk2]; [apply elem_of_cons; right; apply elem_of_cons; by left|].
  destruct (mergeSegments_spec s next w l l2) as (m & fs1 & M1 & M2 & M3 & M4);
    [done..|apply (ba_free _ _ _ _ Hb), elem_of_cons; by left|rewrite Hk at 2; apply merge_not_temp|rewrite Hk2; apply merge_not_temp|].
  erewrite bind_ok by exact M1. erewrite bind_ok by (by apply ignore_remove). erewrite bind_ok by (by apply ignore_remove).
  rewrite set_files_set. cbn [w_files set_files]. set (fs2 := delete (s_path next) (delete (s_path s) fs1)).
  rewrite set_files_set. assert (touches_only (family [s_path s; s_path next]) w fs2) as T2.
  { intros p Hp. assert (p ≠ s_path s ∧ p ≠ s_path next ∧ p ≠ merge_of (s_path s)) as (P1 & P2 & P3).
    { split_and!; intros ->; apply Hp; [exists (s_path s)|exists (s_path next)|exists (s_path s)]; split; auto;
        apply elem_of_cons; auto. right. by apply list_elem_of_singleton. }
    unfold fs2. rewrite !lookup_delete_ne by congruence. by apply M4. }
  destruct (IH (length rest) ltac:(simpl; lia) rest ls (set_files fs2 w)) as (r & fs & R1 & R2);
    [done|done|by apply (balanceable_rest dir w fs2 [s; next] [l; l2])|].
  rewrite set_files_set in R1. exists (m :: r), fs. split; [by erewrite bind_ok by exact R1|].
  change (s_path <$> s :: next :: rest) with ([s_path s; s_path next] ++ (s_path <$> rest)).
  cbn [concat]. rewrite app_assoc. apply (rebalanced_cons dir w fs2); try done.
  - apply (holds_frame (set_files fs1 w)); [|done]. simpl. unfold fs2. rewrite M3.
    rewrite !lookup_delete_ne; [done|rewrite Hk at 1; intros Heq; symmetry in Heq; by apply merge_not_temp in Heq
      |rewrite Hk2; intros Heq; symmetry in Heq; by apply merge_not_temp in Heq].
  - rewrite M3. exists (s_path s). split; [apply elem_of_cons; by left|by right].
Qed.

(** No file of the directory is a temporary of a pass. *)
Definition no_temps (dir : string) (w : World) : Prop := ∀ p, temp_name dir p → w_files w !! p = None.

(** The temporary segments of a pass over the entries [es]. *)
Record written_temps (dir : string) (w : World) (fs : gmap string bytes) (segs : list Segment) (es : list Entry) : Prop := {
  wt_holds : ∃ ls, Forall2 (holds (set_files fs w)) segs ls ∧ concat ls = es;
  wt_nodup : NoDup (s_path <$> segs);
  wt_names p : p ∈ s_path <$> segs → temp_name dir p;
  wt_touches : touches_only (temp_name dir) w fs
}.

Lemma writeCompacted_spec dir maxSize es w :
  no_faults w → no_temps dir w → Forall durable es →
  ∃ segs fs, writeCompacted dir maxSize es w = (Ok segs, set_files fs w) ∧ written_temps dir w fs segs es.
Proof.
  intros Hw Hno HF. unfold writeCompacted. case_bool_decide as Hnil.
  { subst es. exists [], (w_files w). split; [by destruct w|].
    split; [by exists []|constructor|by intros p ?%not_elem_of_nil|done]. }
  assert (∀ k, w_files w !! compact_temp dir k = None) as Hn by (intros k; apply Hno; exists k; by left).
  destruct (open_fresh_spec (compact_temp dir 1) w Hw (Hn 1%N)) as (s & fs1 & A1 & A2 & A3 & A4 & A5).
  erewrite bind_ok by exact A1.
  assert (temps_inv dir (set_files fs1 w) 2 ([] ++ [s]) ([] ++ [[]])) as Hti.
  { apply (temps_inv_next dir w 1 [] s []); [|done|done|done]. split; [constructor|constructor|by intros p ?%not_elem_of_nil|by intros k _]. }
  destruct (write_entries_spec dir maxSize 2 [] s es (set_files fs1 w) [] []) as (segs & cur & fs2 & n & ls & l & B1 & B2 & B3 & B4 & B5);
    [done..|].
  rewrite set_files_set in B1, B2. erewrite bind_ok by exact B1. cbv beta iota. erewrite bind_ok by (by apply seal_segment_spec).
  assert (touches_only (is_temp dir) w fs2) as T2.
  { intros p Hp. rewrite B5 by done. apply A5. intros ->. apply Hp. by exists 1%N. }
  assert (balanceable dir (set_files fs2 w) (segs ++ [sealed_segment cur]) (ls ++ [l])) as Hb.
  { destruct B2 as [I1 I2 I3 I4]. rewrite fmap_app in I2, I3. split; rewrite ?fmap_app; try done.
    - apply Forall2_app; apply holds_snoc in I1 as [? ?]; [done|by repeat constructor].
    - apply Forall_forall. intros x Hx. apply Forall_forall. intros e He. rewrite Forall_forall in HF. apply HF.
      simpl in B4. rewrite <-B4. apply list_elem_of_In, in_concat. exists x. by rewrite <-!list_elem_of_In.
    - intros p (k & _ & ->)%I3. by exists k.
    - intros p (k & _ & ->)%I3. simpl. rewrite T2; [apply Hno; exists k; by right|]. intros [j Hj]. by apply merge_not_temp in Hj. }
  destruct (rebalance_from_spec dir (Z.quot maxSize 10) maxSize _ _ (set_files fs2 w) ltac:(done) Hb) as (segs' & fs & R1 & [R2 R3 R4 R5]).
  rewrite set_files_set in R1. exists segs', fs. split; [exact R1|].
  assert (∀ p, family (s_path <$> segs ++ [sealed_segment cur]) p → temp_name dir p) as Hfam.
  { intros p (q & Hq & Hpq). destruct (ba_temp _ _ _ _ Hb q Hq) as [k ->]. exists k. tauto. }
  simpl in B4. rewrite B4 in R2. rewrite set_files_set in R2. split; [exact R2|done|by intros p ?%R4%Hfam|].
  intros p Hp. rewrite R5 by (by intros ?%Hfam). simpl. apply T2. intros [k ->]. apply Hp. exists k. by left.
Qed.

(** *** The swap *)
Lemma final_paths_cons dir n s temps :
  final_paths dir n (s :: temps) = segmentPath dir n :: final_paths dir (n + 1) temps.
Proof.
  unfold final_paths. cbn [imap]. f_equal; [f_equal; lia|]. apply imap_ext. intros i x _. simpl. f_equal. lia.
Qed.

Lemma elem_of_final_paths dir n temps p :
  p ∈ final_paths dir n temps ↔ ∃ k, (n ≤ k < n + N.of_nat (length temps))%N ∧ p = segmentPath dir k.
Proof.
  revert n. induction temps as [|s temps IH]; intros n.
  { split; [by intros ?%not_elem_of_nil|]. intros (k & Hk & _). simpl in Hk. lia. }
  rewrite final_paths_cons, elem_of_cons, IH. simpl length. split.
  - intros [->|(k & Hk & ->)]; [exists n|exists k]; (split; [lia|done]).
  - intros (k & Hk & ->). destruct (decide (k = n)) as [->|Hne]; [by left|]. right. exists k. split; [lia|done].
Qed.

Lemma rename_temps_spec dir n temps ls w :
  no_faults w → Forall2 (holds w) temps ls → NoDup (s_path <$> temps) → (∀ p, p ∈ s_path <$> temps → temp_name dir p) →
  ∃ segs fs, rename_temps dir n temps w = (Ok segs, set_files fs w) ∧ s_path <$> segs = final_paths dir n temps ∧
    Forall2 (holds (set_files fs w)) segs ls ∧
    touches_only (λ p, p ∈ s_path <$> temps ∨ p ∈ final_paths dir n temps) w fs.
Proof.
  intros Hw HF. revert n w Hw HF. induction temps as [|s temps IH] in ls |- *; intros n w Hw HF Hnd Hnm.
  { apply Forall2_nil_inv_l in HF as ->. exists [], (w_files w). split; [by destruct w|]. by split_and!. }
  destruct ls as [|l ls]; [by apply Forall2_length in HF|]. apply Forall2_cons_1 in HF as [(es & (b & Hb & Hlog & Hsz) & Hl) HF].
  cbn [fmap list_fmap] in Hnd, Hnm. apply NoDup_cons in Hnd as [Hns Hnd].
  assert (temp_name dir (s_path s)) as Hts by (apply Hnm, elem_of_cons; by left).
  assert (s_path s ≠ segmentPath dir n) as Hne by (by apply temp_not_segment).
  cbn [rename_temps]. erewrite bind_ok by (by eapply rename_file_nofault).
  set (fs1 := <[segmentPath dir n:=b]> (delete (s_path s) (w_files w))).
  erewrite bind_ok. 2:{ rewrite (stat_nofault _ b) by (by try (simpl; apply lookup_insert_eq)). reflexivity. }
  destruct (IH ls (n + 1)%N (set_files fs1 w)) as (segs & fs & R1 & R2 & R3 & R4); [done| |done|intros p Hp; apply Hnm, elem_of_cons; by right|].
  { apply (holds_all_frame w); [|done]. intros p Hp. simpl. unfold fs1. rewrite lookup_insert_ne, lookup_delete_ne; [done|by intros <-|].
    intros Heq. symmetry in Heq. revert Heq. apply temp_not_segment, Hnm, elem_of_cons. by right. }
  rewrite set_files_set in R1, R3. erewrite bind_ok by exact R1.
  eexists _, fs. split; [reflexivity|]. rewrite final_paths_cons. split; [cbn [fmap list_fmap]; by rewrite R2|]. split.
  - constructor; [|done]. exists es. split; [|done]. exists b. split_and!; [|done|done]. simpl. rewrite R4.
    + simpl. apply lookup_insert_eq.
    + intros [Hin|Hin].
      * by apply (temp_not_segment dir (segmentPath dir n) n); [apply Hnm, elem_of_cons; right|].
      * apply elem_of_final_paths in Hin as (k & Hk & Heq%segmentPath_inj). lia.
  - intros p Hp. cbn [fmap list_fmap] in Hp. rewrite !elem_of_cons in Hp. rewrite R4 by tauto. simpl. unfold fs1.
    rewrite lookup_insert_ne, lookup_delete_ne; [done|intros <-; tauto|intros <-; tauto].
Qed.

Lemma remove_each_spec ps w :
  no_faults w → ∃ fs, remove_each ps w = (Ok tt, set_files fs w) ∧
    (∀ p, p ∈ ps → fs !! p = None) ∧ touches_only (λ p, p ∈ ps) w fs.
Proof.
  revert w. induction ps as [|p ps IH]; intros w Hw.
  { exists (w_files w). split; [by destruct w|]. split; [by intros p ?%not_elem_of_nil|done]. }
  cbn [remove_each]. erewrite bind_ok by (by apply ignore_remove).
  destruct (IH (set_files (delete p (w_files w)) w)) as (fs & H1 & H2 & H3); [done|]. rewrite set_files_set in H1.
  exists fs. split; [done|]. split.
  - intros q Hq. destruct (decide (q ∈ ps)) as [|Hn]; [by apply H2|]. rewrite H3 by done.
    apply elem_of_cons in Hq as [->|?]; [|done]. simpl. apply lookup_delete_eq.
  - intros q Hq. rewrite elem_of_cons in Hq. rewrite H3 by tauto. simpl. rewrite lookup_delete_ne; [done|]. intros <-. tauto.
Qed.

(** ** A pass *)
Lemma manifest_not_segment dir n :
  compactManifestPath dir ≠ segmentPath dir n ∧ compactManifestPath dir +:+ ".tmp" ≠ segmentPath dir n.
Proof. split; [by apply join_not_segment|]. unfold compactManifestPath. rewrite join_tmp. by apply join_not_segment. Qed.

Lemma holds_logs w segs ls :
  Forall2 (holds w) segs ls → ∃ logs, Forall2 (λ s es, seg_rep s w es) segs logs ∧ (concat logs).*2 = concat ls.
Proof.
  induction 1 as [|s l segs ls (es & Hs & <-) HF (logs & H1 & H2)]; [by exists []|].
  exists (es :: logs). split; [by constructor|]. simpl. by rewrite fmap_app, H2.
Qed.

Section pass.
Context `{RangeOrder} {sha : Sha256}.

(** What a pass needs of the collection: open, with sealed segments, no
    encryption, no leftover temporaries, and a log of entries as the engine writes
    them, each recording its revision. *)
Record compactable (c : Collection) (w : World) (logs : list (list (Z * Entry))) (log : list (Z * Entry)) : Prop := {
  cp_faults : no_faults w;
  cp_open : c_closeDone c = false;
  cp_sealed : c_sealed c ≠ [];
  cp_plain : c_enc c = None;
  cp_temps : no_temps (c_dir c) w;
  cp_durable : Forall durable (coll_log logs log).*2;
  cp_revs : revs_recorded ∅ (coll_log logs log).*2
}.

Definition plan_of (c : Collection) (temps : list Segment) : plan :=
  MkPlan temps (filter (λ q, q ∉ final_paths (c_dir c) 1 temps) (s_path <$> c_sealed c)).

(** The resolved entries of the sealed logs. *)
Definition survivors (w : World) (logs : list (list (Z * Entry))) : list Entry :=
  resolved (UnixNano (w_now w)) (concat logs).*2.

Lemma compact_plan_spec c w logs log :
  coll_inv c w logs log → compactable c w logs log →
  ∃ temps ls fs, compact_plan true (c, w) = (Ok (Some (plan_of c temps)), (c, set_files fs w)) ∧
    Forall2 (holds (set_files fs w)) temps ls ∧ concat ls = survivors w logs ∧
    NoDup (s_path <$> temps) ∧ (∀ p, p ∈ s_path <$> temps → temp_name (c_dir c) p) ∧
    (∀ n, fs !! segmentPath (c_dir c) n = w_files w !! segmentPath (c_dir c) n) ∧
    fs !! compactManifestPath (c_dir c) = Some (print_json (manifest_json (plan_manifest (c_dir c) (plan_of c temps)))) ∧
    (∀ f, is_prefix (to_bytes ".compact_") (to_bytes f) = false → f ∉ ["compact.manifest"; "compact.manifest.tmp"] →
      fs !! join (c_dir c) f = w_files w !! join (c_dir c) f).
Proof.
  intros Hinv [Hw Hcl Hse Henc Hno Hdur Hrev]. unfold compact_plan. erewrite bind_ok by reflexivity. cbn [fst].
  rewrite Hcl, bool_decide_false by done. erewrite bind_ok by reflexivity. cbn [negb].
  erewrite bind_ok by (apply io_ok; apply resolveEntries_spec; [done|apply Hinv]). fold (survivors w logs).
  erewrite bind_ok by (apply io_ok; unfold reencryptForMigration; rewrite Henc; reflexivity).
  destruct (writeCompacted_spec (c_dir c) (SegmentMaxSize (c_cfg c)) (survivors w logs) w) as (temps & fs1 & W1 & [(ls & W2 & W3) W4 W5 W6]);
    [done|done| |].
  { apply Forall_forall. intros e He%resolved_sub. rewrite Forall_forall in Hdur. apply Hdur. unfold coll_log.
    rewrite fmap_app. apply elem_of_app. by left. }
  erewrite bind_ok by (apply io_ok; exact W1). unfold writeCompactManifest.
  fold (plan_of c temps).
  destruct (writeFileAtomic_nofault (compactManifestPath (c_dir c)) (print_json (manifest_json (plan_manifest (c_dir c) (plan_of c temps))))
    (set_files fs1 w)) as (fs & M1 & M2 & M3); [done|]. rewrite set_files_set in M1.
  assert (∀ p, p ≠ compactManifestPath (c_dir c) → p ≠ compactManifestPath (c_dir c) +:+ ".tmp" → fs !! p = fs1 !! p) as M4 by exact M3.
  erewrite bind_ok by (apply io_ok; exact M1). exists temps, ls, fs. split; [done|]. split_and!; try done.
  - apply (holds_all_frame (set_files fs1 w)); [|done]. intros p Hp%W5. simpl.
    apply M4; unfold compactManifestPath; rewrite ?join_tmp; by apply (temp_not_join _ _ _ Hp).
  - intros n. destruct (manifest_not_segment (c_dir c) n). rewrite M4 by done. apply W6. intros Ht. by apply (temp_not_segment _ _ n Ht).
  - intros f Hf Hn. rewrite !not_elem_of_cons in Hn. destruct Hn as (Hn1 & Hn2 & _).
    rewrite M4; [|by intros ?%join_inj|unfold compactManifestPath; rewrite join_tmp; by intros ?%join_inj]. apply W6.
    intros Ht. by apply (temp_not_join _ _ f Ht Hf).
Qed.

Definition swapped (c : Collection) (segs : list Segment) (idx : Index) : Collection := set_index idx (set_sealed segs c).

(** The layout after the swap. *)
Lemma swap_inv c w w' logs log segs logs' temps :
  coll_inv c w logs log → (N.of_nat (length temps) + 1 < 2 ^ 64)%N →
  s_path <$> segs = final_paths (c_dir c) 1 temps → s_path (c_active c) ∉ final_paths (c_dir c) 1 temps →
  Forall2 (λ s es, seg_rep s w' es) segs logs' → (concat logs').*2 = survivors w logs →
  (∀ n, segmentPath (c_dir c) n ∈ pl_removals (plan_of c temps) → w_files w' !! segmentPath (c_dir c) n = None) →
  (∀ n, segmentPath (c_dir c) n ∉ pl_removals (plan_of c temps) → segmentPath (c_dir c) n ∉ final_paths (c_dir c) 1 temps →
    w_files w' !! segmentPath (c_dir c) n = w_files w !! segmentPath (c_dir c) n) →
  coll_inv (swapped c segs (replay (located_log (segs ++ [c_active c]) (logs' ++ [log])))) w' logs' log.
Proof.
  intros Hinv Hlen Hps Hact HF Hsurv Hgone Hkept.
  pose proof (inv_numbers _ _ _ _ Hinv) as Hnum. rewrite Forall_forall in Hnum.
  pose proof (inv_paths _ _ _ _ Hinv) as Hnd. unfold paths, all_segments in Hnd, Hnum. rewrite fmap_app in Hnd, Hnum.
  apply NoDup_app in Hnd as (_ & Hdis & _).
  assert (∃ na, s_path (c_active c) = segmentPath (c_dir c) na) as (na & Hna).
  { destruct (Hnum (s_path (c_active c))) as (n & _ & ->); [apply elem_of_app; right; by apply list_elem_of_singleton|eauto]. }
  assert (s_path (c_active c) ∉ pl_removals (plan_of c temps)) as Hnr.
  { intros (_ & Hin)%list_elem_of_filter. apply (Hdis _ Hin). by apply list_elem_of_singleton. }
  assert (paths (swapped c segs (replay (located_log (segs ++ [c_active c]) (logs' ++ [log])))) =
    final_paths (c_dir c) 1 temps ++ [s_path (c_active c)]) as Hpaths.
  { unfold paths, all_segments, swapped. destruct c. simpl in *. by rewrite fmap_app, Hps. }
  split; rewrite ?Hpaths; try (unfold swapped; destruct c; simpl in *; done).
  - unfold swapped. destruct c; simpl in *. apply (seg_rep_frame _ w); [|apply Hinv]. rewrite Hna in *. simpl in *. by apply Hkept.
  - pose proof (inv_open _ _ _ _ Hinv). unfold swapped. by destruct c.
  - apply NoDup_app. split_and!; [|intros p Hp ->%list_elem_of_singleton; done|apply NoDup_singleton].
    clear. generalize 1%N. induction temps as [|s temps IH]; intros n; [constructor|]. rewrite final_paths_cons.
    apply NoDup_cons. split; [|apply IH]. intros (k & Hk & Heq%segmentPath_inj)%elem_of_final_paths. lia.
  - apply Forall_app. split; [|constructor; [|constructor]].
    + apply Forall_forall. intros p (k & Hk & ->)%elem_of_final_paths. exists k.
      split; [lia|]. unfold swapped. by destruct c.
    + destruct (Hnum (s_path (c_active c))) as (n & Hn & Heq); [apply elem_of_app; right; by apply list_elem_of_singleton|].
      exists n. split; [done|]. unfold swapped. destruct c. exact Heq.
  - intros n. assert (c_dir (swapped c segs (replay (located_log (segs ++ [c_active c]) (logs' ++ [log])))) = c_dir c) as ->
      by (unfold swapped; by destruct c).
    intros Hn. destruct (decide (segmentPath (c_dir c) n ∈ final_paths (c_dir c) 1 temps)) as [|Hnf]; [apply elem_of_app; by left|].
    destruct (decide (segmentPath (c_dir c) n ∈ pl_removals (plan_of c temps))) as [Hr|Hnrem]; [rewrite Hgone in Hn by done; by destruct Hn|].
    rewrite Hkept in Hn by done. apply (inv_files _ _ _ _ Hinv) in Hn. unfold paths, all_segments in Hn.
    rewrite fmap_app in Hn. apply elem_of_app in Hn as [Hn|Hn]; [|apply elem_of_app; by right].
    destruct Hnrem. apply list_elem_of_filter. done.
  - intros o e Hin. assert (e ∈ (coll_log logs log).*2) as He.
    { unfold coll_log in *. rewrite fmap_app. apply elem_of_app in Hin as [Hin|Hin]; apply elem_of_app.
      - left. apply (resolved_sub (UnixNano (w_now w))). change (e ∈ survivors w logs). rewrite <-Hsurv.
        apply list_elem_of_fmap. by exists (o, e).
      - right. apply list_elem_of_fmap. by exists (o, e). }
    apply list_elem_of_fmap in He as ([o' e'] & -> & He). pose proof (inv_ids _ _ _ _ Hinv o' e' He).
    unfold swapped. by destruct c.
Qed.

Lemma compact_swap_spec c w w1 logs log temps ls :
  coll_inv c w logs log → no_faults w1 → Forall2 (holds w1) temps ls → concat ls = survivors w logs →
  NoDup (s_path <$> temps) → (∀ p, p ∈ s_path <$> temps → temp_name (c_dir c) p) →
  (∀ n, w_files w1 !! segmentPath (c_dir c) n = w_files w !! segmentPath (c_dir c) n) →
  (N.of_nat (length temps) + 1 < 2 ^ 64)%N → s_path (c_active c) ∉ final_paths (c_dir c) 1 temps →
  ∃ segs idx fs logs', compact_swap (plan_of c temps) (c, w1) = (Ok tt, (swapped c segs idx, set_files fs w1)) ∧
    coll_inv (swapped c segs idx) (set_files fs w1) logs' log ∧ (concat logs').*2 = survivors w logs.
Proof.
  intros Hinv Hw HF Hc Hnd Hnm Hfr Hlen Hact. unfold compact_swap. erewrite bind_ok by reflexivity. cbn [fst].
  destruct (rename_temps_spec (c_dir c) 1 temps ls w1) as (segs & fs1 & R1 & R2 & R3 & R4); [done..|].
  erewrite bind_ok by (apply io_ok; exact R1).
  destruct (remove_each_spec (pl_removals (plan_of c temps)) (set_files fs1 w1)) as (fs & D1 & D2 & D3); [done|].
  rewrite set_files_set in D1. erewrite bind_ok by (apply io_ok; exact D1). erewrite bind_ok by reflexivity.
  erewrite bind_ok by reflexivity. cbn [fst].
  assert (∀ p, p ∈ final_paths (c_dir c) 1 temps → p ∉ pl_removals (plan_of c temps)) as Hdisj
    by (intros p Hp (Hn & _)%list_elem_of_filter; done).
  assert (Forall2 (holds (set_files fs w1)) segs ls) as HF'.
  { apply (holds_all_frame (set_files fs1 w1)); [|done]. rewrite R2. intros p Hp%Hdisj. by apply D3. }
  destruct (holds_logs _ _ _ HF') as (logs' & L1 & L2). rewrite Hc in L2.
  set (idx := replay (located_log (segs ++ [c_active c]) (logs' ++ [log]))).
  assert (coll_inv (swapped c segs idx) (set_files fs w1) logs' log) as Hinv'.
  { apply (swap_inv c w _ logs log segs logs' temps); try done.
    - intros n Hn. by apply D2.
    - intros n H1 H2. cbn [w_files set_files]. rewrite D3 by done. cbn [w_files set_files]. rewrite R4; [apply Hfr|].
      intros [Hin|Hin]; [|done]. by apply (temp_not_segment (c_dir c) (segmentPath (c_dir c) n) n); [apply Hnm|]. }
  exists segs, idx, fs, logs'. split; [|done].
  assert (Rebuild (all_segments (set_sealed segs c)) (set_files fs w1) = (Ok idx, set_files fs w1)) as HR.
  { assert (all_segments (set_sealed segs c) = segs ++ [c_active c]) as -> by (by destruct c). apply rebuild_segments_spec; [done|].
    apply Forall2_app; [done|]. constructor; [|constructor].
    pose proof (inv_active _ _ _ _ Hinv') as Ha. unfold swapped in Ha. by destruct c. }
  by erewrite bind_ok by (apply io_ok; exact HR).
Qed.

Lemma set_sidxMap_set m m' c : set_sidxMap m (set_sidxMap m' c) = set_sidxMap m c.
Proof. by destruct c. Qed.
Lemma set_sidxMap_id c : set_sidxMap (c_sidxMap c) c = c.
Proof. by destruct c. Qed.

(** The secondary indexes are no part of the representation of the log. *)
Lemma coll_inv_sidx c w logs log m : coll_inv c w logs log → coll_inv (set_sidxMap m c) w logs log.
Proof. intros []. by destruct c. Qed.

(** Rebuilding the secondary indexes succeeds and touches their own files only. *)
Lemma rebuild_sidxs_spec segs l c w logs :
  no_faults w → (∀ s, s ∈ segs → ∃ n, s_path s = segmentPath (c_dir c) n) → Forall2 (λ s es, seg_rep s w es) segs logs →
  ∃ m fs, rebuild_sidxs segs l (c, w) = (Ok tt, (set_sidxMap m c, set_files fs w)) ∧
    ∀ f, is_prefix (to_bytes "sidx_") (to_bytes f) = false → fs !! join (c_dir c) f = w_files w !! join (c_dir c) f.
Proof.
  revert c w. induction l as [|[field s] l IH]; intros c w Hw Hn HF.
  { exists (c_sidxMap c), (w_files w). by rewrite set_sidxMap_id, set_files_id. }
  cbn [rebuild_sidxs]. destruct (rebuild_total s segs logs w Hw HF) as (s' & Hr).
  erewrite bind_ok by (apply io_ok; exact Hr). erewrite bind_ok by reflexivity. erewrite bind_ok by reflexivity.
  set (c1 := set_sidxMap _ c). assert (c_dir c1 = c_dir c) as Hd by (by destruct c). cbn [fst]. rewrite Hd.
  destruct (persist_sidxs_spec (c_dir c) [(field, s')] w Hw) as (fs & Hp & Hfr). cbn [persist_sidxs] in Hp.
  assert (ignore (io (SecIndex.Persist s' (sidxFilePath (c_dir c) field))) (c1, w) = (Ok tt, (c1, set_files fs w))) as Hp1.
  { unfold ignore, mbind, SE_bind, io in *. destruct (SecIndex.Persist s' (sidxFilePath (c_dir c) field) w) as [r w1]. by injection Hp as ->. }
  erewrite bind_ok by exact Hp1.
  assert (∀ f, is_prefix (to_bytes "sidx_") (to_bytes f) = false → fs !! join (c_dir c) f = w_files w !! join (c_dir c) f) as Hfr'.
  { intros f Hf. apply Hfr. rewrite sidx_named_prefix. by rewrite Hf. }
  destruct (IH c1 (set_files fs w)) as (m & fs' & Hl & Hfs); [done|by rewrite Hd| |].
  - apply (seg_reps_frame _ _ w); [done|]. intros sg (n & ->)%Hn. by apply Hfr'.
  - rewrite Hd in Hfs. exists m, fs'. split; [rewrite Hl; by destruct c|].
    intros f Hf. rewrite Hfs by done. by apply Hfr'.
Qed.

Lemma clearCompactManifest_spec dir w :
  no_faults w → clearCompactManifest dir w = (Ok tt, set_files (delete (compactManifestPath dir) (w_files w)) w).
Proof.
  intros Hw. unfold clearCompactManifest. erewrite bind_ok; [by apply fsyncDir_nofault|]. unfold remove_if_exists, remove_file.
  rewrite (bind_ok _ _ w tt w) by (by apply syscall_nofault).
  unfold unlink_file. simpl. destruct (w_files w !! compactManifestPath dir) eqn:E; [done|]. by rewrite delete_id, set_files_id.
Qed.

Lemma compact_finish_spec c w logs log :
  coll_inv c w logs log → no_faults w →
  ∃ m fs, compact_finish (c, w) = (Ok tt, (set_sidxMap m c, set_files fs w)) ∧ coll_inv (set_sidxMap m c) (set_files fs w) logs log.
Proof.
  intros Hinv Hw. unfold compact_finish. erewrite bind_ok by reflexivity. cbn [fst].
  destruct (persist_index_frame (c_index c) (c_dir c) w Hw) as (fs1 & P1 & P2 & _).
  erewrite bind_ok by (apply io_ok; exact P1).
  assert (coll_inv c (set_files fs1 w) logs log) as Hinv1 by (by apply (coll_inv_frame c w)).
  destruct (rebuild_sidxs_spec (all_segments c) (map_to_list (c_sidxMap c)) c (set_files fs1 w) (logs ++ [log])) as (m & fs2 & R1 & R2).
  { done. }
  { intros s Hs. pose proof (inv_numbers _ _ _ _ Hinv) as Hn. rewrite Forall_forall in Hn.
    destruct (Hn (s_path s)) as (n & _ & ->); [apply list_elem_of_fmap; eauto|eauto]. }
  { apply Forall2_app; [apply Hinv1|]. by repeat constructor; apply Hinv1. }
  erewrite bind_ok by exact R1. exists m, (delete (compactManifestPath (c_dir c)) fs2). split.
  - apply io_ok. by rewrite clearCompactManifest_spec, !set_files_set.
  - apply coll_inv_sidx, (coll_inv_frame c (set_files fs1 w)); [done|]. intros n. cbn [w_files set_files].
    rewrite lookup_delete_ne by apply manifest_not_segment. by apply R2.
Qed.

Lemma survivors_covers c w logs logs' log :
  compactable c w logs log → (concat logs').*2 = survivors w logs →
  covers (UnixNano (w_now w)) (coll_table logs' log) (coll_table logs log).
Proof.
  intros Hc Hs. pose proof (cp_durable _ _ _ _ Hc) as Hd. pose proof (cp_revs _ _ _ _ Hc) as Hr.
  unfold coll_table, coll_log in *. rewrite !fmap_app in *. unfold table_of. rewrite !foldl_app.
  apply Forall_app in Hd as [Hd1 Hd2]. apply revs_recorded_app in Hr as [Hr1 Hr2].
  assert (∀ l, Forall durable l → Forall known_op l) as Hk.
  { intros l Hl. eapply Forall_impl; [exact Hl|]. intros e He. apply He. }
  apply covers_fold; [by apply Hk|done|]. rewrite Hs. by apply resolved_covers; [apply Hk|].
Qed.

(** [C1] Compaction. Let a forced pass run on a collection that is open and
    not encrypted, has a sealed segment, no temporary files left by an earlier
    pass, and a log of entries as the engine writes them, each recording its
    revision ([compactable]), while no system call fails and nothing else
    runs. The pass plans and writes its temporary segments without error;
    then, unless one of the new segment names is that of the active segment
    (with a smaller segment size than before it can be:
    [compaction_overwrites_active]), the whole pass succeeds, the
    representation invariant holds over the new segments, the new table is the
    old one less records whose deadline has passed, and every read returns
    what it returned before, with the same revision, in whatever order the
    entries are visited. *)
Theorem compaction_preserves (c : Collection) (w : World) (logs : list (list (Z * Entry))) (log : list (Z * Entry)) :
  coll_inv c w logs log → compactable c w logs log →
  ∃ p w1, compact_plan true (c, w) = (Ok (Some p), (c, w1)) ∧
    ((N.of_nat (length (pl_temps p)) + 1 < 2 ^ 64)%N →
     s_path (c_active c) ∉ final_paths (c_dir c) 1 (pl_temps p) →
     ∃ c' w' logs', compact true (c, w) = (Ok tt, (c', w')) ∧ coll_inv c' w' logs' log ∧
       covers (UnixNano (w_now w)) (coll_table logs' log) (coll_table logs log) ∧
       ∀ id, (GetRecord id (c', w')).1 = (GetRecord id (c, w)).1).
Proof.
  intros Hinv Hc. destruct (compact_plan_spec c w logs log Hinv Hc) as (temps & ls & fs & P1 & P2 & P3 & P4 & P5 & P6 & _).
  exists (plan_of c temps), (set_files fs w). split; [done|]. intros Hlen Hact.
  destruct (compact_swap_spec c w (set_files fs w) logs log temps ls) as (segs & idx & fs2 & logs' & S1 & S2 & S3);
    [done|apply Hc|done..|].
  rewrite set_files_set in S1, S2.
  destruct (compact_finish_spec (swapped c segs idx) (set_files fs2 w) logs' log) as (m & fs3 & F1 & F2); [done|apply Hc|].
  rewrite set_files_set in F1, F2.
  pose proof (survivors_covers c w logs logs' log Hc S3) as Hcov.
  exists (set_sidxMap m (swapped c segs idx)), (set_files fs3 w), logs'. split_and!; [|done|done|].
  - unfold compact. rewrite (bind_ok _ _ _ _ _ P1). by rewrite (bind_ok _ _ _ _ _ S1).
  - intros id. assert (c_enc (set_sidxMap m (swapped c segs idx)) = None) as Henc' by (pose proof (cp_plain _ _ _ _ Hc); unfold swapped; by destruct c).
    rewrite (get_spec _ _ _ _ id F2), (get_spec _ _ _ _ id Hinv) by (by try apply Hc). cbn [w_now set_files].
    destruct Hcov as [C1 C2]. destruct (coll_table logs log !! id) as [a|] eqn:Ea, (coll_table logs' log !! id) as [a'|] eqn:Ea'.
    + rewrite (C1 id a' Ea') in Ea. injection Ea as ->. by destruct (expired _ _).
    + by rewrite (C2 id a Ea Ea').
    + by rewrite (C1 id a' Ea') in Ea.
    + done.
Qed.
End pass.

(** ** Scenarios *)
Definition step {A} (m : CM A) (x : Collection * World) : Collection * World := (m x).2.

Definition opened (cfg : CollectionConfig) (w : World) : Collection * World :=
  match reopen cfg w with
  | (Ok c, w) => (c, w)
  | (Err _, w) => (fresh_collection "" "" cfg, w)
  end.

Definition compact_now : CM unit := @CompactNow map_order length_digest.

(** Three records written with the default segment size; the collection is closed
    and opened with a smaller one; two more inserts seal two segments, and the
    first record is deleted, its tombstone in the third, active segment. *)
Definition resized : Collection * World :=
  let '(_, w) := step (Insert_ rec_a;; Insert_ rec_a;; Insert_ rec_a;; @CloseCollection length_digest)
    (opened defaultConfig empty_disk) in
  step (Insert_ rec_b;; Insert_ rec_b;; Delete 1) (opened one_entry_segments w).

(** A pass numbers its segments from 1 and replaces whatever has that name.
    When the configured segment size shrank there can be more of them than the
    sealed segments they replace: the active segment is overwritten, a tombstone
    in it is lost, and the deleted record is readable again. *)
Theorem compaction_overwrites_active :
  (GetRecord 1 resized).1 = Err ErrNotFound ∧
  (compact_now resized).1 = Ok tt ∧
  s_path (c_active (step compact_now resized).1) ∈ s_path <$> c_sealed (step compact_now resized).1 ∧
  r_Data <$> (GetRecord 1 (step compact_now resized)).1 = Ok rec_a.
Proof.
  split; [vm_compute; reflexivity|]. split; [vm_compute; reflexivity|].
  split; [apply (bool_decide_unpack _); vm_compute; reflexivity|vm_compute; reflexivity].
Qed.

(** One sealed record; a pass is planned, an insert seals another segment before
    the swap, and the pass completes. *)
Definition interleaved : result (N * Time) * (Collection * World) :=
  let x := step (Insert_ rec_a) (opened one_entry_segments empty_disk) in
  match @compact_plan map_order true x with
  | (Ok (Some p), x) =>
      let '(r, x) := Insert_ rec_b x in
      (r, step (compact_swap p;; @compact_finish length_digest) x)
  | (_, x) => (Err ErrOther, x)
  end.

(** A pass releases the lock between its snapshot of the sealed segments and the
    swap, and the swap replaces the whole list: a segment sealed in between is
    dropped from it, and the acknowledged record it holds can no longer be read. *)
Theorem compaction_drops_sealed_segment :
  interleaved.1 = Ok (2%N, stamp) ∧
  (GetRecord 2 interleaved.2).1 = Err ErrNotFound ∧
  is_Some (w_files interleaved.2.2 !! segmentPath demo_dir 2) ∧
  segmentPath demo_dir 2 ∉ paths interleaved.2.1.
Proof.
  split; [vm_compute; reflexivity|]. split; [vm_compute; reflexivity|].
  split; apply (bool_decide_unpack _); vm_compute; reflexivity.
Qed.

Definition fault_at (k : nat) (x : Collection * World) : Collection * World :=
  (x.1, with_faults (replicate k None ++ [Some 0]) x.2).
Definition no_fault (x : Collection * World) : Collection * World := (x.1, with_faults [] x.2).

(** One sealed record; a pass fails after it wrote its temporary segment; the
    record is deleted, the tombstone sealed by another insert, and a second pass
    runs without a fault. *)
Definition retried : Collection * World :=
  let x := step (Insert_ rec_a) (opened one_entry_segments empty_disk) in
  step (Delete 1;; Insert_ rec_b) (no_fault (step compact_now (fault_at 8 x))).

(** A pass that fails leaves its temporary files, and the next pass appends to
    them: the stale entries become part of the compacted segments, and a record
    deleted in the meantime is readable again. *)
Theorem failed_pass_resurrects :
  (compact_now (fault_at 8 (step (Insert_ rec_a) (opened one_entry_segments empty_disk)))).1 = Err ErrIO ∧
  (GetRecord 1 retried).1 = Err ErrNotFound ∧
  (compact_now retried).1 = Ok tt ∧
  r_Data <$> (GetRecord 1 (step compact_now retried)).1 = Ok rec_a.
Proof. split_and!; vm_compute; reflexivity. Qed.

(** ** Witness: one sealed segment with a record, an empty active one *)
Definition sealed_coll : Collection :=
  MkColl "u" demo_dir defaultConfig stamp
    [MkSegment (segmentPath demo_dir 1) (Z.of_nat (length demo_line)) true NoFile]
    (MkSegment (segmentPath demo_dir 2) 0 false OpenFile)
    {[1%N := MkIndexEntry (segmentPath demo_dir 1) 0 1 0 0]} 1 0 ∅ 0 ∅ None None false [] false false false.
Definition sealed_world : World :=
  MkWorld (<[segmentPath demo_dir 2 := []]> {[segmentPath demo_dir 1 := demo_line]}) [] stamp 0.

Lemma sealed_inv : coll_inv sealed_coll sealed_world [demo_log] [].
Proof.
  destruct (inv_active _ _ _ _ demo_inv) as (b & Hb & Hlog & Hsz). unfold demo_world in Hb. simpl in Hb.
  rewrite lookup_singleton_eq in Hb. apply (inj Some) in Hb. subst b. clear Hsz.
  split.
  - constructor; [|constructor]. exists demo_line. split; [|exact (conj Hlog eq_refl)]. unfold sealed_world. cbn [w_files s_path].
    rewrite lookup_insert_ne by (by intros ?%segmentPath_inj). apply lookup_singleton_eq.
  - exists []. split; [apply lookup_insert_eq|]. split; [constructor|reflexivity].
  - split; reflexivity.
  - apply (bool_decide_unpack _). vm_compute. reflexivity.
  - constructor; [exists 1%N; split; reflexivity|]. constructor; [exists 2%N; split; reflexivity|constructor].
  - intros n [b Hn]. unfold sealed_world in Hn. cbn [w_files] in Hn.
    apply lookup_insert_Some in Hn as [[<- _]|[_ [<- _]%lookup_singleton_Some]]; apply (bool_decide_unpack _); vm_compute; reflexivity.
  - vm_compute. reflexivity.
  - intros o e Hin%list_elem_of_singleton. injection Hin as -> ->. vm_compute. discriminate.
Qed.

Lemma demo_entry_wf : wf_entry demo_entry.
Proof. apply wf_plain_entry; [done|done|by left|vm_compute; reflexivity|apply rec_ok, wf_rec; vm_compute; reflexivity|exact exp_ok_never]. Qed.

Lemma sealed_compactable : compactable sealed_coll sealed_world [demo_log] [].
Proof.
  split; try reflexivity; [done|..].
  - intros p Hp. unfold sealed_world. cbn [w_files]. pose proof (temp_not_segment _ _ 1 Hp). pose proof (temp_not_segment _ _ 2 Hp).
    change (c_dir sealed_coll) with demo_dir in *. rewrite lookup_insert_ne by congruence. apply lookup_singleton_ne. congruence.
  - constructor; [|constructor]. apply written_durable; [apply demo_entry_wf|vm_compute; discriminate].
  - split; [|done]. intros _. vm_compute. split; discriminate.
Qed.

Lemma compaction_preserves_witness :
  ∃ c' w' logs', @compact map_order length_digest true (sealed_coll, sealed_world) = (Ok tt, (c', w')) ∧
    coll_inv c' w' logs' [] ∧
    covers (UnixNano (w_now sealed_world)) (coll_table logs' []) (coll_table [demo_log] []) ∧
    ∀ id, (GetRecord id (c', w')).1 = (GetRecord id (sealed_coll, sealed_world)).1.
Proof.
  destruct (@compaction_preserves map_order length_digest sealed_coll sealed_world [demo_log] [] sealed_inv sealed_compactable)
    as (p & w1 & Hp & Hrest).
  assert (1 = length (pl_temps p)) as Hlen.
  { apply (f_equal (λ r, match r.1 with Ok (Some p) => length (pl_temps p) | _ => 0 end)) in Hp. vm_compute in Hp |- *. exact Hp. }
  apply Hrest; rewrite <-?Hlen; [reflexivity|].
  rewrite elem_of_final_paths, <-Hlen. intros (k & Hk & Heq). change (s_path (c_active sealed_coll)) with (segmentPath demo_dir 2) in Heq.
  apply segmentPath_inj in Heq. lia.
Defined.
