(* ===== verification/SwapRecovery.v ===== *)
(** * Recovery of an interrupted swap

    A compaction puts its manifest in place and then renames the temporary segments
    and removes the replaced ones.  A stop anywhere in between leaves a directory
    that is neither the old layout nor the new one; [recoverCompaction] of
    engine/compact_manifest.go rolls it forward when the collection is opened
    again.  [swap_recovery] states that this gives the layout the finished pass
    would have given. *)

From S2P Require Import Prelude GoFloat GoStrconv GoTime GoJson Value Query Store Disk Segment Index SecIndex Meta Collection CollectionSpec Open OpenSpec Compactor CompactorSpec.

(** ** The manifest *)

(** Concatenated strings are valid UTF-8 if their parts are. *)
Lemma utf8_valid_app n m a b :
  utf8_valid_fuel n a = true → utf8_valid_fuel m b = true → utf8_valid_fuel (n + m) (a ++ b) = true.
Proof.
  revert a. induction n as [|n IH]; intros a Ha Hb; [by destruct a|]. destruct a as [|c a].
  { apply (utf8_valid_fuel_mono m); [lia|done]. }
  cbn [utf8_valid_fuel Nat.add app] in *. destruct (decode_rune (c :: a)) as [[u r]|] eqn:E; [|done].
  apply decode_rune_app in E as (Hu & Hne & Ht). change (c :: a ++ b) with ((c :: a) ++ b). rewrite Hu, <-app_assoc, Ht. by apply IH.
Qed.

Lemma wf_string_app s t : wf_string s = true → wf_string t = true → wf_string (s +:+ t) = true.
Proof. unfold wf_string, utf8_valid. intros Hs Ht. rewrite to_bytes_app, length_app. by apply utf8_valid_app. Qed.

Lemma wf_join dir f : wf_string dir = true → wf_string f = true → wf_string (join dir f) = true.
Proof. intros Hd Hf. unfold join. repeat apply wf_string_app; done. Qed.

Lemma wf_segmentPath dir n : wf_string dir = true → wf_string (segmentPath dir n) = true.
Proof. intros Hd. apply wf_join; [done|]. repeat apply wf_string_app; [done|apply wf_string_digits, pad6_digits|done]. Qed.

Lemma wf_temp_name dir p : wf_string dir = true → temp_name dir p → wf_string p = true.
Proof.
  intros Hd (k & Hp). assert (wf_string (compact_temp dir k) = true) as Hk.
  { apply wf_join; [done|]. repeat apply wf_string_app; [done|apply wf_string_digits, pad6_digits|done]. }
  destruct Hp as [->| ->]; [done|]. by apply wf_string_app.
Qed.

(** What is written is what recovery reads. *)
Lemma manifest_roundtrip m :
  map_Forall (λ src dst, wf_string src = true ∧ wf_string dst = true) (Renames m) →
  Forall (λ p, wf_string p = true) (default [] (Removals m)) →
  parse_json (print_json (manifest_json m)) = Some (manifest_json m) ∧ manifest_of_json (manifest_json m) = Ok m.
Proof.
  intros Hren Hrem. split.
  - apply parse_print_json. apply wf_json_obj. repeat apply Forall_cons_2; [..|apply Forall_nil_2]; (split; [done|]); cbn [snd].
    + apply wf_json_obj, Forall_fmap, Forall_forall. intros [src dst] Hin%elem_of_sorted_pairs. apply (Hren src dst Hin).
    + destruct (Removals m) as [l|]; [|done]. apply wf_json_arr, Forall_fmap. exact Hrem.
  - assert (mapR set_rename ((λ kv : string * string, (kv.1, JStr kv.2)) <$> sorted_pairs (Renames m)) = Ok (sorted_pairs (Renames m))) as H1.
    { apply mapR_Forall2. induction (sorted_pairs (Renames m)) as [|[k v] l IH]; constructor; [reflexivity|exact IH]. }
    assert (∀ l, mapR (as_string "") (JStr <$> l) = Ok l) as H2.
    { intros l. apply mapR_Forall2. induction l as [|x l IH]; constructor; [reflexivity|exact IH]. }
    assert (∀ rem, set_manifest_field (MkManifest ∅ rem) ("renames", JObj ((λ kv : string * string, (kv.1, JStr kv.2)) <$> sorted_pairs (Renames m))) =
      Ok (MkManifest (Renames m) rem)) as H3.
    { intros rem. unfold set_manifest_field. change (field_name "renames") with "renames". cbv beta iota zeta.
      rewrite bool_decide_true by done. rewrite H1. cbn [mbind result_bind]. by rewrite assign_all_sorted_pairs. }
    unfold manifest_of_json, manifest_json. cbn [set_manifest_fields]. rewrite H3. cbn [mbind result_bind].
    unfold set_manifest_field. change (field_name "removals") with "removals". cbv beta iota zeta.
    rewrite (bool_decide_false (_ = _)), bool_decide_true by done. destruct m as [ren [l|]]; cbn [Removals]; [rewrite H2|]; reflexivity.
Qed.

(** ** Rolling forward *)

(** A rename that has happened is skipped: in the end every target holds what its
    source held, or what it held itself if the source was gone. *)
Lemma roll_renames_spec l w :
  no_faults w → NoDup l.*1 → NoDup l.*2 → (∀ p, p ∈ l.*1 → p ∉ l.*2) →
  ∃ fs, roll_renames l w = (Ok tt, set_files fs w) ∧
    (∀ src dst, (src, dst) ∈ l → fs !! dst = match w_files w !! src with Some b => Some b | None => w_files w !! dst end) ∧
    (∀ p, p ∉ l.*1 → p ∉ l.*2 → fs !! p = w_files w !! p).
Proof.
  revert w. induction l as [|[src dst] l IH]; intros w Hw H1 H2 Hdis.
  { exists (w_files w). split; [by rewrite set_files_id|]. split; [by intros ? ? ?%not_elem_of_nil|done]. }
  cbn [fmap list_fmap fst snd] in H1, H2, Hdis. apply NoDup_cons in H1 as [Hn1 H1], H2 as [Hn2 H2].
  assert (∃ fs, (st ← stat src; match st with Some _ => rename_file src dst;; roll_renames l | None => roll_renames l end) w =
      roll_renames l (set_files fs w) ∧ fs !! dst = match w_files w !! src with Some b => Some b | None => w_files w !! dst end ∧
      ∀ p, p ≠ src → p ≠ dst → fs !! p = w_files w !! p) as (fs & Hrun & Hdst & Hfr).
  { unfold stat. rewrite (bind_ok _ _ w ((λ b : bytes, Z.of_nat (length b)) <$> w_files w !! src) w);
      [|by erewrite bind_ok by (by apply syscall_nofault)].
    destruct (w_files w !! src) as [b|] eqn:Hs; cbn [fmap option_fmap option_map].
    - eexists. erewrite bind_ok by (by eapply rename_file_nofault). split; [reflexivity|]. split; [apply lookup_insert_eq|].
      intros p Hp1 Hp2. by rewrite lookup_insert_ne, lookup_delete_ne.
    - exists (w_files w). by rewrite set_files_id. }
  destruct (IH (set_files fs w)) as (fs' & Hl & Hin & Hout); [done..| |].
  { intros p Hp Hq. apply (Hdis p); apply elem_of_cons; by right. }
  exists fs'. cbn [roll_renames]. split; [rewrite Hrun; exact Hl|]. split.
  - intros s d [[= -> ->]|Hsd]%elem_of_cons.
    + rewrite Hout; [exact Hdst| |done]. intros Hd. apply (Hdis dst); [apply elem_of_cons; by right|apply elem_of_cons; by left].
    + rewrite (Hin s d Hsd). cbn [w_files set_files].
      assert (s ∈ l.*1 ∧ d ∈ l.*2) as [Hs Hd] by (split; apply list_elem_of_fmap; by exists (s, d)).
      rewrite !Hfr; [done|..]; intros ->.
      * apply (Hdis src); [apply elem_of_cons; by left|apply elem_of_cons; by right].
      * done.
      * done.
      * apply (Hdis dst); [apply elem_of_cons; by right|apply elem_of_cons; by left].
  - intros p Hp1 Hp2. cbn [fmap list_fmap fst snd] in Hp1, Hp2. apply not_elem_of_cons in Hp1 as [Hp1 Hp1'], Hp2 as [Hp2 Hp2'].
    rewrite Hout by done. by apply Hfr.
Qed.

(** ** The order of the names *)

(** Digit strings of one length compare like their values. *)
Lemma dec_value_from_bounds a ds : Forall (λ c, is_digit c = true) ds →
  (a * 10 ^ N.of_nat (length ds) ≤ dec_value_from a ds < (a + 1) * 10 ^ N.of_nat (length ds))%N.
Proof.
  intros H. revert a. induction H as [|c ds Hc _ IH]; intros a; [cbn; lia|].
  change (dec_value_from a (c :: ds)) with (dec_value_from (a * 10 + digit_val c) ds). specialize (IH (a * 10 + digit_val c)%N).
  assert (digit_val c ≤ 9)%N as Hd by (unfold is_digit in Hc; apply andb_true_iff in Hc as [_ ?%N.leb_le]; unfold digit_val; lia).
  cbn [length]. rewrite Nat2N.inj_succ, N.pow_succ_r'. nia.
Qed.

Lemma digits_compare a x y s t :
  length x = length y → Forall (λ c, is_digit c = true) x → Forall (λ c, is_digit c = true) y →
  (dec_value_from a x < dec_value_from a y)%N → str_lt (of_bytes x +:+ s) (of_bytes y +:+ t).
Proof.
  revert a y. induction x as [|c x IH]; intros a [|d y] Hlen Hx Hy Hlt; try done; [cbn in Hlt; lia|].
  apply Forall_cons in Hx as [Hc Hx], Hy as [Hd Hy]. cbn [length] in Hlen. injection Hlen as Hlen.
  change (dec_value_from a (c :: x)) with (dec_value_from (a * 10 + digit_val c) x) in Hlt.
  change (dec_value_from a (d :: y)) with (dec_value_from (a * 10 + digit_val d) y) in Hlt.
  pose proof (dec_value_from_bounds (a * 10 + digit_val c) x Hx) as Hbx. pose proof (dec_value_from_bounds (a * 10 + digit_val d) y Hy) as Hby.
  rewrite Hlen in Hbx. unfold is_digit in Hc, Hd. bools.
  change (of_bytes (c :: x) +:+ s) with (String c (of_bytes x +:+ s)). change (of_bytes (d :: y) +:+ t) with (String d (of_bytes y +:+ t)).
  unfold str_lt, str_compare. cbn [String.compare]. change (Ascii.compare c d) with (N_of_ascii c ?= N_of_ascii d)%N.
  destruct (N.compare_spec (N_of_ascii c) (N_of_ascii d)) as [Heq|Hl|Hg]; [|done|].
  - assert (digit_val c = digit_val d) as Hv by (unfold digit_val; congruence). rewrite Hv in Hlt. by apply (IH (a * 10 + digit_val d)%N).
  - exfalso. assert (digit_val d + 1 ≤ digit_val c)%N by (unfold digit_val; lia). nia.
Qed.

Lemma length_pad6 n : (n < 10 ^ 6)%N → length (pad6 n) = 6.
Proof.
  intros Hn. unfold pad6. rewrite length_app, length_replicate. enough (length (dec_digits n) ≤ 6) by lia.
  destruct (decide (n = 0)%N) as [->|Hz]; [rewrite dec_digits_0; simpl; lia|]. destruct (dec_digits_hd n) as (c & ds & Hds & Hc); [lia|].
  pose proof (dec_digits_all n) as Hall. pose proof (dec_value_digits n) as Hv. rewrite Hds in *. apply Forall_cons in Hall as [Hd Hall].
  change (dec_value (c :: ds)) with (dec_value_from (digit_val c) ds) in Hv.
  pose proof (dec_value_from_bounds (digit_val c) ds Hall) as [Hlo _]. rewrite Hv in Hlo.
  assert (1 ≤ digit_val c)%N as H1.
  { unfold is_digit, digit_val in *. bools. destruct (decide (N_of_ascii c = 48)%N) as [E|]; [|lia]. destruct Hc.
    rewrite <-(ascii_N_embedding c), E. reflexivity. }
  destruct (decide (length ds ≤ 5)) as [|Hl]; [cbn; lia|]. assert (10 ^ 6 ≤ 10 ^ N.of_nat (length ds))%N by (apply N.pow_le_mono_r; lia). nia.
Qed.

Lemma str_compare_app p s t : str_compare (p +:+ s) (p +:+ t) = str_compare s t.
Proof.
  induction p as [|c p IH]; [done|]. change (String c p +:+ s) with (String c (p +:+ s)). change (String c p +:+ t) with (String c (p +:+ t)).
  unfold str_compare in *. cbn [String.compare]. change (Ascii.compare c c) with (N_of_ascii c ?= N_of_ascii c)%N.
  rewrite N.compare_refl. exact IH.
Qed.

Lemma segmentPath_lt dir m n : (m < n < 10 ^ 6)%N → str_le (segmentPath dir m) (segmentPath dir n).
Proof.
  intros [Hmn Hn]. apply str_le_lt_eq. left. unfold segmentPath, join, str_lt. rewrite !str_compare_app.
  apply (digits_compare 0); auto using pad6_digits; [by rewrite !length_pad6 by lia|].
  change (dec_value (pad6 m) < dec_value (pad6 n))%N. by rewrite !dec_value_pad6.
Qed.

(** New segments, numbered from [n], and an active one with a higher number. *)
Lemma final_paths_sorted dir temps n na : (n + N.of_nat (length temps) ≤ na < 10 ^ 6)%N →
  StronglySorted str_le (final_paths dir n temps ++ [segmentPath dir na]).
Proof.
  revert n. induction temps as [|s temps IH]; intros n Hn; [repeat constructor|]. cbn [length] in Hn. rewrite final_paths_cons.
  cbn [app]. constructor; [apply IH; lia|]. apply Forall_app. split; [|repeat constructor; apply segmentPath_lt; lia].
  apply Forall_forall. intros p (k & Hk & ->)%elem_of_final_paths. apply segmentPath_lt. lia.
Qed.

Lemma final_paths_nodup dir temps n : NoDup (final_paths dir n temps).
Proof.
  revert n. induction temps as [|s temps IH]; intros n; [constructor|]. rewrite final_paths_cons.
  apply NoDup_cons. split; [|apply IH]. intros (k & Hk & Heq%segmentPath_inj)%elem_of_final_paths. lia.
Qed.

(** ** The directory in the middle of a swap *)

(** The first [i] renames and the first [j] removals of the swap of a pass. *)
Definition swap_upto (dir : string) (p : plan) (i j : nat) : M unit :=
  rename_temps dir 1 (take i (pl_temps p));; remove_each (take j (pl_removals p)).

(** The new content of every segment is in its temporary file or, once that is
    gone, in its final one. *)
Definition in_transit (dir : string) (fs : gmap string bytes) (temps : list Segment) (bs : list bytes) : Prop :=
  ∀ k s b, temps !! k = Some s → bs !! k = Some b →
    match fs !! s_path s with Some b' => b' = b | None => fs !! segmentPath dir (1 + N.of_nat k) = Some b end.

Lemma lookup_final_paths dir n temps k : k < length temps → final_paths dir n temps !! k = Some (segmentPath dir (n + N.of_nat k)).
Proof. intros [s Hs]%lookup_lt_is_Some_2. unfold final_paths. by rewrite list_lookup_imap, Hs. Qed.

Lemma Forall2_impl_in {A B} (P Q : A → B → Prop) l k : Forall2 P l k → (∀ x y, x ∈ l → P x y → Q x y) → Forall2 Q l k.
Proof.
  induction 1 as [|x y l k Hxy _ IH]; intros HQ; constructor; [apply HQ; [apply elem_of_cons; by left|done]|].
  apply IH. intros x' y' Hin. apply HQ, elem_of_cons. by right.
Qed.

Lemma rename_temps_bytes dir n temps bs w :
  no_faults w → Forall2 (λ s b, w_files w !! s_path s = Some b) temps bs → NoDup (s_path <$> temps) →
  (∀ p, p ∈ s_path <$> temps → temp_name dir p) →
  ∃ segs fs, rename_temps dir n temps w = (Ok segs, set_files fs w) ∧ (∀ p, p ∈ s_path <$> temps → fs !! p = None) ∧
    Forall2 (λ p b, fs !! p = Some b) (final_paths dir n temps) bs ∧
    touches_only (λ p, p ∈ s_path <$> temps ∨ p ∈ final_paths dir n temps) w fs.
Proof.
  intros Hw HF. revert n w Hw HF. induction temps as [|s temps IH] in bs |- *; intros n w Hw HF Hnd Hnm.
  { apply Forall2_nil_inv_l in HF as ->. exists [], (w_files w). split; [by destruct w|]. split_and!; [by intros ? ?%not_elem_of_nil|constructor|done]. }
  destruct bs as [|b bs]; [by apply Forall2_length in HF|]. apply Forall2_cons_1 in HF as [Hb HF].
  cbn [fmap list_fmap] in Hnd, Hnm. apply NoDup_cons in Hnd as [Hns Hnd].
  assert (∀ p, p ∈ s_path <$> temps → temp_name dir p) as Hnm' by (intros p Hp; apply Hnm, elem_of_cons; by right).
  assert (temp_name dir (s_path s)) as Hts by (apply Hnm, elem_of_cons; by left).
  cbn [rename_temps]. erewrite bind_ok by (by eapply rename_file_nofault).
  set (fs1 := <[segmentPath dir n:=b]> (delete (s_path s) (w_files w))).
  erewrite bind_ok. 2:{ rewrite (stat_nofault _ b) by (by try (simpl; apply lookup_insert_eq)). reflexivity. }
  destruct (IH bs (n + 1)%N (set_files fs1 w)) as (segs & fs & R1 & R2 & R3 & R4); [done| |done|done|].
  { eapply Forall2_impl_in; [exact HF|]. intros s' b' Hs' Hb'. cbn [w_files set_files]. unfold fs1.
    assert (s_path s' ∈ s_path <$> temps) as Hin by (apply list_elem_of_fmap; eauto).
    rewrite lookup_insert_ne, lookup_delete_ne; [done|by intros Heq; rewrite Heq in Hns|]. apply not_eq_sym. by apply temp_not_segment, Hnm'. }
  rewrite set_files_set in R1. erewrite bind_ok by exact R1. eexists _, fs. split; [reflexivity|]. rewrite final_paths_cons.
  assert (∀ p, p ∉ s_path <$> temps → p ∉ final_paths dir (n + 1) temps → fs !! p = fs1 !! p) as Hkeep by (intros p H1 H2; apply R4; tauto).
  split_and!.
  - intros p [->|Hp]%elem_of_cons; [|by apply R2]. rewrite Hkeep; [|done|].
    + unfold fs1. rewrite lookup_insert_ne by (by apply not_eq_sym, temp_not_segment). apply lookup_delete_eq.
    + intros (k & _ & Heq)%elem_of_final_paths. by apply (temp_not_segment dir (s_path s) k).
  - constructor; [|done]. rewrite Hkeep; [apply lookup_insert_eq|..].
    + intros Hin. by apply (temp_not_segment dir (segmentPath dir n) n); [apply Hnm'|].
    + intros (k & Hk & Heq%segmentPath_inj)%elem_of_final_paths. lia.
  - intros p Hp. cbn [fmap list_fmap] in Hp. rewrite !elem_of_cons in Hp. rewrite Hkeep by tauto. unfold fs1.
    rewrite lookup_insert_ne, lookup_delete_ne; [done|intros <-; tauto|intros <-; tauto].
Qed.

Lemma swap_upto_spec dir temps rem bs i j w :
  no_faults w → Forall2 (λ s b, w_files w !! s_path s = Some b) temps bs → NoDup (s_path <$> temps) →
  (∀ p, p ∈ s_path <$> temps → temp_name dir p) → (∀ p, p ∈ rem → (∃ n, p = segmentPath dir n) ∧ p ∉ final_paths dir 1 temps) →
  ∃ fs, swap_upto dir (MkPlan temps rem) i j w = (Ok tt, set_files fs w) ∧ in_transit dir fs temps bs ∧
    touches_only (λ p, p ∈ s_path <$> temps ∨ p ∈ final_paths dir 1 temps ∨ p ∈ rem) w fs.
Proof.
  intros Hw HF Hnd Hnm Hrem. unfold swap_upto. cbn [pl_temps pl_removals].
  assert (∀ p, p ∈ s_path <$> take i temps → p ∈ s_path <$> temps) as Hsub.
  { intros p (s & -> & Hs)%list_elem_of_fmap. apply list_elem_of_fmap. exists s. split; [done|]. apply elem_of_take in Hs as (k & Hk & _). by eapply list_elem_of_lookup_2. }
  assert (∀ p, p ∈ final_paths dir 1 (take i temps) → p ∈ final_paths dir 1 temps) as Hfsub.
  { intros p (k & Hk & ->)%elem_of_final_paths. apply elem_of_final_paths. exists k. rewrite length_take in Hk. split; [lia|done]. }
  destruct (rename_temps_bytes dir 1 (take i temps) (take i bs) w) as (segs & fs1 & R1 & R2 & R3 & R4);
    [done|by apply Forall2_take|rewrite fmap_take; by eapply sublist_NoDup; [|apply sublist_take]|by intros p ?%Hsub%Hnm|].
  erewrite bind_ok by exact R1. destruct (remove_each_spec (take j rem) (set_files fs1 w)) as (fs & D1 & D2 & D3); [done|].
  rewrite set_files_set in D1. assert (∀ p, p ∈ take j rem → p ∈ rem) as Hrsub.
  { intros p (k & Hk & _)%elem_of_take. by eapply list_elem_of_lookup_2. }
  exists fs. split; [exact D1|]. split.
  - intros k s b Hs Hb. assert (s_path s ∈ s_path <$> temps) as Hin by (apply list_elem_of_fmap; exists s; split; [done|by eapply list_elem_of_lookup_2]).
    assert (k < length temps) as Hk by (by eapply lookup_lt_Some).
    assert (s_path s ∉ take j rem) as Hsr.
    { intros ((n & Heq) & _)%Hrsub%Hrem. by apply (temp_not_segment dir (s_path s) n); [apply Hnm|]. }
    assert (segmentPath dir (1 + N.of_nat k) ∈ final_paths dir 1 temps) as Hfin by (apply elem_of_final_paths; eexists; split; [|done]; lia).
    rewrite (D3 (s_path s)) by done. rewrite D3 by (by intros [_ ?]%Hrsub%Hrem). cbn [w_files set_files]. destruct (decide (k < i)) as [Hki|Hki].
    + rewrite R2 by (apply list_elem_of_fmap; exists s; split; [done|]; apply (list_elem_of_lookup_2 _ k); by rewrite lookup_take_lt).
      eapply (Forall2_lookup_lr _ _ _ k) in R3; [exact R3|rewrite lookup_final_paths; [done|rewrite length_take; lia]|by rewrite lookup_take_lt].
    + rewrite R4; [by rewrite (Forall2_lookup_lr _ _ _ _ _ _ HF Hs Hb)|]. intros [Hin2|Hin2].
      * apply list_elem_of_fmap in Hin2 as (s' & Heq & (k' & Hk' & Hlt)%elem_of_take).
        assert (k = k'); [|lia]. apply (NoDup_lookup (s_path <$> temps) k k' (s_path s)); [done|by rewrite list_lookup_fmap, Hs|by rewrite list_lookup_fmap, Hk', Heq].
      * apply Hfsub, elem_of_final_paths in Hin2 as (n & _ & Heq). by apply (temp_not_segment dir (s_path s) n); [apply Hnm|].
  - intros p Hp. rewrite D3 by (intros ?%Hrsub; tauto). cbn [w_files set_files]. apply R4. intros [?%Hsub|?%Hfsub]; tauto.
Qed.

(** ** Recovery *)
Section recovery.
Context {sha : Sha256}.

(** The renames a manifest names. *)
Lemma plan_renames dir temps rem :
  NoDup (s_path <$> temps) →
  let l := map_to_list (Renames (plan_manifest dir (MkPlan temps rem))) in
  (∀ src dst, (src, dst) ∈ l ↔ ∃ k s, temps !! k = Some s ∧ src = s_path s ∧ dst = segmentPath dir (1 + N.of_nat k)) ∧
  l.*1 ≡ₚ s_path <$> temps ∧ l.*2 ≡ₚ final_paths dir 1 temps.
Proof.
  intros Hnd l. set (z := zip (s_path <$> temps) (final_paths dir 1 temps)).
  assert (length (s_path <$> temps) = length (final_paths dir 1 temps)) as Hlen by (unfold final_paths; by rewrite length_fmap, length_imap).
  assert (z.*1 = s_path <$> temps ∧ z.*2 = final_paths dir 1 temps) as [H1 H2] by (split; [apply fst_zip; lia|apply snd_zip; lia]).
  assert (l ≡ₚ z) as Hl by (apply map_to_list_to_map; by rewrite H1). split; [|by rewrite Hl, H1, H2].
  intros src dst. rewrite Hl. unfold z. rewrite list_elem_of_lookup. setoid_rewrite lookup_zip_with_Some. split.
  - intros (k & x & y & [= -> ->] & Hx & Hy). rewrite list_lookup_fmap in Hx. destruct (temps !! k) as [s|] eqn:Hs; [|done].
    injection Hx as <-. rewrite lookup_final_paths in Hy by (by eapply lookup_lt_Some). injection Hy as <-. eauto.
  - intros (k & s & Hs & -> & ->). exists k, (s_path s), (segmentPath dir (1 + N.of_nat k)).
    rewrite list_lookup_fmap, Hs, lookup_final_paths by (by eapply lookup_lt_Some). done.
Qed.

Lemma recover_swap_spec dir temps rem bs w :
  no_faults w → wf_string dir = true → NoDup (s_path <$> temps) → (∀ p, p ∈ s_path <$> temps → temp_name dir p) →
  (∀ p, p ∈ rem → (∃ n, p = segmentPath dir n) ∧ p ∉ final_paths dir 1 temps) → length bs = length temps →
  w_files w !! compactManifestPath dir = Some (print_json (manifest_json (plan_manifest dir (MkPlan temps rem)))) →
  in_transit dir (w_files w) temps bs →
  ∃ fs, recoverCompaction dir w = (Ok true, set_files fs w) ∧
    Forall2 (λ p b, fs !! p = Some b) (final_paths dir 1 temps) bs ∧ (∀ p, p ∈ rem → fs !! p = None) ∧
    ∀ f, is_prefix (to_bytes ".compact_") (to_bytes f) = false → f ≠ "compact.manifest" →
      join dir f ∉ final_paths dir 1 temps → join dir f ∉ rem → fs !! join dir f = w_files w !! join dir f.
Proof.
  intros Hw Hdir Hnd Hnm Hrem Hlen Hman Htr. set (m := plan_manifest dir (MkPlan temps rem)) in *.
  destruct (plan_renames dir temps rem Hnd) as (Hin & Hsrc & Hdst). fold m in Hin, Hsrc, Hdst.
  assert (default [] (Removals m) = rem) as Hdef by (unfold m, plan_manifest; cbn; by destruct rem).
  destruct (manifest_roundtrip m) as [Hp Hm].
  { intros src dst H%elem_of_map_to_list. apply Hin in H as (k & s & Hs & -> & ->). split; [|by apply wf_segmentPath].
    apply (wf_temp_name dir); [done|]. apply Hnm, list_elem_of_fmap. exists s. split; [done|by eapply list_elem_of_lookup_2]. }
  { rewrite Hdef. apply Forall_forall. intros p ((n & ->) & _)%Hrem. by apply wf_segmentPath. }
  destruct (roll_renames_spec (map_to_list (Renames m)) w) as (fs1 & A1 & A2 & A3);
    [done|by rewrite Hsrc|rewrite Hdst; apply final_paths_nodup| |].
  { intros p. rewrite Hsrc, Hdst. intros Hp1 (n & _ & Heq)%elem_of_final_paths. by apply (temp_not_segment dir p n); [apply Hnm|]. }
  destruct (remove_all_spec rem (set_files fs1 w)) as (fs2 & B1 & B2 & B3); [done|].
  destruct (discardCompactTemps_spec dir (set_files fs2 w)) as (fs3 & C1 & _ & C3); [done|].
  rewrite set_files_set in B1, C1. cbn [w_files set_files] in *.
  exists (delete (compactManifestPath dir) fs3).
  assert (∀ f, is_prefix (to_bytes ".compact_") (to_bytes f) = false → f ≠ "compact.manifest" →
    delete (compactManifestPath dir) fs3 !! join dir f = fs2 !! join dir f) as Hout.
  { intros f Hf Hne. rewrite lookup_delete_ne by (by intros ?%join_inj). by apply C3, glob_match_join. }
  assert (∀ n, delete (compactManifestPath dir) fs3 !! segmentPath dir n = fs2 !! segmentPath dir n) as Hseg.
  { intros n. apply Hout; [reflexivity|]. intros H%(f_equal to_bytes). rewrite to_bytes_app in H. discriminate H. }
  split_and!.
  - unfold recoverCompaction. rewrite (read_file_nofault _ _ _ Hw Hman). rewrite Hp, Hm.
    erewrite bind_ok by reflexivity. erewrite bind_ok by exact A1. rewrite Hdef. erewrite bind_ok by exact B1. erewrite bind_ok by exact C1.
    erewrite bind_ok by (by apply fsyncDir_nofault). by erewrite bind_ok by (by apply clearCompactManifest_spec).
  - apply Forall2_same_length_lookup. split; [unfold final_paths; by rewrite length_imap|]. intros k p b Hpk Hbk.
    assert (k < length temps) as Hk by (rewrite <-Hlen; by eapply lookup_lt_Some).
    destruct (lookup_lt_is_Some_2 _ _ Hk) as [s Hs]. rewrite lookup_final_paths in Hpk by done. injection Hpk as <-.
    rewrite Hseg, B3; [|intros [_ Hf]%Hrem; apply Hf, elem_of_final_paths; eexists; split; [|done]; lia].
    rewrite (A2 (s_path s)) by (apply Hin; eauto). pose proof (Htr k s b Hs Hbk) as Ht. by destruct (w_files w !! s_path s) as [b'|]; [subst b'|].
  - intros p Hpr. pose proof (Hrem p Hpr) as [(n & ->) _]. rewrite Hseg. by apply B2.
  - intros f Hf Hne Hnf Hnr. rewrite Hout, B3 by done. apply A3; rewrite ?Hsrc, ?Hdst; [|done].
    intros Ht%Hnm. by apply (temp_not_join _ _ f Ht Hf).
Qed.
(** The bytes of the temporary segments, and segments over the same bytes. *)
Lemma holds_bytes w segs ls :
  Forall2 (holds w) segs ls → ∃ bs, Forall2 (λ s b, w_files w !! s_path s = Some b) segs bs ∧
    Forall2 (λ b l, ∃ es, segment_log 0 b es ∧ es.*2 = l) bs ls.
Proof.
  induction 1 as [|s l segs ls (es & (b & Hb & Hl & _) & <-) _ (bs & H1 & H2)]; [by exists []|].
  exists (b :: bs). split; constructor; eauto.
Qed.

Lemma bytes_holds (fs : gmap string bytes) ps bs ls w :
  Forall2 (λ p b, fs !! p = Some b) ps bs → Forall2 (λ b l, ∃ es, segment_log 0 b es ∧ es.*2 = l) bs ls →
  ∃ segs, s_path <$> segs = ps ∧ Forall2 (holds (set_files fs w)) segs ls.
Proof.
  intros H1. revert ls. induction H1 as [|p b ps bs Hb _ IH]; intros ls H2.
  { apply Forall2_nil_inv_l in H2 as ->. by exists []. }
  apply Forall2_cons_inv_l in H2 as (l & ls' & (es & Hl & <-) & H2 & ->). destruct (IH ls' H2) as (segs & Hps & HF).
  exists (openSealedSegment p (Z.of_nat (length b)) :: segs). split; [cbn; by rewrite Hps|]. constructor; [|done].
  exists es. split; [|done]. by exists b.
Qed.

(** The files the rest of a pass writes, which recovery does not look at. *)
Definition index_file (dir p : string) : Prop := p = indexPath dir ∨ p = indexPath dir +:+ ".tmp" ∨ sidx_named dir p.

Lemma not_index_file dir f :
  is_prefix (to_bytes "index") (to_bytes f) = false → is_prefix (to_bytes "sidx_") (to_bytes f) = false → ¬ index_file dir (join dir f).
Proof.
  intros H1 H2. unfold index_file, indexPath. rewrite join_tmp, sidx_named_prefix, H2. intros [->%join_inj|[->%join_inj|?]]; done.
Qed.
Lemma segment_not_index dir n : ¬ index_file dir (segmentPath dir n).
Proof. by apply not_index_file. Qed.
Lemma temp_not_index dir p : temp_name dir p → ¬ index_file dir p.
Proof.
  intros (f & -> & [r Hr]%is_prefix_split)%temp_name_join. apply not_index_file; by rewrite Hr.
Qed.

(** A name that is listed as a segment. *)
Lemma glob_match_segment dir n : glob_match dir "seg_" ".ndjson" (segmentPath dir n) = true.
Proof.
  unfold glob_match, segmentPath. rewrite base_in_join, to_bytes_app, strip_prefix_app, to_bytes_app, to_of_bytes. apply andb_true_iff. split.
  - unfold is_suffix. rewrite rev_app_distr. apply is_prefix_app.
  - apply negb_true_iff, bool_decide_eq_false. intros [Hin|Hin]%elem_of_app.
    + pose proof (pad6_digits n) as Hd. rewrite Forall_forall in Hd. by specialize (Hd _ Hin).
    + revert Hin. apply (bool_decide_unpack _). vm_compute. exact I.
Qed.
Lemma glob_match_seg_file dir p : glob_match dir "seg_" ".ndjson" p = true → ∃ f, p = join dir f ∧ is_prefix (to_bytes "seg_") (to_bytes f) = true.
Proof.
  unfold glob_match. destruct (base_in dir p) as [base|] eqn:Hb; [|done]. destruct (strip_prefix _ base) as [r|] eqn:Hs; [|done]. intros _.
  unfold base_in in Hb. apply strip_prefix_Some in Hb, Hs. subst base. exists ("seg_" +:+ of_bytes r). split; [|rewrite to_bytes_app; apply is_prefix_app].
  apply (inj to_bytes). rewrite Hb. unfold join. by rewrite !to_bytes_app, to_of_bytes, <-!app_assoc.
Qed.

(** The segments listed after the recovery. *)
Lemma glob_swapped dir (fs fs' : gmap string bytes) sealed ap temps na :
  glob dir "seg_" ".ndjson" fs = sealed ++ [ap] → ap = segmentPath dir na → (N.of_nat (length temps) < na < 10 ^ 6)%N →
  (∀ p, p ∈ final_paths dir 1 temps → is_Some (fs' !! p)) → (∀ p, p ∈ sealed → p ∉ final_paths dir 1 temps → fs' !! p = None) →
  (∀ f, is_prefix (to_bytes "seg_") (to_bytes f) = true → join dir f ∉ final_paths dir 1 temps → join dir f ∉ sealed →
    fs' !! join dir f = fs !! join dir f) → ap ∉ sealed →
  glob dir "seg_" ".ndjson" fs' = final_paths dir 1 temps ++ [ap].
Proof.
  intros Hg Hap Hna Hnew Hold Hkeep Hnotin.
  assert (ap ∉ final_paths dir 1 temps) as Hapf by (rewrite Hap; intros (k & Hk & ?%segmentPath_inj)%elem_of_final_paths; lia).
  assert (∀ p, p ∈ sealed ++ [ap] ↔ glob_match dir "seg_" ".ndjson" p = true ∧ is_Some (fs !! p)) as Hel by (intros p; by rewrite <-Hg, elem_of_glob).
  apply sorted_names_unique; [apply glob_nodup| |apply glob_sorted|rewrite Hap; apply final_paths_sorted; lia|].
  { apply NoDup_app. split_and!; [apply final_paths_nodup|by intros p Hp ->%list_elem_of_singleton|apply NoDup_singleton]. }
  intros p. rewrite elem_of_glob, elem_of_app, list_elem_of_singleton. split.
  - intros [Hm Hs]. destruct (decide (p ∈ final_paths dir 1 temps)) as [|Hnf]; [by left|right].
    destruct (decide (p ∈ sealed)) as [Hin|Hns]; [rewrite Hold in Hs by done; by destruct Hs|].
    destruct (glob_match_seg_file dir p Hm) as (f & -> & Hf). rewrite Hkeep in Hs by done.
    assert (join dir f ∈ sealed ++ [ap]) as [?|?%list_elem_of_singleton]%elem_of_app by (by apply Hel); done.
  - intros [Hin| ->]; [split; [|by apply Hnew]; apply elem_of_final_paths in Hin as (k & _ & ->); apply glob_match_segment|].
    destruct (proj1 (Hel ap)) as [Hm Hs]; [apply elem_of_app; right; by apply list_elem_of_singleton|]. split; [done|].
    destruct (glob_match_seg_file dir ap Hm) as (f & -> & Hf). by rewrite Hkeep.
Qed.
End recovery.

Section swap.
Context `{RangeOrder} {sha : Sha256}.

(** The metadata that covers the sealed segments covers the compacted ones. *)
Lemma meta_covers_survivors dir w w' now logs logs' :
  no_faults w → no_faults w' → w_files w' !! metaPath dir = w_files w !! metaPath dir →
  (concat logs').*2 = resolved now (concat logs).*2 → meta_covers dir w logs → meta_covers dir w' logs'.
Proof.
  intros Hw Hw' Hf Hs Hm. unfold meta_covers in *. destruct (loadMeta_frame dir w w' Hw Hw' Hf) as [E _].
  destruct (loadMeta (metaPath dir) w) as [r1 ?], (loadMeta (metaPath dir) w') as [r2 ?]. simpl in E. subst r2.
  destruct r1 as [mt|]; [|done]. intros o e Hin. assert (e ∈ (concat logs).*2) as He.
  { apply (resolved_sub now). rewrite <-Hs. apply list_elem_of_fmap. by exists (o, e). }
  apply list_elem_of_fmap in He as ([o' e'] & -> & He). by apply (Hm o').
Qed.

(** The directory after recovery: the layout of the finished swap. *)
Lemma recovered_layout dir c w w1 w2 logs log temps ls i j na :
  coll_inv c w logs log → no_faults w1 → no_faults w2 → c_dir c = dir → wf_string dir = true →
  glob dir "seg_" ".ndjson" (w_files w) = paths c →
  Forall2 (holds w1) temps ls → concat ls = survivors w logs → NoDup (s_path <$> temps) →
  (∀ p, p ∈ s_path <$> temps → temp_name dir p) →
  w_files w1 !! compactManifestPath dir = Some (print_json (manifest_json (plan_manifest dir (plan_of c temps)))) →
  (∀ f, is_prefix (to_bytes ".compact_") (to_bytes f) = false → f ∉ ["compact.manifest"; "compact.manifest.tmp"] →
    w_files w1 !! join dir f = w_files w !! join dir f) →
  s_path (c_active c) = segmentPath dir na → (N.of_nat (length temps) < na < 10 ^ 6)%N →
  (∀ q, ¬ index_file dir q → w_files w2 !! q = w_files (swap_upto dir (plan_of c temps) i j w1).2 !! q) →
  ∃ w3 logs' b, recoverCompaction dir w2 = (Ok true, w3) ∧ no_faults w3 ∧ (concat logs').*2 = survivors w logs ∧
    w_files w3 !! metaPath dir = w_files w !! metaPath dir ∧
    at_rest dir w3 (final_paths dir 1 temps) (s_path (c_active c)) logs' log b [].
Proof.
  intros Hinv Hw1 Hw2 Hd Hwf Hglob HF Hc Hnd Hnm Hman Hfr Hap Hna Hw2q. subst dir. set (dir := c_dir c) in *.
  set (rem := filter (λ q, q ∉ final_paths dir 1 temps) (s_path <$> c_sealed c)) in *.
  change (plan_of c temps) with (MkPlan temps rem) in *.
  assert (paths c = (s_path <$> c_sealed c) ++ [s_path (c_active c)]) as Hp by (unfold paths, all_segments; by rewrite fmap_app).
  assert (∀ p, p ∈ rem ↔ p ∈ s_path <$> c_sealed c ∧ p ∉ final_paths dir 1 temps) as Hrem_in by (intros p; unfold rem; rewrite list_elem_of_filter; tauto).
  assert (∀ p, p ∈ rem → (∃ n, p = segmentPath dir n) ∧ p ∉ final_paths dir 1 temps) as Hrem.
  { intros p [Hs Hn]%Hrem_in. split; [|done]. pose proof (inv_numbers _ _ _ _ Hinv) as Hnum. rewrite Forall_forall in Hnum.
    destruct (Hnum p) as (n & _ & ->); [rewrite Hp; apply elem_of_app; by left|by exists n]. }
  destruct (holds_bytes _ _ _ HF) as (bs & B1 & B2).
  destruct (swap_upto_spec dir temps rem bs i j w1) as (fss & S1 & S2 & S3); [done..|]. rewrite S1 in Hw2q. cbn [snd w_files set_files] in Hw2q.
  destruct (recover_swap_spec dir temps rem bs w2) as (fs3 & R1 & R2 & R3 & R4); [done|done|done|done|done|by apply Forall2_length in B1| | |].
  { rewrite Hw2q by (by apply not_index_file). rewrite S3; [done|]. unfold compactManifestPath. intros [Ht%Hnm|[(n & _ & Heq)%elem_of_final_paths|((n & Heq) & _)%Hrem]].
    - by apply (temp_not_join _ _ "compact.manifest" Ht).
    - by apply (join_not_segment dir "compact.manifest" n).
    - by apply (join_not_segment dir "compact.manifest" n). }
  { intros k s b Hs Hb. rewrite !Hw2q; [by apply (S2 k)|apply segment_not_index|].
    apply temp_not_index, Hnm, list_elem_of_fmap. exists s. split; [done|by eapply list_elem_of_lookup_2]. }
  assert (∀ f, is_prefix (to_bytes ".compact_") (to_bytes f) = false → f ∉ ["compact.manifest"; "compact.manifest.tmp"] →
    ¬ index_file dir (join dir f) → join dir f ∉ final_paths dir 1 temps → join dir f ∉ rem → fs3 !! join dir f = w_files w !! join dir f) as Hkeep.
  { intros f H1 H2 H3 H4 H5. rewrite R4; [|done|intros ->; by apply H2, elem_of_cons; left|done|done]. rewrite Hw2q, S3, Hfr; [done|done|done| |done].
    intros [Ht%Hnm|[?|?]]; [by apply (temp_not_join _ _ f Ht H1)|done|done]. }
  assert (∀ f, is_prefix (to_bytes "seg_") (to_bytes f) = true → join dir f ∉ final_paths dir 1 temps → join dir f ∉ rem →
    fs3 !! join dir f = w_files w !! join dir f) as Hseg.
  { intros f Hf. apply is_prefix_split in Hf as [r Hr]. apply Hkeep; [by rewrite Hr| |by apply not_index_file; rewrite Hr].
    rewrite !elem_of_cons. intros [->|[->|?%not_elem_of_nil]]; done. }
  destruct (bytes_holds fs3 (final_paths dir 1 temps) bs ls w2 R2 B2) as (segs & Hps & HF3).
  destruct (holds_logs _ _ _ HF3) as (logs' & L1 & L2). rewrite Hc in L2.
  assert (s_path (c_active c) ∉ final_paths dir 1 temps) as Hnf by (rewrite Hap; intros (k & Hk & ?%segmentPath_inj)%elem_of_final_paths; lia).
  assert (coll_inv (swapped c segs (replay (located_log (segs ++ [c_active c]) (logs' ++ [log])))) (set_files fs3 w2) logs' log) as Hinv3.
  { apply (swap_inv c w _ logs log segs logs' temps); try done; [lia|by intros n ?%R3|]. intros n H1 H2. by apply Hseg. }
  set (c3 := swapped c segs _) in *. assert (c_dir c3 = dir ∧ c_sealed c3 = segs ∧ c_active c3 = c_active c) as (D1 & D2 & D3) by (unfold c3, swapped; by destruct c).
  destruct (inv_active _ _ _ _ Hinv3) as (b & Hb & _). rewrite D3 in Hb. cbn [w_files set_files] in Hb.
  exists (set_files fs3 w2), logs', b. split_and!; [done|done|done| |].
  - apply Hkeep; [reflexivity|by apply (bool_decide_unpack _); vm_compute|by apply not_index_file|..].
    + intros (n & _ & Heq)%elem_of_final_paths. by apply (join_not_segment dir "meta.json" n).
    + intros ((n & Heq) & _)%Hrem. by apply (join_not_segment dir "meta.json" n).
  - rewrite <-Hps, <-D2, <-D3. apply (inv_at_rest dir c3 (set_files fs3 w2)); try done; [by rewrite D3|by rewrite app_nil_r, D3|].
    unfold paths, all_segments. rewrite fmap_app, D2, D3, Hps. cbn [w_files set_files fmap list_fmap].
    apply (glob_swapped dir (w_files w) fs3 (s_path <$> c_sealed c) _ temps na); [congruence|done|done|..].
    + intros p Hpf. apply list_elem_of_lookup in Hpf as [k Hk]. destruct (Forall2_lookup_l _ _ _ _ _ R2 Hk) as (b' & _ & Hb'). eauto.
    + intros p Hs Hn. apply R3, Hrem_in. done.
    + intros f Hf H1 H2. apply Hseg; [done|done|]. rewrite Hrem_in. tauto.
    + pose proof (inv_paths _ _ _ _ Hinv) as Hndp. rewrite Hp in Hndp. apply NoDup_app in Hndp as (_ & Hdis & _). intros Hin. apply (Hdis _ Hin). by apply list_elem_of_singleton.
Qed.

(** [C40] A stop in the middle of a compaction's swap.  Let a forced pass over a
    collection ([compactable]: no faults, open, unencrypted, with sealed segments,
    no leftover temporaries, entries as the engine writes them) have put its
    manifest in place, and let the process stop after any number [i] of its renames
    and [j] of its removals, with whatever the rest of the pass wrote to the index
    files.  If the number of the active segment is greater than that of new
    segments and below a million, the metadata covers the sealed ids, and the path
    is valid UTF-8, opening the collection succeeds, and its invariant holds over
    a log whose table is the one before the pass less records whose deadline has
    passed. *)
Theorem swap_recovery (name dataDir : string) (cfg : CollectionConfig) (c : Collection) (w : World)
    (logs : list (list (Z * Entry))) (log : list (Z * Entry)) :
  let dir := join dataDir name in
  coll_inv c w logs log → compactable c w logs log → c_dir c = dir → wf_string dir = true →
  glob dir "seg_" ".ndjson" (w_files w) = paths c → meta_covers dir w logs →
  ∃ p w1, compact_plan true (c, w) = (Ok (Some p), (c, w1)) ∧
    ∀ (na : N) (i j : nat) (w2 : World),
      s_path (c_active c) = segmentPath dir na → (N.of_nat (length (pl_temps p)) < na < 10 ^ 6)%N → no_faults w2 →
      (∀ q, ¬ index_file dir q → w_files w2 !! q = w_files (swap_upto dir p i j w1).2 !! q) →
      ∃ c' w' logs', OpenCollection name dataDir cfg w2 = (Ok c', w') ∧ coll_inv c' w' logs' log ∧
        covers (UnixNano (w_now w)) (coll_table logs' log) (coll_table logs log).
Proof.
  intros dir Hinv Hc Hd Hwf Hglob Hmeta.
  destruct (compact_plan_spec c w logs log Hinv Hc) as (temps & ls & fs & P1 & P2 & P3 & P4 & P5 & P6 & P7 & P8). rewrite Hd in *.
  exists (plan_of c temps), (set_files fs w). split; [done|]. intros na i j w2 Hap Hna Hw2 Hq. pose proof (cp_faults _ _ _ _ Hc) as Hw.
  destruct (recovered_layout dir c w (set_files fs w) w2 logs log temps ls i j na) as (w3 & logs' & b & R1 & R2 & R3 & R4 & R5); try done.
  set (all := (λ p, MkSegment p 0 false OpenFile) <$> (final_paths dir 1 temps ++ [s_path (c_active c)])).
  destruct (load_recovered (fresh_collection name dir cfg) w2 w3 true (final_paths dir 1 temps) (s_path (c_active c)) logs' log b [] all)
    as (c' & w' & Hl & _ & _ & Hinv'); [done..| |by left| |].
  - subst all. rewrite <-list_fmap_compose. apply list_fmap_id.
  - by apply (meta_covers_survivors dir w w3 (UnixNano (w_now w)) logs).
  - exists c', w', logs'. split; [by apply OpenCollection_load|]. split; [done|]. by apply (survivors_covers c w).
Qed.
End swap.

(** ** Witness: the pass over one sealed segment stopped after its rename *)
Lemma swap_recovery_witness :
  ∃ p w1, @compact_plan map_order true (sealed_coll, sealed_world) = (Ok (Some p), (sealed_coll, w1)) ∧
    ∃ c' w' logs', @OpenCollection length_digest "u" "d" defaultConfig
        (set_files (w_files (swap_upto demo_dir p 1 0 w1).2) sealed_world) = (Ok c', w') ∧ coll_inv c' w' logs' [] ∧
      covers (UnixNano (w_now sealed_world)) (coll_table logs' []) (coll_table [demo_log] []).
Proof.
  destruct (@swap_recovery map_order length_digest "u" "d" defaultConfig sealed_coll sealed_world [demo_log] [] sealed_inv sealed_compactable)
    as (p & w1 & Hp & Hrest); [reflexivity|vm_compute; reflexivity|vm_compute; reflexivity|vm_compute; exact I|].
  exists p, w1. split; [exact Hp|]. assert (1 = length (pl_temps p)) as Hlen.
  { apply (f_equal (λ r, match r.1 with Ok (Some p) => length (pl_temps p) | _ => 0 end)) in Hp. vm_compute in Hp |- *. exact Hp. }
  apply (Hrest 2%N 1 0).
  - reflexivity.
  - rewrite <-Hlen. split; reflexivity.
  - reflexivity.
  - intros q _. reflexivity.
Defined.
