(* ===== verification/TxManager.v ===== *)
(** * Transactions

    The transaction registry of engine/txmanager.go with the staging buffers, the
    idle sweeper, and the commit and rollback handlers of server/grpc.go.  A
    transaction is an object shared by the registry and by every handler that
    looked it up, so it lives in a heap and is named by a reference. *)

From S2P Require Import Prelude GoFloat GoStrconv GoTime GoJson Value Query Store Disk Segment Index SecIndex Collection CollectionSpec.

Record Tx := MkTx {
  tx_ID : string;
  tx_Collection : string;
  tx_ops : list txOp;
  tx_createdAt : Time;
  tx_lastUsed : Time
}.

Record TxManager := MkTxManager {
  tm_txs : gmap string N; (* transaction id to reference *)
  tm_heap : gmap N Tx;
  tm_next : N; (* the next free reference *)
  tm_ttl : Z;
  tm_sweeping : bool;
  tm_stopped : bool
}.

Definition set_txs (x : gmap string N) (m : TxManager) : TxManager :=
  MkTxManager x (tm_heap m) (tm_next m) (tm_ttl m) (tm_sweeping m) (tm_stopped m).
Definition set_heap (x : gmap N Tx) (m : TxManager) : TxManager :=
  MkTxManager (tm_txs m) x (tm_next m) (tm_ttl m) (tm_sweeping m) (tm_stopped m).

Abbreviation TM := (SE (TxManager * World)).

Definition modifyT (f : TxManager → TxManager) : TM unit := λ '(m, w), (Ok tt, (f m, w)).

(** ** Staging *)
Definition stage (ref : N) (kind : txOpKind) (id : N) (data : option doc) : TM unit :=
  n ← io now;
  modifyT (λ m,
    match tm_heap m !! ref with
    | Some t =>
        set_heap (<[ref := MkTx (tx_ID t) (tx_Collection t) (tx_ops t ++ [MkTxOp kind id data n])
          (tx_createdAt t) n]> (tm_heap m)) m
    | None => m
    end).

Definition StageInsert (ref : N) (id : N) (data : option doc) : TM unit := stage ref txOpInsert id data.
Definition StageUpdate (ref : N) (id : N) (data : option doc) : TM unit := stage ref txOpUpdate id data.
Definition StageDelete (ref : N) (id : N) : TM unit := stage ref txOpDelete id None.

Definition Snapshot (ref : N) : TM (list txOp) :=
  m ← obj; mret (match tm_heap m !! ref with Some t => tx_ops t | None => [] end).

(** ** The registry *)
Definition maxSweepInterval : Z := minute.

Definition NewTxManager (ttl : Z) : TxManager := MkTxManager ∅ ∅ 0 ttl (0 <? ttl)%Z false.

(** The period of [sweepLoop]. *)
Definition sweepInterval (m : TxManager) : Z := if (maxSweepInterval <? tm_ttl m)%Z then maxSweepInterval else tm_ttl m.

(** [newTxID]: 16 fresh random bytes in hexadecimal groups. *)
Fixpoint be_bytes (k : nat) (n : N) : bytes :=
  match k with O => [] | S k => be_bytes k (n / 256) ++ [ascii_of_N (n mod 256)] end.

Definition newTxID : M string :=
  seed ← rand_seed;
  let b := be_bytes 16 seed in
  let part i j := hex_of_bytes (take (j - i) (drop i b)) in
  mret (part 0 4 +:+ "-" +:+ part 4 6 +:+ "-" +:+ part 6 8 +:+ "-" +:+ part 8 10 +:+ "-" +:+ part 10 16).

Definition Begin (collection : string) : TM string :=
  id ← io newTxID;
  n ← io now;
  modifyT (λ m, MkTxManager (<[id := tm_next m]> (tm_txs m))
    (<[tm_next m := MkTx id collection [] n n]> (tm_heap m)) (tm_next m + 1) (tm_ttl m) (tm_sweeping m) (tm_stopped m));;
  mret id.

Definition GetTx (txID : string) : TM (option N) := m ← obj; mret (tm_txs m !! txID).

Definition Remove (txID : string) : TM unit := modifyT (λ m, set_txs (delete txID (tm_txs m)) m).

(** Whether a transaction was last used before the cutoff. *)
Definition idle (m : TxManager) (cutoff : Time) (ref : N) : bool :=
  match tm_heap m !! ref with Some t => (tx_lastUsed t <? cutoff)%Z | None => false end.

Definition reapExpiredTx (now : Time) (m : TxManager) : list string * TxManager :=
  let cutoff := (now - tm_ttl m)%Z in
  ((filter (λ kv : string * N, idle m cutoff kv.2 = true) (map_to_list (tm_txs m))).*1,
   set_txs (filter (λ kv : string * N, idle m cutoff kv.2 = false) (tm_txs m)) m).

(** One tick of [sweepLoop]. *)
Definition sweep : TM unit :=
  n ← io now; modifyT (λ m, if tm_stopped m then m else (reapExpiredTx n m).2).

Definition CloseTx : TM unit :=
  modifyT (λ m, MkTxManager (tm_txs m) (tm_heap m) (tm_next m) (tm_ttl m) (tm_sweeping m) true).

(** ** The handlers

    A handler works on the registry and on the collections of the database.  The
    gRPC code [NotFound] is [ErrNotFound] here, [InvalidArgument] is [ErrOther].
    [commit_tx] looks the transaction up, takes its buffer and applies it in steps
    between which other handlers run. *)
Record server := MkServer { sv_txs : TxManager; sv_colls : gmap string Collection }.
Abbreviation SM := (SE (server * World)).

Definition on_txs {A} (m : TM A) : SM A := λ '(s, w),
  let '(r, (t, w)) := m (sv_txs s, w) in (r, (MkServer t (sv_colls s), w)).

(** [s.db.Collection(name)], then a method of it. *)
Definition on_coll {A} (name : string) (m : CM A) : SM A := λ '(s, w),
  match sv_colls s !! name with
  | None => (Err ErrNotFound, (s, w))
  | Some c => let '(r, (c, w)) := m (c, w) in (r, (MkServer (sv_txs s) (<[name := c]> (sv_colls s)), w))
  end.

Definition has_collection (name : string) : SM unit := on_coll name (mret tt).

Definition lookup_tx (txID : string) : SM N :=
  r ← on_txs (GetTx txID); match r with Some ref => mret ref | None => fail ErrNotFound end.

Definition collection_of (ref : N) : SM string :=
  s ← obj; mret (match tm_heap (sv_txs s) !! ref with Some t => tx_Collection t | None => "" end).

(** The transaction of a request, which must be bound to its collection. *)
Definition bound_tx (txID collection : string) : SM N :=
  ref ← lookup_tx txID;
  name ← collection_of ref;
  if bool_decide (name = collection) then mret ref else fail ErrOther.

Definition BeginTx (collection : string) : SM string :=
  if bool_decide (collection = "") then fail ErrOther
  else has_collection collection;; on_txs (Begin collection).

(** The transactional branches of the keyless [Insert], of [Update] and of
    [Delete]. *)
Definition tx_insert (collection txID : string) (ttlSeconds : Z) (data : option doc) : SM N :=
  if (ttlSeconds <? 0)%Z then fail ErrOther
  else
    has_collection collection;;
    if (0 <? ttlSeconds)%Z then fail ErrOther
    else
      ref ← bound_tx txID collection;
      id ← on_coll collection ReserveID;
      on_txs (StageInsert ref id data);;
      mret id.

Definition tx_update (collection txID : string) (ttlSeconds : Z) (id : N) (data : option doc) : SM unit :=
  if (ttlSeconds <? 0)%Z then fail ErrOther
  else
    has_collection collection;;
    if (0 <? ttlSeconds)%Z then fail ErrOther
    else ref ← bound_tx txID collection; on_txs (StageUpdate ref id data).

Definition tx_delete (collection txID : string) (id : N) : SM unit :=
  has_collection collection;;
  ref ← bound_tx txID collection;
  on_txs (StageDelete ref id).

Definition commit_take (txID : string) (ref : N) : SM (list txOp) :=
  ops ← on_txs (Snapshot ref); on_txs (Remove txID);; mret ops.

Definition commit_tx (txID : string) : SM unit :=
  ref ← lookup_tx txID;
  name ← collection_of ref;
  has_collection name;;
  ops ← commit_take txID ref;
  on_coll name (CommitTx ops).

Definition rollback_tx (txID : string) : SM unit :=
  lookup_tx txID;; on_txs (Remove txID).

(** ** Sweeping *)

(** The sweeper removes exactly the transactions whose last staged operation
    (or start) is older than the timeout, reports exactly their ids, and touches
    no buffer: a transaction used since then keeps its operations. *)
Theorem sweep_exact (m : TxManager) (now : Time) (id : string) (ref : N) :
  let '(reaped, m') := reapExpiredTx now m in
  (tm_txs m' !! id = Some ref ↔ tm_txs m !! id = Some ref ∧ idle m (now - tm_ttl m) ref = false) ∧
  (id ∈ reaped ↔ ∃ ref', tm_txs m !! id = Some ref' ∧ idle m (now - tm_ttl m) ref' = true) ∧
  tm_heap m' = tm_heap m.
Proof.
  unfold reapExpiredTx. split_and!; [|split|done].
  - simpl. apply map_lookup_filter_Some.
  - intros ([k r] & -> & [Hi Hin%elem_of_map_to_list]%list_elem_of_filter)%list_elem_of_fmap. eauto.
  - intros (r & Hr & Hi). apply list_elem_of_fmap. exists (id, r). split; [done|]. apply list_elem_of_filter.
    split; [done|]. by apply elem_of_map_to_list.
Qed.
