(* ===== verification/TxSpec.v ===== *)
(** * Committing a transaction

    [CommitTx] against its specification: either one of its checks fails and
    nothing is written, or the table afterwards is the table before with the
    operations of the batch applied in order, up to the first one whose line is too
    long.  So the all-or-nothing promise does not hold for oversized records; nor
    does it extend to write errors: a scenario shows a commit that fails half-way
    and leaves its first operation in place, and another one an operation that is
    staged while a commit is under way and lost. *)

From S2P Require Import Prelude GoFloat GoStrconv GoTime GoJson Value Query Store Disk Segment Index SecIndex Collection CollectionSpec Open OpenSpec TxManager.

(** ** Specification *)
Section spec.
(** The deadline fresh records get. *)
Variable exp0 : Z.

(** The entry an operation appends, given the table. *)
Definition tx_entry (t : table) (op : txOp) : Entry :=
  match t_kind op with
  | txOpInsert => MkEntry (t_id op) OpInsert (t_ts op) 1 (t_data op) 0 exp0 None
  | txOpUpdate =>
      match t !! t_id op with
      | Some a => MkEntry (t_id op) OpUpdate (t_ts op) (u64_add (a_rev a) 1) (t_data op) 0 (a_exp a) None
      | None => MkEntry (t_id op) OpUpdate (t_ts op) 1 (t_data op) 0 0 None
      end
  | txOpDelete => MkEntry (t_id op) OpDelete (t_ts op) 0 None 0 0 None
  end.

Definition tx_step (t : table) (op : txOp) : table :=
  let e := tx_entry t op in
  match t_kind op with
  | txOpDelete => delete (t_id op) t
  | _ => <[t_id op := ARec (e_Rev e) (e_Ts e) (norm_doc <$> e_Data e) (e_ExpiresAt e) 0]> t
  end.

(** An operation the engine can store: its entry is well formed, its id was handed
    out, and an insert's id is unused. *)
Record tx_storable (idSeq : N) (t : table) (op : txOp) : Prop := {
  tv_wf : wf_entry (tx_entry t op);
  tv_id : (t_id op ≤ idSeq)%N;
  tv_fresh : t_kind op = txOpInsert → t !! t_id op = None
}.

Fixpoint tx_all_storable (idSeq : N) (t : table) (ops : list txOp) : Prop :=
  match ops with [] => True | op :: ops => tx_storable idSeq t op ∧ tx_all_storable idSeq (tx_step t op) ops end.

(** Whether its line fits the limit; the operations before the first one that does
    not. *)
Definition tx_fits (t : table) (op : txOp) : bool := (encoded_size (tx_entry t op) <=? maxScanTokenSize)%Z.

Fixpoint fitting (t : table) (ops : list txOp) : list txOp :=
  match ops with
  | [] => []
  | op :: ops => if tx_fits t op then op :: fitting (tx_step t op) ops else []
  end.

Definition all_fit (t : table) (ops : list txOp) : bool := length (fitting t ops) =? length ops.
End spec.

(** The checks of a commit, in the code's order. *)
Definition tx_check (c : Collection) (now : Time) (ops : list txOp) : option error :=
  if negb (tx_targets_exist c ops) then Some ErrOther
  else
    match txCheckUnique c ops with
    | Err e => Some e
    | Ok _ =>
        let '(newRecords, newBytes) := tx_quota c now ops in
        if (quotaEnabled c && (0 <? newRecords)%N)%bool then
          match checkQuotaLocked c newRecords newBytes with Err e => Some e | Ok _ => None end
        else None
    end.

(** ** One operation *)

(** The parts of a collection the operations of a batch leave alone. *)
Definition same_frame (c c' : Collection) : Prop :=
  c_dir c' = c_dir c ∧ c_cfg c' = c_cfg c ∧ c_idSeq c' = c_idSeq c ∧ c_enc c' = c_enc c ∧ paths c' = paths c.

Lemma same_frame_trans c1 c2 c3 : same_frame c1 c2 → same_frame c2 c3 → same_frame c1 c3.
Proof. unfold same_frame. naive_solver congruence. Qed.

Lemma paths_active a c idx : s_path a = s_path (c_active c) → paths (set_index idx (set_active a c)) = paths c.
Proof. intros Hp. unfold paths, all_segments. destruct c. simpl in *. rewrite !fmap_app. simpl. by rewrite Hp. Qed.

Lemma tx_write_spec exp0 c w logs log op (f : Collection → Collection) :
  let t := coll_table logs log in
  coll_inv c w logs log → no_faults w → tx_storable exp0 (c_idSeq c) t op → tx_fits exp0 t op = true → t_kind op ≠ txOpDelete →
  (∀ c0, same_store c0 (f c0) ∧ c_cfg (f c0) = c_cfg c0 ∧ c_enc (f c0) = c_enc c0) →
  ∃ c' w' log', (index_write (tx_entry exp0 t op);; modify f) (c, w) = (Ok tt, (c', w')) ∧
    no_faults w' ∧ w_now w' = w_now w ∧ coll_inv c' w' logs log' ∧ coll_table logs log' = tx_step exp0 t op ∧ same_frame c c'.
Proof.
  intros t Hinv Hw [He Hid Hfr] Hsz%Z.leb_le Hk Hf.
  assert (e_ID (tx_entry exp0 t op) = t_id op) as Heid by (unfold tx_entry; repeat case_match; done).
  assert (e_Op (tx_entry exp0 t op) = OpInsert ∨ e_Op (tx_entry exp0 t op) = OpUpdate) as Hop
    by (unfold tx_entry; destruct (t_kind op); [by left|case_match; by right|done]).
  assert (e_Rev (tx_entry exp0 t op) = u64_add (cur_rev c (t_id op)) 1) as Hrev.
  { rewrite (table_rev c w logs log) by done. fold t. unfold tx_entry. destruct (t_kind op); [|by destruct (t !! t_id op)|done].
    by rewrite Hfr. }
  destruct (index_write_spec c w logs log (tx_entry exp0 t op)) as (a & idx & w1 & H1 & Hw1 & Hn1 & Hp & Hinv1);
    [done|done|done|done|done|by rewrite Heid|by rewrite Heid|].
  set (c1 := set_index idx (set_active a c)) in *. destruct (Hf c1) as ((F1 & F2 & F3 & F4 & F5) & F6 & F7).
  exists (f c1), w1, (log ++ [(s_size (c_active c), written (tx_entry exp0 t op))]).
  split; [by erewrite bind_ok by exact H1|]. split_and!; [done|done|by eapply coll_inv_same; [apply Hf|]| |].
  - rewrite coll_table_write by done. fold t. rewrite Heid. unfold tx_step.
    assert (next_rev (match t !! t_id op with Some a0 => a_rev a0 | None => 0%N end) (e_Rev (tx_entry exp0 t op)) =
      e_Rev (tx_entry exp0 t op)) as ->.
    { rewrite Hrev. rewrite (table_rev c w logs log) by done. apply next_rev_same. }
    assert (e_Epoch (tx_entry exp0 t op) = 0%N) as -> by (unfold tx_entry; repeat case_match; done).
    by destruct (t_kind op).
  - assert (paths (f c1) = paths c1) as Hpf by (unfold paths, all_segments; by rewrite F2, F3).
    unfold same_frame. rewrite F1, F6, F7, F5, Hpf. subst c1. rewrite paths_active by done. by destruct c.
Qed.

Lemma tx_delete_spec exp0 c w logs log op :
  let t := coll_table logs log in
  coll_inv c w logs log → no_faults w → tx_storable exp0 (c_idSeq c) t op → tx_fits exp0 t op = true → t_kind op = txOpDelete →
  ∃ c' w' log', (with_active (Append (tx_entry exp0 t op));;
      modify (λ c, sidxRemoveEntry (t_id op) (set_index (Delete_ (c_index c) (t_id op)) c))) (c, w) = (Ok tt, (c', w')) ∧
    no_faults w' ∧ w_now w' = w_now w ∧ coll_inv c' w' logs log' ∧ coll_table logs log' = tx_step exp0 t op ∧ same_frame c c'.
Proof.
  intros t Hinv Hw [He Hid _] Hsz%Z.leb_le Hk. unfold tx_entry, tx_step in *. rewrite Hk in *.
  set (e := MkEntry (t_id op) OpDelete (t_ts op) 0 None 0 0 None) in *.
  destruct (delete_write_spec c w logs log e (t_id op)) as (a & o & w1 & H1 & Hw1 & Hn1 & Hp & Hinv1); [done..|].
  eexists _, w1, (log ++ [(s_size (c_active c), written e)]). split; [by erewrite bind_ok by exact H1|].
  split_and!; [done|done| |by apply (coll_table_delete logs log _ e)|].
  - eapply coll_inv_same; [|exact Hinv1]. destruct c. by split_and!.
  - pose proof (paths_active a c (Delete_ (c_index c) (t_id op)) Hp) as Hpa. destruct c. by split_and!.
Qed.

(** The value sealed for an operation when the collection is not encrypted. *)
Definition plain_data (op : txOp) : option doc := match t_kind op with txOpDelete => None | _ => t_data op end.

Lemma tx_seal_plain ops c w : tx_seal None ops (c, w) = (Ok (plain_data <$> ops), (c, w)).
Proof.
  induction ops as [|op ops IH]; [done|]. cbn [tx_seal fmap list_fmap]. unfold plain_data at 1.
  destruct (t_kind op); (erewrite bind_ok by reflexivity; erewrite bind_ok by exact IH; done).
Qed.

Lemma tx_apply_spec c w logs log now op :
  let t := coll_table logs log in let exp0 := resolveInsertExpiry c now zero_time in
  coll_inv c w logs log → no_faults w → tx_storable exp0 (c_idSeq c) t op → tx_fits exp0 t op = true →
  ∃ x c' w' log', tx_apply 0 now op (plain_data op) (c, w) = (Ok x, (c', w')) ∧
    no_faults w' ∧ w_now w' = w_now w ∧ coll_inv c' w' logs log' ∧ coll_table logs log' = tx_step exp0 t op ∧ same_frame c c'.
Proof.
  intros t exp0 Hinv Hw Hv Hfit. unfold tx_apply. erewrite bind_ok by reflexivity. cbn [fst].
  pose proof (inv_index_lookup c w logs log (t_id op) Hinv) as Hidx.
  destruct (t_kind op) eqn:Hk.
  - destruct (tx_write_spec exp0 c w logs log op (sidxIndexEntry (t_id op) (t_data op))) as (c' & w' & log' & H1 & H2);
      [done..|by rewrite Hk|intros c0; by destruct c0|].
    eexists _, c', w', log'. split; [|exact H2].
    unfold tx_entry in H1. rewrite Hk in H1. unfold plain_data. rewrite Hk.
    apply bind_inv_ok in H1 as ([] & s1 & H1a & H1b). erewrite bind_ok by exact H1a. by erewrite bind_ok by exact H1b.
  - destruct (tx_write_spec exp0 c w logs log op (sidxUpdateEntry (t_id op) (t_data op))) as (c' & w' & log' & H1 & H2);
      [done..|by rewrite Hk|intros c0; by destruct c0|].
    unfold tx_entry in H1. rewrite Hk in H1. unfold plain_data. rewrite Hk. unfold Get.
    destruct (c_index c !! t_id op) as [ie|].
    + destruct Hidx as (a & Ha & Hr & Hx). rewrite Ha, Hr, Hx in H1.
      apply bind_inv_ok in H1 as ([] & s1 & H1a & H1b).
      eexists _, c', w', log'. split; [|exact H2]. erewrite bind_ok by exact H1a. by erewrite bind_ok by exact H1b.
    + rewrite Hidx in H1. apply bind_inv_ok in H1 as ([] & s1 & H1a & H1b).
      eexists _, c', w', log'. split; [|exact H2]. erewrite bind_ok by exact H1a. by erewrite bind_ok by exact H1b.
  - destruct (tx_delete_spec exp0 c w logs log op) as (c' & w' & log' & H1 & H2); [done..|].
    unfold tx_entry in H1. rewrite Hk in H1. apply bind_inv_ok in H1 as (o & s1 & H1a & H1b).
    eexists _, c', w', log'. split; [|exact H2]. erewrite bind_ok by exact H1a. by erewrite bind_ok by exact H1b.
Qed.

(** An operation whose line is too long fails and changes nothing. *)
Lemma tx_apply_too_large c w logs log now op :
  let t := coll_table logs log in let exp0 := resolveInsertExpiry c now zero_time in
  coll_inv c w logs log → tx_storable exp0 (c_idSeq c) t op → tx_fits exp0 t op = false →
  tx_apply 0 now op (plain_data op) (c, w) = (Err ErrRecordTooLarge, (c, w)).
Proof.
  intros t exp0 Hinv [He _ _] Hsz%Z.leb_gt. unfold tx_apply. erewrite bind_ok by reflexivity. cbn [fst].
  pose proof (inv_index_lookup c w logs log (t_id op) Hinv) as Hidx. unfold tx_entry, plain_data in *. destruct (t_kind op) eqn:Hk.
  - by erewrite bind_err by (apply index_write_too_large; [apply Hinv|exact He|exact Hsz]).
  - unfold Get. destruct (c_index c !! t_id op) as [ie|].
    + destruct Hidx as (a & Ha & Hr & Hx). fold t in Ha. rewrite Ha, Hr, Hx in He, Hsz.
      by erewrite bind_err by (apply index_write_too_large; [apply Hinv|exact He|exact Hsz]).
    + fold t in Hidx. rewrite Hidx in He, Hsz. by erewrite bind_err by (apply index_write_too_large; [apply Hinv|exact He|exact Hsz]).
  - by erewrite bind_err by (apply Append_too_large; [apply Hinv|exact He|exact Hsz]).
Qed.

Lemma tx_apply_all_spec c w logs log now ops :
  let exp0 := resolveInsertExpiry c now zero_time in
  coll_inv c w logs log → no_faults w → tx_all_storable exp0 (c_idSeq c) (coll_table logs log) ops →
  ∃ r c' w' log', tx_apply_all 0 now ops (plain_data <$> ops) (c, w) = (r, (c', w')) ∧
    (if all_fit exp0 (coll_table logs log) ops then is_Ok r = true else r = Err ErrRecordTooLarge) ∧
    no_faults w' ∧ coll_inv c' w' logs log' ∧
    coll_table logs log' = foldl (tx_step exp0) (coll_table logs log) (fitting exp0 (coll_table logs log) ops) ∧ same_frame c c'.
Proof.
  revert c w log. induction ops as [|op ops IH]; intros c w log exp0 Hinv Hw Hv.
  { exists (Ok []), c, w, log. by split_and!. }
  destruct Hv as [Hv1 Hv2]. cbn [tx_apply_all fmap list_fmap]. unfold all_fit. cbn [fitting].
  destruct (tx_fits exp0 (coll_table logs log) op) eqn:Hfit.
  2:{ exists (Err ErrRecordTooLarge), c, w, log. erewrite bind_err by (by eapply tx_apply_too_large). by split_and!. }
  destruct (tx_apply_spec c w logs log now op) as (x & c1 & w1 & log1 & H1 & H2 & H3 & H4 & H5 & H6); [done..|].
  erewrite bind_ok by exact H1. fold exp0 in H5. rewrite <-H5 in Hv2 |- *.
  assert (resolveInsertExpiry c1 now zero_time = exp0 ∧ c_idSeq c1 = c_idSeq c) as [Hx Hi].
  { destruct H6 as (_ & Hc & Hi & _). split; [|done]. unfold resolveInsertExpiry, exp0. by rewrite Hc. }
  destruct (IH c1 w1 log1) as (r & c' & w' & log' & G1 & Gr & G2 & G3 & G4 & G5); [done|done|by rewrite Hx, Hi|]. rewrite Hx in Gr, G4.
  cbn [length foldl Nat.eqb]. rewrite <-H5. fold (all_fit exp0 (coll_table logs log1) ops) in *.
  exists (xs ← r; Ok (x :: xs)), c', w', log'. unfold mbind at 1, SE_bind. rewrite G1. split; [by destruct r|].
  split_and!; [|done|done|done|by eapply same_frame_trans]. destruct (all_fit _ _ ops); [by destruct r|by subst r].
Qed.

(** ** The rest of a commit *)
Lemma publish_all_same es c : same_store c (foldl (λ c e, publishCommit e c) c es) ∧
  c_cfg (foldl (λ c e, publishCommit e c) c es) = c_cfg c.
Proof.
  revert c. induction es as [|e es IH]; intros c; [by destruct c|]. simpl. destruct (IH (publishCommit e c)) as [H1 H2].
  destruct (publishCommit_same e c) as (P1 & P2 & P3 & P4 & P5). destruct H1 as (Q1 & Q2 & Q3 & Q4 & Q5).
  split; [split_and!; congruence|]. rewrite H2. unfold publishCommit. destruct (c_broker c); by destruct c.
Qed.

Lemma emit_all_spec evs c w : ∃ c', emit_all evs (c, w) = (Ok tt, (c', w)) ∧ same_store c c'.
Proof.
  revert c. induction evs as [|ev evs IH]; intros c; [by exists c; destruct c|]. cbn [emit_all].
  erewrite bind_ok by apply emit_eq. destruct (IH (emitted (w_now w) ev c)) as (c' & H1 & H2). exists c'. split; [done|].
  destruct (emitted_same (w_now w) ev c) as (P1 & P2 & P3 & P4 & P5). destruct H2 as (Q1 & Q2 & Q3 & Q4 & Q5).
  split_and!; congruence.
Qed.

Lemma commit_tail c w logs log (es : list Entry) (evs : list WatchEvent) (b : bool) :
  coll_inv c w logs log → no_faults w → room c →
  ∃ c' w' logs' log',
    (syncActiveLocked;; modify (λ c, foldl (λ c e, publishCommit e c) c es);; maybeRotate;; emit_all evs;;
     if b then c ← obj; ignore (io (persistMeta (metaPath (c_dir c)) (metaSnapshot c))) else mret tt) (c, w) =
      (Ok tt, (c', w')) ∧
    no_faults w' ∧ coll_inv c' w' logs' log' ∧ coll_log logs' log' = coll_log logs log ∧ c_idSeq c' = c_idSeq c.
Proof.
  intros Hinv Hw Hroom. erewrite bind_ok by (apply syncActiveLocked_nofault; [done|apply Hinv]). erewrite bind_ok by reflexivity.
  set (c1 := foldl (λ c e, publishCommit e c) c es). destruct (publish_all_same es c) as [Hs1 _]. fold c1 in Hs1.
  assert (room c1) as Hroom1.
  { destruct Hs1 as (P1 & P2 & P3 & _). apply (room_same c); [done| |done]. unfold paths, all_segments. by rewrite P2, P3. }
  destruct (maybeRotate_spec c1 w logs log) as (c2 & w2 & logs' & log' & H1 & H2 & H3 & H4 & H5 & H6);
    [by eapply coll_inv_same|done|done|].
  erewrite bind_ok by exact H1. destruct (emit_all_spec evs c2 w2) as (c3 & E1 & E2). erewrite bind_ok by exact E1.
  assert (c_idSeq c3 = c_idSeq c) as Hid.
  { destruct E2 as (_ & _ & _ & _ & ->), H4 as (_ & _ & _ & _ & -> & _), Hs1 as (_ & _ & _ & _ & ->). done. }
  pose proof (coll_inv_same _ _ _ _ _ E2 H5) as Hinv3. destruct b.
  - erewrite bind_ok by reflexivity. cbn [fst].
    destruct (persistMeta_frame (c_dir c3) (metaSnapshot c3) w2 H2) as (F1 & F2 & F3).
    destruct (persistMeta (metaPath (c_dir c3)) (metaSnapshot c3) w2) as [r w3] eqn:E. simpl in *.
    exists c3, w3, logs', log'. unfold ignore. rewrite (io_ok _ c3 w2 r w3 E). split_and!; try done. by eapply coll_inv_frame.
  - exists c3, w2, logs', log'. by split_and!.
Qed.

Lemma CommitTx_spec (c : Collection) (w : World) (logs : list (list (Z * Entry))) (log : list (Z * Entry))
    (ops : list txOp) :
  let exp0 := resolveInsertExpiry c (w_now w) zero_time in
  let t := coll_table logs log in
  coll_inv c w logs log → no_faults w → room c → c_enc c = None → ops ≠ [] → tx_all_storable exp0 (c_idSeq c) t ops →
  match tx_check c (w_now w) ops with
  | Some err => CommitTx ops (c, w) = (Err err, (c, w))
  | None =>
      ∃ c' w' logs' log',
        CommitTx ops (c, w) = (if all_fit exp0 t ops then Ok tt else Err ErrRecordTooLarge, (c', w')) ∧
        no_faults w' ∧ coll_inv c' w' logs' log' ∧ c_idSeq c' = c_idSeq c ∧
        coll_table logs' log' = foldl (tx_step exp0) t (fitting exp0 t ops)
  end.
Proof.
  intros exp0 t Hinv Hw Hroom Henc Hne Hv. unfold CommitTx, tx_check. rewrite bool_decide_false by done.
  erewrite bind_ok by reflexivity. erewrite bind_ok by reflexivity. cbn [fst snd].
  destruct (negb (tx_targets_exist c ops)); [done|].
  destruct (txCheckUnique c ops) as [[]|e]; [|done]. erewrite bind_ok by reflexivity.
  destruct (tx_quota c (w_now w) ops) as [newRecords newBytes].
  assert (∀ (m : CM unit), m (c, w) = (Ok tt, (c, w)) →
    ∃ c' w' logs' log', (m;; sealed ← tx_seal (c_enc c) ops; done ← tx_apply_all 0 (w_now w) ops sealed;
        syncActiveLocked;; modify (λ c, foldl (λ c e, publishCommit e c) c done.*1);; maybeRotate;; emit_all done.*2;;
        if existsb (λ op, match t_kind op with txOpInsert => (0 <? t_id op)%N | _ => false end) ops
        then c ← obj; ignore (io (persistMeta (metaPath (c_dir c)) (metaSnapshot c))) else mret tt) (c, w) =
        (if all_fit exp0 t ops then Ok tt else Err ErrRecordTooLarge, (c', w')) ∧
      no_faults w' ∧ coll_inv c' w' logs' log' ∧ c_idSeq c' = c_idSeq c ∧
      coll_table logs' log' = foldl (tx_step exp0) t (fitting exp0 t ops)) as Hgo.
  { intros m Hm. rewrite (bind_ok _ _ _ _ _ Hm). rewrite Henc. erewrite bind_ok by apply tx_seal_plain.
    destruct (tx_apply_all_spec c w logs log (w_now w) ops) as (r & c1 & w1 & log1 & A1 & Ar & A2 & A3 & A4 & A5); [done..|].
    fold exp0 t in Ar, A4. destruct A5 as (P1 & P2 & P3 & P4 & P5). destruct (all_fit exp0 t ops).
    - destruct r as [xs|]; [|done]. erewrite bind_ok by exact A1. destruct (commit_tail c1 w1 logs log1 xs.*1 xs.*2
        (existsb (λ op, match t_kind op with txOpInsert => (0 <? t_id op)%N | _ => false end) ops))
        as (c' & w' & logs' & log' & T1 & T2 & T3 & T4 & T5); [done|done|by apply (room_same c)|].
      exists c', w', logs', log'. split; [exact T1|]. split_and!; [done|done|congruence|]. by rewrite (coll_table_log _ _ _ _ T4).
    - subst r. exists c1, w1, logs, log1. by erewrite bind_err by exact A1. }
  rewrite Henc. destruct (quotaEnabled c && (0 <? newRecords)%N).
  - destruct (checkQuotaLocked c newRecords newBytes) as [[]|e]; [|done]. rewrite Henc in Hgo. by apply (Hgo (lift (Ok tt))).
  - rewrite Henc in Hgo. by apply (Hgo (mret tt)).
Qed.

(** [C11] Commit refines the specification.  The collection is not encrypted, no
    system call fails, and the operations are ones the engine can store: data, if
    any, not empty and exactly representable, ids that were handed out, inserts
    under unused ids.  If the batch names a record that no longer exists, violates
    a unique index or exceeds a quota, it is rejected with the collection and the
    disk unchanged.  Otherwise the operations are applied, in order, on the table
    their predecessors left: inserts at revision 1, updates with the next revision
    and the record's deadline, deletes.  If every line fits the size limit all of
    them are, and the commit succeeds; if not, those before the first oversized one
    are, and stay, though the commit reports that the record is too large: it is
    not all-or-nothing there. *)
Theorem commit_refines (c : Collection) (w : World) (logs : list (list (Z * Entry))) (log : list (Z * Entry))
    (ops : list txOp) :
  let exp0 := resolveInsertExpiry c (w_now w) zero_time in
  let t := coll_table logs log in
  coll_inv c w logs log → no_faults w → room c → c_enc c = None → ops ≠ [] → tx_all_storable exp0 (c_idSeq c) t ops →
  match tx_check c (w_now w) ops with
  | Some err => CommitTx ops (c, w) = (Err err, (c, w))
  | None =>
      ∃ c' w' logs' log',
        CommitTx ops (c, w) = (if all_fit exp0 t ops then Ok tt else Err ErrRecordTooLarge, (c', w')) ∧
        no_faults w' ∧ coll_inv c' w' logs' log' ∧ c_idSeq c' = c_idSeq c ∧
        coll_table logs' log' = foldl (tx_step exp0) t (fitting exp0 t ops)
  end.
Proof. apply CommitTx_spec. Qed.

(** ** Witness *)
Definition demo_ops : list txOp := [MkTxOp txOpUpdate 1 rec_b stamp; MkTxOp txOpDelete 1 None stamp].

Lemma demo_ops_storable : tx_all_storable 0 1 (coll_table [] demo_log) demo_ops.
Proof.
  split; [|split; [|done]].
  - unfold demo_ops. split; cbn [t_kind t_id].
    + unfold tx_entry. cbn [t_kind t_id]. rewrite demo_table.
      apply wf_plain_entry; [done|done|auto|vm_compute; reflexivity|exact demo_data|exact exp_ok_never].
    + done.
    + discriminate.
  - split; cbn [t_kind t_id].
    + apply wf_plain_entry; [done|done|auto|vm_compute; reflexivity|done|exact exp_ok_never].
    + done.
    + discriminate.
Qed.

Lemma commit_refines_witness :
  ∃ c' w' logs' log', CommitTx demo_ops (demo_coll, demo_world) = (Ok tt, (c', w')) ∧ no_faults w' ∧
    coll_inv c' w' logs' log' ∧ c_idSeq c' = 1%N ∧
    coll_table logs' log' = foldl (tx_step 0) (coll_table [] demo_log) (fitting 0 (coll_table [] demo_log) demo_ops).
Proof.
  pose proof (commit_refines demo_coll demo_world [] demo_log demo_ops demo_inv eq_refl (wr_room _ _ demo_writable) eq_refl) as H.
  specialize (H ltac:(discriminate) demo_ops_storable).
  assert (tx_check demo_coll (w_now demo_world) demo_ops = None) as E by (vm_compute; reflexivity).
  assert (all_fit 0 (coll_table [] demo_log) demo_ops = true) as Hf by (vm_compute; reflexivity).
  cbv zeta in H. change (resolveInsertExpiry demo_coll (w_now demo_world) zero_time) with 0%Z in H. rewrite E, Hf in H. exact H.
Defined.

(** ** Scenarios *)
Definition two_inserts : list txOp := [MkTxOp txOpInsert 1 rec_a stamp; MkTxOp txOpInsert 2 rec_b stamp].

Definition opened_empty : Collection * World :=
  match reopen defaultConfig empty_disk with (Ok c, w) => (c, w) | (Err _, w) => (demo_coll, w) end.

(** The second append of a commit fails. *)
Definition half_commit : result unit * (Collection * World) :=
  match (ReserveID;; ReserveID) opened_empty with
  | (Ok _, (c, w)) => CommitTx two_inserts (c, with_faults [None; Some 0] w)
  | (Err e, x) => (Err e, x)
  end.

(** A commit is not atomic with respect to write errors: when the append of a
    later operation fails the commit returns the error, but the operations before
    it stay in the index and on disk and are visible to readers. *)
Theorem commit_partial :
  half_commit.1 = Err ErrIO ∧
  r_Data <$> (GetRecord 1 half_commit.2).1 = Ok rec_a ∧
  (GetRecord 2 half_commit.2).1 = Err ErrNotFound ∧
  (map e_ID <$> (ScanAll (c_active half_commit.2.1) (with_faults [] half_commit.2.2)).1) = Ok [1%N].
Proof. split_and!; vm_compute; reflexivity. Qed.

(** A commit handler has taken its snapshot; another handler stages an insert in
    the same transaction before the first one removes it and commits. *)
Definition late_stage : result (string * N) * (server * World) :=
  (txID ← BeginTx "u";
   tx_insert "u" txID 0 rec_a;;
   ref ← lookup_tx txID;
   ops ← on_txs (Snapshot ref);
   id ← tx_insert "u" txID 0 rec_b;
   on_txs (Remove txID);;
   on_coll "u" (CommitTx ops);;
   mret (txID, id)) (MkServer (NewTxManager 0) {["u" := opened_empty.1]}, opened_empty.2).

(** The commit handler reads the buffer of a transaction and removes it from the
    registry in two steps.  An operation staged between them is acknowledged with
    its id, and is neither committed nor available to a later commit. *)
Theorem late_stage_lost :
  ∃ txID, late_stage.1 = Ok (txID, 2%N) ∧
    (on_coll "u" (GetRecord 1) late_stage.2).1 = Ok (MkRecord 1 "" 1 stamp rec_a) ∧
    (on_coll "u" (GetRecord 2) late_stage.2).1 = Err ErrNotFound ∧
    (commit_tx txID late_stage.2).1 = Err ErrNotFound.
Proof. eexists. split; [vm_compute; reflexivity|]. split_and!; vm_compute; reflexivity. Qed.
