(* ===== verification/Watch.v ===== *)
(** * Watch subscriptions

    A subscription as a state machine: the collection emits events into a bounded
    buffer (the [emit] of engine/collection.go, one subscriber's share), the
    subscriber takes them out.  The invariant relates what was emitted to what was
    delivered: events are never reordered or duplicated, and a run of dropped
    events is always followed by an overflow sentinel before the next delivery. *)

From S2P Require Import Prelude GoFloat GoStrconv GoTime GoJson Value Query Store Disk Segment Index SecIndex Collection.

(** ** Steps *)
Record subscription := MkSub {
  su_watcher : watcher;
  su_emitted : list WatchEvent; (* by the collection, oldest first *)
  su_received : list WatchEvent (* by the subscriber *)
}.

Inductive watch_step : subscription → subscription → Prop :=
  | step_emit w em rc now ev :
      we_Op ev ≠ OpOverflow →
      watch_step (MkSub w em rc) (MkSub (emit_one now ev w) (em ++ [ev]) rc)
  | step_receive w em rc ev w' :
      receive w = (Some ev, w') →
      watch_step (MkSub w em rc) (MkSub w' em (rc ++ [ev])).

Definition subscribed (cap : Z) : subscription := MkSub (MkWatcher cap [] false) [] [].

(** ** What was delivered

    [gapped lost em d]: [d] is [em] with runs of events left out, an overflow
    sentinel after each run; [lost] when the last run has no sentinel yet. *)
Inductive gapped : bool → list WatchEvent → list WatchEvent → Prop :=
  | gapped_nil : gapped false [] []
  | gapped_deliver em d ev : gapped false em d → gapped false (em ++ [ev]) (d ++ [ev])
  | gapped_drop lost em d ev : gapped lost em d → gapped true (em ++ [ev]) d
  | gapped_resume em d s ev :
      we_Op s = OpOverflow → gapped true em d → gapped false (em ++ [ev]) (d ++ [s; ev])
  | gapped_resume_drop em d s ev :
      we_Op s = OpOverflow → gapped true em d → gapped true (em ++ [ev]) (d ++ [s]).

Definition delivered (s : subscription) : list WatchEvent := su_received s ++ wa_ch (su_watcher s).

Record watch_inv (cap : Z) (s : subscription) : Prop := {
  wi_cap : wa_cap (su_watcher s) = cap;
  wi_bound : (Z.of_nat (length (wa_ch (su_watcher s))) ≤ cap)%Z;
  wi_gapped : gapped (wa_overflowed (su_watcher s)) (su_emitted s) (delivered s)
}.

Lemma has_room_spec w : has_room w = true → (Z.of_nat (length (wa_ch w)) < wa_cap w)%Z.
Proof. apply Z.ltb_lt. Qed.

Lemma emit_inv cap w em rc now ev :
  watch_inv cap (MkSub w em rc) → watch_inv cap (MkSub (emit_one now ev w) (em ++ [ev]) rc).
Proof.
  intros [Hc Hb Hg]. destruct w as [cap' ch o]. unfold delivered in *. simpl in *. subst cap'.
  unfold emit_one. cbn [wa_overflowed wa_cap wa_ch]. destruct o.
  - destruct (has_room (MkWatcher cap ch true)) eqn:Hr; [|split; [done|done|by apply gapped_drop with true]].
    apply has_room_spec in Hr. simpl in Hr. unfold deliver.
    destruct (has_room _) eqn:Hr2; cbn [wa_overflowed wa_cap wa_ch].
    + apply has_room_spec in Hr2. simpl in Hr2. rewrite length_app in Hr2. simpl in Hr2.
      split; simpl; [done|rewrite !length_app; simpl; lia|]. unfold delivered. simpl. rewrite <-app_assoc, app_assoc.
      by apply gapped_resume.
    + split; simpl; [done|rewrite length_app; simpl; lia|]. unfold delivered. simpl. rewrite app_assoc.
      by apply gapped_resume_drop.
  - unfold deliver. destruct (has_room _) eqn:Hr; cbn [wa_overflowed wa_cap wa_ch].
    + apply has_room_spec in Hr. simpl in Hr. split; simpl; [done|rewrite length_app; simpl; lia|].
      unfold delivered. simpl. rewrite app_assoc. by apply gapped_deliver.
    + split; simpl; [done|done|]. by apply gapped_drop with false.
Qed.

Lemma watch_step_inv cap s s' : watch_inv cap s → watch_step s s' → watch_inv cap s'.
Proof.
  intros Hi Hs. destruct Hs as [w em rc now ev _|w em rc ev w' Hr]; [by apply emit_inv|].
  destruct Hi as [Hc Hb Hg]. unfold receive in Hr. destruct (wa_ch w) as [|ev' ch] eqn:Hch; [done|].
  injection Hr as -> <-. unfold delivered in *. simpl in *. rewrite Hch in *.
  split; simpl; [done|simpl in Hb; lia|]. unfold delivered. simpl. by rewrite <-app_assoc.
Qed.

(** Without a sentinel nothing is missing. *)
Lemma gapped_exact lost em d :
  gapped lost em d → Forall (λ ev, we_Op ev ≠ OpOverflow) d → lost = false → d = em.
Proof.
  induction 1 as [|em d ev _ IH|lost em d ev _ _|em d s ev Hs _ _|em d s ev Hs _ _]; intros HF Hl; try done.
  - apply Forall_app in HF as [HF _]. by rewrite IH.
  - apply Forall_app in HF as [_ HF]. by apply Forall_cons in HF as [? _].
Qed.

(** [C21] No silent loss: whatever the interleaving of emitted and received events,
    the buffer never exceeds its capacity, and the events received and still
    buffered are the emitted ones in order, except that runs of events may be
    missing, each followed by an overflow sentinel before the next delivered event
    (or still pending).  A subscriber that has seen no sentinel, and whose channel
    is not marked overflowed, has missed nothing. *)
Theorem watch_no_silent_loss (cap : Z) (s : subscription) :
  (0 <= cap)%Z → rtc watch_step (subscribed cap) s →
  watch_inv cap s ∧
  (Forall (λ ev, we_Op ev ≠ OpOverflow) (delivered s) → wa_overflowed (su_watcher s) = false →
   delivered s = su_emitted s).
Proof.
  intros Hcap Hr.
  assert (watch_inv cap s) as Hi.
  { assert (watch_inv cap (subscribed cap)) as H0 by (split; [done|simpl; lia|constructor]).
    clear Hcap. induction Hr as [|x y z Hxy _ IH]; [done|]. by apply IH, (watch_step_inv cap x). }
  split; [done|]. intros HF Ho. by eapply gapped_exact; [apply Hi|..].
Qed.

(** A buffer of one event: the second event is dropped, then the subscriber drains
    the buffer and the sentinel arrives. *)
Definition ev_insert (id : N) : WatchEvent := MkWatchEvent OpInsert id None 0.

Lemma watch_no_silent_loss_witness :
  ∃ s, rtc watch_step (subscribed 1) s ∧ wa_overflowed (su_watcher s) = true ∧
    watch_inv 1 s ∧
    (Forall (λ ev, we_Op ev ≠ OpOverflow) (delivered s) → wa_overflowed (su_watcher s) = false →
     delivered s = su_emitted s).
Proof.
  set (s1 := MkSub (emit_one 0 (ev_insert 1) (MkWatcher 1 [] false)) [ev_insert 1] []).
  set (s2 := MkSub (emit_one 0 (ev_insert 2) (su_watcher s1)) [ev_insert 1; ev_insert 2] []).
  assert (rtc watch_step (subscribed 1) s2) as Hr.
  { apply (rtc_l _ _ s1); [by apply (step_emit _ [] [] 0 (ev_insert 1))|].
    apply (rtc_l _ _ s2); [by apply (step_emit _ [ev_insert 1] [] 0 (ev_insert 2))|apply rtc_refl]. }
  exists s2. split; [exact Hr|]. split; [reflexivity|]. apply (watch_no_silent_loss 1 s2); [lia|exact Hr].
Defined.
