(* ===== verification/KeysSpec.v ===== *)
(** * Keyed writes and compare-and-swap

    The conditional updates of engine/collection.go against the table, and what
    the keyed API of engine/keys.go does with a record whose deadline has passed
    but which has not been reaped yet. *)

From S2P Require Import Prelude GoFloat GoStrconv GoTime GoJson Value Query Store Disk Segment Index SecIndex Collection CollectionSpec Open OpenSpec.

(** The entry of a record of the table, read through the index. *)
Lemma read_live c w logs log id a :
  coll_inv c w logs log → no_faults w → coll_table logs log !! id = Some a →
  ∃ ie e s, Get (c_index c) id = Some ie ∧ segmentByPath c (ie_SegmentPath ie) = Some s ∧
    ReadAt s (ie_Offset ie) w = (Ok e, w) ∧
    a = ARec (ie_Rev ie) (e_Ts e) (e_Data e) (ie_ExpiresAt ie) (ie_Epoch ie).
Proof.
  intros Hinv Hw Ha. pose proof (inv_index_table _ _ _ _ Hinv id) as Hit. rewrite Ha in Hit. unfold Get.
  destruct (c_index c !! id) as [ie|]; [|done]. destruct Hit as (e & Hin & Hid & -> & _).
  destruct (seg_of_path _ _ _ _ _ _ _ Hinv Hin) as (s & es & Hs & Hp & Hrep & Hoe).
  exists ie, e, s. split; [done|]. rewrite <-Hp, (segmentByPath_spec c s) by (by try apply Hinv).
  split_and!; [done|by eapply ReadAt_log|done].
Qed.

(** The entry a successful swap writes. *)
Definition cas_entry (w : World) (id : N) (key : string) (data : option doc) (a : arec) : Entry :=
  update_entry w id (stampKey data key) (u64_add (a_rev a) 1) (a_exp a).

Lemma compareAndSwap_spec c w logs log key data (ok : option doc → N → bool) id ids a :
  coll_inv c w logs log → writable c w → IndexLookup c KeyField key = Some (id :: ids) →
  coll_table logs log !! id = Some a → data_ok (stampKey data key) → exp_ok (a_exp a) →
  if ok (a_data a) (a_rev a) then
    match update_check c (cas_entry w id key data a) (stampKey data key) with
    | Some err => compareAndSwap key data ok (c, w) = (Err err, (c, w))
    | None =>
        ∃ c' w' logs' log', compareAndSwap key data ok (c, w) = (Ok true, (c', w')) ∧
          no_faults w' ∧ coll_inv c' w' logs' log' ∧ c_idSeq c' = c_idSeq c ∧
          coll_table logs' log' =
            <[id := ARec (u64_add (a_rev a) 1) (w_now w) (norm_doc <$> stampKey data key) (a_exp a) 0]> (coll_table logs log)
    end
  else compareAndSwap key data ok (c, w) = (Ok false, (c, w)).
Proof.
  intros Hinv [Hw Hck Hroom Hids Henc] Hl Ha Hd Hx.
  destruct (read_live c w logs log id a Hinv Hw Ha) as (ie & cur & s & Hie & Hs & Hread & Heq).
  assert (a_rev a = ie_Rev ie ∧ a_data a = e_Data cur ∧ a_exp a = ie_ExpiresAt ie) as (Hr & Hda & Hex) by (by subst a).
  unfold compareAndSwap. erewrite !bind_ok by reflexivity. cbn [fst snd]. rewrite Hl, Hie, Hs.
  erewrite bind_ok by (apply io_ok; exact Hread).
  erewrite bind_ok by (unfold materialize; rewrite Henc; reflexivity). rewrite <-Hda, <-Hr, <-Hex.
  destruct (ok (a_data a) (a_rev a)); [|done].
  set (e := cas_entry w id key data a).
  assert (id ≤ c_idSeq c)%N as Hle by (apply (live_id_le c w logs log); [done|unfold Get in Hie; rewrite Hie; eauto]).
  assert (wf_entry e) as He by (apply wf_plain_entry; [change (id < 2 ^ 64)%N; lia|apply wrap64_lt|auto|done..]).
  unfold update_check. change (e_ID e) with id. destruct (sidxCheckUnique c id (stampKey data key)) as [[]|err]; [|done].
  erewrite bind_ok by reflexivity. erewrite bind_ok by (by apply sealEntryData_plain).
  change (set_ts (NewUpdate (w_now w) id (stampKey data key)) (w_now w) (u64_add (a_rev a) 1) (a_exp a)) with e.
  destruct (Z.ltb_spec maxScanTokenSize (encoded_size e)) as [Hbig|Hsz].
  - by erewrite bind_err by (apply index_write_too_large; [apply Hinv|done|done]).
  - destruct (write_spec true c w logs log e (sidxUpdateEntry id (stampKey data key))
      (MkWatchEvent OpUpdate id (stampKey data key) (w_now w))) as (c' & w' & lg & lg' & H1 & H2 & H3 & H4 & H5);
      [done|done|done|done|done|by right| |done|apply sidx_update_same|].
    + change (e_ID e) with id. unfold cur_rev. unfold Get in Hie. rewrite Hie. simpl. by rewrite <-Hr.
    + exists c', w', lg, lg'. split_and!; [exact H1|done|done|done|exact H5].
Qed.

(** Compare-and-swap: with the key's live record [a] at hand, [UpdateIfRev]
    writes only if the record is still at the expected revision; then it replaces
    the data and raises the revision by one, so of several writers that read the
    same revision at most one succeeds.  Otherwise it reports false and neither
    the collection nor the disk changes. *)
Theorem update_if_rev_refines (c : Collection) (w : World) (logs : list (list (Z * Entry))) (log : list (Z * Entry))
    (key : string) (expectedRev : N) (data : option doc) (id : N) (ids : list N) (a : arec) :
  coll_inv c w logs log → writable c w → IndexLookup c KeyField key = Some (id :: ids) →
  coll_table logs log !! id = Some a → sets_key data = false → data_ok (stampKey data key) → exp_ok (a_exp a) →
  if (a_rev a =? expectedRev)%N then
    match update_check c (cas_entry w id key data a) (stampKey data key) with
    | Some err => UpdateIfRev key expectedRev data (c, w) = (Err err, (c, w))
    | None =>
        ∃ c' w' logs' log', UpdateIfRev key expectedRev data (c, w) = (Ok true, (c', w')) ∧
          no_faults w' ∧ coll_inv c' w' logs' log' ∧ c_idSeq c' = c_idSeq c ∧
          coll_table logs' log' =
            <[id := ARec (u64_add expectedRev 1) (w_now w) (norm_doc <$> stampKey data key) (a_exp a) 0]> (coll_table logs log)
    end
  else UpdateIfRev key expectedRev data (c, w) = (Ok false, (c, w)).
Proof.
  intros Hinv Hwr Hl Ha Hk Hd Hx. unfold UpdateIfRev. rewrite Hk.
  pose proof (compareAndSwap_spec c w logs log key data (λ _ curRev, (curRev =? expectedRev)%N) id ids a Hinv Hwr Hl Ha Hd Hx) as H.
  cbv beta in H. destruct (N.eqb_spec (a_rev a) expectedRev) as [<-|]; exact H.
Qed.

(** ** Witness: a collection with one keyed record *)
Definition keyed_data : option doc := stampKey rec_a "k".
Definition keyed_entry : Entry := insert_entry (MkWorld ∅ [] stamp 0) 1 keyed_data 0.
Definition keyed_line : bytes := match Encode keyed_entry with Ok b => b | Err _ => [] end.
Definition keyed_log : list (Z * Entry) := [(0%Z, written keyed_entry)].
Definition keyed_world : World := MkWorld {[segmentPath demo_dir 1 := keyed_line]} [] stamp 0.
Definition keyed_coll : Collection :=
  MkColl "u" demo_dir defaultConfig stamp [] (MkSegment (segmentPath demo_dir 1) (Z.of_nat (length keyed_line)) false OpenFile)
    {[1%N := MkIndexEntry (segmentPath demo_dir 1) 0 1 0 0]} 1 0 ∅ 0
    {[KeyField := add (newSecondaryIndex KeyField true) (VStr "k") 1]} None None false [] false false false.

Lemma wf_keyed x key : wf_any (VFloat x) = true → wf_string key = true → data_ok (stampKey (Some {["a" := VFloat x]}) key).
Proof.
  intros Hx Hk. split; [apply insert_non_empty|].
  intros k v [[<- <-]|[_ Hv]]%lookup_insert_Some; [exact Hk|]. apply (lookup_singleton_Some "a" k (VFloat x) v) in Hv as [<- <-].
  exact Hx.
Qed.

Lemma keyed_inv : coll_inv keyed_coll keyed_world [] keyed_log.
Proof.
  assert (wf_entry keyed_entry) as He.
  { apply wf_plain_entry; [done|done|by left|vm_compute; reflexivity|apply wf_keyed; vm_compute; reflexivity|exact exp_ok_never]. }
  destruct (Encode_segment_log keyed_entry 0 He) as (b & Hb & Hlog); [vm_compute; discriminate|].
  assert (keyed_line = b) as Hl by (unfold keyed_line; by rewrite Hb).
  split.
  - constructor.
  - exists keyed_line. split; [apply lookup_singleton_eq|]. split; [rewrite Hl; exact Hlog|reflexivity].
  - split; reflexivity.
  - apply NoDup_singleton.
  - constructor; [|constructor]. exists 1%N. split; reflexivity.
  - intros n [b' Hn]. unfold keyed_world in Hn. cbn [w_files] in Hn. apply lookup_singleton_Some in Hn as [<- _]. by apply list_elem_of_singleton.
  - vm_compute. reflexivity.
  - intros o e Hin%list_elem_of_singleton. apply (f_equal snd) in Hin. cbn [snd] in Hin. rewrite Hin. vm_compute. discriminate.
Qed.

Lemma update_if_rev_refines_witness :
  ∃ c' w' logs' log', UpdateIfRev "k" 1 rec_b (keyed_coll, keyed_world) = (Ok true, (c', w')) ∧
    no_faults w' ∧ coll_inv c' w' logs' log' ∧ c_idSeq c' = 1%N ∧
    coll_table logs' log' =
      <[1%N := ARec 2 stamp (norm_doc <$> stampKey rec_b "k") 0 0]> (coll_table [] keyed_log).
Proof.
  assert (writable keyed_coll keyed_world) as Hwr by (split; vm_compute; reflexivity).
  assert (coll_table [] keyed_log !! 1%N = Some (ARec 1 stamp (norm_doc <$> keyed_data) 0 0)) as Ht by (vm_compute; reflexivity).
  assert (data_ok (stampKey rec_b "k")) as Hd by (apply wf_keyed; vm_compute; reflexivity).
  pose proof (update_if_rev_refines keyed_coll keyed_world [] keyed_log "k" 1 rec_b 1 [] _ keyed_inv Hwr eq_refl Ht
    ltac:(vm_compute; reflexivity) Hd exp_ok_never) as H.
  cbn [a_rev a_exp] in H. change (1 =? 1)%N with true in H. cbv iota in H.
  assert (update_check keyed_coll (cas_entry keyed_world 1 "k" rec_b (ARec 1 stamp (norm_doc <$> keyed_data) 0 0)) (stampKey rec_b "k") = None) as E
    by (vm_compute; reflexivity).
  rewrite E in H. exact H.
Defined.

(** ** Expired records and keys *)
Definition with_ttl : CollectionConfig := MkConfig 0 0 f64_zero None 0 0 second 0 0 ∅.

Definition at_time (t : Time) (w : World) : World := MkWorld (w_files w) (w_faults w) t (w_seed w).

(** A keyed record with a deadline of one second; two seconds later the key is
    upserted. *)
Definition upserted : result Record_ * (Collection * World) :=
  match reopen with_ttl empty_disk with
  | (Ok c, w) =>
      match @InsertWithKey length_digest "k" rec_a (c, w) with
      | (Ok _, (c, w)) => @Upsert length_digest "k" rec_b (c, at_time (stamp + 2 * second) w)
      | (Err e, x) => (Err e, x)
      end
  | (Err e, w) => (Err e, (demo_coll, w))
  end.

(** An upsert of a key whose record has expired but has not been reaped replaces
    that record and keeps its deadline, which has passed: the upsert reports
    success at revision 2, and the data it wrote is not readable, then reaped. *)
Theorem upsert_of_expired_lost :
  r_Rev <$> upserted.1 = Ok 2%N ∧
  (GetByKey "k" upserted.2).1 = Err ErrNotFound ∧
  Len (c_index (reapExpired upserted.2).2.1) = 0.
Proof. split_and!; vm_compute; reflexivity. Qed.
