(* ===== verification/LoadJsonl.v ===== *)
(** * Bulk loading (engine/loadjsonl.go)

    [LoadJSONL] reads JSON lines, checks all of them, and inserts the records in
    one commit.  [load_inserts] states that loading the printed form of a list of
    records inserts exactly these, in order, up to the first one that is too large,
    or changes nothing but the id counter; a scenario shows what an aborted load by key leaves behind.  Line numbers, which
    only occur in messages, are omitted. *)

From S2P Require Import Prelude GoFloat GoStrconv GoTime GoJson Value Query Store Disk GoStrings Segment Index SecIndex Collection CollectionSpec Open OpenSpec Compactor CompactorSpec TxManager TxSpec.

(** ** The code *)
Definition prepareRecord (line keyField : string) : result (option doc) :=
  rec ← (match parse_json (to_bytes line) with Some j => doc_of_json j | None => Err ErrSyntax end);
  if bool_decide (keyField = "") then if sets_key rec then Err ErrReservedField else Ok rec
  else
    match data_field rec keyField with
    | None => Err ErrOther
    | Some (VStr key) =>
        if (negb (bool_decide (keyField = KeyField)) && sets_key rec)%bool then Err ErrReservedField
        else Ok (stampKey rec key)
    | Some _ => Err ErrOther
    end.

(** The lines of the input, the blank ones skipped; how the input ended is looked
    at after its last line. *)
Fixpoint parse_lines (lines : list bytes) (keyField : string) : result (list (option doc)) :=
  match lines with
  | [] => Ok []
  | line :: lines =>
      let trimmed := TrimSpace (of_bytes line) in
      if bool_decide (trimmed = "") then parse_lines lines keyField
      else
        data ← prepareRecord trimmed keyField;
        datas ← parse_lines lines keyField;
        Ok (data :: datas)
  end.

Definition parseJSONL (input : bytes) (ended : option error) (keyField : string) : result (list (option doc)) :=
  datas ← parse_lines (split_lines input) keyField;
  match ended with Some e => Err e | None => Ok datas end.

(** One insert per record, each under an id of its own. *)
Fixpoint stage_inserts (ts : Time) (datas : list (option doc)) : CM (list txOp) :=
  match datas with
  | [] => mret []
  | d :: datas =>
      id ← ReserveID;
      ops ← stage_inserts ts datas;
      mret (MkTxOp txOpInsert id d ts :: ops)
  end.

Definition LoadJSONL {sha : Sha256} (input : bytes) (ended : option error) (keyField : string) : CM nat :=
  (if bool_decide (keyField = "") then mret tt else ensureKeyIndex);;
  datas ← lift (parseJSONL input ended keyField);
  if bool_decide (datas = []) then mret 0
  else
    ts ← io now;
    ops ← stage_inserts ts datas;
    CommitTx ops;;
    mret (length datas).

(** ** Parsing what was printed *)
Definition json_line (d : doc) : bytes :=
  match doc_to_json d with Ok j => print_json j ++ [newline] | Err _ => [] end.
Definition jsonl (ds : list doc) : bytes := concat (json_line <$> ds).

Lemma prepareRecord_printed d j :
  doc_to_json d = Ok j → wf_json j → doc_of_json j = Ok (Some (norm_doc d)) → sets_key (Some d) = false →
  TrimSpace (of_bytes (print_json j)) = of_bytes (print_json j) ∧ prepareRecord (of_bytes (print_json j)) "" = Ok (Some (norm_doc d)).
Proof.
  intros Hj Hw Hd Hk. split.
  - unfold doc_to_json in Hj. destruct (mapR field_to_json (sorted_pairs d)) as [js|]; [|done]. injection Hj as <-. cbn [print_json]. apply TrimSpace_braces.
  - unfold prepareRecord. rewrite to_of_bytes, parse_print_json by done. cbn [mbind result_bind]. rewrite Hd. cbn [mbind result_bind].
    rewrite bool_decide_true by done. assert (sets_key (Some (norm_doc d)) = false) as ->; [|done].
    unfold sets_key in *. apply bool_decide_eq_false in Hk. apply bool_decide_eq_false. cbn in *. unfold norm_doc. rewrite lookup_fmap.
    intros Hs. apply Hk. by apply fmap_is_Some in Hs.
Qed.

Lemma parse_printed ds :
  Forall (λ d, wf_doc d ∧ sets_key (Some d) = false) ds → parseJSONL (jsonl ds) None "" = Ok ((λ d, Some (norm_doc d)) <$> ds).
Proof.
  intros Hds. unfold parseJSONL. assert (parse_lines (split_lines (jsonl ds)) "" = Ok ((λ d, Some (norm_doc d)) <$> ds)) as ->; [|done].
  induction Hds as [|d ds [Hw Hk] Hds IH]; [done|]. destruct (doc_to_json_roundtrip d Hw) as (j & H1 & H2 & H3).
  destruct (prepareRecord_printed d j H1 H2 H3 Hk) as [P1 P2].
  assert (jsonl (d :: ds) = print_json j ++ newline :: jsonl ds) as ->.
  { unfold jsonl. cbn [fmap list_fmap concat]. unfold json_line at 1. by rewrite H1, <-app_assoc. }
  rewrite split_lines_cons by (by apply no_nl_json). cbn [parse_lines]. rewrite P1, bool_decide_false, P2.
  - cbn [mbind result_bind]. by rewrite IH.
  - intros E. assert (prepareRecord "" "" = Err ErrSyntax) as E0 by reflexivity. rewrite E, E0 in P2. congruence.
Qed.

(** ** The batch *)
Fixpoint staged (n : N) (ts : Time) (datas : list (option doc)) : list txOp :=
  match datas with [] => [] | d :: datas => MkTxOp txOpInsert (n + 1) d ts :: staged (n + 1) ts datas end.

Lemma stage_inserts_spec ts datas c w :
  (c_idSeq c + N.of_nat (length datas) < 2 ^ 64)%N →
  stage_inserts ts datas (c, w) = (Ok (staged (c_idSeq c) ts datas), (set_idSeq (c_idSeq c + N.of_nat (length datas)) c, w)).
Proof.
  revert c. induction datas as [|d datas IH]; intros c Hn; cbn [stage_inserts staged length] in *.
  { rewrite N.add_0_r. by destruct c. }
  assert (u64_add (c_idSeq c) 1 = (c_idSeq c + 1)%N) as Hu by (apply wrap64_small; lia).
  unfold ReserveID, nextID. erewrite bind_ok by (erewrite bind_ok by reflexivity; erewrite bind_ok by reflexivity; reflexivity). cbn [fst].
  rewrite Hu. assert (c_idSeq (set_idSeq (c_idSeq c + 1) c) = (c_idSeq c + 1)%N) as Hs by (by destruct c).
  erewrite bind_ok by (apply IH; rewrite Hs; lia). rewrite Hs.
  replace (c_idSeq c + N.of_nat (S (length datas)))%N with (c_idSeq c + 1 + N.of_nat (length datas))%N by lia. by destruct c.
Qed.

(** What the batch makes of a table. *)
Definition loaded (n : N) (ts : Time) (exp0 : Z) (datas : list (option doc)) (t t' : table) : Prop := ∀ id,
  t' !! id = if (id <=? n)%N then t !! id
             else match datas !! N.to_nat (id - n - 1) with Some d => Some (ARec 1 ts (norm_doc <$> d) exp0 0) | None => t !! id end.

Lemma staged_loaded exp0 ts datas n t : loaded n ts exp0 datas t (foldl (tx_step exp0) t (staged n ts datas)).
Proof.
  revert n t. induction datas as [|d datas IH]; intros n t id; cbn [staged foldl]; [by destruct (_ <=? _)%N|].
  rewrite (IH (n + 1)%N _ id). unfold tx_step at 1 2. cbn [t_kind t_id tx_entry e_Rev e_Ts e_Data e_ExpiresAt t_data t_ts].
  destruct (N.leb_spec id (n + 1)), (N.leb_spec id n); try lia.
  - rewrite lookup_insert_ne; [done|lia].
  - assert (id = n + 1)%N as -> by lia. rewrite lookup_insert_eq. by replace (N.to_nat (n + 1 - n - 1)) with 0 by lia.
  - replace (N.to_nat (id - n - 1)) with (S (N.to_nat (id - (n + 1) - 1))) by lia. cbn [lookup list_lookup].
    destruct (datas !! _); [done|]. rewrite lookup_insert_ne; [done|lia].
Qed.

Lemma staged_storable exp0 m ts datas n t :
  (∀ id, (n < id)%N → t !! id = None) → (n + N.of_nat (length datas) ≤ m)%N → (m < 2 ^ 64)%N → is_Ok (format_time ts) = true → exp_ok exp0 →
  Forall data_ok datas → tx_all_storable exp0 m t (staged n ts datas).
Proof.
  intros Hf Hn Hm Hts Hx Hd. revert n t Hf Hn. induction Hd as [|d datas Hd Hds IH]; intros n t Hf Hn; cbn [staged tx_all_storable length] in *; [done|].
  split.
  - split; cbn [t_kind t_id tx_entry]; [|lia|intros _; apply Hf; lia]. apply wf_plain_entry; [lia|done|auto|done..].
  - apply IH; [|lia]. intros id Hid. unfold tx_step. cbn [t_kind t_id]. rewrite lookup_insert_ne by lia. apply Hf. lia.
Qed.

(** The operations before the first oversized one are those of the first records. *)
Lemma fitting_take exp0 t ops : fitting exp0 t ops = take (length (fitting exp0 t ops)) ops.
Proof. revert t. induction ops as [|op ops IH]; intros t; cbn [fitting]; [done|]. destruct (tx_fits exp0 t op); [|done]. cbn. f_equal. apply IH. Qed.
Lemma staged_take n ts datas k : take k (staged n ts datas) = staged n ts (take k datas).
Proof. revert n k. induction datas as [|d datas IH]; intros n [|k]; cbn [staged take]; [done..|]. by rewrite IH. Qed.
Lemma length_staged n ts datas : length (staged n ts datas) = length datas.
Proof. revert n. induction datas as [|d datas IH]; intros n; cbn [staged length]; [done|]. by rewrite IH. Qed.

(** [C12] Loading inserts: the printed form of a list of records, none empty, none
    with the reserved key field and all exactly representable, loaded without a key
    field into a collection that is not encrypted while no system call fails, is
    read back as these records.  Either the batch fails a check (quota, unique
    index) and only the id counter moves, or the first [k] records are inserted, in
    the order of their lines, under the next ids at revision 1, and every other
    record stays as it is.  If every line fits the size limit, [k] is the number of
    records and the load succeeds; otherwise [k] counts those before the first
    oversized one, and the load reports the error with these in place. *)
Theorem load_inserts {sha : Sha256} (c : Collection) (w : World) (logs : list (list (Z * Entry))) (log : list (Z * Entry)) (ds : list doc) :
  let n := N.of_nat (length ds) in
  let exp0 := resolveInsertExpiry c (w_now w) zero_time in
  let datas := (λ d, Some (norm_doc d)) <$> ds in
  let ops := staged (c_idSeq c) (w_now w) datas in
  let c1 := set_idSeq (c_idSeq c + n) c in
  let k := length (fitting exp0 (coll_table logs log) ops) in
  coll_inv c w logs log → no_faults w → clock_ok w → room c → c_enc c = None → exp_ok exp0 →
  ds ≠ [] → (c_idSeq c + n < 2 ^ 64)%N → Forall (λ d, d ≠ ∅ ∧ wf_doc d ∧ sets_key (Some d) = false) ds →
  match tx_check c1 (w_now w) ops with
  | Some err => LoadJSONL (jsonl ds) None "" (c, w) = (Err err, (c1, w))
  | None =>
      ∃ c' w' logs' log',
        LoadJSONL (jsonl ds) None "" (c, w) = (if k =? length ds then Ok (length ds) else Err ErrRecordTooLarge, (c', w')) ∧ no_faults w' ∧
        coll_inv c' w' logs' log' ∧ c_idSeq c' = (c_idSeq c + n)%N ∧
        loaded (c_idSeq c) (w_now w) exp0 (take k datas) (coll_table logs log) (coll_table logs' log')
  end.
Proof.
  intros n exp0 datas ops c1 k Hinv Hw Hclock Hroom Henc Hx Hne Hn Hds.
  assert (length datas = length ds) as Hlen by apply length_fmap.
  assert (coll_inv c1 w logs log) as Hinv1 by (apply set_idSeq_inv; [done|lia]).
  assert (c_idSeq c1 = (c_idSeq c + n)%N ∧ c_enc c1 = None ∧ resolveInsertExpiry c1 (w_now w) zero_time = exp0) as (Hi & He & Hr)
    by (subst c1 exp0; by destruct c).
  assert (room c1) as Hroom1 by (apply (room_same c); by destruct c).
  assert (ops ≠ []) as Hops by (subst ops datas; by destruct ds).
  assert (tx_all_storable exp0 (c_idSeq c1) (coll_table logs log) ops) as Hv.
  { rewrite Hi. apply staged_storable; [|lia|done|done|done|]; [intros id Hid; by apply (table_fresh _ _ _ _ _ Hinv Hid)|].
    subst datas. apply Forall_fmap. eapply Forall_impl; [exact Hds|]. intros d (H1 & H2 & _). by apply norm_doc_ok. }
  assert (∀ r, CommitTx ops (c1, w) = r →
    LoadJSONL (jsonl ds) None "" (c, w) = match r with (Ok _, s) => (Ok (length ds), s) | (Err e, s) => (Err e, s) end) as Hload.
  { intros r Hc. unfold LoadJSONL. rewrite bool_decide_true by done. erewrite bind_ok by reflexivity. rewrite parse_printed.
    2: { eapply Forall_impl; [exact Hds|]. by intros d (_ & ? & ?). }
    fold datas. erewrite bind_ok by reflexivity. rewrite bool_decide_false by (subst datas; by destruct ds).
    erewrite bind_ok by reflexivity. erewrite bind_ok by (apply stage_inserts_spec; lia). rewrite Hlen. fold n ops c1.
    destruct r as [[u|e] s]; [by erewrite bind_ok by exact Hc|by erewrite bind_err by exact Hc]. }
  pose proof (CommitTx_spec c1 w logs log ops Hinv1 Hw Hroom1 He Hops) as Hspec. rewrite Hr in Hspec. specialize (Hspec Hv).
  destruct (tx_check c1 (w_now w) ops) as [err|].
  - by rewrite (Hload _ Hspec).
  - destruct Hspec as (c' & w' & logs' & log' & G1 & G2 & G3 & G4 & G5). exists c', w', logs', log'. rewrite (Hload _ G1).
    assert (all_fit exp0 (coll_table logs log) ops = (k =? length ds)) as ->.
    { unfold all_fit. fold k. subst ops. by rewrite length_staged, Hlen. }
    split_and!; [by destruct (k =? length ds)|done|done|congruence|]. rewrite G5, fitting_take. fold k. subst ops. rewrite staged_take. apply staged_loaded.
Qed.

(** ** Scenario *)

(** The doc says that a malformed line leaves the segments and indexes exactly as
    they were: a load by key first makes the index of keys, which stays, in memory
    and on disk, when the load is aborted. *)
Definition aborted_load : result nat * (Collection * World) :=
  @LoadJSONL length_digest (to_bytes "{") None "name" opened_empty.

Theorem aborted_load_leaves_index :
  aborted_load.1 = Err ErrSyntax ∧ ListIndexes opened_empty.1 = [] ∧ ListIndexes aborted_load.2.1 = [KeyField] ∧
  is_Some (w_files aborted_load.2.2 !! sidxFilePath (c_dir aborted_load.2.1) KeyField).
Proof. vm_compute. eauto. Qed.

(** ** Witness *)
Definition doc_b : doc := default ∅ rec_b.

Lemma load_inserts_witness :
  ∃ c' w' logs' log', @LoadJSONL length_digest (jsonl [doc_b; doc_b]) None "" (demo_coll, demo_world) = (Ok 2, (c', w')) ∧ no_faults w' ∧
    coll_inv c' w' logs' log' ∧ c_idSeq c' = 3%N ∧
    loaded 1 stamp 0 [Some (norm_doc doc_b); Some (norm_doc doc_b)] (coll_table [] demo_log) (coll_table logs' log').
Proof.
  pose proof (@load_inserts length_digest demo_coll demo_world [] demo_log [doc_b; doc_b] demo_inv eq_refl (wr_clock _ _ demo_writable)
    (wr_room _ _ demo_writable) eq_refl exp_ok_never ltac:(discriminate) ltac:(vm_compute; reflexivity)) as H.
  assert (tx_check (set_idSeq 3 demo_coll) (w_now demo_world) (staged 1 stamp [Some (norm_doc doc_b); Some (norm_doc doc_b)]) = None) as E
    by (vm_compute; reflexivity).
  assert (doc_b ≠ ∅ ∧ wf_doc doc_b ∧ sets_key (Some doc_b) = false) as Hd.
  { destruct demo_data as [H1 H2]. split; [exact H1|]. split; [exact H2|]. vm_compute. reflexivity. }
  specialize (H ltac:(repeat constructor; apply Hd)). cbv zeta in H.
  change (set_idSeq (c_idSeq demo_coll + N.of_nat (length [doc_b; doc_b])) demo_coll) with (set_idSeq 3 demo_coll) in H.
  change (staged (c_idSeq demo_coll) (w_now demo_world) ((λ d, Some (norm_doc d)) <$> [doc_b; doc_b]))
    with (staged 1 stamp [Some (norm_doc doc_b); Some (norm_doc doc_b)]) in H.
  change (resolveInsertExpiry demo_coll (w_now demo_world) zero_time) with 0%Z in H.
  assert (length (fitting 0 (coll_table [] demo_log) (staged 1 stamp [Some (norm_doc doc_b); Some (norm_doc doc_b)])) = 2) as Hk by (vm_compute; reflexivity).
  rewrite E, Hk in H. exact H.
Defined.
