(* ===== verification/CompactorFiles.v ===== *)
(** * Compaction and bulk loading stay in the directory

    Whatever system calls fail, a compaction pass and a bulk load change only files
    of the collection's own directory and keep its segments there: the temporary
    segments, the manifest, the new names and the removed ones.  The facts carry
    the isolation of collections and the typing of the registry. *)

From S2P Require Import Prelude GoTime GoJson Value Query Store Disk Segment Index SecIndex Meta Collection Steps Open Compactor LoadJsonl.

(** What a routine returns, when it returns. *)
Definition yields {A} (Q : A → Prop) (m : M A) : Prop := ∀ w a w', m w = (Ok a, w') → Q a.

Lemma yields_bind {A B} (P : A → Prop) (Q : B → Prop) (m : M A) (f : A → M B) :
  yields P m → (∀ a, P a → yields Q (f a)) → yields Q (m ≫= f).
Proof. intros Hm Hf w b w' E. apply bind_inv_ok in E as (a & w1 & E1 & E2). by eapply Hf; [eapply Hm|]. Qed.
Lemma yields_any {A B} (Q : B → Prop) (m : M A) (f : A → M B) : (∀ a, yields Q (f a)) → yields Q (m ≫= f).
Proof. intros Hf. by apply (yields_bind (λ _, True)). Qed.
Lemma yields_ret {A} (Q : A → Prop) a : Q a → yields Q (mret a).
Proof. by intros HQ w a' w' [= <- _]. Qed.

(** A sequence whose rest may rely on what was returned. *)
Lemma touches_bind_yields {A B} (P : string → Prop) (Q : A → Prop) (m : M A) (f : A → M B) :
  touches P m → yields Q m → (∀ a, Q a → touches P (f a)) → touches P (m ≫= f).
Proof.
  intros Hm Hy Hf w p Hp. unfold mbind, SE_bind. specialize (Hm w p Hp). destruct (m w) as [[a|e] w'] eqn:E; simpl in *; [|done].
  rewrite (Hf a); [done|by eapply Hy|done].
Qed.
Lemma local_bind_yields {A B} dir (Q : A → Prop) (m : M A) (f : A → CM B) :
  touches (in_dir dir) m → yields Q m → (∀ a, Q a → local dir (f a)) → local dir (io m ≫= f).
Proof.
  intros Hm Hy Hf c w Hc. unfold mbind, SE_bind, io. pose proof (Hm w) as H1. destruct (m w) as [[a|e] w'] eqn:E; simpl in *; [|done].
  destruct (Hf a ltac:(by eapply Hy) c w' Hc) as [H2 H3]. split; [done|]. intros p Hp. rewrite H3 by done. by apply H1.
Qed.

Section pass.
Context (dir : string).

(** Segments of the directory. *)
Definition inside (s : Segment) : Prop := in_dir dir (s_path s).

Lemma yields_open q : in_dir dir q → yields inside (openActiveSegment q).
Proof.
  intros Hq w s w' E. unfold openActiveSegment in E. repeat (apply bind_inv_ok in E as (? & ? & _ & E)). by injection E as <- _.
Qed.

Lemma on_segment_stays {A} s (m : SE (Segment * World) A) :
  seg_touches m → inside s → touches (in_dir dir) (on_segment s m) ∧ yields (λ r, inside r.2) (on_segment s m).
Proof.
  intros Hm Hs. split.
  - intros w p Hp. unfold on_segment. destruct (Hm s w) as [_ H2]. destruct (m (s, w)) as [r [s' w']]. simpl in *. apply H2. by intros ->.
  - intros w [a s1] w1. unfold on_segment. destruct (Hm s w) as [H1 _]. destruct (m (s, w)) as [[x|e] [s' w']]; [|done]. simpl in *.
    intros [= <- <- _]. unfold inside. simpl. by rewrite H1.
Qed.

Lemma append_to_stays s e : inside s → touches (in_dir dir) (append_to s e) ∧ yields inside (append_to s e).
Proof.
  intros Hs. destruct (on_segment_stays s (Append e)) as [H1 H2]; [eauto with files|done|]. unfold append_to.
  split; [by apply touches_bind; [|intros r; touch]|eapply yields_bind; [exact H2|]]. intros r Hr. by apply yields_ret.
Qed.
Lemma seal_segment_stays s : inside s → touches (in_dir dir) (seal_segment s) ∧ yields inside (seal_segment s).
Proof.
  intros Hs. destruct (on_segment_stays s Seal) as [H1 H2]; [eauto with files|done|]. unfold seal_segment.
  split; [by apply touches_bind; [|intros r; touch]|eapply yields_bind; [exact H2|]]. intros r Hr. by apply yields_ret.
Qed.

Lemma append_all_stays es s : inside s → touches (in_dir dir) (append_all s es) ∧ yields inside (append_all s es).
Proof.
  revert s. induction es as [|e es IH]; intros s Hs; cbn [append_all]; [split; [touch|by apply yields_ret]|].
  destruct (append_to_stays s e Hs) as [H1 H2].
  split; [eapply touches_bind_yields; [done|exact H2|]|eapply yields_bind; [exact H2|]]; intros s' Hs'; by apply IH.
Qed.

Lemma write_entries_stays maxSize n segs current es : Forall inside segs → inside current →
  touches (in_dir dir) (write_entries dir maxSize n segs current es) ∧
  yields (λ r, Forall inside r.1 ∧ inside r.2) (write_entries dir maxSize n segs current es).
Proof.
  revert n segs current. induction es as [|e es IH]; intros n segs current Hsegs Hcur; cbn [write_entries]; [split; [touch|by apply yields_ret]|].
  match goal with |- touches _ (?m ≫= ?f) ∧ _ =>
    assert (touches (in_dir dir) m ∧ yields (λ r, Forall inside r.1.2 ∧ inside r.2) m) as [H1 H2];
    [|assert (∀ r, Forall inside r.1.2 ∧ inside r.2 →
        touches (in_dir dir) (f r) ∧ yields (λ r, Forall inside r.1 ∧ inside r.2) (f r)) as Hf] end.
  - destruct (_ <=? _)%Z; [|split; [touch|by apply yields_ret]]. destruct (seal_segment_stays current Hcur) as [S1 S2].
    assert (in_dir dir (compact_temp dir n)) as Hq by apply in_dir_join. split.
    + apply touches_bind; [done|]. intros sealed. apply touches_bind; [eauto with files|intros next; touch].
    + eapply yields_bind; [exact S2|]. intros sealed Hse. eapply yields_bind; [by apply yields_open|]. intros next Hne.
      apply yields_ret. split; [|done]. apply Forall_app. split; [done|by repeat constructor].
  - intros [[n' segs'] cur'] [Hs' Hc']. simpl in *. destruct (append_to_stays cur' e Hc') as [A1 A2].
    split; [eapply touches_bind_yields; [done|exact A2|]|eapply yields_bind; [exact A2|]]; intros s Hs; by apply IH.
  - split; [eapply touches_bind_yields; [done|exact H2|]|eapply yields_bind; [exact H2|]]; intros r Hr; by apply Hf.
Qed.

Lemma mergeSegments_stays a b : inside a → touches (in_dir dir) (mergeSegments a b) ∧ yields inside (mergeSegments a b).
Proof.
  intros Ha. assert (in_dir dir (s_path a +:+ ".merge")) as Hq by (by apply in_dir_app). unfold mergeSegments. split.
  - eapply touches_bind_yields; [eauto with files|by apply yields_open|]. intros m Hm. apply touches_bind; [touch|]. intros es.
    eapply touches_bind_yields; [by apply append_all_stays|by apply append_all_stays|]. intros m' Hm'. apply touches_bind; [touch|]. intros es'.
    eapply touches_bind_yields; [by apply append_all_stays|by apply append_all_stays|]. intros m2 Hm2. by apply seal_segment_stays.
  - eapply yields_bind; [by apply yields_open|]. intros m Hm. apply yields_any. intros es.
    eapply yields_bind; [by apply append_all_stays|]. intros m' Hm'. apply yields_any. intros es'.
    eapply yields_bind; [by apply append_all_stays|]. intros m2 Hm2. by apply seal_segment_stays.
Qed.

Lemma rebalance_stays minSize maxSize segs : Forall inside segs →
  touches (in_dir dir) (rebalance_from minSize maxSize segs) ∧ yields (Forall inside) (rebalance_from minSize maxSize segs).
Proof.
  remember (length segs) as n eqn:Hn. revert segs Hn. induction n as [n IH] using lt_wf_ind. intros segs -> HF.
  destruct segs as [|s tl]; cbn [rebalance_from]; [split; [touch|by apply yields_ret]|]. apply Forall_cons in HF as [Hs Htl].
  destruct tl as [|next rest]; [split; [touch|by apply yields_ret; repeat constructor]|]. apply Forall_cons in Htl as Hn. destruct Hn as [Hnext Hrest].
  assert (touches (in_dir dir) (r ← rebalance_from minSize maxSize (next :: rest); mret (s :: r)) ∧
    yields (Forall inside) (r ← rebalance_from minSize maxSize (next :: rest); mret (s :: r))) as Hskip.
  { destruct (IH (length (next :: rest)) ltac:(simpl; lia) _ eq_refl Htl) as [H1 H2].
    split; [apply touches_bind; [done|intros r; touch]|eapply yields_bind; [exact H2|]]. intros r Hr. apply yields_ret. by constructor. }
  destruct (_ <=? _)%Z; [done|]. destruct (_ <=? _)%Z; [|done]. destruct (mergeSegments_stays s next Hs) as [M1 M2].
  destruct (IH (length rest) ltac:(simpl; lia) _ eq_refl Hrest) as [H1 H2]. unfold inside in Hs, Hnext. split.
  - apply touches_bind; [done|]. intros merged. apply touches_bind; [touch|intros _]. apply touches_bind; [touch|intros _].
    apply touches_bind; [done|intros r; touch].
  - eapply yields_bind; [exact M2|]. intros merged Hm. do 2 (apply yields_any; intros _).
    eapply yields_bind; [exact H2|]. intros r Hr. apply yields_ret. by constructor.
Qed.

Lemma writeCompacted_stays maxSize es :
  touches (in_dir dir) (writeCompacted dir maxSize es) ∧ yields (Forall inside) (writeCompacted dir maxSize es).
Proof.
  unfold writeCompacted. case_bool_decide; [split; [touch|by apply yields_ret]|].
  assert (in_dir dir (compact_temp dir 1)) as Hq by apply in_dir_join.
  assert (∀ r : list Segment * Segment, Forall inside r.1 ∧ inside r.2 →
    touches (in_dir dir) (let '(segs, current) := r in last ← seal_segment current; rebalance (segs ++ [last]) maxSize) ∧
    yields (Forall inside) (let '(segs, current) := r in last ← seal_segment current; rebalance (segs ++ [last]) maxSize)) as Hrest.
  { intros [segs cur] [Hs Hc]. simpl in *. destruct (seal_segment_stays cur Hc) as [S1 S2].
    assert (∀ l, inside l → Forall inside (segs ++ [l])) as Hl by (intros l Hl; apply Forall_app; split; [done|by repeat constructor]).
    split; [eapply touches_bind_yields; [done|exact S2|]|eapply yields_bind; [exact S2|]]; intros l Hin; by apply rebalance_stays, Hl. }
  split; [eapply touches_bind_yields; [eauto with files|by apply yields_open|]|eapply yields_bind; [by apply yields_open|]]; intros cur Hcur;
    destruct (write_entries_stays maxSize 2 [] cur es (Forall_nil_2 _) Hcur) as [W1 W2];
    [eapply touches_bind_yields; [done|exact W2|]|eapply yields_bind; [exact W2|]]; intros r Hr; by apply Hrest.
Qed.

Lemma touches_stat P q : touches P (stat q).
Proof. unfold stat. apply touches_bind; [apply touches_syscall|]. by intros _ w p _. Qed.

Lemma rename_temps_stays n temps : Forall inside temps →
  touches (in_dir dir) (rename_temps dir n temps) ∧ yields (Forall inside) (rename_temps dir n temps).
Proof.
  intros HF. revert n. induction HF as [|s temps Hs _ IH]; intros n; cbn [rename_temps]; [split; [touch|by apply yields_ret]|].
  destruct (IH (n + 1)%N) as [H1 H2]. assert (in_dir dir (segmentPath dir n)) as Hq by apply in_dir_segment. unfold inside in Hs. split.
  - apply touches_bind; [eauto with files|intros _]. apply touches_bind; [|intros size; apply touches_bind; [done|intros segs; touch]].
    intros w p Hp. pose proof (touches_stat (in_dir dir) (segmentPath dir n) w p Hp) as Ht. by destruct (stat _ w) as [[[|]|] ?].
  - apply yields_any. intros _. apply yields_any. intros size. eapply yields_bind; [exact H2|]. intros segs Hsegs. apply yields_ret. by constructor.
Qed.

Lemma touches_remove_each ps : Forall (in_dir dir) ps → touches (in_dir dir) (remove_each ps).
Proof. induction 1 as [|p ps Hp _ IH]; cbn [remove_each]; touch. Qed.

(** ** The pass *)
Context {ro : RangeOrder} {sha : Sha256}.

Definition plan_inside (p : plan) : Prop := Forall inside (pl_temps p) ∧ Forall (in_dir dir) (pl_removals p).

Lemma touches_count_stale P idx segs t st : touches P (count_stale idx segs t st).
Proof.
  revert t st. induction segs as [|s segs IH]; intros t st; cbn [count_stale]; [touch|]. intros w p Hp.
  pose proof (touches_ScanAll P s w p Hp) as Hs. destruct (ScanAll s w) as [[es|e] w']; simpl in Hs; rewrite IH; done.
Qed.
Lemma touches_isDirty P c segs : touches P (isDirty c segs).
Proof. unfold isDirty. apply touches_bind; [apply touches_count_stale|]. intros [t st]. touch. Qed.
Lemma touches_resolveEntries P segs : touches P (resolveEntries segs).
Proof.
  unfold resolveEntries. apply touches_bind; [|intros m; touch]. generalize (∅ : gmap N Entry).
  induction segs as [|s segs IH]; intros m; cbn [resolve_latest]; [touch|]. apply touches_bind; [touch|intros es; apply IH].
Qed.
Lemma touches_reencrypt P c es : touches P (reencryptForMigration c es).
Proof.
  unfold reencryptForMigration. destruct (c_enc c) as [enc|]; [|touch]. induction es as [|e es IH]; cbn [reencrypt_entries]; [touch|].
  apply touches_bind; [unfold reencrypt; touch|]. intros e'. apply touches_bind; [exact IH|intros; touch].
Qed.
#[local] Hint Resolve touches_isDirty touches_resolveEntries touches_reencrypt touches_Rebuild touches_index_Persist : files.

Lemma local_plan force : local dir (compact_plan force).
Proof.
  unfold compact_plan. apply local_obj. intros c [Hd Hs]. rewrite Hd. destruct (c_closeDone c); [apply local_ret|].
  case_bool_decide; [apply local_ret|]. apply local_bind; [destruct force; [apply local_ret|apply local_bind; [stay_home|intros; stay_home]]|].
  intros go. destruct (negb go); [apply local_ret|]. apply local_bind; [stay_home|intros es]. apply local_bind; [stay_home|intros es'].
  apply local_bind; [apply local_io, writeCompacted_stays|intros temps]. apply local_bind; [|intros _; apply local_ret].
  apply local_io. unfold writeCompactManifest. apply touches_writeFileAtomic; [apply in_dir_join|apply in_dir_app, in_dir_join].
Qed.

(** The files a plan names are those of the directory. *)
Lemma plan_stays force c w p s : at_home dir c → compact_plan force (c, w) = (Ok (Some p), s) → plan_inside p.
Proof.
  intros [Hd [_ Hs]%Forall_cons] E. unfold compact_plan in E. apply bind_inv_ok in E as (c0 & s0 & [= <- <-] & E). rewrite Hd in E.
  destruct (c_closeDone c); [done|]. case_bool_decide; [done|]. apply bind_inv_ok in E as (go & s1 & _ & E). destruct (negb go); [done|].
  apply bind_inv_ok in E as (es & s2 & _ & E). apply bind_inv_ok in E as (es' & [c3 w3] & _ & E).
  apply bind_inv_ok in E as (temps & s4 & E4 & E). apply bind_inv_ok in E as ([] & s5 & _ & E). injection E as <- _.
  unfold io in E4. destruct (writeCompacted dir _ es' w3) as [r w4] eqn:Ew. injection E4 as -> _. split; cbn [pl_temps pl_removals].
  - by eapply writeCompacted_stays.
  - apply Forall_forall. intros q (_ & Hq)%list_elem_of_filter. apply list_elem_of_fmap in Hq as (sg & -> & Hsg).
    rewrite Forall_forall in Hs. by apply Hs.
Qed.

Lemma local_set_sealed segs : Forall inside segs → local dir (modify (set_sealed segs)).
Proof. intros HF. apply local_modify. intros c [Hd [Ha _]%Forall_cons]. destruct c. split; [done|by constructor]. Qed.

Lemma local_swap p : plan_inside p → local dir (compact_swap p).
Proof.
  intros [Ht Hr]. unfold compact_swap. apply local_obj. intros c [Hd _]. rewrite Hd. destruct (rename_temps_stays 1 (pl_temps p) Ht) as [R1 R2].
  eapply local_bind_yields; [exact R1|exact R2|]. intros segs Hsegs. apply local_bind; [by apply local_io, touches_remove_each|intros _].
  apply local_bind; [by apply local_set_sealed|intros _]. stay_home.
Qed.

Lemma local_rebuild_sidxs segs l : local dir (rebuild_sidxs segs l).
Proof. induction l as [|[field s] l IH]; cbn [rebuild_sidxs]; unfold SecIndex.Persist; stay_home; exact IH. Qed.

Lemma touches_clear : touches (in_dir dir) (clearCompactManifest dir).
Proof.
  unfold clearCompactManifest. apply touches_bind; [|intros _; touch]. intros w p Hp. unfold remove_if_exists.
  pose proof (touches_remove (in_dir dir) (compactManifestPath dir) (in_dir_join _ _) w p Hp) as Hr. by destruct (remove_file _ w) as [[|[]] ?].
Qed.

Lemma local_compact force : local dir (compact force).
Proof.
  intros c w Hc. unfold compact, mbind, SE_bind. pose proof (local_plan force c w Hc) as [H1 H2].
  destruct (compact_plan force (c, w)) as [[[p|]|e] [c1 w1]] eqn:E; [|done|done]. simpl in *.
  assert (local dir (compact_swap p;; compact_finish)) as Hrest.
  { apply local_bind; [apply local_swap, (plan_stays _ _ _ _ _ Hc E)|intros _]. unfold compact_finish. apply local_obj. intros c2 [Hd _]. rewrite Hd.
    apply local_bind; [stay_home|intros _]. apply local_bind; [apply local_rebuild_sidxs|intros _]. apply local_io, touches_clear. }
  destruct (Hrest c1 w1 H1) as [H3 H4]. split; [exact H3|]. intros q Hq. etrans; [by apply H4|by apply H2].
Qed.

Lemma local_CompactNow : local dir CompactNow.
Proof.
  unfold CompactNow. apply local_obj. intros c _. destruct (c_closed c); [apply local_fail|].
  apply local_bind; [apply local_reapExpired|intros _; apply local_compact].
Qed.

(** ** Bulk loads *)
Lemma local_stage_inserts ts datas : local dir (stage_inserts ts datas).
Proof. induction datas as [|d datas IH]; cbn [stage_inserts]; unfold ReserveID, nextID; stay_home; exact IH. Qed.

Lemma local_LoadJSONL input ended keyField : local dir (LoadJSONL input ended keyField).
Proof.
  unfold LoadJSONL. apply local_bind; [destruct (bool_decide _); [apply local_ret|apply local_ensureKeyIndex]|intros _].
  apply local_bind; [apply local_lift|intros datas]. destruct (bool_decide _); [apply local_ret|]. apply local_bind; [stay_home|intros ts].
  apply local_bind; [apply local_stage_inserts|intros ops]. apply local_bind; [apply local_CommitTx|intros _; apply local_ret].
Qed.
End pass.
