(* ===== verification/Broker.v ===== *)
(** * The replication feed

    The broker of engine/replication.go: committed entries get the next sequence
    number, are kept in a bounded ring and offered to the subscribed followers; a
    follower resumes from a sequence number and gets what the ring still holds
    beyond it.  A run of the broker interleaves publications, subscriptions,
    departures and reads of the subscribers' channels in any order; the theorem
    states what each subscriber has received at every point of such a run. *)

From S2P Require Import Prelude GoTime GoJson Value Store Disk.

(** ** State *)
Definition DefaultReplicationRingSize : Z := 8192.

Record ReplicationEntry := MkReplEntry {
  re_LSN : N;
  re_Collection : string;
  re_Entry : Entry
}.

Definition zero_repl : ReplicationEntry := MkReplEntry 0 "" (MkEntry 0 (OpOther "") zero_time 0 None 0 0 None).

(** A subscriber: its channel with the buffered entries, oldest first, and
    whether it was killed. *)
Record replSub := MkReplSub {
  rs_id : N;
  rs_followerID : string;
  rs_cap : nat;
  rs_ch : list ReplicationEntry;
  rs_dead : bool;
  rs_connectedAt : Time;
  rs_sent : N
}.

Definition set_ch (ch : list ReplicationEntry) (s : replSub) : replSub :=
  MkReplSub (rs_id s) (rs_followerID s) (rs_cap s) ch (rs_dead s) (rs_connectedAt s) (rs_sent s).
Definition kill (s : replSub) : replSub :=
  MkReplSub (rs_id s) (rs_followerID s) (rs_cap s) (rs_ch s) true (rs_connectedAt s) (rs_sent s).
Definition NoteSent (lsn : N) (s : replSub) : replSub :=
  MkReplSub (rs_id s) (rs_followerID s) (rs_cap s) (rs_ch s) (rs_dead s) (rs_connectedAt s) lsn.

Record replicationBroker := MkBroker {
  b_lsn : N;
  b_ring : list ReplicationEntry;
  b_cap : nat;
  b_head : nat;
  b_size : nat;
  b_subBuf : nat;
  b_subs : gmap N replSub;
  b_subSeq : N
}.

Definition newReplicationBroker (ringSize subBuf : Z) : replicationBroker :=
  let ringSize := if (ringSize <=? 0)%Z then DefaultReplicationRingSize else ringSize in
  let subBuf := if (subBuf <=? 0)%Z then ringSize else subBuf in
  MkBroker 0 (replicate (Z.to_nat ringSize) zero_repl) (Z.to_nat ringSize) 0 0 (Z.to_nat subBuf) ∅ 0.

(** [b.ring[i]]; every index used is in range. *)
Definition ring_get (b : replicationBroker) (i : nat) : ReplicationEntry := default zero_repl (b_ring b !! i).

(** ** Operations *)
Definition oldest (b : replicationBroker) : N :=
  if b_size b =? 0 then u64_add (b_lsn b) 1 else re_LSN (ring_get b (b_head b)).

(** The ring with an entry recorded: a full ring overwrites its oldest entry. *)
Definition ring_put (re : ReplicationEntry) (b : replicationBroker) : replicationBroker :=
  let '(MkBroker lsn ring cap head size buf subs seq) := b in
  if size <? cap then MkBroker lsn (<[(head + size) mod cap := re]> ring) cap head (S size) buf subs seq
  else MkBroker lsn (<[head := re]> ring) cap ((head + 1) mod cap) size buf subs seq.

(** One subscriber's share of a publication. *)
Definition offer (re : ReplicationEntry) (s : replSub) : replSub :=
  if rs_dead s then s
  else if length (rs_ch s) <? rs_cap s then set_ch (rs_ch s ++ [re]) s
  else kill s.

Definition set_lsn (lsn : N) (b : replicationBroker) : replicationBroker :=
  let '(MkBroker _ ring cap head size buf subs seq) := b in MkBroker lsn ring cap head size buf subs seq.
Definition set_subs (subs : gmap N replSub) (b : replicationBroker) : replicationBroker :=
  let '(MkBroker lsn ring cap head size buf _ seq) := b in MkBroker lsn ring cap head size buf subs seq.
Definition set_subSeq (seq : N) (b : replicationBroker) : replicationBroker :=
  let '(MkBroker lsn ring cap head size buf subs _) := b in MkBroker lsn ring cap head size buf subs seq.

Definition publish (collection : string) (e : Entry) (b : replicationBroker) : N * replicationBroker :=
  let lsn := u64_add (b_lsn b) 1 in
  let re := MkReplEntry lsn collection e in
  let b := ring_put re (set_lsn lsn b) in
  (lsn, set_subs (offer re <$> b_subs b) b).

(** The retained entries, oldest first. *)
Definition ring_entries (b : replicationBroker) : list ReplicationEntry :=
  (λ i, ring_get b ((b_head b + i) mod b_cap b)) <$> seq 0 (b_size b).

Definition subscribe (now : Time) (fromLSN : N) (followerID : string) (b : replicationBroker)
    : option (replSub * list ReplicationEntry) * replicationBroker :=
  if (u64_add fromLSN 1 <? oldest b)%N then (None, b)
  else
    let backlog := filter (λ re, (fromLSN < re_LSN re)%N) (ring_entries b) in
    let id := u64_add (b_subSeq b) 1 in
    let sub := MkReplSub id followerID (b_subBuf b) [] false now fromLSN in
    (Some (sub, backlog), set_subs (<[id := sub]> (b_subs b)) (set_subSeq id b)).

Definition unsubscribe (id : N) (b : replicationBroker) : replicationBroker := set_subs (delete id (b_subs b)) b.

Definition setLSN (lsn : N) (b : replicationBroker) : replicationBroker :=
  if (b_lsn b <? lsn)%N then set_lsn lsn b else b.

Record FollowerStatusData := MkFollowerStatus {
  fs_FollowerID : string;
  fs_AckedLSN : N;
  fs_Lag : N;
  fs_ConnectedAt : Time
}.
Record ReplicationStatusData := MkReplStatus { rd_LeaderLSN : N; rd_Followers : list FollowerStatusData }.

Definition status (b : replicationBroker) : ReplicationStatusData :=
  MkReplStatus (b_lsn b) ((λ s : N * replSub,
    let sent := rs_sent s.2 in
    let lag := if (sent <? b_lsn b)%N then (b_lsn b - sent)%N else 0%N in
    MkFollowerStatus (rs_followerID s.2) sent lag (rs_connectedAt s.2)) <$> map_to_list (b_subs b)).

(** The server takes the next entry of a subscription and notes it as shipped
    (the receive case of [Replicate] with [sendReplRecord]). *)
Definition take_entry (id : N) (b : replicationBroker) : option ReplicationEntry * replicationBroker :=
  match b_subs b !! id with
  | Some s =>
      match rs_ch s with
      | re :: ch => (Some re, set_subs (<[id := NoteSent (re_LSN re) (set_ch ch s)]> (b_subs b)) b)
      | [] => (None, b)
      end
  | None => (None, b)
  end.

(** ** The ring *)
Record ring_ok (b : replicationBroker) : Prop := {
  ro_cap : 0 < b_cap b;
  ro_length : length (b_ring b) = b_cap b;
  ro_head : b_head b < b_cap b;
  ro_size : b_size b ≤ b_cap b
}.

Lemma ring_index h i c : h < c → i < c → (h + i) mod c = if h + i <? c then h + i else h + i - c.
Proof.
  intros Hh Hi. destruct (Nat.ltb_spec (h + i) c); [by apply Nat.mod_small|].
  symmetry. apply (Nat.mod_unique _ _ 1); lia.
Qed.

Lemma ring_entries_lookup b i :
  i < b_size b → ring_entries b !! i = Some (ring_get b ((b_head b + i) mod b_cap b)).
Proof. intros Hi. unfold ring_entries. by rewrite list_lookup_fmap, lookup_seq_lt. Qed.

Lemma length_ring_entries b : length (ring_entries b) = b_size b.
Proof. unfold ring_entries. by rewrite length_fmap, length_seq. Qed.

Lemma ring_put_ok re b : ring_ok b → ring_ok (ring_put re b).
Proof.
  intros [H1 H2 H3 H4]. destruct b as [lsn ring cap head size buf subs seq]. simpl in *.
  destruct (Nat.ltb_spec size cap); split; simpl; rewrite ?length_insert; try done; try lia.
  apply Nat.mod_upper_bound. lia.
Qed.

Lemma ring_put_entries re b :
  ring_ok b →
  ring_entries (ring_put re b) =
    (if b_size b <? b_cap b then ring_entries b else drop 1 (ring_entries b)) ++ [re].
Proof.
  intros [H1 H2 H3 H4]. apply list_eq_same_length with (S (if b_size b <? b_cap b then b_size b else b_size b - 1)).
  - rewrite length_app. destruct (b_size b <? b_cap b); rewrite ?length_drop, length_ring_entries; simpl; lia.
  - rewrite length_ring_entries. destruct b as [lsn ring cap head size buf subs seq]. simpl in *.
    destruct (Nat.ltb_spec size cap); simpl; lia.
  - intros i x y Hi Hx Hy. destruct b as [lsn ring cap head size buf subs seq]. cbn [ring_put b_size b_cap] in *.
    destruct (Nat.ltb_spec size cap) as [Hlt|Hge].
    + rewrite ring_entries_lookup in Hx by done. unfold ring_get in Hx. cbn [b_ring b_head b_cap] in *.
      destruct (decide (i = size)) as [->|Hne].
      * rewrite list_lookup_insert_eq in Hx by (rewrite H2; apply Nat.mod_upper_bound; lia).
        rewrite lookup_app_r in Hy by (by rewrite length_ring_entries). rewrite length_ring_entries, Nat.sub_diag in Hy. simpl in *. congruence.
      * rewrite list_lookup_insert_ne in Hx.
        2:{ rewrite !ring_index by lia. destruct (Nat.ltb_spec (head + size) cap), (Nat.ltb_spec (head + i) cap); lia. }
        rewrite lookup_app_l, ring_entries_lookup in Hy by (rewrite ?length_ring_entries; simpl; lia). unfold ring_get in Hy. simpl in *. congruence.
    + assert (size = cap) as -> by lia. rewrite ring_entries_lookup in Hx by (simpl; lia). unfold ring_get in Hx. cbn [b_ring b_head b_cap] in *.
      assert (((head + 1) mod cap + i) mod cap = (head + S i) mod cap) as E.
      { rewrite Nat.Div0.add_mod_idemp_l. f_equal. lia. }
      rewrite E in Hx. destruct (decide (i = cap - 1)) as [->|Hne].
      * replace (head + S (cap - 1)) with (head + 1 * cap) in Hx by lia. rewrite Nat.Div0.mod_add, Nat.mod_small in Hx by lia.
        rewrite list_lookup_insert_eq in Hx by lia.
        rewrite lookup_app_r in Hy by (rewrite length_drop, length_ring_entries; simpl; lia).
        rewrite length_drop, length_ring_entries in Hy. cbn [b_size] in Hy. rewrite Nat.sub_diag in Hy. simpl in *. congruence.
      * rewrite list_lookup_insert_ne in Hx.
        2:{ rewrite ring_index by lia. destruct (Nat.ltb_spec (head + S i) cap); lia. }
        rewrite lookup_app_l, lookup_drop, ring_entries_lookup in Hy by (rewrite ?length_drop, ?length_ring_entries; simpl; lia).
        unfold ring_get in Hy. simpl in *. congruence.
Qed.

(** ** Runs of the broker *)

(** The published history with its sequence numbers, from [base] on. *)
Definition stamped (base : N) (hist : list (string * Entry)) : list ReplicationEntry :=
  imap (λ i ne, MkReplEntry (base + N.of_nat i + 1) ne.1 ne.2) hist.

(** A broker, everything published since it was started, and for every
    subscription the position it started from and what was taken from it: the
    backlog, then the entries of its channel. *)
Record feed := MkFeed {
  fd_broker : replicationBroker;
  fd_history : list (string * Entry);
  fd_received : gmap N (N * list ReplicationEntry)
}.

Definition feed_start (ringSize subBuf : Z) (base : N) : feed :=
  MkFeed (setLSN base (newReplicationBroker ringSize subBuf)) [] ∅.

(** Steps in any order; the 64-bit counters are not exhausted. *)
Inductive feed_step : feed → feed → Prop :=
  | step_publish b h r name e :
      (b_lsn b + 2 < 2 ^ 64)%N →
      feed_step (MkFeed b h r) (MkFeed (publish name e b).2 (h ++ [(name, e)]) r)
  | step_subscribe b h r now from fid sub backlog b' :
      (b_subSeq b + 1 < 2 ^ 64)%N → subscribe now from fid b = (Some (sub, backlog), b') →
      feed_step (MkFeed b h r) (MkFeed b' h (<[rs_id sub := (N.min from (b_lsn b), backlog)]> r))
  | step_take b h r id start got re b' :
      r !! id = Some (start, got) → take_entry id b = (Some re, b') →
      feed_step (MkFeed b h r) (MkFeed b' h (<[id := (start, got ++ [re])]> r))
  | step_unsubscribe b h r id :
      feed_step (MkFeed b h r) (MkFeed (unsubscribe id b) h (delete id r)).

(** What a subscriber has taken or can still take is the history past its start,
    without a gap; a killed one has a prefix of it. *)
Definition sub_ok (base : N) (h : list (string * Entry)) (r : gmap N (N * list ReplicationEntry)) (id : N) (s : replSub) : Prop :=
  ∃ start got, r !! id = Some (start, got) ∧ (base ≤ start ≤ base + N.of_nat (length h))%N ∧
    let rest := drop (N.to_nat (start - base)) (stamped base h) in
    if rs_dead s then (got ++ rs_ch s) `prefix_of` rest else got ++ rs_ch s = rest.

Record feed_inv (base : N) (f : feed) : Prop := {
  fi_ring : ring_ok (fd_broker f);
  fi_lsn : b_lsn (fd_broker f) = (base + N.of_nat (length (fd_history f)))%N;
  fi_bound : (b_lsn (fd_broker f) + 1 < 2 ^ 64)%N;
  fi_size : b_size (fd_broker f) = Nat.min (b_cap (fd_broker f)) (length (fd_history f));
  fi_entries : ring_entries (fd_broker f) =
    drop (length (fd_history f) - b_size (fd_broker f)) (stamped base (fd_history f));
  fi_ids : ∀ id s, b_subs (fd_broker f) !! id = Some s → (id ≤ b_subSeq (fd_broker f))%N;
  fi_subs : ∀ id s, b_subs (fd_broker f) !! id = Some s → sub_ok base (fd_history f) (fd_received f) id s
}.

Lemma length_stamped base h : length (stamped base h) = length h.
Proof. apply length_imap. Qed.

Lemma stamped_snoc base h name e :
  stamped base (h ++ [(name, e)]) = stamped base h ++ [MkReplEntry (base + N.of_nat (length h) + 1) name e].
Proof. unfold stamped. rewrite imap_app. simpl. by rewrite Nat.add_0_r. Qed.

Lemma stamped_lookup base h i re :
  stamped base h !! i = Some re → re_LSN re = (base + N.of_nat i + 1)%N.
Proof. unfold stamped. rewrite list_lookup_imap. destruct (h !! i); [|done]. by intros [= <-]. Qed.

(** The entries past a position are a suffix. *)
Lemma stamped_past base h k from :
  (base ≤ from)%N → k ≤ N.to_nat (from - base) →
  filter (λ re, (from < re_LSN re)%N) (drop k (stamped base h)) = drop (N.to_nat (from - base)) (stamped base h).
Proof.
  intros Hb Hk. set (n := N.to_nat (from - base)) in *.
  assert (drop k (stamped base h) = take (n - k) (drop k (stamped base h)) ++ drop n (stamped base h)) as ->.
  { rewrite <-(take_drop (n - k) (drop k (stamped base h))) at 1. rewrite drop_drop. do 2 f_equal. lia. }
  rewrite filter_app. assert (filter (λ re, (from < re_LSN re)%N) (take (n - k) (drop k (stamped base h))) = []) as ->.
  { apply filter_none. apply Forall_lookup. intros i re Hi.
    apply lookup_take_Some in Hi as [Hi Hl]. rewrite lookup_drop in Hi. apply stamped_lookup in Hi. lia. }
  simpl. apply filter_all. apply Forall_lookup. intros i re Hi. rewrite lookup_drop in Hi. apply stamped_lookup in Hi. lia.
Qed.

(** *** Each step keeps the invariant *)
Lemma feed_start_inv ringSize subBuf base : (base + 1 < 2 ^ 64)%N → feed_inv base (feed_start ringSize subBuf base).
Proof.
  intros Hb. set (ring := if (ringSize <=? 0)%Z then DefaultReplicationRingSize else ringSize).
  assert (0 < Z.to_nat ring) as Hcap.
  { unfold ring, DefaultReplicationRingSize. destruct (Z.leb_spec ringSize 0); lia. }
  assert (fd_broker (feed_start ringSize subBuf base) =
    set_lsn base (newReplicationBroker ringSize subBuf)) as Hf.
  { unfold feed_start, setLSN. simpl. destruct (N.ltb_spec 0 base); [done|]. assert (base = 0%N) as -> by lia. done. }
  split; rewrite ?Hf; unfold newReplicationBroker; fold ring; simpl; try done; try lia.
  split; simpl; rewrite ?length_replicate; lia.
Qed.

Lemma publish_eq name e b :
  (b_lsn b + 1 < 2 ^ 64)%N → ring_ok b →
  let re := MkReplEntry (b_lsn b + 1) name e in
  let b' := (publish name e b).2 in
  ring_ok b' ∧ b_lsn b' = (b_lsn b + 1)%N ∧ b_cap b' = b_cap b ∧ b_subSeq b' = b_subSeq b ∧
  b_size b' = (if b_size b <? b_cap b then S (b_size b) else b_size b) ∧
  ring_entries b' = (if b_size b <? b_cap b then ring_entries b else drop 1 (ring_entries b)) ++ [re] ∧
  b_subs b' = offer re <$> b_subs b.
Proof.
  intros Hl Hr re b'. assert (u64_add (b_lsn b) 1 = (b_lsn b + 1)%N) as Hw by (by apply wrap64_small).
  unfold b', publish. rewrite Hw. cbn [snd]. fold re.
  assert (ring_ok (set_lsn (b_lsn b + 1) b)) as Hr1 by (destruct b, Hr; by split).
  pose proof (ring_put_ok re _ Hr1) as Hr2. pose proof (ring_put_entries re _ Hr1) as He.
  assert (ring_entries (set_lsn (b_lsn b + 1) b) = ring_entries b) as Hs by (by destruct b). rewrite Hs in He.
  destruct b as [lsn ring cap head size buf subs seq]. cbn [set_lsn b_size b_cap b_lsn b_subSeq b_subs ring_put] in *.
  destruct (size <? cap); (split; [destruct Hr2; by split|split_and!; [done..| |done]]; exact He).
Qed.

Lemma publish_inv base b h r name e :
  (b_lsn b + 2 < 2 ^ 64)%N → feed_inv base (MkFeed b h r) →
  feed_inv base (MkFeed (publish name e b).2 (h ++ [(name, e)]) r).
Proof.
  intros Hl [F1 F2 F3 F4 F5 F6 F7]. cbn [fd_broker fd_history fd_received] in *.
  destruct (publish_eq name e b F3 F1) as (P1 & P2 & P3 & P4 & P5 & P6 & P7). set (b' := (publish name e b).2) in *.
  split; cbn [fd_broker fd_history fd_received]; rewrite ?length_app; cbn [length]; try done.
  - rewrite P2. lia.
  - rewrite P2. lia.
  - rewrite P3, P5. destruct (Nat.ltb_spec (b_size b) (b_cap b)); lia.
  - rewrite P6, P5, stamped_snoc, F5, F2. destruct (Nat.ltb_spec (b_size b) (b_cap b)).
    + rewrite drop_app_le by (rewrite length_stamped; lia). do 2 f_equal. lia.
    + rewrite drop_drop, drop_app_le by (rewrite length_stamped; destruct F1; lia). do 2 f_equal. destruct F1. lia.
  - rewrite P4, P7. intros id s (s' & <- & Hs)%lookup_fmap_Some. by apply (F6 id s').
  - rewrite P7. intros id s (s' & <- & Hs)%lookup_fmap_Some. destruct (F7 id s' Hs) as (start & got & Hg & Hst & Hrest).
    exists start, got. split; [done|]. rewrite length_app. split; [simpl; lia|]. cbv zeta in *.
    rewrite stamped_snoc, drop_app_le by (rewrite length_stamped; lia). rewrite <-F2.
    unfold offer. destruct (rs_dead s') eqn:Hd; [rewrite Hd; by apply prefix_app_r|].
    destruct (length (rs_ch s') <? rs_cap s'); cbn [set_ch kill rs_dead rs_ch].
    + rewrite Hd, app_assoc, Hrest. done.
    + rewrite Hrest. by apply prefix_app_r.
Qed.

Lemma oldest_eq base b h r :
  feed_inv base (MkFeed b h r) →
  oldest b = (base + N.of_nat (length h - b_size b) + 1)%N.
Proof.
  intros [F1 F2 F3 F4 F5 F6 F7]. simpl in *. unfold oldest. destruct (Nat.eqb_spec (b_size b) 0) as [E|E].
  - unfold u64_add. rewrite wrap64_small by done. rewrite F2, E. f_equal. f_equal. lia.
  - assert (ring_entries b !! 0 = Some (ring_get b (b_head b))) as H0.
    { rewrite ring_entries_lookup by lia. rewrite Nat.add_0_r, Nat.mod_small by apply F1. done. }
    rewrite F5, lookup_drop in H0. apply stamped_lookup in H0. rewrite H0. lia.
Qed.

(** What a subscription is told, and when it is refused. *)
Lemma subscribe_spec base b h r now from fid :
  feed_inv base (MkFeed b h r) →
  match (subscribe now from fid b).1 with
  | Some (_, backlog) => (base + N.of_nat (length h - b_size b) ≤ from)%N ∧
      backlog = drop (N.to_nat (N.min from (b_lsn b) - base)) (stamped base h)
  | None => ((from + 1) mod 2 ^ 64 ≤ base + N.of_nat (length h - b_size b))%N
  end.
Proof.
  intros Hf. pose proof (oldest_eq _ _ _ _ Hf) as Ho. destruct Hf as [F1 F2 F3 F4 F5 F6 F7]. simpl in F1, F2, F3, F4, F5.
  unfold subscribe. rewrite Ho. unfold u64_add, wrap64.
  pose proof (N.Div0.mod_le (from + 1) (2 ^ 64)) as Hle.
  destruct (N.ltb_spec ((from + 1) mod 2 ^ 64) (base + N.of_nat (length h - b_size b) + 1)) as [Hlt|Hge]; cbn [fst]; [lia|].
  split; [lia|]. rewrite F5, stamped_past by lia. destruct (N.le_gt_cases from (b_lsn b)).
  - do 2 f_equal. lia.
  - rewrite !drop_ge by (rewrite length_stamped; lia). done.
Qed.

Lemma subscribe_inv base b h r now from fid sub backlog b' :
  (b_subSeq b + 1 < 2 ^ 64)%N → subscribe now from fid b = (Some (sub, backlog), b') →
  feed_inv base (MkFeed b h r) →
  feed_inv base (MkFeed b' h (<[rs_id sub := (N.min from (b_lsn b), backlog)]> r)).
Proof.
  intros Hseq Hsub Hf. pose proof (subscribe_spec base b h r now from fid Hf) as Hs. rewrite Hsub in Hs.
  destruct Hs as [Hfrom Hb]. destruct Hf as [F1 F2 F3 F4 F5 F6 F7]. simpl in F1, F2, F3, F4, F5, F6, F7.
  unfold subscribe in Hsub. destruct (_ <? _)%N; [done|]. injection Hsub as <- _ <-.
  assert (u64_add (b_subSeq b) 1 = (b_subSeq b + 1)%N) as -> by (by apply wrap64_small). cbn [rs_id].
  destruct b as [lsn ring cap head size buf subs seq]. simpl in *.
  split; simpl; [by destruct F1; split|done..| |].
  - intros id s [[<- _]|[_ Hs]]%lookup_insert_Some; [lia|]. specialize (F6 id s Hs). lia.
  - intros id s [[<- <-]|[Hne Hs]]%lookup_insert_Some.
    + eexists _, _. rewrite lookup_insert_eq. split; [done|]. split; [lia|]. simpl. by rewrite app_nil_r.
    + destruct (F7 id s Hs) as (start & got & Hg & Hr). exists start, got. by rewrite lookup_insert_ne.
Qed.

Lemma take_inv base b h r id start got re b' :
  r !! id = Some (start, got) → take_entry id b = (Some re, b') →
  feed_inv base (MkFeed b h r) → feed_inv base (MkFeed b' h (<[id := (start, got ++ [re])]> r)).
Proof.
  intros Hr Htake [F1 F2 F3 F4 F5 F6 F7]. simpl in F1, F2, F3, F4, F5, F6, F7. unfold take_entry in Htake.
  destruct (b_subs b !! id) as [s|] eqn:Hs; [|done]. destruct (rs_ch s) as [|re' ch] eqn:Hch; [done|].
  injection Htake as <- <-. destruct b as [lsn ring cap head size buf subs seq]. simpl in *.
  split; simpl; [by destruct F1; split|done..| |].
  - intros id' s' [[<- _]|[_ Hs']]%lookup_insert_Some; by eapply F6.
  - intros id' s' [[<- <-]|[Hne Hs']]%lookup_insert_Some.
    + destruct (F7 id s Hs) as (start' & got' & Hg & Hst & Hrest). rewrite Hr in Hg. injection Hg as <- <-.
      exists start, (got ++ [re']). rewrite lookup_insert_eq. split; [done|]. split; [done|].
      rewrite Hch in Hrest. simpl. by rewrite <-app_assoc.
    + destruct (F7 id' s' Hs') as (start' & got' & Hg & Hrest). exists start', got'. by rewrite lookup_insert_ne.
Qed.

Lemma unsubscribe_inv base b h r id :
  feed_inv base (MkFeed b h r) → feed_inv base (MkFeed (unsubscribe id b) h (delete id r)).
Proof.
  intros [F1 F2 F3 F4 F5 F6 F7]. destruct b as [lsn ring cap head size buf subs seq]. simpl in *.
  split; simpl; [by destruct F1; split|done..| |]; intros id' s' [Hne Hs']%lookup_delete_Some.
  - by eapply F6.
  - destruct (F7 id' s' Hs') as (start' & got' & Hg & Hrest). exists start', got'. by rewrite lookup_delete_ne.
Qed.

Lemma feed_run_inv base f f' : feed_inv base f → rtc feed_step f f' → feed_inv base f'.
Proof.
  intros Hf Hrun. induction Hrun as [|f1 f2 f3 Hstep _ IH]; [done|]. apply IH.
  destruct Hstep; eauto using publish_inv, subscribe_inv, take_inv, unsubscribe_inv.
Qed.

(** ** Properties *)

(** [C6] The feed has no silent gaps: at every point of every interleaving of
    publications, subscriptions, departures and reads, what a live subscriber has
    taken and has buffered is exactly the published history past its starting
    point, with consecutive sequence numbers; a subscriber whose channel
    overflowed is marked dead and has a prefix of it.  A follower that resumes
    within the history is refused only when the ring no longer holds an entry it
    needs, and is otherwise handed every entry past its position. *)
Theorem feed_gap_free (ringSize subBuf : Z) (base : N) (f : feed) :
  (base + 1 < 2 ^ 64)%N → rtc feed_step (feed_start ringSize subBuf base) f →
  let b := fd_broker f in
  let all := stamped base (fd_history f) in
  (∀ id s, b_subs b !! id = Some s → ∃ start got, fd_received f !! id = Some (start, got) ∧
    let rest := drop (N.to_nat (start - base)) all in
    if rs_dead s then (got ++ rs_ch s) `prefix_of` rest else got ++ rs_ch s = rest) ∧
  (∀ now from fid, (base ≤ from ≤ b_lsn b)%N →
    match (subscribe now from fid b).1 with
    | Some (_, backlog) => backlog = drop (N.to_nat (from - base)) all
    | None => ∃ re, re ∈ all ∧ (from < re_LSN re)%N ∧ re ∉ ring_entries b
    end).
Proof.
  intros Hb Hrun. pose proof (feed_run_inv base _ _ (feed_start_inv ringSize subBuf base Hb) Hrun) as Hf.
  destruct f as [b h r]. cbn [fd_broker fd_history fd_received]. split.
  - intros id s Hs. destruct (fi_subs _ _ Hf id s Hs) as (start & got & Hg & _ & Hrest). by exists start, got.
  - intros now from fid Hfrom. pose proof (subscribe_spec base b h r now from fid Hf) as Hs.
    destruct (subscribe now from fid b).1 as [[sub backlog]|].
    { destruct Hs as [_ ->]. by rewrite N.min_l by lia. }
    destruct Hf as [F1 F2 F3 F4 F5 _ _]. cbn [fd_broker fd_history fd_received] in *. rewrite N.mod_small in Hs by lia.
    destruct (lookup_lt_is_Some_2 (stamped base h) (N.to_nat (from - base))) as [re Hre]; [rewrite length_stamped; lia|].
    exists re. pose proof (stamped_lookup _ _ _ _ Hre) as Hl. split_and!; [by eapply list_elem_of_lookup_2|lia|].
    rewrite F5. intros (i & Hi)%list_elem_of_lookup_1. rewrite lookup_drop in Hi. apply stamped_lookup in Hi. lia.
Qed.

(** A follower joins, two records are published, it reads the first. *)
Definition demo_write (id : N) : Entry := MkEntry id OpInsert 0 1 None 0 0 None.
Definition feed_0 : feed := feed_start 2 1 0.
Definition feed_1 : feed := MkFeed (subscribe 0 0 "f" (fd_broker feed_0)).2 [] {[1%N := (0%N, [])]}.
Definition feed_2 : feed := MkFeed (publish "u" (demo_write 1) (fd_broker feed_1)).2 [("u", demo_write 1)] (fd_received feed_1).
Definition feed_3 : feed :=
  MkFeed (take_entry 1 (fd_broker feed_2)).2 (fd_history feed_2) {[1%N := (0%N, [MkReplEntry 1 "u" (demo_write 1)])]}.
Definition feed_4 : feed :=
  MkFeed (publish "u" (demo_write 2) (fd_broker feed_3)).2 (fd_history feed_3 ++ [("u", demo_write 2)]) (fd_received feed_3).

Lemma feed_4_run : rtc feed_step feed_0 feed_4.
Proof.
  apply rtc_l with feed_1.
  { apply (step_subscribe (fd_broker feed_0) [] ∅ 0 0 "f" (MkReplSub 1 "f" 1 [] false 0 0) []); vm_compute; reflexivity. }
  apply rtc_l with feed_2; [apply (step_publish (fd_broker feed_1) []); vm_compute; reflexivity|].
  apply rtc_l with feed_3.
  { apply (step_take (fd_broker feed_2) (fd_history feed_2) (fd_received feed_2) 1 0 [] (MkReplEntry 1 "u" (demo_write 1))); vm_compute; reflexivity. }
  apply rtc_once. apply (step_publish (fd_broker feed_3)). vm_compute. reflexivity.
Qed.

Lemma feed_gap_free_witness :
  (∀ id s, b_subs (fd_broker feed_4) !! id = Some s → ∃ start got, fd_received feed_4 !! id = Some (start, got) ∧
    let rest := drop (N.to_nat (start - 0)) (stamped 0 (fd_history feed_4)) in
    if rs_dead s then (got ++ rs_ch s) `prefix_of` rest else got ++ rs_ch s = rest) ∧
  (subscribe 0 1 "g" (fd_broker feed_4)).1 =
    Some (MkReplSub 2 "g" 1 [] false 0 1, [MkReplEntry 2 "u" (demo_write 2)]).
Proof.
  split; [|vm_compute; reflexivity].
  exact (proj1 (feed_gap_free 2 1 0 feed_4 ltac:(done) feed_4_run)).
Defined.
