(* ===== verification/Replica.v ===== *)
(** * Applying the leader's feed

    The collection half of replication (engine/replication.go): [applyEntry]
    writes a replicated entry as it stands and skips one whose effect is already
    there; the conversion of entries to wire records and back (server/grpc.go).
    The lemmas: what a leader publishes is a history in which every write raises
    the revision of its record and no id is written after its deletion
    ([leader_op]); applying an entry does to the collection's table what
    [apply_table] says ([applyEntry_spec]); applying such a history in order to the
    records of any moment at or past its start ends with the leader's records
    ([catch_up_snapshot]). *)

From S2P Require Import Prelude GoFloat GoTime GoJson Value Query Store Disk Segment Index SecIndex Meta Collection Steps CollectionSpec TopK Scan ScanSpec IndexInv Open OpenSpec Compactor CompactorSpec Broker.

(** ** The wire form

    The protocol-buffer library: well-known structures, values and timestamps. *)
Class Protobuf := {
  pstruct : Type;
  NewStruct : doc → result pstruct;
  AsMap : pstruct → doc;
  pvalue : Type;
  NewValue : any → result pvalue;
  NewNullValue : pvalue;
  ptimestamp : Type;
  NewTimestamp : Time → ptimestamp;
  AsTime : ptimestamp → Time
}.

(** A structure holds JSON values, its numbers are doubles; a timestamp holds any
    instant. *)
Class ProtobufLaws `{!Protobuf} := {
  AsMap_NewStruct d : wf_doc d → ∃ s, NewStruct d = Ok s ∧ AsMap s = norm_doc d;
  AsTime_NewTimestamp t : AsTime (NewTimestamp t) = t
}.

Inductive ReplicationOp := REP_INSERT | REP_UPDATE | REP_DELETE | REPLICATION_OP_UNSPECIFIED.

Section wire.
Context `{!Protobuf}.

Record ReplicationRecord := MkReplRecord {
  rr_Lsn : N;
  rr_Collection : string;
  rr_Op : ReplicationOp;
  rr_Id : N;
  rr_Rev : N;
  rr_ExpiresAt : Z;
  rr_Ts : ptimestamp;
  rr_Data : option pstruct
}.

Definition replOpToProto (op : EntryOp) : ReplicationOp :=
  match op with
  | OpInsert => REP_INSERT
  | OpUpdate => REP_UPDATE
  | OpDelete => REP_DELETE
  | OpOther _ => REPLICATION_OP_UNSPECIFIED
  end.

Definition replOpFromProto (op : ReplicationOp) : EntryOp :=
  match op with
  | REP_INSERT => OpInsert
  | REP_UPDATE => OpUpdate
  | REP_DELETE => OpDelete
  | REPLICATION_OP_UNSPECIFIED => OpOther ""
  end.

Definition replEntryToProto (re : ReplicationEntry) : result ReplicationRecord :=
  let e := re_Entry re in
  data ← (match e_Data e with None => Ok None | Some d => Some <$> NewStruct d end);
  Ok (MkReplRecord (re_LSN re) (re_Collection re) (replOpToProto (e_Op e)) (e_ID e) (e_Rev e) (e_ExpiresAt e)
    (NewTimestamp (e_Ts e)) data).

Definition replRecordToEntry (r : ReplicationRecord) : Entry :=
  MkEntry (rr_Id r) (replOpFromProto (rr_Op r)) (AsTime (rr_Ts r)) (rr_Rev r) (AsMap <$> rr_Data r) 0 (rr_ExpiresAt r) None.
End wire.

(** [col.broker = db.broker]: whether the collection's writes are published. *)
Definition set_broker (x : bool) (c : Collection) : Collection :=
  let '(MkColl a b d e f g h i j k l m n o _ p q r s) := c in MkColl a b d e f g h i j k l m n o x p q r s.

(** ** Applying an entry *)
Section apply.
Context {sha : Sha256}.

(** The id counter stays ahead of every applied id. *)
Definition raise_idSeq (id : N) (c : Collection) : Collection := if (c_idSeq c <? id)%N then set_idSeq id c else c.

(** The common end. *)
Definition apply_tail (e : Entry) (data : option doc) : CM unit :=
  modify (raise_idSeq (e_ID e));;
  syncActiveLocked;;
  maybeRotate;;
  emit (MkWatchEvent (e_Op e) (e_ID e) data (e_Ts e)).

(** A write, unless the record is already at this revision or a newer one. *)
Definition apply_write (e : Entry) (cur : option IndexEntry) : CM unit :=
  if match cur with Some loc => (e_Rev e <=? ie_Rev loc)%N | None => false end then mret tt
  else
    index_write e;;
    modify (match cur with
      | Some _ => sidxUpdateEntry (e_ID e) (e_Data e)
      | None => sidxIndexEntry (e_ID e) (e_Data e)
      end);;
    apply_tail e (e_Data e).

Definition applyEntry (e : Entry) : CM unit :=
  (if sets_key (e_Data e) then ensureKeyIndex else mret tt);;
  c ← obj;
  let cur := Get (c_index c) (e_ID e) in
  match e_Op e with
  | OpDelete =>
      match cur with
      | None => mret tt
      | Some _ =>
          with_active (Append e);;
          modify (λ c, sidxRemoveEntry (e_ID e) (set_index (Delete_ (c_index c) (e_ID e)) c));;
          apply_tail e None
      end
  | OpInsert | OpUpdate => apply_write e cur
  | OpOther _ => fail ErrOther
  end.
End apply.

(** ** Histories *)

(** What an entry does to the leader's table. *)
Definition rec_of (e : Entry) : arec := ARec (e_Rev e) (e_Ts e) (norm_doc <$> e_Data e) (e_ExpiresAt e) (e_Epoch e).

Definition commit (t : table) (e : Entry) : table :=
  match e_Op e with
  | OpInsert | OpUpdate => <[e_ID e := rec_of e]> t
  | OpDelete => delete (e_ID e) t
  | OpOther _ => t
  end.

(** What it does to a follower's. *)
Definition apply_table (t : table) (e : Entry) : table :=
  match e_Op e with
  | OpInsert | OpUpdate =>
      if match t !! e_ID e with Some a => (e_Rev e <=? a_rev a)%N | None => false end then t
      else <[e_ID e := rec_of e]> t
  | OpDelete => delete (e_ID e) t
  | OpOther _ => t
  end.

(** An entry that continues a history: an insert has a new id, an update raises
    the revision of a present record, a delete removes a present one. *)
Definition extends (t : table) (seen : gset N) (e : Entry) : Prop :=
  match e_Op e with
  | OpInsert => (e_ID e ∉ seen) ∧ t !! e_ID e = None ∧ (1 ≤ e_Rev e)%N
  | OpUpdate => e_ID e ∈ seen ∧ ∃ a, t !! e_ID e = Some a ∧ (a_rev a < e_Rev e)%N
  | OpDelete => e_ID e ∈ seen ∧ is_Some (t !! e_ID e)
  | OpOther _ => False
  end.

Fixpoint history (t : table) (seen : gset N) (h : list Entry) : Prop :=
  match h with [] => True | e :: h => extends t seen e ∧ history (commit t e) (({[e_ID e]} : gset N) ∪ seen) h end.

Lemma history_app t seen h1 h2 :
  history t seen (h1 ++ h2) ↔
    history t seen h1 ∧ history (foldl commit t h1) (list_to_set (e_ID <$> h1) ∪ seen) h2.
Proof.
  revert t seen. induction h1 as [|e h1 IH]; intros t seen; cbn [app foldl fmap list_fmap list_to_set history].
  - assert (∅ ∪ seen = seen) as -> by set_solver. tauto.
  - rewrite IH. assert (list_to_set (e_ID <$> h1) ∪ ({[e_ID e]} ∪ seen) = {[e_ID e]} ∪ list_to_set (e_ID <$> h1) ∪ seen) as -> by set_solver.
    tauto.
Qed.

(** A deleted id stays deleted, and revisions only grow. *)
Lemma history_dead t seen h id : history t seen h → id ∈ seen → t !! id = None → foldl commit t h !! id = None.
Proof.
  revert t seen. induction h as [|e h IH]; intros t seen; [done|]. intros [He Hh] Hs Ht. simpl.
  apply (IH _ _ Hh); [set_solver|]. unfold commit, extends in *.
  destruct (decide (e_ID e = id)) as [<-|Hne].
  - destruct (e_Op e); [naive_solver|naive_solver|apply lookup_delete_eq|done].
  - destruct (e_Op e); rewrite ?lookup_insert_ne, ?lookup_delete_ne by done; done.
Qed.

Lemma history_revs t seen h id a b :
  history t seen h → id ∈ seen → t !! id = Some a → foldl commit t h !! id = Some b → (a_rev a ≤ a_rev b)%N.
Proof.
  revert t seen a. induction h as [|e h IH]; intros t seen a; simpl; [intros _ _ -> [= <-]; lia|].
  intros [He Hh] Hs Ha Hb. destruct (decide (e_ID e = id)) as [<-|Hne].
  - unfold extends in He. destruct (e_Op e) eqn:Hop; [naive_solver| | |done].
    + destruct He as (_ & a' & Ha' & Hlt). rewrite Ha in Ha'. injection Ha' as <-.
      pose proof (IH _ _ (rec_of e) Hh ltac:(set_solver)) as H. unfold commit in H at 1. rewrite Hop, lookup_insert_eq in H.
      specialize (H eq_refl Hb). cbn [rec_of a_rev] in H. lia.
    + rewrite (history_dead _ _ _ (e_ID e) Hh) in Hb; [done|set_solver|]. unfold commit. rewrite Hop. apply lookup_delete_eq.
  - apply (IH _ _ a Hh); [set_solver| |done]. unfold commit. destruct (e_Op e);
      rewrite ?lookup_insert_ne, ?lookup_delete_ne by done; done.
Qed.

(** One step of a follower whose records are each as old as the history so far or
    as new as the whole of it. *)
Lemma catch_up_step t seen e h F id :
  extends t seen e → history (commit t e) ({[e_ID e]} ∪ seen) h →
  let T := foldl commit (commit t e) h in
  F !! id = t !! id ∨ F !! id = T !! id →
  apply_table F e !! id = commit t e !! id ∨ apply_table F e !! id = T !! id.
Proof.
  intros He Hh T HF. destruct (decide (e_ID e = id)) as [<-|Hne].
  2:{ assert (apply_table F e !! id = F !! id) as ->
        by (unfold apply_table; repeat case_match; rewrite ?lookup_insert_ne, ?lookup_delete_ne by done; done).
      assert (commit t e !! id = t !! id) as -> by (unfold commit; case_match; rewrite ?lookup_insert_ne, ?lookup_delete_ne by done; done).
      done. }
  destruct (decide (e_Op e = OpDelete)) as [Hd|Hnd].
  { left. unfold apply_table, commit. rewrite Hd. by rewrite !lookup_delete_eq. }
  assert (commit t e = <[e_ID e := rec_of e]> t) as Hc by (unfold commit, extends in *; by destruct (e_Op e)).
  assert (apply_table F e = if match F !! e_ID e with Some a => (e_Rev e <=? a_rev a)%N | None => false end then F
    else <[e_ID e := rec_of e]> F) as -> by (unfold apply_table, extends in *; by destruct (e_Op e)).
  destruct HF as [HF|HF].
  - left. rewrite Hc, HF. assert (match t !! e_ID e with Some a => (e_Rev e <=? a_rev a)%N | None => false end = false) as ->.
    { unfold extends in He. destruct (e_Op e); try done.
      - by destruct He as (_ & -> & _).
      - destruct He as (_ & a & -> & Hlt). apply N.leb_gt. lia. }
    by rewrite !lookup_insert_eq.
  - destruct (F !! e_ID e) as [b|] eqn:HFb; [|left; by rewrite Hc, !lookup_insert_eq].
    right. rewrite (proj2 (N.leb_le _ _)); [congruence|].
    apply (history_revs _ _ h (e_ID e) (rec_of e) b Hh); [set_solver|by rewrite Hc, lookup_insert_eq|by symmetry].
Qed.

Lemma catch_up t seen h F :
  history t seen h → (∀ id, F !! id = t !! id ∨ F !! id = foldl commit t h !! id) → foldl apply_table F h = foldl commit t h.
Proof.
  revert t seen F. induction h as [|e h IH]; intros t seen F; simpl.
  - intros _ HF. apply map_eq. intros id. by destruct (HF id).
  - intros [He Hh] HF. apply (IH _ _ _ Hh). intros id. by eapply catch_up_step.
Qed.

(** A follower that holds a snapshot taken after [h1] and replays everything from
    before [h1] on. *)
Lemma catch_up_snapshot t seen h1 h2 :
  history t seen (h1 ++ h2) → foldl apply_table (foldl commit t h1) (h1 ++ h2) = foldl commit t (h1 ++ h2).
Proof.
  intros [H1 H2]%history_app. rewrite !foldl_app, (catch_up t seen h1) by auto. apply (catch_up _ _ _ _ H2). auto.
Qed.

(** ** Applying an entry to a collection *)

(** Room for a number of further segments. *)
Definition room_for (n : nat) (c : Collection) : Prop :=
  (max_segment (c_dir c) (all_segments c) + N.of_nat n < 2 ^ 64)%N.

Lemma openActiveSegment_path p w s w' : openActiveSegment p w = (Ok s, w') → s_path s = p.
Proof.
  unfold openActiveSegment. intros H. repeat (apply bind_inv_ok in H as (? & ? & _ & H)). by injection H as <- _.
Qed.

Lemma max_segment_snoc dir segs s n :
  seg_number dir (s_path s) = Some n → max_segment dir (segs ++ [s]) = N.max (max_segment dir segs) n.
Proof. intros Hn. unfold max_segment. rewrite foldl_app. simpl. rewrite Hn. case_match eqn:E; [apply N.ltb_lt in E|apply N.ltb_ge in E]; lia. Qed.

(** A rotation takes the next segment number. *)
Lemma rotate_numbers c w c' w' :
  rotateSegment (c, w) = (Ok tt, (c', w')) → room c →
  c_dir c' = c_dir c ∧ (max_segment (c_dir c) (all_segments c') ≤ max_segment (c_dir c) (all_segments c) + 1)%N.
Proof.
  intros H Hroom. split; [by apply (keeps_run c_dir) in H; [|keeps]|]. unfold rotateSegment in H.
  apply bind_inv_ok in H as ([] & [c1 w1] & H1 & H). peel_modify H.
  apply bind_inv_ok in H as (c2 & [? ?] & [= <- <- <-] & H). apply bind_inv_ok in H as (a & [c3 w3] & H2 & H). peel_modify H.
  assert (s_path (c_active c1) = s_path (c_active c) ∧ c_sealed c1 = c_sealed c ∧ c_dir c1 = c_dir c) as (Ha & Hs & Hd).
  { unfold with_active in H1. destruct (Seal_touches (c_active c) w) as [Hp _].
    destruct (Seal (c_active c, w)) as [r [s w0]]. injection H1 as _ <- _. destruct c. by simpl in *. }
  set (c2 := set_sealed (c_sealed c1 ++ [c_active c1]) c1) in *.
  assert (c_sealed c2 = c_sealed c ++ [c_active c1] ∧ c_dir c2 = c_dir c) as [Hs2 Hd2] by (subst c2; destruct c1; simpl in *; by subst).
  assert (max_segment (c_dir c) (c_sealed c2) = max_segment (c_dir c) (all_segments c)) as Hm.
  { apply max_segment_paths. rewrite Hs2. unfold all_segments. rewrite !fmap_app. simpl. by rewrite Ha. }
  assert (s_path a = segmentPath (c_dir c) (max_segment (c_dir c) (all_segments c) + 1) ∧ c3 = c2) as [Hpa ->].
  { unfold io in H2. destruct (openActiveSegment _ w1) as [r w0] eqn:E. injection H2 as -> <- _.
    apply openActiveSegment_path in E. rewrite E, Hd2, Hm. split; [|done]. f_equal. by apply wrap64_small. }
  assert (c_sealed c' = c_sealed c2 ∧ c_active c' = a) as [Hs' Ha'].
  { assert ((c_sealed c', c_active c') = (c_sealed (set_active a c2), c_active (set_active a c2))) as E.
    { eapply (keeps_run (λ c, (c_sealed c, c_active c))); [|exact H]. keeps. }
    injection E as -> ->. by destruct c2. }
  change (all_segments c') with (c_sealed c' ++ [c_active c']). rewrite Hs', Ha'. rewrite (max_segment_snoc _ _ a (max_segment (c_dir c) (all_segments c) + 1)).
  - rewrite Hm. lia.
  - rewrite Hpa. by apply seg_number_segmentPath.
Qed.

Lemma maybeRotate_numbers c w c' w' :
  maybeRotate (c, w) = (Ok tt, (c', w')) → room c →
  c_dir c' = c_dir c ∧ (max_segment (c_dir c) (all_segments c') ≤ max_segment (c_dir c) (all_segments c) + 1)%N.
Proof.
  unfold maybeRotate. intros H Hroom. erewrite bind_ok in H by reflexivity. cbn [fst] in H. destruct (_ <=? _)%Z; [by eapply rotate_numbers|].
  injection H as <- _. split; [done|lia].
Qed.

(** What applying leaves of the collection besides its records. *)
Definition same_place (c c' : Collection) : Prop :=
  c_dir c' = c_dir c ∧ c_enc c' = c_enc c ∧
  (max_segment (c_dir c) (all_segments c') ≤ max_segment (c_dir c) (all_segments c) + 1)%N.

Lemma same_place_after c c1 c2 :
  c_dir c1 = c_dir c → paths c1 = paths c → c_enc c1 = c_enc c → same_place c1 c2 → same_place c c2.
Proof.
  intros Hd Hp He (H1 & H2 & H3). rewrite Hd, (max_segment_paths _ (all_segments c1) (all_segments c)) in H3 by done.
  split_and!; [congruence|congruence|done].
Qed.

(** The key field, when it is indexed, is not opaque. *)
Definition key_indexable (c : Collection) : Prop :=
  match c_enc c with Some enc => enc_isEncryptedField enc KeyField = false | None => True end.

Lemma apply_tail_spec c w logs log e data :
  coll_inv (raise_idSeq (e_ID e) c) w logs log → no_faults w → room c →
  ∃ c' w' logs' log', apply_tail e data (c, w) = (Ok tt, (c', w')) ∧ no_faults w' ∧ w_now w' = w_now w ∧
    coll_inv c' w' logs' log' ∧ coll_log logs' log' = coll_log logs log ∧ same_place c c'.
Proof.
  intros Hinv Hw Hroom. unfold apply_tail. erewrite bind_ok by reflexivity. set (c1 := raise_idSeq (e_ID e) c) in *.
  assert (c_dir c1 = c_dir c ∧ all_segments c1 = all_segments c ∧ c_enc c1 = c_enc c) as (Hd & Hs & He)
    by (subst c1; unfold raise_idSeq; destruct (_ <? _)%N; by destruct c).
  assert (room c1) as Hr1 by (unfold room; by rewrite Hd, Hs).
  erewrite bind_ok by (apply syncActiveLocked_nofault; [done|apply Hinv]).
  destruct (maybeRotate_spec c1 w logs log Hinv Hw Hr1) as (c2 & w2 & lg & lg' & H1 & H2 & H3 & H4 & H5 & H6).
  erewrite bind_ok by exact H1. rewrite emit_eq.
  eexists _, w2, lg, lg'. split; [reflexivity|]. split_and!; [done|done|eapply coll_inv_same; [apply emitted_same|done]|done|].
  destruct (maybeRotate_numbers c1 w c2 w2 H1 Hr1) as [Hd2 Hm]. destruct H4 as (_ & _ & _ & _ & _ & _ & Hen & _).
  rewrite Hd, Hs in Hm. destruct c2. unfold emitted, same_place. simpl in *. split_and!; [congruence|congruence|exact Hm].
Qed.

(** Raising the counter commutes with the steps before it. *)
Lemma raise_inv id c w logs log : coll_inv c w logs log → coll_inv (raise_idSeq id c) w logs log ∧ (id ≤ c_idSeq (raise_idSeq id c))%N.
Proof.
  intros Hinv. unfold raise_idSeq. destruct (N.ltb_spec (c_idSeq c) id); [|done].
  split; [apply set_idSeq_inv; [done|lia]|by destruct c].
Qed.

Lemma raise_same id c c' : same_store c c' → same_store (raise_idSeq id c) (raise_idSeq id c').
Proof.
  unfold same_store, raise_idSeq. intros (H1 & H2 & H3 & H4 & H5). rewrite H5.
  destruct (_ <? _)%N; [|done]. destruct c, c'. by simpl in *.
Qed.

Lemma raise_active {A} (m : SE (Segment * World) A) id c w :
  with_active m (raise_idSeq id c, w) = let '(r, (c', w')) := with_active m (c, w) in (r, (raise_idSeq id c', w')).
Proof.
  unfold with_active, raise_idSeq. assert (c_active (if (c_idSeq c <? id)%N then set_idSeq id c else c) = c_active c) as ->
    by (destruct (_ <? _)%N; by destruct c).
  destruct (m (c_active c, w)) as [r [s w']]. destruct c. simpl. by destruct (_ <? _)%N.
Qed.

Lemma raise_index_write e id c w :
  index_write e (raise_idSeq id c, w) = let '(r, (c', w')) := index_write e (c, w) in (r, (raise_idSeq id c', w')).
Proof.
  unfold index_write, mbind, SE_bind. rewrite raise_active. destruct (with_active (Append e) (c, w)) as [[o|err] [c' w']]; [|done].
  unfold modify, raise_idSeq. destruct c'. simpl. by destruct (_ <? _)%N.
Qed.

Lemma sidx_key_path dir : sidxFilePath dir KeyField = join dir "sidx__key.json".
Proof. done. Qed.

(** The key index is there, or is built from the segments. *)
Lemma ensureKeyIndex_spec {sha : Sha256} c w logs log :
  coll_inv c w logs log → no_faults w → key_indexable c →
  ∃ c' w', ensureKeyIndex (c, w) = (Ok tt, (c', w')) ∧ no_faults w' ∧ w_now w' = w_now w ∧
    coll_inv c' w' logs log ∧ same_store c c' ∧ c_enc c' = c_enc c.
Proof.
  intros Hinv Hw Hkey. unfold ensureKeyIndex, EnsureUniqueIndex, ensureIndex. erewrite bind_ok by reflexivity. cbn [fst].
  assert (match c_enc c with Some enc => enc_isEncryptedField enc KeyField | None => false end = false) as ->
    by (unfold key_indexable in Hkey; by destruct (c_enc c)).
  destruct (c_sidxMap c !! KeyField) as [s|]; [by exists c, w|]. erewrite bind_ok by reflexivity.
  set (c1 := set_sidxMap (<[KeyField := newSecondaryIndex KeyField true]> (c_sidxMap c)) c). assert (same_store c c1 ∧ c_enc c1 = c_enc c) as [Hss1 He1] by (by destruct c).
  pose proof (coll_inv_same _ _ _ _ _ Hss1 Hinv) as Hinv1.
  assert (Forall2 (λ s es, seg_rep s w es) (all_segments c1) (logs ++ [log])) as Hsegs.
  { apply Forall2_app; [apply Hinv1|]. constructor; [apply Hinv1|constructor]. }
  unfold rebuild. erewrite bind_ok by (by apply rebuild_latest_spec).
  destruct (foldl _ _ (map_to_list _)) as [[fresh rev] kind]. unfold mret, SE_ret. cbv beta iota.
  set (s := MkSidx _ _ _ _ _ _). set (c2 := set_sidxMap (<[KeyField := s]> (c_sidxMap c1)) c1).
  assert (same_store c1 c2 ∧ c_enc c2 = c_enc c1) as [Hss2 He2] by (by destruct c1).
  destruct (writeFileAtomic_nofault (sidxFilePath (c_dir c1) KeyField) (sidx_file s) w Hw) as (fs & Hwr & _ & Hfr).
  exists c2, (set_files fs w). split; [apply io_ok, Hwr|]. split_and!; [done|done| |..].
  - apply (coll_inv_frame c2 w); [by eapply coll_inv_same|]. intros n. simpl.
    assert (c_dir c2 = c_dir c1) as -> by (by destruct c1).
    rewrite sidx_key_path, join_tmp in Hfr. apply Hfr; apply not_eq_sym, join_not_segment; reflexivity.
  - unfold same_store in *. naive_solver congruence.
  - congruence.
Qed.

(** The step before the write lock. *)
Lemma key_step_spec {sha : Sha256} c w logs log data :
  coll_inv c w logs log → no_faults w → key_indexable c →
  ∃ c' w', (if sets_key data then ensureKeyIndex else mret tt) (c, w) = (Ok tt, (c', w')) ∧ no_faults w' ∧
    w_now w' = w_now w ∧ coll_inv c' w' logs log ∧ same_store c c' ∧ c_enc c' = c_enc c.
Proof. intros. destruct (sets_key data); [by apply ensureKeyIndex_spec|]. by exists c, w. Qed.

(** Writing a later revision, and deleting. *)
Lemma apply_write_spec c w logs log e (f : Collection → Collection) data :
  coll_inv c w logs log → no_faults w → room c → wf_entry e → (encoded_size e ≤ maxScanTokenSize)%Z →
  e_Op e = OpInsert ∨ e_Op e = OpUpdate → next_rev (cur_rev c (e_ID e)) (e_Rev e) = e_Rev e →
  (∀ c0, same_store c0 (f c0) ∧ c_enc (f c0) = c_enc c0) →
  ∃ c' w' logs' log', (index_write e;; modify f;; apply_tail e data) (c, w) = (Ok tt, (c', w')) ∧ no_faults w' ∧
    w_now w' = w_now w ∧ coll_inv c' w' logs' log' ∧
    coll_table logs' log' = <[e_ID e := rec_of e]> (coll_table logs log) ∧ same_place c c'.
Proof.
  intros Hinv Hw Hroom He Hsz Hop Hrev Hf. destruct (raise_inv (e_ID e) c w logs log Hinv) as [Hinv1 Hle].
  assert (c_index (raise_idSeq (e_ID e) c) = c_index c ∧ c_active (raise_idSeq (e_ID e) c) = c_active c) as [Hri Hra]
    by (unfold raise_idSeq; destruct (_ <? _)%N; by destruct c).
  destruct (index_write_later (raise_idSeq (e_ID e) c) w logs log e) as (a & idx & w1 & H1 & Hw1 & Hn1 & Hp & Hinv2);
    [done..|unfold cur_rev in *; by rewrite Hri|done|].
  rewrite raise_index_write in H1. destruct (index_write e (c, w)) as [r [c1 w1']] eqn:Hiw. injection H1 as -> Hc1 ->.
  assert (c_dir c1 = c_dir c ∧ paths c1 = paths c ∧ c_enc c1 = c_enc c) as (Hd1 & Hp1 & He1).
  { assert (c_dir (raise_idSeq (e_ID e) c1) = c_dir c1 ∧ paths (raise_idSeq (e_ID e) c1) = paths c1 ∧ c_enc (raise_idSeq (e_ID e) c1) = c_enc c1)
      as (<- & <- & <-) by (unfold raise_idSeq; destruct (_ <? _)%N; by destruct c1).
    rewrite Hc1. rewrite Hra in Hp. unfold paths, all_segments. unfold raise_idSeq. destruct (_ <? _)%N; destruct c; simpl in *;
      rewrite !fmap_app; simpl; by rewrite Hp. }
  destruct (Hf c1) as [Hss Hen]. erewrite bind_ok by exact Hiw. erewrite bind_ok by reflexivity.
  assert (paths (f c1) = paths c) as Hpf.
  { rewrite <-Hp1. destruct Hss as (_ & S2 & S3 & _). unfold paths, all_segments. by rewrite S2, S3. }
  destruct (apply_tail_spec (f c1) w1 logs (log ++ [(s_size (c_active c), written e)]) e data) 
    as (c2 & w2 & lg & lg' & T1 & T2 & T3 & T4 & T5 & T6).
  - eapply coll_inv_same; [by apply raise_same|]. rewrite Hc1, <-Hra. exact Hinv2.
  - done.
  - apply (room_same c); [|done|done]. destruct Hss as [-> _]. done.
  - exists c2, w2, lg, lg'. split_and!; [exact T1|done|congruence|done| |].
    + rewrite (coll_table_log _ _ _ _ T5), coll_table_write by done. by rewrite <-(table_rev c w logs log), Hrev.
    + apply (same_place_after c (f c1)); [destruct Hss; congruence|done|congruence|done].
Qed.

Lemma apply_delete_spec c w logs log e :
  coll_inv c w logs log → no_faults w → room c → wf_entry e → (encoded_size e ≤ maxScanTokenSize)%Z → e_Op e = OpDelete →
  ∃ c' w' logs' log',
    (with_active (Append e);; modify (λ c, sidxRemoveEntry (e_ID e) (set_index (Delete_ (c_index c) (e_ID e)) c));;
      apply_tail e None) (c, w) = (Ok tt, (c', w')) ∧ no_faults w' ∧
    w_now w' = w_now w ∧ coll_inv c' w' logs' log' ∧ coll_table logs' log' = delete (e_ID e) (coll_table logs log) ∧ same_place c c'.
Proof.
  intros Hinv Hw Hroom He Hsz Hop. destruct (raise_inv (e_ID e) c w logs log Hinv) as [Hinv1 Hle].
  destruct (delete_write_spec (raise_idSeq (e_ID e) c) w logs log e (e_ID e)) as (a & o & w1 & H1 & Hw1 & Hn1 & Hp & Hinv2); [done..|].
  rewrite raise_active in H1. destruct (with_active (Append e) (c, w)) as [r [c1 w1']] eqn:Hap. injection H1 as -> Hc1 ->.
  erewrite bind_ok by exact Hap. erewrite bind_ok by reflexivity.
  assert (∃ b, c1 = set_active b c ∧ s_path b = s_path (c_active c)) as (b & -> & Hb).
  { unfold with_active in Hap. destruct (Append_touches e (c_active c) w) as [Hpp _].
    destruct (Append e (c_active c, w)) as [r [b w2]]. injection Hap as _ <- _. by exists b. }
  set (c2 := sidxRemoveEntry _ _).
  assert (coll_inv (raise_idSeq (e_ID e) c2) w1 logs (log ++ [(s_size (c_active c), written e)])) as Hinv3.
  { assert (c_active (raise_idSeq (e_ID e) c) = c_active c) as Hra by (unfold raise_idSeq; destruct (_ <? _)%N; by destruct c).
    rewrite Hra in Hinv2. eapply coll_inv_same; [|exact Hinv2]. rewrite <-Hc1. subst c2. unfold raise_idSeq.
    destruct c. simpl. by destruct (_ <? _)%N. }
  destruct (apply_tail_spec c2 w1 logs (log ++ [(s_size (c_active c), written e)]) e None) as (c3 & w3 & lg & lg' & T1 & T2 & T3 & T4 & T5 & T6); [done|done| |].
  - apply (room_same c); [subst c2; by destruct c| |done]. subst c2. unfold paths, all_segments. destruct c. simpl in *. rewrite !fmap_app. simpl. by rewrite Hb.
  - exists c3, w3, lg, lg'. split_and!; [exact T1|done|congruence|done| |].
    + rewrite (coll_table_log _ _ _ _ T5). by apply coll_table_delete.
    + apply (same_place_after c c2); [subst c2; by destruct c| |subst c2; by destruct c|done].
      subst c2. unfold paths, all_segments. destruct c. simpl in *. rewrite !fmap_app. simpl. by rewrite Hb.
Qed.

(** An entry a follower can store. *)
Record applicable (e : Entry) : Prop := {
  ap_wf : wf_entry e;
  ap_size : (encoded_size e ≤ maxScanTokenSize)%Z;
  ap_rev : e_Op e ≠ OpDelete → (1 ≤ e_Rev e)%N
}.

Lemma next_rev_later cur rev : (cur < rev)%N → (rev < 2 ^ 64)%N → next_rev cur rev = rev.
Proof. intros H1 H2. unfold next_rev, u64_add. rewrite wrap64_small by lia. destruct (N.ltb_spec (cur + 1) rev); lia. Qed.

Lemma applyEntry_spec {sha : Sha256} c w logs log e :
  coll_inv c w logs log → no_faults w → room c → key_indexable c → applicable e →
  ∃ c' w' logs' log', applyEntry e (c, w) = (Ok tt, (c', w')) ∧ no_faults w' ∧ w_now w' = w_now w ∧
    coll_inv c' w' logs' log' ∧ coll_table logs' log' = apply_table (coll_table logs log) e ∧ same_place c c'.
Proof.
  intros Hinv Hw Hroom Hkey [He Hsz Hr]. unfold applyEntry.
  destruct (key_step_spec c w logs log (e_Data e) Hinv Hw Hkey) as (c1 & w1 & K1 & K2 & K3 & K4 & K5 & K6).
  erewrite bind_ok by exact K1. erewrite bind_ok by reflexivity. cbn [fst]. unfold Get.
  assert (c_dir c1 = c_dir c ∧ paths c1 = paths c) as [Hd Hp].
  { destruct K5 as (D & S1 & S2 & _). split; [done|]. unfold paths, all_segments. by rewrite S1, S2. }
  assert (room c1) as Hroom1 by (by apply (room_same c)).
  pose proof (inv_index_lookup c1 w1 logs log (e_ID e) K4) as Hlk.
  destruct (decide (e_Op e = OpDelete)) as [Hdel|Hndel].
  - rewrite Hdel. unfold apply_table. rewrite Hdel. destruct (c_index c1 !! e_ID e) as [ie|].
    + destruct (apply_delete_spec c1 w1 logs log e K4 K2 Hroom1 He Hsz Hdel) as (c2 & w2 & lg & lg' & T1 & T2 & T3 & T4 & T5 & T6).
      exists c2, w2, lg, lg'. split_and!; [exact T1|done|congruence|done|done|]. by apply (same_place_after c c1).
    + exists c1, w1, logs, log. split_and!; [done|done|done|done|by rewrite delete_id|].
      apply (same_place_after c c1); [done..|]. split_and!; [done..|lia].
  - assert (e_Op e = OpInsert ∨ e_Op e = OpUpdate) as Hop by (destruct (wf_op _ He) as [?|[?|?]]; auto; done).
    assert (apply_table (coll_table logs log) e =
      if match coll_table logs log !! e_ID e with Some a => (e_Rev e <=? a_rev a)%N | None => false end then coll_table logs log
      else <[e_ID e := rec_of e]> (coll_table logs log)) as -> by (unfold apply_table; by destruct Hop as [-> | ->]).
    assert (match c_index c1 !! e_ID e with Some loc => (e_Rev e <=? ie_Rev loc)%N | None => false end =
      match coll_table logs log !! e_ID e with Some a => (e_Rev e <=? a_rev a)%N | None => false end) as Hskip.
    { destruct (c_index c1 !! e_ID e); [destruct Hlk as (a & -> & -> & _)|rewrite Hlk]; done. }
    assert (match e_Op e with OpInsert | OpUpdate => apply_write e (c_index c1 !! e_ID e) | OpDelete => _ | OpOther _ => _ end =
      apply_write e (c_index c1 !! e_ID e)) as -> by (by destruct Hop as [-> | ->]).
    unfold apply_write. rewrite Hskip. destruct (match coll_table logs log !! e_ID e with Some a => (e_Rev e <=? a_rev a)%N | None => false end) eqn:Hsk.
    + exists c1, w1, logs, log. split_and!; [done..|]. apply (same_place_after c c1); [done..|]. split_and!; [done..|lia].
    + destruct (apply_write_spec c1 w1 logs log e (match c_index c1 !! e_ID e with
          | Some _ => sidxUpdateEntry (e_ID e) (e_Data e) | None => sidxIndexEntry (e_ID e) (e_Data e) end) (e_Data e))
        as (c2 & w2 & lg & lg' & T1 & T2 & T3 & T4 & T5 & T6); [done..| | |].
      * apply next_rev_later; [|apply He]. rewrite (table_rev c1 w1 logs log) by done.
        destruct (coll_table logs log !! e_ID e); [by apply N.leb_gt|]. specialize (Hr Hndel). lia.
      * intros c0. destruct (c_index c1 !! e_ID e); [split; [apply sidx_update_same|by destruct c0]|split; [apply sidx_index_same|by destruct c0]].
      * exists c2, w2, lg, lg'. split_and!; [exact T1|done|congruence|done|done|]. by apply (same_place_after c c1).
Qed.

(** *** Over the wire *)
Definition wire (e : Entry) : Entry :=
  MkEntry (e_ID e) (e_Op e) (e_Ts e) (e_Rev e) (norm_doc <$> e_Data e) 0 (e_ExpiresAt e) None.

Lemma wire_roundtrip `{!Protobuf, !ProtobufLaws} re :
  wf_entry (re_Entry re) →
  ∃ r, replEntryToProto re = Ok r ∧ rr_Lsn r = re_LSN re ∧ rr_Collection r = re_Collection re ∧
    replRecordToEntry r = wire (re_Entry re).
Proof.
  intros [_ _ _ _ Hop _ Hd]. unfold replEntryToProto. set (e := re_Entry re) in *.
  assert (replOpFromProto (replOpToProto (e_Op e)) = e_Op e) as Ho by (by destruct Hop as [-> |[-> | ->]]).
  destruct (e_Data e) as [d|] eqn:Ed.
  - destruct Hd as [_ Hd]. destruct (AsMap_NewStruct d Hd) as (s & -> & Hs). eexists. split; [reflexivity|]. split_and!; [done|done|].
    unfold replRecordToEntry, wire. cbn. by rewrite Ho, AsTime_NewTimestamp, Hs, Ed.
  - eexists. split; [reflexivity|]. split_and!; [done|done|]. unfold replRecordToEntry, wire. cbn. by rewrite Ho, AsTime_NewTimestamp, Ed.
Qed.

(** Records up to the policy epoch, which the wire form does not carry. *)
Definition forget_epoch (a : arec) : arec := ARec (a_rev a) (a_ts a) (a_data a) (a_exp a) 0.
Definition same_records (t t' : table) : Prop := forget_epoch <$> t = forget_epoch <$> t'.

Lemma apply_same t t' e : same_records t t' → same_records (apply_table t (wire e)) (apply_table t' e).
Proof.
  unfold same_records. intros H. assert (forget_epoch (rec_of (wire e)) = forget_epoch (rec_of e)) as Hr.
  { unfold rec_of, forget_epoch. cbn. destruct (e_Data e); [|done]. cbn. by rewrite norm_doc_norm. }
  assert (match t !! e_ID e with Some a => (e_Rev e <=? a_rev a)%N | None => false end =
    match t' !! e_ID e with Some a => (e_Rev e <=? a_rev a)%N | None => false end) as Hs.
  { apply (f_equal (λ m, m !! e_ID e)) in H. rewrite !lookup_fmap in H.
    destruct (t !! e_ID e), (t' !! e_ID e); try done. by injection H as ->. }
  unfold apply_table. cbn [wire e_Op e_ID e_Rev]. rewrite Hs. set (skip := match t' !! e_ID e with Some _ => _ | None => _ end).
  destruct (e_Op e); [destruct skip; [done|]..| |done].
  - by rewrite !fmap_insert, Hr, H.
  - by rewrite !fmap_insert, Hr, H.
  - by rewrite !fmap_delete, H.
Qed.

Lemma apply_same_all t t' es : same_records t t' → same_records (foldl apply_table t (wire <$> es)) (foldl apply_table t' es).
Proof. revert t t'. induction es as [|e es IH]; intros t t' H; [done|]. apply IH. by apply apply_same. Qed.

(** ** The leader's side *)

(** Both a component of the feed and whether there is one. *)
Definition outbox (c : Collection) : list Entry * bool := (c_feed c, c_broker c).

Lemma publish_outbox e f c : outbox c = (f, true) → outbox (publishCommit e c) = (f ++ [e], true).
Proof. unfold publishCommit, outbox. intros [= <- Hb]. rewrite Hb. destruct c. simpl in *. by rewrite Hb. Qed.

Lemma outbox_index id data c : outbox (sidxIndexEntry id data c) = outbox c.
Proof. by destruct c. Qed.
Lemma outbox_update id data c : outbox (sidxUpdateEntry id data c) = outbox c.
Proof. by destruct c. Qed.
Lemma outbox_remove id idx c : outbox (sidxRemoveEntry id (set_index idx c)) = outbox c.
Proof. by destruct c. Qed.
Lemma outbox_idSeq n c : outbox (set_idSeq n c) = outbox c.
Proof. by destruct c. Qed.

(** Follow the outbox through the steps of a write. *)
Ltac track := repeat match goal with
  | E : context [outbox (sidxIndexEntry _ _ _)] |- _ => rewrite outbox_index in E
  | E : context [outbox (sidxUpdateEntry _ _ _)] |- _ => rewrite outbox_update in E
  | E : context [outbox (sidxRemoveEntry _ _)] |- _ => rewrite outbox_remove in E
  | E : context [outbox (set_idSeq _ _)] |- _ => rewrite outbox_idSeq in E
  end.

Section feeds.
Context (c : Collection) (w : World) (f : list Entry) (He : c_enc c = None) (Hb : outbox c = (f, true)).

Lemma insert_feed data exp id ts c' w' :
  insert_ data exp (c, w) = (Ok (id, ts), (c', w')) → outbox c' = (f ++ [insert_entry w id data exp], true).
Proof using He Hb.
  unfold insert_. erewrite bind_ok by apply nextID_eq. erewrite bind_ok by reflexivity.
  erewrite bind_ok by (apply sealEntryData_plain; by destruct c). cbn [snd]. erewrite bind_ok by reflexivity. intros H.
  do 3 peel outbox H. peel_modify H. peel outbox H. peel_modify H. do 2 peel outbox H. injection H as <- <- <- <-. track.
  rewrite (publish_outbox _ f) in * by congruence. unfold insert_entry. congruence.
Qed.

Lemma update_feed id data exp keep ts c' w' :
  update_ id data exp keep (c, w) = (Ok ts, (c', w')) →
  ∃ cur, c_index c !! id = Some cur ∧ outbox c' =
    (f ++ [update_entry w id data (u64_add (ie_Rev cur) 1) (if keep then ie_ExpiresAt cur else exp)], true).
Proof using He Hb.
  unfold update_. erewrite bind_ok by reflexivity. erewrite bind_ok by (by apply sealEntryData_plain). cbn [snd].
  erewrite bind_ok by reflexivity. unfold Get. cbn [fst]. destruct (c_index c !! id) as [cur|]; [|done]. intros H. exists cur. split; [done|].
  do 2 peel outbox H. peel_modify H. peel outbox H. peel_modify H. do 2 peel outbox H. injection H as <- <- <-. track.
  rewrite (publish_outbox _ f) in * by congruence. unfold update_entry, set_ts in *. cbn in *. congruence.
Qed.

Lemma delete_feed id c' w' :
  Delete id (c, w) = (Ok tt, (c', w')) → outbox c' = (f ++ [NewDelete (w_now w) id], true).
Proof using He Hb.
  unfold Delete. do 2 erewrite bind_ok by reflexivity. unfold Get. cbn [fst snd]. destruct (c_index c !! id) as [cur|]; [|done]. intros H.
  peel outbox H. peel_modify H. peel outbox H. peel_modify H. apply (keeps_run outbox) in H; [|keeps]. track.
  rewrite (publish_outbox _ f) in * by congruence. congruence.
Qed.
End feeds.

(** Entries as plain collections publish them. *)
Record publishable (e : Entry) : Prop := {
  pu_wf : wf_entry e;
  pu_size : (encoded_size e ≤ maxScanTokenSize)%Z;
  pu_epoch : e_Epoch e = 0%N
}.

Lemma wire_json e crc : wf_entry e → e_Epoch e = 0%N → entry_to_json (set_crc (wire e) crc) = entry_to_json (set_crc e crc).
Proof.
  intros He Hep. unfold entry_to_json, set_crc, wire. cbn [e_Ts e_Data e_ID e_Op e_Rev e_Epoch e_ExpiresAt e_CRC]. rewrite Hep.
  pose proof (wf_data _ He) as Hd. destruct (e_Data e) as [d|]; [|done]. cbn [fmap option_fmap option_map]. destruct Hd as [Hne Hd].
  rewrite doc_to_json_norm by done. assert (norm_doc d ≠ ∅) as Hne' by (by intros ?%fmap_empty_inv). by rewrite !bool_decide_false.
Qed.

Lemma publishable_applicable e : publishable e → (e_Op e ≠ OpDelete → (1 ≤ e_Rev e)%N) → applicable (wire e).
Proof.
  intros [He Hsz Hep] Hr. split; [| |done].
  - destruct He as [H1 H2 H3 H4 H5 H6 H7]. split; try done. cbn [wire e_Data]. destruct (e_Data e) as [d|]; [|done]. by apply norm_doc_ok.
  - unfold encoded_size in *. assert (checksum (wire e) = checksum e) as Hc.
    { assert (wire e = stored (set_crc e None)) as -> by (unfold wire, stored, set_crc; cbn; by rewrite Hep). by apply checksum_stored. }
    unfold Encode in *. rewrite Hc. destruct (checksum e); [|done]. by rewrite wire_json.
Qed.

(** The ids and records a history leaves. *)
Lemma commit_dom t h id a : foldl commit t h !! id = Some a → id ∈ (list_to_set (e_ID <$> h) : gset N) ∨ is_Some (t !! id).
Proof.
  revert t. induction h as [|e h IH]; intros t H; [right; by eexists|]. simpl in *. apply IH in H as [H|[b Hb]]; [set_solver|].
  unfold commit in Hb. destruct (decide (e_ID e = id)) as [<-|Hne]; [set_solver|].
  right. destruct (e_Op e); rewrite ?lookup_insert_ne, ?lookup_delete_ne in Hb by done; by eexists.
Qed.

(** A running leader: a plain collection whose writes are published, the ids
    handed out so far. *)
Record leads (c : Collection) (w : World) (logs : list (list (Z * Entry))) (log : list (Z * Entry)) (seen : gset N) : Prop := {
  le_inv : coll_inv c w logs log;
  le_broker : c_broker c = true;
  le_seen : ∀ id, id ∈ seen → (id ≤ c_idSeq c)%N;
  le_table : ∀ id a, coll_table logs log !! id = Some a → id ∈ seen
}.

Definition revs_bounded (c : Collection) : Prop := ∀ id ie, c_index c !! id = Some ie → (ie_Rev ie + 1 < 2 ^ 64)%N.

Lemma leads_next c w logs log seen c' w' logs' log' h :
  leads c w logs log seen → coll_inv c' w' logs' log' → outbox c' = (c_feed c ++ h, true) →
  coll_table logs' log' = foldl commit (coll_table logs log) h → (c_idSeq c ≤ c_idSeq c')%N →
  (∀ e, e ∈ h → (e_ID e ≤ c_idSeq c')%N) →
  leads c' w' logs' log' (list_to_set (e_ID <$> h) ∪ seen) ∧ c_feed c' = c_feed c ++ h.
Proof.
  intros [L1 L2 L3 L4] Hinv Hout Ht Hle Hh. injection Hout as Hf Hbr. split; [|done]. split; [done|done|..].
  - intros id [Hin|Hin]%elem_of_union; [|specialize (L3 id Hin); lia].
    apply elem_of_list_to_set, list_elem_of_fmap in Hin as (e & -> & He). by apply Hh.
  - intros id a Ha. rewrite Ht in Ha. apply commit_dom in Ha as [Ha|[b Hb]]; [set_solver|]. apply L4 in Hb. set_solver.
Qed.

(** What a write of the leader leads to: at most [k] entries are published. *)
Definition extended (k : nat) (c : Collection) (logs : list (list (Z * Entry))) (log : list (Z * Entry)) (seen : gset N) (c' : Collection) (w' : World) : Prop :=
  ∃ logs' log' h, length h ≤ k ∧ leads c' w' logs' log' (list_to_set (e_ID <$> h) ∪ seen) ∧ c_feed c' = c_feed c ++ h ∧
    history (coll_table logs log) seen h ∧ coll_table logs' log' = foldl commit (coll_table logs log) h ∧
    Forall publishable h.

Section leader.
Context (c : Collection) (w : World) (logs : list (list (Z * Entry))) (log : list (Z * Entry)) (seen : gset N).
Context (HL : leads c w logs log seen) (Hwr : writable c w).

Lemma leader_nothing c' : same_store (set_idSeq (c_idSeq c') c) c' → outbox c' = outbox c → (c_idSeq c ≤ c_idSeq c')%N →
  extended 1 c logs log seen c' w.
Proof using HL.
  intros Hs Ho Hle. exists logs, log, []. assert (coll_inv c' w logs log) as Hi.
  { eapply coll_inv_same; [exact Hs|]. apply set_idSeq_inv; [apply HL|done]. }
  destruct (leads_next c w logs log seen c' w logs log []) as [H1 H2];
    [done|done|rewrite Ho, app_nil_r; unfold outbox; by rewrite (le_broker _ _ _ _ _ HL)|done|done|by intros e ?%not_elem_of_nil|].
  split_and!; [cbn; lia|done..].
Qed.

Lemma leader_entry c' w' logs' log' e :
  coll_inv c' w' logs' log' → outbox c' = (c_feed c ++ [e], true) → coll_table logs' log' = commit (coll_table logs log) e →
  extends (coll_table logs log) seen e → publishable e → (c_idSeq c ≤ c_idSeq c')%N → (e_ID e ≤ c_idSeq c')%N →
  extended 1 c logs log seen c' w'.
Proof using HL.
  intros Hi Ho Ht He Hp Hle Hid. exists logs', log', [e].
  destruct (leads_next c w logs log seen c' w' logs' log' [e]) as [H1 H2]; [done..|by intros e' ->%list_elem_of_singleton|].
  split_and!; [done|done|done|by split|done|by constructor].
Qed.

Lemma leader_outbox : outbox c = (c_feed c, true).
Proof using HL. unfold outbox. by rewrite (le_broker _ _ _ _ _ HL). Qed.

Lemma leader_insert data exp r c' w' :
  data_ok data → exp_ok exp → insert_ data exp (c, w) = (r, (c', w')) → extended 1 c logs log seen c' w'.
Proof using HL Hwr.
  intros Hd He Hrun. pose proof (insert_spec c w logs log data exp (le_inv _ _ _ _ _ HL) Hwr Hd He) as Hspec. cbv zeta in Hspec.
  set (id := (c_idSeq c + 1)%N) in *. set (e := insert_entry w id data exp) in *. destruct Hwr as [Hw Hck _ Hids Henc].
  destruct (insert_check c e data) as [err|] eqn:Hchk.
  { rewrite Hspec in Hrun. injection Hrun as _ <- <-. apply leader_nothing; [by destruct c|by destruct c|].
    destruct c. subst id. simpl in *. lia. }
  destruct Hspec as (c1 & w1 & lg & lg' & Hins & _ & Hinv' & Hseq & Hfresh & Ht). rewrite Hins in Hrun. injection Hrun as _ <- <-.
  pose proof (insert_feed c w _ Henc leader_outbox data exp _ _ _ _ Hins) as Hout. fold e in Hout.
  assert (publishable e) as Hpub.
  { split; [apply wf_plain_entry; auto; subst id; lia| |done]. unfold insert_check in Hchk.
    destruct (checkQuotaLocked _ _ _) as [[]|]; [|done]. destruct (sidxCheckUnique _ _ _) as [[]|]; [|done].
    destruct (Z.ltb_spec maxScanTokenSize (encoded_size e)); [done|lia]. }
  eapply (leader_entry c1 w1 lg lg' e); [done|done|exact Ht| |done|rewrite Hseq; subst id; lia|rewrite Hseq; done].
  split_and!; [|done|done]. intros Hin%(le_seen _ _ _ _ _ HL). change (e_ID e) with id in Hin. subst id. lia.
Qed.

Lemma leader_update id data exp keep r c' w' :
  data_ok data → exp_ok exp → (∀ ie, c_index c !! id = Some ie → exp_ok (ie_ExpiresAt ie)) → revs_bounded c →
  update_ id data exp keep (c, w) = (r, (c', w')) → extended 1 c logs log seen c' w'.
Proof using HL Hwr.
  intros Hd He Hie Hrevs Hrun. pose proof (le_inv _ _ _ _ _ HL) as Hinv.
  pose proof (update_spec c w logs log id data exp keep Hinv Hwr Hd) as Hspec. pose proof (inv_index_lookup c w logs log id Hinv) as Hlk.
  assert (extended 1 c logs log seen c w) as Hno by (apply leader_nothing; [by destruct c|done|done]).
  destruct (coll_table logs log !! id) as [a|] eqn:Ha; [|rewrite Hspec in Hrun; injection Hrun as _ <- <-; exact Hno].
  destruct (c_index c !! id) as [ie|] eqn:Eie; [|done]. destruct Hlk as (a' & [= <-] & Hr & Hx).
  assert (exp_ok (if keep then a_exp a else exp)) as Hexp by (destruct keep; [rewrite Hx; by apply Hie|done]).
  specialize (Hspec Hexp). cbv zeta in Hspec. set (e := update_entry w id data (u64_add (a_rev a) 1) (if keep then a_exp a else exp)) in *.
  destruct Hwr as [Hw Hck _ Hids Henc].
  destruct (update_check c e data) as [err|] eqn:Hchk; [rewrite Hspec in Hrun; injection Hrun as _ <- <-; exact Hno|].
  destruct Hspec as (c1 & w1 & lg & lg' & Hupd & _ & Hinv' & Hseq & Ht). rewrite Hupd in Hrun. injection Hrun as _ <- <-.
  destruct (update_feed c w _ Henc leader_outbox id data exp keep _ _ _ Hupd) as (cur & Hcur & Hout).
  rewrite Eie in Hcur. injection Hcur as <-. rewrite <-Hr, <-Hx in Hout. fold e in Hout.
  assert (id ≤ c_idSeq c)%N as Hle by (apply (live_id_le c w logs log); [done|rewrite Eie; eauto]).
  assert (publishable e) as Hpub.
  { split; [apply wf_plain_entry; [change (id < 2 ^ 64)%N; lia|apply wrap64_lt|auto|done..]| |done]. unfold update_check in Hchk.
    destruct (sidxCheckUnique _ _ _) as [[]|]; [|done]. destruct (Z.ltb_spec maxScanTokenSize (encoded_size e)); [done|lia]. }
  eapply (leader_entry c1 w1 lg lg' e); [done|done|exact Ht| |done|rewrite Hseq; lia|by rewrite Hseq].
  split; [by eapply (le_table _ _ _ _ _ HL)|]. exists a. split; [done|]. change (a_rev a < u64_add (a_rev a) 1)%N. unfold u64_add.
  specialize (Hrevs id ie Eie). rewrite wrap64_small by lia. lia.
Qed.

Lemma leader_delete id r c' w' :
  (encoded_size (NewDelete (w_now w) id) ≤ maxScanTokenSize)%Z → Delete id (c, w) = (r, (c', w')) → extended 1 c logs log seen c' w'.
Proof using HL Hwr.
  intros Hsz Hrun. pose proof (le_inv _ _ _ _ _ HL) as Hinv. pose proof (delete_spec c w logs log id Hinv Hwr Hsz) as Hspec.
  pose proof (inv_index_lookup c w logs log id Hinv) as Hlk.
  destruct (coll_table logs log !! id) as [a|] eqn:Ha.
  2:{ rewrite Hspec in Hrun. injection Hrun as _ <- <-. apply leader_nothing; [by destruct c|done|done]. }
  destruct Hspec as (c1 & w1 & lg' & Hdel & _ & Hinv' & Hseq & Ht). rewrite Hdel in Hrun. injection Hrun as _ <- <-.
  destruct Hwr as [Hw Hck _ Hids Henc]. pose proof (delete_feed c w _ Henc leader_outbox id _ _ Hdel) as Hout.
  assert (id ≤ c_idSeq c)%N as Hle by (apply (live_id_le c w logs log); [done|]; destruct (c_index c !! id); [eauto|congruence]).
  eapply (leader_entry c1 w1 logs lg' (NewDelete (w_now w) id)); [done|done|exact Ht| | |rewrite Hseq; lia|by rewrite Hseq].
  - split; [by eapply (le_table _ _ _ _ _ HL)|]. cbn. by rewrite Ha.
  - split; [|done|done]. apply wf_plain_entry; [lia|done|auto|done..].
Qed.

(** One write of the leader extends its history by the entry it publishes, or
    fails and publishes nothing. *)
Lemma leader_op op r c' w' :
  revs_bounded c → op_ok c w op → run_op op (c, w) = (r, (c', w')) → extended 1 c logs log seen c' w'.
Proof using HL Hwr.
  intros Hrevs Hok Hrun. destruct op as [data exp|id data exp keep|id]; cbn [run_op op_ok] in *.
  - rewrite drop_value in Hrun. destruct (insert_ data exp (c, w)) as [r0 [c0 w0]] eqn:E. injection Hrun as _ <- <-.
    destruct Hok as (Hd & _ & He). by eapply leader_insert.
  - rewrite drop_value in Hrun. destruct (update_ id data exp keep (c, w)) as [r0 [c0 w0]] eqn:E. injection Hrun as _ <- <-.
    destruct Hok as (Hd & _ & He & Hie). by eapply leader_update.
  - by eapply leader_delete.
Qed.
End leader.

(** The files determine the table. *)
Lemma seg_reps_unique segs w logs logs' :
  Forall2 (λ s es, seg_rep s w es) segs logs → Forall2 (λ s es, seg_rep s w es) segs logs' →
  (concat logs).*2 = (concat logs').*2.
Proof.
  intros H. revert logs'. induction H as [|s es segs logs Hs _ IH]; intros logs' H'; inversion H' as [|? es' ? ? Hs' Hr']; subst; [done|].
  simpl. rewrite !fmap_app. f_equal; [|by apply IH]. set (w0 := MkWorld (w_files w) [] (w_now w) (w_seed w)).
  pose proof (ScanAll_log s w0 es eq_refl Hs) as E. rewrite (ScanAll_log s w0 es' eq_refl Hs') in E. by injection E.
Qed.

Lemma coll_table_unique c w logs log logs' log' :
  coll_inv c w logs log → coll_inv c w logs' log' → coll_table logs log = coll_table logs' log'.
Proof.
  intros H H'. assert (∀ lg l, coll_inv c w lg l → Forall2 (λ s es, seg_rep s w es) (all_segments c) (lg ++ [l])) as Hall.
  { intros lg l Hi. apply Forall2_app; [apply Hi|]. constructor; [apply Hi|constructor]. }
  pose proof (seg_reps_unique _ _ _ _ (Hall _ _ H) (Hall _ _ H')) as E. rewrite !concat_app in E. simpl in E. rewrite !app_nil_r in E.
  unfold coll_table, coll_log. by rewrite E.
Qed.
