(* ===== verification/Database.v ===== *)
(** * The database: registry of collections, replication roles

    The database handle of engine/db.go with the database half of
    engine/replication.go and the follower of server/replication.go.  The state is
    the handle beside the host: the world of files and the sub-directories of the
    data directory.  A collection publishes what it commits into its outbox
    ([c_feed]); running one of its operations through the registry moves the outbox
    to the broker, in order and under the collection's name, which is what the call
    of the broker inside the operation does.  Handles kept from before a collection
    was dropped or reopened are not modelled. *)

From S2P Require Import Prelude GoFloat GoTime GoJson Value Query Store Disk Segment Index SecIndex Meta Collection Steps Open Compactor Broker Replica.

(** ** State *)
Inductive Role := RoleLeader | RoleFollower.
#[global] Instance Role_eq_dec : EqDecision Role.
Proof. solve_decision. Defined.

Definition Role_String (r : Role) : string :=
  match r with RoleLeader => "leader" | RoleFollower => "follower" end.

(** The configuration: what every collection gets and what only the database
    reads. *)
Record DBConfig := MkDBConfig {
  dc_collection : CollectionConfig;
  ReplicationRingSize : Z;
  cfg_Follower : bool
}.

Record DB := MkDB {
  db_dataDir : string;
  db_defaultCfg : CollectionConfig;
  db_collections : gmap string Collection;
  db_broker : option replicationBroker;
  db_appliedLSN : N;
  db_role : Role;
  db_lastLeaderLSN : N;
  db_onPromote : bool; (* a hook is registered *)
  db_applying : bool   (* the apply loop the hook stops is running *)
}.

Definition set_collections (x : gmap string Collection) (db : DB) : DB :=
  let '(MkDB a b _ d e f g h i) := db in MkDB a b x d e f g h i.
Definition set_db_broker (x : option replicationBroker) (db : DB) : DB :=
  let '(MkDB a b c _ e f g h i) := db in MkDB a b c x e f g h i.
Definition set_appliedLSN (x : N) (db : DB) : DB :=
  let '(MkDB a b c d _ f g h i) := db in MkDB a b c d x f g h i.
Definition set_role (x : Role) (db : DB) : DB :=
  let '(MkDB a b c d e _ g h i) := db in MkDB a b c d e x g h i.
Definition set_lastLeaderLSN (x : N) (db : DB) : DB :=
  let '(MkDB a b c d e f _ h i) := db in MkDB a b c d e f x h i.
Definition set_onPromote (x : bool) (db : DB) : DB :=
  let '(MkDB a b c d e f g _ i) := db in MkDB a b c d e f g x i.
Definition set_applying (x : bool) (db : DB) : DB :=
  let '(MkDB a b c d e f g h _) := db in MkDB a b c d e f g h x.

(** The host: files and the names of the data directory's sub-directories. *)
Record Host := MkHost { h_world : World; h_dirs : gset string }.
Abbreviation DM := (SE (DB * Host)).

Definition files {X A} (m : M A) : SE (X * Host) A := λ '(x, h),
  let '(r, w) := m (h_world h) in (r, (x, MkHost w (h_dirs h))).
Definition the_db : DM DB := λ s, (Ok s.1, s).
Definition modify_db (f : DB → DB) : DM unit := λ '(db, h), (Ok tt, (f db, h)).

(** ** Directories *)
Definition in_dirb (dir p : string) : bool := is_prefix (to_bytes (dir +:+ "/")) (to_bytes p).

(** [os.RemoveAll]: a failure leaves the directory with some of its files. *)
Definition remove_tree (dir : string) (o : option nat) (fs : gmap string bytes) : gmap string bytes :=
  match o with
  | None => filter (λ kv, in_dirb dir kv.1 = false) fs
  | Some k => foldl (λ fs p, delete p fs) fs (take k (filter (λ p, in_dirb dir p = true) (map_to_list fs).*1))
  end.

Definition RemoveAll (dataDir name : string) : DM unit := λ '(db, h),
  match outcome (h_world h) with
  | (Ok o, w) =>
      let w := set_files (remove_tree (join dataDir name) o (w_files w)) w in
      match o with
      | None => (Ok tt, (db, MkHost w (h_dirs h ∖ {[name]})))
      | Some _ => (Err ErrIO, (db, MkHost w (h_dirs h)))
      end
  | (Err e, w) => (Err e, (db, MkHost w (h_dirs h)))
  end.

(** [os.ReadDir]: the sub-directories in the order of their names. *)
Definition dir_names (h : Host) : list string := (sorted_pairs (gset_to_gmap tt (h_dirs h))).*1.

(** ** Replication state on disk *)
Definition replStateFilename : string := "replication.json".

Record replState := MkReplState { st_LeaderLSN : N; st_AppliedLSN : N }.

Definition replState_json (st : replState) : json :=
  JObj [("leader_lsn", j_uint (st_LeaderLSN st)); ("applied_lsn", j_uint (st_AppliedLSN st))].

Definition set_replState_field (st : replState) (kv : string * json) : result replState :=
  let name := field_name kv.1 in
  if bool_decide (name = "leader_lsn") then x ← as_uint 64 (st_LeaderLSN st) kv.2; Ok (MkReplState x (st_AppliedLSN st))
  else if bool_decide (name = "applied_lsn") then x ← as_uint 64 (st_AppliedLSN st) kv.2; Ok (MkReplState (st_LeaderLSN st) x)
  else Ok st.

Fixpoint set_replState_fields (st : replState) (l : list (string * json)) : result replState :=
  match l with [] => Ok st | kv :: l => st ← set_replState_field st kv; set_replState_fields st l end.

Definition replState_of_json (v : json) : result replState :=
  match v with
  | JNull => Ok (MkReplState 0 0)
  | JObj l => set_replState_fields (MkReplState 0 0) l
  | _ => Err ErrSyntax
  end.

Definition replStatePath (db : DB) : string := join (db_dataDir db) replStateFilename.

Definition loadReplState (path : string) : M replState :=
  data ← read_file path;
  lift (match parse_json data with Some j => replState_of_json j | None => Err ErrSyntax end).

Definition CurrentLSN (db : DB) : N := match db_broker db with None => 0 | Some b => b_lsn b end.

Definition persistReplState : DM unit :=
  db ← the_db;
  files (writeFileAtomic (replStatePath db) (print_json (replState_json (MkReplState (CurrentLSN db) (db_appliedLSN db))))).

Definition initReplication (ringSize : Z) : DM unit := λ '(db, h),
  let '(r, w) := loadReplState (replStatePath db) (h_world h) in
  let st := match r with Ok st => st | Err _ => MkReplState 0 0 end in
  let db := set_appliedLSN (st_AppliedLSN st) db in
  let db := if (0 <? ringSize)%Z then set_db_broker (Some (setLSN (st_LeaderLSN st) (newReplicationBroker ringSize 0))) db else db in
  (Ok tt, (db, MkHost w (h_dirs h))).

(** ** The registry *)
Section registry.
Context {sha : Sha256}.

(** [OpenCollection] under the data directory, which creates the sub-directory
    first, and [col.broker = db.broker]. *)
Definition open_collection (name : string) (cfg : CollectionConfig) : DM Collection := λ '(db, h),
  let made := match w_faults (h_world h) with Some _ :: _ => h_dirs h | _ => {[name]} ∪ h_dirs h end in
  let '(r, w) := OpenCollection name (db_dataDir db) cfg (h_world h) in
  (match r with Ok c => Ok (set_broker (bool_decide (is_Some (db_broker db))) c) | Err e => Err e end, (db, MkHost w made)).

Definition register (name : string) (c : Collection) : DM unit :=
  modify_db (λ db, set_collections (<[name := c]> (db_collections db)) db).

Fixpoint open_all (names : list string) (cfg : CollectionConfig) : DM unit :=
  match names with
  | [] => mret tt
  | name :: names => c ← open_collection name cfg; register name c;; open_all names cfg
  end.

Definition new_db (dataDir : string) (cfg : DBConfig) : DB :=
  MkDB dataDir (dc_collection cfg) ∅ None 0 (if cfg_Follower cfg then RoleFollower else RoleLeader) 0 false false.

Definition open_existing (cfg : CollectionConfig) : DM unit := λ s, open_all (dir_names s.2) cfg s.

Definition OpenDB (dataDir : string) (cfg : DBConfig) (h : Host) : result DB * Host :=
  match (files syscall;;
         initReplication (ReplicationRingSize cfg);;
         files syscall;;
         open_existing (dc_collection cfg)) (new_db dataDir cfg, h) with
  | (Ok _, (db, h)) => (Ok db, h)
  | (Err e, (_, h)) => (Err e, h)
  end.

Definition CreateCollection (name : string) : DM unit :=
  db ← the_db;
  match db_collections db !! name with
  | Some _ => fail ErrOther
  | None => c ← open_collection name (db_defaultCfg db); register name c
  end.

(** [db.Collection(name)]. *)
Definition get_collection (name : string) : DM Collection :=
  db ← the_db;
  match db_collections db !! name with Some c => mret c | None => fail ErrOther end.

(** Move the outbox of a collection to the broker. *)
Definition publish_all (name : string) (es : list Entry) (b : replicationBroker) : replicationBroker :=
  foldl (λ b e, (publish name e b).2) b es.

Definition flush (name : string) (c : Collection) (db : DB) : DB :=
  set_collections (<[name := set_feed [] c]> (db_collections db))
    (set_db_broker (publish_all name (c_feed c) <$> db_broker db) db).

(** Run an operation of a registered collection. *)
Definition with_collection {A} (name : string) (m : CM A) : DM A := λ '(db, h),
  match db_collections db !! name with
  | None => (Err ErrOther, (db, h))
  | Some c => let '(r, (c, w)) := m (c, h_world h) in (r, (flush name c db, MkHost w (h_dirs h)))
  end.

Definition CreateCollectionWithDefaultTTL (name : string) (defaultTTL : Z) : DM unit :=
  CreateCollection name;; with_collection name (setDefaultTTL defaultTTL).

Definition forget (name : string) : DM unit := modify_db (λ db, set_collections (delete name (db_collections db)) db).

Definition CollectionWithConfig (name : string) (cfg : CollectionConfig) : DM unit :=
  db ← the_db;
  (match db_collections db !! name with
   | Some _ => with_collection name CloseCollection;; forget name
   | None => mret tt
   end);;
  c ← open_collection name cfg; register name c.

Definition DropCollection (name : string) : DM unit :=
  db ← the_db;
  match db_collections db !! name with
  | None => fail ErrOther
  | Some _ =>
      ignore (with_collection name CloseCollection);;
      forget name;;
      RemoveAll (db_dataDir db) name
  end.

Definition CompactCollection `{!RangeOrder} (name : string) : DM unit := with_collection name CompactNow.

Definition ListCollections (db : DB) : list string := (map_to_list (db_collections db)).*1.

(** Every collection is closed, whatever the others report; the first error is
    returned. *)
Fixpoint close_all (names : list string) (first : option error) : DM (option error) :=
  match names with
  | [] => mret first
  | name :: names => λ s,
      let '(r, s) := with_collection name CloseCollection s in
      close_all names (match r, first with Err e, None => Some e | _, _ => first end) s
  end.

(** The first error of a shutdown, the collections' before the watermark's. *)
Definition close_state (first : option error) : DM unit := λ s,
  let '(r, s) := persistReplState s in (match first with Some e => Err e | None => r end, s).

Definition CloseDB : DM unit :=
  db ← the_db;
  first ← close_all (ListCollections db) None;
  db ← the_db;
  if (bool_decide (is_Some (db_broker db)) || (0 <? db_appliedLSN db)%N)%bool then close_state first
  else match first with Some e => fail e | None => mret tt end.

(** ** Following a leader *)

Definition SetAppliedLSN (lsn : N) : DM unit :=
  db ← the_db;
  if (lsn <=? db_appliedLSN db)%N then mret tt
  else modify_db (set_appliedLSN lsn);; persistReplState.

Definition NoteLeaderLSN (lsn : N) : DM unit :=
  modify_db (λ db, if (lsn <=? db_lastLeaderLSN db)%N then db else set_lastLeaderLSN lsn db).

Definition IsFollower (db : DB) : bool := bool_decide (db_role db = RoleFollower).

Definition ReplicationLag (db : DB) : N :=
  if (db_appliedLSN db <? db_lastLeaderLSN db)%N then (db_lastLeaderLSN db - db_appliedLSN db)%N else 0%N.

Definition SetPromoteHook (set : bool) : DM unit := modify_db (set_onPromote set).

(** [ApplyReplication]: a collection the follower has not seen is created. *)
Definition ApplyReplication (collection : string) (e : Entry) : DM unit :=
  db ← the_db;
  (match db_collections db !! collection with
   | Some _ => mret tt
   | None => CreateCollection collection
   end);;
  with_collection collection (applyEntry e).

Record PromoteResult := MkPromoteResult { pr_Role : Role; pr_LSN : N; pr_Lag : N }.

Definition Promote (maxLag : N) (force : bool) : DM PromoteResult :=
  db ← the_db;
  if negb (bool_decide (db_role db = RoleFollower)) then fail ErrNotFollower
  else
    let applied := db_appliedLSN db in
    let leaderLSN := db_lastLeaderLSN db in
    let lag := if (applied <? leaderLSN)%N then (leaderLSN - applied)%N else 0%N in
    if (negb force && (maxLag <? lag)%N)%bool then fail ErrReplicaLagExceeded
    else
      modify_db (set_role RoleLeader);;
      modify_db (λ db, set_db_broker (setLSN applied <$> db_broker db) db);;
      db ← the_db;
      let resultLSN := match db_broker db with
        | Some b => if (applied <? b_lsn b)%N then b_lsn b else applied
        | None => applied
        end in
      modify_db (λ db, if db_onPromote db then set_applying false db else db);;
      ignore persistReplState;;
      mret (MkPromoteResult RoleLeader resultLSN lag).

(** One record of the feed, as the follower's stream handles it: what was applied
    already is skipped, an error ends the stream, a failure to persist the
    position does not. *)
Definition follow_record `{!Protobuf} (r : ReplicationRecord) : DM unit :=
  NoteLeaderLSN (rr_Lsn r);;
  db ← the_db;
  if (rr_Lsn r <=? db_appliedLSN db)%N then mret tt
  else
    ApplyReplication (rr_Collection r) (replRecordToEntry r);;
    ignore (SetAppliedLSN (rr_Lsn r)).

Fixpoint follow `{!Protobuf} (rs : list ReplicationRecord) : DM unit :=
  match rs with [] => mret tt | r :: rs => follow_record r;; follow rs end.

(** One connection to the leader, as the follower sees it: the position the
    leader reports, if it answers; and for a resume position a refusal, or the
    records it sends and how the stream ends. *)
Record Session `{!Protobuf} := MkSession {
  ss_LeaderLsn : option N;
  ss_Replicate : N → result (list ReplicationRecord * option error)
}.

Definition stream `{!Protobuf} (s : Session) : DM unit :=
  db ← the_db;
  let from := db_appliedLSN db in
  (match ss_LeaderLsn s with Some lsn => NoteLeaderLSN lsn | None => mret tt end);;
  match ss_Replicate s from with
  | Err e => fail e
  | Ok (rs, closed) =>
      follow rs;;
      match closed with None => mret tt | Some e => fail e end
  end.

(** [Follower.Run] over the connections it makes until its context is cancelled:
    it reconnects after every outcome but a failed precondition. *)
Fixpoint Run `{!Protobuf} (sessions : list Session) : DM unit :=
  match sessions with
  | [] => fail ErrCanceled
  | s :: sessions => λ st,
      let '(r, st) := stream s st in
      match r with
      | Err ErrFailedPrecondition => (Err ErrFailedPrecondition, st)
      | _ => Run sessions st
      end
  end.
End registry.

(** The feed a leader opens for a follower. *)
Definition SubscribeReplication (now : Time) (fromLSN : N) (followerID : string) (db : DB)
    : option (replSub * list ReplicationEntry) * DB :=
  match db_broker db with
  | None => (None, db)
  | Some b => let '(r, b) := subscribe now fromLSN followerID b in (r, set_db_broker (Some b) db)
  end.

Definition ReplicationStatus (db : DB) : ReplicationStatusData :=
  match db_broker db with None => MkReplStatus 0 [] | Some b => status b end.
