(* ===== verification/DatabaseSpec.v ===== *)
(** * The database under replication

    A follower that applies the records of a feed, for any number of collections
    and creating those it has not seen, ends with the leader's records in each
    ([follower_converges]); operations on one collection leave every other
    collection and its files alone ([collections_isolated]); a promotion refuses a stale
    follower and numbers new entries above what was applied ([promotion_safe]);
    positions survive a clean restart ([restart_keeps_positions]).  Scenarios show
    where the design falls short: positions are not persisted while a leader runs,
    dropping a collection is not replicated, and a forced promotion reuses numbers
    the old leader assigned. *)

From S2P Require Import Prelude GoFloat GoStrconv GoTime GoJson Value Query Store Disk Segment Index SecIndex Meta Collection Steps CollectionSpec TopK Scan ScanSpec IndexInv Open OpenSpec Compactor CompactorSpec LoadJsonl CompactorFiles Broker Replica Database.

(** ** Paths *)
Definition no_slash (s : string) : Prop := Forall (λ a, a ≠ "/"%char) (to_bytes s).

Lemma split_slash (a b x y : bytes) :
  Forall (λ a, a ≠ "/"%char) a → Forall (λ a, a ≠ "/"%char) b → a ++ "/"%char :: x = b ++ "/"%char :: y → a = b.
Proof.
  intros Ha. revert b. induction Ha as [|c a Hc _ IH]; intros [|c' b] Hb H; [done|..]; simplify_eq/=.
  - by apply Forall_cons in Hb as [? _].
  - f_equal. apply IH; [by apply Forall_cons in Hb as [_ ?]|done].
Qed.

Lemma in_dir_unique d n1 n2 p : no_slash n1 → no_slash n2 → in_dir (join d n1) p → in_dir (join d n2) p → n1 = n2.
Proof.
  intros H1 H2 [f1 ->] [f2 H]. apply (inj to_bytes). apply (f_equal to_bytes) in H. unfold join in H. rewrite !to_bytes_app, <-!app_assoc in H.
  apply app_inv_head, app_inv_head in H. by apply (split_slash _ _ (to_bytes f1) (to_bytes f2)).
Qed.

(** A file of the data directory itself. *)
Lemma top_file_outside d n s : no_slash s → ¬ in_dir (join d n) (join d s).
Proof.
  intros Hs [f H]. apply (f_equal to_bytes) in H. unfold join in H. rewrite !to_bytes_app, <-!app_assoc in H.
  apply app_inv_head, app_inv_head in H. unfold no_slash in Hs. rewrite H in Hs. apply Forall_app in Hs as [_ Hs].
  by apply Forall_cons in Hs as [? _].
Qed.

(** ** Opening a collection in an empty directory *)
Section fresh.
Context {sha : Sha256}.

Definition empty_dir (dir : string) (w : World) : Prop := ∀ p, in_dir dir p → w_files w !! p = None.

Lemma glob_in_dir dir prefix suffix p : glob_match dir prefix suffix p = true → in_dir dir p.
Proof.
  unfold glob_match, base_in, strip_prefix. destruct (is_prefix _ (to_bytes p)) eqn:E; [|done]. intros _.
  apply is_prefix_split in E as [r Hr]. exists (of_bytes r). apply (inj to_bytes). unfold join.
  rewrite !to_bytes_app, to_of_bytes, Hr. by rewrite to_bytes_app, <-app_assoc.
Qed.

Lemma glob_empty dir prefix suffix w : empty_dir dir w → glob dir prefix suffix (w_files w) = [].
Proof.
  intros Hd. apply glob_nil. intros p [b Hb]. apply not_true_iff_false. intros Hm%glob_in_dir. by rewrite (Hd p Hm) in Hb.
Qed.

Lemma empty_quiet dir w : empty_dir dir w → quiet dir w.
Proof. intros Hd. split; [apply Hd; apply in_dir_join|by apply glob_empty..]. Qed.

(** The first segment is created, and opening goes on as from a directory with
    an empty segment. *)
Definition with_first (dir : string) (w : World) : World := set_files (<[segmentPath dir 1 := []]> (w_files w)) w.

Lemma first_glob dir w prefix suffix :
  empty_dir dir w → glob dir prefix suffix (w_files (with_first dir w)) =
    if glob_match dir prefix suffix (segmentPath dir 1) then [segmentPath dir 1] else [].
Proof.
  intros Hd. rewrite (glob_ext _ _ _ _ {[segmentPath dir 1 := []]}).
  - unfold glob. assert (sorted_pairs ({[segmentPath dir 1 := []]} : gmap string bytes) = [(segmentPath dir 1, [])]) as ->.
    { apply Permutation_singleton_r. rewrite sorted_pairs_perm, map_to_list_singleton. done. }
    cbn [fmap list_fmap fst]. rewrite filter_cons, filter_nil. destruct (glob_match _ _ _ _); [by rewrite decide_True|by rewrite decide_False].
  - intros p Hp%glob_in_dir. simpl. destruct (decide (p = segmentPath dir 1)) as [->|Hne]; [by rewrite lookup_insert_eq, lookup_singleton_eq|].
    rewrite lookup_insert_ne, lookup_singleton_ne, (Hd p Hp) by done. done.
Qed.

Lemma first_rest dir w : empty_dir dir w → at_rest dir (with_first dir w) [] (segmentPath dir 1) [] [] [] [].
Proof.
  intros Hd. split.
  - rewrite first_glob by done. unfold glob_match. unfold segmentPath. rewrite base_in_join. reflexivity.
  - constructor.
  - simpl. apply lookup_insert_eq.
  - constructor.
  - constructor.
  - apply NoDup_singleton.
  - constructor; [by exists 1%N|constructor].
  - intros n. simpl. rewrite lookup_insert_is_Some'. intros [E|[b Hb]]; [rewrite <-E; by apply list_elem_of_singleton|].
    rewrite Hd in Hb by apply in_dir_segment. done.
Qed.

Lemma first_quiet dir w : empty_dir dir w → quiet dir (with_first dir w).
Proof.
  intros Hd. split.
  - simpl. rewrite lookup_insert_ne; [apply Hd; apply in_dir_join|]. apply not_eq_sym. by apply join_not_segment.
  - rewrite first_glob by done. unfold glob_match, segmentPath. by rewrite base_in_join.
Qed.

Lemma load_segments_first c w :
  no_faults w → empty_dir (c_dir c) w →
  load_segments (c, w) = (Ok tt, (set_active (MkSegment (segmentPath (c_dir c) 1) 0 false OpenFile) (set_sealed [] c), with_first (c_dir c) w)) ∧
  load_segments (c, with_first (c_dir c) w) = load_segments (c, w).
Proof.
  intros Hw Hd.
  assert (load_segments (c, w) = (Ok tt, (set_active (MkSegment (segmentPath (c_dir c) 1) 0 false OpenFile) (set_sealed [] c), with_first (c_dir c) w))) as E.
  { unfold load_segments. erewrite bind_ok by reflexivity. cbn [fst].
    erewrite bind_ok by (apply io_ok; unfold list_dir; rewrite glob_empty by done; reflexivity). cbn [last removelast].
    do 2 erewrite bind_ok by reflexivity.
    erewrite bind_ok by (apply io_ok, openActiveSegment_fresh; [done|apply Hd, in_dir_segment]). reflexivity. }
  split; [done|]. rewrite E.
  destruct (load_segments_spec c (with_first (c_dir c) w) [] (segmentPath (c_dir c) 1) [] [] [] []) as (segs & Hl & Hs & _); [done|by apply first_rest|].
  apply fmap_nil_inv in Hs as ->. rewrite Hl. unfold with_first, set_files. simpl. by rewrite insert_insert_eq.
Qed.

Lemma load_quiet c w : no_faults w → quiet (c_dir c) w →
  load (c, w) = (load_segments;; rebuilt ← load_index false; sidxPaths ← io (list_dir (c_dir c) "sidx_" ".json");
    load_sidxs rebuilt sidxPaths;; load_meta) (c, w).
Proof.
  intros Hw Hq. unfold load. erewrite bind_ok by reflexivity. cbn [fst].
  by rewrite (bind_ok _ _ _ _ _ (io_ok _ c w _ _ (recoverCompaction_none _ _ Hw Hq))).
Qed.

Lemma load_fresh c w : no_faults w → empty_dir (c_dir c) w → load (c, w) = load (c, with_first (c_dir c) w).
Proof.
  intros Hw Hd. rewrite (load_quiet c w Hw (empty_quiet _ _ Hd)), (load_quiet c (with_first (c_dir c) w) Hw (first_quiet _ _ Hd)).
  destruct (load_segments_first c w Hw Hd) as [E1 E2]. rewrite E1 in E2.
  by rewrite (bind_ok _ _ _ _ _ E1), (bind_ok _ _ _ _ _ E2).
Qed.

(** What loading the indexes and the metadata leaves alone. *)
Definition layout (c : Collection) : string * list Segment * Segment * option encryptor * list Entry * bool * string :=
  (c_dir c, c_sealed c, c_active c, c_enc c, c_feed c, c_broker c, c_name c).

Definition settles {A} (dir : string) (m : CM A) : Prop :=
  ∀ c w, c_dir c = dir → layout (m (c, w)).2.1 = layout c ∧ ∀ p, ¬ in_dir dir p → w_files (m (c, w)).2.2 !! p = w_files w !! p.

Lemma settles_bind {A B} dir (m : CM A) (f : A → CM B) : settles dir m → (∀ a, settles dir (f a)) → settles dir (m ≫= f).
Proof.
  intros Hm Hf c w Hc. unfold mbind, SE_bind. specialize (Hm c w Hc).
  destruct (m (c, w)) as [[a|e] [c' w']]; simpl in *; [|done]. destruct Hm as [H1 H2].
  destruct (Hf a c' w') as [H3 H4]; [by injection H1 as -> _ _ _ _ _ _|]. split; [congruence|]. intros p Hp. rewrite H4 by done. by apply H2.
Qed.
Lemma settles_io {A} dir (m : M A) : touches (in_dir dir) m → settles dir (io m).
Proof. intros Hm c w Hc. unfold io. specialize (Hm w). by destruct (m w). Qed.

Lemma touches_loadMeta P p : touches P (loadMeta p).
Proof. unfold loadMeta. touch. Qed.
Lemma touches_scan_max_id P segs m : touches P (scan_max_id segs m).
Proof.
  revert m. induction segs as [|s segs IH]; intros m w p Hp; [done|]. cbn [scan_max_id]. pose proof (touches_ScanAll P s w p Hp) as H.
  destruct (ScanAll s w) as [[es|e] w']; simpl in H; rewrite IH; done.
Qed.

Lemma settles_load_index dir rb : settles dir (load_index rb).
Proof.
  intros c w Hc. unfold load_index. rewrite Hc.
  set (go := λ w : World, match Rebuild (all_segments c) w with
    | (Err e, w) => (Err e, (c, w))
    | (Ok idx, w) => let '(_, w) := Index.Persist idx (indexPath dir) w in (Ok true, (set_index idx c, w))
    end).
  assert (∀ w1, layout (go w1).2.1 = layout c ∧ ∀ p, ¬ in_dir dir p → w_files (go w1).2.2 !! p = w_files w1 !! p) as Hgo.
  { intros w1. unfold go. pose proof (touches_Rebuild (in_dir dir) (all_segments c) w1) as H1.
    destruct (Rebuild (all_segments c) w1) as [[idx|e] w2]; simpl in *; [|by split].
    pose proof (touches_index_Persist dir idx w2) as H2. destruct (Index.Persist idx (indexPath dir) w2) as [r w3]. simpl in *.
    split; [by destruct c|]. intros p Hp. rewrite H2 by done. by apply H1. }
  destruct rb; [apply Hgo|]. pose proof (touches_index_Load (in_dir dir) (indexPath dir) w) as Hl.
  destruct (Index.Load (indexPath dir) w) as [[idx|[]] w1]; simpl in Hl; try (by split);
    try (destruct (Hgo w1) as [G1 G2]; split; [exact G1|]; intros p Hp; rewrite G2 by done; by apply Hl).
  destruct (segmentsValid idx _); [split; [by destruct c|done]|].
  destruct (Hgo w1) as [G1 G2]; split; [exact G1|]; intros p Hp; rewrite G2 by done; by apply Hl.
Qed.

Lemma settles_obj {B} dir (f : Collection → CM B) : (∀ c, c_dir c = dir → settles dir (f c)) → settles dir (obj ≫= f).
Proof. intros H c w Hc. by apply H. Qed.
Lemma settles_modify dir f : (∀ c, layout (f c) = layout c) → settles dir (modify f).
Proof. intros H c w Hc. split; [apply H|done]. Qed.
Lemma settles_ignore {A} dir (m : CM A) : settles dir m → settles dir (ignore m).
Proof. intros H c w Hc. by apply H. Qed.

Lemma settles_load_meta dir : settles dir load_meta.
Proof.
  intros c w Hc. unfold load_meta. rewrite Hc. pose proof (touches_loadMeta (in_dir dir) (metaPath dir) w) as Hl.
  destruct (loadMeta (metaPath dir) w) as [[m|e] w1]; simpl in Hl.
  - set (c1 := applyPersistedDefaultTTL _ _). assert (layout c1 = layout c) as E1.
    { subst c1. unfold applyPersistedDefaultTTL, set_DefaultTTL. destruct (_ <=? 0)%Z; destruct c as [? ? [] ? ? ? ? ? ? ? ? ? ? ? ? ? ? ? ?]; done. }
    unfold activeMaxID, mbind, SE_bind, modify. pose proof (touches_ScanAll (in_dir dir) (c_active c1) w1) as H1.
    destruct (ScanAll (c_active c1) w1) as [[es|e] w2]; simpl in *; (split; [destruct (_ <? _)%N; [destruct c1|]; exact E1|]);
      intros p Hp; rewrite H1 by done; by apply Hl.
  - cbv zeta. match goal with |- layout (?m (c, w1)).2.1 = _ ∧ _ => assert (settles dir m) as Hm end.
    { apply settles_bind; [apply settles_io, touches_scan_max_id|]. intros m.
      apply settles_bind; [apply settles_io, touches_now|]. intros n.
      apply settles_bind; [apply settles_modify; by intros []|]. intros _. apply settles_obj. intros c' ->.
      apply settles_ignore, settles_io, touches_persistMeta. }
    destruct (Hm c w1 Hc) as [H1 H2]. split; [exact H1|]. intros p Hp. rewrite H2 by done. by apply Hl.
Qed.

Lemma settles_load_sidx dir rb p : in_dir dir p → settles dir (load_sidx rb p).
Proof.
  intros Hp c w Hc. unfold load_sidx. set (s0 := newSecondaryIndex _ _).
  assert (w_files (SecIndex.Load p (s0, w)).2.2 = w_files w) as Hl.
  { unfold SecIndex.Load, io, mbind, SE_bind. assert (w_files (read_file p w).2 = w_files w) as Hr.
    { apply map_eq. intros q. apply (touches_read (λ _, False) p w q). tauto. }
    destruct (read_file p w) as [[b|e] w1]; simpl in *; [|done]. by repeat (case_match; simpl). }
  destruct (SecIndex.Load p (s0, w)) as [r [s w1]]. simpl in Hl.
  pose proof (touches_rebuild (in_dir dir) s (all_segments c) w1) as Hr.
  set (field := sidx_field_of (c_dir c) p).
  set (keep := λ s w, (@Ok unit tt, (set_sidxMap (<[field := s]> (c_sidxMap c)) c, w) : Collection * World)). assert (∀ s w, layout (keep s w).2.1 = layout c ∧ (keep s w).2.2 = w) as Hk by (intros; by destruct c).
  assert (∀ x, x = match rebuild s (all_segments c) w1 with
      | (Err e, w) => (Err e, (c, w))
      | (Ok s, w) => let '(_, w) := SecIndex.Persist s p w in keep s w
      end → layout x.2.1 = layout c ∧ ∀ q, ¬ in_dir dir q → w_files x.2.2 !! q = w_files w !! q) as Hreb.
  { intros x ->. destruct (rebuild s (all_segments c) w1) as [[s'|e] w2]; simpl in Hr; [|split; [done|]; intros q Hq; simpl; by rewrite Hr, Hl by done].
    assert (touches (in_dir dir) (SecIndex.Persist s' p)) as Hpe by (unfold SecIndex.Persist; touch).
    specialize (Hpe w2). destruct (SecIndex.Persist s' p w2) as [r' w3]. simpl in Hpe. destruct (Hk s' w3) as [K1 K2]. split; [exact K1|].
    intros q Hq. rewrite K2, Hpe, Hr, Hl by done. done. }
  destruct r; [destruct rb|]; try (by apply Hreb). destruct (Hk s w1) as [K1 K2]. split; [exact K1|]. intros q Hq. simpl. by rewrite Hl.
Qed.

Lemma settles_load_sidxs dir rb ps : Forall (in_dir dir) ps → settles dir (load_sidxs rb ps).
Proof. induction 1 as [|p ps Hp _ IH]; [done|]. apply settles_bind; [by apply settles_load_sidx|intros _; exact IH]. Qed.

Lemma settles_list {B} dir (f : list string → CM B) :
  (∀ ps, Forall (in_dir dir) ps → settles dir (f ps)) → settles dir (io (list_dir dir "sidx_" ".json") ≫= f).
Proof.
  intros Hf c w Hc. change ((io (list_dir dir "sidx_" ".json") ≫= f) (c, w)) with (f (glob dir "sidx_" ".json" (w_files w)) (c, w)).
  apply Hf; [|done]. unfold glob. apply Forall_forall. intros p Hp. apply list_elem_of_filter in Hp as [Hp _]. by eapply glob_in_dir.
Qed.

(** A fresh collection: one empty segment, no records. *)
Record fresh_coll (name dir : string) (c : Collection) (w : World) : Prop := {
  fc_inv : coll_inv c w [] [];
  fc_dir : c_dir c = dir;
  fc_segments : paths c = [segmentPath dir 1];
  fc_plain : c_enc c = None;
  fc_feed : c_feed c = []
}.

Lemma OpenCollection_fresh name dataDir cfg w :
  let dir := join dataDir name in
  no_faults w → empty_dir dir w →
  ∃ c w', OpenCollection name dataDir cfg w = (Ok c, w') ∧ no_faults w' ∧ fresh_coll name dir c w' ∧
    ∀ p, ¬ in_dir dir p → w_files w' !! p = w_files w !! p.
Proof.
  intros dir Hw Hd. set (c0 := fresh_collection name dir cfg). pose proof (first_quiet dir w Hd) as Hq.
  destruct (load_spec c0 (with_first dir w) [] (segmentPath dir 1) [] [] [] [] [MkSegment (segmentPath dir 1) 0 false OpenFile])
    as (c & w' & Hl & Hw' & Hcd & Hinv); [done|by apply first_rest|apply Hq|done| |by unfold meta_covers; destruct (loadMeta _ _) as [[|] ?]; [intros o e ?%not_elem_of_nil|]|].
  { assert (w_files (with_first dir w) !! indexPath dir = None) as Hn.
    { simpl. rewrite lookup_insert_ne; [apply Hd, in_dir_index|]. apply not_eq_sym. by apply join_not_segment. }
    unfold index_current, Index.Load, read_file, mbind, SE_bind. rewrite syscall_nofault by done. unfold file_bytes.
    change (c_dir c0) with dir. rewrite Hn. by right. }
  rewrite <-load_fresh in Hl by done. exists c, w'. split; [by apply OpenCollection_load|]. split; [done|].
  rewrite load_quiet in Hl by (try done; by apply empty_quiet).
  destruct (load_segments_first c0 w Hw Hd) as [E1 _]. erewrite bind_ok in Hl by exact E1. change (c_dir c0) with dir in *.
  set (c1 := set_active _ _) in *. match type of Hl with ?m _ = _ => assert (settles dir m) as Hm end.
  { apply settles_bind; [apply settles_load_index|]. intros rb. apply settles_list. intros ps Hps.
    apply settles_bind; [by apply settles_load_sidxs|intros _; apply settles_load_meta]. }
  destruct (Hm c1 (with_first dir w) eq_refl) as [H1 H2]. rewrite Hl in H1, H2. cbn [fst snd] in H1, H2.
  unfold layout in H1. injection H1 as L1 L2 L3 L4 L5 L6 L7. split.
  - split; [done|done|unfold paths, all_segments; by rewrite L2, L3|done|done].
  - intros p Hp. rewrite H2 by done. simpl. rewrite lookup_insert_ne; [done|]. intros <-. apply Hp, in_dir_segment.
Qed.
End fresh.

(** ** Operations on one collection and the others *)

(** A name that is one element of a path. *)
Definition plain_name (s : string) : Prop := no_slash s ∧ s ≠ "" ∧ s ≠ "." ∧ s ≠ "..".

Section isolation.
Context {sha : Sha256}.

Lemma local_maybe_raise dir id : local dir (modify (raise_idSeq id)).
Proof. apply local_modify. intros c Hc. unfold raise_idSeq. destruct (_ <? _)%N; [|done]. by destruct c. Qed.
#[local] Hint Resolve local_maybe_raise local_maybeRotate local_ensureKeyIndex : files.
Lemma local_apply_tail dir e data : local dir (apply_tail e data).
Proof. unfold apply_tail. stay_home. Qed.
#[local] Hint Resolve local_apply_tail : files.
Lemma local_applyEntry dir e : local dir (applyEntry e).
Proof. unfold applyEntry, apply_write. stay_home. Qed.

(** The operations of a collection that write. *)
Inductive client_op :=
  | CInsert (data : option doc) (exp : Z)
  | CInsertMany (records : list (option doc)) (exp : Time)
  | CUpdate (id : N) (data : option doc) (exp : Z) (keep : bool)
  | CDelete (id : N)
  | CUpsert (key : string) (data : option doc)
  | CSwap (key : string) (data : option doc) (ok : option doc → N → bool)
  | CCommit (ops : list txOp)
  | CEnsureIndex (field : string) (unique : bool)
  | CDropIndex (field : string)
  | CReap
  | CSetDefaultTTL (ttl : Z)
  | CApply (e : Entry)
  | CClose.

Definition perform (op : client_op) : CM unit :=
  match op with
  | CInsert data exp => ignore (insert_ data exp)
  | CInsertMany records exp => ignore (InsertMany records exp)
  | CUpdate id data exp keep => ignore (update_ id data exp keep)
  | CDelete id => Delete id
  | CUpsert key data => ignore (Upsert key data)
  | CSwap key data ok => ignore (compareAndSwap key data ok)
  | CCommit ops => CommitTx ops
  | CEnsureIndex field unique => ensureIndex field unique
  | CDropIndex field => DropIndex field
  | CReap => reapExpired
  | CSetDefaultTTL ttl => setDefaultTTL ttl
  | CApply e => applyEntry e
  | CClose => CloseCollection
  end.

Lemma local_perform dir op : local dir (perform op).
Proof.
  destruct op; simpl; try apply local_ignore; eauto using local_insert, local_InsertMany, local_update, local_Delete, local_Upsert,
    local_compareAndSwap, local_CommitTx, local_ensureIndex, local_DropIndex, local_reapExpired, local_setDefaultTTL,
    local_applyEntry, local_CloseCollection.
Qed.

(** Steps of the database, whatever they report. *)
Inductive db_op :=
  | OnCollection (name : string) (op : client_op)
  | Load (name : string) (input : bytes) (ended : option error) (keyField : string)
  | Compact (name : string)
  | Drop (name : string).
Definition target (op : db_op) : string :=
  match op with OnCollection name _ | Load name _ _ _ | Compact name | Drop name => name end.
Definition run_db `{RangeOrder} (op : db_op) : DM unit :=
  match op with
  | OnCollection name op => with_collection name (perform op)
  | Load name input ended keyField => with_collection name (ignore (LoadJSONL input ended keyField))
  | Compact name => CompactCollection name
  | Drop name => DropCollection name
  end.
Fixpoint run_all `{RangeOrder} (ops : list db_op) : DM unit :=
  match ops with [] => mret tt | op :: ops => ignore (run_db op);; run_all ops end.

(** Every registered collection works in its own directory. *)
Definition housed (db : DB) : Prop :=
  ∀ name c, db_collections db !! name = Some c → plain_name name ∧ at_home (join (db_dataDir db) name) c.

(** What a step on another collection leaves alone. *)
Record spares (name : string) (s s' : DB * Host) : Prop := {
  sp_dir : db_dataDir s'.1 = db_dataDir s.1;
  sp_coll : db_collections s'.1 !! name = db_collections s.1 !! name;
  sp_files : ∀ p, in_dir (join (db_dataDir s.1) name) p → w_files (h_world s'.2) !! p = w_files (h_world s.2) !! p
}.

#[global] Instance spares_preorder name : PreOrder (spares name).
Proof.
  split; [done|]. intros s1 s2 s3 [A1 A2 A3] [B1 B2 B3]. split; [congruence|congruence|].
  intros p Hp. rewrite B3 by (by rewrite A1). by apply A3.
Qed.

Lemma in_dirb_spec dir p : in_dirb dir p = true ↔ in_dir dir p.
Proof.
  unfold in_dirb. split.
  - intros [r Hr]%is_prefix_split. exists (of_bytes r). apply (inj to_bytes). unfold join. rewrite !to_bytes_app, to_of_bytes, Hr.
    by rewrite to_bytes_app, <-app_assoc.
  - intros [f ->]. unfold join. rewrite !to_bytes_app, <-to_bytes_app, app_assoc, <-to_bytes_app. apply is_prefix_app.
Qed.

Lemma remove_tree_outside dir o fs p : ¬ in_dir dir p → remove_tree dir o fs !! p = fs !! p.
Proof.
  intros Hp. assert (in_dirb dir p = false) as Hb by (apply not_true_iff_false; by rewrite in_dirb_spec).
  destruct o as [k|]; simpl.
  - assert (∀ l, Forall (λ q, in_dirb dir q = true) l → ∀ m : gmap string bytes, foldl (λ fs p, delete p fs) m l !! p = m !! p) as H.
    { induction 1 as [|q l Hq _ IH]; intros m; [done|]. simpl. rewrite IH, lookup_delete_ne; [done|]. intros ->. congruence. }
    apply H. apply Forall_take, Forall_forall. intros q Hq. by apply list_elem_of_filter in Hq as [? _].
  - destruct (fs !! p) as [b|] eqn:E; [by apply map_lookup_filter_Some|]. apply map_lookup_filter_None. by left.
Qed.

(** A step keeps every collection in its place and spares the others. *)
Definition confined (name : string) {A} (m : DM A) : Prop := ∀ db h, housed db →
  housed (m (db, h)).2.1 ∧ ∀ other, plain_name other → other ≠ name → spares other (db, h) (m (db, h)).2.

Lemma confined_bind {A B} name (m : DM A) (f : A → DM B) : confined name m → (∀ a, confined name (f a)) → confined name (m ≫= f).
Proof.
  intros Hm Hf db h Hdb. unfold mbind, SE_bind. destruct (Hm db h Hdb) as [H1 H2].
  destruct (m (db, h)) as [[a|e] [db' h']]; simpl in *; [|done]. destruct (Hf a db' h' H1) as [H3 H4].
  split; [done|]. intros other Ho Hne. etrans; [by apply H2|by apply H4].
Qed.

Lemma confined_ignore {A} name (m : DM A) : confined name m → confined name (ignore m).
Proof. intros H db h Hdb. by apply H. Qed.

Lemma confined_with {A} name (m : CM A) : (∀ dir, local dir m) → confined name (with_collection name m).
Proof.
  intros Hm db h Hdb. unfold with_collection. destruct (db_collections db !! name) as [c|] eqn:Hc; [|done].
  destruct (Hdb name c Hc) as [Hn Hhome]. destruct (Hm _ c (h_world h) Hhome) as [H1 H2].
  destruct (m (c, h_world h)) as [r [c' w']]. cbn [fst snd] in *.
  assert (at_home (join (db_dataDir db) name) (set_feed [] c')) as H3 by (by destruct c').
  assert (db_dataDir (flush name c' db) = db_dataDir db ∧ db_collections (flush name c' db) = <[name := set_feed [] c']> (db_collections db))
    as [Ed Ec] by (by destruct db). split.
  - intros n x. rewrite Ed, Ec. intros [[<- <-]|[Hne Hx]]%lookup_insert_Some; [done|]. by apply Hdb.
  - intros other Ho Hne. split; cbn [fst snd h_world]; [done|by rewrite Ec, lookup_insert_ne|].
    intros p Hp. apply H2. intros Hp'. apply Hne. by apply (in_dir_unique (db_dataDir db) _ _ p); [apply Ho|apply Hn|..].
Qed.

Lemma confined_forget name : confined name (forget name).
Proof.
  intros db h Hdb. split.
  - intros n c. destruct db. simpl in *. intros [_ Hc]%lookup_delete_Some. by apply Hdb.
  - intros other Ho Hne. split; destruct db; simpl; [done|by rewrite lookup_delete_ne|done].
Qed.

Lemma RemoveAll_spares db h d name other :
  plain_name name → plain_name other → other ≠ name → db_dataDir db = d → spares other (db, h) (RemoveAll d name (db, h)).2.
Proof.
  intros Hn Ho Hne <-. unfold RemoveAll. assert (∀ p, w_files (outcome (h_world h)).2 !! p = w_files (h_world h) !! p) as Ho'.
  { intros p. apply (touches_outcome (λ _, False)). tauto. }
  destruct (outcome (h_world h)) as [[o|e] w]; simpl in Ho'; [|by split; simpl].
  assert (∀ p, in_dir (join (db_dataDir db) other) p →
    remove_tree (join (db_dataDir db) name) o (w_files w) !! p = w_files (h_world h) !! p) as Hf.
  { intros p Hp. rewrite remove_tree_outside; [done|]. intros Hp'. apply Hne.
    by apply (in_dir_unique (db_dataDir db) _ _ p); [apply Ho|apply Hn|..]. }
  destruct o; split; try done.
Qed.

Lemma confined_drop name : confined name (DropCollection name).
Proof.
  intros db h Hdb. unfold DropCollection. erewrite bind_ok by reflexivity. cbn [fst]. set (d := db_dataDir db).
  destruct (db_collections db !! name) as [c|] eqn:Hc; [|done]. destruct (Hdb name c Hc) as [Hn _].
  assert (confined name (ignore (with_collection name CloseCollection);; forget name)) as Hcf.
  { apply confined_bind; [apply confined_ignore, confined_with; intros; apply local_CloseCollection|intros _; apply confined_forget]. }
  specialize (Hcf db h Hdb). unfold mbind, SE_bind in *. cbn [ignore fst snd] in *.
  destruct (forget name (with_collection name CloseCollection (db, h)).2) as [r [db1 h1]] eqn:E.
  assert (r = Ok tt) as -> by (unfold forget, modify_db in E; destruct (with_collection _ _ _) as [? [? ?]]; simpl in E; congruence).
  destruct Hcf as [H1 H2]. cbn [fst snd] in *. assert (∀ s, (RemoveAll d name s).2.1 = s.1) as Hdb'.
  { intros [db2 h2]. unfold RemoveAll. by destruct (outcome _) as [[[|]|] ?]. }
  split; [by rewrite Hdb'|]. intros other Ho Hne. specialize (H2 other Ho Hne). etrans; [exact H2|].
  apply RemoveAll_spares; [done..|]. apply (sp_dir _ _ _ H2).
Qed.

Lemma confined_run `{RangeOrder} op : confined (target op) (run_db op).
Proof.
  destruct op as [name op|name input ended k|name|name]; simpl.
  - apply confined_with; intros; apply local_perform.
  - apply confined_with; intros; apply local_ignore, local_LoadJSONL.
  - apply confined_with; intros; apply local_CompactNow.
  - apply confined_drop.
Qed.

Lemma run_all_spares `{RangeOrder} name ops s :
  housed s.1 → plain_name name → Forall (λ op, target op ≠ name) ops → spares name s (run_all ops s).2.
Proof.
  intros Hs Hn Hops. revert s Hs. induction Hops as [|op ops Hop _ IH]; intros [db h] Hs; [done|].
  cbn [run_all]. destruct (confined_run op db h Hs) as [H1 H2]. erewrite bind_ok by reflexivity. etrans; [by apply H2|]. by apply IH.
Qed.

(** [C15] Collections are isolated.  In a database whose collections have plain
    names (one element of a path: the engine itself does not check this) and work
    in the directories of these names, let any sequence of operations run on other
    collections: inserts, batches, updates, deletes, upserts, compare-and-swaps,
    transactions, bulk loads, making and dropping indexes, reaping, changes of the
    default time to live, replicated entries, compactions, closing and dropping.
    Whatever they report and whichever of their system calls fail, a collection
    keeps its state, every file of its directory, and with them its invariant and
    its records.  (Creating and reopening collections is not among the operations:
    recovery follows the paths a manifest names.) *)
Theorem collections_isolated `{RangeOrder} (db : DB) (h : Host) (name : string) (c : Collection) (ops : list db_op) :
  housed db → db_collections db !! name = Some c → Forall (λ op, target op ≠ name) ops →
  let '(db', h') := (run_all ops (db, h)).2 in
  db_collections db' !! name = Some c ∧
  (∀ p, in_dir (join (db_dataDir db) name) p → w_files (h_world h') !! p = w_files (h_world h) !! p) ∧
  (∀ logs log, coll_inv c (h_world h) logs log → coll_inv c (h_world h') logs log).
Proof.
  intros Hdb Hc Hops. destruct (Hdb name c Hc) as [Hn [Hd _]].
  destruct (run_all_spares name ops (db, h) Hdb Hn Hops) as [H1 H2 H3]. destruct (run_all ops (db, h)).2 as [db' h']. cbn [fst snd] in *.
  split_and!; [congruence|done|]. intros logs log Hinv. apply (coll_inv_frame c (h_world h)); [done|].
  intros n. apply H3. rewrite Hd. apply in_dir_segment.
Qed.
End isolation.

(** ** A follower *)
Section following.
Context {sha : Sha256}.

(** The part of the handle replication keeps between records. *)
Definition positions (db : DB) : string * N * Role * N := (db_dataDir db, db_appliedLSN db, db_role db, db_lastLeaderLSN db).

(** A collection of the follower holds the records [t], with room for [n] more
    entries; one that does not exist holds none and has no files. *)
Definition holds (n : nat) (db : DB) (w : World) (name : string) (t : table) : Prop :=
  match db_collections db !! name with
  | Some c => key_indexable c ∧ room_for n c ∧ ∃ logs log, coll_inv c w logs log ∧ coll_table logs log = t
  | None => t = ∅ ∧ empty_dir (join (db_dataDir db) name) w
  end.

Lemma holds_spares n db h db' h' name t :
  housed db → spares name (db, h) (db', h') → holds n db (h_world h) name t → holds n db' (h_world h') name t.
Proof.
  intros Hdb [H1 H2 H3] Hh. cbn [fst snd] in *. unfold holds in *. rewrite H2. destruct (db_collections db !! name) as [c|] eqn:Hc.
  - destruct Hh as (Hk & Hr & logs & log & Hinv & Ht). split_and!; [done..|]. exists logs, log. split; [|done].
    destruct (Hdb name c Hc) as [_ [Hd _]]. apply (coll_inv_frame c (h_world h)); [done|]. intros n0. apply H3. rewrite Hd. apply in_dir_segment.
  - destruct Hh as [-> He]. split; [done|]. rewrite H1. intros p Hp. rewrite H3 by done. by apply He.
Qed.

Lemma holds_fewer n m db w name t : m ≤ n → holds n db w name t → holds m db w name t.
Proof. unfold holds. intros Hm. destruct (db_collections db !! name) as [c|]; [|done]. intros (H1 & H2 & H3). split_and!; [done| |done]. unfold room_for in *. lia. Qed.

Lemma inv_at_home c w logs log : coll_inv c w logs log → at_home (c_dir c) c.
Proof.
  intros Hinv. split; [done|]. pose proof (inv_numbers _ _ _ _ Hinv) as Hn. unfold paths, all_segments in Hn.
  rewrite fmap_app in Hn. apply Forall_app in Hn as [Hs Hn]. apply Forall_cons in Hn as [(n & _ & Ha) _].
  constructor; [rewrite Ha; apply in_dir_segment|]. rewrite Forall_fmap in Hs. eapply Forall_impl; [exact Hs|].
  intros s (k & _ & Hk). cbn in Hk. rewrite Hk. apply in_dir_segment.
Qed.

(** What one step leads to, for the collection it is on and for the others. *)
Record progress (n : nat) (name : string) (t : table) (s s' : DB * Host) : Prop := {
  pg_nofault : no_faults (h_world s'.2);
  pg_housed : housed s'.1;
  pg_holds : holds n s'.1 (h_world s'.2) name t;
  pg_spares : ∀ other, plain_name other → other ≠ name → spares other s s'
}.

Lemma CreateCollection_spec n db h name :
  no_faults (h_world h) → housed db → plain_name name → db_collections db !! name = None →
  empty_dir (join (db_dataDir db) name) (h_world h) → (N.of_nat n + 1 < 2 ^ 64)%N →
  ∃ db' h', CreateCollection name (db, h) = (Ok tt, (db', h')) ∧ positions db' = positions db ∧
    db_broker db' = db_broker db ∧
    (∃ c, db_collections db' !! name = Some c ∧ c_feed c = [] ∧ c_broker c = bool_decide (is_Some (db_broker db)) ∧
      coll_inv c (h_world h') [] []) ∧ progress n name ∅ (db, h) (db', h').
Proof.
  intros Hw Hdb Hn Hnone He Hb. unfold CreateCollection. erewrite bind_ok by reflexivity. cbn [fst]. rewrite Hnone.
  destruct (OpenCollection_fresh name (db_dataDir db) (db_defaultCfg db) (h_world h) Hw He) as (c & w' & Ho & Hw' & [F1 F2 F3 F4 F5] & Hf).
  unfold open_collection. erewrite bind_ok by (rewrite Ho; reflexivity). unfold register, modify_db. set (c1 := set_broker _ c).
  assert (same_store c c1 ∧ c_enc c1 = c_enc c) as [Hss Hen] by (subst c1; by destruct c).
  pose proof (coll_inv_same _ _ _ _ _ Hss F1) as Hinv. assert (c_dir c1 = join (db_dataDir db) name) as Hd1 by (destruct Hss; congruence).
  eexists _, _. split; [reflexivity|]. destruct db as [dd cfg cs br al ro ll op ap]. cbn [db_collections db_dataDir set_collections] in *.
  split; [done|]. split; [done|]. split; [exists c1; rewrite lookup_insert_eq; split_and!; [done|subst c1; by destruct c|by destruct c|done]|].
  split; cbn [fst snd h_world db_collections db_dataDir]; [done|..].
  - intros n' x. cbn. intros [[<- <-]|[_ Hx]]%lookup_insert_Some; [split; [done|]; rewrite <-Hd1; by eapply inv_at_home|by apply Hdb].
  - unfold holds. cbn. rewrite lookup_insert_eq. split; [unfold key_indexable; by rewrite Hen, F4|]. split; [|by exists [], []].
    unfold room_for. destruct Hss as (_ & S1 & S2 & _). rewrite Hd1. rewrite (max_segment_paths _ _ [MkSegment (segmentPath (join dd name) 1) 0 false OpenFile]).
    + unfold max_segment. cbn [foldl s_path]. rewrite seg_number_segmentPath by done. cbn. lia.
    + unfold all_segments. rewrite S1, S2. exact F3.
  - intros other Ho' Hne. split; cbn; [done|by rewrite lookup_insert_ne|]. intros p Hp. apply Hf. intros Hp'. apply Hne.
    by apply (in_dir_unique dd _ _ p); [apply Ho'|apply Hn|..].
Qed.

Lemma with_apply_spec n db h name e t :
  no_faults (h_world h) → housed db → is_Some (db_collections db !! name) → holds (S n) db (h_world h) name t → applicable e →
  ∃ db' h', with_collection name (applyEntry e) (db, h) = (Ok tt, (db', h')) ∧ positions db' = positions db ∧
    progress n name (apply_table t e) (db, h) (db', h').
Proof.
  intros Hw Hdb [c Hc] Hh He. destruct (confined_with name (applyEntry e) (λ dir, local_applyEntry dir e) db h Hdb) as [C1 C2].
  unfold holds in Hh. rewrite Hc in Hh. destruct Hh as (Hk & Hr & logs & log & Hinv & <-). unfold room_for in Hr.
  destruct (applyEntry_spec c (h_world h) logs log e Hinv Hw) as (c' & w' & lg & lg' & A1 & A2 & A3 & A4 & A5 & Hd & Hen & Hm);
    [unfold room; lia|done|done|].
  unfold with_collection in *. rewrite Hc, A1 in *. cbn [fst snd] in C1, C2. eexists _, _. split; [reflexivity|].
  split; [by destruct db|]. split; cbn [fst snd h_world]; [done|done| |done].
  unfold holds. assert (db_collections (flush name c' db) = <[name := set_feed [] c']> (db_collections db)) as -> by (by destruct db).
  rewrite lookup_insert_eq. split_and!; [unfold key_indexable in *; destruct c'; simpl in *; by rewrite Hen| |].
  - unfold room_for. assert (c_dir (set_feed [] c') = c_dir c) as -> by (by destruct c').
    assert (all_segments (set_feed [] c') = all_segments c') as -> by (by destruct c'). lia.
  - exists lg, lg'. split; [|done]. eapply coll_inv_same; [|exact A4]. by destruct c'.
Qed.

Lemma ApplyReplication_spec n db h name e t :
  no_faults (h_world h) → housed db → plain_name name → holds (S n) db (h_world h) name t → applicable e → (N.of_nat n + 2 < 2 ^ 64)%N →
  ∃ db' h', ApplyReplication name e (db, h) = (Ok tt, (db', h')) ∧ positions db' = positions db ∧
    progress n name (apply_table t e) (db, h) (db', h').
Proof.
  intros Hw Hdb Hn Hh He Hb. unfold ApplyReplication. erewrite bind_ok by reflexivity. cbn [fst].
  destruct (db_collections db !! name) as [c|] eqn:Hc.
  { erewrite bind_ok by reflexivity. by apply with_apply_spec. }
  unfold holds in Hh. rewrite Hc in Hh. destruct Hh as [-> Hempty].
  destruct (CreateCollection_spec (S n) db h name Hw Hdb Hn Hc Hempty) as (db1 & h1 & C1 & C2 & _ & (c & C3 & _) & [P1 P2 P3 P4]); [lia|].
  erewrite bind_ok by exact C1. destruct (with_apply_spec n db1 h1 name e ∅ P1 P2 (mk_is_Some _ _ C3) P3 He) as (db2 & h2 & D1 & D2 & [Q1 Q2 Q3 Q4]).
  exists db2, h2. split_and!; [done|congruence|]. split; [done..|]. intros other Ho Hne. etrans; [by apply P4|by apply Q4].
Qed.

Lemma persistReplState_spec db h :
  no_faults (h_world h) → ∃ w', persistReplState (db, h) = (Ok tt, (db, MkHost w' (h_dirs h))) ∧ no_faults w' ∧
    w_files w' !! replStatePath db = Some (print_json (replState_json (MkReplState (CurrentLSN db) (db_appliedLSN db)))) ∧
    ∀ name p, in_dir (join (db_dataDir db) name) p → w_files w' !! p = w_files (h_world h) !! p.
Proof.
  intros Hw. unfold persistReplState. erewrite bind_ok by reflexivity. cbn [fst]. unfold files.
  destruct (writeFileAtomic_nofault (replStatePath db) (print_json (replState_json (MkReplState (CurrentLSN db) (db_appliedLSN db))))
    (h_world h) Hw) as (fs & -> & Hfs & Hfr). eexists. split; [reflexivity|]. split_and!; [done|done|]. intros name p Hp. simpl.
  unfold replStatePath in Hfr. rewrite join_tmp in Hfr. apply Hfr; intros ->; revert Hp; apply top_file_outside;
    apply (bool_decide_unpack _); vm_compute; reflexivity.
Qed.

Lemma SetAppliedLSN_spec db h lsn :
  no_faults (h_world h) → (db_appliedLSN db < lsn)%N →
  ∃ w', SetAppliedLSN lsn (db, h) = (Ok tt, (set_appliedLSN lsn db, MkHost w' (h_dirs h))) ∧ no_faults w' ∧
    ∀ name p, in_dir (join (db_dataDir db) name) p → w_files w' !! p = w_files (h_world h) !! p.
Proof.
  intros Hw Hlt. unfold SetAppliedLSN. erewrite bind_ok by reflexivity. cbn [fst]. rewrite (proj2 (N.leb_gt _ _)) by done.
  erewrite bind_ok by reflexivity. destruct (persistReplState_spec (set_appliedLSN lsn db) h Hw) as (w' & -> & Hw' & _ & Hfr).
  exists w'. split_and!; [done|done|]. by destruct db.
Qed.

Context {pb : Protobuf} {pb_laws : ProtobufLaws}.

(** The feed's next record. *)
Lemma follow_record_spec n db h re r t :
  no_faults (h_world h) → housed db → plain_name (re_Collection re) → holds (S n) db (h_world h) (re_Collection re) t →
  replEntryToProto re = Ok r → wf_entry (re_Entry re) → applicable (wire (re_Entry re)) →
  (db_appliedLSN db < re_LSN re)%N → (N.of_nat n + 2 < 2 ^ 64)%N →
  ∃ db' h', follow_record r (db, h) = (Ok tt, (db', h')) ∧ db_appliedLSN db' = re_LSN re ∧ (re_LSN re ≤ db_lastLeaderLSN db')%N ∧
    db_dataDir db' = db_dataDir db ∧
    progress n (re_Collection re) (apply_table t (wire (re_Entry re))) (db, h) (db', h').
Proof.
  intros Hw Hdb Hn Hh Hr Hwf He Hlt Hb. destruct (wire_roundtrip re Hwf) as (r' & Hr' & Hl & Hc & Hentry).
  rewrite Hr in Hr'. injection Hr' as <-. unfold follow_record. erewrite bind_ok by reflexivity. erewrite bind_ok by reflexivity. cbn [fst].
  rewrite Hl, Hc, Hentry. set (db1 := if (re_LSN re <=? db_lastLeaderLSN db)%N then db else _).
  assert (db_appliedLSN db1 = db_appliedLSN db ∧ db_dataDir db1 = db_dataDir db ∧ db_collections db1 = db_collections db ∧
    (re_LSN re ≤ db_lastLeaderLSN db1)%N) as (E1 & E2 & E3 & E4).
  { subst db1. destruct (N.leb_spec (re_LSN re) (db_lastLeaderLSN db)); [done|]. destruct db. by simpl. }
  rewrite E1, (proj2 (N.leb_gt _ _)) by done.
  assert (housed db1) as Hdb1 by (unfold housed; by rewrite E2, E3).
  destruct (ApplyReplication_spec n db1 h (re_Collection re) (wire (re_Entry re)) t) as (db2 & h2 & A1 & A2 & [P1 P2 P3 P4]);
    [done|done|done|unfold holds; by rewrite E2, E3|done|done|].
  erewrite bind_ok by exact A1. unfold positions in A2. injection A2 as D1 D2 D3 D4.
  destruct (SetAppliedLSN_spec db2 h2 (re_LSN re) P1) as (w3 & S1 & S2 & S3); [congruence|].
  unfold ignore. rewrite S1. eexists _, _. split; [reflexivity|].
  assert (db_collections (set_appliedLSN (re_LSN re) db2) = db_collections db2 ∧ db_dataDir (set_appliedLSN (re_LSN re) db2) = db_dataDir db2)
    as [F1 F2] by (by destruct db2).
  assert (∀ name, spares name (db2, h2) (set_appliedLSN (re_LSN re) db2, MkHost w3 (h_dirs h2))) as Hsp.
  { intros name. split; cbn [fst snd h_world]; [done|by rewrite F1|apply S3]. }
  split_and!; [by destruct db2|destruct db2; simpl in *; congruence|congruence|]. split; cbn [fst snd h_world].
  - done.
  - unfold housed. by rewrite F1, F2.
  - by apply (holds_spares n db2 h2 _ (MkHost w3 (h_dirs h2))).
  - intros other Ho Hne. etrans; [|apply Hsp]. destruct (P4 other Ho Hne) as [G1 G2 G3]. cbn [fst snd] in *.
    split; cbn [fst snd]; [congruence|congruence|]. intros p Hp. apply G3. by rewrite E2.
Qed.

(** Records at or below the position are skipped. *)
Lemma follow_old rs db h :
  Forall (λ r, (rr_Lsn r ≤ db_appliedLSN db)%N) rs →
  ∃ db', follow rs (db, h) = (Ok tt, (db', h)) ∧ db_dataDir db' = db_dataDir db ∧ db_collections db' = db_collections db ∧
    db_appliedLSN db' = db_appliedLSN db.
Proof.
  revert db. induction rs as [|r rs IH]; intros db Hrs; [by exists db|]. apply Forall_cons in Hrs as [Hr Hrs]. cbn [follow].
  unfold follow_record. set (db1 := if (rr_Lsn r <=? db_lastLeaderLSN db)%N then db else set_lastLeaderLSN (rr_Lsn r) db).
  assert (db_appliedLSN db1 = db_appliedLSN db ∧ db_dataDir db1 = db_dataDir db ∧ db_collections db1 = db_collections db) as (E1 & E2 & E3).
  { subst db1. destruct (_ <=? _)%N; by destruct db. }
  erewrite bind_ok by (erewrite bind_ok by reflexivity; erewrite bind_ok by reflexivity; cbn [fst]; fold db1;
    rewrite (proj2 (N.leb_le _ _)) by (by rewrite E1); reflexivity). fold db1.
  destruct (IH db1) as (db' & H1 & H2 & H3 & H4); [by rewrite E1|]. exists db'. split_and!; [done|congruence..].
Qed.

Lemma follow_app rs rs' s : follow (rs ++ rs') s = (follow rs;; follow rs') s.
Proof.
  revert s. induction rs as [|r rs IH]; intros s; [done|]. cbn [app follow]. unfold mbind, SE_bind in *.
  destruct (follow_record r s) as [[[]|e] s']; [apply IH|done].
Qed.

(** The entries of one collection in a feed. *)
Definition entries_of (name : string) (H : list (string * Entry)) : list Entry := (filter (λ ne, ne.1 = name) H).*2.

Lemma entries_of_cons name n e H : entries_of name ((n, e) :: H) = if decide (n = name) then e :: entries_of name H else entries_of name H.
Proof. unfold entries_of. rewrite filter_cons. simpl. by destruct (decide _). Qed.

Lemma stamped_cons base n e H : stamped base ((n, e) :: H) = MkReplEntry (base + 1) n e :: stamped (base + 1) H.
Proof.
  unfold stamped. rewrite imap_cons. f_equal; [f_equal; simpl; lia|]. apply imap_ext. intros i [n' e'] _. simpl. f_equal. lia.
Qed.

Lemma follow_spec x H db h (F : string → table) :
  no_faults (h_world h) → housed db →
  Forall (λ ne, plain_name ne.1 ∧ wf_entry ne.2 ∧ applicable (wire ne.2)) H → (N.of_nat (length H + x) + 2 < 2 ^ 64)%N →
  (∀ name, plain_name name → holds (length H + x) db (h_world h) name (F name)) →
  ∃ rs db' h', mapR replEntryToProto (stamped (db_appliedLSN db) H) = Ok rs ∧ follow rs (db, h) = (Ok tt, (db', h')) ∧
    db_appliedLSN db' = (db_appliedLSN db + N.of_nat (length H))%N ∧ no_faults (h_world h') ∧ housed db' ∧
    ∀ name, plain_name name → holds x db' (h_world h') name (foldl apply_table (F name) (wire <$> entries_of name H)).
Proof.
  revert db h F. induction H as [|[n e] H IH]; intros db h F Hw Hdb HH Hb HF.
  { exists [], db, h. split_and!; try done. cbn. lia. }
  apply Forall_cons in HH as [(Hn & Hwf & He) HH]. cbn [fst snd] in *. cbn [length] in *.
  set (re := MkReplEntry (db_appliedLSN db + 1) n e). destruct (wire_roundtrip re Hwf) as (r & Hr & _).
  destruct (follow_record_spec (length H + x) db h re r (F n)) as (db1 & h1 & A1 & A2 & _ & A4 & [P1 P2 P3 P4]); [done..|apply HF, Hn|done|done|done|cbn; lia|lia|].
  change (re_Collection re) with n in *. change (re_LSN re) with (db_appliedLSN db + 1)%N in *. change (re_Entry re) with e in *. cbn [fst snd] in *.
  destruct (IH db1 h1 (λ name, if decide (n = name) then apply_table (F n) (wire e) else F name)) as (rs & db2 & h2 & B1 & B2 & B3 & B4 & B5 & B6);
    [done|done|done|lia| |].
  { intros name Hname. destruct (decide (n = name)) as [<-|Hne]; [done|].
    apply (holds_spares _ db h); [done|by apply P4|]. apply (holds_fewer (S (length H + x))); [lia|]. by apply HF. }
  rewrite A2 in B1. exists (r :: rs), db2, h2. split_and!.
  - rewrite stamped_cons. fold re. cbn [mapR]. by rewrite Hr, B1.
  - cbn [follow]. by erewrite bind_ok by exact A1.
  - rewrite B3, A2. lia.
  - done.
  - done.
  - intros name Hname. rewrite entries_of_cons. specialize (B6 name Hname). destruct (decide (n = name)) as [<-|]; exact B6.
Qed.

Lemma history_applicable t seen h e : history t seen h → Forall publishable h → e ∈ h → wf_entry e ∧ applicable (wire e).
Proof.
  revert t seen. induction h as [|e' h IH]; intros t seen; [by intros _ _ ?%not_elem_of_nil|].
  intros [Hx Hh] [Hp Hps]%Forall_cons [->|Hin]%elem_of_cons; [|by eapply IH]. split; [apply Hp|].
  apply publishable_applicable; [done|]. unfold extends in Hx. destruct (e_Op e'); [naive_solver| |done|done]. destruct Hx as (_ & a & _ & ?). lia.
Qed.

Lemma feed_applicable H (T : string → table) (seen : string → gset N) :
  Forall (λ ne, plain_name ne.1 ∧ publishable ne.2) H →
  (∀ name, plain_name name → history (T name) (seen name) (entries_of name H)) →
  Forall (λ ne, plain_name ne.1 ∧ wf_entry ne.2 ∧ applicable (wire ne.2)) H.
Proof.
  intros HH Hh. apply Forall_forall. intros [n e] Hin. destruct (proj1 (Forall_forall _ _) HH _ Hin) as [Hn Hp]. split; [done|]. cbn [fst snd] in *.
  apply (history_applicable _ _ _ _ (Hh n Hn)).
  - apply Forall_forall. intros e' He'. apply list_elem_of_fmap in He' as ([n' e''] & -> & He').
    apply list_elem_of_filter in He' as [_ He']. by destruct (proj1 (Forall_forall _ _) HH _ He').
  - apply list_elem_of_fmap. exists (n, e). split; [done|]. by apply list_elem_of_filter.
Qed.

(** A follower converges over the whole feed: let the leader publish any
    sequence of entries over any number of collections, each collection's entries
    being a history from its records at the follower's position.  A follower whose
    collections hold the leader's records at that position or at any later moment
    (a snapshot may have been taken while writes continued), or do not exist yet,
    and which follows the feed — possibly after records it has already applied —
    applies every record without error, creates the collections it has not seen,
    reaches the end of the feed, and ends with the leader's records in every
    collection. *)
Lemma follower_converges (db : DB) (h : Host) (H : list (string * Entry)) (F T : string → table) (seen : string → gset N)
    (old : list ReplicationRecord) :
  no_faults (h_world h) → housed db → (N.of_nat (length H) + 2 < 2 ^ 64)%N →
  Forall (λ r, (rr_Lsn r ≤ db_appliedLSN db)%N) old →
  Forall (λ ne, plain_name ne.1 ∧ publishable ne.2) H →
  (∀ name, plain_name name →
    history (T name) (seen name) (entries_of name H) ∧ holds (length H) db (h_world h) name (F name) ∧
    ∃ h1 h2, entries_of name H = h1 ++ h2 ∧ same_records (F name) (foldl commit (T name) h1)) →
  ∃ rs db' h', mapR replEntryToProto (stamped (db_appliedLSN db) H) = Ok rs ∧
    follow (old ++ rs) (db, h) = (Ok tt, (db', h')) ∧
    db_appliedLSN db' = (db_appliedLSN db + N.of_nat (length H))%N ∧
    ∀ name, plain_name name → ∃ t, holds 0 db' (h_world h') name t ∧
      same_records t (foldl commit (T name) (entries_of name H)).
Proof.
  intros Hw Hdb Hb Hold HH Hsnap. destruct (follow_old old db h Hold) as (db0 & O1 & O2 & O3 & O4).
  destruct (follow_spec 0 H db0 h F) as (rs & db' & h' & R1 & R2 & R3 & R4 & R5 & R6); [done|unfold housed; by rewrite O2, O3| |by rewrite Nat.add_0_r| |].
  - apply (feed_applicable H T seen); [done|]. intros name Hn. by apply Hsnap.
  - intros name Hn. rewrite Nat.add_0_r. unfold holds. rewrite O2, O3. by apply Hsnap.
  - rewrite O4 in R1, R3. exists rs, db', h'. split_and!; [done| |done|].
    { rewrite follow_app. by erewrite bind_ok by exact O1. }
    intros name Hn. destruct (Hsnap name Hn) as (Hh & _ & h1 & h2 & E & Hs). eexists. split; [by apply R6|].
    rewrite E in Hh |- *. rewrite <-(catch_up_snapshot _ _ _ _ Hh). by apply apply_same_all.
Qed.
End following.

(** ** Positions *)
Section positions.

Lemma replState_roundtrip st :
  (st_LeaderLSN st < 2 ^ 64)%N → (st_AppliedLSN st < 2 ^ 64)%N →
  parse_json (print_json (replState_json st)) = Some (replState_json st) ∧ replState_of_json (replState_json st) = Ok st.
Proof.
  intros H1 H2. split.
  - apply parse_print_json. apply wf_json_obj. repeat apply Forall_cons_2; [..|apply Forall_nil_2]; (split; [done|]); by apply wf_j_uint.
  - cbn [replState_json replState_of_json set_replState_fields]. unfold set_replState_field. cbv beta iota zeta. cbn [fst snd].
    repeat match goal with |- context [field_name ?k] => let v := eval vm_compute in (field_name k) in change (field_name k) with v end.
    repeat first [rewrite (bool_decide_true (_ = _)) by done | rewrite (bool_decide_false (_ = _)) by done].
    cbv iota. unfold as_uint, j_uint. rewrite !parse_uint_json by done. cbn [of_option mbind result_bind]. cbn [st_AppliedLSN]. by destruct st.
Qed.

Lemma loadReplState_stored path st w :
  no_faults w → (st_LeaderLSN st < 2 ^ 64)%N → (st_AppliedLSN st < 2 ^ 64)%N →
  w_files w !! path = Some (print_json (replState_json st)) → loadReplState path w = (Ok st, w).
Proof.
  intros Hw H1 H2 Hf. destruct (replState_roundtrip st H1 H2) as [P1 P2]. unfold loadReplState.
  erewrite bind_ok by (apply read_file_nofault; [done|exact Hf]). by rewrite P1, P2.
Qed.

(** Positions survive a clean restart: what a database writes on shutdown —
    its last sequence number and its applied position — is what the database
    opened next in the directory starts from.  The new broker continues the
    numbering, keeps no entries, and so accepts a follower only if it has
    everything published before the restart; any other follower is told to
    bootstrap again and none misses entries silently. *)
Theorem restart_keeps_positions (db : DB) (h : Host) (cfg : DBConfig) :
  no_faults (h_world h) → (CurrentLSN db + 1 < 2 ^ 64)%N → (db_appliedLSN db < 2 ^ 64)%N → (0 < ReplicationRingSize cfg)%Z →
  ∃ h' db', persistReplState (db, h) = (Ok tt, (db, h')) ∧
    initReplication (ReplicationRingSize cfg) (new_db (db_dataDir db) cfg, h') = (Ok tt, (db', h')) ∧
    db_appliedLSN db' = db_appliedLSN db ∧ CurrentLSN db' = CurrentLSN db ∧
    ∀ b, db_broker db' = Some b →
      (∀ name e, (publish name e b).1 = (CurrentLSN db + 1)%N) ∧
      (∀ now from fid, (from < 2 ^ 64 - 1)%N →
        match (subscribe now from fid b).1 with
        | Some (_, backlog) => (CurrentLSN db ≤ from)%N ∧ backlog = []
        | None => (from < CurrentLSN db)%N
        end).
Proof.
  intros Hw Hl Ha Hr. destruct (persistReplState_spec db h Hw) as (w' & P1 & P2 & P3 & _).
  set (st := MkReplState (CurrentLSN db) (db_appliedLSN db)) in *. exists (MkHost w' (h_dirs h)).
  pose proof (loadReplState_stored (replStatePath db) st w' P2 ltac:(cbn; lia) Ha P3) as Hload.
  set (b := setLSN (CurrentLSN db) (newReplicationBroker (ReplicationRingSize cfg) 0)).
  assert (b_lsn b = CurrentLSN db ∧ b_size b = 0) as [Hb Hs].
  { unfold b, setLSN, newReplicationBroker. cbn [b_lsn]. destruct (N.ltb_spec 0 (CurrentLSN db)); cbn; split; try done. lia. }
  eexists. split; [exact P1|]. split.
  { unfold initReplication. assert (replStatePath (new_db (db_dataDir db) cfg) = replStatePath db) as -> by done. cbn [h_world h_dirs].
    rewrite Hload. rewrite (proj2 (Z.ltb_lt _ _)) by done. reflexivity. }
  split_and!; [done|exact Hb|]. intros b' [= <-]. fold b. split.
  - intros name e. unfold publish. cbn [fst]. rewrite Hb. by apply wrap64_small.
  - intros now from fid Hf. unfold subscribe, oldest. rewrite Hs, Hb. cbn [Nat.eqb]. unfold u64_add. rewrite !wrap64_small by lia.
    destruct (N.ltb_spec (from + 1) (CurrentLSN db + 1)); cbn [fst]; [lia|]. split; [lia|]. unfold ring_entries. by rewrite Hs.
Qed.

(** Promotion: a node that is not a follower, or whose lag behind the last
    position it knows of exceeds the limit without force, is refused and nothing
    changes.  Otherwise it becomes a leader with the same collections, reports
    the position it continues from and the lag it had, stops its apply loop, and
    numbers every further entry above everything it has applied or published; a
    second promotion is refused. *)
Theorem promotion_safe (maxLag : N) (force : bool) (db : DB) (h : Host) :
  match Promote maxLag force (db, h) with
  | (Err e, s) => s = (db, h) ∧
      (e = ErrNotFollower ∧ db_role db = RoleLeader ∨
       e = ErrReplicaLagExceeded ∧ db_role db = RoleFollower ∧ force = false ∧ (maxLag < ReplicationLag db)%N)
  | (Ok res, (db', h')) =>
      db_role db = RoleFollower ∧ (force = true ∨ (ReplicationLag db ≤ maxLag)%N) ∧
      db_role db' = RoleLeader ∧ db_collections db' = db_collections db ∧
      (db_onPromote db = true → db_applying db' = false) ∧
      res = MkPromoteResult RoleLeader (N.max (db_appliedLSN db) (CurrentLSN db)) (ReplicationLag db) ∧
      (∀ b, db_broker db' = Some b → b_lsn b = pr_LSN res ∧
        ∀ name e, (b_lsn b + 1 < 2 ^ 64)%N → (db_appliedLSN db < (publish name e b).1)%N ∧ (CurrentLSN db < (publish name e b).1)%N) ∧
      (∀ maxLag' force', (Promote maxLag' force' (db', h')).1 = Err ErrNotFollower)
  end.
Proof.
  unfold Promote at 1. erewrite bind_ok by reflexivity. cbn [fst]. destruct (db_role db) eqn:Hr.
  { rewrite bool_decide_false by done. cbn. auto. }
  rewrite bool_decide_true by done. cbn [negb]. fold (ReplicationLag db).
  destruct (negb force && (maxLag <? ReplicationLag db)%N)%bool eqn:Hlag.
  { apply andb_true_iff in Hlag as [Hf Hl]. split; [done|]. right. apply N.ltb_lt in Hl. by destruct force. }
  do 4 erewrite bind_ok by reflexivity. unfold ignore. erewrite bind_ok by reflexivity. cbn [fst].
  set (db1 := set_role RoleLeader db). set (db2 := set_db_broker (setLSN (db_appliedLSN db) <$> db_broker db1) db1).
  set (db3 := if db_onPromote db2 then set_applying false db2 else db2).
  assert (∀ s, (persistReplState s).2.1 = s.1) as Hp.
  { intros [x hx]. unfold persistReplState. erewrite bind_ok by reflexivity. unfold files. by destruct (writeFileAtomic _ _ _) as [? ?]. }
  unfold mret, SE_ret. specialize (Hp (db3, h)). destruct (persistReplState (db3, h)) as [r [db4 h4]]. cbn [fst snd] in *. subst db4.
  assert (db_role db3 = RoleLeader ∧ db_collections db3 = db_collections db ∧ db_broker db3 = setLSN (db_appliedLSN db) <$> db_broker db ∧
    db_broker db2 = db_broker db3 ∧ (db_onPromote db = true → db_applying db3 = false)) as (E1 & E2 & E3 & E4 & E5).
  { subst db3 db2 db1. destruct db as [dd cfg cs br al ro ll op ap]. cbn. destruct op; cbn; by split_and!. }
  assert (∀ b, db_broker db = Some b → b_lsn (setLSN (db_appliedLSN db) b) = N.max (db_appliedLSN db) (b_lsn b)) as Hset.
  { intros b _. unfold setLSN. destruct (N.ltb_spec (b_lsn b) (db_appliedLSN db)); destruct b; cbn in *; lia. }
  assert (match db_broker db2 with Some b => if (db_appliedLSN db <? b_lsn b)%N then b_lsn b else db_appliedLSN db | None => db_appliedLSN db end =
    N.max (db_appliedLSN db) (CurrentLSN db)) as ->.
  { rewrite E4, E3. unfold CurrentLSN. destruct (db_broker db) as [b|]; cbn [fmap option_fmap option_map]; [|lia].
    rewrite (Hset b) by done. destruct (N.ltb_spec (db_appliedLSN db) (N.max (db_appliedLSN db) (b_lsn b))); lia. }
  split_and!; [done| |done|done|done|done| |].
  - destruct force; [by left|right]. cbn [negb andb] in Hlag. by apply N.ltb_ge in Hlag.
  - intros b Hb. assert (∃ b0, db_broker db = Some b0 ∧ setLSN (db_appliedLSN db) b0 = b) as (b0 & Hb0 & <-)
      by (rewrite E3 in Hb; destruct (db_broker db) as [b0|]; [injection Hb as <-; eauto|done]). cbn [pr_LSN]. unfold CurrentLSN. rewrite Hb0, Hset by done.
    split; [done|]. intros name e Hlt. unfold publish. cbn [fst]. rewrite Hset by done. unfold u64_add. rewrite wrap64_small by done. lia.
  - intros maxLag' force'. unfold Promote. erewrite bind_ok by reflexivity. cbn [fst]. by rewrite E1.
Qed.
End positions.

(** ** Scenarios *)
Definition no_host : Host := MkHost empty_disk ∅.
Definition ring_of_four : DBConfig := MkDBConfig defaultConfig 4 false.
Definition follower_cfg : DBConfig := MkDBConfig defaultConfig 4 true.
Definition open_db (cfg : DBConfig) (h : Host) : DB * Host :=
  match @OpenDB length_digest "d" cfg h with (Ok db, h) => (db, h) | (Err _, h) => (new_db "d" cfg, h) end.

(** Create a collection and insert a record. *)
Definition create_u : DM unit := @CreateCollection length_digest "u".
Definition insert_u (data : option doc) : DM (N * Time) := with_collection "u" (Insert_ data).
Definition drop_u : DM unit := @DropCollection length_digest "u".
Definition read_u (id : N) : DM Record_ := with_collection "u" (GetRecord id).

(** Structures and timestamps as the values they stand for. *)
Definition plain_wire : Protobuf := {| pstruct := doc; NewStruct d := Ok (norm_doc d); AsMap := id; pvalue := any; NewValue := Ok; NewNullValue := VNil; ptimestamp := Time; NewTimestamp := id; AsTime := id |}.
Lemma plain_wire_laws : @ProtobufLaws plain_wire.
Proof. split; [|done]. intros d _. by exists (norm_doc d). Qed.

(** The records a subscription from a position is sent at once. *)
Definition backlog_from (from : N) (db : DB) : option (list (N * N)) :=
  match (SubscribeReplication 0 from "f" db).1 with
  | Some (_, backlog) => Some (map (λ re, (re_LSN re, e_ID (re_Entry re))) backlog)
  | None => None
  end.

(** A leader that stops without a clean shutdown forgets the numbers it has
    assigned.  A follower that has applied record 1 reconnects after the restart;
    the next write of the leader is numbered 1 again, and the follower, asking for
    what comes after 1, is accepted and sent nothing: it never sees the write. *)
Definition leader_up : DB * Host := ((create_u;; insert_u rec_a) (open_db ring_of_four no_host)).2.
Definition leader_again : result (N * Time) * (DB * Host) := insert_u rec_b (open_db ring_of_four leader_up.2).

Theorem crashed_leader_hides_writes :
  CurrentLSN leader_up.1 = 1%N ∧ backlog_from 0 leader_up.1 = Some [(1%N, 1%N)] ∧
  leader_again.1 = Ok (2%N, stamp) ∧ CurrentLSN leader_again.2.1 = 1%N ∧ backlog_from 1 leader_again.2.1 = Some [].
Proof. split_and!; vm_compute; reflexivity. Qed.

(** Dropping a collection is not published.  The leader drops a collection, makes
    it again and inserts a record, which gets id 1 and revision 1 like the first
    one; the follower, which still holds that one, takes the new record for one it
    has applied.  It reports success and keeps the old data. *)
Definition remade : DB * Host := ((create_u;; insert_u rec_a;; drop_u;; create_u;; insert_u rec_b) (open_db ring_of_four no_host)).2.
Definition wire_records (from : N) (db : DB) : list (@ReplicationRecord plain_wire) :=
  match (SubscribeReplication 0 from "f" db).1 with
  | Some (_, backlog) => match mapR (@replEntryToProto plain_wire) backlog with Ok rs => rs | Err _ => [] end
  | None => []
  end.
Definition followed (db : DB) : result unit * (DB * Host) := @follow length_digest plain_wire (wire_records 0 db) (open_db follower_cfg no_host).

Theorem dropped_collection_diverges :
  map (λ r, (rr_Lsn r, rr_Id r, rr_Rev r)) (wire_records 0 remade.1) = [(1%N, 1%N, 1%N); (2%N, 1%N, 1%N)] ∧
  (followed remade.1).1 = Ok tt ∧ db_appliedLSN (followed remade.1).2.1 = 2%N ∧
  r_Data <$> (read_u 1 remade).1 = Ok rec_b ∧
  r_Data <$> (read_u 1 (followed remade.1).2).1 = Ok rec_a.
Proof. split_and!; vm_compute; reflexivity. Qed.

(** A forced promotion reuses numbers of the old leader.  The counter continues
    from what the follower has applied, not from what it knows the leader has
    assigned: after a promotion at position 1 of 3, the next write is numbered 2,
    and a follower of the old leader that had reached 3 skips it. *)
Definition behind : DB := set_lastLeaderLSN 3 (set_appliedLSN 1 (open_db follower_cfg no_host).1).
Definition promoted : result PromoteResult * (DB * Host) := Promote 0 true (behind, no_host).
Definition written_after : DB * Host := ((create_u;; insert_u rec_a) promoted.2).2.
Definition ahead : DB := set_appliedLSN 3 (open_db follower_cfg no_host).1.

Theorem forced_promotion_reuses_numbers :
  promoted.1 = Ok (MkPromoteResult RoleLeader 1 2) ∧
  backlog_from 1 written_after.1 = Some [(2%N, 1%N)] ∧
  let rs := wire_records 1 written_after.1 in
  length rs = 1 ∧ (@follow length_digest plain_wire rs (ahead, no_host)).1 = Ok tt ∧
  db_collections (@follow length_digest plain_wire rs (ahead, no_host)).2.1 = ∅.
Proof. cbv zeta. split_and!; vm_compute; reflexivity. Qed.

(** ** Witnesses *)
Definition two_colls : DB :=
  MkDB "d" defaultConfig
    {["u" := demo_coll; "v" := MkColl "v" "d/v" defaultConfig stamp [] (MkSegment (segmentPath "d/v" 1) 0 false OpenFile) ∅ 0 0 ∅ 0 ∅ None None
        false [] false false false]}
    None 0 RoleLeader 0 false false.
Definition two_host : Host := MkHost (set_files (<[segmentPath "d/v" 1 := []]> (w_files demo_world)) demo_world) {["u"; "v"]}.

Lemma plain_name_u : plain_name "u".
Proof. split; [|done]. apply (bool_decide_unpack _). vm_compute. reflexivity. Qed.
Lemma plain_name_v : plain_name "v".
Proof. split; [|done]. apply (bool_decide_unpack _). vm_compute. reflexivity. Qed.

Lemma two_housed : housed two_colls.
Proof.
  intros name c. unfold two_colls. cbn [db_collections db_dataDir].
  intros [[<- <-]|[_ [<- <-]%lookup_singleton_Some]]%lookup_insert_Some.
  - split; [exact plain_name_u|]. split; [done|]. repeat constructor. apply in_dir_segment.
  - split; [exact plain_name_v|]. split; [done|]. repeat constructor. apply in_dir_segment.
Qed.

Definition isolated_ops : list db_op :=
  [OnCollection "v" (CInsert rec_b 0); Load "v" (to_bytes "{}") None ""; Compact "v"; Drop "v"].

Lemma collections_isolated_witness :
  let '(db', h') := (@run_all length_digest map_order isolated_ops (two_colls, two_host)).2 in
  db_collections db' !! "u" = Some demo_coll ∧
  (∀ p, in_dir (join "d" "u") p → w_files (h_world h') !! p = w_files (h_world two_host) !! p) ∧
  (∀ logs log, coll_inv demo_coll (h_world two_host) logs log → coll_inv demo_coll (h_world h') logs log).
Proof.
  apply (@collections_isolated length_digest map_order two_colls two_host "u" demo_coll isolated_ops).
  - exact two_housed.
  - vm_compute. reflexivity.
  - repeat constructor; discriminate.
Defined.

Lemma restart_keeps_positions_witness :
  ∃ h' db', persistReplState leader_up = (Ok tt, (leader_up.1, h')) ∧
    initReplication 4 (new_db "d" ring_of_four, h') = (Ok tt, (db', h')) ∧ db_appliedLSN db' = 0%N ∧ CurrentLSN db' = 1%N.
Proof.
  destruct (restart_keeps_positions leader_up.1 leader_up.2 ring_of_four) as (h' & db' & H1 & H2 & H3 & H4 & _); [vm_compute; reflexivity..|].
  exists h', db'. split; [destruct leader_up; exact H1|]. split; [exact H2|]. split; [rewrite H3; vm_compute; reflexivity|].
  rewrite H4. vm_compute. reflexivity.
Defined.
