(* ===== verification/Cluster.v ===== *)
(** * A leader and its follower

    The database, the broker and the follower put together.  A leader serves
    writes on its collections and creates new ones; what the operations publish
    goes through the registry into the broker's ring; a follower that subscribes
    from its position is sent the ring's entries past it over the wire and applies
    them.  [cluster_converges] states that the follower then holds the leader's
    records, [reconnect_resumes] that broken connections do not disturb it. *)

From S2P Require Import Prelude GoFloat GoTime GoJson Value Query Store Disk Segment Index SecIndex Meta Collection Steps CollectionSpec TopK Scan ScanSpec IndexInv Open OpenSpec Compactor CompactorSpec Broker Replica Database DatabaseSpec.

(** ** The leader *)

(** Its collections with their records and the ids handed out, everything
    published so far sent to the broker. *)
Record serves (db : DB) (h : Host) (T : string → table) (seen : string → gset N) : Prop := {
  sv_housed : housed db;
  sv_broker : is_Some (db_broker db);
  sv_room : (CurrentLSN db + 2 < 2 ^ 64)%N;
  sv_colls : ∀ name, plain_name name →
    match db_collections db !! name with
    | Some c => c_feed c = [] ∧ ∃ logs log, leads c (h_world h) logs log (seen name) ∧ coll_table logs log = T name
    | None => T name = ∅ ∧ seen name = ∅ ∧ empty_dir (join (db_dataDir db) name) (h_world h)
    end
}.

Definition set_now (t : Time) (h : Host) : Host :=
  MkHost (MkWorld (w_files (h_world h)) (w_faults (h_world h)) t (w_seed (h_world h))) (h_dirs h).

(** A write on one of its collections, a new collection, the passing of time; the
    64-bit counter is not exhausted. *)
Inductive lead_step {sha : Sha256} : DB * Host → DB * Host → Prop :=
  | lead_write db h name c op s' :
      db_collections db !! name = Some c → writable c (h_world h) → revs_bounded c → op_ok c (h_world h) op →
      (CurrentLSN db + 3 < 2 ^ 64)%N → (with_collection name (run_op op) (db, h)).2 = s' →
      lead_step (db, h) s'
  | lead_create db h name s' :
      plain_name name → no_faults (h_world h) → (CreateCollection name (db, h)).2 = s' → lead_step (db, h) s'
  | lead_tick db h t : lead_step (db, h) (db, set_now t h).

Definition publish_feed (H : list (string * Entry)) (b : replicationBroker) : replicationBroker :=
  foldl (λ b ne, (publish ne.1 ne.2 b).2) b H.

(** The records and ids after a feed. *)
Definition after (T : string → table) (H : list (string * Entry)) (name : string) : table := foldl commit (T name) (entries_of name H).
Definition ids_after (seen : string → gset N) (H : list (string * Entry)) (name : string) : gset N :=
  list_to_set (e_ID <$> entries_of name H) ∪ seen name.

(** A run of the leader and the feed it publishes. *)
Record feeds (T : string → table) (seen : string → gset N) (s s' : DB * Host) (H : list (string * Entry)) : Prop := {
  fe_serves : serves s'.1 s'.2 (after T H) (ids_after seen H);
  fe_broker : db_broker s'.1 = publish_feed H <$> db_broker s.1;
  fe_count : CurrentLSN s'.1 = (CurrentLSN s.1 + N.of_nat (length H))%N;
  fe_history : ∀ name, plain_name name → history (T name) (seen name) (entries_of name H);
  fe_entries : Forall (λ ne, plain_name ne.1 ∧ publishable ne.2) H
}.

Lemma entries_of_app name H1 H2 : entries_of name (H1 ++ H2) = entries_of name H1 ++ entries_of name H2.
Proof. unfold entries_of. by rewrite filter_app, fmap_app. Qed.

Lemma entries_of_one name n es : entries_of name (pair n <$> es) = if decide (n = name) then es else [].
Proof.
  induction es as [|e es IH]; [by destruct (decide _)|]. change (pair n <$> e :: es) with ((n, e) :: (pair n <$> es)).
  rewrite entries_of_cons, IH. by destruct (decide (n = name)).
Qed.

Lemma serves_ext db h T T' seen seen' :
  (∀ name, plain_name name → T' name = T name ∧ seen' name = seen name) → serves db h T seen → serves db h T' seen'.
Proof.
  intros E [S1 S2 S4 S3]. split; [done|done|done|]. intros name Hn. destruct (E name Hn) as [-> ->]. by apply S3.
Qed.

(** What a step does to the collection it is on decides the whole. *)
Lemma serves_step db h db' h' T seen name es :
  serves db h T seen → plain_name name → housed db' → is_Some (db_broker db') → (CurrentLSN db' + 2 < 2 ^ 64)%N →
  (∀ other, plain_name other → other ≠ name → spares other (db, h) (db', h')) →
  (∃ c' logs' log', db_collections db' !! name = Some c' ∧ c_feed c' = [] ∧
    leads c' (h_world h') logs' log' (list_to_set (e_ID <$> es) ∪ seen name) ∧ coll_table logs' log' = foldl commit (T name) es) →
  serves db' h' (after T (pair name <$> es)) (ids_after seen (pair name <$> es)).
Proof.
  intros [S1 S2 S4 S3] Hname Hdb' Hbr Hroom Hsp (c' & logs' & log' & Hc' & Hf & Hl & Ht). split; [done|done|done|].
  intros other Hother. unfold after, ids_after. rewrite entries_of_one. destruct (decide (name = other)) as [<-|Hne].
  { rewrite Hc'. split; [done|]. by exists logs', log'. }
  assert (other ≠ name) as Hne' by done. destruct (Hsp other Hother Hne') as [P1 P2 P3]. cbn [fst snd] in *. rewrite P2, P1.
  specialize (S3 other Hother). cbn [foldl fmap list_fmap list_to_set]. rewrite (left_id_L ∅ (∪)).
  destruct (db_collections db !! other) as [c|] eqn:Hc; [|destruct S3 as (-> & -> & He); split_and!; [done|done|];
    intros p Hp; rewrite P3 by done; by apply He].
  destruct S3 as (Hfc & logs & log & [L1 L2 L3 L4] & Htc). split; [done|]. exists logs, log. split; [|done]. split; [|done..].
  destruct (S1 other c Hc) as [_ [Hd _]]. apply (coll_inv_frame c (h_world h)); [done|]. intros n. apply P3. rewrite Hd. apply in_dir_segment.
Qed.

Lemma publish_all_feed name es b : publish_all name es b = publish_feed (pair name <$> es) b.
Proof. revert b. induction es as [|e es IH]; intros b; [done|]. cbn [publish_all foldl fmap list_fmap publish_feed]. apply IH. Qed.

Lemma publish_lsn name e b : b_lsn (publish name e b).2 = u64_add (b_lsn b) 1.
Proof. unfold publish, ring_put. destruct b as [lsn ring cap head size buf subs sq]. cbn [set_lsn b_lsn snd]. by destruct (size <? cap). Qed.

Lemma local_run_op {sha : Sha256} dir op : local dir (run_op op).
Proof.
  destruct op; cbn [run_op]; try (apply local_bind; [|intros; apply local_ret]); eauto using local_insert, local_update, local_Delete.
Qed.

Lemma lead_write_feeds {sha : Sha256} db h T seen name c op :
  serves db h T seen → db_collections db !! name = Some c → writable c (h_world h) → revs_bounded c → op_ok c (h_world h) op →
  (CurrentLSN db + 3 < 2 ^ 64)%N → ∃ H, feeds T seen (db, h) (with_collection name (run_op op) (db, h)).2 H.
Proof.
  intros Hs Hc Hwr Hrev Hok Hlsn. destruct (sv_housed _ _ _ _ Hs name c Hc) as [Hn _].
  pose proof (sv_colls _ _ _ _ Hs name Hn) as Hcoll. rewrite Hc in Hcoll. destruct Hcoll as (Hf & logs & log & Hl & Ht).
  destruct (confined_with name (run_op op) (λ dir, local_run_op dir op) db h (sv_housed _ _ _ _ Hs)) as [C1 C2].
  unfold with_collection in *. rewrite Hc in *. destruct (run_op op (c, h_world h)) as [r [c' w']] eqn:Hrun. cbn [fst snd] in *.
  destruct (leader_op c (h_world h) logs log (seen name) Hl Hwr op r c' w' Hrev Hok Hrun) as (logs' & log' & es & Hlen & Hl' & Hf' & Hh & Ht' & Hp).
  rewrite Hf in Hf'. cbn [app] in Hf'. exists (pair name <$> es).
  assert (db_collections (flush name c' db) = <[name := set_feed [] c']> (db_collections db) ∧
    db_broker (flush name c' db) = publish_all name (c_feed c') <$> db_broker db) as [E1 E2] by (by destruct db).
  assert (CurrentLSN (flush name c' db) = (CurrentLSN db + N.of_nat (length (pair name <$> es)))%N) as Hcount.
  { unfold CurrentLSN in *. rewrite E2, Hf', length_fmap. pose proof (sv_broker _ _ _ _ Hs) as [b Hb]. rewrite Hb in *. cbn [fmap option_fmap option_map].
    destruct es as [|e [|? ?]]; cbn in Hlen; [cbn; lia| |lia]. cbn [publish_all foldl]. rewrite publish_lsn. unfold u64_add.
    rewrite wrap64_small by lia. cbn. lia. }
  split; cbn [fst snd].
  - apply (serves_step db h _ _ T seen name es); [done|done|done|rewrite E2; by apply fmap_is_Some, Hs|rewrite Hcount, length_fmap; lia|done|].
    exists (set_feed [] c'), logs', log'. split; [by rewrite E1, lookup_insert_eq|]. split; [by destruct c'|]. split; [|by rewrite Ht', Ht].
    destruct Hl' as [L1 L2 L3 L4]. split; [eapply coll_inv_same; [|exact L1]; by destruct c'|by destruct c'|by destruct c'|done].
  - rewrite E2, Hf'. destruct (db_broker db); [|done]. cbn. by rewrite publish_all_feed.
  - done.
  - intros other Ho. rewrite entries_of_one. destruct (decide (name = other)) as [<-|]; [by rewrite <-Ht|done].
  - apply Forall_fmap. eapply Forall_impl; [exact Hp|]. intros e He. by split.
Qed.

Lemma lead_create_feeds {sha : Sha256} db h T seen name :
  serves db h T seen → plain_name name → no_faults (h_world h) → ∃ H, feeds T seen (db, h) (CreateCollection name (db, h)).2 H.
Proof.
  intros Hs Hn Hw. exists []. destruct (db_collections db !! name) as [c|] eqn:Hc.
  { assert ((CreateCollection name (db, h)).2 = (db, h)) as ->.
    { unfold CreateCollection. erewrite bind_ok by reflexivity. cbn [fst]. by rewrite Hc. }
    split; cbn [fst snd]; [|by destruct (db_broker db)|cbn; lia|done|constructor].
    eapply serves_ext; [|exact Hs]. intros other _. unfold after, ids_after. cbn. split; [done|set_solver]. }
  pose proof (sv_colls _ _ _ _ Hs name Hn) as Hcoll. rewrite Hc in Hcoll. destruct Hcoll as (HT & Hseen & Hempty).
  destruct (CreateCollection_spec 0 db h name Hw (sv_housed _ _ _ _ Hs) Hn Hc Hempty ltac:(done)) as (db' & h' & E & _ & Hb & (c & Ec & Hf & Hbr & Hinv) & P).
  assert (CurrentLSN db' = CurrentLSN db) as Hlsn by (unfold CurrentLSN; by rewrite Hb).
  rewrite E. split; cbn [fst snd]; [|by rewrite Hb; destruct (db_broker db)|rewrite Hlsn; cbn; lia|done|constructor].
  destruct P as [_ P2 _ P4].
  apply (serves_step db h db' h' T seen name []); [done|done|exact P2|rewrite Hb; apply Hs|rewrite Hlsn; apply Hs|exact P4|].
  exists c, [], []. rewrite HT, Hseen. split_and!; [done|done| |done].
  split; [done|rewrite Hbr; apply bool_decide_true, Hs|set_solver|]. intros id a Ha. change (coll_table [] []) with (∅ : table) in Ha. by rewrite lookup_empty in Ha.
Qed.

Lemma lead_step_feeds {sha : Sha256} T seen s s' :
  serves s.1 s.2 T seen → lead_step s s' → ∃ H, feeds T seen s s' H.
Proof.
  intros Hs Hstep. destruct Hstep as [db h name c op s' Hc Hwr Hrev Hok Hlsn <-|db h name s' Hn Hw <-|db h t]; cbn [fst snd] in *.
  - by eapply lead_write_feeds.
  - by apply lead_create_feeds.
  - exists []. split; cbn [fst snd]; [|by destruct (db_broker db)|cbn; lia|done|constructor].
    apply (serves_ext db _ T _ seen); [intros name _; unfold after, ids_after; cbn; split; [done|set_solver]|].
    destruct Hs as [S1 S2 S4 S3]. split; [done|done|done|]. intros name Hn. specialize (S3 name Hn).
    destruct (db_collections db !! name) as [c|]; [|done]. destruct S3 as (Hf & logs & log & [L1 L2 L3 L4] & Ht).
    split; [done|]. exists logs, log. split; [|done]. split; [|done..]. by apply (coll_inv_frame c (h_world h)).
Qed.

Lemma publish_feed_app H1 H2 b : publish_feed (H1 ++ H2) b = publish_feed H2 (publish_feed H1 b).
Proof. apply foldl_app. Qed.

(** Runs compose: the feed of the whole is the feeds in order. *)
Lemma feeds_app T seen s1 s2 s3 H1 H2 :
  feeds T seen s1 s2 H1 → feeds (after T H1) (ids_after seen H1) s2 s3 H2 → feeds T seen s1 s3 (H1 ++ H2).
Proof.
  intros [A1 A2 A5 A3 A4] [B1 B2 B5 B3 B4]. split.
  - eapply serves_ext; [|exact B1]. intros name _. unfold after, ids_after. rewrite entries_of_app, foldl_app, fmap_app, list_to_set_app_L.
    split; [done|set_solver].
  - rewrite B2, A2. destruct (db_broker s1.1); [|done]. cbn. by rewrite publish_feed_app.
  - rewrite B5, A5, length_app. lia.
  - intros name Hn. rewrite entries_of_app. apply history_app. split; [by apply A3|by apply B3].
  - by apply Forall_app.
Qed.

Lemma lead_run_feeds {sha : Sha256} T seen s s' :
  serves s.1 s.2 T seen → rtc lead_step s s' → ∃ H, feeds T seen s s' H.
Proof.
  intros Hs Hrun. revert T seen Hs. induction Hrun as [s|s1 s2 s3 Hstep _ IH]; intros T seen Hs.
  - exists []. split; [|by destruct (db_broker s.1)|cbn; lia|done|constructor].
    eapply serves_ext; [|exact Hs]. intros name _. unfold after, ids_after. cbn. split; [done|set_solver].
  - destruct (lead_step_feeds T seen s1 s2 Hs Hstep) as [H1 F1]. destruct (IH _ _ (fe_serves _ _ _ _ _ F1)) as [H2 F2].
    exists (H1 ++ H2). by eapply feeds_app.
Qed.

(** ** The feed *)
Lemma publish_feed_inv base b h0 r H :
  (b_lsn b + N.of_nat (length H) + 1 < 2 ^ 64)%N → feed_inv base (MkFeed b h0 r) → feed_inv base (MkFeed (publish_feed H b) (h0 ++ H) r).
Proof.
  revert b h0. induction H as [|[n e] H IH]; intros b h0 Hl Hf; [by rewrite app_nil_r|]. cbn [length] in Hl.
  pose proof (fi_bound _ _ Hf) as Hb. cbn [fd_broker] in Hb.
  destruct (publish_eq n e b Hb (fi_ring _ _ Hf)) as (_ & P2 & _).
  rewrite cons_middle, app_assoc. cbn [publish_feed foldl fst snd]. apply IH; [rewrite P2; lia|]. apply publish_inv; [lia|done].
Qed.

Lemma stamped_app base h0 H : stamped base (h0 ++ H) = stamped base h0 ++ stamped (base + N.of_nat (length h0)) H.
Proof.
  unfold stamped. rewrite imap_app. f_equal. apply imap_ext. intros i [n e] _. cbn. f_equal. lia.
Qed.

(** ** Properties *)
Section cluster.
Context {sha : Sha256} {pb : Protobuf} {pb_laws : ProtobufLaws}.

Lemma serves_unique db h T seen T' seen' name :
  serves db h T seen → serves db h T' seen' → plain_name name → T name = T' name.
Proof.
  intros [_ _ _ H1] [_ _ _ H2] Hn. specialize (H1 name Hn). specialize (H2 name Hn).
  destruct (db_collections db !! name) as [c|]; [|destruct H1 as [-> _], H2 as [-> _]; done].
  destruct H1 as (_ & logs & log & L1 & <-), H2 as (_ & logs' & log' & L2 & <-). exact (coll_table_unique _ _ _ _ _ _ (le_inv _ _ _ _ _ L1) (le_inv _ _ _ _ _ L2)).
Qed.

(** What a subscription from the start of a run is sent. *)
Lemma subscribe_run base b h0 r H now fid :
  feed_inv base (MkFeed b h0 r) → (b_lsn b + N.of_nat (length H) + 2 < 2 ^ 64)%N →
  match (subscribe now (b_lsn b) fid (publish_feed H b)).1 with
  | Some (_, backlog) => backlog = stamped (b_lsn b) H
  | None => b_cap b < length H
  end ∧ b_lsn (publish_feed H b) = (b_lsn b + N.of_nat (length H))%N.
Proof.
  intros Hf Hl. pose proof (publish_feed_inv base b h0 r H ltac:(lia) Hf) as Hf'. pose proof (subscribe_spec base _ _ _ now (b_lsn b) fid Hf') as Hs.
  assert (b_cap (publish_feed H b) = b_cap b) as Hcap.
  { clear. revert b. induction H as [|[n e] H IH]; intros b; [done|]. cbn [publish_feed foldl fst snd]. fold (publish_feed H (publish n e b).2).
    rewrite IH. unfold publish, ring_put. destruct b as [lsn ring cap head size buf subs sq]. cbn [set_lsn snd b_lsn]. by destruct (size <? cap). }
  pose proof (fi_lsn _ _ Hf) as Hb. pose proof (fi_lsn _ _ Hf') as Hb'. pose proof (fi_size _ _ Hf') as Hsz. cbn [fd_broker fd_history] in *.
  rewrite length_app in *. split; [|lia]. destruct (subscribe now (b_lsn b) fid (publish_feed H b)).1 as [[sub backlog]|].
  - destruct Hs as [_ ->]. rewrite N.min_l by lia. rewrite Hb, stamped_app, drop_app_length'; [done|]. rewrite length_stamped. lia.
  - rewrite N.mod_small in Hs by lia. rewrite Hcap in Hsz. lia.
Qed.

(** A follower whose position is where a run begins, and which holds of every
    collection the records of some moment of the run, catches up with its end. *)
Lemma feeds_converge s0 s2 T0 seen0 H b base h0 r fdb fh F now fid :
  feeds T0 seen0 s0 s2 H → db_broker s0.1 = Some b → feed_inv base (MkFeed b h0 r) →
  no_faults (h_world fh) → housed fdb → db_appliedLSN fdb = b_lsn b →
  (∀ name, plain_name name → holds (length H) fdb (h_world fh) name (F name) ∧
    ∃ h1 h2, entries_of name H = h1 ++ h2 ∧ same_records (F name) (foldl commit (T0 name) h1)) →
  match (SubscribeReplication now (db_appliedLSN fdb) fid s2.1).1 with
  | Some (_, backlog) => ∃ rs fdb' fh', mapR replEntryToProto backlog = Ok rs ∧ follow rs (fdb, fh) = (Ok tt, (fdb', fh')) ∧
      db_appliedLSN fdb' = CurrentLSN s2.1 ∧
      ∀ name, plain_name name → ∃ t, holds 0 fdb' (h_world fh') name t ∧ same_records t (after T0 H name)
  | None => b_cap b < length H
  end.
Proof.
  intros [G1 G2 G5 G3 G4] Hb Hf Hw Hdb Hap HF.
  assert (b_lsn b + N.of_nat (length H) + 2 < 2 ^ 64)%N as Hl.
  { pose proof (sv_room _ _ _ _ G1) as Hr. rewrite G5 in Hr. unfold CurrentLSN in Hr. by rewrite Hb in Hr. }
  rewrite Hb in G2. unfold SubscribeReplication. rewrite G2, Hap. cbn [fmap option_fmap option_map].
  destruct (subscribe_run base b h0 r H now fid Hf Hl) as [Hsub Hlsn].
  destruct (subscribe now (b_lsn b) fid (publish_feed H b)) as [[[sub backlog]|] b']; cbn [fst] in *; [subst backlog|done].
  destruct (follower_converges fdb fh H F T0 seen0 []) as (rs & fdb' & fh' & R1 & R2 & R3 & R4); [done|done|lia|constructor|done| |].
  - intros name Hn. destruct (HF name Hn) as [HF1 HF2]. split_and!; [by apply G3|done..].
  - exists rs, fdb', fh'. rewrite <-Hap. split_and!; [done|done|unfold CurrentLSN; rewrite G2; cbn [fmap option_fmap option_map]; by rewrite Hlsn, R3, Hap|].
    exact R4.
Qed.

(** A cluster converges: a leader serves any run of writes and creations of
    collections, publishing the feed [H].  A follower whose position is where the
    run began, and whose collections hold the leader's records as of any moment of
    the run (a snapshot may have been taken while writes continued), subscribes
    from its position.  The subscription is refused only if more entries were
    published than the ring holds; otherwise what the follower is sent crosses the
    wire, is applied without error, and leaves the follower at the leader's
    position with the leader's records in every collection. *)
Theorem cluster_converges (s0 s1 s2 : DB * Host) (T0 T1 T2 : string → table) (seen0 seen1 seen2 : string → gset N)
    (b : replicationBroker) (base : N) (h0 : list (string * Entry)) (r : gmap N (N * list ReplicationEntry)) :
  serves s0.1 s0.2 T0 seen0 → serves s1.1 s1.2 T1 seen1 → serves s2.1 s2.2 T2 seen2 →
  rtc lead_step s0 s1 → rtc lead_step s1 s2 → db_broker s0.1 = Some b → feed_inv base (MkFeed b h0 r) →
  ∃ H, db_broker s2.1 = Some (publish_feed H b) ∧
    ∀ fdb fh F now fid, no_faults (h_world fh) → housed fdb → db_appliedLSN fdb = b_lsn b →
      (∀ name, plain_name name → holds (length H) fdb (h_world fh) name (F name) ∧ same_records (F name) (T1 name)) →
      match (SubscribeReplication now (db_appliedLSN fdb) fid s2.1).1 with
      | Some (_, backlog) => ∃ rs fdb' fh', mapR replEntryToProto backlog = Ok rs ∧ follow rs (fdb, fh) = (Ok tt, (fdb', fh')) ∧
          db_appliedLSN fdb' = CurrentLSN s2.1 ∧
          ∀ name, plain_name name → ∃ t, holds 0 fdb' (h_world fh') name t ∧ same_records t (T2 name)
      | None => b_cap b < length H
      end.
Proof.
  intros S0 S1 S2 Run1 Run2 Hb Hf. destruct (lead_run_feeds T0 seen0 s0 s1 S0 Run1) as [H1 F1].
  destruct (lead_run_feeds _ _ s1 s2 (fe_serves _ _ _ _ _ F1) Run2) as [H2 F2].
  pose proof (feeds_app _ _ _ _ _ _ _ F1 F2) as F12. exists (H1 ++ H2).
  split; [by rewrite (fe_broker _ _ _ _ _ F12), Hb|]. intros fdb fh F now fid Hw Hdb Hap HF.
  pose proof (feeds_converge s0 s2 T0 seen0 (H1 ++ H2) b base h0 r fdb fh F now fid F12 Hb Hf Hw Hdb Hap) as Hc.
  destruct (SubscribeReplication now (db_appliedLSN fdb) fid s2.1).1 as [[sub backlog]|].
  1: destruct Hc as (rs & fdb' & fh' & R1 & R2 & R3 & R4); [|exists rs, fdb', fh'; split_and!; [done..|]; intros name Hn;
    rewrite (serves_unique _ _ _ _ _ _ name S2 (fe_serves _ _ _ _ _ F12) Hn); by apply R4].
  2: apply Hc.
  all: intros name Hn; destruct (HF name Hn) as [HF1 HF2]; split; [done|]; exists (entries_of name H1), (entries_of name H2).
  all: rewrite entries_of_app; split; [done|]; by rewrite (serves_unique _ _ _ _ _ _ name S1 (fe_serves _ _ _ _ _ F1) Hn) in HF2.
Qed.
End cluster.

(** ** Reconnecting *)
Section reconnecting.
Context {sha : Sha256} {pb : Protobuf} {pb_laws : ProtobufLaws}.
Context (base : N) (H : list (string * Entry)).

(** A connection delivers, from any position within the feed, some of the records
    past it in order, or refuses; a full one delivers them all. *)
Definition honest (s : Session) : Prop := ∀ k, k ≤ length H →
  match ss_Replicate s (base + N.of_nat k) with
  | Err _ => True
  | Ok (rs, _) => ∃ m, mapR replEntryToProto (take m (drop k (stamped base H))) = Ok rs
  end.
Definition full (s : Session) : Prop := ∀ k, k ≤ length H →
  ∃ rs closed, ss_Replicate s (base + N.of_nat k) = Ok (rs, closed) ∧ mapR replEntryToProto (drop k (stamped base H)) = Ok rs.

Lemma stamped_drop k : drop k (stamped base H) = stamped (base + N.of_nat (length (take k H))) (drop k H).
Proof using Type.
  destruct (Nat.le_ge_cases k (length H)) as [Hk|Hk].
  - rewrite <-(take_drop k H) at 1. rewrite stamped_app. apply drop_app_length'. rewrite length_stamped, length_take. lia.
  - rewrite !drop_ge by (rewrite ?length_stamped; done). done.
Qed.

Lemma stamped_take m b (l : list (string * Entry)) : take m (stamped b l) = stamped b (take m l).
Proof using Type.
  revert m b. induction l as [|[n e] l IH]; intros [|m] b; [done..|]. rewrite stamped_cons. cbn [take]. by rewrite stamped_cons, IH.
Qed.

(** The follower after the first [k] entries of the feed. *)
Record caught_up (F : string → table) (k : nat) (db : DB) (h : Host) : Prop := {
  cu_nofault : no_faults (h_world h);
  cu_housed : housed db;
  cu_le : k ≤ length H;
  cu_lsn : db_appliedLSN db = (base + N.of_nat k)%N;
  cu_holds : ∀ name, plain_name name →
    holds (length H - k) db (h_world h) name (foldl apply_table (F name) (wire <$> entries_of name (take k H)))
}.

Context (Hfit : (N.of_nat (length H) + 2 < 2 ^ 64)%N).
Context (Hok : Forall (λ ne, plain_name ne.1 ∧ wf_entry ne.2 ∧ applicable (wire ne.2)) H).

Lemma follow_part F k m db h rs :
  caught_up F k db h → mapR replEntryToProto (take m (drop k (stamped base H))) = Ok rs →
  ∃ db' h', follow rs (db, h) = (Ok tt, (db', h')) ∧ caught_up F (k + length (take m (drop k H))) db' h'.
Proof using Hfit Hok pb_laws.
  intros [C1 C2 C3 C4 C5] Hrs. set (P := take m (drop k H)) in *.
  assert (length P ≤ length H - k) as Hlen by (unfold P; rewrite length_take, length_drop; lia).
  assert (take (k + length P) H = take k H ++ P) as Htake.
  { rewrite <-take_take_drop. f_equal. unfold P. rewrite length_take.
    destruct (Nat.min_spec m (length (drop k H))) as [[? ->]|[? ->]]; [done|]. by rewrite firstn_all, take_ge. }
  rewrite stamped_drop, length_take, Nat.min_l, stamped_take, <-C4 in Hrs by done. fold P in Hrs.
  destruct (follow_spec (length H - k - length P) P db h (λ name, foldl apply_table (F name) (wire <$> entries_of name (take k H))))
    as (rs' & db' & h' & R1 & R2 & R3 & R4 & R5 & R6); [done|done|by apply Forall_take, Forall_drop|lia| |].
  { intros name Hn. apply (holds_fewer (length H - k)); [lia|]. by apply C5. }
  rewrite Hrs in R1. injection R1 as <-. exists db', h'. split; [done|]. split; [done|done|lia|rewrite R3, C4; lia|].
  intros name Hn. rewrite Htake, entries_of_app, fmap_app, foldl_app. apply (holds_fewer (length H - k - length P)); [lia|]. by apply R6.
Qed.

Lemma note_caught_up F k db h lsn : caught_up F k db h →
  caught_up F k (if (lsn <=? db_lastLeaderLSN db)%N then db else set_lastLeaderLSN lsn db) h.
Proof using Type. intros [C1 C2 C3 C4 C5]. destruct (_ <=? _)%N; [done|]. destruct db. by split. Qed.

(** One connection, whatever its outcome. *)
Lemma stream_spec F k db h s :
  caught_up F k db h → honest s →
  ∃ r db' h' k', stream s (db, h) = (r, (db', h')) ∧ k ≤ k' ∧ caught_up F k' db' h' ∧ (full s → k' = length H).
Proof using Hfit Hok pb_laws.
  intros Hc Hs. unfold stream. erewrite bind_ok by reflexivity. cbn [fst].
  assert (∃ db1, (match ss_LeaderLsn s with Some lsn => NoteLeaderLSN lsn | None => mret tt end) (db, h) = (Ok tt, (db1, h)) ∧
    caught_up F k db1 h) as (db1 & Hn & Hc1).
  { destruct (ss_LeaderLsn s) as [lsn|]; [|by exists db]. eexists. split; [reflexivity|]. by apply note_caught_up. }
  erewrite bind_ok by exact Hn. rewrite (cu_lsn _ _ _ _ Hc). specialize (Hs k (cu_le _ _ _ _ Hc)).
  destruct (ss_Replicate s (base + N.of_nat k)) as [[rs closed]|e] eqn:E.
  2:{ exists (Err e), db1, h, k. split_and!; [done|done|done|]. intros Hf. destruct (Hf k (cu_le _ _ _ _ Hc)) as (? & ? & E' & _). congruence. }
  destruct Hs as [m Hm]. destruct (follow_part F k m db1 h rs Hc1 Hm) as (db2 & h2 & Hfo & Hc2).
  eexists (match closed with None => Ok tt | Some e => Err e end), db2, h2, _. split; [erewrite bind_ok by exact Hfo; by destruct closed|]. split; [|split; [exact Hc2|]]; [lia|].
  intros Hf. destruct (Hf k (cu_le _ _ _ _ Hc)) as (rs' & ? & E' & Hd). rewrite E in E'. injection E' as <- _.
  apply mapR_Forall2, Forall2_length in Hm. apply mapR_Forall2, Forall2_length in Hd.
  rewrite length_take, length_drop, length_stamped in Hm. rewrite length_drop, length_stamped in Hd. rewrite length_take, length_drop.
  pose proof (cu_le _ _ _ _ Hc). lia.
Qed.

Lemma Run_spec F ss k db h :
  caught_up F k db h → Forall honest ss →
  ∃ e db' h' k', Run ss (db, h) = (Err e, (db', h')) ∧ k ≤ k' ∧ caught_up F k' db' h' ∧
    (e = ErrCanceled ∨ e = ErrFailedPrecondition) ∧ (e = ErrCanceled → (∃ s, s ∈ ss ∧ full s) → k' = length H).
Proof using Hfit Hok pb_laws.
  intros Hc Hss. revert k db h Hc. induction Hss as [|s ss Hs _ IH]; intros k db h Hc.
  { exists ErrCanceled, db, h, k. split_and!; [done|done|done|by left|]. by intros _ (s & ?%not_elem_of_nil & _). }
  destruct (stream_spec F k db h s Hc Hs) as (r & db1 & h1 & k1 & R1 & R2 & R3 & R4).
  destruct (IH k1 db1 h1 R3) as (e & db2 & h2 & k2 & Q1 & Q2 & Q3 & Q4 & Q5). cbn [Run]. rewrite R1.
  assert (∀ x, x = Run ss (db1, h1) → ∃ e db' h' k', x = (Err e, (db', h')) ∧ k ≤ k' ∧ caught_up F k' db' h' ∧
    (e = ErrCanceled ∨ e = ErrFailedPrecondition) ∧ (e = ErrCanceled → (∃ s', s' ∈ s :: ss ∧ full s') → k' = length H)) as Hgo.
  { intros x ->. exists e, db2, h2, k2. split_and!; [done|lia|done|done|]. intros He (s' & [->|Hin]%elem_of_cons & Hf); [|by eapply Q5; eauto].
    specialize (R4 Hf). pose proof (cu_le _ _ _ _ Q3). lia. }
  destruct r as [[]|[]]; try (by apply Hgo).
  exists ErrFailedPrecondition, db1, h1, k1. split_and!; [done|done|done|by right|done].
Qed.
End reconnecting.

(** [C17] A follower survives broken connections: it runs over any sequence of
    connections, each of which delivers some of the leader's records past its
    position and then ends, fails or is refused.  It stops only when cancelled or
    told to bootstrap again.  At that point it has applied exactly a prefix of the
    feed, none twice and none skipped, and its position says which; if it was
    cancelled and one of the connections delivered everything, it has applied the
    whole feed and holds the leader's records. *)
Theorem reconnect_resumes {sha : Sha256} {pb : Protobuf} {pb_laws : ProtobufLaws} (base : N) (H : list (string * Entry))
    (T : string → table) (seen : string → gset N) (ss : list Session) (db : DB) (h : Host) :
  no_faults (h_world h) → housed db → db_appliedLSN db = base → (N.of_nat (length H) + 2 < 2 ^ 64)%N →
  Forall (λ ne, plain_name ne.1 ∧ publishable ne.2) H →
  (∀ name, plain_name name → history (T name) (seen name) (entries_of name H) ∧ holds (length H) db (h_world h) name (T name)) →
  Forall (honest base H) ss →
  ∃ e db' h' k, Run ss (db, h) = (Err e, (db', h')) ∧ (e = ErrCanceled ∨ e = ErrFailedPrecondition) ∧
    (e = ErrCanceled → (∃ s, s ∈ ss ∧ full base H s) → k = length H) ∧
    db_appliedLSN db' = (base + N.of_nat k)%N ∧ k ≤ length H ∧
    ∀ name, plain_name name → ∃ t, holds 0 db' (h_world h') name t ∧
      same_records t (foldl commit (T name) (entries_of name (take k H))).
Proof.
  intros Hw Hdb Hl Hfit HH Hhist Hss.
  destruct (Run_spec base H Hfit (feed_applicable H T seen HH (λ name Hn, proj1 (Hhist name Hn))) T ss 0 db h) as (e & db' & h' & k & R1 & _ & [C1 C2 C3 C4 C5] & R2 & R3); [|done|].
  { split; [done|done|lia|rewrite Hl; lia|]. intros name Hn. rewrite Nat.sub_0_r. by apply Hhist. }
  exists e, db', h', k. split_and!; [done..|]. intros name Hn. eexists. split; [apply (holds_fewer (length H - k)); [lia|by apply C5]|].
  destruct (Hhist name Hn) as [Hh _]. rewrite <-(take_drop k H), entries_of_app in Hh. apply history_app in Hh as [Hh _].
  pose proof (catch_up_snapshot (T name) (seen name) [] (entries_of name (take k H)) Hh) as Hc. cbn [app foldl] in Hc. rewrite <-Hc.
  by apply apply_same_all.
Qed.

(** A leader that creates a collection and inserts a record, and an empty
    follower. *)
Definition lead_0 : DB * Host := open_db ring_of_four no_host.
Definition lead_1 : DB * Host := (@CreateCollection length_digest "u" lead_0).2.
Definition lead_2 : DB * Host := (with_collection "u" (run_op (WInsert rec_b 0)) lead_1).2.
Definition broker_0 : replicationBroker := fd_broker (feed_start 4 0 0).

Lemma lead_0_eq : lead_0 = (MkDB "d" defaultConfig ∅ (Some broker_0) 0 RoleLeader 0 false false, no_host).
Proof. vm_compute. reflexivity. Qed.

Lemma lead_0_serves : serves lead_0.1 lead_0.2 (λ _, ∅) (λ _, ∅).
Proof. rewrite lead_0_eq. split; cbn; [by intros ??|by eexists|done|]. intros name _. rewrite lookup_empty. by split_and!. Qed.

Lemma lead_0_1 : @lead_step length_digest lead_0 lead_1.
Proof. unfold lead_1. rewrite lead_0_eq. apply (@lead_create length_digest _ _ "u"); [exact plain_name_u|done|reflexivity]. Qed.

Lemma lead_1_2 : @lead_step length_digest lead_1 lead_2.
Proof.
  unfold lead_2. destruct (db_collections lead_1.1 !! "u") as [c|] eqn:Hc; [|vm_compute in Hc; discriminate].
  destruct lead_1 as [db h] eqn:E. cbn [fst] in Hc. apply (@lead_write length_digest db h "u" c (WInsert rec_b 0)); [..|reflexivity].
  - exact Hc.
  - assert (lead_1.2 = h) as <- by (by rewrite E). assert (db_collections lead_1.1 !! "u" = Some c) as Hc' by (by rewrite E).
    vm_compute in Hc'. injection Hc' as <-. split; vm_compute; reflexivity.
  - assert (db_collections lead_1.1 !! "u" = Some c) as Hc' by (by rewrite E). vm_compute in Hc'. injection Hc' as <-. intros id ie. cbn. done.
  - split; [exact demo_data|]. split; [exact rec_b_indexable|exact exp_ok_never].
  - assert (CurrentLSN lead_1.1 = 0%N) as Hl by (vm_compute; reflexivity). rewrite E in Hl. cbn [fst] in Hl. by rewrite Hl.
Qed.

Lemma lead_0_2 : rtc (@lead_step length_digest) lead_0 lead_2.
Proof. eapply rtc_l; [exact lead_0_1|]. apply rtc_once, lead_1_2. Qed.

Lemma cluster_converges_witness :
  ∃ T2 H, db_broker lead_2.1 = Some (publish_feed H broker_0) ∧
    match (SubscribeReplication 0 0 "f" lead_2.1).1 with
    | Some (_, backlog) => ∃ rs fdb' fh', mapR (@replEntryToProto plain_wire) backlog = Ok rs ∧
        @follow length_digest plain_wire rs (new_db "d" follower_cfg, no_host) = (Ok tt, (fdb', fh')) ∧
        db_appliedLSN fdb' = CurrentLSN lead_2.1 ∧
        ∀ name, plain_name name → ∃ t, holds 0 fdb' (h_world fh') name t ∧ same_records t (T2 name)
    | None => b_cap broker_0 < length H
    end.
Proof.
  destruct (@lead_run_feeds length_digest _ _ _ _ lead_0_serves lead_0_2) as [H0 F0]. exists (after (λ _, ∅) H0).
  destruct (@cluster_converges length_digest plain_wire plain_wire_laws lead_0 lead_0 lead_2 (λ _, ∅) (λ _, ∅) (after (λ _, ∅) H0)
    (λ _, ∅) (λ _, ∅) (ids_after (λ _, ∅) H0) broker_0 0 [] ∅ lead_0_serves lead_0_serves (fe_serves _ _ _ _ _ F0) (rtc_refl _ _) lead_0_2)
    as (H & E & Hf).
  - rewrite lead_0_eq. reflexivity.
  - apply (feed_start_inv 4 0 0). reflexivity.
  - exists H. split; [exact E|]. apply (Hf (new_db "d" follower_cfg) no_host (λ _, ∅)); [reflexivity|intros name c Hc; cbn in Hc; by rewrite lookup_empty in Hc|reflexivity|].
    intros name _. split; [split; [reflexivity|intros p _; apply lookup_empty]|reflexivity].
Defined.

(** A feed of two records; one connection breaks after a record, the next
    delivers the rest. *)
Definition feed_entries : list (string * Entry) := [("u", demo_entry); ("u", update_entry empty_disk 1 rec_b 2 0)].
Definition session_of (m : nat) (closed : option error) : @Session plain_wire :=
  @MkSession plain_wire (Some 2%N) (λ from,
    rs ← mapR (@replEntryToProto plain_wire) (take m (drop (N.to_nat from) (stamped 0 feed_entries))); Ok (rs, closed)).

Lemma demo_publishable : publishable demo_entry ∧ publishable (update_entry empty_disk 1 rec_b 2 0).
Proof.
  split; (split; [|vm_compute; discriminate|done]).
  - apply wf_plain_entry; [done|done|by left|vm_compute; reflexivity|apply rec_ok, wf_rec; vm_compute; reflexivity|done].
  - apply wf_plain_entry; [done|done|right; by left|vm_compute; reflexivity|apply rec_ok, wf_rec; vm_compute; reflexivity|done].
Qed.

Lemma feed_history name : history ∅ ∅ (entries_of name feed_entries).
Proof.
  unfold feed_entries. rewrite !entries_of_cons. destruct (decide ("u" = name)); [|done]. split.
  - split_and!; [set_solver|done|done].
  - split; [|done]. split; [set_solver|]. eexists. split; [apply lookup_insert_eq|done].
Qed.

Lemma session_honest m closed : @honest plain_wire 0 feed_entries (session_of m closed).
Proof.
  intros k _. cbn [session_of ss_Replicate]. rewrite N.add_0_l, Nat2N.id.
  destruct (mapR _ _) as [rs|e] eqn:E; cbn [mbind result_bind]; [by exists m|done].
Qed.

Lemma reconnect_resumes_witness :
  ∃ e db' h' k, @Run length_digest plain_wire [session_of 1 (Some ErrIO); session_of 2 None] (new_db "d" follower_cfg, no_host) = (Err e, (db', h')) ∧
    (e = ErrCanceled ∨ e = ErrFailedPrecondition) ∧ db_appliedLSN db' = N.of_nat k ∧ k ≤ 2 ∧
    ∀ name, plain_name name → ∃ t, holds 0 db' (h_world h') name t ∧
      same_records t (foldl commit ∅ (entries_of name (take k feed_entries))).
Proof.
  destruct demo_publishable as [P1 P2].
  destruct (@reconnect_resumes length_digest plain_wire plain_wire_laws 0 feed_entries (λ _, ∅) (λ _, ∅)
    [session_of 1 (Some ErrIO); session_of 2 None] (new_db "d" follower_cfg) no_host) as (e & db' & h' & k & R1 & R2 & _ & R3 & R4 & R5).
  - reflexivity.
  - intros name c Hc. cbn in Hc. by rewrite lookup_empty in Hc.
  - reflexivity.
  - reflexivity.
  - apply Forall_cons_2; [exact (conj plain_name_u P1)|]. apply Forall_cons_2; [exact (conj plain_name_u P2)|apply Forall_nil_2].
  - intros name _. split; [apply feed_history|]. split; [reflexivity|intros p _; apply lookup_empty].
  - apply Forall_cons_2; [apply session_honest|]. apply Forall_cons_2; [apply session_honest|apply Forall_nil_2].
  - exists e, db', h', k. split; [exact R1|]. split; [exact R2|]. split; [exact R3|]. split; [exact R4|exact R5].
Defined.
