(* ===== verification/Snapshot.v ===== *)
(** * Snapshots and the bootstrap of a follower

    engine/snapshot.go, which writes the files of every collection into a tar
    archive, and the bootstrap of server/replication.go, which unpacks such an
    archive into a fresh data directory.  The formats (tar inside gzip) are a
    parameter: [tar_gz] of a list of named files, [untar] of a byte stream, with the
    law that one undoes the other.  File modes and times are omitted. *)

From S2P Require Import Prelude GoFloat GoTime GoJson Value Query Store Disk Segment Index SecIndex Meta Collection Scan Open Broker Replica Database.

(** ** Streams *)

(** What is written to a peer: the items sent and how many more it takes. *)
Record sink (A : Type) := MkSink { sk_sent : list A; sk_room : option nat }.
Arguments MkSink {A} _ _.
Arguments sk_sent {A} _.
Arguments sk_room {A} _.

Definition Send {A} (m : A) : SE (sink A) unit := λ k,
  match sk_room k with
  | Some O => (Err ErrUnavailable, k)
  | Some (S n) => (Ok tt, MkSink (sk_sent k ++ [m]) (Some n))
  | None => (Ok tt, MkSink (sk_sent k ++ [m]) None)
  end.

(** ** Writing the archive *)
Definition archive_file : Type := string * bytes.

(** What the engine asks of the writer of an archive: to add a file (its header and
    its bytes), and to close the two layers of the format.  The state of the writer
    and of the peer behind it is [K]. *)
Class ArchiveWriter (K : Type) := {
  aw_file : archive_file → SE K unit;
  aw_close_tar : SE K unit;
  aw_close_gzip : SE K unit
}.

(** A peer that takes files; the closing records need one that still takes bytes. *)
Definition still_open : SE (sink archive_file) unit := λ k, (match sk_room k with Some O => Err ErrUnavailable | _ => Ok tt end, k).
#[global] Instance file_sink : ArchiveWriter (sink archive_file) := {
  aw_file := Send;
  aw_close_tar := still_open;
  aw_close_gzip := still_open
}.

Definition to_tar {K A} (m : SE K A) : SE (K * World) A := λ '(k, w), let '(r, k) := m k in (r, (k, w)).

(** Opening the file, its size, the header and the copy. *)
Definition writeFileToTar `{!ArchiveWriter K} (dir base name : string) : SE (K * World) unit :=
  b ← io (read_file (join dir base));
  io syscall;;
  io syscall;;
  to_tar (aw_file (name +:+ "/" +:+ base, b)).

(** Temporary files, the primary index and the manifest stay out. *)
Definition skipped (base : string) : bool :=
  (is_prefix (to_bytes ".") (to_bytes base) || is_suffix (to_bytes ".merge") (to_bytes base) ||
   bool_decide (base = "index.json") || bool_decide (base = "compact.manifest"))%bool.

(** The names of the files of a directory, in order. *)
Definition dir_files (dir : string) (files : gmap string bytes) : list string :=
  filter (λ f, f ≠ "") (omap (λ p, of_bytes <$> base_in dir p) (glob dir "" "" files)).

Definition ReadDir (dir : string) : M (list string) := syscall;; (λ w, (Ok (dir_files dir (w_files w)), w)) : M (list string).

Section snapshot.
Context {sha : Sha256} `{!ArchiveWriter K}.

Definition writeSnapshot (c : Collection) : SE (K * World) unit :=
  io (persist_sidxs (c_dir c) (map_to_list (c_sidxMap c)));;
  entries ← io (ReadDir (c_dir c));
  for_each (λ base, if skipped base then mret tt else writeFileToTar (c_dir c) base (c_name c)) entries.

Definition SnapshotTo (db : DB) : SE (K * World) unit :=
  for_each (λ nc : string * Collection, writeSnapshot nc.2) (sorted_pairs (db_collections db));;
  to_tar aw_close_tar;;
  to_tar aw_close_gzip.
End snapshot.

(** ** The archive format *)

(** An entry as the reader sees it; [ti_Complete] is false when the stream ends
    inside its data. *)
Record tarItem := MkItem { ti_Reg : bool; ti_Name : string; ti_Data : bytes; ti_Complete : bool }.

Class Archive := {
  tar_gz : list archive_file → bytes;
  untar : bytes → option error → list tarItem * option error (* the stream and how it ended *)
}.

(** A name a header can carry as that of a regular file. *)
Definition tar_name (s : string) : bool :=
  (forallb (λ c, (0 <? N_of_ascii c)%N && (N_of_ascii c <? 128)%N) (to_bytes s) &&
   match last (to_bytes s) with Some c => negb (bool_decide (c = "/"%char)) | None => false end)%bool.

Class ArchiveLaws `{!Archive} := {
  untar_tar l : Forall (λ f, tar_name f.1 = true) l → untar (tar_gz l) None = ((λ f, MkItem true f.1 f.2 true) <$> l, None)
}.

(** ** Paths *)

(** [strings.Split] at the separator. *)
Fixpoint split_path (cur b : bytes) : list bytes :=
  match b with
  | [] => [cur]
  | c :: b => if bool_decide (c = "/"%char) then cur :: split_path [] b else split_path (cur ++ [c]) b
  end.

Definition dot : bytes := to_bytes ".".
Definition dotdot : bytes := to_bytes "..".

(** One element of a path that is being cleaned; the elements kept so far are in
    reverse order. *)
Definition clean_elem (rooted : bool) (out : list bytes) (e : bytes) : list bytes :=
  if bool_decide (e = [] ∨ e = dot) then out
  else if bool_decide (e = dotdot) then
    match out with
    | top :: rest => if bool_decide (top = dotdot) then e :: out else rest
    | [] => if rooted then [] else [e]
    end
  else e :: out.

Fixpoint join_path (l : list bytes) : bytes :=
  match l with
  | [] => []
  | [e] => e
  | e :: l => e ++ "/"%char :: join_path l
  end.

Definition IsAbs (path : bytes) : bool := match path with c :: _ => bool_decide (c = "/"%char) | [] => false end.

(** [filepath.Clean]. *)
Definition Clean (path : bytes) : bytes :=
  let rooted := IsAbs path in
  let l := rev (foldl (clean_elem rooted) [] (split_path [] path)) in
  match l with
  | [] => if rooted then ["/"%char] else dot
  | _ => (if rooted then ["/"%char] else []) ++ join_path l
  end.

(** ** Unpacking *)
Definition on_world {A} (m : M A) : SE Host A := λ h, let '(r, w) := m (h_world h) in (r, MkHost w (h_dirs h)).

Definition unsafe_path (clean : bytes) : bool :=
  (bool_decide (clean = dot) || IsAbs clean || is_prefix (dotdot ++ ["/"%char]) clean || bool_decide (clean = dotdot))%bool.

(** [os.MkdirAll] of the directory of a cleaned relative path; of the directories
    made, those directly in the data directory matter to the database. *)
Definition make_dirs (clean : bytes) : SE Host unit :=
  on_world syscall;;
  (λ h, (Ok tt, match split_path [] clean with
                | e :: _ :: _ => MkHost (h_world h) ({[of_bytes e]} ∪ h_dirs h)
                | _ => h
                end)) : SE Host unit.

(** One entry of the archive.  A failing call stands for any reason for which a
    directory or file cannot be made, a file in the place of a directory included:
    files are kept apart from directories only by name. *)
Definition extract_item (dataDir : string) (it : tarItem) : SE Host unit :=
  if negb (ti_Reg it) then mret tt
  else
    let clean := Clean (to_bytes (ti_Name it)) in
    if unsafe_path clean then fail ErrOther
    else
      let dest := join dataDir (of_bytes clean) in
      make_dirs clean;;
      on_world (syscall;; put_file dest []);;
      on_world (append_file dest (ti_Data it));;
      if ti_Complete it then on_world syscall else fail ErrIO.

Definition extract_items (dataDir : string) (items : list tarItem) (ending : option error) : SE Host unit :=
  for_each (extract_item dataDir) items;;
  match ending with None => mret tt | Some e => fail e end.

Definition extractSnapshot `{!Archive} (stream : bytes) (ended : option error) (dataDir : string) : SE Host unit :=
  let '(items, ending) := untar stream ended in extract_items dataDir items ending.

(** The leader as a bootstrapping follower sees it: its position, and the bytes of
    its snapshot with the error that ends the stream, if one does. *)
Record LeaderView := MkLeaderView {
  lv_LeaderLsn : result N;
  lv_Snapshot : result (bytes * option error)
}.

Definition Bootstrap `{!Archive} (leader : LeaderView) (dataDir : string) : SE Host N :=
  watermark ← lift (lv_LeaderLsn leader);
  stream ← lift (lv_Snapshot leader);
  extractSnapshot stream.1 stream.2 dataDir;;
  mret watermark.

(** ** Starting a follower (cmd/scriva/main.go) *)
Definition dirHasNoCollections : SE Host bool :=
  on_world syscall;; (λ h, (Ok (bool_decide (h_dirs h = ∅)), h)) : SE Host bool.

Definition start_follower {sha : Sha256} `{!Archive} (leader : LeaderView) (dataDir : string) (cfg : DBConfig) (h : Host)
    : result DB * Host :=
  match (fresh ← dirHasNoCollections;
         if fresh : bool then watermark ← Bootstrap leader dataDir; mret (Some watermark) else mret None) h with
  | (Err e, h) => (Err e, h)
  | (Ok bootstrapped, h) =>
      match OpenDB dataDir cfg h with
      | (Err e, h) => (Err e, h)
      | (Ok db, h) =>
          match bootstrapped with
          | None => (Ok db, h)
          | Some watermark =>
              match SetAppliedLSN watermark (db, h) with
              | (Ok _, (db, h)) => (Ok db, h)
              | (Err e, s) => (Err e, (CloseDB s).2.2)
              end
          end
      end
  end.
