(* ===== verification/SnapshotSpec.v ===== *)
(** * What snapshots restore

    [extract_confined]: unpacking an archive, whatever it holds and whichever
    system calls fail, touches only files below the data directory.
    [snapshot_restores]: the archive of a database, unpacked into a fresh
    directory, opens to collections with the same log as the originals. *)

From S2P Require Import Prelude GoFloat GoStrconv GoTime GoJson Value Query Store Disk Segment Index SecIndex Meta Collection Steps CollectionSpec Scan Open OpenSpec Broker Replica Database DatabaseSpec Cluster Snapshot.

(** ** Clean paths *)
Definition slash : ascii := "/"%char.

(** An element of a relative path that stays below where it starts. *)
Definition good_elem (e : bytes) : Prop := e ≠ [] ∧ e ≠ dot ∧ e ≠ dotdot ∧ slash ∉ e.

Definition inside (dataDir p : string) : Prop :=
  ∃ l, l ≠ [] ∧ Forall good_elem l ∧ p = join dataDir (of_bytes (join_path l)).

Lemma split_no_slash cur b : slash ∉ cur → Forall (λ e, slash ∉ e) (split_path cur b).
Proof.
  revert cur. induction b as [|c b IH]; intros cur Hc; simpl; [by constructor|]. case_bool_decide as Hs.
  - constructor; [done|]. apply IH. by apply not_elem_of_nil.
  - apply IH. rewrite not_elem_of_app, list_elem_of_singleton. split; [done|]. intros <-. by apply Hs.
Qed.

(** While a path is cleaned, the elements that lead upwards are at its start. *)
Definition climbing (rooted : bool) (out : list bytes) : Prop :=
  ∃ good n, out = good ++ repeat dotdot n ∧ Forall good_elem good ∧ (rooted = true → n = 0).

Lemma clean_climbing rooted out e : slash ∉ e → climbing rooted out → climbing rooted (clean_elem rooted out e).
Proof.
  intros He (good & n & -> & Hg & Hr). unfold clean_elem. case_bool_decide as H1; [by exists good, n|].
  assert (e ≠ [] ∧ e ≠ dot) as [Hne Hnd] by tauto. case_bool_decide as H2.
  - subst e. destruct good as [|g good]; simpl.
    + destruct n as [|n]; simpl.
      * destruct rooted; [by exists [], 0|]. by exists [], 1.
      * exists [], (S (S n)). split; [done|]. split; [constructor|]. intros ?. by specialize (Hr H).
    + apply Forall_cons in Hg as [(_ & _ & Hgd & _) Hg]. rewrite bool_decide_false by done. by exists good, n.
  - exists (e :: good), n. split; [done|]. split; [|done]. by constructor.
Qed.

Lemma foldl_climbing rooted es out :
  Forall (λ e, slash ∉ e) es → climbing rooted out → climbing rooted (foldl (clean_elem rooted) out es).
Proof. intros Hes. revert out. induction Hes as [|e es He Hes IH]; intros out Ho; simpl; [done|]. by apply IH, clean_climbing. Qed.

Lemma join_path_up l : join_path (dotdot :: l) = dotdot ∨ is_prefix (dotdot ++ ["/"%char]) (join_path (dotdot :: l)) = true.
Proof. destruct l as [|e l]; [by left|right]. by simpl. Qed.

(** A cleaned path that passes the check stays inside. *)
Lemma Clean_safe path : unsafe_path (Clean path) = false → ∃ l, l ≠ [] ∧ Forall good_elem l ∧ Clean path = join_path l.
Proof.
  unfold Clean. destruct (foldl_climbing (IsAbs path) (split_path [] path) []) as (good & n & Ho & Hg & Hr).
  { apply split_no_slash, not_elem_of_nil. }
  { exists [], 0. by repeat constructor. }
  rewrite Ho, rev_app_distr, rev_repeat. destruct (IsAbs path); [specialize (Hr eq_refl) as ->|].
  - simpl. destruct (rev good); intros Hu; vm_compute in Hu; discriminate Hu.
  - destruct n as [|n].
    + intros Hu. exists (rev good). simpl in Hu |- *.
      split_and!; [|by apply Forall_rev|]; destruct (rev good); try done; vm_compute in Hu; discriminate Hu.
    + change (repeat dotdot (S n)) with (dotdot :: repeat dotdot n). cbn [app]. set (l := repeat dotdot n ++ rev good).
      intros Hu. exfalso. revert Hu. destruct (join_path_up l) as [-> |H]; [done|]. unfold unsafe_path. by rewrite H, !orb_true_r.
Qed.

(** ** Unpacking stays in the data directory *)
Definition grows (dataDir : string) {A} (m : SE Host A) : Prop := ∀ h,
  (∀ p, ¬ inside dataDir p → w_files (h_world (m h).2) !! p = w_files (h_world h) !! p) ∧
  ∀ d, d ∈ h_dirs (m h).2 → d ∈ h_dirs h ∨ good_elem (to_bytes d).

Lemma grows_bind {A B} d (m : SE Host A) (f : A → SE Host B) : grows d m → (∀ a, grows d (f a)) → grows d (m ≫= f).
Proof.
  intros Hm Hf h. unfold mbind, SE_bind. specialize (Hm h). destruct (m h) as [[a|e] h']; simpl in *; [|done].
  destruct Hm as [H1 H2], (Hf a h') as [H3 H4]. split; [intros p Hp; rewrite H3 by done; by apply H1|]. intros x [Hx|Hx]%H4; auto.
Qed.
Lemma grows_pure {A} d (m : SE Host A) : (∀ h, (m h).2 = h) → grows d m.
Proof. intros Hm h. rewrite Hm. auto. Qed.
Lemma grows_world {A} d (m : M A) : touches (inside d) m → grows d (on_world m).
Proof. intros Hm h. unfold on_world. specialize (Hm (h_world h)). destruct (m (h_world h)). auto. Qed.

Lemma split_join l : l ≠ [] → Forall (λ e, slash ∉ e) l → split_path [] (join_path l) = l.
Proof.
  assert (∀ cur e b, slash ∉ e → split_path cur (e ++ slash :: b) = (cur ++ e) :: split_path [] b) as Hstep.
  { intros cur e. revert cur. induction e as [|c e IH]; intros cur b He; simpl; [by rewrite app_nil_r|].
    apply not_elem_of_cons in He as [Hc He]. rewrite bool_decide_false by (by intros ->). rewrite IH by done. by rewrite <-app_assoc. }
  assert (∀ cur e, slash ∉ e → split_path cur e = [cur ++ e]) as Hlast.
  { intros cur e. revert cur. induction e as [|c e IH]; intros cur He; simpl; [by rewrite app_nil_r|].
    apply not_elem_of_cons in He as [Hc He]. rewrite bool_decide_false by (by intros ->). rewrite IH by done. by rewrite <-app_assoc. }
  intros Hne Hl. induction Hl as [|e l He Hl IH]; [done|]. destruct l as [|e' l]; [by apply Hlast|].
  cbn [join_path]. rewrite Hstep by done. simpl. f_equal. by apply IH.
Qed.

Lemma grows_dirs d l : l ≠ [] → Forall good_elem l → grows d (make_dirs (join_path l)).
Proof.
  intros Hne Hl. apply grows_bind; [apply grows_world; touch|intros _ h]. simpl. rewrite split_join;
    [|done|by eapply Forall_impl; [exact Hl|intros e (_ & _ & _ & ?)]].
  destruct l as [|e [|e' l]]; simpl; auto. split; [done|]. intros x [->%elem_of_singleton|?]%elem_of_union; [|auto].
  right. rewrite to_of_bytes. by apply Forall_cons in Hl as [He _].
Qed.

Lemma grows_item d it : grows d (extract_item d it).
Proof.
  unfold extract_item. destruct (negb (ti_Reg it)); [by apply grows_pure|]. destruct (unsafe_path _) eqn:Hu; [by apply grows_pure|].
  apply Clean_safe in Hu as (l & Hne & Hl & ->). apply grows_bind; [by apply grows_dirs|intros _].
  assert (inside d (join d (of_bytes (join_path l)))) as Hin by (by exists l).
  apply grows_bind; [apply grows_world; apply touches_bind; [apply touches_syscall|intros _; by apply touches_put_file]|intros _].
  apply grows_bind; [apply grows_world; apply touches_bind; [apply touches_outcome|intros o; by apply touches_append_bytes]|intros _].
  destruct (ti_Complete it); [apply grows_world; touch|by apply grows_pure].
Qed.

(** [C5] Unpacking is confined: whatever an archive or a broken stream holds, and
    whichever system calls fail, only files below the data directory change, at
    paths without empty, dot or dot-dot elements, and every directory it adds to
    the data directory is such an element. *)
Theorem extract_confined `{!Archive} (stream : bytes) (ended : option error) (dataDir : string) (h : Host) :
  let h' := (extractSnapshot stream ended dataDir h).2 in
  (∀ p, ¬ inside dataDir p → w_files (h_world h') !! p = w_files (h_world h) !! p) ∧
  ∀ d, d ∈ h_dirs h' → d ∈ h_dirs h ∨ good_elem (to_bytes d).
Proof.
  cbv zeta. revert h. change (grows dataDir (extractSnapshot stream ended dataDir)). unfold extractSnapshot.
  destruct (untar stream ended) as [items ending]. apply grows_bind; [|intros _; by apply grows_pure; destruct ending].
  induction items as [|it items IH]; cbn [for_each]; [by apply grows_pure|]. apply grows_bind; [apply grows_item|done].
Qed.

(** ** Opening a copy of a collection's directory *)
Lemma str_le_app p a b : str_le (p +:+ a) (p +:+ b) ↔ str_le a b.
Proof.
  unfold str_le, str_compare. induction p as [|c p IH]; [done|].
  change (String c p +:+ a) with (String c (p +:+ a)). change (String c p +:+ b) with (String c (p +:+ b)). simpl.
  assert (Ascii.compare c c = Eq) as -> by (unfold Ascii.compare; apply N.compare_refl). exact IH.
Qed.

Lemma str_le_join dir a b : str_le (join dir a) (join dir b) ↔ str_le a b.
Proof. unfold join. by rewrite !str_le_app. Qed.

Lemma glob_match_dirs dir dir' prefix suffix f : glob_match dir' prefix suffix (join dir' f) = glob_match dir prefix suffix (join dir f).
Proof. unfold glob_match. by rewrite !base_in_join. Qed.

Lemma glob_relocate dir dir' prefix suffix (fs fs' : gmap string bytes) bases :
  glob dir prefix suffix fs = join dir <$> bases →
  (∀ f, glob_match dir prefix suffix (join dir f) = true → is_Some (fs' !! join dir' f) ↔ is_Some (fs !! join dir f)) →
  glob dir' prefix suffix fs' = join dir' <$> bases.
Proof.
  intros Hg Hf. pose proof (glob_nodup dir prefix suffix fs) as Hnd. pose proof (glob_sorted dir prefix suffix fs) as Hso.
  rewrite Hg in Hnd, Hso. apply sorted_names_unique; [apply glob_nodup| |apply glob_sorted| |].
  - apply NoDup_fmap; [intros x y; apply join_inj|]. by eapply NoDup_fmap_1.
  - clear -Hso. induction bases as [|x l IH]; simpl in *; [constructor|]. apply StronglySorted_inv in Hso as [Hl Hx].
    constructor; [by apply IH|]. rewrite Forall_forall in *. intros p (y & -> & Hy)%list_elem_of_fmap.
    apply str_le_join, (str_le_join dir), Hx, list_elem_of_fmap. eauto.
  - intros p. rewrite elem_of_glob. split.
    + intros [Hm Hp]. destruct (glob_in_dir _ _ _ _ Hm) as [f ->]. rewrite (glob_match_dirs dir) in Hm. apply Hf in Hp; [|done].
      assert (join dir f ∈ join dir <$> bases) as (f' & ->%join_inj & Hin)%list_elem_of_fmap by (rewrite <-Hg; by apply elem_of_glob).
      apply list_elem_of_fmap. eauto.
    + intros (f & -> & Hin)%list_elem_of_fmap. assert (join dir f ∈ glob dir prefix suffix fs) as [Hm Hp]%elem_of_glob
        by (rewrite Hg; apply list_elem_of_fmap; eauto). rewrite (glob_match_dirs dir). split; [done|]. by apply Hf.
Qed.

(** The files an archive keeps of a directory. *)
Definition kept (f : string) : bool := (negb (bool_decide (f = "")) && negb (bool_decide (slash ∈ to_bytes f)) && negb (skipped f))%bool.

Definition copied (dir dir' : string) (fs fs' : gmap string bytes) : Prop :=
  ∀ f, fs' !! join dir' f = if kept f then fs !! join dir f else None.

Definition segment_file (n : N) : string := "seg_" +:+ of_bytes (pad6 n) +:+ ".ndjson".

Lemma kept_seg f mid : to_bytes f = to_bytes "seg_" ++ mid ++ to_bytes ".ndjson" → slash ∉ mid → kept f = true.
Proof.
  intros Hb Hmid. unfold kept, skipped. rewrite Hb. rewrite !bool_decide_false.
  - unfold is_suffix. rewrite !rev_app_distr. reflexivity.
  - intros H%(f_equal to_bytes). rewrite Hb in H. discriminate H.
  - intros H%(f_equal to_bytes). rewrite Hb in H. discriminate H.
  - rewrite !elem_of_app. intros [H|[H|H]]; [|done|]; revert H; apply (bool_decide_unpack _); vm_compute; exact I.
  - intros H%(f_equal to_bytes). rewrite Hb in H. discriminate H.
Qed.

Lemma kept_segment n : kept (segment_file n) = true.
Proof.
  apply (kept_seg _ (pad6 n)); [unfold segment_file; by rewrite !to_bytes_app, to_of_bytes|].
  intros H. pose proof (pad6_digits n) as Hd. rewrite Forall_forall in Hd. by specialize (Hd _ H).
Qed.

Lemma is_suffix_split s b : is_suffix s b = true → ∃ r, b = r ++ s.
Proof.
  intros [r Hr]%is_prefix_split. exists (rev r). apply (f_equal (@rev _)) in Hr. by rewrite rev_involutive, rev_app_distr, rev_involutive in Hr.
Qed.

Lemma kept_glob dir f : glob_match dir "seg_" ".ndjson" (join dir f) = true → kept f = true.
Proof.
  unfold glob_match. rewrite base_in_join. destruct (strip_prefix _ (to_bytes f)) as [rest|] eqn:Hs; [|done].
  apply strip_prefix_Some in Hs. intros [[mid ->]%is_suffix_split Hn%negb_true_iff%bool_decide_eq_false]%andb_true_iff.
  apply (kept_seg _ mid); [done|]. intros H. apply Hn, elem_of_app. by left.
Qed.

Lemma copied_segment dir dir' fs fs' n : copied dir dir' fs fs' → fs' !! segmentPath dir' n = fs !! segmentPath dir n.
Proof. intros Hc. change (fs' !! join dir' (segment_file n) = fs !! join dir (segment_file n)). by rewrite Hc, kept_segment. Qed.

Section restore.
Context {sha : Sha256}.

(** A collection as opening leaves it. *)
Record opened (name dir : string) (ps : list string) (c : Collection) : Prop := {
  op_name : c_name c = name;
  op_dir : c_dir c = dir;
  op_paths : paths c = ps;
  op_plain : c_enc c = None;
  op_feed : c_feed c = [];
  op_broker : c_broker c = false
}.

Lemma OpenCollection_rest name dataDir cfg w ps ap logs log b rest :
  let dir := join dataDir name in
  no_faults w → at_rest dir w ps ap logs log b rest → quiet dir w → w_files w !! indexPath dir = None → meta_covers dir w logs →
  ∃ c w', OpenCollection name dataDir cfg w = (Ok c, w') ∧ no_faults w' ∧ coll_inv c w' logs log ∧ opened name dir (ps ++ [ap]) c ∧
    ∀ p, ¬ in_dir dir p → w_files w' !! p = w_files w !! p.
Proof.
  intros dir Hw Hr Hq Hi Hm. set (c0 := fresh_collection name dir cfg).
  set (all := (λ p, MkSegment p 0 false OpenFile) <$> (ps ++ [ap])).
  destruct (load_spec c0 w ps ap logs log b rest all) as (c & w' & Hl & Hw' & Hcd & Hinv); [done|done|apply Hq| |  |done|].
  { subst all. rewrite <-list_fmap_compose. apply list_fmap_id. }
  { unfold index_current, Index.Load, read_file, mbind, SE_bind. rewrite syscall_nofault by done. unfold file_bytes.
    change (c_dir c0) with dir. rewrite Hi. by right. }
  exists c, w'. split; [by apply OpenCollection_load|]. split; [done|]. split; [done|].
  rewrite load_quiet in Hl by done. destruct (load_segments_spec c0 w ps ap logs log b rest Hw Hr) as (segs & E1 & Hsegs & _).
  erewrite bind_ok in Hl by exact E1. change (c_dir c0) with dir in *.
  set (c1 := set_active _ _) in *. set (w1 := set_files _ w) in *. match type of Hl with ?m _ = _ => assert (settles dir m) as Hs end.
  { apply settles_bind; [apply settles_load_index|]. intros rb. apply settles_list. intros qs Hqs.
    apply settles_bind; [by apply settles_load_sidxs|intros _; apply settles_load_meta]. }
  destruct (Hs c1 w1 eq_refl) as [H1 H2]. rewrite Hl in H1, H2. cbn [fst snd] in H1, H2.
  unfold layout in H1. injection H1 as L1 L2 L3 L4 L5 L6 L7. split.
  - split; [done|done| |done|done|done]. unfold paths, all_segments. rewrite L2, L3, fmap_app, <-Hsegs. done.
  - intros p Hp. rewrite H2 by done. simpl. rewrite lookup_insert_ne; [done|]. intros <-. apply Hp.
    pose proof (ar_numbers _ _ _ _ _ _ _ _ Hr) as Hn. apply Forall_app in Hn as [_ Hn]. apply Forall_cons in Hn as [(n & _ & ->) _].
    apply in_dir_segment.
Qed.

(** The segments of a copy. *)
Lemma segment_numbers c w logs log : coll_inv c w logs log → ∃ ns na,
  s_path <$> c_sealed c = segmentPath (c_dir c) <$> ns ∧ s_path (c_active c) = segmentPath (c_dir c) na ∧
  Forall (λ n, (n < 2 ^ 64)%N) (ns ++ [na]).
Proof.
  intros Hinv. pose proof (inv_numbers _ _ _ _ Hinv) as Hn. unfold paths, all_segments in Hn. rewrite fmap_app in Hn.
  apply Forall_app in Hn as [Hn Ha]. apply Forall_cons in Ha as [(na & Hna & Ea) _].
  assert (∃ ns, s_path <$> c_sealed c = segmentPath (c_dir c) <$> ns ∧ Forall (λ n, (n < 2 ^ 64)%N) ns) as (ns & E & Hns).
  { clear -Hn. induction Hn as [|p ps (n & Hn & ->) Hps (ns & -> & Hns)]; [by exists []|]. exists (n :: ns). split; [done|]. by constructor. }
  exists ns, na. split_and!; [done|done|]. apply Forall_app. split; [done|]. by repeat constructor.
Qed.

Lemma copied_at_rest c w logs log dir' w2 :
  coll_inv c w logs log → glob (c_dir c) "seg_" ".ndjson" (w_files w) = paths c → copied (c_dir c) dir' (w_files w) (w_files w2) →
  ∃ ps ap b, at_rest dir' w2 ps ap logs log b [] ∧ ∃ ns, paths c = segmentPath (c_dir c) <$> ns ∧ ps ++ [ap] = segmentPath dir' <$> ns.
Proof.
  intros Hinv Hglob Hc. destruct (segment_numbers c w logs log Hinv) as (ns & na & Es & Ea & Hn).
  assert (paths c = segmentPath (c_dir c) <$> (ns ++ [na])) as Hp.
  { unfold paths, all_segments. rewrite !fmap_app, Es. simpl. by rewrite Ea. }
  destruct (inv_active _ _ _ _ Hinv) as (b & Hb & Hlog & _).
  exists (segmentPath dir' <$> ns), (segmentPath dir' na), b. split; [|exists (ns ++ [na]); split; [done|by rewrite fmap_app]].
  assert (∀ l, segmentPath dir' <$> l = join dir' <$> (segment_file <$> l)) as Hj by (intros l; by rewrite <-list_fmap_compose).
  assert (segmentPath dir' <$> ns ++ [na] = (segmentPath dir' <$> ns) ++ [segmentPath dir' na]) as Happ by (by rewrite fmap_app).
  split; rewrite <-?Happ.
  - rewrite Hj. apply (glob_relocate (c_dir c) _ _ _ (w_files w)); [rewrite Hglob, Hp, <-list_fmap_compose; done|].
    intros f Hf. by rewrite Hc, (kept_glob _ _ Hf).
  - pose proof (inv_sealed _ _ _ _ Hinv) as HF. clear -HF Es Hc. revert ns Es. induction HF as [|s es segs lgs (b & Hb & Hlog & _) HF IH];
      intros [|n ns] Es; simplify_eq/=; constructor; [|by apply IH]. exists b. split; [|done]. rewrite <-Hb, H. by apply copied_segment.
  - rewrite app_nil_r, (copied_segment (c_dir c) _ (w_files w)) by done. by rewrite <-Ea.
  - done.
  - constructor.
  - pose proof (inv_paths _ _ _ _ Hinv) as Hnd. rewrite Hp in Hnd. rewrite Hj. apply NoDup_fmap; [intros x y; apply join_inj|].
    change (segmentPath (c_dir c)) with (join (c_dir c) ∘ segment_file) in Hnd. rewrite list_fmap_compose in Hnd. by eapply NoDup_fmap_1.
  - apply Forall_fmap. eapply Forall_impl; [exact Hn|]. intros n ?. by exists n.
  - intros n. rewrite (copied_segment (c_dir c) _ (w_files w)) by done. intros Hs%(inv_files _ _ _ _ Hinv). rewrite Hp in Hs.
    apply list_elem_of_fmap in Hs as (m & Heq%join_inj & Hm). apply list_elem_of_fmap. exists m. split; [|done].
    unfold segmentPath. by rewrite Heq.
Qed.

Lemma loadMeta_moved dir dir' w w' :
  no_faults w → no_faults w' → w_files w' !! metaPath dir' = w_files w !! metaPath dir →
  (loadMeta (metaPath dir') w').1 = (loadMeta (metaPath dir) w).1.
Proof.
  intros Hw Hw' Hf. unfold loadMeta, read_file, mbind, SE_bind. rewrite !syscall_nofault by done. unfold file_bytes. rewrite Hf.
  by destruct (w_files w !! metaPath dir).
Qed.

Lemma copied_quiet dir dir' w w2 : copied dir dir' (w_files w) (w_files w2) → quiet dir' w2.
Proof.
  intros Hc. split; [by apply (Hc "compact.manifest")|]. apply glob_nil. intros p Hp. apply not_true_iff_false. intros Hm.
  destruct (glob_in_dir _ _ _ _ Hm) as [f ->]. rewrite Hc in Hp. unfold glob_match in Hm. rewrite base_in_join in Hm.
  destruct (strip_prefix _ (to_bytes f)) as [rest|] eqn:Hs; [|done]. apply strip_prefix_Some in Hs.
  assert (kept f = false) as Hk; [|rewrite Hk in Hp; by destruct Hp].
  unfold kept, skipped. rewrite Hs. simpl. by rewrite !andb_false_r.
Qed.

(** Opening a copy gives a collection with the log of the original. *)
Lemma OpenCollection_copied name dataDir cfg c w logs log w2 :
  let dir := join dataDir name in
  coll_inv c w logs log → no_faults w → no_faults w2 → glob (c_dir c) "seg_" ".ndjson" (w_files w) = paths c →
  meta_covers (c_dir c) w logs → copied (c_dir c) dir (w_files w) (w_files w2) →
  ∃ c' w', OpenCollection name dataDir cfg w2 = (Ok c', w') ∧ no_faults w' ∧ coll_inv c' w' logs log ∧
    (∃ ns, paths c = segmentPath (c_dir c) <$> ns ∧ opened name dir (segmentPath dir <$> ns) c') ∧
    ∀ p, ¬ in_dir dir p → w_files w' !! p = w_files w2 !! p.
Proof.
  intros dir Hinv Hw Hw2 Hg Hm Hc. destruct (copied_at_rest c w logs log dir w2 Hinv Hg Hc) as (ps & ap & b & Hr & ns & Hp & Hp').
  destruct (OpenCollection_rest name dataDir cfg w2 ps ap logs log b []) as (c' & w' & H1 & H2 & H3 & H4 & H5);
    [done|done|by eapply copied_quiet|by apply (Hc "index.json")| |].
  - unfold meta_covers in *. pose proof (loadMeta_moved (c_dir c) dir w w2 Hw Hw2 (Hc "meta.json")) as He. fold dir.
    destruct (loadMeta (metaPath (c_dir c)) w) as [r ?], (loadMeta (metaPath dir) w2) as [r' ?]. simpl in He. by subst r'.
  - exists c', w'. split_and!; [done..| |done]. exists ns. split; [done|]. by rewrite <-Hp'.
Qed.
End restore.

(** ** What the archive holds *)
Lemma glob_match_all dir f : glob_match dir "" "" (join dir f) = negb (bool_decide (slash ∈ to_bytes f)).
Proof. unfold glob_match. rewrite base_in_join. simpl. by rewrite drop_0. Qed.

Lemma elem_of_dir_files dir fs f : f ∈ dir_files dir fs ↔ (f ≠ "" ∧ (slash ∉ to_bytes f) ∧ is_Some (fs !! join dir f)).
Proof.
  unfold dir_files. rewrite list_elem_of_filter, list_elem_of_omap. apply and_iff_compat_l. split.
  - intros (p & [Hm Hp]%elem_of_glob & Hb). destruct (glob_in_dir _ _ _ _ Hm) as [g ->]. rewrite base_in_join in Hb. simpl in Hb.
    rewrite of_to_bytes in Hb. injection Hb as ->. split; [|done]. rewrite glob_match_all in Hm. by bools.
  - intros [Hs Hp]. exists (join dir f). split; [|by rewrite base_in_join; simpl; rewrite of_to_bytes]. apply elem_of_glob. split; [|done].
    rewrite glob_match_all. by apply negb_true_iff, bool_decide_eq_false.
Qed.

Lemma kept_dir_file dir fs f : f ∈ dir_files dir fs ∧ skipped f = false ↔ kept f = true ∧ is_Some (fs !! join dir f).
Proof.
  rewrite elem_of_dir_files. unfold kept. rewrite !andb_true_iff, !negb_true_iff, !bool_decide_eq_false. tauto.
Qed.

Definition archive_path (name base : string) : string := name +:+ "/" +:+ base.

(** A collection and the world it was copied in. *)
Definition copy : Type := Collection * World.

(** The entries of a list of copies. *)
Definition archives (l : list (string * copy)) (entries : list archive_file) : Prop :=
  ∀ n b, (n, b) ∈ entries ↔
    ∃ name c w base, (name, (c, w)) ∈ l ∧ n = archive_path name base ∧ kept base = true ∧ w_files w !! join (c_dir c) base = Some b.

Lemma archives_app l1 l2 es1 es2 : archives l1 es1 → archives l2 es2 → archives (l1 ++ l2) (es1 ++ es2).
Proof.
  intros H1 H2 n b. rewrite elem_of_app, (H1 n b), (H2 n b). split.
  - intros [(x & c & w & f & Hin & Hr)|(x & c & w & f & Hin & Hr)]; exists x, c, w, f; (split; [apply elem_of_app; auto|done]).
  - intros (x & c & w & f & [Hin|Hin]%elem_of_app & Hr); [left|right]; by exists x, c, w, f.
Qed.

Section archive.
Context {sha : Sha256}.

Lemma write_files dir name bases sent w :
  no_faults w → (∀ f, f ∈ bases → is_Some (w_files w !! join dir f)) →
  ∃ entries, for_each (λ base, if skipped base then mret tt else writeFileToTar dir base name) bases (MkSink sent None, w) =
      (Ok tt, (MkSink (sent ++ entries) None, w)) ∧
    ∀ n b, (n, b) ∈ entries ↔ ∃ base, base ∈ bases ∧ skipped base = false ∧ n = archive_path name base ∧ w_files w !! join dir base = Some b.
Proof.
  intros Hw. revert sent. induction bases as [|f bases IH]; intros sent Hf.
  { exists []. rewrite app_nil_r. split; [done|]. intros n b. split; [by intros ?%not_elem_of_nil|by intros (x & ?%not_elem_of_nil & _)]. }
  cbn [for_each]. destruct (Hf f) as [b Hb]; [apply elem_of_cons; by left|]. destruct (skipped f) eqn:Hs.
  - destruct (IH sent) as (es & Hrun & Hes); [intros g Hg; apply Hf, elem_of_cons; by right|]. exists es. split; [exact Hrun|].
    intros n b'. rewrite Hes. split; intros (x & Hx & Hsx & Hr); exists x; (split; [|done]).
    + apply elem_of_cons. by right.
    + apply elem_of_cons in Hx as [->|Hx]; [congruence|done].
  - destruct (IH (sent ++ [(archive_path name f, b)])) as (es & Hrun & Hes); [intros g Hg; apply Hf, elem_of_cons; by right|].
    exists ((archive_path name f, b) :: es). split.
    + erewrite bind_ok; [rewrite Hrun; by rewrite <-app_assoc|]. unfold writeFileToTar.
      erewrite bind_ok by (apply io_ok, read_file_nofault; [done|exact Hb]).
      do 2 erewrite bind_ok by (apply io_ok, syscall_nofault; done). reflexivity.
    + intros n b'. rewrite elem_of_cons, Hes. split.
      * intros [[= -> ->]|(x & Hx & Hr)]; [exists f; split_and!; [apply elem_of_cons; by left|done..]|exists x; split; [apply elem_of_cons; by right|done]].
      * intros (x & [->|Hx]%elem_of_cons & Hsx & -> & Hbx); [left; congruence|right; eauto].
Qed.

Lemma writeSnapshot_spec c w sent : no_faults w →
  ∃ entries fs, writeSnapshot c (MkSink sent None, w) = (Ok tt, (MkSink (sent ++ entries) None, set_files fs w)) ∧
    (∀ p, ¬ sidx_named (c_dir c) p → fs !! p = w_files w !! p) ∧ archives [(c_name c, (c, set_files fs w))] entries.
Proof.
  intros Hw. destruct (persist_sidxs_spec (c_dir c) (map_to_list (c_sidxMap c)) w Hw) as (fs & Hp & Hfr).
  destruct (write_files (c_dir c) (c_name c) (dir_files (c_dir c) fs) sent (set_files fs w)) as (es & Hrun & Hes); [done| |].
  { intros f Hf%elem_of_dir_files. apply Hf. }
  exists es, fs. split; [|split; [done|]].
  - unfold writeSnapshot. erewrite bind_ok by (apply io_ok, Hp). unfold ReadDir.
    erewrite bind_ok by (apply io_ok; erewrite bind_ok by (apply syscall_nofault; done); reflexivity). exact Hrun.
  - intros n b. rewrite Hes. split.
    + intros (f & Hf & Hs & -> & Hb). exists (c_name c), c, (set_files fs w), f. split_and!; [by apply list_elem_of_singleton|done| |done].
      by apply (kept_dir_file (c_dir c) fs).
    + intros (name & c' & w' & f & [= -> -> ->]%list_elem_of_singleton & -> & Hk & Hb). exists f.
      assert (f ∈ dir_files (c_dir c) fs ∧ skipped f = false) as [H1 H2] by (apply kept_dir_file; eauto). by split_and!.
Qed.

(** A registered collection in its place. *)
Definition placed (d : string) (nc : string * Collection) : Prop :=
  plain_name nc.1 ∧ c_dir nc.2 = join d nc.1 ∧ c_name nc.2 = nc.1.

Lemma sidx_named_in_dir dir p : sidx_named dir p → in_dir dir p.
Proof. intros [f ->]. apply in_dir_join. Qed.

(** Files other than those of the secondary indexes of some collections. *)
Definition kept_apart (l : list (string * Collection)) (fs fs' : gmap string bytes) : Prop :=
  ∀ p, (∀ nc, nc ∈ l → ¬ sidx_named (c_dir nc.2) p) → fs' !! p = fs !! p.

Lemma snapshots_spec l w sent : no_faults w → Forall (λ nc, c_name nc.2 = nc.1) l →
  ∃ entries fs copies, for_each (λ nc : string * Collection, writeSnapshot nc.2) l (MkSink sent None, w) =
      (Ok tt, (MkSink (sent ++ entries) None, set_files fs w)) ∧ kept_apart l (w_files w) fs ∧
    (λ x : string * copy, (x.1, x.2.1)) <$> copies = l ∧
    Forall (λ x : string * copy, ∃ fs', x.2.2 = set_files fs' w ∧ kept_apart l (w_files w) fs') copies ∧ archives copies entries.
Proof.
  intros Hw Hl. revert w sent Hw. induction Hl as [|[name c] l Hn Hl IH]; intros w sent Hw.
  { exists [], (w_files w), []. rewrite app_nil_r, set_files_id. split_and!; try done. intros n b.
    split; [by intros ?%not_elem_of_nil|by intros (? & ? & ? & ? & ?%not_elem_of_nil & _)]. }
  cbn [fst snd] in Hn. cbn [for_each snd]. destruct (writeSnapshot_spec c w sent Hw) as (es1 & fs1 & H1 & F1 & A1).
  destruct (IH (set_files fs1 w) (sent ++ es1)) as (es2 & fs2 & cs2 & H2 & F2 & C2 & W2 & A2); [done|].
  assert (∀ fs, kept_apart l fs1 fs → kept_apart ((name, c) :: l) (w_files w) fs) as Hk.
  { intros fs Hfs p Hp. rewrite Hfs by (intros nc Hnc; apply Hp, elem_of_cons; by right). apply F1. apply (Hp (name, c)), elem_of_cons. by left. }
  exists (es1 ++ es2), fs2, ((name, (c, set_files fs1 w)) :: cs2). erewrite bind_ok by exact H1. rewrite H2, <-app_assoc. split_and!.
  - done.
  - by apply Hk.
  - cbn. by rewrite C2.
  - constructor; [exists fs1; split; [done|]; by apply Hk|]. eapply Forall_impl; [exact W2|]. intros x (fs' & -> & Hfs'). exists fs'. split; [done|]. by apply Hk.
  - rewrite Hn in A1. by apply (archives_app [_]).
Qed.

Lemma SnapshotTo_spec db w :
  let l := sorted_pairs (db_collections db) in
  no_faults w → (∀ name c, db_collections db !! name = Some c → c_name c = name) →
  ∃ entries fs copies, SnapshotTo db (MkSink [] None, w) = (Ok tt, (MkSink entries None, set_files fs w)) ∧ kept_apart l (w_files w) fs ∧
    (λ x : string * copy, (x.1, x.2.1)) <$> copies = l ∧
    Forall (λ x : string * copy, ∃ fs', x.2.2 = set_files fs' w ∧ kept_apart l (w_files w) fs') copies ∧ archives copies entries.
Proof.
  intros l Hw Hp. destruct (snapshots_spec l w [] Hw) as (es & fs & cs & H1 & H2 & H3 & H4 & H5).
  { apply Forall_forall. intros [name c] Hin%elem_of_sorted_pairs. by apply Hp. }
  exists es, fs, cs. split_and!; [unfold SnapshotTo; by erewrite bind_ok by exact H1|done..].
Qed.
End archive.

(** ** Archives that were written while system calls failed *)
Lemma syscall_ok_files w w' : syscall w = (Ok tt, w') → w_files w' = w_files w.
Proof. intros H. unfold syscall, mbind, SE_bind, mret, SE_ret, fail in H. destruct w as [fs [|[k|] os] t sd]; cbn in H; by simplify_eq. Qed.

Lemma read_ok_files p w b w' : read_file p w = (Ok b, w') → w_files w !! p = Some b ∧ w_files w' = w_files w.
Proof.
  intros H. unfold read_file in H. apply bind_inv_ok in H as ([] & w1 & H1 & H). apply syscall_ok_files in H1. unfold file_bytes in H.
  rewrite H1 in H. destruct (w_files w !! p) as [x|]; [|done]. by injection H as <- <-.
Qed.

(** The disk of a world, with no failure to come. *)
Definition calm (w : World) : World := MkWorld (w_files w) [] (w_now w) (w_seed w).

Section archive_ok.
Context {sha : Sha256} (w0 : World).

Lemma persist_sidxs_touches dir l : touches (sidx_named dir) (persist_sidxs dir l).
Proof.
  induction l as [|[field s] l IH]; cbn [persist_sidxs]; [touch|]. apply touches_bind; [|intros _; exact IH]. apply touches_ignore.
  unfold SecIndex.Persist. apply touches_writeFileAtomic; change (sidxFilePath dir field) with (join dir ("sidx_" +:+ field +:+ ".json"));
    rewrite ?join_tmp; apply sidx_named_prefix; rewrite ?to_bytes_app, <-?app_assoc; apply is_prefix_app.
Qed.

Lemma write_files_ok dir name bases sent w k w' :
  for_each (λ base, if skipped base then mret tt else writeFileToTar dir base name) bases (MkSink sent None, w) = (Ok tt, (k, w')) →
  ∃ entries, k = MkSink (sent ++ entries) None ∧ w_files w' = w_files w ∧
    (∀ f, f ∈ bases → skipped f = false → is_Some (w_files w !! join dir f)) ∧
    ∀ n b, (n, b) ∈ entries ↔ ∃ base, base ∈ bases ∧ skipped base = false ∧ n = archive_path name base ∧ w_files w !! join dir base = Some b.
Proof.
  revert sent w. induction bases as [|f bases IH]; intros sent w; cbn [for_each]; intros E.
  { injection E as <- <-. exists []. rewrite app_nil_r. split_and!; [done|done|by intros ? ?%not_elem_of_nil|]. intros n b.
    split; [by intros ?%not_elem_of_nil|by intros (x & ?%not_elem_of_nil & _)]. }
  apply bind_inv_ok in E as ([] & [k1 w1] & E1 & E). destruct (skipped f) eqn:Hs.
  - injection E1 as <- <-. destruct (IH _ _ E) as (es & -> & Hw & Hso & Hes). exists es. split_and!; [done|done| |].
    + intros x [->|Hx]%elem_of_cons Hsx; [congruence|by apply Hso].
    + intros n b'. rewrite Hes. split; intros (x & Hx & Hsx & Hr); exists x; (split; [|done]); [apply elem_of_cons; by right|].
      apply elem_of_cons in Hx as [->|Hx]; [congruence|done].
  - unfold writeFileToTar in E1. apply bind_inv_ok in E1 as (b & [k2 w2] & R & E1). unfold io in R. destruct (read_file _ w) as [r wr] eqn:Er.
    injection R as -> <- <-. apply read_ok_files in Er as [Hb Hwr].
    apply bind_inv_ok in E1 as ([] & [k3 w3] & S1 & E1). unfold io in S1. destruct (syscall wr) as [r3 ws] eqn:Es. injection S1 as -> <- <-.
    apply bind_inv_ok in E1 as ([] & [k4 w4] & S2 & E1). unfold io in S2. destruct (syscall ws) as [r4 wt] eqn:Et. injection S2 as -> <- <-.
    apply syscall_ok_files in Es, Et. injection E1 as <- <-. destruct (IH _ _ E) as (es & -> & Hw & Hso & Hes).
    rewrite Et, Es, Hwr in Hw, Hso, Hes. exists ((archive_path name f, b) :: es). split_and!; [by rewrite <-app_assoc|done| |].
    + intros x [->|Hx]%elem_of_cons Hsx; [eauto|by apply Hso].
    + intros n b'. rewrite elem_of_cons, Hes. split.
      * intros [[= -> ->]|(x & Hx & Hr)]; [exists f; split_and!; [apply elem_of_cons; by left|done..]|exists x; split; [apply elem_of_cons; by right|done]].
      * intros (x & [->|Hx]%elem_of_cons & Hsx & -> & Hbx); [left; congruence|right; eauto].
Qed.

Lemma writeSnapshot_ok c sent w k w' : writeSnapshot c (MkSink sent None, w) = (Ok tt, (k, w')) →
  ∃ entries, k = MkSink (sent ++ entries) None ∧ (∀ p, ¬ sidx_named (c_dir c) p → w_files w' !! p = w_files w !! p) ∧
    archives [(c_name c, (c, set_files (w_files w') w0))] entries.
Proof.
  intros E. unfold writeSnapshot in E. apply bind_inv_ok in E as ([] & [k1 w1] & E1 & E). unfold io in E1.
  pose proof (persist_sidxs_touches (c_dir c) (map_to_list (c_sidxMap c)) w) as Ht. destruct (persist_sidxs _ _ w) as [r wr]. injection E1 as -> <- <-.
  apply bind_inv_ok in E as (bases & [k2 w2] & E2 & E). unfold io in E2. destruct (ReadDir (c_dir c) wr) as [r2 wd] eqn:Er. injection E2 as -> <- <-.
  unfold ReadDir in Er. apply bind_inv_ok in Er as ([] & ws & Es & Er). apply syscall_ok_files in Es. injection Er as <- <-. rewrite Es in E.
  apply write_files_ok in E as (es & -> & Hw & _ & Hes). rewrite Es in Hw, Hes. exists es. split; [done|]. split; [intros p Hp; rewrite Hw; by apply Ht|].
  intros n b. rewrite Hes. cbn [w_files set_files]. split.
  - intros (f & Hf & Hs & -> & Hb). exists (c_name c), c, (set_files (w_files w') w0), f. split_and!; [by apply list_elem_of_singleton|done| |cbn; congruence].
    by apply (kept_dir_file (c_dir c) (w_files wr)).
  - intros (name & c' & w2 & f & [= -> -> ->]%list_elem_of_singleton & -> & Hk & Hb). cbn in Hb. rewrite Hw in Hb. exists f.
    assert (f ∈ dir_files (c_dir c) (w_files wr) ∧ skipped f = false) as [H1 H2] by (apply kept_dir_file; eauto). by split_and!.
Qed.

Lemma snapshots_ok l sent w k w' : Forall (λ nc, c_name nc.2 = nc.1) l →
  for_each (λ nc : string * Collection, writeSnapshot nc.2) l (MkSink sent None, w) = (Ok tt, (k, w')) →
  ∃ entries copies, k = MkSink (sent ++ entries) None ∧ kept_apart l (w_files w) (w_files w') ∧
    (λ x : string * copy, (x.1, x.2.1)) <$> copies = l ∧
    Forall (λ x : string * copy, ∃ fs', x.2.2 = set_files fs' w0 ∧ kept_apart l (w_files w) fs') copies ∧ archives copies entries.
Proof.
  intros Hl. revert sent w. induction Hl as [|[name c] l Hn Hl IH]; intros sent w; cbn [for_each snd]; intros E.
  { injection E as <- <-. exists [], []. rewrite app_nil_r. split_and!; try done. intros n b.
    split; [by intros ?%not_elem_of_nil|by intros (? & ? & ? & ? & ?%not_elem_of_nil & _)]. }
  cbn [fst snd] in Hn. apply bind_inv_ok in E as ([] & [k1 w1] & E1 & E). apply writeSnapshot_ok in E1 as (es1 & -> & F1 & A1).
  destruct (IH _ _ E) as (es2 & cs2 & -> & F2 & C2 & W2 & A2).
  assert (∀ fs, kept_apart l (w_files w1) fs → kept_apart ((name, c) :: l) (w_files w) fs) as Hk.
  { intros fs Hfs p Hp. rewrite Hfs by (intros nc Hnc; apply Hp, elem_of_cons; by right). apply F1. apply (Hp (name, c)), elem_of_cons. by left. }
  exists (es1 ++ es2), ((name, (c, set_files (w_files w1) w0)) :: cs2). rewrite <-app_assoc. split_and!.
  - done.
  - by apply Hk.
  - cbn. by rewrite C2.
  - constructor; [exists (w_files w1); split; [done|]; by apply Hk|]. eapply Forall_impl; [exact W2|]. intros x (fs' & -> & Hfs'). exists fs'. split; [done|]. by apply Hk.
  - rewrite Hn in A1. by apply (archives_app [_]).
Qed.

Lemma SnapshotTo_ok db w u k w' : (∀ name c, db_collections db !! name = Some c → c_name c = name) →
  SnapshotTo db (MkSink [] None, w) = (Ok u, (k, w')) →
  let l := sorted_pairs (db_collections db) in
  ∃ entries copies, k = MkSink entries None ∧ kept_apart l (w_files w) (w_files w') ∧
    (λ x : string * copy, (x.1, x.2.1)) <$> copies = l ∧
    Forall (λ x : string * copy, ∃ fs', x.2.2 = set_files fs' w0 ∧ kept_apart l (w_files w) fs') copies ∧ archives copies entries.
Proof.
  intros Hp E l. unfold SnapshotTo in E. apply bind_inv_ok in E as ([] & [k1 w1] & E1 & E). fold l in E1.
  apply snapshots_ok in E1 as (es & cs & -> & H1 & H2 & H3 & H4);
    [|apply Forall_forall; intros [name c] Hin%elem_of_sorted_pairs; by apply Hp].
  cbn in E. injection E as <- <- <-. exists es, cs. by split_and!.
Qed.
End archive_ok.

(** ** Unpacking it *)
Lemma foldl_clean_good l out : Forall good_elem l → foldl (clean_elem false) out l = rev l ++ out.
Proof.
  intros Hl. revert out. induction Hl as [|e l (H1 & H2 & H3 & _) Hl IH]; intros out; simpl; [done|].
  unfold clean_elem at 2. rewrite !bool_decide_false by tauto. rewrite IH. by rewrite <-app_assoc.
Qed.

Lemma good_unsafe l : l ≠ [] → Forall good_elem l → unsafe_path (join_path l) = false ∧ IsAbs (join_path l) = false.
Proof.
  intros Hne Hl. destruct l as [|e l]; [done|]. apply Forall_cons in Hl as [(H1 & H2 & H3 & H4) Hl].
  assert (IsAbs (join_path (e :: l)) = false) as Ha.
  { destruct e as [|c e]; [done|]. apply not_elem_of_cons in H4 as [Hc _]. destruct l; simpl; apply bool_decide_eq_false; intros ->; by apply Hc. }
  split; [|done]. unfold unsafe_path. rewrite Ha. clear Ha.
  assert (∀ x, x = dot ∨ x = dotdot → slash ∉ x) as Hd.
  { intros x [-> | ->]; apply (bool_decide_unpack _); vm_compute; exact I. }
  rewrite !bool_decide_false.
  - rewrite orb_false_r, !orb_false_l. apply not_true_iff_false. intros [r Hr]%is_prefix_split. change (["/"%char]) with [slash] in Hr.
    rewrite <-app_assoc in Hr. simpl ([slash] ++ r) in Hr. destruct l as [|e' l]; cbn [join_path] in Hr.
    + apply H4. rewrite Hr. apply elem_of_app. right. apply elem_of_cons. by left.
    + apply H3. eapply split_slash; [by apply Forall_forall; intros c Hc ->|repeat constructor; discriminate|exact Hr].
  - destruct l as [|e' l]; [done|]. intros Hx. apply (Hd dotdot); [by right|]. rewrite <-Hx. cbn [join_path]. apply elem_of_app. right. apply elem_of_cons. by left.
  - destruct l as [|e' l]; [done|]. intros Hx. apply (Hd dot); [by left|]. rewrite <-Hx. cbn [join_path]. apply elem_of_app. right. apply elem_of_cons. by left.
Qed.

Lemma Clean_good l : l ≠ [] → Forall good_elem l → Clean (join_path l) = join_path l.
Proof.
  intros Hne Hl. unfold Clean. destruct (good_unsafe l Hne Hl) as [_ ->].
  rewrite split_join, foldl_clean_good, app_nil_r, rev_involutive; [|done..|]; [by destruct l|].
  eapply Forall_impl; [exact Hl|]. by intros e (_ & _ & _ & ?).
Qed.

Lemma kept_good f : kept f = true → good_elem (to_bytes f).
Proof.
  unfold kept, skipped. intros H. bools. split_and!; try done.
  - intros Hx. apply (f_equal of_bytes) in Hx. rewrite of_to_bytes in Hx. done.
  - intros Hx. rewrite Hx in *. done.
  - intros Hx. rewrite Hx in *. done.
Qed.

Lemma plain_good name : plain_name name → good_elem (to_bytes name).
Proof.
  intros (Hs & H1 & H2 & H3). split_and!.
  - intros H%(f_equal of_bytes). by rewrite of_to_bytes in H.
  - intros H%(f_equal of_bytes). by rewrite of_to_bytes in H.
  - intros H%(f_equal of_bytes). by rewrite of_to_bytes in H.
  - intros Hin. unfold no_slash in Hs. rewrite Forall_forall in Hs. by apply (Hs _ Hin).
Qed.

Lemma archive_path_bytes name base : to_bytes (archive_path name base) = join_path [to_bytes name; to_bytes base].
Proof. unfold archive_path. by rewrite !to_bytes_app. Qed.
Lemma join_archive_path d name base : join d (archive_path name base) = join (join d name) base.
Proof. apply (inj to_bytes). unfold join, archive_path. by rewrite !to_bytes_app, <-!app_assoc. Qed.

Lemma on_world_ok {A} (m : M A) h r w' : m (h_world h) = (r, w') → on_world m h = (r, MkHost w' (h_dirs h)).
Proof. intros H. unfold on_world. by rewrite H. Qed.

Definition good_path (n : string) (name base : string) : Prop := n = archive_path name base ∧ plain_name name ∧ kept base = true.

Lemma extract_entry d n name base b h :
  no_faults (h_world h) → good_path n name base →
  extract_item d (MkItem true n b true) h =
    (Ok tt, MkHost (set_files (<[join (join d name) base := b]> (w_files (h_world h))) (h_world h)) ({[name]} ∪ h_dirs h)).
Proof.
  intros Hw (-> & Hn & Hb). pose proof (plain_good _ Hn) as Gn. pose proof (kept_good _ Hb) as Gb.
  assert (Forall good_elem [to_bytes name; to_bytes base]) as Hg by (constructor; [done|constructor; [done|constructor]]).
  unfold extract_item. cbn [ti_Reg ti_Name ti_Data ti_Complete negb]. rewrite archive_path_bytes, Clean_good by done.
  destruct (good_unsafe [to_bytes name; to_bytes base]) as [-> _]; [done|done|].
  rewrite <-archive_path_bytes, of_to_bytes, join_archive_path. unfold make_dirs.
  assert (∀ w, no_faults w → syscall w = (Ok tt, w)) as Hsys by apply syscall_nofault.
  erewrite bind_ok; [|erewrite bind_ok by (apply on_world_ok, Hsys, Hw); rewrite archive_path_bytes, split_join;
    [reflexivity|done|by eapply Forall_impl; [exact Hg|intros e (_ & _ & _ & ?)]]].
  rewrite of_to_bytes. cbn [h_world h_dirs].
  erewrite bind_ok by (apply on_world_ok; erewrite bind_ok by (apply Hsys, Hw); reflexivity). cbn [h_world h_dirs].
  erewrite bind_ok by (apply on_world_ok, append_file_nofault; done). cbn [h_world h_dirs set_files w_files].
  erewrite on_world_ok by (apply Hsys; done). cbn [h_world h_dirs]. rewrite !set_files_set, lookup_insert_eq, insert_insert_eq. done.
Qed.

Definition put_entry (d : string) (fs : gmap string bytes) (f : archive_file) : gmap string bytes := <[join d f.1 := f.2]> fs.

Lemma extract_entries d entries h :
  no_faults (h_world h) → (∀ n b, (n, b) ∈ entries → ∃ name base, good_path n name base) →
  ∃ ds, for_each (extract_item d) ((λ f, MkItem true f.1 f.2 true) <$> entries) h =
      (Ok tt, MkHost (set_files (foldl (put_entry d) (w_files (h_world h)) entries) (h_world h)) ds) ∧
    ∀ x, x ∈ ds ↔ x ∈ h_dirs h ∨ ∃ n b base, (n, b) ∈ entries ∧ good_path n x base.
Proof.
  revert h. induction entries as [|[n b] entries IH]; intros h Hw He.
  { exists (h_dirs h). cbn [foldl fmap list_fmap for_each]. rewrite set_files_id. split; [by destruct h|]. intros x. split; [auto|].
    intros [?|(? & ? & ? & ?%not_elem_of_nil & _)]; done. }
  destruct (He n b) as (name & base & Hg); [apply elem_of_cons; by left|]. pose proof (extract_entry d n name base b h Hw Hg) as H1.
  cbn [fmap list_fmap for_each fst snd]. erewrite bind_ok by exact H1.
  destruct (IH (MkHost (set_files (<[join (join d name) base := b]> (w_files (h_world h))) (h_world h)) ({[name]} ∪ h_dirs h)))
    as (ds & H2 & Hds); [done|intros n' b' Hin; apply (He n' b'), elem_of_cons; by right|].
  exists ds. rewrite H2. cbn [h_world h_dirs foldl]. rewrite set_files_set. split.
  - do 4 f_equal. unfold put_entry. cbn [fst snd]. destruct Hg as (-> & _). by rewrite join_archive_path.
  - intros x. rewrite Hds. cbn [h_dirs]. rewrite elem_of_union, elem_of_singleton. split.
    + intros [[->|?]|(n' & b' & base' & Hin & Hg')]; [right; exists n, b, base; split; [apply elem_of_cons; by left|done]|auto|].
      right. exists n', b', base'. split; [apply elem_of_cons; by right|done].
    + intros [?|(n' & b' & base' & [[= -> ->]|Hin]%elem_of_cons & Hg')]; [auto| |right; eauto 10].
      left. left. destruct Hg as (-> & (Hs1 & _) & _), Hg' as (Heq & (Hs2 & _) & _).
      eapply (in_dir_unique "" _ _ (join "" (archive_path name base))); [done|done|rewrite Heq|]; rewrite join_archive_path; apply in_dir_join.
Qed.

Lemma put_entries_lookup d entries fs n b :
  (∀ b', (n, b') ∈ entries → b' = b) → (n, b) ∈ entries → foldl (put_entry d) fs entries !! join d n = Some b.
Proof.
  induction entries as [|[n' b'] entries IH] using rev_ind; intros Hu Hin; [by apply not_elem_of_nil in Hin|].
  rewrite foldl_app. cbn [foldl]. unfold put_entry at 1. cbn [fst snd]. destruct (decide (n' = n)) as [->|Hne].
  - rewrite lookup_insert_eq. f_equal. apply Hu, elem_of_app. right. by apply list_elem_of_singleton.
  - rewrite lookup_insert_ne by (by intros ?%join_inj). apply IH.
    + intros b'' Hb. apply Hu, elem_of_app. by left.
    + apply elem_of_app in Hin as [?|[= ? ?]%list_elem_of_singleton]; [done|congruence].
Qed.

Lemma put_entries_other d entries fs p : (∀ n b, (n, b) ∈ entries → p ≠ join d n) → foldl (put_entry d) fs entries !! p = fs !! p.
Proof.
  revert fs. induction entries as [|[n b] entries IH]; intros fs Hp; [done|]. cbn [foldl]. rewrite IH by (intros; eapply Hp, elem_of_cons; eauto).
  unfold put_entry. cbn [fst snd]. rewrite lookup_insert_ne; [done|]. apply not_eq_sym, (Hp n b), elem_of_cons. by left.
Qed.


Lemma archive_path_inj n1 f1 n2 f2 : no_slash n1 → no_slash n2 → archive_path n1 f1 = archive_path n2 f2 → n1 = n2 ∧ f1 = f2.
Proof.
  intros H1 H2 He. apply (f_equal (join "")) in He. rewrite !join_archive_path in He.
  assert (n1 = n2) as -> by (eapply (in_dir_unique ""); [done|done|apply in_dir_join|rewrite He; apply in_dir_join]).
  split; [done|]. by apply join_inj in He.
Qed.

(** Every collection of the archive is found in its directory. *)
Lemma unpacked_copied d' l fs2 entries name c w :
  archives l entries → NoDup l.*1 → Forall (λ x, plain_name x.1) l → (∀ p, in_dir d' p → fs2 !! p = None) → (name, (c, w)) ∈ l →
  copied (c_dir c) (join d' name) (w_files w) (foldl (put_entry d') fs2 entries).
Proof.
  intros Ha Hnd Hl Hempty Hin f. rewrite Forall_forall in Hl. pose proof (Hl _ Hin) as (Hs & _). simpl in Hs. rewrite <-join_archive_path.
  assert (∀ b, (archive_path name f, b) ∈ entries → kept f = true ∧ w_files w !! join (c_dir c) f = Some b) as Hu.
  { intros b (n2 & c2 & w2 & f2 & Hin2 & He & Hk & Hb)%Ha. destruct (Hl _ Hin2) as (Hs2 & _). simpl in Hs2.
    apply archive_path_inj in He as [<- <-]; [|done|done].
    pose proof (elem_of_list_to_map_1 (M := gmap string) l _ _ Hnd Hin) as E1. pose proof (elem_of_list_to_map_1 (M := gmap string) l _ _ Hnd Hin2) as E2.
    rewrite E1 in E2. by injection E2 as -> ->. }
  assert (fs2 !! join d' (archive_path name f) = None) as Hn by apply Hempty, in_dir_join.
  assert ((∀ b, (archive_path name f, b) ∉ entries) → foldl (put_entry d') fs2 entries !! join d' (archive_path name f) = None) as Hnone.
  { intros Hno. rewrite put_entries_other; [done|]. intros n b Hb He%join_inj. subst n. by apply (Hno b). }
  destruct (kept f) eqn:Hk; [destruct (w_files w !! join (c_dir c) f) as [b|] eqn:Hb|].
  - apply put_entries_lookup; [intros b' [_ Hb']%Hu; congruence|]. apply Ha. exists name, c, w, f. by split_and!.
  - apply Hnone. intros b [_ ?]%Hu. congruence.
  - apply Hnone. intros b [? _]%Hu. congruence.
Qed.

(** ** Opening every directory *)
Section opening.
Context {sha : Sha256}.
Context (d : string) (cfg : CollectionConfig) (Q : string → Collection → World → Prop).

(** A property of a collection that depends only on its own directory. *)
Definition framed : Prop := ∀ name c w w', Q name c w →
  (∀ p, in_dir (join d name) p → w_files w' !! p = w_files w !! p) → Q name c w'.
Definition opens (name : string) (w : World) : Prop := ∃ c w',
  OpenCollection name d cfg w = (Ok c, w') ∧ no_faults w' ∧ Q name c w' ∧ ∀ p, ¬ in_dir (join d name) p → w_files w' !! p = w_files w !! p.
Definition openable (fs : gmap string bytes) (name : string) : Prop := no_slash name ∧
  ∀ w, no_faults w → (∀ p, in_dir (join d name) p → w_files w !! p = fs !! p) → opens name w.

Lemma open_all_spec names db h :
  framed → no_faults (h_world h) → db_dataDir db = d → NoDup names → Forall (openable (w_files (h_world h))) names →
  ∃ db' h', open_all names cfg (db, h) = (Ok tt, (db', h')) ∧ no_faults (h_world h') ∧
    positions db' = positions db ∧ db_broker db' = db_broker db ∧
    (∀ name, name ∈ names → ∃ c, db_collections db' !! name = Some (set_broker (bool_decide (is_Some (db_broker db))) c) ∧ Q name c (h_world h')) ∧
    (∀ name, name ∉ names → db_collections db' !! name = db_collections db !! name) ∧
    ∀ p, (∀ name, name ∈ names → ¬ in_dir (join d name) p) → w_files (h_world h') !! p = w_files (h_world h) !! p.
Proof.
  intros Hfr. revert db h. induction names as [|name names IH]; intros db h Hw Hd Hnd Hop.
  { exists db, h. split_and!; try done. by intros ? ?%not_elem_of_nil. }
  apply NoDup_cons in Hnd as [Hni Hnd]. apply Forall_cons in Hop as [[Hs Ho] Hop]. cbn [open_all].
  destruct (Ho (h_world h) Hw ltac:(done)) as (c & w' & H1 & H2 & H3 & H4). rewrite <-Hd in H1.
  set (h1 := MkHost w' (match w_faults (h_world h) with Some _ :: _ => h_dirs h | _ => {[name]} ∪ h_dirs h end)).
  set (c1 := set_broker (bool_decide (is_Some (db_broker db))) c). set (db1 := set_collections (<[name := c1]> (db_collections db)) db).
  assert (∀ other p, no_slash other → other ≠ name → in_dir (join d other) p → ¬ in_dir (join d name) p) as Hother.
  { intros other p Hso Hne Hp Hp'. apply Hne. by eapply (in_dir_unique d). }
  assert (positions db1 = positions db ∧ db_broker db1 = db_broker db ∧ db_collections db1 = <[name := c1]> (db_collections db))
    as (P1 & P2 & P3) by (by destruct db).
  destruct (IH db1 h1) as (db' & h' & I1 & I2 & I3 & I4 & I5 & I6 & I7); [done|by destruct db|done| |].
  { apply Forall_forall. intros other Hin. rewrite Forall_forall in Hop. destruct (Hop _ Hin) as [Hso Hoo]. split; [done|].
    intros w Hww Hwf. apply Hoo; [done|]. intros p Hp. rewrite Hwf by done. apply H4. apply (Hother other); [done| |done]. by intros ->. }
  exists db', h'. split; [|split_and!].
  - unfold open_collection. erewrite bind_ok by (rewrite H1; reflexivity). erewrite bind_ok by reflexivity. exact I1.
  - done.
  - congruence.
  - congruence.
  - intros other [->|Hin]%elem_of_cons; [|rewrite P2 in I5; by apply I5]. exists c. split; [by rewrite I6, P3, lookup_insert_eq|].
    apply (Hfr _ _ w'); [done|]. intros p Hp. apply I7. intros other Hin Hp'. apply Hni. rewrite Forall_forall in Hop.
    destruct (Hop _ Hin) as [Hso _]. assert (name = other) as -> by (by eapply (in_dir_unique d)). done.
  - intros other [Hne Hno]%not_elem_of_cons. rewrite I6, P3 by done. by rewrite lookup_insert_ne.
  - intros p Hp. rewrite I7 by (intros other Hin; apply Hp, elem_of_cons; by right). apply H4, Hp, elem_of_cons. by left.
Qed.

Lemma elem_of_dir_names h name : name ∈ dir_names h ↔ name ∈ h_dirs h.
Proof.
  unfold dir_names. rewrite list_elem_of_fmap. split.
  - intros ([n u] & -> & Hin%elem_of_sorted_pairs). by apply lookup_gset_to_gmap_Some in Hin as [? _].
  - intros Hin. exists (name, tt). split; [done|]. apply elem_of_sorted_pairs. by apply lookup_gset_to_gmap_Some.
Qed.

Lemma OpenDB_spec dcfg h :
  framed → no_faults (h_world h) → dc_collection dcfg = cfg → w_files (h_world h) !! join d replStateFilename = None →
  (∀ name, name ∈ h_dirs h → openable (w_files (h_world h)) name) →
  ∃ db' h' bk, OpenDB d dcfg h = (Ok db', h') ∧ no_faults (h_world h') ∧ positions db' = positions (new_db d dcfg) ∧
    (∀ name, match db_collections db' !! name with
       | Some c' => name ∈ h_dirs h ∧ ∃ c, c' = set_broker bk c ∧ Q name c (h_world h')
       | None => name ∉ h_dirs h
       end) ∧
    ∀ p, (∀ name, name ∈ h_dirs h → ¬ in_dir (join d name) p) → w_files (h_world h') !! p = w_files (h_world h) !! p.
Proof.
  intros Hfr Hw Hcfg Hst Hop. unfold OpenDB.
  assert (∀ db : DB, files syscall (db, h) = (Ok tt, (db, h))) as Hsys.
  { intros db. unfold files. rewrite syscall_nofault by done. by destruct h. }
  erewrite bind_ok by apply Hsys.
  set (db0 := new_db d dcfg).
  assert (∃ db1, initReplication (ReplicationRingSize dcfg) (db0, h) = (Ok tt, (db1, h)) ∧ positions db1 = positions db0 ∧
    db_collections db1 = ∅) as (db1 & E1 & E2 & E3).
  { unfold initReplication. change (replStatePath db0) with (join d replStateFilename).
    assert (loadReplState (join d replStateFilename) (h_world h) = (Err ErrNotExist, h_world h)) as ->.
    { unfold loadReplState. apply bind_err. unfold read_file. erewrite bind_ok by (by apply syscall_nofault). unfold file_bytes. by rewrite Hst. }
    eexists. split; [destruct h; reflexivity|]. by destruct (0 <? ReplicationRingSize dcfg)%Z. }
  erewrite bind_ok by exact E1. erewrite bind_ok by apply Hsys. unfold open_existing. cbn [snd]. rewrite Hcfg.
  destruct (open_all_spec (dir_names h) db1 h) as (db' & h' & A1 & A2 & A3 & A4 & A5 & A6 & A7); [done|done|by injection E2| | |].
  { apply sorted_pairs_nodup. }
  { apply Forall_forall. intros name Hin%elem_of_dir_names. by apply Hop. }
  rewrite A1. exists db', h', (bool_decide (is_Some (db_broker db1))). split_and!; [done|done|congruence| |].
  - intros name. destruct (decide (name ∈ h_dirs h)) as [Hin|Hno].
    + destruct (A5 name) as (c & -> & HQ); [by apply elem_of_dir_names|]. eauto.
    + rewrite A6, E3, lookup_empty by (by rewrite elem_of_dir_names). done.
  - intros p Hp. apply A7. intros name Hin%elem_of_dir_names. by apply Hp.
Qed.
End opening.

(** ** Restoring *)
Abbreviation logs_of := (string → list (list (Z * Entry)) * list (Z * Entry)).

Section restoring.
Context {sha : Sha256}.

(** A collection in its place with the log [L] gives it and no stray segment files. *)
Record archivable (d : string) (L : logs_of) (x : string * copy) : Prop := {
  av_nofault : no_faults x.2.2;
  av_placed : placed d (x.1, x.2.1);
  av_inv : coll_inv x.2.1 x.2.2 (L x.1).1 (L x.1).2;
  av_glob : glob (c_dir x.2.1) "seg_" ".ndjson" (w_files x.2.2) = paths x.2.1;
  av_meta : meta_covers (c_dir x.2.1) x.2.2 (L x.1).1
}.

Lemma not_sidx d l name c f :
  Forall (placed d) l → NoDup l.*1 → (name, c) ∈ l → is_prefix (to_bytes "sidx_") (to_bytes f) = false →
  ∀ nc, nc ∈ l → ¬ sidx_named (c_dir nc.2) (join (c_dir c) f).
Proof.
  intros Hp Hnd Hc Hf [name' c'] Hc' Hs. rewrite Forall_forall in Hp. destruct (Hp _ Hc) as ((Hn & _) & Hd & _), (Hp _ Hc') as ((Hn' & _) & Hd' & _).
  cbn [fst snd] in *. assert (name = name') as <-.
  { eapply (in_dir_unique d); [done|done|rewrite <-Hd; apply in_dir_join|]. rewrite <-Hd'. by apply sidx_named_in_dir. }
  assert (c_dir c' = c_dir c) as Hcd by congruence. rewrite Hcd in Hs. apply sidx_named_prefix in Hs. congruence.
Qed.

Lemma archivable_frame d l name c w L fs :
  Forall (placed d) l → NoDup l.*1 → (name, c) ∈ l → kept_apart l (w_files w) fs →
  archivable d L (name, (c, w)) → archivable d L (name, (c, set_files fs w)).
Proof.
  intros Hl Hnd Hin Hk [Hw Hp Hinv Hg Hm]. cbn [fst snd] in *.
  assert (∀ f, is_prefix (to_bytes "sidx_") (to_bytes f) = false → fs !! join (c_dir c) f = w_files w !! join (c_dir c) f) as Hf.
  { intros f Hf. apply Hk. by apply (not_sidx d l name c f). }
  split; cbn [fst snd]; [done|done|..].
  - apply (coll_inv_frame c w); [done|]. intros n. cbn [w_files set_files]. by apply (Hf (segment_file n)).
  - rewrite <-Hg. destruct (segment_numbers c w _ _ Hinv) as (ns & na & Es & Ea & _).
    assert (glob (c_dir c) "seg_" ".ndjson" (w_files w) = join (c_dir c) <$> (segment_file <$> (ns ++ [na]))) as Hb.
    { rewrite Hg. unfold paths, all_segments. rewrite !fmap_app, Es, <-list_fmap_compose. simpl. by rewrite Ea. }
    rewrite Hb. apply (glob_relocate (c_dir c) _ _ _ (w_files w)); [done|]. intros f Hgm. cbn [w_files set_files]. rewrite Hf; [done|].
    unfold glob_match in Hgm. rewrite base_in_join in Hgm. destruct (strip_prefix _ (to_bytes f)) as [r|] eqn:Hs; [|done].
    apply strip_prefix_Some in Hs. by rewrite Hs.
  - unfold meta_covers in *. pose proof (loadMeta_moved (c_dir c) (c_dir c) w (set_files fs w) Hw Hw (Hf "meta.json" eq_refl)) as He.
    destruct (loadMeta _ w) as [r ?], (loadMeta _ (set_files fs w)) as [r' ?]. simpl in He. by subst r'.
Qed.

(** A collection opened from a copy of [c]. *)
Record restored_from (c : Collection) (logs : list (list (Z * Entry))) (log : list (Z * Entry)) (dir : string)
    (c' : Collection) (w : World) : Prop := {
  rf_inv : coll_inv c' w logs log;
  rf_dir : c_dir c' = dir;
  rf_plain : c_enc c' = None;
  rf_feed : c_feed c' = [];
  rf_room : max_segment dir (all_segments c') = max_segment (c_dir c) (all_segments c)
}.

Lemma max_segment_numbers dir segs ns :
  s_path <$> segs = segmentPath dir <$> ns → Forall (λ n, (n < 2 ^ 64)%N) ns → max_segment dir segs = foldl N.max 0%N ns.
Proof.
  unfold max_segment. generalize 0%N as m. revert ns. induction segs as [|s segs IH]; intros [|n ns] m Hp Hn; simplify_eq/=; [done|].
  apply Forall_cons in Hn as [Hn Hns]. rewrite H, seg_number_segmentPath by done. rewrite (IH ns) by done. f_equal.
  destruct (N.ltb_spec m n); lia.
Qed.

Lemma restored_framed c logs log dir c' w w' :
  restored_from c logs log dir c' w → (∀ p, in_dir dir p → w_files w' !! p = w_files w !! p) → restored_from c logs log dir c' w'.
Proof.
  intros [H1 H2 H3 H4 H5] Hf. split; try done. apply (coll_inv_frame c' w); [done|]. intros n. apply Hf. rewrite H2. apply in_dir_segment.
Qed.

Lemma restored_broker b c logs log dir c' w : restored_from c logs log dir c' w → restored_from c logs log dir (set_broker b c') w.
Proof. intros [H1 H2 H3 H4 H5]. destruct c'. split; try done. by eapply coll_inv_same; [|exact H1]. Qed.

Lemma restored_open d L d' cfg name c w w2 :
  archivable d L (name, (c, w)) → no_faults w2 → copied (c_dir c) (join d' name) (w_files w) (w_files w2) →
  ∃ c' w', OpenCollection name d' cfg w2 = (Ok c', w') ∧ no_faults w' ∧ restored_from c (L name).1 (L name).2 (join d' name) c' w' ∧
    ∀ p, ¬ in_dir (join d' name) p → w_files w' !! p = w_files w2 !! p.
Proof.
  intros [Hw Hp Hinv Hg Hm] Hw2 Hcp. cbn [fst snd] in *.
  destruct (OpenCollection_copied name d' cfg c w _ _ w2 Hinv Hw Hw2 Hg Hm Hcp) as (c' & w' & H1 & H2 & H3 & (ns & H4 & H5) & H6).
  exists c', w'. split_and!; [done|done| |done]. destruct H5 as [_ Hd Hps Hpl Hfe _]. split; try done.
  assert (Forall (λ n, (n < 2 ^ 64)%N) ns) as Hn.
  { pose proof (inv_numbers _ _ _ _ Hinv) as Hnum. rewrite H4, Forall_forall in Hnum. apply Forall_forall. intros n Hin.
    destruct (Hnum (segmentPath (c_dir c) n)) as (m & Hm' & ->%segmentPath_inj); [apply list_elem_of_fmap; eauto|done]. }
  by rewrite (max_segment_numbers _ (all_segments c') ns), (max_segment_numbers _ (all_segments c) ns).
Qed.

Context {arch : Archive} {arch_laws : ArchiveLaws}.

(** Nothing below a directory, on a host that works. *)
Record fresh_host (d : string) (h : Host) : Prop := {
  fh_nofault : no_faults (h_world h);
  fh_dirs : h_dirs h = ∅;
  fh_files : ∀ p, in_dir d p → w_files (h_world h) !! p = None
}.

(** What an archive unpacks to. *)
Lemma unpack_spec copies entries d' h :
  Forall (λ x, plain_name x.1) copies → NoDup copies.*1 → archives copies entries →
  Forall (λ f, tar_name f.1 = true) entries → fresh_host d' h →
  ∃ h2, extractSnapshot (tar_gz entries) None d' h = (Ok tt, h2) ∧ no_faults (h_world h2) ∧
    (∀ name, name ∈ h_dirs h2 → name ∈ copies.*1) ∧
    (∀ name c w, (name, (c, w)) ∈ copies → copied (c_dir c) (join d' name) (w_files w) (w_files (h_world h2)) ∧
       ((∃ f, kept f = true ∧ is_Some (w_files w !! join (c_dir c) f)) → name ∈ h_dirs h2)) ∧
    ∀ p, in_dir d' p → (∀ name, name ∈ copies.*1 → ¬ in_dir (join d' name) p) → w_files (h_world h2) !! p = None.
Proof.
  intros Hp Hnd Ha Ht [Hw Hd He]. pose proof Hp as Hp'. rewrite Forall_forall in Hp'.
  assert (∀ n b, (n, b) ∈ entries → ∃ name base, name ∈ copies.*1 ∧ good_path n name base) as Hen.
  { intros n b (name & c & w & base & Hin & -> & Hk & Hb)%Ha. exists name, base. split; [apply list_elem_of_fmap; by eexists (_, _)|].
    split; [done|]. split; [apply (Hp' _ Hin)|done]. }
  destruct (extract_entries d' entries h Hw) as (ds & Hx & Hds).
  { intros n b (name & base & _ & Hg)%Hen. eauto. }
  unfold extractSnapshot. rewrite untar_tar by done. unfold extract_items. erewrite bind_ok by exact Hx.
  eexists. split; [reflexivity|]. cbn [h_world h_dirs w_files set_files]. split; [done|]. split; [|split].
  - intros name [Hin|(n & b & base & Hin & Hg)]%Hds; [rewrite Hd in Hin; set_solver|].
    destruct (Hen _ _ Hin) as (name' & base' & Hn & (-> & (Hs' & _) & _)), Hg as (Heq & (Hs & _) & _).
    by apply archive_path_inj in Heq as [-> ->].
  - intros name c w Hc. split; [by eapply unpacked_copied|].
    intros (f & Hk & b & Hb). apply Hds. right. exists (archive_path name f), b, f. split.
    + apply Ha. by exists name, c, w, f.
    + split; [done|]. split; [apply (Hp' _ Hc)|done].
  - intros p Hin Hno. rewrite put_entries_other; [by apply He|]. intros n b (name & base & Hn & (-> & _))%Hen ->.
    apply (Hno name Hn). rewrite join_archive_path. apply in_dir_join.
Qed.

(** The database that opens on it. *)
Record restores (copies : list (string * copy)) (L : logs_of) (d : string) (db' : DB) (w : World) : Prop := {
  rs_there : ∀ name c w0, (name, (c, w0)) ∈ copies →
    ∃ c', db_collections db' !! name = Some c' ∧ restored_from c (L name).1 (L name).2 (join d name) c' w;
  rs_other : ∀ name, name ∉ copies.*1 → db_collections db' !! name = None ∧ (no_slash name → empty_dir (join d name) w)
}.

Lemma reopen_spec copies L entries d' cfg h :
  Forall (λ x, ∃ d, archivable d L x) copies → NoDup copies.*1 → archives copies entries → Forall (λ f, tar_name f.1 = true) entries → fresh_host d' h →
  ∃ h2 db' h3, extractSnapshot (tar_gz entries) None d' h = (Ok tt, h2) ∧ OpenDB d' cfg h2 = (Ok db', h3) ∧ no_faults (h_world h3) ∧
    positions db' = positions (new_db d' cfg) ∧ restores copies L d' db' (h_world h3).
Proof.
  intros Ha Hnd Harch Ht Hf.
  assert (Forall (λ x, plain_name x.1) copies) as Hp by (eapply Forall_impl; [exact Ha|intros x [d Hx]; apply Hx]).
  rewrite Forall_forall in Ha. assert (∀ name, name ∈ copies.*1 → ∃ c w, (name, (c, w)) ∈ copies) as Hcp.
  { intros name ([n [c w]] & -> & Hin)%list_elem_of_fmap. eauto. }
  destruct (unpack_spec copies entries d' h Hp Hnd Harch Ht Hf) as (h2 & X1 & X2 & X3 & X4 & X5).
  set (Q := λ name c' w', ∃ c w, (name, (c, w)) ∈ copies ∧ restored_from c (L name).1 (L name).2 (join d' name) c' w').
  destruct (OpenDB_spec d' (dc_collection cfg) Q cfg h2) as (db' & h3 & bk & O1 & O2 & O3 & O4 & O5); [|done|done| | |].
  { intros name c' w1 w2 (c & w & Hc & Hr) Hfr. exists c, w. split; [done|]. by eapply restored_framed. }
  { apply X5; [apply in_dir_join|]. intros name _. apply top_file_outside. apply (bool_decide_unpack _). vm_compute. exact I. }
  { intros name (c & w & Hc)%X3%Hcp. destruct (Ha _ Hc) as [d Hav]. split; [apply Hav|]. intros w2 Hw2 Hsame.
    destruct (restored_open d L d' (dc_collection cfg) name c w w2 Hav Hw2) as (c' & w' & R1 & R2 & R3 & R4).
    { intros f. rewrite Hsame by apply in_dir_join. by apply (X4 name c w Hc). }
    exists c', w'. split_and!; [done|done| |done]. by exists c, w. }
  exists h2, db', h3. split_and!; [done|done|done|done|]. split.
  - intros name c w Hc. specialize (O4 name). assert (name ∈ h_dirs h2) as Hin.
    { apply (X4 name c w Hc). destruct (Ha _ Hc) as [d Hav]. pose proof (av_inv _ _ _ Hav) as Hinv. destruct (segment_numbers _ _ _ _ Hinv) as (ns & na & _ & Ea & _).
      destruct (inv_active _ _ _ _ Hinv) as (b & Hb & _). exists (segment_file na). split; [apply kept_segment|]. rewrite Ea in Hb. by exists b. }
    destruct (db_collections db' !! name) as [c'|]; [|done]. destruct O4 as (_ & x & -> & c0 & w0 & Hc0 & Hr). eexists. split; [done|].
    pose proof (elem_of_list_to_map_1 (M := gmap string) copies _ _ Hnd Hc) as E1. rewrite (elem_of_list_to_map_1 copies _ _ Hnd Hc0) in E1.
    injection E1 as -> ->. by apply restored_broker.
  - intros name Hno. specialize (O4 name). destruct (db_collections db' !! name) as [c'|]; [by destruct O4 as [?%X3 _]|]. split; [done|]. intros Hs p Hin.
    assert (∀ other, other ∈ copies.*1 → ¬ in_dir (join d' other) p) as Hout.
    { intros other Ho Hin'. assert (name = other) as ->; [|done]. destruct (Hcp _ Ho) as (c & w & Hc). destruct (Ha _ Hc) as [d Hav].
      eapply (in_dir_unique d'); [done|apply Hav|done..]. }
    rewrite O5 by (intros other Ho; apply Hout; by apply X3). apply X5; [|done]. destruct Hin as [f ->]. rewrite <-join_archive_path. apply in_dir_join.
Qed.

(** The copies of a database taken at one moment. *)
Definition copies_of (db : DB) (w : World) : list (string * copy) := (λ nc : string * Collection, (nc.1, (nc.2, w))) <$> sorted_pairs (db_collections db).

(** What an archive of copies of the collections restores. *)
Lemma copies_restore (db : DB) (w w0 : World) (L : logs_of) copies entries :
  let l := sorted_pairs (db_collections db) in
  w_files w0 = w_files w → Forall (archivable (db_dataDir db) L) (copies_of db w0) →
  (λ x : string * copy, (x.1, x.2.1)) <$> copies = l →
  Forall (λ x : string * copy, ∃ fs', x.2.2 = set_files fs' w0 ∧ kept_apart l (w_files w) fs') copies → archives copies entries →
  ∀ d' cfg h w', fresh_host d' h → Forall (λ f, tar_name f.1 = true) entries →
    ∃ h2 db' h3, extractSnapshot (tar_gz entries) None d' h = (Ok tt, h2) ∧ OpenDB d' cfg h2 = (Ok db', h3) ∧
      restores (copies_of db w') L d' db' (h_world h3).
Proof.
  intros l Hw0 Ha S3 S4 S5 d' cfg h w' Hf Ht. unfold copies_of in *. fold l in Ha |- *. rewrite Forall_fmap in Ha.
  assert (NoDup l.*1) as Hnd by apply sorted_pairs_nodup.
  assert (Forall (placed (db_dataDir db)) l) as Hp by (eapply Forall_impl; [exact Ha|intros [n c] Hx; apply Hx]).
  rewrite Forall_forall in Ha. assert (copies.*1 = l.*1) as Hk by (rewrite <-S3, <-list_fmap_compose; done).
  destruct (reopen_spec copies L entries d' cfg h) as (h2 & db' & h3 & R1 & R2 & _ & _ & R3 & R4); [|by rewrite Hk|done..|].
  { apply Forall_forall. intros [n [c x]] Hin. rewrite Forall_forall in S4. destruct (S4 _ Hin) as (fs' & Hw' & Hfs). cbn [fst snd] in Hw'. subst x.
    assert ((n, c) ∈ l) as Hl by (rewrite <-S3; apply list_elem_of_fmap; by eexists (_, (_, _))).
    exists (db_dataDir db). apply (archivable_frame _ l); [done..|by rewrite Hw0|apply (Ha _ Hl)]. }
  exists h2, db', h3. split_and!; [done|done|]. split.
  - intros n c x ([n' c'] & [= -> -> ->] & Hin)%list_elem_of_fmap. rewrite <-S3 in Hin.
    apply list_elem_of_fmap in Hin as ([n [c w'']] & [= -> ->] & Hin). by eapply R3.
  - intros n Hn. apply R4. rewrite Hk. intros Hin. apply Hn. rewrite <-list_fmap_compose. exact Hin.
Qed.

(** A snapshot restores the database: archiving its collections succeeds and
    leaves every collection with its log, changing no files but those of secondary
    indexes; the archive, unpacked into a fresh data directory and opened there
    with any configuration, gives exactly the same collections, each with the same
    log, segment by segment and position by position. *)
Theorem snapshot_restores (db : DB) (w : World) (L : logs_of) :
  no_faults w → Forall (archivable (db_dataDir db) L) (copies_of db w) →
  ∃ entries w', SnapshotTo db (MkSink [] None, w) = (Ok tt, (MkSink entries None, w')) ∧
    Forall (archivable (db_dataDir db) L) (copies_of db w') ∧ kept_apart (sorted_pairs (db_collections db)) (w_files w) (w_files w') ∧
    ∀ d' cfg h, fresh_host d' h → Forall (λ f, tar_name f.1 = true) entries →
      ∃ h2 db' h3, extractSnapshot (tar_gz entries) None d' h = (Ok tt, h2) ∧ OpenDB d' cfg h2 = (Ok db', h3) ∧
        restores (copies_of db w') L d' db' (h_world h3).
Proof.
  intros Hw Ha. set (l := sorted_pairs (db_collections db)) in *. unfold copies_of in *. fold l in Ha |- *. rewrite Forall_fmap in Ha.
  assert (NoDup l.*1) as Hnd by apply sorted_pairs_nodup.
  assert (Forall (placed (db_dataDir db)) l) as Hp by (eapply Forall_impl; [exact Ha|intros [n c] Hx; apply Hx]).
  rewrite Forall_forall in Ha. destruct (SnapshotTo_spec db w Hw) as (entries & fs & copies & S1 & S2 & S3 & S4 & S5).
  { intros name c Hc%elem_of_sorted_pairs. rewrite Forall_forall in Hp. apply (Hp _ Hc). }
  fold l in S2, S3, S4. exists entries, (set_files fs w). split_and!; [done| |done|].
  - apply Forall_fmap, Forall_forall. intros [n c] Hin. by apply (archivable_frame _ l); [..|apply (Ha _ Hin)].
  - intros d' cfg h Hf Ht. eapply (copies_restore db w w L copies entries); try done. unfold copies_of. fold l. rewrite Forall_fmap.
    apply Forall_forall. intros [n c] Hin. by apply Ha.
Qed.
End restoring.

(** ** Witnesses *)

(** An archive format: the bits of a code for the files. *)
Fixpoint pos_bits (p : positive) : bytes :=
  match p with xH => [] | xO p => "0"%char :: pos_bits p | xI p => "1"%char :: pos_bits p end.
Fixpoint bits_pos (b : bytes) : positive :=
  match b with [] => xH | c :: b => if bool_decide (c = "1"%char) then xI (bits_pos b) else xO (bits_pos b) end.

Lemma bits_pos_bits p : bits_pos (pos_bits p) = p.
Proof. induction p; simpl; congruence. Qed.

Definition plain_archive : Archive := {|
  tar_gz l := pos_bits (encode ((λ f : archive_file, (f.1, of_bytes f.2)) <$> l));
  untar b ended := match decode (bits_pos b) : option (list (string * string)) with
    | Some l => ((λ f, MkItem true f.1 (to_bytes f.2) true) <$> l, ended)
    | None => ([], Some ErrSyntax)
    end
|}.

Lemma plain_archive_laws : @ArchiveLaws plain_archive.
Proof.
  split. intros l _. cbn. rewrite bits_pos_bits, decode_encode, <-list_fmap_compose. f_equal. apply list_fmap_ext.
  intros i [n b] _. cbn. by rewrite to_of_bytes.
Qed.

Lemma tar_names l : forallb (λ f : archive_file, tar_name f.1) l = true → Forall (λ f, tar_name f.1 = true) l.
Proof. intros H. rewrite forallb_forall in H. apply Forall_forall. intros f Hf. by apply H, list_elem_of_In. Qed.

(** A database of one collection. *)
Definition demo_db : DB := MkDB "d" defaultConfig {["u" := demo_coll]} None 0 RoleLeader 0 false false.
Definition demo_logs : logs_of := λ _, ([], demo_log).

Lemma demo_archivable : Forall (archivable "d" demo_logs) (copies_of demo_db demo_world).
Proof.
  assert (copies_of demo_db demo_world = [("u", (demo_coll, demo_world))]) as -> by reflexivity. apply Forall_singleton.
  split; cbn [fst snd].
  - reflexivity.
  - split; [exact plain_name_u|]. split; reflexivity.
  - exact demo_inv.
  - vm_compute. reflexivity.
  - vm_compute. exact I.
Qed.

Lemma no_host_fresh d : fresh_host d no_host.
Proof. split; [reflexivity|reflexivity|]. intros p _. apply lookup_empty. Qed.

Lemma snapshot_restores_witness :
  ∃ entries w', @SnapshotTo length_digest _ _ demo_db (MkSink [] None, demo_world) = (Ok tt, (MkSink entries None, w')) ∧
    ∃ h2 db' h3, @extractSnapshot plain_archive (@tar_gz plain_archive entries) None "r" no_host = (Ok tt, h2) ∧
      @OpenDB length_digest "r" ring_of_four h2 = (Ok db', h3) ∧ restores (copies_of demo_db w') demo_logs "r" db' (h_world h3).
Proof.
  destruct (@snapshot_restores length_digest plain_archive plain_archive_laws demo_db demo_world demo_logs eq_refl demo_archivable)
    as (entries & w' & E & _ & _ & H). exists entries, w'. split; [exact E|].
  apply (H "r" ring_of_four no_host (no_host_fresh "r")).
  assert (forallb (λ f, tar_name f.1) (sk_sent (@SnapshotTo length_digest _ _ demo_db (MkSink [] None, demo_world)).2.1) = true) as Ht
    by (vm_compute; reflexivity).
  rewrite E in Ht. exact (tar_names _ Ht).
Defined.
