(* ===== verification/BootstrapSpec.v ===== *)
(** * Starting a follower from a snapshot

    A leader keeps serving writes while its collections are archived one after the
    other, so that the copies of two collections may be of different moments.  The
    position a follower resumes from was read before the first copy.
    [bootstrap_converges] states that the follower that starts from the archive
    and follows the feed from that position ends with the leader's records. *)

From S2P Require Import Prelude GoFloat GoTime GoJson Value Query Store Disk Segment Index SecIndex Meta Collection Steps CollectionSpec TopK Scan ScanSpec IndexInv Open OpenSpec Compactor CompactorSpec Broker Replica Database DatabaseSpec Cluster Snapshot SnapshotSpec.

(** ** The leader during a snapshot *)

(** A collection fit to be copied. *)
Record tidy (c : Collection) (w : World) : Prop := {
  td_nofault : no_faults w;
  td_glob : glob (c_dir c) "seg_" ".ndjson" (w_files w) = paths c;
  td_meta : ∀ logs log, coll_inv c w logs log → meta_covers (c_dir c) w logs;
  td_room : (max_segment (c_dir c) (all_segments c) < 2 ^ 63)%N
}.

Lemma no_sealed_covered dir w : meta_covers dir w [].
Proof. unfold meta_covers. destruct (loadMeta _ w) as [[m|e] ?]; [|done]. intros o e Hin. by apply not_elem_of_nil in Hin. Qed.

(** One collection is archived. *)
Definition archived {sha : Sha256} (c : Collection) (w : World) (es : list archive_file) (w' : World) (es' : list archive_file) : Prop :=
  writeSnapshot c (MkSink es None, w) = (Ok tt, (MkSink es' None, w')).

(** The registry is locked, so no collection is created; between two copies the
    leader takes steps. *)
Inductive snapshotting {sha : Sha256} (step : DB * Host → DB * Host → Prop) : list string → DB * Host → list archive_file → DB * Host → list archive_file → Prop :=
  | sn_done s es : snapshotting step [] s es s es
  | sn_write names s s1 s' es es' :
      step s s1 → ListCollections s1.1 = ListCollections s.1 →
      snapshotting step names s1 es s' es' → snapshotting step names s es s' es'
  | sn_copy name names db h c w es es1 s' es' :
      db_collections db !! name = Some c → c_name c = name → tidy c (h_world h) →
      archived c (h_world h) es w es1 →
      snapshotting step names (db, MkHost w (h_dirs h)) es1 s' es' → snapshotting step (name :: names) (db, h) es s' es'.

(** Copying a collection does not disturb the leader. *)
Lemma serves_sidx db h T seen name c fs :
  serves db h T seen → db_collections db !! name = Some c → kept_apart [(name, c)] (w_files (h_world h)) fs →
  serves db (MkHost (set_files fs (h_world h)) (h_dirs h)) T seen.
Proof.
  intros [S1 S2 S3 S4] Hc Hk. destruct (S1 name c Hc) as [[Hn _] [Hd _]].
  assert (∀ p, ¬ sidx_named (c_dir c) p → fs !! p = w_files (h_world h) !! p) as Hf.
  { intros p Hp. apply Hk. by intros nc ->%list_elem_of_singleton. }
  split; try done. intros other Ho. specialize (S4 other Ho). cbn [h_world].
  assert (∀ p, in_dir (join (db_dataDir db) other) p → other ≠ name → fs !! p = w_files (h_world h) !! p) as Hother.
  { intros p Hp Hne. apply Hf. intros Hs%sidx_named_in_dir. apply Hne. rewrite Hd in Hs. eapply (in_dir_unique (db_dataDir db)); [apply Ho|done..]. }
  destruct (db_collections db !! other) as [c'|] eqn:Hc'.
  - destruct S4 as (Hfe & logs & log & [L1 L2 L3 L4] & Ht). split; [done|]. exists logs, log. split; [|done]. split; try done.
    apply (coll_inv_frame c' (h_world h)); [done|]. intros n. cbn [w_files set_files]. destruct (S1 other c' Hc') as [_ [Hd' _]].
    destruct (decide (other = name)) as [->|Hne]; [|apply Hother; [|done]; rewrite Hd'; apply in_dir_segment].
    apply Hf. rewrite Hd', <-Hd. change (segmentPath (c_dir c) n) with (join (c_dir c) (segment_file n)). by intros Hs%sidx_named_prefix.
  - destruct S4 as (H1 & H2 & H3). split_and!; [done|done|]. intros p Hp. cbn [w_files set_files].
    rewrite Hother; [by apply H3|done|]. intros ->. congruence.
Qed.

(** The logs of one more collection. *)
Definition with_log (name : string) (logs : list (list (Z * Entry))) (log : list (Z * Entry)) (L : logs_of) : logs_of :=
  λ n, if decide (n = name) then (logs, log) else L n.

(** A copy of a moment of a run, whose feed is [H]. *)
Record snapped (T : string → table) (H : list (string * Entry)) (L : logs_of) (x : string * copy) : Prop := {
  sd_archivable : ∃ d, archivable d L x;
  sd_room : (max_segment (c_dir x.2.1) (all_segments x.2.1) < 2 ^ 63)%N;
  sd_moment : ∃ h1 h2, entries_of x.1 H = h1 ++ h2 ∧ coll_table (L x.1).1 (L x.1).2 = foldl commit (T x.1) h1
}.

Lemma snapped_other T H L name logs log x : x.1 ≠ name → snapped T H L x → snapped T H (with_log name logs log L) x.
Proof.
  intros Hne [[d [A1 A2 A3 A4 A5]] H2 H3]. assert (with_log name logs log L x.1 = L x.1) as E by (unfold with_log; by rewrite decide_False).
  split; [exists d; split; rewrite ?E; done|done|by rewrite E].
Qed.

Lemma copy_snapped {sha : Sha256} db h T seen H L name c w es es1 :
  serves db h T seen → db_collections db !! name = Some c → c_name c = name → tidy c (h_world h) → archived c (h_world h) es w es1 →
  ∃ entries fs logs log, es1 = es ++ entries ∧ w = set_files fs (h_world h) ∧ kept_apart [(name, c)] (w_files (h_world h)) fs ∧
    archives [(name, (c, w))] entries ∧ snapped T H (with_log name logs log L) (name, (c, w)).
Proof.
  intros Hs Hc Hn [Hw Hg Hm Hr] Hrun. destruct (sv_housed _ _ _ _ Hs name c Hc) as [Hp [Hd _]].
  pose proof (sv_colls _ _ _ _ Hs name Hp) as Hcoll. rewrite Hc in Hcoll. destruct Hcoll as (_ & logs & log & Hl & Ht).
  destruct (writeSnapshot_spec c (h_world h) es Hw) as (entries & fs & E & Hk & Ha). unfold archived in Hrun. rewrite Hrun in E. injection E as -> ->.
  assert (kept_apart [(name, c)] (w_files (h_world h)) fs) as Hka.
  { intros p Hnp. apply Hk. apply (Hnp (name, c)). by apply list_elem_of_singleton. }
  exists entries, fs, logs, log. rewrite Hn in Ha. split_and!; [done..|].
  assert (with_log name logs log L name = (logs, log)) as Hwl by (unfold with_log; by rewrite decide_True).
  split; cbn [fst snd]; [|done|].
  - exists (db_dataDir db). assert (placed (db_dataDir db) (name, c)) as Hpl by done. apply (archivable_frame _ [(name, c)]).
    + by apply Forall_singleton.
    + apply NoDup_singleton.
    + by apply list_elem_of_singleton.
    + done.
    + split; cbn [fst snd]; rewrite ?Hwl; cbn [fst snd]; [done|done|apply Hl|done|]. eapply Hm, Hl.
  - exists [], (entries_of name H). rewrite Hwl. by split.
Qed.

Lemma snapshotting_spec {sha : Sha256} names s es s' es' T seen :
  snapshotting lead_step names s es s' es' → serves s.1 s.2 T seen → NoDup names →
  ∃ H copies L entries, feeds T seen s s' H ∧ es' = es ++ entries ∧ copies.*1 = names ∧ archives copies entries ∧ Forall (snapped T H L) copies.
Proof.
  intros Hrun. revert T seen. induction Hrun as [s es|names s s1 s' es es' Hstep Hdom Hrun IH|name names db h c w es es1 s' es' Hc Hn Ht Hcopy Hrun IH];
    intros T seen Hs Hnd.
  - exists [], [], (λ _, ([], [])), []. rewrite app_nil_r. split_and!; [|done|done| |constructor].
    + split; [|by destruct (db_broker s.1)|cbn; lia|done|constructor]. eapply serves_ext; [|exact Hs]. intros name _. unfold after, ids_after. cbn. split; [done|set_solver].
    + intros n b. split; [by intros ?%not_elem_of_nil|by intros (? & ? & ? & ? & ?%not_elem_of_nil & _)].
  - destruct (lead_step_feeds T seen s s1 Hs Hstep) as [H1 F1].
    destruct (IH _ _ (fe_serves _ _ _ _ _ F1) Hnd) as (H2 & copies & L & entries & F2 & E & Ec & Ha & Hsn).
    exists (H1 ++ H2), copies, L, entries. split_and!; [by eapply feeds_app|done..|]. eapply Forall_impl; [exact Hsn|].
    intros x [X1 X2 (h1 & h2 & X3 & X4)]. split; [done|done|]. exists (entries_of x.1 H1 ++ h1), h2. rewrite entries_of_app, X3, <-app_assoc.
    split; [done|]. by rewrite X4, foldl_app.
  - cbn [fst snd] in Hs. apply NoDup_cons in Hnd as [Hni Hnd].
    destruct (copy_snapped db h T seen [] (λ _, ([], [])) name c w es es1 Hs Hc Hn Ht Hcopy) as (en1 & fs & _ & _ & -> & Hw & Hk & _ & _).
    destruct (IH T seen) as (H & copies & L & entries & F & E & Ec & Ha & Hsn); [rewrite Hw; by eapply serves_sidx|done|].
    destruct (copy_snapped db h T seen H L name c w es (es ++ en1) Hs Hc Hn Ht Hcopy) as (en1' & fs' & logs & log & E1 & _ & _ & Ha1 & Hsn1).
    apply app_inv_head in E1 as <-. exists H, ((name, (c, w)) :: copies), (with_log name logs log L), (en1 ++ entries). split_and!.
    + destruct F as [F1 F2 F3 F4 F5]. by split.
    + by rewrite E, <-app_assoc.
    + cbn. by rewrite Ec.
    + by apply (archives_app [_]).
    + constructor; [done|]. rewrite Forall_forall in Hsn |- *. intros x Hx. apply snapped_other; [|by apply Hsn]. intros <-. apply Hni.
      rewrite <-Ec. by apply list_elem_of_fmap_2.
Qed.

(** ** The follower *)
Section bootstrapping.
Context {sha : Sha256} {arch : Archive} {arch_laws : ArchiveLaws} {pb : Protobuf} {pb_laws : ProtobufLaws}.

(** The records of the copies; none of a collection that was not copied. *)
Definition snapshot_tables (copies : list (string * copy)) (L : logs_of) (name : string) : table :=
  if decide (name ∈ copies.*1) then coll_table (L name).1 (L name).2 else ∅.

Lemma restores_holds n T H copies L d db w name :
  Forall (snapped T H L) copies → (N.of_nat n < 2 ^ 63)%N → restores copies L d db w → db_dataDir db = d → plain_name name →
  holds n db w name (snapshot_tables copies L name).
Proof.
  intros Hsn Hb [R1 R2] Hd [Hs _]. unfold holds, snapshot_tables. destruct (decide (name ∈ copies.*1)) as [Hin|Hno].
  - apply list_elem_of_fmap in Hin as ([n' [c w0]] & -> & Hin). cbn [fst]. destruct (R1 _ _ _ Hin) as (c' & -> & [F1 F2 F3 F4 F5]).
    rewrite Forall_forall in Hsn. pose proof (sd_room _ _ _ _ (Hsn _ Hin)) as Hr. cbn [fst snd] in Hr.
    split_and!; [unfold key_indexable; by rewrite F3|unfold room_for; rewrite F2, F5; lia|]. by exists (L n').1, (L n').2.
  - destruct (R2 name Hno) as [-> He]. split; [done|]. rewrite Hd. by apply He.
Qed.

Lemma restores_housed T H copies L d db w :
  Forall (snapped T H L) copies → restores copies L d db w → db_dataDir db = d → housed db.
Proof.
  intros Hsn [R1 R2] Hd name c' Hc'. destruct (decide (name ∈ copies.*1)) as [Hin|Hno]; [|destruct (R2 name Hno); congruence].
  apply list_elem_of_fmap in Hin as ([n [c w0]] & -> & Hin). destruct (R1 _ _ _ Hin) as (c2 & E & [F1 F2 _ _ _]). cbn [fst] in *.
  assert (c2 = c') as -> by congruence. rewrite Forall_forall in Hsn. destruct (sd_archivable _ _ _ _ (Hsn _ Hin)) as [d0 Ha]. split; [apply Ha|].
  rewrite Hd, <-F2. by eapply inv_at_home.
Qed.

(** Recording the position leaves the collections alone. *)
Lemma SetAppliedLSN_keeps db h lsn : no_faults (h_world h) → db_appliedLSN db = 0%N →
  ∃ db' h', SetAppliedLSN lsn (db, h) = (Ok tt, (db', h')) ∧ no_faults (h_world h') ∧ db_appliedLSN db' = lsn ∧
    db_collections db' = db_collections db ∧ ∀ name, spares name (db, h) (db', h').
Proof.
  intros Hw H0. destruct (N.eq_dec lsn 0%N) as [->|Hne].
  - exists db, h. split; [|by split_and!]. unfold SetAppliedLSN. erewrite bind_ok by reflexivity. cbn [fst]. by rewrite H0.
  - destruct (SetAppliedLSN_spec db h lsn Hw) as (w' & E & Hw' & Hf); [lia|]. exists (set_appliedLSN lsn db), (MkHost w' (h_dirs h)).
    split; [done|]. destruct db as [dd cfg cs br al ro ll op ap]. split_and!; [done..|]. intros name. split; [done|done|]. cbn. apply Hf.
Qed.

(** A follower started on a fresh directory. *)
Lemma start_follower_spec n T H copies L entries d cfg h lsn :
  Forall (snapped T H L) copies → NoDup copies.*1 → archives copies entries → Forall (λ f, tar_name f.1 = true) entries →
  fresh_host d h → (N.of_nat n < 2 ^ 63)%N →
  ∃ db h', start_follower (MkLeaderView (Ok lsn) (Ok (tar_gz entries, None))) d cfg h = (Ok db, h') ∧ no_faults (h_world h') ∧ housed db ∧
    db_appliedLSN db = lsn ∧ ∀ name, plain_name name → holds n db (h_world h') name (snapshot_tables copies L name).
Proof.
  intros Hsn Hnd Ha Ht Hf Hn. destruct (reopen_spec copies L entries d cfg h) as (h2 & db1 & h3 & X1 & X2 & X3 & X4 & X5); [|done..|].
  { eapply Forall_impl; [exact Hsn|]. intros x Hx. apply Hx. }
  injection X4 as Hd Hap _ _. destruct (SetAppliedLSN_keeps db1 h3 lsn X3 Hap) as (db & h' & Y1 & Y2 & Y3 & Y4 & Y5).
  pose proof (restores_housed _ _ _ _ _ _ _ Hsn X5 Hd) as Hh. exists db, h'. split; [|split_and!].
  - assert (dirHasNoCollections h = (Ok true, h)) as E1.
    { unfold dirHasNoCollections. erewrite bind_ok by (apply on_world_ok, syscall_nofault, Hf). destruct h as [w ds]. cbn [h_dirs].
      by rewrite bool_decide_true by apply (fh_dirs _ _ Hf). }
    assert (Bootstrap (MkLeaderView (Ok lsn) (Ok (tar_gz entries, None))) d h = (Ok lsn, h2)) as E2.
    { unfold Bootstrap. do 2 erewrite bind_ok by reflexivity. by erewrite bind_ok by exact X1. }
    unfold start_follower. erewrite bind_ok by exact E1. cbv beta iota. erewrite bind_ok by exact E2.
    cbn [mret SE_ret]. rewrite X2, Y1. done.
  - done.
  - intros name c Hc. rewrite Y4 in Hc. assert (db_dataDir db = db_dataDir db1) as -> by apply (Y5 name). by apply Hh.
  - done.
  - intros name Hp. apply (holds_spares n db1 h3); [done|apply Y5|]. by eapply restores_holds.
Qed.

(** Every copy is of a moment of the leader's run. *)
Lemma snapshot_moment s0 s1 s2 s3 T0 seen0 H1 H2 H3 copies L name :
  feeds T0 seen0 s0 s1 H1 → feeds (after T0 H1) (ids_after seen0 H1) s1 s2 H2 → feeds (after T0 (H1 ++ H2)) (ids_after seen0 (H1 ++ H2)) s2 s3 H3 →
  copies.*1 = (sorted_pairs (db_collections s1.1)).*1 → Forall (snapped (after T0 H1) H2 L) copies → plain_name name →
  ∃ h1 h2, entries_of name ((H1 ++ H2) ++ H3) = h1 ++ h2 ∧ same_records (snapshot_tables copies L name) (foldl commit (T0 name) h1).
Proof.
  intros F1 F2 F3 Ec Hsn Hn. rewrite !entries_of_app. unfold snapshot_tables. destruct (decide (name ∈ copies.*1)) as [Hin|Hno].
  - apply list_elem_of_fmap in Hin as (x & -> & Hin). rewrite Forall_forall in Hsn. destruct (sd_moment _ _ _ _ (Hsn _ Hin)) as (h1 & h2 & E & Ht).
    exists (entries_of x.1 H1 ++ h1), (h2 ++ entries_of x.1 H3). rewrite E, <-!app_assoc. split; [done|]. by rewrite Ht, foldl_app.
  - exists (entries_of name H1), (entries_of name H2 ++ entries_of name H3). rewrite <-app_assoc. split; [done|].
    pose proof (sv_colls _ _ _ _ (fe_serves _ _ _ _ _ F1) name Hn) as Hs. destruct (db_collections s1.1 !! name) as [c|] eqn:Hc.
    + exfalso. apply Hno. rewrite Ec. apply list_elem_of_fmap. exists (name, c). split; [done|]. by apply elem_of_sorted_pairs.
    + destruct Hs as [Hs _]. unfold after in Hs. by rewrite Hs.
Qed.

(** [C3] Bootstrapping converges: a follower reads the leader's position, then
    takes a snapshot while the leader keeps writing, each collection being copied
    at a moment of its own, and the leader goes on after it.  Started on a fresh
    data directory with any configuration, the follower unpacks the archive, opens
    it and records the position; subscribing from there it is refused only if more
    entries were published since than the ring holds.  Otherwise what it is sent
    is applied without error, although its collections already hold some of those
    writes, and it ends at the leader's position with the leader's records in
    every collection. *)
Theorem bootstrap_converges (s0 s1 s2 s3 : DB * Host) (T0 T3 : string → table) (seen0 seen3 : string → gset N)
    (b : replicationBroker) (base : N) (h0 : list (string * Entry)) (r : gmap N (N * list ReplicationEntry))
    (entries : list archive_file) (d : string) (cfg : DBConfig) (fh : Host) (now : Time) (fid : string) :
  serves s0.1 s0.2 T0 seen0 → serves s3.1 s3.2 T3 seen3 → db_broker s0.1 = Some b → feed_inv base (MkFeed b h0 r) →
  rtc lead_step s0 s1 → snapshotting lead_step (sorted_pairs (db_collections s1.1)).*1 s1 [] s2 entries → rtc lead_step s2 s3 →
  (CurrentLSN s3.1 < 2 ^ 63)%N → Forall (λ f, tar_name f.1 = true) entries → fresh_host d fh →
  ∃ fdb fh', start_follower (MkLeaderView (Ok (CurrentLSN s0.1)) (Ok (tar_gz entries, None))) d cfg fh = (Ok fdb, fh') ∧
    match (SubscribeReplication now (db_appliedLSN fdb) fid s3.1).1 with
    | Some (_, backlog) => ∃ rs fdb' fh'', mapR replEntryToProto backlog = Ok rs ∧ follow rs (fdb, fh') = (Ok tt, (fdb', fh'')) ∧
        db_appliedLSN fdb' = CurrentLSN s3.1 ∧
        ∀ name, plain_name name → ∃ t, holds 0 fdb' (h_world fh'') name t ∧ same_records t (T3 name)
    | None => (N.of_nat (b_cap b) < CurrentLSN s3.1 - CurrentLSN s0.1)%N
    end.
Proof.
  intros S0 S3 Hb Hf Run1 Snap Run2 Hlsn Ht Hfresh. destruct (lead_run_feeds T0 seen0 s0 s1 S0 Run1) as [H1 F1].
  destruct (snapshotting_spec _ _ _ _ _ _ _ Snap (fe_serves _ _ _ _ _ F1) (sorted_pairs_nodup _)) as (H2 & copies & L & es & F2 & -> & Ec & Ha & Hsn).
  pose proof (feeds_app _ _ _ _ _ _ _ F1 F2) as F12. destruct (lead_run_feeds _ _ s2 s3 (fe_serves _ _ _ _ _ F12) Run2) as [H3 F3].
  pose proof (feeds_app _ _ _ _ _ _ _ F12 F3) as F. set (H := (H1 ++ H2) ++ H3) in *. pose proof (fe_count _ _ _ _ _ F) as Hcount.
  assert (CurrentLSN s0.1 = b_lsn b) as Hl by (unfold CurrentLSN; by rewrite Hb).
  destruct (start_follower_spec (length H) _ _ copies L es d cfg fh (CurrentLSN s0.1) Hsn) as (fdb & fh' & B1 & B2 & B3 & B4 & B5);
    [rewrite Ec; apply sorted_pairs_nodup|done|done|done|lia|].
  exists fdb, fh'. split; [done|].
  pose proof (feeds_converge s0 s3 T0 seen0 H b base h0 r fdb fh' (snapshot_tables copies L) now fid F Hb Hf B2 B3 ltac:(congruence)) as Hc.
  assert (∀ name, plain_name name → holds (length H) fdb (h_world fh') name (snapshot_tables copies L name) ∧
    ∃ h1 h2, entries_of name H = h1 ++ h2 ∧ same_records (snapshot_tables copies L name) (foldl commit (T0 name) h1)) as HF.
  { intros name Hn. split; [by apply B5|]. by eapply snapshot_moment. }
  specialize (Hc HF). destruct (SubscribeReplication now (db_appliedLSN fdb) fid s3.1).1 as [[sub backlog]|]; [|lia].
  destruct Hc as (rs & fdb' & fh'' & R1 & R2 & R3 & R4). exists rs, fdb', fh''. split_and!; [done..|]. intros name Hn.
  rewrite (serves_unique _ _ _ _ _ _ name S3 (fe_serves _ _ _ _ _ F) Hn). by apply R4.
Qed.
End bootstrapping.

(** ** A bootstrap that breaks off *)

(** The archive of two collections, of which only the first arrives. *)
Definition two_archive : list archive_file := sk_sent (@SnapshotTo length_digest _ _ two_colls (MkSink [] None, h_world two_host)).2.1.
Definition cut_leader : LeaderView := MkLeaderView (Ok 0%N) (Ok (@tar_gz plain_archive (take 1 two_archive), Some ErrUnavailable)).
Definition no_leader : LeaderView := MkLeaderView (Err ErrUnavailable) (Err ErrUnavailable).
Definition first_start : result DB * Host := @start_follower length_digest plain_archive cut_leader "r" follower_cfg no_host.
Definition second_start : result DB * Host := @start_follower length_digest plain_archive no_leader "r" follower_cfg first_start.2.

(** A follower whose bootstrap breaks off reports the error, but leaves what it
    unpacked behind.  Started again, it takes the directory for its own data: it
    opens with the collections that arrived, asks the leader for nothing, and
    would follow from position 0 on top of them. *)
Theorem broken_bootstrap_resumed :
  first_start.1 = Err ErrUnavailable ∧
  match second_start.1 with
  | Ok db => ListCollections db = ["u"] ∧ db_appliedLSN db = 0%N ∧ ListCollections two_colls = ["u"; "v"]
  | Err _ => False
  end.
Proof. vm_compute. auto. Qed.

(** ** Witness *)

(** A leader that creates a collection, inserts a record after the snapshot has
    begun, and is then copied; the follower starts from nothing. *)
Definition copied_u : result unit * (sink archive_file * World) :=
  match db_collections lead_2.1 !! "u" with
  | Some c => @writeSnapshot length_digest _ _ c (MkSink [] None, h_world lead_2.2)
  | None => (Ok tt, (MkSink [] None, h_world lead_2.2))
  end.
Definition lead_3 : DB * Host := (lead_2.1, MkHost copied_u.2.2 (h_dirs lead_2.2)).
Definition archive_u : list archive_file := sk_sent copied_u.2.1.

Lemma lead_2_tidy c : db_collections lead_2.1 !! "u" = Some c → c_name c = "u" ∧ tidy c (h_world lead_2.2).
Proof.
  intros Hc. assert (c_name c = "u" ∧ c_sealed c = [] ∧ no_faults (h_world lead_2.2) ∧
    glob (c_dir c) "seg_" ".ndjson" (w_files (h_world lead_2.2)) = paths c ∧ (max_segment (c_dir c) (all_segments c) <? 2 ^ 63)%N = true)
    as (H1 & H2 & H3 & H4 & H5).
  { vm_compute in Hc. injection Hc as <-. vm_compute. auto 10. }
  split; [exact H1|]. split; [exact H3|exact H4| |by apply N.ltb_lt]. intros logs log Hinv. pose proof (inv_sealed _ _ _ _ Hinv) as Hs. rewrite H2 in Hs.
  apply Forall2_nil_inv_l in Hs as ->. apply no_sealed_covered.
Qed.

Lemma lead_1_3 : @snapshotting length_digest (@lead_step length_digest) (sorted_pairs (db_collections lead_1.1)).*1 lead_1 [] lead_3 archive_u.
Proof.
  assert ((sorted_pairs (db_collections lead_1.1)).*1 = ["u"]) as -> by (vm_compute; reflexivity).
  apply sn_write with lead_2; [exact lead_1_2|vm_compute; reflexivity|].
  destruct (db_collections lead_2.1 !! "u") as [c|] eqn:Hc; [|vm_compute in Hc; discriminate]. destruct (lead_2_tidy c Hc) as [Hn Ht].
  assert (copied_u = @writeSnapshot length_digest _ _ c (MkSink [] None, h_world lead_2.2)) as E by (unfold copied_u; by rewrite Hc).
  assert (copied_u.1 = Ok tt ∧ sk_room copied_u.2.1 = None) as [E1 E2] by (vm_compute; split; reflexivity).
  unfold lead_3, archive_u. destruct lead_2 as [db h]. cbn [fst snd] in *. destruct copied_u as [r [[sent room] w]]. cbn [fst snd sk_sent sk_room] in *.
  subst r room. apply (sn_copy _ "u" [] db h c w [] sent); [done|done|done|done|constructor].
Qed.

Lemma bootstrap_converges_witness :
  ∃ T3 fdb fh', @start_follower length_digest plain_archive
      (MkLeaderView (Ok 0%N) (Ok (@tar_gz plain_archive archive_u, None))) "r" follower_cfg no_host = (Ok fdb, fh') ∧
    match (SubscribeReplication 0 (db_appliedLSN fdb) "f" lead_3.1).1 with
    | Some (_, backlog) => ∃ rs fdb' fh'', mapR (@replEntryToProto plain_wire) backlog = Ok rs ∧
        @follow length_digest plain_wire rs (fdb, fh') = (Ok tt, (fdb', fh'')) ∧ db_appliedLSN fdb' = CurrentLSN lead_3.1 ∧
        ∀ name, plain_name name → ∃ t, holds 0 fdb' (h_world fh'') name t ∧ same_records t (T3 name)
    | None => (N.of_nat (b_cap broker_0) < CurrentLSN lead_3.1 - 0)%N
    end.
Proof.
  destruct (@lead_run_feeds length_digest _ _ _ _ lead_0_serves (rtc_once _ _ lead_0_1)) as [H1 F1].
  destruct (snapshotting_spec _ _ _ _ _ _ _ lead_1_3 (fe_serves _ _ _ _ _ F1) (sorted_pairs_nodup _)) as (H2 & _ & _ & _ & F2 & _).
  pose proof (fe_serves _ _ _ _ _ F2) as S3. eexists.
  assert (CurrentLSN lead_0.1 = 0%N) as E0 by (vm_compute; reflexivity). rewrite <-E0.
  eapply (@bootstrap_converges length_digest plain_archive plain_archive_laws plain_wire plain_wire_laws lead_0 lead_1 lead_3 lead_3 _ _ _ _
    broker_0 0 [] ∅ archive_u "r" follower_cfg no_host 0 "f" lead_0_serves S3).
  - rewrite lead_0_eq. reflexivity.
  - apply (feed_start_inv 4 0 0). reflexivity.
  - apply rtc_once, lead_0_1.
  - exact lead_1_3.
  - apply rtc_refl.
  - vm_compute. reflexivity.
  - assert (forallb (λ f, tar_name f.1) archive_u = true) as Ht by (vm_compute; reflexivity).
    exact (tar_names _ Ht).
  - apply no_host_fresh.
Defined.
