(* ===== verification/RegistrySpec.v ===== *)
(** * The registry is well formed

    A database holds its collections under names that are names of sub-directories
    of the data directory; every collection works in the directory of its name,
    and that directory exists.  [registry_typed] states that opening establishes
    this and that every operation of engine/db.go and engine/replication.go keeps
    it, whichever system calls fail. *)

From S2P Require Import Prelude GoFloat GoTime GoJson Value Query Store Disk Segment Index SecIndex Meta Collection Steps CollectionSpec Scan Open OpenSpec Compactor CompactorSpec LoadJsonl CompactorFiles Broker Replica Database DatabaseSpec Cluster Snapshot SnapshotSpec.

(** ** Opening a collection *)
Section opening_home.
Context {sha : Sha256}.

Lemma list_dir_in dir prefix suffix w ps w' : list_dir dir prefix suffix w = (Ok ps, w') → Forall (in_dir dir) ps.
Proof.
  unfold list_dir. intros [= <- _]. apply Forall_forall. intros p [Hm _]%elem_of_glob. by eapply glob_in_dir.
Qed.

Lemma stat_sealed_paths ps w segs w' : stat_sealed ps w = (Ok segs, w') → s_path <$> segs = ps.
Proof.
  revert w segs w'. induction ps as [|p ps IH]; intros w segs w' E; cbn [stat_sealed] in E; [by injection E as <- _|].
  apply bind_inv_ok in E as ([size|] & w1 & _ & E); [|done]. apply bind_inv_ok in E as (rest & w2 & E & E'). injection E' as <- _.
  cbn. by rewrite (IH w1 rest w2 E).
Qed.

Lemma load_segments_home c w c' w' : load_segments (c, w) = (Ok tt, (c', w')) → at_home (c_dir c) c'.
Proof.
  unfold load_segments. intros H. apply bind_inv_ok in H as (c0 & s0 & E0 & H). injection E0 as <- <-.
  apply bind_inv_ok in H as (ps & [c1 w1] & E1 & H). unfold io in E1. destruct (list_dir _ _ _ w) as [r wr] eqn:El. injection E1 as -> <- <-.
  apply list_dir_in in El. set (ap := match last ps with Some p => p | None => segmentPath (c_dir c) 1 end) in *.
  assert (in_dir (c_dir c) ap) as Hap.
  { subst ap. destruct (last ps) as [p|] eqn:Hl; [|apply in_dir_segment]. rewrite Forall_forall in El. apply El. by apply last_Some_elem_of. }
  apply bind_inv_ok in H as (sealed & [c2 w2] & E2 & H). unfold io in E2. destruct (stat_sealed _ _) as [r2 wr2] eqn:Est. injection E2 as -> <- <-.
  apply stat_sealed_paths in Est.
  apply bind_inv_ok in H as ([] & [c3 w3] & E3 & H). injection E3 as <- <-.
  apply bind_inv_ok in H as (a & [c4 w4] & E4 & H). unfold io in E4. destruct (openActiveSegment ap _) as [r4 wr4] eqn:Eo. injection E4 as -> <- <-.
  injection H as <- <-. apply openActiveSegment_path in Eo. 
  assert (Forall (λ s, in_dir (c_dir c) (s_path s)) sealed) as Hs.
  { assert (Forall (in_dir (c_dir c)) (s_path <$> sealed)) as H; [|by rewrite Forall_fmap in H]. rewrite Est. apply Forall_forall. intros p Hp. rewrite Forall_forall in El. apply El. clear -Hp.
    destruct ps as [|x ps] using rev_ind; [done|]. rewrite removelast_last in Hp. apply elem_of_app. by left. }
  destruct c. split; [done|]. cbn in *. constructor; [by rewrite Eo|done].
Qed.

Lemma OpenCollection_home name dataDir cfg w c w' : OpenCollection name dataDir cfg w = (Ok c, w') → at_home (join dataDir name) c.
Proof.
  unfold OpenCollection. set (c0 := fresh_collection name (join dataDir name) cfg).
  destruct ((io syscall;; load) (c0, w)) as [[[]|e] [c1 w1]] eqn:E; [|done]. intros [= <- <-].
  apply bind_inv_ok in E as ([] & [c2 w2] & E2 & E). unfold io in E2. destruct (syscall w) as [r2 wr2]. injection E2 as -> <- <-.
  unfold load in E. apply bind_inv_ok in E as (c3 & s3 & E3 & E). injection E3 as <- <-.
  apply bind_inv_ok in E as (rc & [c4 w4] & E4 & E). unfold io in E4. destruct (recoverCompaction _ _) as [r4 wr4]. injection E4 as -> <- <-.
  apply bind_inv_ok in E as ([] & [c5 w5] & E5 & E). apply load_segments_home in E5. change (c_dir c0) with (join dataDir name) in *.
  destruct E5 as [Hd Ha]. match type of E with ?m _ = _ => assert (settles (join dataDir name) m) as Hs end.
  { apply settles_bind; [apply settles_load_index|]. intros rb. apply settles_list. intros qs Hqs.
    apply settles_bind; [by apply settles_load_sidxs|intros _; apply settles_load_meta]. }
  destruct (Hs c5 w5 Hd) as [Hl _]. rewrite E in Hl. cbn [fst snd] in Hl. injection Hl as L1 L2 L3 _ _ _ _. split; congruence.
Qed.
End opening_home.

(** ** The invariant *)
Section registry_inv.
Context {sha : Sha256} {ro : RangeOrder} {pb : Protobuf}.

Record registry_wf (db : DB) (h : Host) : Prop := {
  rw_colls : ∀ name c, db_collections db !! name = Some c → at_home (join (db_dataDir db) name) c ∧ name ∈ h_dirs h;
  rw_dirs : ∀ name, name ∈ h_dirs h → plain_name name
}.

Lemma registry_housed db h : registry_wf db h → housed db.
Proof. intros [H1 H2] name c Hc. destruct (H1 name c Hc). auto. Qed.

Definition typed {A} (m : DM A) : Prop := ∀ db h, registry_wf db h → registry_wf (m (db, h)).2.1 (m (db, h)).2.2.

Lemma typed_bind {A B} (m : DM A) (f : A → DM B) : typed m → (∀ a, typed (f a)) → typed (m ≫= f).
Proof.
  intros Hm Hf db h Hdb. unfold mbind, SE_bind. specialize (Hm db h Hdb). destruct (m (db, h)) as [[a|e] [db' h']]; [|done]. by apply Hf.
Qed.
Lemma typed_ret {A} (a : A) : typed (mret a).
Proof. by intros db h ?. Qed.
Lemma typed_fail {A} e : typed (@fail _ A e).
Proof. by intros db h ?. Qed.
Lemma typed_the_db : typed the_db.
Proof. by intros db h ?. Qed.
Lemma typed_ignore {A} (m : DM A) : typed m → typed (ignore m).
Proof. intros Hm db h Hdb. by apply Hm. Qed.
Lemma typed_files {A} (m : M A) : typed (files m).
Proof. intros db h [H1 H2]. unfold files. destruct (m (h_world h)). by split. Qed.
Lemma typed_modify f : (∀ db, db_collections (f db) = db_collections db ∧ db_dataDir (f db) = db_dataDir db) → typed (modify_db f).
Proof. intros Hf db h [H1 H2]. destruct (Hf db) as [E1 E2]. cbn [modify_db fst snd]. split; [by rewrite E1, E2|done]. Qed.

(** An operation of a collection that keeps its directory and the place of its
    active segment. *)
Definition stays {A} (m : CM A) : Prop := ∀ dir c w, at_home dir c → at_home dir (m (c, w)).2.1.

Lemma local_stays {A} (m : CM A) : (∀ dir, local dir m) → stays m.
Proof. intros Hm dir c w Hc. by apply Hm. Qed.
Lemma stays_bind {A B} (m : CM A) (f : A → CM B) : stays m → (∀ a, stays (f a)) → stays (m ≫= f).
Proof. intros Hm Hf dir c w Hc. unfold mbind, SE_bind. specialize (Hm dir c w Hc). destruct (m (c, w)) as [[a|e] [c' w']]; [|done]. by apply Hf. Qed.

Lemma typed_with {A} name (m : CM A) : stays m → typed (with_collection name m).
Proof.
  intros Hm db h [H1 H2]. unfold with_collection. destruct (db_collections db !! name) as [c|] eqn:Hc; [|done].
  destruct (H1 name c Hc) as [Hh Hin]. specialize (Hm _ c (h_world h) Hh). destruct (m (c, h_world h)) as [r [c' w']]. cbn [fst snd] in *.
  assert (db_dataDir (flush name c' db) = db_dataDir db ∧ db_collections (flush name c' db) = <[name := set_feed [] c']> (db_collections db))
    as [Ed Ec] by (by destruct db).
  split; [|done]. intros n x. rewrite Ed, Ec. intros [[<- <-]|[_ Hx]]%lookup_insert_Some; [|by apply H1]. split; [by destruct c'|done].
Qed.

Lemma typed_forget name : typed (forget name).
Proof.
  intros db h [H1 H2]. destruct db. split; [|done]. cbn in *. intros n c [_ Hc]%lookup_delete_Some. by apply H1.
Qed.

(** Opening under a plain name and registering. *)
Lemma typed_open_register name cfg : plain_name name → typed (c ← open_collection name cfg; register name c).
Proof.
  intros Hn db h [H1 H2]. unfold mbind, SE_bind, open_collection.
  destruct (OpenCollection name (db_dataDir db) cfg (h_world h)) as [[c|e] w'] eqn:E.
  - assert (w_faults (h_world h) = [] ∨ ∃ l, w_faults (h_world h) = None :: l) as Hf.
    { unfold OpenCollection in E. destruct ((io syscall;; load) _) as [[[]|] [c1 w1]] eqn:El; [|done]. apply bind_inv_ok in El as ([] & [c2 w2] & E2 & _).
      unfold io, syscall, outcome, mbind, SE_bind in E2. destruct (w_faults (h_world h)) as [|[n|] l]; [by left|done|right; eauto]. }
    set (ds := match w_faults (h_world h) with Some _ :: _ => h_dirs h | _ => {[name]} ∪ h_dirs h end).
    assert (ds = {[name]} ∪ h_dirs h) as Hds by (subst ds; destruct Hf as [-> |[l ->]]; done).
    apply OpenCollection_home in E. destruct db. cbn in *. split; cbn.
    + intros n x. rewrite Hds. intros [[<- <-]|[_ Hx]]%lookup_insert_Some; [split; [by destruct c|set_solver]|]. destruct (H1 n x Hx). split; [done|set_solver].
    + intros n. rewrite Hds. intros [->%elem_of_singleton|Hin]%elem_of_union; [done|by apply H2].
  - cbn. split; cbn.
    + intros n x Hx. destruct (H1 n x Hx) as [? Hin]. split; [done|]. repeat case_match; set_solver.
    + intros n Hin. repeat case_match; [..|by apply H2|]; set_solver.
Qed.

Lemma typed_create name : plain_name name → typed (CreateCollection name).
Proof.
  intros Hn. unfold CreateCollection. apply typed_bind; [apply typed_the_db|]. intros db.
  destruct (db_collections db !! name); [apply typed_fail|by apply typed_open_register].
Qed.

Lemma typed_drop name : typed (DropCollection name).
Proof.
  unfold DropCollection. apply typed_bind; [apply typed_the_db|]. intros db. destruct (db_collections db !! name); [|apply typed_fail].
  assert (typed (ignore (with_collection name CloseCollection);; forget name)) as Hf.
  { apply typed_bind; [apply typed_ignore, typed_with, local_stays; intros; apply local_CloseCollection|intros _; apply typed_forget]. }
  intros db0 h0 Hdb. specialize (Hf db0 h0 Hdb). unfold mbind, SE_bind in *. cbn [ignore fst snd] in *.
  destruct (with_collection name CloseCollection (db0, h0)) as [r0 [db1 h1]]. cbn [snd forget modify_db fst] in *.
  unfold RemoveAll. destruct Hf as [H1 H2]. destruct (outcome (h_world h1)) as [[[k|]|e] w]; cbn [fst snd]; [by split| |by split].
  split; [|intros n Hin; apply H2; cbn in Hin; set_solver]. intros n x Hx. destruct (H1 n x Hx) as [Hh Hin]. split; [done|]. cbn.
  assert (n ≠ name); [|set_solver]. intros ->. destruct db1. cbn in Hx. by rewrite lookup_delete_eq in Hx.
Qed.

Lemma typed_reconfigure name cfg : plain_name name → typed (CollectionWithConfig name cfg).
Proof.
  intros Hn. unfold CollectionWithConfig. apply typed_bind; [apply typed_the_db|]. intros db. apply typed_bind; [|intros _; by apply typed_open_register].
  destruct (db_collections db !! name); [|apply typed_ret].
  apply typed_bind; [apply typed_with, local_stays; intros; apply local_CloseCollection|intros _; apply typed_forget].
Qed.

Lemma typed_apply name e : plain_name name → typed (ApplyReplication name e).
Proof.
  intros Hn. unfold ApplyReplication. apply typed_bind; [apply typed_the_db|]. intros db.
  apply typed_bind; [destruct (db_collections db !! name); [apply typed_ret|by apply typed_create]|intros _].
  apply typed_with, local_stays. intros. apply local_applyEntry.
Qed.

Lemma typed_persist : typed persistReplState.
Proof. apply typed_bind; [apply typed_the_db|intros db; apply typed_files]. Qed.

Lemma typed_set_applied lsn : typed (SetAppliedLSN lsn).
Proof.
  apply typed_bind; [apply typed_the_db|]. intros db. destruct (_ <=? _)%N; [apply typed_ret|].
  apply typed_bind; [apply typed_modify; by intros []|intros _; apply typed_persist].
Qed.

Lemma typed_promote maxLag force : typed (Promote maxLag force).
Proof.
  apply typed_bind; [apply typed_the_db|]. intros db. destruct (negb _); [apply typed_fail|]. cbv zeta. destruct (_ && _)%bool; [apply typed_fail|].
  apply typed_bind; [apply typed_modify; by intros []|intros _]. apply typed_bind; [apply typed_modify; by intros []|intros _].
  apply typed_bind; [apply typed_the_db|intros db']. apply typed_bind; [apply typed_modify; intros x; destruct (db_onPromote x); by destruct x|intros _].
  apply typed_bind; [apply typed_ignore, typed_persist|intros _; apply typed_ret].
Qed.

Lemma typed_follow rs : Forall (λ r, plain_name (rr_Collection r)) rs → typed (follow rs).
Proof.
  induction 1 as [|r rs Hr Hrs IH]; [apply typed_ret|]. cbn [follow]. apply typed_bind; [|done]. unfold follow_record, NoteLeaderLSN.
  apply typed_bind; [apply typed_modify; intros x; destruct (_ <=? _)%N; by destruct x|intros _].
  apply typed_bind; [apply typed_the_db|intros db]. destruct (_ <=? _)%N; [apply typed_ret|].
  apply typed_bind; [by apply typed_apply|intros _; apply typed_ignore, typed_set_applied].
Qed.

Lemma typed_close : typed CloseDB.
Proof.
  apply typed_bind; [apply typed_the_db|intros db]. apply typed_bind.
  - generalize (None : option error). induction (ListCollections db) as [|name names IH]; intros first; cbn [close_all]; [apply typed_ret|].
    intros x h Hx. assert (typed (with_collection name CloseCollection)) as Hc by (apply typed_with, local_stays; intros; apply local_CloseCollection).
    specialize (Hc x h Hx). destruct (with_collection name CloseCollection (x, h)) as [r [x' h']]. by apply IH.
  - intros first. apply typed_bind; [apply typed_the_db|intros x]. destruct (_ || _)%bool; [|destruct first; [apply typed_fail|apply typed_ret]].
    intros y h Hy. unfold close_state. pose proof (typed_persist y h Hy) as Hp. by destruct (persistReplState (y, h)) as [r [y' h']].
Qed.

(** ** Every operation *)
Inductive registry_op :=
  | RWrite (name : string) (op : client_op)
  | RCompact (name : string)
  | RCreate (name : string)
  | RCreateTTL (name : string) (ttl : Z)
  | RReconfigure (name : string) (cfg : CollectionConfig)
  | RDrop (name : string)
  | RApply (name : string) (e : Entry)
  | RFollow (rs : list ReplicationRecord)
  | RSetApplied (lsn : N)
  | RPromote (maxLag : N) (force : bool)
  | RClose.

Definition run_registry (op : registry_op) : DM unit :=
  match op with
  | RWrite name op => with_collection name (perform op)
  | RCompact name => CompactCollection name
  | RCreate name => CreateCollection name
  | RCreateTTL name ttl => CreateCollectionWithDefaultTTL name ttl
  | RReconfigure name cfg => CollectionWithConfig name cfg
  | RDrop name => DropCollection name
  | RApply name e => ApplyReplication name e
  | RFollow rs => follow rs
  | RSetApplied lsn => SetAppliedLSN lsn
  | RPromote maxLag force => ignore (Promote maxLag force)
  | RClose => CloseDB
  end.

(** The names an operation may create. *)
Definition names_of (op : registry_op) : list string :=
  match op with
  | RCreate name | RCreateTTL name _ | RReconfigure name _ | RApply name _ => [name]
  | RFollow rs => rr_Collection <$> rs
  | _ => []
  end.

Lemma typed_registry op : Forall plain_name (names_of op) → typed (run_registry op).
Proof.
  destruct op; cbn [names_of run_registry]; intros Hn; rewrite ?Forall_singleton in Hn.
  - apply typed_with, local_stays. intros. apply local_perform.
  - apply typed_with, local_stays. intros. apply local_CompactNow.
  - by apply typed_create.
  - apply typed_bind; [by apply typed_create|intros _]. apply typed_with, local_stays. intros. apply local_setDefaultTTL.
  - by apply typed_reconfigure.
  - apply typed_drop.
  - by apply typed_apply.
  - apply typed_follow. by rewrite Forall_fmap in Hn.
  - apply typed_set_applied.
  - apply typed_ignore, typed_promote.
  - apply typed_close.
Qed.

Fixpoint run_registries (ops : list registry_op) : DM unit :=
  match ops with [] => mret tt | op :: ops => ignore (run_registry op);; run_registries ops end.

Lemma typed_open_all names cfg : Forall plain_name names → typed (open_all names cfg).
Proof.
  induction 1 as [|name names Hn Hns IH]; [apply typed_ret|]. cbn [open_all].
  intros db h Hdb. pose proof (typed_open_register name cfg Hn db h Hdb) as Ho. unfold mbind, SE_bind in *.
  destruct (open_collection name cfg (db, h)) as [[c|e] [db1 h1]]; [|done]. by apply IH.
Qed.

Lemma OpenDB_typed dataDir cfg h db h' :
  (∀ name, name ∈ h_dirs h → plain_name name) → OpenDB dataDir cfg h = (Ok db, h') → registry_wf db h'.
Proof.
  intros Hd. unfold OpenDB. match goal with |- context [?m (new_db dataDir cfg, h)] => assert (typed m) as Hm; [|set (run := m) in *] end.
  { apply typed_bind; [apply typed_files|intros _]. apply typed_bind; [|intros _; apply typed_bind; [apply typed_files|intros _]].
    - intros x y [H1 H2]. unfold initReplication. destruct (loadReplState _ _) as [r w]. destruct x. destruct (_ <? _)%Z; by split.
    - intros x y Hx. unfold open_existing. apply typed_open_all; [|done]. apply Forall_forall. intros name Hin%elem_of_dir_names. by apply Hx. }
  specialize (Hm (new_db dataDir cfg) h). destruct (run (new_db dataDir cfg, h)) as [[[]|e] [db1 h1]]; [|done]. intros [= <- <-]. apply Hm.
  split; [|done]. intros name c Hc. unfold new_db in Hc. cbn [db_collections] in Hc. by rewrite lookup_empty in Hc.
Qed.

(** [C16] The registry is well formed: in a data directory whose sub-directories
    have plain names, the database that opens, and every database reached from it
    by operations on the registry and its collections, holds each collection under
    the name of a sub-directory that exists and in which the collection works; the
    sub-directories keep plain names.  This holds whichever system calls fail, as
    long as the names of collections that are created are plain. *)
Theorem registry_typed (dataDir : string) (cfg : DBConfig) (h : Host) (db : DB) (h' : Host) (ops : list registry_op) :
  (∀ name, name ∈ h_dirs h → plain_name name) → OpenDB dataDir cfg h = (Ok db, h') →
  Forall (λ op, Forall plain_name (names_of op)) ops →
  let s := (run_registries ops (db, h')).2 in
  (∀ name c, db_collections s.1 !! name = Some c → at_home (join (db_dataDir s.1) name) c ∧ name ∈ h_dirs s.2) ∧
  ∀ name, name ∈ h_dirs s.2 → plain_name name.
Proof.
  intros Hd Ho Hops. apply OpenDB_typed in Ho; [|done]. cbv zeta.
  assert (registry_wf (run_registries ops (db, h')).2.1 (run_registries ops (db, h')).2.2) as [H1 H2]; [|done]. clear Hd. revert db h' Ho.
  induction Hops as [|op ops Hop Hops IH]; intros db h' Hdb; [done|]. cbn [run_registries].
  assert (typed (ignore (run_registry op);; run_registries ops)) as Hm; [|by apply Hm].
  apply typed_bind; [by apply typed_ignore, typed_registry|]. intros _ x y. apply IH.
Qed.
End registry_inv.

(** ** Witness *)

(** A database opened on an empty directory, in which collections are created,
    written to, compacted, reopened and dropped. *)
Definition typed_ops : list (@registry_op plain_wire) :=
  [RCreate "u"; RWrite "u" (CInsert rec_b 0); RCompact "u"; RReconfigure "u" defaultConfig; RCreate "v"; RDrop "v"; RClose].

Lemma registry_typed_witness :
  let s := (@run_registries length_digest map_order plain_wire typed_ops (open_db ring_of_four no_host)).2 in
  (∀ name c, db_collections s.1 !! name = Some c → at_home (join (db_dataDir s.1) name) c ∧ name ∈ h_dirs s.2) ∧
  ∀ name, name ∈ h_dirs s.2 → plain_name name.
Proof.
  destruct (@OpenDB length_digest "d" ring_of_four no_host) as [[db|e] h'] eqn:E; [|vm_compute in E; discriminate].
  assert (open_db ring_of_four no_host = (db, h')) as -> by (unfold open_db; by rewrite E).
  apply (@registry_typed length_digest map_order plain_wire "d" ring_of_four no_host db h' typed_ops); [by intros name []%not_elem_of_empty|exact E|].
  repeat (apply Forall_cons; split; [repeat (apply Forall_cons; split; [apply plain_name_u || apply plain_name_v|]); apply Forall_nil; exact I|]).
  apply Forall_nil. exact I.
Defined.
