(* ===== verification/Crypto.v ===== *)
(** * Package crypto: envelopes, keyrings and key checks

    crypto/envelope.go, crypto/keyring.go and crypto/keycheck.go.  The cipher
    (XChaCha20-Poly1305 of golang.org/x/crypto) is the class [AEAD]; the random
    nonce of an encryption is an argument.  An envelope is the string
    [marker:v1:<key-id>:<base64url(nonce || ciphertext)>]. *)

From S2P Require Import Prelude GoFloat GoJson GoBase64 Value Query.

(** ** The cipher *)
Definition KeySize : nat := 32.
Definition NonceSize : nat := 24.

(** [Seal] and [Open] of the AEAD for a key of [KeySize] bytes, with the nonce,
    the text and the additional data. *)
Class AEAD := {
  aead_Seal : bytes → bytes → bytes → bytes → bytes;
  aead_Open : bytes → bytes → bytes → bytes → option bytes
}.

(** What the code relies on: sealed text opens to itself, and [Open] accepts only
    what [Seal] produces under the same key, nonce and additional data. *)
Class AEADLaws `{!AEAD} : Prop := {
  Open_Seal key nonce text aad :
    length key = KeySize → length nonce = NonceSize →
    aead_Open key nonce (aead_Seal key nonce text aad) aad = Some text;
  Open_authentic key nonce ct text aad :
    length key = KeySize → length nonce = NonceSize →
    aead_Open key nonce ct aad = Some text → ct = aead_Seal key nonce text aad
}.

(** ** Envelopes *)
Definition marker : bytes := "000"%char :: to_bytes "scrivaenc".
Definition version : bytes := to_bytes "v1".
Definition colon : ascii := ":"%char.

Definition IsEncrypted (s : string) : bool := is_prefix (marker ++ [colon]) (to_bytes s).
Definition HasReservedPrefix (s : string) : bool := is_prefix marker (to_bytes s).

Definition validateKeyID (keyID : string) : result unit :=
  if bool_decide (keyID = "") then Err ErrOther
  else if existsb (λ c, bool_decide (c = colon)) (to_bytes keyID) then Err ErrOther
  else Ok tt.

(** [chacha20poly1305.NewX] accepts keys of [KeySize] bytes. *)
Definition NewX (key : bytes) : bool := (length key =? KeySize)%nat.

Definition envelope (keyID : string) (payload : bytes) : string :=
  of_bytes (marker ++ [colon] ++ version ++ [colon] ++ to_bytes keyID ++ [colon] ++ b64_encode payload).

Definition Encrypt `{!AEAD} (nonce key : bytes) (keyID : string) (plaintext aad : bytes) : result string :=
  validateKeyID keyID ≫= λ _,
  if negb (NewX key) then Err ErrOther
  else Ok (envelope keyID (nonce ++ aead_Seal key nonce plaintext aad)).

(** The text before and after the first colon. *)
Fixpoint cut_colon (b : bytes) : option (bytes * bytes) :=
  match b with
  | [] => None
  | c :: b => if bool_decide (c = colon) then Some ([], b) else '(l, r) ← cut_colon b; Some (c :: l, r)
  end.

(** [strings.SplitN(rest, ":", 3)] when it has three parts. *)
Definition split3 (b : bytes) : option (bytes * bytes * bytes) :=
  '(x, r) ← cut_colon b; '(y, z) ← cut_colon r; Some (x, y, z).

Definition parse (env : string) : result (string * bytes) :=
  if negb (IsEncrypted env) then Err ErrDecryptFailed
  else
    match split3 (drop (length marker + 1) (to_bytes env)) with
    | None => Err ErrDecryptFailed
    | Some (ver, id, text) =>
        if negb (bool_decide (ver = version)) then Err ErrDecryptFailed
        else if bool_decide (id = []) then Err ErrDecryptFailed
        else
          match b64_decode text with
          | None => Err ErrDecryptFailed
          | Some payload => Ok (of_bytes id, payload)
          end
    end.

Definition Decrypt `{!AEAD} (key : bytes) (env : string) (aad : bytes) : result bytes :=
  '(_, payload) ← parse env;
  if negb (NewX key) then Err ErrDecryptFailed
  else if (length payload <? NonceSize)%nat then Err ErrDecryptFailed
  else of_option ErrDecryptFailed (aead_Open key (take NonceSize payload) (drop NonceSize payload) aad).

Definition KeyID (env : string) : result string := '(id, _) ← parse env; Ok id.

(** ** Key providers *)
Record KeyProvider := MkKeyProvider {
  kp_Current : result (string * bytes);
  kp_ByID : string → result bytes
}.

(** A failure of the provider is reported as [ErrKeyUnavailable]. *)
Definition DecryptWith `{!AEAD} (p : KeyProvider) (env : string) (aad : bytes) : result bytes :=
  id ← KeyID env;
  match kp_ByID p id with
  | Err _ => Err ErrKeyUnavailable
  | Ok key => Decrypt key env aad
  end.

(** ** The keyring *)
Record Keyring := MkKeyring {
  kr_keys : gmap string bytes;
  kr_currentID : string
}.

Definition Add (keyID : string) (key : bytes) (k : Keyring) : result Keyring :=
  validateKeyID keyID ≫= λ _,
  if negb (length key =? KeySize)%nat then Err ErrOther
  else Ok (MkKeyring (<[keyID := key]> (kr_keys k)) (kr_currentID k)).

Definition NewKeyring (keyID : string) (key : bytes) : result Keyring :=
  k ← Add keyID key (MkKeyring ∅ ""); Ok (MkKeyring (kr_keys k) keyID).

Definition SetCurrent (keyID : string) (k : Keyring) : result Keyring :=
  match kr_keys k !! keyID with
  | None => Err ErrKeyUnavailable
  | Some _ => Ok (MkKeyring (kr_keys k) keyID)
  end.

Definition Current (k : Keyring) : result (string * bytes) :=
  match kr_keys k !! kr_currentID k with
  | None => Err ErrKeyUnavailable
  | Some key => Ok (kr_currentID k, key)
  end.

Definition ByID (k : Keyring) (id : string) : result bytes := of_option ErrKeyUnavailable (kr_keys k !! id).

(** A keyring as a provider. *)
Definition keyring_provider (k : Keyring) : KeyProvider := MkKeyProvider (Current k) (ByID k).

(** ** The key check *)
Definition keyCheckConstant : bytes := to_bytes "scriva encryption key-check v1".
Definition keyCheckAAD : bytes := to_bytes "scriva:key-check".

Definition MakeKeyCheck `{!AEAD} (nonce key : bytes) (keyID : string) : result string :=
  Encrypt nonce key keyID keyCheckConstant keyCheckAAD.

Definition VerifyKeyCheck `{!AEAD} (key : bytes) (env : string) : result unit :=
  match Decrypt key env keyCheckAAD with
  | Err _ => Err ErrWrongEncryptionKey
  | Ok text => if negb (bool_decide (text = keyCheckConstant)) then Err ErrWrongEncryptionKey else Ok tt
  end.

(** ** Parsing what was printed *)
Lemma cut_colon_app l r : Forall (λ c, c ≠ colon) l → cut_colon (l ++ colon :: r) = Some (l, r).
Proof.
  induction 1 as [|c l Hc _ IH]; cbn [app cut_colon]; [by rewrite bool_decide_true|]. rewrite bool_decide_false, IH by done. done.
Qed.

Lemma cut_colon_Some b l r : cut_colon b = Some (l, r) → b = l ++ colon :: r ∧ Forall (λ c, c ≠ colon) l.
Proof.
  revert l r. induction b as [|c b IH]; intros l r; [done|]. cbn [cut_colon]. case_bool_decide as Hc.
  { intros [= <- <-]. by subst. }
  destruct (cut_colon b) as [[l' r']|]; [|done]. cbn. intros [= <- <-]. destruct (IH l' r') as [-> ?]; [done|]. by split; [|constructor].
Qed.

Lemma validateKeyID_Ok id : validateKeyID id = Ok tt ↔ id ≠ "" ∧ Forall (λ c, c ≠ colon) (to_bytes id).
Proof.
  unfold validateKeyID. case_bool_decide as He; [naive_solver|].
  destruct (existsb _ (to_bytes id)) eqn:E.
  - split; [done|]. intros [_ H]. apply existsb_exists in E as (c & Hc & ?). bools. rewrite Forall_forall in H.
    exfalso. apply (H c); [by apply list_elem_of_In|done].
  - split; [|done]. intros _. split; [done|]. apply Forall_forall. intros c Hc%list_elem_of_In ->.
    assert (existsb (λ c, bool_decide (c = colon)) (to_bytes id) = true); [|congruence].
    apply existsb_exists. exists colon. split; [done|]. by apply bool_decide_true.
Qed.

Lemma IsEncrypted_envelope id payload : IsEncrypted (envelope id payload) = true.
Proof. unfold IsEncrypted, envelope. rewrite to_of_bytes, app_assoc. apply is_prefix_app. Qed.

Lemma parse_envelope id payload : validateKeyID id = Ok tt → parse (envelope id payload) = Ok (id, payload).
Proof.
  intros [Hne Hc]%validateKeyID_Ok. unfold parse. rewrite IsEncrypted_envelope. unfold envelope. rewrite to_of_bytes.
  change (drop (length marker + 1) (marker ++ [colon] ++ ?x)) with x. unfold split3.
  change (version ++ [colon] ++ ?x) with (version ++ colon :: x).
  rewrite cut_colon_app by (repeat constructor; discriminate). cbn [mbind option_bind].
  change ([colon] ++ ?x) with (colon :: x). rewrite cut_colon_app by done. cbn [mbind option_bind].
  rewrite bool_decide_true, bool_decide_false by (done || (intros H; apply Hne; rewrite <-(of_to_bytes id), H; done)).
  by rewrite b64_decode_encode, of_to_bytes.
Qed.

Section envelope.
Context `{!AEAD}.

Lemma Encrypt_Ok nonce key id text aad env :
  Encrypt nonce key id text aad = Ok env ↔
    validateKeyID id = Ok tt ∧ length key = KeySize ∧ env = envelope id (nonce ++ aead_Seal key nonce text aad).
Proof.
  unfold Encrypt, NewX. destruct (validateKeyID id) as [[]|]; cbn; [|naive_solver].
  destruct (Nat.eqb_spec (length key) KeySize); simpl; naive_solver.
Qed.

Lemma Decrypt_Encrypt `{!AEADLaws} nonce key id text aad env :
  length nonce = NonceSize → Encrypt nonce key id text aad = Ok env → Decrypt key env aad = Ok text.
Proof.
  intros Hn (Hid & Hk & ->)%Encrypt_Ok. unfold Decrypt. rewrite parse_envelope by done. cbn [mbind result_bind].
  unfold NewX. rewrite (proj2 (Nat.eqb_eq _ _) Hk). cbn [negb]. rewrite (proj2 (Nat.ltb_ge _ _)) by (rewrite length_app; lia).
  rewrite take_app_length', drop_app_length' by done. by rewrite Open_Seal.
Qed.

Lemma KeyID_Encrypt nonce key id text aad env : Encrypt nonce key id text aad = Ok env → KeyID env = Ok id.
Proof. intros (Hid & _ & ->)%Encrypt_Ok. unfold KeyID. by rewrite parse_envelope. Qed.

Lemma DecryptWith_Encrypt `{!AEADLaws} p nonce key id text aad env :
  length nonce = NonceSize → Encrypt nonce key id text aad = Ok env → kp_ByID p id = Ok key →
  DecryptWith p env aad = Ok text.
Proof.
  intros Hn He Hp. unfold DecryptWith. rewrite (KeyID_Encrypt _ _ _ _ _ _ He). cbn. rewrite Hp. by eapply Decrypt_Encrypt.
Qed.

(** A key check passes under the key it was made with, and only a key that opens
    it to the constant passes. *)
Lemma VerifyKeyCheck_Make `{!AEADLaws} nonce key id kc :
  length nonce = NonceSize → MakeKeyCheck nonce key id = Ok kc → VerifyKeyCheck key kc = Ok tt.
Proof.
  intros Hn Hm. unfold VerifyKeyCheck. rewrite (Decrypt_Encrypt _ _ _ _ _ _ Hn Hm). by rewrite bool_decide_true.
Qed.
End envelope.

(** ** Rotation *)

(** The operations on a keyring; one that is refused leaves it as it is. *)
Inductive ring_op :=
  | RAdd (keyID : string) (key : bytes)
  | RSetCurrent (keyID : string).

Definition ring_run (op : ring_op) (k : Keyring) : result Keyring :=
  match op with RAdd id key => Add id key k | RSetCurrent id => SetCurrent id k end.

Definition ring_do (k : Keyring) (op : ring_op) : Keyring := match ring_run op k with Ok k => k | Err _ => k end.
Definition ring_does (ops : list ring_op) (k : Keyring) : Keyring := foldl ring_do k ops.

(** An addition that gives an id another key. *)
Definition reassigns (id : string) (key : bytes) (op : ring_op) : bool :=
  match op with RAdd id' key' => (bool_decide (id' = id) && negb (bool_decide (key' = key)))%bool | RSetCurrent _ => false end.

(** Every key has the right length and a usable id, and one of them is current. *)
Record ring_ok (k : Keyring) : Prop := {
  ro_keys : map_Forall (λ id key, validateKeyID id = Ok tt ∧ length key = KeySize) (kr_keys k);
  ro_current : is_Some (kr_keys k !! kr_currentID k)
}.

Lemma Add_Ok id key k k' :
  Add id key k = Ok k' ↔
    validateKeyID id = Ok tt ∧ length key = KeySize ∧ k' = MkKeyring (<[id := key]> (kr_keys k)) (kr_currentID k).
Proof.
  unfold Add. destruct (validateKeyID id) as [[]|]; cbn; [|naive_solver].
  destruct (Nat.eqb_spec (length key) KeySize); simpl; naive_solver.
Qed.

Lemma ring_run_ok op k k' : ring_ok k → ring_run op k = Ok k' → ring_ok k'.
Proof.
  intros [Hk Hc]. destruct op as [id key|id]; cbn.
  - intros (Hid & Hlen & ->)%Add_Ok. split; cbn.
    + by apply map_Forall_insert_2.
    + apply lookup_insert_is_Some'. by right.
  - unfold SetCurrent. destruct (kr_keys k !! id) eqn:E; [|done]. intros [= <-]. split; cbn; [done|by eexists].
Qed.

Lemma NewKeyring_ok id key k : NewKeyring id key = Ok k → ring_ok k ∧ Current k = Ok (id, key).
Proof.
  unfold NewKeyring. intros (k0 & (Hid & Hlen & ->)%Add_Ok & [= <-])%result_bind_Ok. split.
  - split; cbn; [|rewrite lookup_insert_eq; by eexists]. apply map_Forall_insert_2; [done|]. apply map_Forall_empty.
  - unfold Current. cbn. by rewrite lookup_insert_eq.
Qed.

Lemma ring_does_ok ops k : ring_ok k → ring_ok (ring_does ops k).
Proof.
  revert k. induction ops as [|op ops IH]; intros k Hk; [done|]. apply IH. unfold ring_do.
  destruct (ring_run op k) as [k'|] eqn:E; [by eapply ring_run_ok|done].
Qed.

Lemma ring_do_keeps op k id key : reassigns id key op = false → kr_keys k !! id = Some key → kr_keys (ring_do k op) !! id = Some key.
Proof.
  intros Hop Hk. unfold ring_do. destruct (ring_run op k) as [k'|] eqn:E; [|done]. destruct op as [id' key'|id']; cbn in E, Hop.
  - apply Add_Ok in E as (_ & _ & ->). cbn. destruct (decide (id' = id)) as [->|Hne]; [|by rewrite lookup_insert_ne].
    rewrite lookup_insert_eq. rewrite bool_decide_true in Hop by done. case_bool_decide; [congruence|done].
  - unfold SetCurrent in E. destruct (kr_keys k !! id'); [|done]. by simplify_eq.
Qed.

Lemma ring_does_keeps ops k id key :
  Forall (λ op, reassigns id key op = false) ops → kr_keys k !! id = Some key → kr_keys (ring_does ops k) !! id = Some key.
Proof. intros Hops. revert k. induction Hops as [|op ops Hop _ IH]; intros k Hk; [done|]. by apply IH, ring_do_keeps. Qed.

(** A key of a ring keeps its id; the current key has one. *)
Lemma Current_ByID k id key : Current k = Ok (id, key) → kr_keys k !! id = Some key.
Proof. unfold Current. destruct (kr_keys k !! kr_currentID k) eqn:E; [|done]. by intros [= <- <-]. Qed.

(** ** Properties *)

(** [C32] Key rotation: a keyring is made and any sequence of additions and changes
    of the current key is applied to it, accepted or refused.  There is always a
    current key.  A value sealed under the key that was current at any moment still
    decrypts to its text after any further sequence in which its key id is not
    given another key. *)
Theorem rotation_keeps_readable `{!AEAD, !AEADLaws} (id0 : string) (key0 : bytes) (k0 : Keyring) (before after : list ring_op) (id : string)
    (key nonce text aad : bytes) (env : string) :
  NewKeyring id0 key0 = Ok k0 →
  let k := ring_does before k0 in
  let k' := ring_does after k in
  is_Ok (Current k') = true ∧
  (Current k = Ok (id, key) → length nonce = NonceSize → Encrypt nonce key id text aad = Ok env →
   Forall (λ op, reassigns id key op = false) after → DecryptWith (keyring_provider k') env aad = Ok text).
Proof.
  intros [Hok _]%NewKeyring_ok k k'. split.
  - destruct (ring_does_ok after k (ring_does_ok before k0 Hok)) as [_ [key' Hk']]. unfold Current, k'. by rewrite Hk'.
  - intros Hcur Hn Henc Hops. eapply DecryptWith_Encrypt; [done..|]. cbn. unfold ByID.
    unfold k'. by rewrite (ring_does_keeps after k id key Hops (Current_ByID _ _ _ Hcur)).
Qed.

(** [C33] Authenticity: whatever [DecryptWith] returns was sealed under the key that
    the envelope names, with the additional data of this read: text cannot be
    moved to another field or collection unless it was also sealed for it. *)
Theorem decrypt_authentic `{!AEAD, !AEADLaws} (p : KeyProvider) (env : string) (aad text : bytes) :
  DecryptWith p env aad = Ok text →
  ∃ id key nonce, kp_ByID p id = Ok key ∧ length key = KeySize ∧ length nonce = NonceSize ∧
    parse env = Ok (id, nonce ++ aead_Seal key nonce text aad).
Proof.
  unfold DecryptWith, KeyID. intros (id & Hid & Hd)%result_bind_Ok.
  destruct (parse env) as [[id' payload]|] eqn:Hp; [|done]. cbn in Hid. injection Hid as ->.
  destruct (kp_ByID p id) as [key|] eqn:Hkey; [|done]. unfold Decrypt in Hd. rewrite Hp in Hd. cbn [mbind result_bind] in Hd.
  unfold NewX in Hd. destruct (Nat.eqb_spec (length key) KeySize) as [Hk|]; [|done]. cbn [negb] in Hd.
  destruct (Nat.ltb_spec (length payload) NonceSize) as [|Hlen]; [done|].
  destruct (aead_Open key (take NonceSize payload) (drop NonceSize payload) aad) as [t|] eqn:Ho; [|done].
  injection Hd as ->. assert (length (take NonceSize payload) = NonceSize) as Hn by (rewrite length_take; lia).
  exists id, key, (take NonceSize payload). split_and!; [done..|].
  rewrite <-(Open_authentic _ _ _ _ _ Hk Hn Ho). by rewrite take_drop.
Qed.

(** ** A cipher for the examples: it writes key, nonce and additional data before
    the text.  It satisfies the laws and hides nothing. *)
#[global] Instance clear_aead : AEAD := {|
  aead_Seal key nonce text aad := key ++ nonce ++ aad ++ text;
  aead_Open key nonce ct aad := expect (key ++ nonce ++ aad) ct
|}.

Lemma expect_app p b : expect p (p ++ b) = Some b.
Proof. induction p as [|c p IH]; [done|]. cbn [app expect]. by rewrite bool_decide_true, IH. Qed.

Lemma expect_Some p b r : expect p b = Some r → b = p ++ r.
Proof.
  revert b. induction p as [|c p IH]; intros b; cbn [expect]; [by intros [= ->]|].
  destruct b as [|d b]; [done|]. case_bool_decide as Hc; [|done]. intros Hr%IH. by subst.
Qed.

#[global] Instance clear_aead_laws : AEADLaws.
Proof.
  split.
  - intros key nonce text aad _ _. cbn [aead_Open aead_Seal clear_aead].
    replace (key ++ nonce ++ aad ++ text) with ((key ++ nonce ++ aad) ++ text) by (by rewrite <-!app_assoc). apply expect_app.
  - intros key nonce ct text aad _ _ Ho. apply expect_Some in Ho as ->. cbn. by rewrite <-!app_assoc.
Qed.

Definition demo_key : bytes := replicate KeySize "k"%char.
Definition demo_key2 : bytes := replicate KeySize "q"%char.
Definition demo_nonce : bytes := replicate NonceSize "n"%char.
Definition demo_ring : Keyring := MkKeyring {["k1" := demo_key]} "k1".
Definition rotated_ring : Keyring := MkKeyring {["k1" := demo_key; "k2" := demo_key2]} "k2".
Definition demo_env : string :=
  match Encrypt demo_nonce demo_key "k1" (to_bytes "secret") (to_bytes "c") with Ok e => e | Err _ => "" end.

Definition rotation : list ring_op := [RAdd "k2" demo_key2; RSetCurrent "k2"].
Lemma rotate_demo : ring_does rotation demo_ring = rotated_ring.
Proof. vm_compute. reflexivity. Qed.

(** Adding a key under an id that has one replaces it: what was sealed under the
    old key can no longer be read. *)
Theorem reassigned_key_loses_values :
  Current (ring_does [RAdd "k1" demo_key2] demo_ring) = Ok ("k1", demo_key2) ∧
  DecryptWith (keyring_provider demo_ring) demo_env (to_bytes "c") = Ok (to_bytes "secret") ∧
  DecryptWith (keyring_provider (ring_does [RAdd "k1" demo_key2] demo_ring)) demo_env (to_bytes "c") = Err ErrDecryptFailed.
Proof. split_and!; vm_compute; reflexivity. Qed.

Lemma rotation_keeps_readable_witness :
  is_Ok (Current (ring_does rotation demo_ring)) = true ∧
  DecryptWith (keyring_provider (ring_does rotation demo_ring)) demo_env (to_bytes "c") = Ok (to_bytes "secret").
Proof.
  destruct (rotation_keeps_readable "k1" demo_key demo_ring [] rotation "k1" demo_key demo_nonce (to_bytes "secret") (to_bytes "c") demo_env eq_refl)
    as [H1 H2]. split; [exact H1|]. apply H2.
  - reflexivity.
  - reflexivity.
  - vm_compute. reflexivity.
  - repeat constructor.
Defined.

Lemma decrypt_authentic_witness :
  ∃ id key nonce, kp_ByID (keyring_provider demo_ring) id = Ok key ∧ length key = KeySize ∧ length nonce = NonceSize ∧
    parse demo_env = Ok (id, nonce ++ aead_Seal key nonce (to_bytes "secret") (to_bytes "c")).
Proof. apply (decrypt_authentic (keyring_provider demo_ring) demo_env (to_bytes "c")). vm_compute. reflexivity. Defined.
