(* ===== verification/Encryption.v ===== *)
(** * Transparent encryption (engine/encryption.go)

    The policies and the encryptor that seals a record's data before it is
    appended and opens it when it is read.  The source's encryptor points at a key
    provider that other code may rotate; here the provider's state is an argument
    ([kp]), so that a record can be sealed under one state and read under a later
    one.  [as_encryptor] is the encryptor as the collection sees it. *)

From S2P Require Import Prelude GoFloat GoTime GoJson GoBase64 Value Query Store Disk Segment Index SecIndex TopK Meta Collection Scan Crypto.

(** ** Policies *)
Definition secureDataField : string := "secure_data".

Definition validate (p : EncryptionPolicy) : result unit :=
  if bool_decide (p_Mode p = EncryptModeFields) then
    if bool_decide (p_Fields p = []) then Err ErrOther
    else if existsb (λ f, bool_decide (f = KeyField) || bool_decide (f = secureDataField))%bool (p_Fields p) then Err ErrOther
    else Ok tt
  else if bool_decide (p_Mode p = EncryptModeRecord) then
    if existsb (λ f, bool_decide (f = secureDataField)) (p_IndexFields p) then Err ErrOther else Ok tt
  else Err ErrOther.

(** ** The encryptor *)
Record Encryptor := MkEnc {
  en_collection : string;
  en_readMode : EncryptionMode;
  en_writePolicy : EncryptionPolicy;
  en_fieldSet : gset string;
  en_indexSet : gset string;
  en_epoch : N
}.

Definition toSet (fields : list string) : gset string := list_to_set fields.

Definition newEncryptor (collection : string) (mode : EncryptionMode) (pol : EncryptionPolicy) (epoch : N) : Encryptor :=
  MkEnc collection mode pol
    (if bool_decide (p_Mode pol = EncryptModeFields) then toSet (p_Fields pol) else ∅)
    (if bool_decide (p_Mode pol = EncryptModeRecord) then toSet (p_IndexFields pol) else ∅)
    epoch.

Definition enabled (e : Encryptor) : bool := negb (bool_decide (p_Mode (en_writePolicy e) = "")).

Definition unit_separator : string := String "031"%char "".

Definition aad (e : Encryptor) (field : string) : bytes := to_bytes (en_collection e +:+ unit_separator +:+ field).

Definition isEncryptedField (e : Encryptor) (field : string) : bool :=
  if bool_decide (p_Mode (en_writePolicy e) = EncryptModeFields) then bool_decide (field ∈ en_fieldSet e)
  else if bool_decide (p_Mode (en_writePolicy e) = EncryptModeRecord) then
    if bool_decide (field = KeyField) then false else negb (bool_decide (field ∈ en_indexSet e))
  else false.

(** ** Loops over fields *)

(** [for f, v := range l { v' := g(f, v); out[f] = v' }]; the order decides only
    which of several errors is reported. *)
Fixpoint copy_all (g : string → any → result any) (l : list (string * any)) (out : doc) : result doc :=
  match l with
  | [] => Ok out
  | (f, v) :: l => v' ← g f v; copy_all g l (<[f := v']> out)
  end.

(** The named fields that the record has. *)
Definition present (d : doc) (fields : list string) : list (string * any) :=
  omap (λ f, pair f <$> d !! f) fields.

(** ** Sealing *)
Definition reserved (v : any) : bool := match v with VStr s => HasReservedPrefix s | _ => false end.

Section encryptor.
Context `{!AEAD}.

(** [json.Marshal(v)] and the envelope under a fresh nonce. *)
Definition seal (e : Encryptor) (nonce : string → bytes) (key : bytes) (keyID field : string) (v : result json) : result any :=
  j ← v; env ← Encrypt (nonce field) key keyID (print_json j) (aad e field); Ok (VStr env).

(** The part of a record that record mode leaves in the clear. *)
Definition plain_column (e : Encryptor) (f : string) : Prop := f = KeyField ∨ f ∈ en_indexSet e.
#[global] Instance plain_column_dec e f : Decision (plain_column e f).
Proof. unfold plain_column. apply _. Defined.

Definition encrypt (kp : KeyProvider) (e : Encryptor) (nonce : string → bytes) (data : option doc) : result (option doc) :=
  let d := default ∅ data in
  if existsb reserved (map_to_list d).*2 then Err ErrReservedPrefix
  else if negb (enabled e) then Ok (Some d)
  else
    '(keyID, key) ← kp_Current kp;
    if bool_decide (p_Mode (en_writePolicy e) = EncryptModeFields) then
      Some <$> copy_all (λ f v, seal e nonce key keyID f (to_json v)) (present d (elements (en_fieldSet e))) d
    else if bool_decide (p_Mode (en_writePolicy e) = EncryptModeRecord) then
      if bool_decide (is_Some (d !! secureDataField)) then Err ErrReservedField
      else
        let out := filter (λ fv, plain_column e fv.1) d in
        let rest := filter (λ fv, ¬ plain_column e fv.1) d in
        env ← seal e nonce key keyID secureDataField (doc_to_json rest);
        Ok (Some (<[secureDataField := env]> out))
    else Ok data.

(** ** Opening *)
Definition maybeDecryptValue (kp : KeyProvider) (e : Encryptor) (field : string) (v : any) : result any :=
  match v with
  | VStr s =>
      if IsEncrypted s then
        text ← DecryptWith kp s (aad e field);
        match unmarshal_any text with Ok val => Ok val | Err _ => Err ErrDecryptFailed end
      else Ok v
  | _ => Ok v
  end.

(** A blob that is absent or not an envelope is the empty (nil) map. *)
Definition decryptBlob (kp : KeyProvider) (e : Encryptor) (blob : any) : result doc :=
  match blob with
  | VStr s =>
      if IsEncrypted s then
        text ← DecryptWith kp s (aad e secureDataField);
        match parse_json text ≫= (λ j, match doc_of_json j with Ok m => Some m | Err _ => None end) with
        | Some m => Ok (default ∅ m)
        | None => Err ErrDecryptFailed
        end
      else Ok ∅
  | _ => Ok ∅
  end.

Definition keep_key (stored : doc) (out : doc) : doc :=
  match stored !! KeyField with Some v => <[KeyField := v]> out | None => out end.

Definition materializeFields (kp : KeyProvider) (e : Encryptor) (stored : doc) (fields : list string) : result doc :=
  match fields with
  | [] => copy_all (maybeDecryptValue kp e) (map_to_list stored) ∅
  | _ => out ← copy_all (maybeDecryptValue kp e) (present stored fields) ∅; Ok (keep_key stored out)
  end.

(** The requested fields found as columns, and whether some are not. *)
Fixpoint take_columns (stored : doc) (fields : list string) (out : doc) (needBlob : bool) : doc * bool :=
  match fields with
  | [] => (out, needBlob)
  | f :: fields =>
      if bool_decide (f = KeyField) then take_columns stored fields out needBlob
      else
        match stored !! f with
        | Some v =>
            if bool_decide (f = secureDataField) then take_columns stored fields out true
            else take_columns stored fields (<[f := v]> out) needBlob
        | None => take_columns stored fields out true
        end
  end.

(** The requested fields that are still missing, from the blob. *)
Fixpoint take_blob (merged : doc) (fields : list string) (out : doc) : doc :=
  match fields with
  | [] => out
  | f :: fields =>
      if bool_decide (f = KeyField) then take_blob merged fields out
      else
        match out !! f, merged !! f with
        | None, Some v => take_blob merged fields (<[f := v]> out)
        | _, _ => take_blob merged fields out
        end
  end.

Definition blob_of (stored : doc) : any := default VNil (stored !! secureDataField).

Definition materializeRecord (kp : KeyProvider) (e : Encryptor) (stored : doc) (fields : list string) : result doc :=
  match fields with
  | [] => merged ← decryptBlob kp e (blob_of stored); Ok (merged ∪ delete secureDataField stored)
  | _ =>
      let '(out, needBlob) := take_columns stored fields ∅ false in
      let out := keep_key stored out in
      if needBlob then merged ← decryptBlob kp e (blob_of stored); Ok (take_blob merged fields out)
      else Ok out
  end.

Definition materialize (kp : KeyProvider) (e : Encryptor) (stored : option doc) (fields : list string) : result (option doc) :=
  let d := default ∅ stored in
  Some <$> (if bool_decide (en_readMode e = EncryptModeRecord) then materializeRecord kp e d fields
            else materializeFields kp e d fields).

(** ** As the collection sees it

    [nonce seed field] is the random nonce drawn for a field in the write that
    drew the seed. *)
Definition as_encryptor (kp : KeyProvider) (nonce : N → string → bytes) (e : Encryptor) : encryptor :=
  MkEncryptor (en_epoch e) (λ seed data, encrypt kp e (nonce seed) data)
    (λ stored fields, materialize kp e stored fields) (isEncryptedField e).
End encryptor.
