(* ===== verification/EncryptionSpec.v ===== *)
(** * Encryption: what is stored and what is read back

    Sealing changes exactly the fields the policy names (or all but the index
    fields) and reading restores them, under any later write policy and any key
    provider that still resolves the sealing key; projection reads decrypt only
    what they return; filters that pass the planner's check see the same values in
    the stored form as in the clear. *)

From S2P Require Import Prelude GoFloat GoTime GoJson GoBase64 Value Query Store Disk Segment Index SecIndex TopK Meta Collection Scan Open Compactor Crypto Encryption.

(** ** Loops over fields *)
Section copy.
Context (g : string → any → result any) (m : doc).

Lemma copy_all_Ok l out :
  (∀ f v, (f, v) ∈ l → is_Ok (g f v) = true) → ∃ out', copy_all g l out = Ok out'.
Proof.
  revert out. induction l as [|[f v] l IH]; intros out H; [by eexists|]. cbn.
  assert (is_Ok (g f v) = true) as Hg by (apply H, elem_of_cons; by left). destruct (g f v) as [v'|]; [|done]. cbn.
  apply IH. intros. apply H. apply elem_of_cons. by right.
Qed.

Lemma copy_all_each l out out' f v : copy_all g l out = Ok out' → (f, v) ∈ l → ∃ v', g f v = Ok v'.
Proof.
  revert out. induction l as [|[f' w] l IH]; intros out Hrun Hin; [by apply not_elem_of_nil in Hin|]. cbn in Hrun.
  apply result_bind_Ok in Hrun as (w' & Hw & Hrun). apply elem_of_cons in Hin as [[= -> ->]|Hin]; [by eexists|by eapply IH].
Qed.

(** What the loop assigns, when every pair it visits is of [m]. *)
Lemma copy_all_lookup l out out' :
  (∀ f v, (f, v) ∈ l → m !! f = Some v) → copy_all g l out = Ok out' →
  ∀ f, out' !! f = if decide (f ∈ l.*1) then m !! f ≫= (λ v, match g f v with Ok v' => Some v' | Err _ => None end) else out !! f.
Proof.
  revert out. induction l as [|[f' v] l IH]; intros out Hl; cbn.
  { by intros [= <-] f. }
  intros (v' & Hg & Hrun)%result_bind_Ok f. rewrite (IH (<[f' := v']> out)); [|intros; apply Hl, elem_of_cons; by right|done].
  assert (m !! f' = Some v) as Hm by (apply Hl, elem_of_cons; by left).
  destruct (decide (f ∈ l.*1)) as [Hin|Hin].
  - rewrite decide_True; [done|]. apply elem_of_cons. by right.
  - destruct (decide (f = f')) as [->|Hne].
    + rewrite decide_True by (apply elem_of_cons; by left). by rewrite lookup_insert_eq, Hm; cbn; rewrite Hg.
    + rewrite decide_False by (rewrite elem_of_cons; naive_solver). by rewrite lookup_insert_ne.
Qed.
End copy.

Lemma present_sound d fields f v : (f, v) ∈ present d fields → d !! f = Some v ∧ f ∈ fields.
Proof.
  unfold present. intros (f' & Hin & Hf)%list_elem_of_omap. apply fmap_Some in Hf as (v' & Hv & [= -> ->]). done.
Qed.

Lemma present_names d fields f : f ∈ (present d fields).*1 ↔ is_Some (d !! f) ∧ f ∈ fields.
Proof.
  rewrite list_elem_of_fmap. split.
  - intros ([f' v] & -> & [Hv Hin]%present_sound). cbn. split; [by eexists|done].
  - intros [[v Hv] Hin]. exists (f, v). split; [done|]. apply list_elem_of_omap. exists f. by rewrite Hv.
Qed.

Lemma map_to_list_names (d : doc) f : f ∈ (map_to_list d).*1 ↔ is_Some (d !! f).
Proof.
  rewrite list_elem_of_fmap. split.
  - intros ([f' v] & -> & Hin%elem_of_map_to_list). by eexists.
  - intros [v Hv]. exists (f, v). split; [done|]. by apply elem_of_map_to_list.
Qed.

(** ** Projection *)
Definition projected (d : doc) (fields : list string) : doc := filter (λ fv, fv.1 ∈ fields ∨ fv.1 = KeyField) d.

Lemma projected_lookup d fields f : projected d fields !! f = if decide (f ∈ fields ∨ f = KeyField) then d !! f else None.
Proof.
  unfold projected. destruct (decide (f ∈ fields ∨ f = KeyField)) as [H|H].
  - destruct (d !! f) eqn:E; [by apply map_lookup_filter_Some_2|apply map_lookup_filter_None_2; by left].
  - apply map_lookup_filter_None_2. right. by intros v _.
Qed.

Lemma ProjectData_projected d fields : fields ≠ [] → ProjectData (Some d) fields = Some (projected d fields).
Proof.
  intros Hne. unfold ProjectData. destruct fields as [|f0 fields]; [done|]. set (fs := f0 :: fields). f_equal.
  set (copy := λ (out : doc) f, match data_field (Some d) f with Some v => <[f := v]> out | None => out end).
  assert (∀ f l out, foldl copy out l !! f = if decide (f ∈ l) then union (d !! f) (out !! f) else out !! f) as Hcopy.
  { intros f l. induction l as [|f' l IH]; intros out; [done|]. cbn [foldl]. rewrite IH. unfold copy, data_field. cbn [mbind option_bind].
    destruct (decide (f = f')) as [<-|Hff].
    - rewrite (decide_True (P := f ∈ f :: l)) by (apply elem_of_cons; by left).
      destruct (d !! f) as [v|]; [rewrite lookup_insert_eq|]; by destruct (decide _), (out !! f).
    - assert (match d !! f' with Some v => <[f' := v]> out | None => out end !! f = out !! f) as ->
        by (destruct (d !! f'); [by rewrite lookup_insert_ne|done]).
      destruct (decide (f ∈ l)) as [Hin|Hin];
        [rewrite decide_True by (apply elem_of_cons; by right)|rewrite decide_False by (rewrite elem_of_cons; naive_solver)]; done. }
  apply map_eq. intros f. rewrite projected_lookup.
  transitivity (foldl copy ∅ (fs ++ [KeyField]) !! f); [by rewrite foldl_app|]. rewrite Hcopy, lookup_empty.
  destruct (decide (f ∈ fs ++ [KeyField])) as [Hin|Hin]; rewrite elem_of_app, list_elem_of_singleton in Hin.
  - rewrite decide_True by done. by destruct (d !! f).
  - by rewrite decide_False.
Qed.

(** ** Sealing and opening one value *)
Section spec.
Context {CI : AEAD} {CL : AEADLaws}.
Context (kp kp' : KeyProvider) (nonce : string → bytes) (Hnonce : ∀ f, length (nonce f) = NonceSize).
(** The reading side still resolves the key the writer sealed with. *)
Definition resolves (kp kp' : KeyProvider) : Prop := ∀ id key, kp_Current kp = Ok (id, key) → kp_ByID kp' id = Ok key.
Context (Hkeys : resolves kp kp').
(** The writing and the reading encryptor of one collection. *)
Context (e e' : Encryptor) (Hname : en_collection e' = en_collection e).

Lemma reserved_IsEncrypted s : HasReservedPrefix s = false → IsEncrypted s = false.
Proof using Type.
  unfold HasReservedPrefix, IsEncrypted. intros H. apply not_true_iff_false. intros [r Hr]%is_prefix_split.
  apply not_true_iff_false in H. apply H. rewrite Hr, <-app_assoc. apply is_prefix_app.
Qed.

Lemma aad_eq f : aad e' f = aad e f.
Proof using Hname. unfold aad. by rewrite Hname. Qed.

Lemma seal_Ok key id f j v :
  kp_Current kp = Ok (id, key) → seal e nonce key id f (Ok j) = Ok v →
  ∃ env, v = VStr env ∧ IsEncrypted env = true ∧ DecryptWith kp' env (aad e' f) = Ok (print_json j).
Proof using Hkeys Hname Hnonce CL.
  intros Hc. unfold seal. cbn [mbind result_bind]. intros (env & Henc & [= <-])%result_bind_Ok. exists env. split; [done|].
  rewrite aad_eq. split; [|by eapply DecryptWith_Encrypt; [apply Hnonce|..|by apply Hkeys]].
  apply Encrypt_Ok in Henc as (_ & _ & ->). apply IsEncrypted_envelope.
Qed.

(** A sealed field opens to its value after the trip through JSON. *)
Lemma open_sealed_field key id f v v' :
  kp_Current kp = Ok (id, key) → wf_any v = true → seal e nonce key id f (to_json v) = Ok v' →
  maybeDecryptValue kp' e' f v' = Ok (norm v) ∧ norm v' = v'.
Proof using Hkeys Hname Hnonce CL.
  intros Hc Hwf Hs. destruct (to_json_roundtrip v Hwf) as (j & Hj & Hjwf & Hjo). rewrite Hj in Hs.
  destruct (seal_Ok _ _ _ _ _ Hc Hs) as (env & -> & He & Hd). split; [|done]. unfold maybeDecryptValue. rewrite He, Hd. cbn.
  unfold unmarshal_any. by rewrite parse_print_json, Hjo.
Qed.

Lemma open_plain f v : reserved v = false → maybeDecryptValue kp' e' f (norm v) = Ok (norm v).
Proof using Type. destruct v; try done. cbn [reserved norm maybeDecryptValue]. intros H. by rewrite reserved_IsEncrypted. Qed.

Lemma open_blob key id rest v' :
  kp_Current kp = Ok (id, key) → wf_doc rest → seal e nonce key id secureDataField (doc_to_json rest) = Ok v' →
  decryptBlob kp' e' v' = Ok (norm_doc rest) ∧ norm v' = v'.
Proof using Hkeys Hname Hnonce CL.
  intros Hc Hwf Hs. destruct (doc_to_json_roundtrip rest Hwf) as (j & Hj & Hjwf & Hjo). rewrite Hj in Hs.
  destruct (seal_Ok _ _ _ _ _ Hc Hs) as (env & -> & He & Hd). split; [|done]. unfold decryptBlob. rewrite He, Hd.
  cbn [mbind result_bind]. rewrite parse_print_json by done. cbn [mbind option_bind]. by rewrite Hjo.
Qed.

(** ** The stored form *)

(** What reading a stored record gives, field by field. *)
Lemma reserved_fields (d : doc) f v : existsb reserved (map_to_list d).*2 = false → d !! f = Some v → reserved v = false.
Proof using Type.
  intros H Hv. apply not_true_iff_false. intros Hr. apply not_true_iff_false in H. apply H. apply existsb_exists.
  exists v. split; [|done]. apply list_elem_of_In, list_elem_of_fmap. exists (f, v). split; [done|]. by apply elem_of_map_to_list.
Qed.

Lemma materialize_fields_full (st d : doc) :
  (∀ f, match d !! f with
        | Some v => ∃ v', st !! f = Some v' ∧ maybeDecryptValue kp' e' f v' = Ok v
        | None => st !! f = None
        end) →
  materializeFields kp' e' st [] = Ok d.
Proof using Type.
  intros H. unfold materializeFields. destruct (copy_all_Ok (maybeDecryptValue kp' e') (map_to_list st) ∅) as [out Hout].
  { intros f v Hin%elem_of_map_to_list. specialize (H f). destruct (d !! f); [|congruence].
    destruct H as (v' & Hv' & Hm). simplify_eq. by rewrite Hm. }
  rewrite Hout. f_equal. apply map_eq. intros f.
  rewrite (copy_all_lookup _ st _ _ _ (λ f v, proj1 (elem_of_map_to_list st f v)) Hout f). specialize (H f).
  destruct (d !! f) as [v|].
  - destruct H as (v' & Hv' & Hm). rewrite decide_True by (apply map_to_list_names; by eexists). by rewrite Hv'; cbn; rewrite Hm.
  - rewrite decide_False; [done|]. rewrite map_to_list_names, H. by intros [].
Qed.

Lemma materialize_fields_some (st d : doc) fields :
  fields ≠ [] → st !! KeyField = d !! KeyField →
  (∀ f, f ∈ fields → match d !! f with
        | Some v => ∃ v', st !! f = Some v' ∧ maybeDecryptValue kp' e' f v' = Ok v
        | None => st !! f = None
        end) →
  materializeFields kp' e' st fields = Ok (projected d fields).
Proof using Type.
  intros Hne Hk H. unfold materializeFields. destruct fields as [|f0 fields]; [done|]. clear Hne. set (fs := f0 :: fields) in *.
  destruct (copy_all_Ok (maybeDecryptValue kp' e') (present st fs) ∅) as [out Hout].
  { intros f v [Hv Hin]%present_sound. specialize (H f Hin). destruct (d !! f); [|congruence].
    destruct H as (v' & Hv' & Hm). simplify_eq. by rewrite Hm. }
  rewrite Hout. cbn [mbind result_bind]. f_equal. apply map_eq. intros f. rewrite projected_lookup.
  pose proof (copy_all_lookup _ st _ _ _ (λ f v Hin, proj1 (present_sound st fs f v Hin)) Hout) as Hl.
  assert (keep_key st out !! f = if decide (f = KeyField) then union (d !! f) (out !! f) else out !! f) as ->.
  { unfold keep_key. rewrite Hk. destruct (decide (f = KeyField)) as [->|Hf].
    - destruct (d !! KeyField); [rewrite lookup_insert_eq|]; by destruct (out !! KeyField).
    - destruct (d !! KeyField); [by rewrite lookup_insert_ne|done]. }
  assert (f ∉ fs → out !! f = None) as Hno.
  { intros Hf. rewrite Hl, decide_False; [done|]. rewrite present_names. naive_solver. }
  assert (f ∈ fs → out !! f = d !! f) as Hyes.
  { intros Hf. rewrite Hl. specialize (H f Hf). destruct (d !! f) as [v|].
    - destruct H as (v' & Hv' & Hm). rewrite decide_True by (apply present_names; split; [by eexists|done]). by rewrite Hv'; cbn; rewrite Hm.
    - rewrite decide_False; [done|]. rewrite present_names, H. by intros [[] _]. }
  destruct (decide (f ∈ fs)) as [Hf|Hf].
  - rewrite Hyes by done. rewrite (decide_True (P := f ∈ fs ∨ f = KeyField)) by auto.
    destruct (decide (f = KeyField)); [|done]. by destruct (d !! f).
  - rewrite Hno by done. destruct (decide (f = KeyField)) as [Hf'|Hf'].
    + rewrite (decide_True (P := f ∈ fs ∨ f = KeyField)) by auto. by destruct (d !! f).
    + rewrite (decide_False (P := f ∈ fs ∨ f = KeyField)); [done|]. by intros [?|?].
Qed.

(** ** Records with a sealed blob *)
Lemma take_columns_spec st fields out nb :
  let r := take_columns st fields out nb in
  (∀ f, r.1 !! f = if decide (f ∈ fields ∧ f ≠ KeyField ∧ f ≠ secureDataField) then union (st !! f) (out !! f) else out !! f) ∧
  (r.2 = false → ∀ f, f ∈ fields → f ≠ KeyField → is_Some (st !! f) ∧ f ≠ secureDataField) ∧
  (nb = false → (∀ f, f ∈ fields → f ≠ KeyField → is_Some (st !! f) ∧ f ≠ secureDataField) → r.2 = false).
Proof using Type.
  cbv zeta. revert out nb. induction fields as [|f' fields IH]; intros out nb.
  { split_and!; [|by intros _ f ?%not_elem_of_nil|done]. intros f. rewrite decide_False; [done|]. by intros [?%not_elem_of_nil _]. }
  assert (∀ f, f ∈ fields → f ∈ f' :: fields) as Hright by (intros; apply elem_of_cons; by right).
  assert (f' ∈ f' :: fields) as Hleft by (apply elem_of_cons; by left).
  assert (∀ (f : string) (l : list string) (P : Prop), f ≠ f' → f ∈ f' :: l ∧ P ↔ f ∈ l ∧ P) as Hskip
    by (intros f l P Hne; rewrite elem_of_cons; naive_solver).
  assert (∀ l o, (take_columns st l o true).2 = true) as Htrue.
  { intros l. induction l as [|g l IHl]; intros o; cbn; [done|]. repeat case_match; apply IHl. }
  cbn [take_columns]. case_bool_decide as Hkey.
  - destruct (IH out nb) as (H1 & H2 & H3). split_and!.
    + intros f. rewrite H1. apply decide_ext. rewrite elem_of_cons. naive_solver.
    + intros Hr f [->|Hin]%elem_of_cons Hf; [done|]. by apply H2.
    + intros Hnb Hall. apply H3; [done|]. intros f Hin. by apply Hall, Hright.
  - destruct (st !! f') as [v|] eqn:Hv; [case_bool_decide as Hsec|].
    + destruct (IH out true) as (H1 & H2 & H3). split_and!.
      * intros f. rewrite H1. apply decide_ext. rewrite elem_of_cons. naive_solver.
      * intros Hr. by rewrite Htrue in Hr.
      * intros _ Hall. by destruct (Hall f' Hleft Hkey).
    + destruct (IH (<[f' := v]> out) nb) as (H1 & H2 & H3). split_and!.
      * intros f. rewrite H1. destruct (decide (f = f')) as [->|Hne].
        { rewrite (decide_True (P := f' ∈ f' :: fields ∧ _)) by (split; [apply elem_of_cons; by left|done]).
          rewrite Hv, lookup_insert_eq. by destruct (decide _), (out !! f'). }
        rewrite lookup_insert_ne by done. apply decide_ext. symmetry. by apply Hskip.
      * intros Hr f [->|Hin]%elem_of_cons Hf; [split; [by eexists|done]|]. by apply H2.
      * intros Hnb Hall. apply H3; [done|]. intros f Hin. by apply Hall, Hright.
    + destruct (IH out true) as (H1 & H2 & H3). split_and!.
      * intros f. rewrite H1. destruct (decide (f = f')) as [->|Hne].
        { rewrite Hv. by destruct (decide _), (decide _), (out !! f'). }
        apply decide_ext. symmetry. by apply Hskip.
      * intros Hr. by rewrite Htrue in Hr.
      * intros _ Hall. destruct (Hall f' Hleft Hkey) as [[? Hx] _]. by rewrite Hv in Hx.
Qed.

Lemma take_blob_spec merged fields out f :
  take_blob merged fields out !! f = if decide (f ∈ fields ∧ f ≠ KeyField) then union (out !! f) (merged !! f) else out !! f.
Proof using Type.
  revert out. induction fields as [|f' fields IH]; intros out.
  { rewrite decide_False; [done|]. by intros [?%not_elem_of_nil _]. }
  cbn [take_blob]. case_bool_decide as Hkey.
  { rewrite IH. apply decide_ext. rewrite elem_of_cons. naive_solver. }
  assert (match out !! f', merged !! f' with
    | None, Some v => take_blob merged fields (<[f' := v]> out)
    | _, _ => take_blob merged fields out
    end = take_blob merged fields (match out !! f', merged !! f' with None, Some v => <[f' := v]> out | _, _ => out end)) as ->
    by (by destruct (out !! f'), (merged !! f')).
  rewrite IH. destruct (decide (f = f')) as [->|Hne].
  - rewrite (decide_True (P := f' ∈ f' :: fields ∧ _)) by (split; [apply elem_of_cons; by left|done]).
    destruct (out !! f') as [x|] eqn:Ho, (merged !! f') as [y|]; rewrite ?lookup_insert_eq, ?Ho; by destruct (decide _).
  - assert (match out !! f', merged !! f' with None, Some v => <[f' := v]> out | _, _ => out end !! f = out !! f) as ->
      by (destruct (out !! f'), (merged !! f'); rewrite ?lookup_insert_ne by done; done).
    apply decide_ext. rewrite elem_of_cons. naive_solver.
Qed.

(** ** A stored record and the record it stands for *)
Definition stores_fields (st d : doc) : Prop :=
  st !! KeyField = d !! KeyField ∧
  ∀ f, match d !! f with
       | Some v => ∃ v', st !! f = Some v' ∧ maybeDecryptValue kp' e' f v' = Ok v
       | None => st !! f = None
       end.

Definition stores_record (st d : doc) : Prop :=
  ∃ rest, decryptBlob kp' e' (blob_of st) = Ok rest ∧ d = rest ∪ delete secureDataField st ∧
    rest ##ₘ delete secureDataField st ∧ rest !! KeyField = None ∧ rest !! secureDataField = None.

Definition stores (st d : doc) : Prop :=
  if bool_decide (en_readMode e' = EncryptModeRecord) then stores_record st d else stores_fields st d.

Lemma materialize_record_some st d fields :
  fields ≠ [] → stores_record st d → materializeRecord kp' e' st fields = Ok (projected d fields).
Proof using Type.
  intros Hne (rest & Hb & -> & Hdisj & Hk & Hs). unfold materializeRecord. destruct fields as [|f0 fields]; [done|]. clear Hne.
  set (fs := f0 :: fields) in *. pose proof (take_columns_spec st fs ∅ false) as (H1 & H2 & _).
  destruct (take_columns st fs ∅ false) as [out nb]. cbn [fst snd] in H1, H2.
  assert (∀ f, out !! f = if decide (f ∈ fs ∧ f ≠ KeyField ∧ f ≠ secureDataField) then st !! f else None) as Hout.
  { intros f. rewrite H1, lookup_empty. destruct (decide _); [by destruct (st !! f)|done]. }
  assert (∀ f, keep_key st out !! f = if decide (f = KeyField) then st !! f else out !! f) as Hkeep.
  { intros f. unfold keep_key. destruct (decide (f = KeyField)) as [->|Hf].
    - destruct (st !! KeyField) eqn:E; [by rewrite lookup_insert_eq|]. rewrite Hout, decide_False; [done|]. naive_solver.
    - destruct (st !! KeyField); [by rewrite lookup_insert_ne|done]. }
  assert (∀ f, (rest ∪ delete secureDataField st) !! f =
    if decide (f = secureDataField) then None else union (rest !! f) (st !! f)) as Hd.
  { intros f. rewrite lookup_union. destruct (decide (f = secureDataField)) as [->|Hf].
    - by rewrite Hs, lookup_delete_eq.
    - by rewrite lookup_delete_ne. }
  assert (∀ f v, rest !! f = Some v → f ≠ secureDataField → st !! f = None) as Hdj.
  { intros f v Hv Hf. rewrite map_disjoint_spec in Hdisj. destruct (st !! f) as [w|] eqn:E; [|done].
    exfalso. apply (Hdisj f v w); [done|]. by rewrite lookup_delete_ne. }
  assert (KeyField ≠ secureDataField) as Hks by discriminate.
  destruct nb; [rewrite Hb; cbn [mbind result_bind]|]; f_equal; apply map_eq; intros f; rewrite projected_lookup, Hd.
  - rewrite take_blob_spec, Hkeep, Hout. destruct (decide (f = KeyField)) as [->|Hf].
    + rewrite decide_False by naive_solver. rewrite decide_True, decide_False by auto. rewrite Hk. by destruct (st !! KeyField).
    + destruct (decide (f ∈ fs)) as [Hin|Hin].
      * rewrite (decide_True (P := f ∈ fs ∧ f ≠ KeyField)), (decide_True (P := f ∈ fs ∨ f = KeyField)) by auto.
        destruct (decide (f = secureDataField)) as [->|Hf'].
        { rewrite decide_False by naive_solver. by rewrite Hs. }
        rewrite decide_True by auto. destruct (rest !! f) as [v|] eqn:Hr; [|by destruct (st !! f)].
        by rewrite (Hdj f v Hr Hf').
      * rewrite !decide_False by naive_solver. done.
  - rewrite Hkeep, Hout. destruct (decide (f = KeyField)) as [->|Hf].
    + rewrite decide_True, decide_False by auto. rewrite Hk. by destruct (st !! KeyField).
    + destruct (decide (f ∈ fs)) as [Hin|Hin].
      * destruct (H2 eq_refl f Hin Hf) as [[v Hv] Hsec].
        rewrite decide_True, decide_True, decide_False by auto. rewrite Hv.
        destruct (rest !! f) as [x|] eqn:Hr; [|done]. by rewrite (Hdj f x Hr Hsec) in Hv.
      * rewrite !decide_False by naive_solver. done.
Qed.

(** Reading a stored record, in whole or in part. *)
Lemma stores_materialize st d fields :
  stores st d → materialize kp' e' (Some st) fields = Ok (ProjectData (Some d) fields).
Proof using Type.
  unfold stores, materialize. change (default ∅ (Some st)) with st. cbv zeta.
  destruct (decide (fields = [])) as [->|Hne]; [|rewrite ProjectData_projected by done];
    case_bool_decide as Hm; intros Hst.
  - destruct Hst as (rest & Hb & -> & _). unfold materializeRecord. by rewrite Hb.
  - destruct Hst as [_ Hst]. by rewrite (materialize_fields_full st d).
  - by rewrite (materialize_record_some st d).
  - destruct Hst as [Hk Hst]. rewrite (materialize_fields_some st d); [done..|]. intros f _. apply Hst.
Qed.

(** ** What a write stores *)
Lemma norm_doc_lookup (d : doc) f : norm_doc d !! f = norm <$> d !! f.
Proof using Type. apply lookup_fmap. Qed.

Lemma wf_doc_any (d : doc) f v : wf_doc d → d !! f = Some v → wf_any v = true.
Proof using Type. intros Hd Hv. specialize (Hd f v Hv). unfold wf_field in Hd. by bools. Qed.

Lemma wf_doc_filter (P : string * any → Prop) `{!∀ x, Decision (P x)} d : wf_doc d → wf_doc (filter P d).
Proof using Type. intros Hd f v [Hv _]%map_lookup_filter_Some. by apply Hd. Qed.

Lemma plain_stores d :
  existsb reserved (map_to_list d).*2 = false → (en_readMode e' = EncryptModeRecord → d !! secureDataField = None) →
  stores (norm_doc d) (norm_doc d).
Proof using Type.
  intros Hres Hsec. unfold stores. case_bool_decide as Hm.
  - specialize (Hsec Hm). exists ∅. unfold blob_of. rewrite norm_doc_lookup, Hsec. split_and!; [done|..]; try done.
    + by rewrite map_empty_union, delete_id by (by rewrite norm_doc_lookup, Hsec).
    + apply map_disjoint_empty_l.
  - split; [done|]. intros f. rewrite norm_doc_lookup. destruct (d !! f) as [v|] eqn:Hv; [|done]. cbn. exists (norm v).
    split; [done|]. apply open_plain. by eapply reserved_fields.
Qed.

Lemma sealed_fields_stores key id d st :
  kp_Current kp = Ok (id, key) → en_readMode e' ≠ EncryptModeRecord → KeyField ∉ en_fieldSet e → wf_doc d →
  existsb reserved (map_to_list d).*2 = false →
  copy_all (λ f v, seal e nonce key id f (to_json v)) (present d (elements (en_fieldSet e))) d = Ok st →
  stores (norm_doc st) (norm_doc d).
Proof using Hkeys Hname Hnonce CL.
  intros Hc Hm Hkey Hwf Hres Hrun. unfold stores. rewrite bool_decide_false by done.
  pose proof (copy_all_lookup _ d _ _ _ (λ f v Hin, proj1 (present_sound d _ f v Hin)) Hrun) as Hl.
  assert (∀ f, f ∈ (present d (elements (en_fieldSet e))).*1 ↔ is_Some (d !! f) ∧ f ∈ en_fieldSet e) as Hin.
  { intros f. by rewrite present_names, elem_of_elements. }
  split.
  - rewrite !norm_doc_lookup, Hl. rewrite decide_False; [done|]. rewrite Hin. naive_solver.
  - intros f. rewrite !norm_doc_lookup, Hl. destruct (d !! f) as [v|] eqn:Hv; cbn.
    + destruct (decide _) as [Hf|Hf].
      * assert (∃ v', seal e nonce key id f (to_json v) = Ok v') as [v' Hs].
        { apply (copy_all_each _ _ _ _ f v Hrun). apply list_elem_of_omap. exists f. rewrite Hv. split; [|done].
          apply elem_of_elements. by apply Hin. }
        rewrite Hs. cbn. destruct (open_sealed_field key id f v v' Hc (wf_doc_any _ _ _ Hwf Hv) Hs) as [Ho ->]. by exists v'.
      * exists (norm v). split; [done|]. apply open_plain. by eapply reserved_fields.
    + rewrite decide_False; [done|]. rewrite Hin, Hv. by intros [[] _].
Qed.

Lemma sealed_record_stores key id d v' :
  kp_Current kp = Ok (id, key) → en_readMode e' = EncryptModeRecord → secureDataField ∉ en_indexSet e → wf_doc d →
  d !! secureDataField = None →
  seal e nonce key id secureDataField (doc_to_json (filter (λ fv, ¬ plain_column e fv.1) d)) = Ok v' →
  stores (norm_doc (<[secureDataField := v']> (filter (λ fv, plain_column e fv.1) d))) (norm_doc d).
Proof using Hkeys Hname Hnonce CL.
  intros Hc Hm Hidx Hwf Hsec Hs. unfold stores. rewrite bool_decide_true by done.
  set (rest := filter (λ fv, ¬ plain_column e fv.1) d) in *. set (cols := filter (λ fv, plain_column e fv.1) d).
  destruct (open_blob key id rest v' Hc) as [Hb Hv']; [by apply wf_doc_filter|done|].
  assert (cols !! secureDataField = None) as Hcs by (apply map_lookup_filter_None_2; by left).
  assert (delete secureDataField (norm_doc (<[secureDataField := v']> cols)) = norm_doc cols) as Hdel.
  { unfold norm_doc. rewrite fmap_insert, delete_insert_id; [done|]. by rewrite lookup_fmap, Hcs. }
  exists (norm_doc rest). unfold blob_of. rewrite norm_doc_lookup, lookup_insert_eq. cbn [fmap option_fmap option_map default from_option].
  rewrite Hv'. split_and!; [done|..]; rewrite ?Hdel.
  - unfold norm_doc. rewrite <-map_fmap_union. f_equal. unfold rest, cols.
    by rewrite map_union_comm, map_filter_union_complement by (symmetry; apply map_disjoint_filter_complement).
  - apply map_disjoint_fmap. symmetry. apply map_disjoint_filter_complement.
  - rewrite norm_doc_lookup. unfold rest. rewrite map_lookup_filter_None_2; [done|]. right. intros x _ Hx. apply Hx. by left.
  - rewrite norm_doc_lookup. unfold rest. rewrite map_lookup_filter_None_2; [done|]. by left.
Qed.

(** The writer seals in the mode in which the collection is read, with a valid
    policy, or not at all. *)
Definition writes_in (mode : string) (e : Encryptor) : Prop :=
  ∃ name pol epoch, e = newEncryptor name mode pol epoch ∧
    (p_Mode pol = "" ∨ (validate pol = Ok tt ∧ p_Mode pol = mode)).

Lemma validate_fields pol : validate pol = Ok tt → p_Mode pol = EncryptModeFields → KeyField ∉ toSet (p_Fields pol).
Proof using Type.
  unfold validate. intros Hv Hm. rewrite bool_decide_true in Hv by done. case_bool_decide; [done|].
  destruct (existsb _ (p_Fields pol)) eqn:E; [done|]. unfold toSet. rewrite elem_of_list_to_set. intros Hin.
  apply not_true_iff_false in E. apply E. apply existsb_exists. exists KeyField. split; [by apply list_elem_of_In|done].
Qed.

Lemma validate_record pol : validate pol = Ok tt → p_Mode pol = EncryptModeRecord → secureDataField ∉ toSet (p_IndexFields pol).
Proof using Type.
  unfold validate. intros Hv Hm. rewrite Hm in Hv. rewrite bool_decide_false, bool_decide_true in Hv by done.
  destruct (existsb _ (p_IndexFields pol)) eqn:E; [done|]. unfold toSet. rewrite elem_of_list_to_set. intros Hin.
  apply not_true_iff_false in E. apply E. apply existsb_exists. exists secureDataField. split; [by apply list_elem_of_In|done].
Qed.

Lemma validate_mode pol : validate pol = Ok tt → p_Mode pol = EncryptModeFields ∨ p_Mode pol = EncryptModeRecord.
Proof using Type. unfold validate. case_bool_decide; [by left|]. case_bool_decide; [by right|done]. Qed.

(** The three successful outcomes of a write. *)
Lemma encrypt_cases data stored :
  let d := default ∅ data in
  writes_in (en_readMode e) e → encrypt kp e nonce data = Ok stored →
  existsb reserved (map_to_list d).*2 = false ∧
  ((enabled e = false ∧ stored = Some d) ∨
   (∃ id key st, kp_Current kp = Ok (id, key) ∧ en_readMode e = EncryptModeFields ∧
      p_Mode (en_writePolicy e) = EncryptModeFields ∧ (KeyField ∉ en_fieldSet e) ∧ stored = Some st ∧
      copy_all (λ f v, seal e nonce key id f (to_json v)) (present d (elements (en_fieldSet e))) d = Ok st) ∨
   (∃ id key v', kp_Current kp = Ok (id, key) ∧ en_readMode e = EncryptModeRecord ∧
      p_Mode (en_writePolicy e) = EncryptModeRecord ∧ (secureDataField ∉ en_indexSet e) ∧ d !! secureDataField = None ∧
      seal e nonce key id secureDataField (doc_to_json (filter (λ fv, ¬ plain_column e fv.1) d)) = Ok v' ∧
      stored = Some (<[secureDataField := v']> (filter (λ fv, plain_column e fv.1) d)))).
Proof using Type.
  cbv zeta. intros (name & pol & epoch & He & Hpol). unfold encrypt.
  destruct (existsb reserved _) eqn:Hres; [done|]. intros H. split; [done|].
  destruct (enabled e) eqn:Hen; [|left; cbn in H; by simplify_eq]. right. cbn [negb] in H.
  assert (validate pol = Ok tt ∧ p_Mode pol = en_readMode e) as [Hval Hmode].
  { destruct Hpol as [Hz|?]; [|done]. rewrite He in Hen. unfold enabled in Hen. cbn in Hen. by rewrite bool_decide_true in Hen. }
  assert (p_Mode (en_writePolicy e) = en_readMode e) as Hwm by (by rewrite He in Hmode |- *).
  apply result_bind_Ok in H as ([id key] & Hc & H). rewrite Hwm in H.
  destruct (validate_mode pol Hval) as [Hf|Hr]; rewrite Hmode in *.
  - left. rewrite bool_decide_true in H by done. unfold fmap, result_fmap in H. destruct (copy_all _ _ _) as [st|] eqn:Hrun; [|done].
    exists id, key, st. split_and!; try done; [congruence| |congruence].
    rewrite He. cbn. rewrite Hmode, bool_decide_true by done. apply validate_fields; [done|congruence].
  - right. rewrite bool_decide_false, bool_decide_true in H by (congruence || by rewrite Hr).
    case_bool_decide as Hsec; [done|]. apply result_bind_Ok in H as (v' & Hs & [= <-]).
    exists id, key, v'. split_and!; try done; [congruence| |by apply eq_None_not_Some].
    rewrite He. cbn. rewrite Hmode, bool_decide_true by done. apply validate_record; [done|congruence].
Qed.

Lemma encrypt_stores data stored :
  let d := default ∅ data in
  writes_in (en_readMode e) e → en_readMode e' = en_readMode e → wf_doc d →
  (en_readMode e = EncryptModeRecord → d !! secureDataField = None) →
  encrypt kp e nonce data = Ok stored → ∃ st, stored = Some st ∧ stores (norm_doc st) (norm_doc d).
Proof using Hkeys Hname Hnonce CL.
  cbv zeta. intros Hw Hmode Hwf Hsec Henc.
  destruct (encrypt_cases _ _ Hw Henc) as (Hres & [[_ ->]|[(id & key & st & Hc & Hm & _ & Hk & -> & Hrun)|
    (id & key & v' & Hc & Hm & _ & Hidx & Hnone & Hs & ->)]]); eexists; (split; [reflexivity|]).
  - apply plain_stores; [done|]. by rewrite Hmode.
  - eapply sealed_fields_stores; try done. by rewrite Hmode, Hm.
  - eapply sealed_record_stores; try done. by rewrite Hmode.
Qed.
End spec.

(** ** Which fields stay in the clear *)
Section visible.
Context {CI : AEAD} (kp : KeyProvider) (nonce : string → bytes) (e : Encryptor).

(** An enabled encryptor stores a field either unchanged, if the policy leaves it
    readable, or as an envelope. *)
Lemma encrypt_lookup data stored f :
  let d := default ∅ data in
  writes_in (en_readMode e) e → encrypt kp e nonce data = Ok stored →
  (isEncryptedField e f = false → default ∅ stored !! f = d !! f) ∧
  (isEncryptedField e f = true → ∀ v, default ∅ stored !! f = Some v → ∃ env, v = VStr env ∧ IsEncrypted env = true).
Proof.
  cbv zeta. intros Hw Henc.
  assert (∀ key id g j v, seal e nonce key id g j = Ok v → ∃ env, v = VStr env ∧ IsEncrypted env = true) as Hseal.
  { intros key id g j v (j' & _ & (env & (_ & _ & ->)%Encrypt_Ok & [= <-])%result_bind_Ok)%result_bind_Ok.
    eexists. split; [reflexivity|]. apply IsEncrypted_envelope. }
  unfold isEncryptedField.
  destruct (encrypt_cases kp nonce e _ _ Hw Henc) as (_ & [[Hen ->]|[(id & key & st & _ & _ & Hm & Hk & -> & Hrun)|
    (id & key & v' & _ & _ & Hm & Hidx & Hnone & Hs & ->)]]); cbn [default from_option Datatypes.id].
  - unfold enabled in Hen. apply negb_false_iff in Hen. bools. by rewrite Hen.
  - rewrite bool_decide_true by done.
    pose proof (copy_all_lookup _ (default ∅ data) _ _ _ (λ f v Hin, proj1 (present_sound _ _ f v Hin)) Hrun f) as Hl.
    split; intros Hf; bools.
    + change (st !! f = default ∅ data !! f). rewrite Hl, decide_False; [done|]. rewrite present_names, elem_of_elements. naive_solver.
    + intros v Hv. change (st !! f = Some v) in Hv. rewrite Hl in Hv. destruct (decide _) as [_|Hd].
      * destruct (default ∅ data !! f) as [w|]; [|done]. cbn in Hv. destruct (seal e nonce key id f (to_json w)) eqn:E; simplify_eq. by eapply Hseal.
      * rewrite present_names, elem_of_elements in Hd. destruct Hd. split; [by eexists|done].
  - rewrite bool_decide_false, bool_decide_true by (done || by rewrite Hm).
    destruct (decide (f = secureDataField)) as [->|Hf].
    + rewrite lookup_insert_eq. case_bool_decide; [done|]. rewrite bool_decide_false by done.
      split; [done|]. intros _ v [= <-]. by eapply Hseal.
    + rewrite lookup_insert_ne by done. split; intros Hp.
      * destruct (default ∅ data !! f) as [w|] eqn:Hd; [apply map_lookup_filter_Some_2|apply map_lookup_filter_None_2; by left]; [done|].
        unfold plain_column. cbn. repeat case_bool_decide; auto. done.
      * intros v [_ Hpl]%map_lookup_filter_Some. unfold plain_column in Hpl. cbn in Hpl.
        repeat case_bool_decide; try done. naive_solver.
Qed.
End visible.

(** The reserved key is never opaque. *)
Lemma key_plain e : writes_in (en_readMode e) e → isEncryptedField e KeyField = false.
Proof.
  intros (name & pol & epoch & -> & Hpol). unfold isEncryptedField. cbn [en_writePolicy en_fieldSet newEncryptor].
  case_bool_decide as Hm; [|by case_bool_decide]. apply bool_decide_false. apply validate_fields; [|done].
  destruct Hpol as [Hz|[? _]]; [by rewrite Hz in Hm|done].
Qed.

(** A projection to columns of the stored record does not touch its blob. *)
Lemma materialize_record_columns {CI : AEAD} kp e st fields :
  fields ≠ [] → (∀ f, f ∈ fields → f ≠ KeyField → is_Some (st !! f) ∧ f ≠ secureDataField) →
  materializeRecord kp e st fields = Ok (projected st fields).
Proof.
  intros Hne Hall. unfold materializeRecord. destruct fields as [|f0 fields]; [done|]. set (fs := f0 :: fields) in *.
  pose proof (take_columns_spec st fs ∅ false) as (H1 & _ & H3). destruct (take_columns st fs ∅ false) as [out nb].
  cbn [fst snd] in H1, H3. rewrite (H3 eq_refl Hall). f_equal. apply map_eq. intros f. rewrite projected_lookup.
  specialize (H1 f). rewrite lookup_empty in H1. unfold keep_key.
  assert (f ≠ KeyField → match st !! KeyField with Some v => <[KeyField := v]> out | None => out end !! f = out !! f) as Hk
    by (intros; destruct (st !! KeyField); [by rewrite lookup_insert_ne|done]).
  destruct (decide (f = KeyField)) as [->|Hf].
  - rewrite decide_True by auto. destruct (st !! KeyField); [by rewrite lookup_insert_eq|].
    rewrite H1, decide_False; [done|]. naive_solver.
  - rewrite Hk, H1 by done. destruct (decide (f ∈ fs)) as [Hin|Hin].
    + destruct (Hall f Hin Hf) as [[v Hv] Hs]. rewrite !decide_True by auto. by rewrite Hv.
    + rewrite !decide_False by naive_solver. done.
Qed.

Lemma projected_ext d d' fields :
  (∀ f, f ∈ fields ∨ f = KeyField → d !! f = d' !! f) → projected d fields = projected d' fields.
Proof. intros H. apply map_eq. intros f. rewrite !projected_lookup. destruct (decide _); [by apply H|done]. Qed.

(** Filters depend only on the fields they name. *)
Lemma Match_ext {RE : Regexp} enc (f : Filter) (d d' : doc) :
  (∀ g, enc_isEncryptedField enc g = false → d !! g = d' !! g) → encryptedFilterField enc f = false → Match f d = Match f d'.
Proof.
  intros Hd. revert f. fix IH 1. intros [|field op value|fs|fs]; cbn; [done|..].
  - intros H. unfold match_field. by rewrite Hd.
  - induction fs as [|f fs IHfs]; cbn; [done|]. intros [H1 H2]%orb_false_iff. by rewrite (IH f H1), IHfs.
  - induction fs as [|f fs IHfs]; cbn; [done|]. intros [H1 H2]%orb_false_iff. by rewrite (IH f H1), IHfs.
Qed.

(** ** Properties *)

(** [C27] Reading restores what was written: a record sealed under the write policy
    of [e] (or stored in the clear because sealing is off), after its trip through
    the segment's JSON, is read back by any later encryptor of the collection with
    the same reconstruction mode — whatever its write policy and epoch — and any
    key provider that still resolves the sealing key; reading some fields gives
    the projection of the record to them. *)
Theorem materialize_encrypt {CI : AEAD} {CL : AEADLaws} (kp kp' : KeyProvider) (nonces : N → string → bytes) (seed : N)
    (e e' : Encryptor) (data stored : option doc) (fields : list string) :
  (∀ f, length (nonces seed f) = NonceSize) → resolves kp kp' →
  writes_in (en_readMode e) e → en_collection e' = en_collection e → en_readMode e' = en_readMode e →
  wf_doc (default ∅ data) → (en_readMode e = EncryptModeRecord → default ∅ data !! secureDataField = None) →
  enc_encrypt (as_encryptor kp nonces e) seed data = Ok stored →
  enc_materialize (as_encryptor kp' nonces e') (norm_doc <$> stored) fields =
    Ok (ProjectData (Some (norm_doc (default ∅ data))) fields).
Proof.
  intros Hn Hk Hw Hname Hmode Hwf Hsec Henc.
  destruct (encrypt_stores kp kp' (nonces seed) Hn Hk e e' Hname data stored Hw Hmode Hwf Hsec Henc) as (st & -> & Hst).
  by apply stores_materialize.
Qed.

(** [C28] Nothing opaque is stored in the clear: in what an encryptor stores, every
    field its policy marks as opaque is absent or holds an envelope, and every
    other field is the caller's. *)
Theorem sealed_on_disk {CI : AEAD} (kp : KeyProvider) (nonces : N → string → bytes) (seed : N) (e : Encryptor)
    (data stored : option doc) (f : string) :
  writes_in (en_readMode e) e → enc_encrypt (as_encryptor kp nonces e) seed data = Ok stored →
  if enc_isEncryptedField (as_encryptor kp nonces e) f
  then ∀ v, default ∅ stored !! f = Some v → ∃ env, v = VStr env ∧ IsEncrypted env = true
  else default ∅ stored !! f = default ∅ data !! f.
Proof.
  intros Hw Henc. cbn. destruct (encrypt_lookup kp (nonces seed) e data stored f Hw Henc) as [H1 H2].
  destruct (isEncryptedField e f); [by apply H2|by apply H1].
Qed.

(** Queries on the stored form agree with queries on the record: a filter that
    passes the planner's check for opaque fields accepts the stored form exactly
    when it accepts the record. *)
Theorem filter_on_stored {CI : AEAD} {RE : Regexp} (kp : KeyProvider) (nonces : N → string → bytes) (seed : N)
    (e : Encryptor) (data stored : option doc) (f : Filter) :
  writes_in (en_readMode e) e → enc_encrypt (as_encryptor kp nonces e) seed data = Ok stored →
  checkFilterFields (as_encryptor kp nonces e) f = Ok tt →
  Match f (default ∅ stored) = Match f (default ∅ data).
Proof.
  intros Hw Henc Hc. unfold checkFilterFields in Hc. destruct (encryptedFilterField _ f) eqn:E; [done|].
  eapply Match_ext; [|exact E]. intros g Hg. by apply (encrypt_lookup kp (nonces seed) e data stored g Hw Henc).
Qed.

(** Lazy decryption: a read of fields that the policy leaves readable — in
    record mode, of fields the record has — needs no key: it returns the
    projection of the record whatever the key provider does. *)
Theorem lazy_projection {CI : AEAD} (kp kp0 : KeyProvider) (nonces : N → string → bytes) (seed : N)
    (e e' : Encryptor) (data stored : option doc) (fields : list string) :
  writes_in (en_readMode e) e → en_readMode e' = en_readMode e →
  (en_readMode e = EncryptModeRecord → default ∅ data !! secureDataField = None) →
  enc_encrypt (as_encryptor kp nonces e) seed data = Ok stored → fields ≠ [] →
  (∀ f, f ∈ fields → isEncryptedField e f = false ∧
    (en_readMode e = EncryptModeRecord → f ≠ KeyField → is_Some (default ∅ data !! f))) →
  enc_materialize (as_encryptor kp0 nonces e') (norm_doc <$> stored) fields =
    Ok (ProjectData (Some (norm_doc (default ∅ data))) fields).
Proof.
  intros Hw Hmode Hsec Henc Hne Hall. cbn in Henc. set (d := default ∅ data) in *.
  destruct (encrypt_cases kp (nonces seed) e _ _ Hw Henc) as [Hres _].
  assert (∀ f, isEncryptedField e f = false → norm_doc (default ∅ stored) !! f = norm_doc d !! f) as Hsame.
  { intros f Hf. rewrite !norm_doc_lookup. f_equal. by apply (encrypt_lookup kp (nonces seed) e data stored f Hw Henc). }
  pose proof (key_plain e Hw) as Hkey. rewrite ProjectData_projected by done. cbn.
  assert (default ∅ (norm_doc <$> stored) = norm_doc (default ∅ stored)) as Hst.
  { destruct stored; [done|]. cbn. unfold norm_doc. by rewrite fmap_empty. }
  unfold materialize. rewrite Hst, Hmode. case_bool_decide as Hm.
  - rewrite materialize_record_columns; [|done|].
    + cbn. do 2 f_equal. apply projected_ext. intros f [Hin|Hin]; apply Hsame; [by apply Hall|by subst].
    + intros f Hin Hf. destruct (Hall f Hin) as [Hp Hd]. destruct (Hd Hm Hf) as [v Hv].
      rewrite Hsame, norm_doc_lookup, Hv by done. split; [by eexists|]. intros ->. by rewrite Hsec in Hv.
  - rewrite (materialize_fields_some kp0 e' (norm_doc (default ∅ stored)) (norm_doc d)); [done|done|by apply Hsame|].
    intros f Hin. rewrite Hsame by (by apply Hall). rewrite norm_doc_lookup. destruct (d !! f) as [v|] eqn:Hv; [|done]. cbn.
    eexists. split; [done|]. apply open_plain. by eapply reserved_fields.
Qed.

Lemma wf_norm_doc (d : doc) : wf_doc d → wf_doc (norm_doc d).
Proof.
  assert (∀ v, wf_any v = true → wf_any (norm v) = true) as Hv.
  { induction v as [| b | x | z | s | l IH | m IH] using any_ind_deep; try done; cbn.
    - unfold int_exact. intros. by bools.
    - induction IH as [|v l Hv _ IHl]; cbn; [done|]. intros. bools. by rewrite Hv, IHl.
    - rewrite keys_sorted_map. intros H. bools. rewrite H. cbn. clear H. revert H0.
      induction IH as [|[k v] l Hv _ IHl]; cbn in *; [done|]. intros. bools. by rewrite H, Hv, IHl. }
  intros Hd f v. rewrite norm_doc_lookup. intros (w & Hw & ->)%fmap_Some. specialize (Hd f w Hw).
  unfold wf_field in *. cbn in *. bools. by rewrite H, Hv.
Qed.

(** Writes succeed: with a usable current key, a record JSON can carry, no value
    that looks like an envelope and no use of the reserved field. *)
Lemma encrypt_total {CI : AEAD} kp nonce e data id key :
  let d := default ∅ data in
  writes_in (en_readMode e) e → kp_Current kp = Ok (id, key) → validateKeyID id = Ok tt → length key = KeySize →
  wf_doc d → existsb reserved (map_to_list d).*2 = false → (en_readMode e = EncryptModeRecord → d !! secureDataField = None) →
  ∃ stored, encrypt kp e nonce data = Ok stored.
Proof.
  cbv zeta. intros (name & pol & epoch & He & Hpol) Hc Hid Hlen Hwf Hres Hsec.
  assert (∀ f j, ∃ v, seal e nonce key id f (Ok j) = Ok v) as Hseal.
  { intros f j. unfold seal. cbn [mbind result_bind].
    rewrite (proj2 (Encrypt_Ok (nonce f) key id (print_json j) (aad e f) _) (conj Hid (conj Hlen eq_refl))). by eexists. }
  unfold encrypt. rewrite Hres. destruct (enabled e) eqn:Hen; [|by eexists]. rewrite Hc. cbn [negb mbind result_bind].
  assert (p_Mode (en_writePolicy e) = en_readMode e) as ->.
  { rewrite He. cbn. destruct Hpol as [Hz|[_ ?]]; [|done]. rewrite He in Hen. unfold enabled in Hen. cbn in Hen.
    by rewrite bool_decide_true in Hen. }
  case_bool_decide as Hf; [|case_bool_decide as Hr; [|by eexists]].
  - destruct (copy_all_Ok (λ f v, seal e nonce key id f (to_json v)) (present (default ∅ data) (elements (en_fieldSet e))) (default ∅ data))
      as [st ->]; [|by eexists].
    intros f v [Hv _]%present_sound. destruct (to_json_roundtrip v (wf_doc_any _ _ _ Hwf Hv)) as (j & -> & _).
    by destruct (Hseal f j) as [? ->].
  - rewrite bool_decide_false by (rewrite Hsec by done; by intros []).
    destruct (doc_to_json_roundtrip (filter (λ fv, ¬ plain_column e fv.1) (default ∅ data))) as (j & -> & _);
      [by apply wf_doc_filter|]. destruct (Hseal secureDataField j) as [v ->]. by eexists.
Qed.

(** Migration: re-encrypting a stored record under a new policy or a new key
    succeeds and keeps the record: reading the result gives what reading the old
    form gave. *)
Theorem migration_preserves {CI : AEAD} {CL : AEADLaws} (kp kp' kp'' : KeyProvider) (nonces : N → string → bytes) (seed : N)
    (e e' : Encryptor) (data stored : option doc) (id : string) (key : bytes) (w : World) :
  (∀ s f, length (nonces s f) = NonceSize) → resolves kp kp' → resolves kp' kp'' →
  writes_in (en_readMode e) e → writes_in (en_readMode e') e' →
  en_collection e' = en_collection e → en_readMode e' = en_readMode e →
  kp_Current kp' = Ok (id, key) → validateKeyID id = Ok tt → length key = KeySize →
  wf_doc (default ∅ data) → (en_readMode e = EncryptModeRecord → default ∅ data !! secureDataField = None) →
  enc_encrypt (as_encryptor kp nonces e) seed data = Ok stored →
  ∃ stored' w', reencrypt (as_encryptor kp' nonces e') (norm_doc <$> stored) w = (Ok stored', w') ∧
    enc_materialize (as_encryptor kp'' nonces e') (norm_doc <$> stored') [] = Ok (Some (norm_doc (default ∅ data))) ∧
    w_files w' = w_files w.
Proof.
  intros Hn Hk1 Hk2 Hw Hw' Hname Hmode Hc Hid Hlen Hwf Hsec Henc. set (d := default ∅ data) in *.
  destruct (encrypt_stores kp kp' (nonces seed) (Hn seed) Hk1 e e' Hname data stored Hw Hmode Hwf Hsec Henc) as (st & -> & Hst).
  destruct (encrypt_cases kp (nonces seed) e _ _ Hw Henc) as [Hres _]. fold d in Hres.
  assert (existsb reserved (map_to_list (norm_doc d)).*2 = false) as Hres'.
  { apply not_true_iff_false. intros (v & Hin & Hv)%existsb_exists. apply list_elem_of_In, list_elem_of_fmap in Hin as ([f v'] & -> & Hin).
    apply elem_of_map_to_list in Hin. rewrite norm_doc_lookup in Hin. apply fmap_Some in Hin as (x & Hx & ->). cbn in Hv.
    pose proof (reserved_fields d f x Hres Hx) as Hx'. destruct x; try done. cbn in *. congruence. }
  assert (en_readMode e' = EncryptModeRecord → norm_doc d !! secureDataField = None) as Hsec'.
  { intros Hm. rewrite norm_doc_lookup, Hsec; [done|]. by rewrite <-Hmode. }
  destruct (encrypt_total kp' (nonces (w_seed w)) e' (Some (norm_doc d)) id key) as [stored' Henc'];
    [done|done|done|done|by apply wf_norm_doc|done|done|].
  exists stored', (rand_seed w).2. split_and!; [|..].
  - unfold reencrypt. erewrite bind_ok by (cbn [enc_materialize as_encryptor]; by rewrite (stores_materialize kp' e' (norm_doc st) (norm_doc d))).
    by erewrite bind_ok by reflexivity; cbn; rewrite Henc'.
  - destruct (encrypt_stores kp' kp'' (nonces (w_seed w)) (Hn _) Hk2 e' e' eq_refl (Some (norm_doc d)) stored' Hw' eq_refl) as (st' & -> & Hst');
      [by apply wf_norm_doc|done|done|]. cbn in Hst'. rewrite norm_doc_norm in Hst'. by apply (stores_materialize kp'' e' (norm_doc st') _ []).
  - done.
Qed.

(** ** Scenarios *)
Definition no_keys : KeyProvider := MkKeyProvider (Err ErrKeyUnavailable) (λ _, Err ErrKeyUnavailable).
Definition demo_nonces (seed : N) (f : string) : bytes := demo_nonce.
Definition demo_kp : KeyProvider := keyring_provider demo_ring.
Definition rotated_kp : KeyProvider := keyring_provider rotated_ring.

Definition person : doc := {["name" := VStr "ada"; "ssn" := VStr "42"]}.
Definition by_fields : Encryptor := newEncryptor "people" EncryptModeFields (MkPolicy EncryptModeFields ["ssn"] []) 1.
Definition by_record : Encryptor := newEncryptor "people" EncryptModeRecord (MkPolicy EncryptModeRecord [] ["name"]) 1.
Definition sealing_off : Encryptor := newEncryptor "people" EncryptModeRecord zero_policy 2.

Definition sealed (e : Encryptor) (d : doc) : option doc :=
  match encrypt demo_kp e (demo_nonces 0) (Some d) with Ok s => s | Err _ => None end.

(** A record written in the clear while record-mode sealing is off loses its
    [secure_data] field when it is read: the write accepts it, since the name is
    reserved only while sealing is on, and the read skips it. *)
Theorem secure_data_lost :
  let d : doc := {["name" := VStr "ada"; secureDataField := VStr "my notes"]} in
  encrypt demo_kp sealing_off (demo_nonces 0) (Some d) = Ok (Some d) ∧
  materialize demo_kp sealing_off (Some d) [] = Ok (Some {["name" := VStr "ada"]}).
Proof. split; vm_compute; reflexivity. Qed.

(** In record mode a projection to an index field that the record does not have
    decrypts the blob: without the key it fails. *)
Theorem absent_column_needs_key :
  isEncryptedField by_record "name" = false ∧
  materialize no_keys by_record (sealed by_record {["ssn" := VStr "42"]}) ["name"] = Err ErrKeyUnavailable.
Proof. split; vm_compute; reflexivity. Qed.

(** A value written before encryption was enabled may begin with the marker; once
    an encryptor is installed the record can no longer be read. *)
Theorem legacy_marker_unreadable :
  let d : doc := {["note" := VStr (of_bytes (marker ++ to_bytes ":x"))]} in
  materialize demo_kp by_fields (Some d) [] = Err ErrDecryptFailed.
Proof. vm_compute. reflexivity. Qed.

(** ** Witnesses *)
Lemma demo_resolves : resolves demo_kp demo_kp.
Proof. intros id key [= <- <-]. vm_compute. reflexivity. Qed.

Lemma rotated_resolves : resolves demo_kp rotated_kp.
Proof. intros id key [= <- <-]. vm_compute. reflexivity. Qed.

Lemma rotated_resolves_self : resolves rotated_kp rotated_kp.
Proof. intros id key H. vm_compute in H. injection H as <- <-. vm_compute. reflexivity. Qed.

Lemma by_fields_writes : writes_in EncryptModeFields by_fields.
Proof. exists "people", (MkPolicy EncryptModeFields ["ssn"] []), 1%N. split; [done|]. right. split; vm_compute; reflexivity. Qed.

Lemma by_record_writes : writes_in EncryptModeRecord by_record.
Proof. exists "people", (MkPolicy EncryptModeRecord [] ["name"]), 1%N. split; [done|]. right. split; vm_compute; reflexivity. Qed.

Lemma person_wf : wf_doc person.
Proof. apply (bool_decide_unpack (wf_doc person)). vm_compute. exact I. Qed.

Lemma materialize_encrypt_witness :
  enc_materialize (as_encryptor rotated_kp demo_nonces by_record) (norm_doc <$> sealed by_record person) ["ssn"] =
    Ok (ProjectData (Some (norm_doc person)) ["ssn"]).
Proof.
  apply (materialize_encrypt demo_kp rotated_kp demo_nonces 0 by_record by_record (Some person) (sealed by_record person) ["ssn"]).
  - reflexivity.
  - apply rotated_resolves.
  - apply by_record_writes.
  - reflexivity.
  - reflexivity.
  - apply person_wf.
  - reflexivity.
  - vm_compute. reflexivity.
Defined.

Lemma sealed_on_disk_witness :
  if enc_isEncryptedField (as_encryptor demo_kp demo_nonces by_fields) "ssn"
  then ∀ v, default ∅ (sealed by_fields person) !! "ssn" = Some v → ∃ env, v = VStr env ∧ IsEncrypted env = true
  else default ∅ (sealed by_fields person) !! "ssn" = person !! "ssn".
Proof.
  apply (sealed_on_disk demo_kp demo_nonces 0 by_fields (Some person) (sealed by_fields person) "ssn").
  - apply by_fields_writes.
  - vm_compute. reflexivity.
Defined.

Definition name_is_ada : Filter := FieldFilter "name" OpEq "ada".

Lemma filter_on_stored_witness :
  @Match (λ _ _, None) name_is_ada (default ∅ (sealed by_record person)) = @Match (λ _ _, None) name_is_ada person.
Proof.
  apply (@filter_on_stored _ (λ _ _, None) demo_kp demo_nonces 0 by_record (Some person) (sealed by_record person) name_is_ada).
  - apply by_record_writes.
  - vm_compute. reflexivity.
  - reflexivity.
Defined.

Lemma lazy_projection_witness :
  enc_materialize (as_encryptor no_keys demo_nonces by_record) (norm_doc <$> sealed by_record person) ["name"] =
    Ok (ProjectData (Some (norm_doc person)) ["name"]).
Proof.
  apply (lazy_projection demo_kp no_keys demo_nonces 0 by_record by_record (Some person) (sealed by_record person) ["name"]).
  - apply by_record_writes.
  - reflexivity.
  - reflexivity.
  - vm_compute. reflexivity.
  - discriminate.
  - intros f ->%list_elem_of_singleton. split; [reflexivity|]. intros _ _. vm_compute. by eexists.
Defined.

Definition rekeyed : Encryptor := newEncryptor "people" EncryptModeFields (MkPolicy EncryptModeFields ["name"] []) 2.

Lemma rekeyed_writes : writes_in EncryptModeFields rekeyed.
Proof. exists "people", (MkPolicy EncryptModeFields ["name"] []), 2%N. split; [done|]. right. split; vm_compute; reflexivity. Qed.

Lemma migration_preserves_witness :
  ∃ stored' w', reencrypt (as_encryptor rotated_kp demo_nonces rekeyed) (norm_doc <$> sealed by_fields person)
      (MkWorld ∅ [] zero_time 0) = (Ok stored', w') ∧
    enc_materialize (as_encryptor rotated_kp demo_nonces rekeyed) (norm_doc <$> stored') [] = Ok (Some (norm_doc person)) ∧
    w_files w' = ∅.
Proof.
  apply (migration_preserves demo_kp rotated_kp rotated_kp demo_nonces 0 by_fields rekeyed (Some person) (sealed by_fields person)
    "k2" demo_key2 (MkWorld ∅ [] zero_time 0)).
  - reflexivity.
  - apply rotated_resolves.
  - apply rotated_resolves_self.
  - apply by_fields_writes.
  - apply rekeyed_writes.
  - reflexivity.
  - reflexivity.
  - reflexivity.
  - reflexivity.
  - reflexivity.
  - apply person_wf.
  - discriminate.
  - vm_compute. reflexivity.
Defined.
