(* ===== verification/EncryptionAdmin.v ===== *)
(** * Administration of encryption (engine/encryption_admin.go, initEncryption)

    Enabling, adjusting and disabling the write policy, key rotation, the status
    report, and the initialisation when a collection is opened.  The state is the
    collection with its concrete encryptor and the present state of the key provider
    it was opened with, which the application may change ([set_provider]); the
    collection's own view of the encryptor ([c_enc]) is kept in step. *)

From S2P Require Import Prelude GoFloat GoTime GoJson GoBase64 Value Query Store Disk Segment Index SecIndex TopK Meta Collection CollectionSpec Scan Open OpenSpec Compactor Crypto Encryption EncryptionSpec.

Definition set_enc (x : option encryptor) (c : Collection) : Collection :=
  let '(MkColl a b d e f g h i j k l m _ n o p q r s) := c in MkColl a b d e f g h i j k l m x n o p q r s.
Definition set_encMeta (x : option encryptionMeta) (c : Collection) : Collection :=
  let '(MkColl a b d e f g h i j k l m n _ o p q r s) := c in MkColl a b d e f g h i j k l m n x o p q r s.

(** ** State *)
Record EncColl := MkEncColl {
  ec_coll : Collection;
  ec_enc : option Encryptor;
  ec_keyProvider : option KeyProvider
}.

Abbreviation AM := (SE (EncColl * World)).

Section admin.
Context {CI : AEAD} (nonces : N → string → bytes).

(** [c.enc.Store(e)] for an encryptor over the provider [kp]. *)
Definition install (kp : KeyProvider) (e : Encryptor) (s : EncColl) : EncColl :=
  MkEncColl (set_enc (Some (as_encryptor kp nonces e)) (ec_coll s)) (Some e) (ec_keyProvider s).

Definition with_encMeta (m : option encryptionMeta) (s : EncColl) : EncColl :=
  MkEncColl (set_encMeta m (ec_coll s)) (ec_enc s) (ec_keyProvider s).

Definition persist_snapshot (s : EncColl) : M unit :=
  persistMeta (metaPath (c_dir (ec_coll s))) (metaSnapshot (ec_coll s)).

(** The key check of a fresh nonce. *)
Definition make_key_check (key : bytes) (keyID : string) : AM string :=
  seed ← io rand_seed; lift (MakeKeyCheck (nonces seed "") key keyID).

(** ** Status *)
Record EncryptionStatusReport := MkStatus {
  st_Configured : bool;
  st_Enabled : bool;
  st_Mode : string;
  st_Epoch : N;
  st_CurrentKeyID : string;
  st_LiveRecords : nat;
  st_LiveAtEpoch : nat;
  st_FunctionalComplete : bool
}.

Definition EncryptionStatus (s : EncColl) : EncryptionStatusReport :=
  match ec_enc s with
  | None => MkStatus false false "" 0 "" 0 0 true
  | Some enc =>
      let '(total, at_) := countAtEpoch (c_index (ec_coll s)) (en_epoch enc) in
      MkStatus true (enabled enc) (en_readMode enc) (en_epoch enc)
        (match c_encMeta (ec_coll s) with Some m => em_CurrentKeyID m | None => "" end)
        total at_ (total =? at_)%nat
  end.

(** ** Changes *)
Definition changed_meta (mode : string) (pol : EncryptionPolicy) (epoch : N) (prev : option encryptionMeta)
    (override : option (string * string)) : encryptionMeta :=
  let '(kdf, check, id) :=
    match prev with
    | Some p => (em_KDF p, em_KeyCheck p, em_CurrentKeyID p)
    | None => (None, "", "")
    end in
  let '(check, id) := match override with Some ci => ci | None => (check, id) end in
  MkEncMeta pol mode epoch kdf check id.

Definition applyEncryptionChange (mode : string) (pol : EncryptionPolicy) (kp : KeyProvider) (epoch : N)
    (override : option (string * string)) : AM unit := λ '(s, w),
  let newEnc := newEncryptor (c_name (ec_coll s)) mode pol epoch in
  let prev := c_encMeta (ec_coll s) in
  let s1 := with_encMeta (Some (changed_meta mode pol epoch prev override)) s in
  match persist_snapshot s1 w with
  | (Err e, w) => (Err e, (with_encMeta prev s1, w))
  | (Ok _, w) => (Ok tt, (install kp newEnc s1, w))
  end.

(** The encryptor's provider: the one the collection was opened with. *)
Definition provider (s : EncColl) : KeyProvider := default no_keys (ec_keyProvider s).

Definition SetEncryptionPolicy (policy : option EncryptionPolicy) : AM unit :=
  s ← obj;
  match policy, ec_enc s with
  | None, None => mret tt
  | None, Some cur =>
      if negb (enabled cur) then mret tt
      else applyEncryptionChange (en_readMode cur) zero_policy (provider s) (u64_add (en_epoch cur) 1) None
  | Some pol, cur =>
      lift (validate pol);;
      match cur with
      | Some cur =>
          if negb (bool_decide (p_Mode pol = en_readMode cur)) then fail ErrOther
          else applyEncryptionChange (en_readMode cur) pol (provider s) (u64_add (en_epoch cur) 1) None
      | None =>
          match ec_keyProvider s with
          | None => fail ErrOther
          | Some kp =>
              ik ← lift (kp_Current kp);
              kc ← make_key_check ik.2 ik.1;
              applyEncryptionChange (p_Mode pol) pol kp 1 (Some (kc, ik.1))
          end
      end
  end.

Definition RotateKey : AM unit :=
  s ← obj;
  match ec_enc s with
  | None => fail ErrOther
  | Some cur =>
      ik ← lift (kp_Current (provider s));
      kc ← make_key_check ik.2 ik.1;
      applyEncryptionChange (en_readMode cur) (en_writePolicy cur) (provider s) (u64_add (en_epoch cur) 1) (Some (kc, ik.1))
  end.

(** ** Opening *)

(** Install and persist the first policy. *)
Definition enable_first (kp : KeyProvider) (pol : EncryptionPolicy) (kdf : option EncryptionKDF) (keyID kc : string) : AM unit := λ '(s, w),
  let s := install kp (newEncryptor (c_name (ec_coll s)) (p_Mode pol) pol 1)
    (with_encMeta (Some (MkEncMeta pol (p_Mode pol) 1 kdf kc keyID)) s) in
  let '(r, w) := persist_snapshot s w in (r, (s, w)).

Definition initEncryption (kp : option KeyProvider) (cfg : option EncryptionPolicy) (kdf : option EncryptionKDF) : AM unit := λ '(s, w),
  let s := MkEncColl (ec_coll s) (ec_enc s) kp in
  let '(loaded, w) := loadMeta (metaPath (c_dir (ec_coll s))) w in
  let name := c_name (ec_coll s) in
  match match loaded with Ok m => m_Encryption m | Err _ => None end, cfg with
  | Some em, _ =>
      match kp with
      | None => (Err ErrKeyUnavailable, (s, w))
      | Some p =>
          match kp_Current p with
          | Err e => (Err e, (s, w))
          | Ok (_, key) =>
              match VerifyKeyCheck key (em_KeyCheck em) with
              | Err e => (Err e, (s, w))
              | Ok _ => (Ok tt, (install p (newEncryptor name (readMode em) (em_Policy em) (em_Epoch em)) (with_encMeta (Some em) s), w))
              end
          end
      end
  | None, Some pol =>
      (lift (validate pol);;
       match kp with
       | None => fail ErrOther
       | Some p =>
           ik ← lift (kp_Current p);
           kc ← make_key_check ik.2 ik.1;
           enable_first p pol kdf ik.1 kc
       end) (s, w)
  | None, None => (Ok tt, (s, w))
  end.

(** [OpenCollection] with its last step. *)
Definition open_encrypted `{!Sha256} (name dataDir : string) (cfg : CollectionConfig) (kp : option KeyProvider)
    (pol : option EncryptionPolicy) (kdf : option EncryptionKDF) : M EncColl := λ w,
  match OpenCollection name dataDir cfg w with
  | (Err e, w) => (Err e, w)
  | (Ok c, w) =>
      match initEncryption kp pol kdf (MkEncColl c None None, w) with
      | (Ok _, (s, w)) => (Ok s, w)
      | (Err e, (_, w)) => (Err e, w)
      end
  end.
End admin.

(** ** The invariant *)
Section invariant.
Context {CI : AEAD} {CL : AEADLaws} (nonces : N → string → bytes) (Hnonces : ∀ s f, length (nonces s f) = NonceSize).

(** The encryptor in use is the one the in-memory metadata describes, it writes in
    the mode in which records are reconstructed, and the key check passes under
    the key the metadata names, which the provider resolves. *)
Record configured (s : EncColl) (e : Encryptor) (m : encryptionMeta) : Prop := {
  cf_enc : e = newEncryptor (c_name (ec_coll s)) (readMode m) (em_Policy m) (em_Epoch m);
  cf_mode : readMode m = EncryptModeFields ∨ readMode m = EncryptModeRecord;
  cf_writes : writes_in (readMode m) e;
  cf_view : c_enc (ec_coll s) = Some (as_encryptor (provider s) nonces e);
  cf_check : ∃ kp key, ec_keyProvider s = Some kp ∧ kp_ByID kp (em_CurrentKeyID m) = Ok key ∧ VerifyKeyCheck key (em_KeyCheck m) = Ok tt
}.

Definition enc_inv (s : EncColl) : Prop :=
  match ec_keyProvider s with Some kp => resolves kp kp | None => True end ∧
  match ec_enc s, c_encMeta (ec_coll s) with
  | Some e, Some m => configured s e m
  | None, None => c_enc (ec_coll s) = None
  | _, _ => False
  end.

(** The key check passes under the provider's current key, which is the one an
    opening tries. *)
Definition key_checked (s : EncColl) : Prop :=
  match c_encMeta (ec_coll s) with
  | None => True
  | Some m => ∃ kp id key, ec_keyProvider s = Some kp ∧ kp_Current kp = Ok (id, key) ∧ VerifyKeyCheck key (em_KeyCheck m) = Ok tt
  end.

Lemma coll_set_enc x c :
  c_encMeta (set_enc x c) = c_encMeta c ∧ c_name (set_enc x c) = c_name c ∧ c_dir (set_enc x c) = c_dir c ∧
  c_enc (set_enc x c) = x ∧ metaSnapshot (set_enc x c) = metaSnapshot c.
Proof. by destruct c. Qed.

Lemma coll_set_encMeta x c :
  c_encMeta (set_encMeta x c) = x ∧ c_name (set_encMeta x c) = c_name c ∧ c_dir (set_encMeta x c) = c_dir c ∧
  c_enc (set_encMeta x c) = c_enc c.
Proof. by destruct c. Qed.

Lemma with_encMeta_undo m s : with_encMeta (c_encMeta (ec_coll s)) (with_encMeta m s) = s.
Proof. unfold with_encMeta. destruct s as [c e k]. cbn. f_equal. by destruct c. Qed.

(** A change that cannot be persisted changes nothing; one that can installs the
    new policy at the new epoch. *)
Lemma applyEncryptionChange_spec mode pol kp epoch override s w r s' w' :
  let m := changed_meta mode pol epoch (c_encMeta (ec_coll s)) override in
  ec_keyProvider s = Some kp → resolves kp kp →
  (mode = EncryptModeFields ∨ mode = EncryptModeRecord) →
  (p_Mode pol = "" ∨ (validate pol = Ok tt ∧ p_Mode pol = mode)) →
  (∃ key, kp_ByID kp (em_CurrentKeyID m) = Ok key ∧ VerifyKeyCheck key (em_KeyCheck m) = Ok tt) →
  applyEncryptionChange nonces mode pol kp epoch override (s, w) = (r, (s', w')) →
  match r with
  | Err _ => s' = s
  | Ok _ => enc_inv s' ∧ ec_enc s' = Some (newEncryptor (c_name (ec_coll s)) mode pol epoch) ∧ c_encMeta (ec_coll s') = Some m ∧
      ec_keyProvider s' = ec_keyProvider s ∧ c_name (ec_coll s') = c_name (ec_coll s) ∧ c_dir (ec_coll s') = c_dir (ec_coll s) ∧
      persistMeta (metaPath (c_dir (ec_coll s'))) (metaSnapshot (ec_coll s')) w = (Ok tt, w')
  end.
Proof using Type.
  intros m Hkp Hres Hmode Hpol (key & Hc & Hv) H. unfold applyEncryptionChange in H. fold m in H. cbv zeta in H.
  destruct (persist_snapshot (with_encMeta (Some m) s) w) as [[[]|err] w1] eqn:Hp; injection H as <- <- <-.
  2:{ apply with_encMeta_undo. }
  unfold install, with_encMeta, persist_snapshot in *. cbn [ec_coll ec_enc ec_keyProvider] in *.
  destruct (coll_set_encMeta (Some m) (ec_coll s)) as (E1 & E2 & E3 & E4). set (c1 := set_encMeta (Some m) (ec_coll s)) in *.
  set (enc := as_encryptor kp nonces (newEncryptor (c_name (ec_coll s)) mode pol epoch)).
  destruct (coll_set_enc (Some enc) c1) as (F1 & F2 & F3 & F4 & F5).
  assert (readMode m = mode) as Hrm.
  { unfold readMode, m, changed_meta. destruct (c_encMeta (ec_coll s)), override as [[? ?]|]; cbn;
      (rewrite bool_decide_false; [done|]); intros ->; by destruct Hmode. }
  assert (em_Policy m = pol ∧ em_Epoch m = epoch) as [Hmp Hme].
  { unfold m, changed_meta. by destruct (c_encMeta (ec_coll s)), override as [[? ?]|]. }
  split_and!; [|done|congruence|done|congruence|congruence|by rewrite F3, F5].
  unfold enc_inv. cbn [ec_enc ec_coll ec_keyProvider]. rewrite F1, E1, Hkp. split; [done|]. split.
  - cbn. by rewrite F2, E2, Hrm, Hmp, Hme.
  - by rewrite Hrm.
  - rewrite Hrm. by exists (c_name (ec_coll s)), pol, epoch.
  - cbn. by rewrite F4.
  - exists kp, key. by split_and!.
Qed.

Lemma make_key_check_spec key id s w r s' w' :
  make_key_check nonces key id (s, w) = (r, (s', w')) →
  s' = s ∧ w' = (rand_seed w).2 ∧ ∀ kc, r = Ok kc → VerifyKeyCheck key kc = Ok tt.
Proof using CL Hnonces.
  unfold make_key_check. erewrite bind_ok by reflexivity. intros [= <- <- <-]. split_and!; [done|done|].
  intros kc Hkc. by eapply VerifyKeyCheck_Make.
Qed.

(** The operations. *)
Inductive admin_op :=
  | ASetPolicy (policy : option EncryptionPolicy)
  | ARotateKey.

Definition admin_run (op : admin_op) : AM unit :=
  match op with ASetPolicy p => SetEncryptionPolicy nonces p | ARotateKey => RotateKey nonces end.

(** The outcome of an operation: nothing but randomness used, or a new encryptor
    of the same reconstruction mode at the next epoch, persisted.  A rotation
    ([fresh]) renews the key check; other changes keep it. *)
Definition admin_outcome (fresh : bool) (s : EncColl) (w : World) (r : result unit) (s' : EncColl) (w' : World) : Prop :=
  (s' = s ∧ (is_Ok r = true → w' = w ∧ fresh = false)) ∨
  (r = Ok tt ∧ enc_inv s' ∧ (fresh = true ∨ key_checked s → key_checked s') ∧ ec_keyProvider s' = ec_keyProvider s ∧
   c_name (ec_coll s') = c_name (ec_coll s) ∧ c_dir (ec_coll s') = c_dir (ec_coll s) ∧
   (∃ e', ec_enc s' = Some e' ∧
     match ec_enc s with
     | Some e => en_readMode e' = en_readMode e ∧ en_epoch e' = u64_add (en_epoch e) 1
     | None => en_epoch e' = 1%N
     end) ∧
   ∃ w1, w_files w1 = w_files w ∧ w_faults w1 = w_faults w ∧
     persistMeta (metaPath (c_dir (ec_coll s'))) (metaSnapshot (ec_coll s')) w1 = (Ok tt, w')).

(** One change from a configured state. *)
Lemma change_outcome s w w1 e m pol override r s' w' :
  enc_inv s → ec_enc s = Some e → c_encMeta (ec_coll s) = Some m → w_files w1 = w_files w → w_faults w1 = w_faults w →
  (p_Mode pol = "" ∨ (validate pol = Ok tt ∧ p_Mode pol = en_readMode e)) →
  match override with
  | Some (kc, id) => ∃ key, kp_Current (provider s) = Ok (id, key) ∧ VerifyKeyCheck key kc = Ok tt
  | None => True
  end →
  applyEncryptionChange nonces (en_readMode e) pol (provider s) (u64_add (en_epoch e) 1) override (s, w1) = (r, (s', w')) →
  (s' = s ∧ r ≠ Ok tt) ∨ (r = Ok tt ∧ admin_outcome (match override with Some _ => true | None => false end) s w r s' w').
Proof using Type.
  intros Hinv He Hm Hf1 Hf2 Hpol Hov Hrun. destruct Hinv as [Hres Hinv]. rewrite He, Hm in Hinv.
  destruct Hinv as [Henc Hmode _ _ (kp & key & Hkp & Hc & Hv)]. rewrite Hkp in Hres.
  assert (en_readMode e = readMode m) as Hrm by (by rewrite Henc).
  assert (provider s = kp) as Hp by (unfold provider; by rewrite Hkp). rewrite Hp in *.
  assert (en_readMode e = EncryptModeFields ∨ en_readMode e = EncryptModeRecord) as Hmode' by (by rewrite Hrm).
  set (m' := changed_meta (en_readMode e) pol (u64_add (en_epoch e) 1) (c_encMeta (ec_coll s)) override).
  assert (∃ key, kp_ByID kp (em_CurrentKeyID m') = Ok key ∧ VerifyKeyCheck key (em_KeyCheck m') = Ok tt) as Hchk.
  { unfold m', changed_meta. rewrite Hm. destruct override as [[kc id]|]; [|by exists key].
    destruct Hov as (key' & Hk' & Hv'). exists key'. split; [by apply Hres|done]. }
  pose proof (applyEncryptionChange_spec _ _ _ _ _ _ _ _ _ _ Hkp Hres Hmode' Hpol Hchk Hrun) as Hspec. fold m' in Hspec.
  destruct r as [[]|err]; [right; split; [done|]|by left]. destruct Hspec as (H1 & H2 & Hm' & H3 & H4 & H5 & H6).
  right. split_and!; try done.
  - intros Hfresh. unfold key_checked in *. rewrite Hm'. rewrite Hm in Hfresh. unfold m', changed_meta. rewrite Hm, H3.
    destruct override as [[kc id]|]; [destruct Hov as (key' & Hk' & Hv'); by exists kp, id, key'|]. by destruct Hfresh.
  - rewrite He. eexists. by split; [exact H2|].
  - by exists w1.
Qed.

Lemma inv_cases s :
  enc_inv s →
  (ec_enc s = None ∧ c_encMeta (ec_coll s) = None) ∨
  (∃ e m, ec_enc s = Some e ∧ c_encMeta (ec_coll s) = Some m ∧ configured s e m).
Proof using Type.
  intros [_ H]. revert H. destruct (ec_enc s) as [e|], (c_encMeta (ec_coll s)) as [m|]; try done; intros H; [right|by left].
  by exists e, m.
Qed.

Lemma writes_policy mode e :
  writes_in mode e → p_Mode (en_writePolicy e) = "" ∨ (validate (en_writePolicy e) = Ok tt ∧ p_Mode (en_writePolicy e) = mode).
Proof using Type. by intros (name & pol & epoch & -> & H). Qed.

Lemma no_change s w r : admin_outcome false s w r s w.
Proof using Type. by left. Qed.

Lemma SetEncryptionPolicy_outcome policy s w r s' w' :
  enc_inv s → SetEncryptionPolicy nonces policy (s, w) = (r, (s', w')) → admin_outcome false s w r s' w'.
Proof using CL Hnonces.
  intros Hinv. unfold SetEncryptionPolicy. erewrite bind_ok by reflexivity. cbn [fst].
  destruct (inv_cases s Hinv) as [[He Hm]|(e & m & He & Hm & Hcf)]; rewrite He; destruct policy as [pol|].
  - destruct (validate pol) as [[]|err] eqn:Hval.
    2:{ unfold mbind, SE_bind, lift. intros [= <- <- <-]. by left. }
    erewrite bind_ok by reflexivity. destruct (ec_keyProvider s) as [kp|] eqn:Hkp; [|by intros [= <- <- <-]; left].
    destruct (kp_Current kp) as [[id key]|err] eqn:Hc; [|unfold mbind, SE_bind, lift; intros [= <- <- <-]; by left].
    erewrite bind_ok by reflexivity. cbn [fst snd].
    destruct (make_key_check nonces key id (s, w)) as [rk [s1 w1]] eqn:Hk.
    destruct (make_key_check_spec _ _ _ _ _ _ _ Hk) as (-> & -> & Hv).
    destruct rk as [kc|err]; [erewrite bind_ok by exact Hk|erewrite bind_err by exact Hk; intros [= <- <- <-]; by left].
    intros Hrun.
    destruct Hinv as [Hres _]. rewrite Hkp in Hres. set (m' := changed_meta (p_Mode pol) pol 1 (c_encMeta (ec_coll s)) (Some (kc, id))).
    assert (em_CurrentKeyID m' = id ∧ em_KeyCheck m' = kc) as [Hid Hkc] by (unfold m', changed_meta; by rewrite Hm).
    assert (∃ key', kp_ByID kp (em_CurrentKeyID m') = Ok key' ∧ VerifyKeyCheck key' (em_KeyCheck m') = Ok tt) as Hchk.
    { exists key. rewrite Hid, Hkc. split; [by apply Hres|by apply Hv]. }
    pose proof (applyEncryptionChange_spec _ _ _ _ _ _ _ _ _ _ Hkp Hres (validate_mode pol Hval) (or_intror (conj Hval eq_refl)) Hchk Hrun) as Hspec.
    fold m' in Hspec. destruct r as [[]|err]; [|by left]. destruct Hspec as (H1 & H2 & Hm' & H3 & H4 & H5 & H6). right.
    split_and!; try done; [| |by exists (rand_seed w).2].
    + intros _. unfold key_checked. rewrite Hm', H3, Hkc. exists kp, id, key. split_and!; [done..|by apply Hv].
    + rewrite He. eexists. by split; [exact H2|].
  - intros [= <- <- <-]. apply no_change.
  - destruct (validate pol) as [[]|err] eqn:Hval.
    2:{ unfold mbind, SE_bind, lift. intros [= <- <- <-]. by left. }
    erewrite bind_ok by reflexivity. case_bool_decide as Hmode; [|by intros [= <- <- <-]; left]. cbn [negb]. intros Hrun.
    destruct (change_outcome s w w e m pol None r s' w' Hinv He Hm eq_refl eq_refl) as [[-> Hr]|[_ ?]]; try done; [auto| ].
    left. split; [done|]. intros Hok. destruct r as [[]|]; done.
  - destruct (enabled e) eqn:Hen; cbn [negb]; [|intros [= <- <- <-]; apply no_change]. intros Hrun.
    destruct (change_outcome s w w e m zero_policy None r s' w' Hinv He Hm eq_refl eq_refl) as [[-> Hr]|[_ ?]]; try done; [auto| ].
    left. split; [done|]. intros Hok. destruct r as [[]|]; done.
Qed.

Lemma RotateKey_outcome s w r s' w' :
  enc_inv s → RotateKey nonces (s, w) = (r, (s', w')) → admin_outcome true s w r s' w'.
Proof using CL Hnonces.
  intros Hinv. unfold RotateKey. erewrite bind_ok by reflexivity. cbn [fst].
  destruct (inv_cases s Hinv) as [[He Hm]|(e & m & He & Hm & Hcf)]; rewrite He; [by intros [= <- <- <-]; left|].
  destruct (kp_Current (provider s)) as [[id key]|err] eqn:Hc; [|unfold mbind, SE_bind, lift; intros [= <- <- <-]; by left].
  erewrite bind_ok by reflexivity. cbn [fst snd].
  destruct (make_key_check nonces key id (s, w)) as [rk [s1 w1]] eqn:Hk.
  destruct (make_key_check_spec _ _ _ _ _ _ _ Hk) as (-> & -> & Hv).
  destruct rk as [kc|err]; [erewrite bind_ok by exact Hk|erewrite bind_err by exact Hk; intros [= <- <- <-]; by left].
  intros Hrun. assert (en_readMode e = readMode m) as Hrm by (by rewrite (cf_enc _ _ _ Hcf)).
  destruct (change_outcome s w (rand_seed w).2 e m (en_writePolicy e) (Some (kc, id)) r s' w' Hinv He Hm eq_refl eq_refl)
    as [[-> Hr]|[_ ?]]; try done.
  - rewrite Hrm. apply writes_policy. apply Hcf.
  - exists key. split; [done|by apply Hv].
  - left. split; [done|]. intros Hok. destruct r as [[]|]; done.
Qed.

Lemma admin_run_outcome op s w r s' w' :
  enc_inv s → admin_run op (s, w) = (r, (s', w')) → admin_outcome (match op with ARotateKey => true | ASetPolicy _ => false end) s w r s' w'.
Proof using CL Hnonces.
  destruct op; cbn; [apply SetEncryptionPolicy_outcome|apply RotateKey_outcome].
Qed.
End invariant.

(** ** Restart *)

(** The metadata file describes the encryption settings in memory. *)
Definition disk_current (s : EncColl) (w : World) : Prop :=
  ∃ b j m, w_files w !! metaPath (c_dir (ec_coll s)) = Some b ∧ parse_json b = Some j ∧ meta_of_json j = Ok m ∧
    m_Encryption m = c_encMeta (ec_coll s).

Lemma loadMeta_current s w :
  no_faults w → disk_current s w →
  ∃ m, loadMeta (metaPath (c_dir (ec_coll s))) w = (Ok m, w) ∧ m_Encryption m = c_encMeta (ec_coll s).
Proof.
  intros Hw (b & j & m & Hb & Hj & Hm & He). exists m. split; [|done]. unfold loadMeta.
  erewrite bind_ok by (apply read_file_nofault; [done|exact Hb]). by rewrite Hj, Hm.
Qed.

Lemma persist_current s w w' :
  no_faults w → wf_meta (metaSnapshot (ec_coll s)) →
  persistMeta (metaPath (c_dir (ec_coll s))) (metaSnapshot (ec_coll s)) w = (Ok tt, w') →
  no_faults w' ∧ disk_current s w'.
Proof.
  intros Hw Hm. destruct (meta_roundtrip _ Hm) as (j & Hj & Hwf & Hr). unfold persistMeta. rewrite Hj.
  erewrite bind_ok by reflexivity.
  destruct (writeFileAtomic_nofault (metaPath (c_dir (ec_coll s))) (print_json j) w Hw) as (fs & -> & Hf & _).
  intros [= <-]. split; [done|]. exists (print_json j), j, (metaSnapshot (ec_coll s)). split_and!; [done|by apply parse_print_json|done|done].
Qed.

(** Reading the settings back gives the same encryptor. *)
Lemma initEncryption_restores {CI : AEAD} nonces s w c :
  enc_inv nonces s → key_checked s → no_faults w → disk_current s w → c_name c = c_name (ec_coll s) → c_dir c = c_dir (ec_coll s) →
  c_encMeta c = None → c_enc c = None →
  ∃ s', initEncryption nonces (ec_keyProvider s) None None (MkEncColl c None None, w) = (Ok tt, (s', w)) ∧
    ec_enc s' = ec_enc s ∧ c_encMeta (ec_coll s') = c_encMeta (ec_coll s) ∧ c_enc (ec_coll s') = c_enc (ec_coll s).
Proof.
  intros Hinv Hkc Hw Hd Hname Hdir Hnone Hcn. destruct (loadMeta_current s w Hw Hd) as (m & Hload & Hm).
  unfold initEncryption. cbn [ec_coll ec_enc]. rewrite Hdir, Hload, Hname, Hm.
  destruct (inv_cases nonces s Hinv) as [[He Hem]|(e & em & He & Hem & Hcf)]; rewrite He, Hem.
  - eexists. split; [reflexivity|]. cbn. destruct Hinv as [_ Hinv]. rewrite He, Hem in Hinv. by rewrite Hinv.
  - unfold key_checked in Hkc. rewrite Hem in Hkc. destruct Hkc as (kp & id & key & Hkp & Hc & Hv). destruct Hcf as [Henc _ _ Hview _].
    rewrite Hkp, Hc, Hv. eexists. split; [reflexivity|]. rewrite Hview. unfold install, with_encMeta, provider. rewrite Hkp. cbn. rewrite Henc.
    by destruct c.
Qed.

(** ** Key providers at work *)

(** The provider is shared with the application, which adds keys to it and changes
    the current one: the collection and its encryptor see the new state. *)
Definition set_provider {CI : AEAD} (nonces : N → string → bytes) (kp : KeyProvider) (s : EncColl) : EncColl :=
  MkEncColl (match ec_enc s with Some e => set_enc (Some (as_encryptor kp nonces e)) (ec_coll s) | None => ec_coll s end) (ec_enc s) (Some kp).

(** No key is forgotten or replaced, and the current key has an id. *)
Definition promotes (kp kp' : KeyProvider) : Prop :=
  (∀ id key, kp_ByID kp id = Ok key → kp_ByID kp' id = Ok key) ∧ resolves kp' kp'.

(** The operations on a keyring that do not give an id another key are such changes. *)
Lemma ring_promotes (k : Keyring) (op : ring_op) :
  (∀ id key, kr_keys k !! id = Some key → reassigns id key op = false) → promotes (keyring_provider k) (keyring_provider (ring_do k op)).
Proof.
  intros Hop. split; cbn; unfold ByID.
  - intros id key. destruct (kr_keys k !! id) as [key'|] eqn:E; [|done]. intros [= ->]. by rewrite (ring_do_keeps op k id key (Hop _ _ E) E).
  - intros id key Hc%Current_ByID. cbn. unfold ByID. by rewrite Hc.
Qed.

(** Administration, changes of the provider, and other activity on the disk.  The
    flag tells whether the key check was made after the last change of the
    provider. *)
Inductive admin_step {CI : AEAD} (nonces : N → string → bytes) : EncColl * World * bool → EncColl * World * bool → Prop :=
  | as_run op s w b r s' w' :
      admin_run nonces op (s, w) = (r, (s', w')) →
      admin_step nonces (s, w, b) (s', w', match r, op with Ok _, ARotateKey => true | _, _ => b end)
  | as_promote s w b kp kp' :
      ec_keyProvider s = Some kp → promotes kp kp' → admin_step nonces (s, w, b) (set_provider nonces kp' s, w, false)
  | as_disk s w b w' : admin_step nonces (s, w, b) (s, w', b).

Definition admin_inv {CI : AEAD} (nonces : N → string → bytes) (x : EncColl * World * bool) : Prop :=
  enc_inv nonces x.1.1 ∧ (x.2 = true → key_checked x.1.1).

(** The reconstruction mode of a configured collection stays. *)
Definition same_mode (s s' : EncColl) : Prop := ∀ e, ec_enc s = Some e → ∃ e', ec_enc s' = Some e' ∧ en_readMode e' = en_readMode e.

Lemma set_provider_inv {CI : AEAD} nonces kp kp' s : ec_keyProvider s = Some kp → promotes kp kp' → enc_inv nonces s → enc_inv nonces (set_provider nonces kp' s).
Proof.
  intros Hkp [Hkeep Hres] Hinv. split; [done|]. destruct (inv_cases nonces s Hinv) as [[He Hm]|(e & m & He & Hm & Hcf)].
  - unfold set_provider. cbn. rewrite He, Hm. destruct Hinv as [_ Hinv]. by rewrite He, Hm in Hinv.
  - unfold set_provider. rewrite He. cbn. set (enc := as_encryptor kp' nonces e). destruct (coll_set_enc (Some enc) (ec_coll s)) as (F1 & F2 & F3 & F4 & F5).
    rewrite F1, Hm. destruct Hcf as [C1 C2 C3 C4 (kp0 & key & C5 & C6 & C7)]. split; cbn; [by rewrite F2|done|done|done|].
    exists kp', key. split_and!; [done| |done]. apply Hkeep. congruence.
Qed.

Lemma set_provider_disk {CI : AEAD} nonces kp s w : disk_current s w → disk_current (set_provider nonces kp s) w.
Proof.
  intros (b & j & m & H1 & H2 & H3 & H4). exists b, j, m. unfold set_provider. cbn [ec_coll]. destruct (ec_enc s) as [e|]; [|done].
  destruct (coll_set_enc (Some (as_encryptor kp nonces e)) (ec_coll s)) as (F1 & _ & F3 & _). by rewrite F1, F3.
Qed.

Lemma admin_step_inv {CI : AEAD} {CL : AEADLaws} nonces x x' : (∀ s f, length (nonces s f) = NonceSize) →
  admin_step nonces x x' → admin_inv nonces x → admin_inv nonces x' ∧ same_mode x.1.1 x'.1.1.
Proof.
  intros Hn Hstep [Hinv Hb]. assert (∀ s, same_mode s s) as Hrefl by (intros s e He; eauto).
  destruct Hstep as [op s w b r s' w' Hrun|s w b kp kp' Hkp Hpr|s w b w']; cbn [fst snd] in *; [|split; [split|]|by split].
  - destruct (admin_run_outcome nonces Hn op s w r s' w' Hinv Hrun) as [[-> Hr]|(-> & Hi & Hkc & _ & _ & _ & (e' & He' & Hm) & _)].
    + split; [|apply Hrefl]. split; [done|]. destruct r as [[]|]; [|done]. destruct op; [done|]. by destruct (Hr eq_refl).
    + split; [split; [done|]|].
      * intros Hf. apply Hkc. destruct op; [right; by apply Hb|by left].
      * intros e He. rewrite He in Hm. exists e'. by destruct Hm.
  - by eapply set_provider_inv.
  - done.
  - intros e He. exists e. split; [exact He|done].
Qed.

(** ** Properties *)

(** [C29] Administration keeps the encryption settings consistent.  Whatever policy
    changes and key rotations are asked for, successful or not, and however the
    application adds keys to the provider and changes the current one meanwhile,
    forgetting and replacing none: the encryptor in use is the one the metadata
    describes, it seals in the mode in which records are reconstructed, the key
    check passes under the key the metadata names, and that mode never changes.
    After a rotation, and until the provider changes again, the key check also
    passes under the current key, the one the next opening will try. *)
Theorem admin_invariant {CI : AEAD} {CL : AEADLaws} (nonces : N → string → bytes) (x x' : EncColl * World * bool) :
  (∀ s f, length (nonces s f) = NonceSize) → admin_inv nonces x → rtc (admin_step nonces) x x' →
  admin_inv nonces x' ∧ same_mode x.1.1 x'.1.1.
Proof.
  intros Hn Hinv Hsteps. induction Hsteps as [x|x y z Hstep _ IH]; [split; [done|]; intros e He; eauto|].
  destruct (admin_step_inv nonces x y Hn Hstep Hinv) as [Hy Hm]. destruct (IH Hy) as [Hz Hm']. split; [done|].
  intros e He. destruct (Hm e He) as (e1 & He1 & E1). destruct (Hm' e1 He1) as (e2 & He2 & E2). exists e2. split; [done|congruence].
Qed.

(** [C30] Settings survive a restart.  A policy change or a key rotation that succeeds
    is on disk, and opening the collection again with the provider as it is then
    installs the same encryptor over the same keys: after a rotation always, also
    when the current key was promoted just before it, and after a policy change if
    the key check passed under the current key before. *)
Theorem policy_survives_restart {CI : AEAD} {CL : AEADLaws} (nonces : N → string → bytes) (op : admin_op)
    (s s' : EncColl) (w w' : World) (c : Collection) :
  (∀ s f, length (nonces s f) = NonceSize) → enc_inv nonces s → no_faults w → disk_current s w →
  op = ARotateKey ∨ key_checked s →
  admin_run nonces op (s, w) = (Ok tt, (s', w')) → wf_meta (metaSnapshot (ec_coll s')) →
  c_name c = c_name (ec_coll s') → c_dir c = c_dir (ec_coll s') → c_encMeta c = None → c_enc c = None →
  ∃ s2, initEncryption nonces (ec_keyProvider s') None None (MkEncColl c None None, w') = (Ok tt, (s2, w')) ∧
    ec_enc s2 = ec_enc s' ∧ c_encMeta (ec_coll s2) = c_encMeta (ec_coll s') ∧ c_enc (ec_coll s2) = c_enc (ec_coll s').
Proof.
  intros Hn Hinv Hw Hd Hop Hrun Hwf Hname Hdir Hnone Hcn.
  destruct (admin_run_outcome nonces Hn op s w (Ok tt) s' w' Hinv Hrun) as [[-> Hw']|(_ & Hi & Hkc & Hkp & _ & _ & _ & w1 & _ & F2 & Hp)].
  - destruct (Hw' eq_refl) as [-> Hf]. destruct Hop as [->|Hop]; [done|]. by apply initEncryption_restores.
  - destruct (persist_current s' w1 w') as [Hw2 Hd2]; [unfold no_faults; by rewrite F2|done|done|].
    apply initEncryption_restores; try done. apply Hkc. destruct Hop as [->|Hop]; auto.
Qed.

(** ** Scenarios *)
Definition fields_policy : EncryptionPolicy := MkPolicy EncryptModeFields ["ssn"] [].
Definition open_people (kp : option KeyProvider) (pol : option EncryptionPolicy) (w : World) : result EncColl * World :=
  @open_encrypted clear_aead demo_nonces length_digest "people" "d" defaultConfig kp pol None w.

(** A collection created with the policy, one record inserted, and a clean
    shutdown. *)
Definition people : result EncColl * World := open_people (Some demo_kp) (Some fields_policy) empty_disk.
Definition shut_down : World :=
  match people with
  | (Ok s, w) => ((Insert_ (Some person);; @CloseCollection length_digest) (ec_coll s, w)).2.2
  | (Err _, w) => w
  end.
Definition without_meta : World := set_files (delete (metaPath "d/people") (w_files shut_down)) shut_down.

(** The stored form of record 1 as an opened collection returns it. *)
Definition ssn_returned (x : result EncColl * World) : option any :=
  match x with
  | (Ok s, w) => match (GetRecord 1 (ec_coll s, w)).1 with Ok r => data_field (r_Data r) "ssn" | Err _ => None end
  | (Err _, _) => None
  end.

Definition configured_in (x : result EncColl * World) : option bool :=
  match x with (Ok s, _) => Some (match ec_enc s with Some _ => true | None => false end) | (Err _, _) => None end.

(** Without its meta.json an encrypted collection opens as a plain one, without a
    key: reads return the envelopes and later writes are not sealed.  With the
    file the same open is refused. *)
Theorem lost_meta_drops_encryption :
  ssn_returned (open_people (Some demo_kp) None shut_down) = person !! "ssn" ∧
  (open_people None None shut_down).1 = Err ErrKeyUnavailable ∧
  configured_in (open_people None None without_meta) = Some false ∧
  ∃ env, ssn_returned (open_people None None without_meta) = Some (VStr env) ∧ IsEncrypted env = true.
Proof. split_and!; [vm_compute; reflexivity..|]. eexists. split; vm_compute; reflexivity. Qed.

(** The collection after its keyring was rotated and [RotateKey] was called. *)
Definition rotated : World :=
  match open_people (Some demo_kp) None shut_down with
  | (Ok s, w) => (RotateKey demo_nonces (MkEncColl (ec_coll s) (ec_enc s) (Some rotated_kp), w)).2.2
  | (Err _, w) => w
  end.

(** The key check is tried with the current key only.  Between the promotion of a
    new key and [RotateKey] the collection cannot be opened, although the keyring
    resolves the key its data and its key check were sealed with; and once one
    collection has been rotated, no choice of the current key opens it and a
    collection that has not. *)
Theorem promoted_key_locks_out :
  kp_ByID rotated_kp "k1" = Ok demo_key ∧
  (open_people (Some rotated_kp) None shut_down).1 = Err ErrWrongEncryptionKey ∧
  configured_in (open_people (Some rotated_kp) None rotated) = Some true ∧
  (open_people (Some demo_kp) None rotated).1 = Err ErrWrongEncryptionKey.
Proof. split_and!; vm_compute; reflexivity. Qed.

(** ** Witnesses *)
Definition plain_state : EncColl := MkEncColl demo_coll None (Some demo_kp).
Definition plain_disk : World := (persist_snapshot plain_state demo_world).2.
Definition enable_run : result unit * (EncColl * World) :=
  @admin_run clear_aead demo_nonces (ASetPolicy (Some fields_policy)) (plain_state, plain_disk).

Lemma enable_run_ok : enable_run = (Ok tt, (enable_run.2.1, enable_run.2.2)).
Proof.
  assert (enable_run.1 = Ok tt) as H by (vm_compute; reflexivity). revert H. generalize enable_run.
  intros [r [s w]] H. cbn in *. by subst.
Qed.

Lemma plain_wf : wf_meta (metaSnapshot (ec_coll plain_state)).
Proof. split; [done|vm_compute; reflexivity|done|done]. Qed.

Lemma plain_current : no_faults plain_disk ∧ disk_current plain_state plain_disk.
Proof.
  apply (persist_current plain_state demo_world); [done|apply plain_wf|].
  assert ((persistMeta (metaPath (c_dir (ec_coll plain_state))) (metaSnapshot (ec_coll plain_state)) demo_world).1 = Ok tt) as H
    by (vm_compute; reflexivity).
  unfold plain_disk, persist_snapshot. revert H. generalize (persistMeta (metaPath (c_dir (ec_coll plain_state))) (metaSnapshot (ec_coll plain_state)) demo_world).
  intros [r w] H. cbn in *. by subst.
Qed.

Lemma enabled_wf : wf_meta (metaSnapshot (ec_coll enable_run.2.1)).
Proof.
  split; [vm_compute; reflexivity|vm_compute; reflexivity|vm_compute; split; discriminate || reflexivity|].
  vm_compute (m_Encryption _). split; try (vm_compute; reflexivity). split; try (vm_compute; reflexivity); repeat constructor.
Qed.

(** The key is promoted and the collection rotated. *)
Definition promoted_state : EncColl := set_provider demo_nonces rotated_kp enable_run.2.1.
Definition rotate_run : result unit * (EncColl * World) := @admin_run clear_aead demo_nonces ARotateKey (promoted_state, enable_run.2.2).

Lemma rotate_run_ok : rotate_run = (Ok tt, (rotate_run.2.1, rotate_run.2.2)).
Proof.
  assert (rotate_run.1 = Ok tt) as H by (vm_compute; reflexivity). revert H. generalize rotate_run.
  intros [r [s w]] H. cbn in *. by subst.
Qed.

Lemma demo_promotes : promotes demo_kp rotated_kp.
Proof.
  split; [|exact rotated_resolves_self]. intros id key. unfold demo_kp, rotated_kp. cbn. unfold ByID, demo_ring, rotated_ring. cbn [kr_keys].
  destruct (decide (id = "k1")) as [->|Hne]; [done|]. by rewrite lookup_singleton_ne by congruence.
Qed.

Lemma plain_inv : enc_inv demo_nonces plain_state.
Proof. split; [exact demo_resolves|reflexivity]. Qed.

Lemma admin_invariant_witness :
  let x := (plain_state, plain_disk, true) in
  let x' := (rotate_run.2.1, rotate_run.2.2, true) in
  admin_inv demo_nonces x' ∧ same_mode x.1.1 x'.1.1.
Proof.
  intros x x'. apply (admin_invariant demo_nonces x x').
  - reflexivity.
  - split; [exact plain_inv|]. intros _. exact I.
  - apply (rtc_l _ _ (enable_run.2.1, enable_run.2.2, true)).
    { apply (as_run demo_nonces (ASetPolicy (Some fields_policy)) plain_state plain_disk true (Ok tt)). exact enable_run_ok. }
    apply (rtc_l _ _ (promoted_state, enable_run.2.2, false)).
    { apply (as_promote demo_nonces _ _ _ demo_kp); [vm_compute; reflexivity|exact demo_promotes]. }
    apply rtc_once. apply (as_run demo_nonces ARotateKey promoted_state enable_run.2.2 false (Ok tt)). exact rotate_run_ok.
Defined.

Lemma rotated_wf : wf_meta (metaSnapshot (ec_coll rotate_run.2.1)).
Proof.
  split; [vm_compute; reflexivity|vm_compute; reflexivity|vm_compute; split; discriminate || reflexivity|].
  vm_compute (m_Encryption _). split; try (vm_compute; reflexivity). split; try (vm_compute; reflexivity); repeat constructor.
Qed.

Lemma promoted_ready : enc_inv demo_nonces promoted_state ∧ no_faults enable_run.2.2 ∧ disk_current promoted_state enable_run.2.2.
Proof.
  destruct (admin_run_outcome demo_nonces (λ _ _, eq_refl) _ _ _ _ _ _ plain_inv enable_run_ok) as [[H _]|(_ & Hi & _ & _ & _ & Hdir & _ & w1 & _ & F2 & Hp)].
  { exfalso. assert (is_Some (ec_enc enable_run.2.1)) as Hs by (vm_compute; by eexists). rewrite H in Hs. by destruct Hs. }
  destruct (persist_current enable_run.2.1 w1 enable_run.2.2) as [Hw Hd]; [unfold no_faults; by rewrite F2|exact enabled_wf|exact Hp|].
  split_and!; [|exact Hw|].
  - apply (set_provider_inv demo_nonces demo_kp); [vm_compute; reflexivity|exact demo_promotes|exact Hi].
  - by apply set_provider_disk.
Qed.

Lemma policy_survives_restart_witness :
  ∃ s2, initEncryption demo_nonces (ec_keyProvider rotate_run.2.1) None None (MkEncColl demo_coll None None, rotate_run.2.2) =
      (Ok tt, (s2, rotate_run.2.2)) ∧
    ec_enc s2 = ec_enc rotate_run.2.1 ∧ c_encMeta (ec_coll s2) = c_encMeta (ec_coll rotate_run.2.1) ∧
    c_enc (ec_coll s2) = c_enc (ec_coll rotate_run.2.1).
Proof.
  apply (policy_survives_restart demo_nonces ARotateKey promoted_state rotate_run.2.1 enable_run.2.2 rotate_run.2.2 demo_coll).
  - reflexivity.
  - apply promoted_ready.
  - apply promoted_ready.
  - apply promoted_ready.
  - by left.
  - apply rotate_run_ok.
  - apply rotated_wf.
  - vm_compute. reflexivity.
  - vm_compute. reflexivity.
  - reflexivity.
  - reflexivity.
Defined.
