(* ===== verification/Facade.v ===== *)
(** * The embedded facade (scriva.go, encryption.go, engine/encryption_kdf.go, crypto/kdf.go)

    The options of an embedded database, the key material they configure and the
    collections opened through the facade.  Argon2 is the class [Argon2]; random
    salts are a function of the seed.  The facade's cache maps a name to the handle
    the engine registered under it; here it is the set of names, which is the same
    as long as collections are opened through the facade only.  Collections open
    without their encryption policy, as in the database registry. *)

From S2P Require Import Prelude GoFloat GoTime GoJson GoBase64 Value Query Store Disk Segment Index SecIndex Meta Collection Steps CollectionSpec Scan Open OpenSpec Broker Replica Database DatabaseSpec Snapshot SnapshotSpec RegistrySpec Crypto Encryption EncryptionSpec EncryptionAdmin.

(** ** Key derivation (crypto/kdf.go) *)
Class Argon2 := argon2_IDKey : bytes → bytes → N → N → N → N → bytes.
Class Argon2Laws `{!Argon2} := {
  argon2_length pass salt time memory threads keyLen : length (argon2_IDKey pass salt time memory threads keyLen) = N.to_nat keyLen
}.

Definition DefaultKDFParams : KDFParams := MkKDFParams (64 * 1024) 3 1 (N.of_nat KeySize) 16.

Definition DeriveKey `{!Argon2} (passphrase : string) (salt : bytes) (p : KDFParams) : bytes :=
  argon2_IDKey (to_bytes passphrase) salt (k_Iterations p) (k_Memory p) (k_Parallelism p) (k_KeyLen p).

Definition NewSalt (salts : N → Z → bytes) (n : Z) : M bytes :=
  if (n <=? 0)%Z then fail ErrOther else seed ← rand_seed; mret (salts seed n).

(** ** Persisted parameters (engine/encryption_kdf.go) *)
Fixpoint find_kdf (dataDir : string) (names : list string) : M (option EncryptionKDF) :=
  match names with
  | [] => mret None
  | name :: names => λ w,
      match loadMeta (metaPath (join dataDir name)) w with
      | (Ok m, w) =>
          match m_Encryption m ≫= em_KDF with
          | Some kdf => (Ok (Some kdf), w)
          | None => find_kdf dataDir names w
          end
      | (Err _, w) => find_kdf dataDir names w
      end
  end.

Definition FindPersistedKDF (dataDir : string) : SE Host (option EncryptionKDF) :=
  on_world syscall;; (λ h, on_world (find_kdf dataDir (dir_names h)) h) : SE Host (option EncryptionKDF).

(** ** Options (encryption.go) *)
Definition builtinKeyID : string := "k1".

(** The provider a configuration carries before it is resolved: none, a real one,
    an error to report, or a passphrase that waits for its salt. *)
Inductive providerOption :=
  | NoProvider
  | RealProvider (kp : KeyProvider)
  | errProvider (e : error)
  | deferredPassphrase (passphrase : string) (params : KDFParams).

Record BaseConfig := MkBase {
  ba_cfg : CollectionConfig;
  ba_KeyProvider : providerOption;
  ba_EncryptionKDF : option EncryptionKDF;
  ba_EncryptionByCollection : gmap string EncryptionPolicy
}.

Definition with_provider (p : providerOption) (c : BaseConfig) : BaseConfig :=
  MkBase (ba_cfg c) p (ba_EncryptionKDF c) (ba_EncryptionByCollection c).

Definition WithEncryptionKey (key : bytes) (c : BaseConfig) : BaseConfig :=
  match NewKeyring builtinKeyID key with
  | Err e => with_provider (errProvider e) c
  | Ok kr => with_provider (RealProvider (keyring_provider kr)) c
  end.

Definition WithPassphrase (passphrase : string) : BaseConfig → BaseConfig :=
  with_provider (deferredPassphrase passphrase DefaultKDFParams).

Definition WithKeyProvider (p : KeyProvider) : BaseConfig → BaseConfig := with_provider (RealProvider p).

Definition EncryptFields (fields : list string) : EncryptionPolicy := MkPolicy EncryptModeFields fields [].
Definition EncryptRecord (indexFields : list string) : EncryptionPolicy := MkPolicy EncryptModeRecord [] indexFields.

Definition WithCollectionEncryption (name : string) (spec : EncryptionPolicy) (c : BaseConfig) : BaseConfig :=
  MkBase (ba_cfg c) (ba_KeyProvider c) (ba_EncryptionKDF c) (<[name := spec]> (ba_EncryptionByCollection c)).

Section keys.
Context {argon : Argon2} (salts : N → Z → bytes).

Definition resolvePassphrase (dir passphrase : string) (params : KDFParams) : SE Host (Keyring * EncryptionKDF) :=
  existing ← FindPersistedKDF dir;
  spk ← (match existing with
         | Some kdf =>
             match b64_decode (to_bytes (kdf_Salt kdf)) with
             | None => fail ErrOther
             | Some salt => mret (salt, kdf_Params kdf, kdf)
             end
         | None =>
             salt ← on_world (NewSalt salts (k_SaltLen params));
             mret (salt, params, MkKDF "argon2id" (of_bytes (b64_encode salt)) params)
         end);
  let '(salt, params, kdf) := spk in
  kr ← lift (NewKeyring builtinKeyID (DeriveKey passphrase salt params));
  mret (kr, kdf).

Definition resolveKeyOptions (dir : string) (base : BaseConfig) : SE Host BaseConfig :=
  match ba_KeyProvider base with
  | errProvider e => fail e
  | deferredPassphrase passphrase params =>
      kk ← resolvePassphrase dir passphrase params;
      mret (MkBase (ba_cfg base) (RealProvider (keyring_provider kk.1)) (Some kk.2) (ba_EncryptionByCollection base))
  | _ => mret base
  end.
End keys.

(** ** The facade (scriva.go) *)
Definition with_cfg (f : CollectionConfig → CollectionConfig) (c : BaseConfig) : BaseConfig :=
  MkBase (f (ba_cfg c)) (ba_KeyProvider c) (ba_EncryptionKDF c) (ba_EncryptionByCollection c).

Definition set_cfg_SyncMode (m : option SyncMode) (c : CollectionConfig) : CollectionConfig :=
  MkConfig (SegmentMaxSize c) (CompactInterval c) (CompactDirtyPct c) m (SyncInterval c) (WatchBufferSize c) (DefaultTTL c) (MaxRecords c) (MaxBytes c) (Quotas c).
Definition set_SyncInterval (d : Z) (c : CollectionConfig) : CollectionConfig :=
  MkConfig (SegmentMaxSize c) (CompactInterval c) (CompactDirtyPct c) (cfg_SyncMode c) d (WatchBufferSize c) (DefaultTTL c) (MaxRecords c) (MaxBytes c) (Quotas c).
Definition set_SegmentMaxSize (n : Z) (c : CollectionConfig) : CollectionConfig :=
  MkConfig n (CompactInterval c) (CompactDirtyPct c) (cfg_SyncMode c) (SyncInterval c) (WatchBufferSize c) (DefaultTTL c) (MaxRecords c) (MaxBytes c) (Quotas c).
Definition set_CompactInterval (d : Z) (c : CollectionConfig) : CollectionConfig :=
  MkConfig (SegmentMaxSize c) d (CompactDirtyPct c) (cfg_SyncMode c) (SyncInterval c) (WatchBufferSize c) (DefaultTTL c) (MaxRecords c) (MaxBytes c) (Quotas c).
Definition set_WatchBufferSize (n : Z) (c : CollectionConfig) : CollectionConfig :=
  MkConfig (SegmentMaxSize c) (CompactInterval c) (CompactDirtyPct c) (cfg_SyncMode c) (SyncInterval c) n (DefaultTTL c) (MaxRecords c) (MaxBytes c) (Quotas c).
Definition set_MaxRecords (n : N) (c : CollectionConfig) : CollectionConfig :=
  MkConfig (SegmentMaxSize c) (CompactInterval c) (CompactDirtyPct c) (cfg_SyncMode c) (SyncInterval c) (WatchBufferSize c) (DefaultTTL c) n (MaxBytes c) (Quotas c).
Definition set_MaxBytes (n : N) (c : CollectionConfig) : CollectionConfig :=
  MkConfig (SegmentMaxSize c) (CompactInterval c) (CompactDirtyPct c) (cfg_SyncMode c) (SyncInterval c) (WatchBufferSize c) (DefaultTTL c) (MaxRecords c) n (Quotas c).

Definition WithSyncMode (m : option SyncMode) : BaseConfig → BaseConfig := with_cfg (set_cfg_SyncMode m).
Definition WithSyncInterval (d : Z) : BaseConfig → BaseConfig := with_cfg (set_SyncInterval d).
Definition WithSegmentMaxSize (n : Z) : BaseConfig → BaseConfig := with_cfg (set_SegmentMaxSize n).
Definition WithCompactInterval (d : Z) : BaseConfig → BaseConfig := with_cfg (set_CompactInterval d).
Definition WithWatchBufferSize (n : Z) : BaseConfig → BaseConfig := with_cfg (set_WatchBufferSize n).

Record collectionOptions := MkCollOptions { co_cfg : CollectionConfig; co_unique : list string }.

Definition on_co_cfg (f : CollectionConfig → CollectionConfig) (o : collectionOptions) : collectionOptions :=
  MkCollOptions (f (co_cfg o)) (co_unique o).
Definition WithCollectionSyncMode (m : option SyncMode) : collectionOptions → collectionOptions := on_co_cfg (set_cfg_SyncMode m).
Definition WithCollectionSyncInterval (d : Z) : collectionOptions → collectionOptions := on_co_cfg (set_SyncInterval d).
Definition WithCollectionSegmentMaxSize (n : Z) : collectionOptions → collectionOptions := on_co_cfg (set_SegmentMaxSize n).
Definition WithCollectionCompactInterval (d : Z) : collectionOptions → collectionOptions := on_co_cfg (set_CompactInterval d).
Definition WithCollectionWatchBufferSize (n : Z) : collectionOptions → collectionOptions := on_co_cfg (set_WatchBufferSize n).
Definition WithMaxRecords (n : N) : collectionOptions → collectionOptions := on_co_cfg (set_MaxRecords n).
Definition WithMaxBytes (n : N) : collectionOptions → collectionOptions := on_co_cfg (set_MaxBytes n).
Definition WithUniqueIndex (fields : list string) (o : collectionOptions) : collectionOptions :=
  MkCollOptions (co_cfg o) (co_unique o ++ fields).

Record FacadeDB := MkFacade { f_edb : DB; f_base : BaseConfig; f_cols : gset string }.

(** The engine handle and the host, inside the facade. *)
Definition on_edb {A} (m : DM A) : SE (FacadeDB * Host) A := λ '(f, h),
  let '(r, (db, h)) := m (f_edb f, h) in (r, (MkFacade db (f_base f) (f_cols f), h)).

(** Interval sync at the default cadence, engine defaults for the rest. *)
Definition base_config : BaseConfig :=
  MkBase (MkConfig 0 0 f64_zero (Some SyncModeInterval) DefaultSyncInterval 0 0 0 0 ∅) NoProvider None ∅.

Section facade.
Context {sha : Sha256} {argon : Argon2} (salts : N → Z → bytes).

Definition FacadeOpen (dir : string) (opts : list (BaseConfig → BaseConfig)) (h : Host) : result FacadeDB * Host :=
  match resolveKeyOptions salts dir (foldl (λ b o, o b) base_config opts) h with
  | (Err e, h) => (Err e, h)
  | (Ok base, h) =>
      match OpenDB dir (MkDBConfig (ba_cfg base) 0 false) h with
      | (Err e, h) => (Err e, h)
      | (Ok edb, h) => (Ok (MkFacade edb base ∅), h)
      end
  end.

Definition options (base : BaseConfig) (opts : list (collectionOptions → collectionOptions)) : collectionOptions :=
  foldl (λ co o, o co) (MkCollOptions (ba_cfg base) []) opts.

Definition FacadeCollection (name : string) (opts : list (collectionOptions → collectionOptions)) : SE (FacadeDB * Host) unit := λ '(f, h),
  if bool_decide (name ∈ f_cols f) then (Ok tt, (f, h))
  else
    let co := options (f_base f) opts in
    (on_edb (CollectionWithConfig name (co_cfg co));;
     for_each (λ field, on_edb (with_collection name (EnsureUniqueIndex field))) (co_unique co);;
     (λ '(f, h), (Ok tt, (MkFacade (f_edb f) (f_base f) ({[name]} ∪ f_cols f), h))) : SE (FacadeDB * Host) unit) (f, h).

Definition MustCollection (name : string) (opts : list (collectionOptions → collectionOptions)) : SE (FacadeDB * Host) unit := λ s,
  match FacadeCollection name opts s with (Ok u, s) => (Ok u, s) | (Err _, s) => (Err ErrPanic, s) end.

Definition FacadeClose : SE (FacadeDB * Host) unit := on_edb CloseDB.
End facade.

(** ** Collections of the facade *)
Section facade_spec.
Context {sha : Sha256}.

Lemma CollectionWithConfig_reopens db h name cfg c logs log :
  let dir := join (db_dataDir db) name in
  db_collections db !! name = Some c → coll_inv c (h_world h) logs log → no_faults (h_world h) → c_dir c = dir →
  wf_index (c_index c) → wf_meta (metaSnapshot c) → glob dir "seg_" ".ndjson" (w_files (h_world h)) = paths c → quiet dir (h_world h) →
  ∃ db' h' c', CollectionWithConfig name cfg (db, h) = (Ok tt, (db', h')) ∧ db_collections db' !! name = Some c' ∧
    coll_inv c' (h_world h') logs log ∧ ∀ other, other ≠ name → db_collections db' !! other = db_collections db !! other.
Proof.
  intros dir Hc Hinv Hw Hd Hi Hm Hg Hq.
  destruct (CloseCollection_reopen name (db_dataDir db) cfg c (h_world h) logs log Hinv Hw Hd Hi Hm Hg Hq) as (c1 & w1 & c2 & w2 & E1 & E2 & Hinv2).
  unfold CollectionWithConfig. erewrite bind_ok by reflexivity. cbn [fst]. rewrite Hc.
  set (db1 := flush name c1 db). assert (db_dataDir db1 = db_dataDir db ∧ db_collections db1 = <[name := set_feed [] c1]> (db_collections db))
    as [D1 D2] by (subst db1; by destruct db).
  assert (with_collection name CloseCollection (db, h) = (Ok tt, (db1, MkHost w1 (h_dirs h)))) as Hclose.
  { unfold with_collection. by rewrite Hc, E1. }
  set (db2 := set_collections (delete name (db_collections db1)) db1).
  assert (db_dataDir db2 = db_dataDir db) as D3 by (subst db2; rewrite <-D1; by destruct db1).
  set (dirs := match w_faults w1 with Some _ :: _ => h_dirs h | _ => {[name]} ∪ h_dirs h end).
  assert (open_collection name cfg (db2, MkHost w1 (h_dirs h)) = (Ok (set_broker (bool_decide (is_Some (db_broker db2))) c2), (db2, MkHost w2 dirs))) as Hopen.
  { unfold open_collection. cbn [h_world h_dirs]. by rewrite D3, E2. }
  erewrite bind_ok; [|erewrite bind_ok by exact Hclose; reflexivity]. fold db2. erewrite bind_ok by exact Hopen.
  unfold register, modify_db. eexists _, _, _. split; [reflexivity|].
  assert (∀ x, db_collections (set_collections x db2) = x) as D4 by (intros; by destruct db2).
  assert (db_collections db2 = delete name (db_collections db1)) as D5 by (subst db2; by destruct db1).
  rewrite D4. split; [by rewrite lookup_insert_eq|]. split.
  - eapply coll_inv_same; [|exact Hinv2]. by destruct c2.
  - intros other Hne. by rewrite lookup_insert_ne, D5, D2, lookup_delete_ne, lookup_insert_ne.
Qed.

(** A collection opened through the facade: the first request for a name
    closes the collection the engine opened and opens it again under the options
    given, with the same log and every other collection untouched; any later
    request for the name, whatever its options, succeeds and changes nothing. *)
Theorem facade_first_wins (f : FacadeDB) (h : Host) (name : string) (opts : list (collectionOptions → collectionOptions))
    (c : Collection) (logs : list (list (Z * Entry))) (log : list (Z * Entry)) :
  let db := f_edb f in
  let dir := join (db_dataDir db) name in
  name ∉ f_cols f → co_unique (options (f_base f) opts) = [] → db_collections db !! name = Some c → coll_inv c (h_world h) logs log →
  no_faults (h_world h) → c_dir c = dir → wf_index (c_index c) → wf_meta (metaSnapshot c) →
  glob dir "seg_" ".ndjson" (w_files (h_world h)) = paths c → quiet dir (h_world h) →
  ∃ f' h' c', FacadeCollection name opts (f, h) = (Ok tt, (f', h')) ∧ db_collections (f_edb f') !! name = Some c' ∧
    coll_inv c' (h_world h') logs log ∧ (∀ other, other ≠ name → db_collections (f_edb f') !! other = db_collections db !! other) ∧
    ∀ opts', FacadeCollection name opts' (f', h') = (Ok tt, (f', h')).
Proof.
  intros db dir Hn Hu Hc Hinv Hw Hd Hi Hm Hg Hq.
  destruct (CollectionWithConfig_reopens db h name (co_cfg (options (f_base f) opts)) c logs log Hc Hinv Hw Hd Hi Hm Hg Hq)
    as (db' & h' & c' & E & Hc' & Hinv' & Ho).
  exists (MkFacade db' (f_base f) ({[name]} ∪ f_cols f)), h', c'. split; [|split_and!; [done..|]].
  - unfold FacadeCollection. rewrite bool_decide_false by done. erewrite bind_ok by (unfold on_edb; fold db; rewrite E; reflexivity). by rewrite Hu.
  - intros opts'. unfold FacadeCollection. rewrite bool_decide_true; [done|]. cbn [f_cols]. set_solver.
Qed.
End facade_spec.

(** A database with one collection, opened through the facade. *)
Definition demo_facade : FacadeDB :=
  MkFacade (MkDB "d" defaultConfig {["u" := demo_coll]} None 0 RoleLeader 0 false false) base_config ∅.

Lemma facade_first_wins_witness :
  ∃ f' h' c', @FacadeCollection length_digest "u" [WithMaxRecords 5] (demo_facade, MkHost demo_world {["u"]}) = (Ok tt, (f', h')) ∧
    db_collections (f_edb f') !! "u" = Some c' ∧ coll_inv c' (h_world h') [] demo_log ∧
    (∀ other, other ≠ "u" → db_collections (f_edb f') !! other = db_collections (f_edb demo_facade) !! other) ∧
    ∀ opts', @FacadeCollection length_digest "u" opts' (f', h') = (Ok tt, (f', h')).
Proof.
  apply (@facade_first_wins length_digest demo_facade (MkHost demo_world {["u"]}) "u" [WithMaxRecords 5] demo_coll [] demo_log).
  - apply not_elem_of_empty.
  - reflexivity.
  - reflexivity.
  - apply demo_inv.
  - reflexivity.
  - reflexivity.
  - intros id e He. unfold demo_coll in He. cbn [c_index] in He. apply lookup_singleton_Some in He as [<- <-].
    split; [reflexivity|]. split; simpl; first [vm_compute; reflexivity|lia].
  - split; [vm_compute; reflexivity|vm_compute; reflexivity|exact exp_ok_never|exact I].
  - vm_compute. reflexivity.
  - apply demo_quiet. vm_compute. reflexivity.
Defined.

(** ** Reopening with a passphrase *)

(** The parameters a collection's metadata records. *)
Definition recorded (d : string) (w : World) (name : string) : option EncryptionKDF :=
  match (loadMeta (metaPath (join d name)) w).1 with Ok m => m_Encryption m ≫= em_KDF | Err _ => None end.

Lemma loadMeta_world p w : no_faults w → (loadMeta p w).2 = w.
Proof.
  intros Hw. unfold loadMeta, read_file, mbind, SE_bind. rewrite syscall_nofault by done. unfold file_bytes. by destruct (w_files w !! p).
Qed.

Lemma find_kdf_spec d names w : no_faults w → find_kdf d names w = (Ok (head (omap (recorded d w) names)), w).
Proof.
  intros Hw. induction names as [|name names IH]; [done|]. cbn [find_kdf omap list_omap]. unfold recorded at 1.
  pose proof (loadMeta_world (metaPath (join d name)) w Hw) as E. destruct (loadMeta (metaPath (join d name)) w) as [[m|e] w']; cbn [fst snd] in *; subst w'; [|done].
  by destruct (m_Encryption m ≫= em_KDF).
Qed.

Lemma head_omap_same {A B} (f : A → option B) (b : B) l :
  (∀ x, x ∈ l → f x = None ∨ f x = Some b) → (∃ x, x ∈ l ∧ f x = Some b) → head (omap f l) = Some b.
Proof.
  induction l as [|x l IH]; intros Hall (y & Hy & Hb); [by apply not_elem_of_nil in Hy|]. cbn [omap list_omap].
  destruct (Hall x) as [E|E]; [apply elem_of_cons; by left|rewrite E|by rewrite E].
  apply IH; [intros z Hz; apply Hall, elem_of_cons; by right|]. apply elem_of_cons in Hy as [->|Hy]; [congruence|eauto].
Qed.

Lemma omap_none {A B} (f : A → option B) l : (∀ x, x ∈ l → f x = None) → omap f l = [].
Proof.
  induction l as [|x l IH]; intros Hall; [done|]. cbn [omap list_omap]. rewrite Hall by (apply elem_of_cons; by left).
  apply IH. intros z Hz. apply Hall, elem_of_cons. by right.
Qed.

Section reopening.
Context {argon : Argon2} {argon_laws : Argon2Laws} (salts : N → Z → bytes).

Lemma FindPersistedKDF_spec d h : no_faults (h_world h) →
  FindPersistedKDF d h = (Ok (head (omap (recorded d (h_world h)) (dir_names h))), h).
Proof.
  intros Hw. unfold FindPersistedKDF. erewrite bind_ok by (apply on_world_ok, syscall_nofault, Hw). destruct h as [w ds]. cbn [h_world h_dirs].
  unfold on_world. by rewrite find_kdf_spec.
Qed.

Lemma derived_ring pass salt params :
  k_KeyLen params = N.of_nat KeySize → ∃ kr, NewKeyring builtinKeyID (DeriveKey pass salt params) = Ok kr ∧ Current kr = Ok (builtinKeyID, DeriveKey pass salt params).
Proof.
  intros Hk. destruct (NewKeyring builtinKeyID (DeriveKey pass salt params)) as [kr|e] eqn:E.
  - exists kr. split; [done|]. by apply NewKeyring_ok in E as [_ ?].
  - exfalso. unfold NewKeyring, Add in E. assert (validateKeyID builtinKeyID = Ok tt) as Hv by reflexivity. rewrite Hv in E. cbn [mbind result_bind] in E.
    unfold DeriveKey in E. rewrite argon2_length, Hk, Nat2N.id, Nat.eqb_refl in E. discriminate E.
Qed.

(** The first resolution makes a salt, a later one finds it. *)
Lemma resolve_first d pass params h :
  no_faults (h_world h) → (∀ name, name ∈ h_dirs h → recorded d (h_world h) name = None) →
  k_KeyLen params = N.of_nat KeySize → (0 < k_SaltLen params)%Z →
  ∃ kr salt h1, resolvePassphrase salts d pass params h = (Ok (kr, MkKDF "argon2id" (of_bytes (b64_encode salt)) params), h1) ∧
    w_files (h_world h1) = w_files (h_world h) ∧ NewKeyring builtinKeyID (DeriveKey pass salt params) = Ok kr ∧
    Current kr = Ok (builtinKeyID, DeriveKey pass salt params).
Proof.
  intros Hw Hnone Hk Hs. set (salt := salts (w_seed (h_world h)) (k_SaltLen params)). destruct (derived_ring pass salt params Hk) as (kr & E & Hc).
  exists kr, salt, (MkHost (rand_seed (h_world h)).2 (h_dirs h)). split; [|by split_and!]. unfold resolvePassphrase. erewrite bind_ok by (by apply FindPersistedKDF_spec).
  rewrite omap_none by (intros name Hin%elem_of_dir_names; by apply Hnone). cbn [head].
  erewrite bind_ok; [|erewrite bind_ok; [reflexivity|apply on_world_ok; unfold NewSalt; rewrite (proj2 (Z.leb_gt _ _)) by done; reflexivity]].
  cbv beta iota. fold salt. by erewrite bind_ok by (unfold lift; rewrite E; reflexivity).
Qed.

Lemma resolve_again d pass params params' salt kr h :
  let kdf := MkKDF "argon2id" (of_bytes (b64_encode salt)) params in
  no_faults (h_world h) → NewKeyring builtinKeyID (DeriveKey pass salt params) = Ok kr →
  (∀ name, name ∈ h_dirs h → recorded d (h_world h) name = None ∨ recorded d (h_world h) name = Some kdf) →
  (∃ name, name ∈ h_dirs h ∧ recorded d (h_world h) name = Some kdf) →
  resolvePassphrase salts d pass params' h = (Ok (kr, kdf), h).
Proof.
  intros kdf Hw E Hall (name & Hin & Hr). unfold resolvePassphrase. erewrite bind_ok by (by apply FindPersistedKDF_spec).
  rewrite (head_omap_same _ kdf) by (first [intros x Hx%elem_of_dir_names; by apply Hall|exists name; by rewrite elem_of_dir_names]).
  assert (b64_decode (to_bytes (kdf_Salt kdf)) = Some salt) as Hd by (unfold kdf; cbn [kdf_Salt]; by rewrite to_of_bytes, b64_decode_encode).
  rewrite Hd. erewrite bind_ok by reflexivity. cbv beta iota. change (kdf_Params kdf) with params. by erewrite bind_ok by (unfold lift; rewrite E; reflexivity).
Qed.

(** Encryption switched on while a collection is opened. *)
Lemma initEncryption_first {CI : AEAD} {CL : AEADLaws} nonces kp pol kdf c w s w' :
  (∀ seed f, length (nonces seed f) = NonceSize) → no_faults w → c_enc c = None →
  match (loadMeta (metaPath (c_dir c)) w).1 with Ok m => m_Encryption m = None | Err _ => True end →
  initEncryption nonces (Some kp) (Some pol) kdf (MkEncColl c None None, w) = (Ok tt, (s, w')) →
  (resolves kp kp → enc_inv nonces s ∧ key_checked s) ∧ ec_keyProvider s = Some kp ∧ (∃ em, c_encMeta (ec_coll s) = Some em ∧ em_KDF em = kdf) ∧
  c_dir (ec_coll s) = c_dir c ∧ c_name (ec_coll s) = c_name c ∧
  ∃ w1, no_faults w1 ∧ persistMeta (metaPath (c_dir (ec_coll s))) (metaSnapshot (ec_coll s)) w1 = (Ok tt, w').
Proof.
  intros Hnon Hw Henc Hnone. unfold initEncryption. cbn [ec_coll ec_enc]. pose proof (loadMeta_world (metaPath (c_dir c)) w Hw) as Hlw.
  destruct (loadMeta (metaPath (c_dir c)) w) as [loaded w0]. cbn [fst snd] in *. subst w0.
  assert (match loaded with Ok m => m_Encryption m | Err _ => None end = None) as -> by (by destruct loaded).
  destruct (validate pol) as [[]|e] eqn:Hv; [|done]. erewrite bind_ok by reflexivity.
  destruct (kp_Current kp) as [[id key]|e] eqn:Hc; [|done]. erewrite bind_ok by reflexivity. cbn [fst snd].
  set (s0 := MkEncColl c None (Some kp)). destruct (make_key_check nonces key id (s0, w)) as [rk [s1 w1]] eqn:Hk.
  destruct (make_key_check_spec nonces Hnon _ _ _ _ _ _ _ Hk) as (-> & -> & Hvk).
  destruct rk as [kc|e]; [erewrite bind_ok by exact Hk|by erewrite bind_err by exact Hk].
  unfold enable_first, persist_snapshot. cbv zeta. set (em := MkEncMeta pol (p_Mode pol) 1 kdf kc id).
  set (s2 := install nonces kp (newEncryptor (c_name (ec_coll s0)) (p_Mode pol) pol 1) (with_encMeta (Some em) s0)).
  destruct (persistMeta _ _ (rand_seed w).2) as [[[]|e] w2] eqn:Hp; [|done]. intros [= <- <-].
  assert (p_Mode pol = EncryptModeFields ∨ p_Mode pol = EncryptModeRecord) as Hmode by (by apply validate_mode).
  assert (readMode em = p_Mode pol) as Hrm by (unfold readMode, em; cbn; rewrite bool_decide_false; [done|]; intros E; rewrite E in Hmode; by destruct Hmode).
  split; [|split_and!; [done| | | |by exists (rand_seed w).2]]; [|by exists em; destruct c|by destruct c..].
  intros Hres. unfold enc_inv, key_checked.
  assert (ec_enc s2 = Some (newEncryptor (c_name c) (p_Mode pol) pol 1) ∧ c_encMeta (ec_coll s2) = Some em) as [-> ->] by (by destruct c).
  split; [split; [done|]|exists kp, id, key; split_and!; [done|done|by apply Hvk]]. split.
  - rewrite Hrm. by destruct c.
  - by rewrite Hrm.
  - rewrite Hrm. exists (c_name c), pol, 1%N. split; [done|]. by right.
  - by destruct c.
  - exists kp, key. split_and!; [done|by apply Hres|by apply Hvk].
Qed.

(** [C31] A passphrase is enough to reopen: with a passphrase and no encrypted
    collection on disk a salt is made and a key derived under the built-in id.  A
    collection that is then opened with a policy under that key records the salt.
    The next time, as long as every other collection records the same parameters or
    none, the passphrase alone gives the same keyring and the same parameters,
    whatever the default parameters are by then; and the collection opens with the
    encryptor it had, over the same key. *)
Theorem passphrase_reopens {CI : AEAD} {CL : AEADLaws} (nonces : N → string → bytes) (d pass : string) (h : Host) :
  (∀ seed f, length (nonces seed f) = NonceSize) →
  no_faults (h_world h) → (∀ name, name ∈ h_dirs h → recorded d (h_world h) name = None) →
  ∃ kr kdf h1 key, resolvePassphrase salts d pass DefaultKDFParams h = (Ok (kr, kdf), h1) ∧
    w_files (h_world h1) = w_files (h_world h) ∧ Current kr = Ok (builtinKeyID, key) ∧ length key = KeySize ∧
    ∀ (name : string) (pol : EncryptionPolicy) (c c2 : Collection) (w : World) (s : EncColl) (w' : World) (dirs : gset string) (params : KDFParams),
      no_faults w → c_enc c = None → c_dir c = join d name → name ∈ dirs →
      match (loadMeta (metaPath (c_dir c)) w).1 with Ok m => m_Encryption m = None | Err _ => True end →
      initEncryption nonces (Some (keyring_provider kr)) (Some pol) (Some kdf) (MkEncColl c None None, w) = (Ok tt, (s, w')) →
      wf_meta (metaSnapshot (ec_coll s)) →
      (∀ other, other ∈ dirs → recorded d w' other = None ∨ recorded d w' other = Some kdf) →
      c_name c2 = c_name c → c_dir c2 = c_dir c → c_encMeta c2 = None → c_enc c2 = None →
      resolvePassphrase salts d pass params (MkHost w' dirs) = (Ok (kr, kdf), MkHost w' dirs) ∧
      ∃ s', initEncryption nonces (Some (keyring_provider kr)) None None (MkEncColl c2 None None, w') = (Ok tt, (s', w')) ∧
        ec_enc s' = ec_enc s ∧ c_enc (ec_coll s') = c_enc (ec_coll s).
Proof.
  intros Hnon Hw Hnone. destruct (resolve_first d pass DefaultKDFParams h Hw Hnone eq_refl eq_refl) as (kr & salt & h1 & R1 & R2 & R3 & R4).
  exists kr, (MkKDF "argon2id" (of_bytes (b64_encode salt)) DefaultKDFParams), h1, (DeriveKey pass salt DefaultKDFParams).
  split_and!; [done|done|done|unfold DeriveKey; by rewrite argon2_length|].
  intros name pol c c2 w s w' dirs params Hw0 Henc Hdir Hin Hm Hrun Hwf Hall Hn Hd Hc Hc2.
  destruct (initEncryption_first nonces _ pol _ c w s w' Hnon Hw0 Henc Hm Hrun) as (Hinv & Hkp & (em & Hem & Hkdf) & Hsd & Hsn & w1 & Hw1 & Hp).
  assert (resolves (keyring_provider kr) (keyring_provider kr)) as Hres by (intros id k Hk%Current_ByID; cbn; unfold ByID; by rewrite Hk).
  destruct (Hinv Hres) as [Hi Hkc].
  destruct (persist_current s w1 w' Hw1 Hwf Hp) as [Hw2 Hdisk].
  destruct (initEncryption_restores nonces s w' c2 Hi Hkc Hw2 Hdisk) as (s' & I1 & I2 & _ & I3); [congruence|congruence|done|done|].
  rewrite Hkp in I1. split; [|by exists s']. apply resolve_again; [done|done|done|]. exists name. split; [done|]. cbn [h_world].
  destruct (loadMeta_current s w' Hw2 Hdisk) as (m & Hl & Hmm). unfold recorded. rewrite <-Hdir, <-Hsd, Hl. cbn [fst]. by rewrite Hmm, Hem.
Qed.
End reopening.

(** ** A passphrase and a policy set at run time *)

(** A stand-in for Argon2 and for random salts. *)
#[local] Instance pad_argon : Argon2 := λ pass salt _ _ _ n, take (N.to_nat n) (salt ++ pass ++ repeat "x"%char (N.to_nat n)).
Lemma pad_argon_laws : @Argon2Laws pad_argon.
Proof. split. intros. unfold argon2_IDKey, pad_argon. rewrite length_take, !length_app, repeat_length. lia. Qed.
Definition seed_salts : N → Z → bytes := λ seed n, repeat (ascii_of_N (65 + seed)) (Z.to_nat n).

(** The host of a plain collection, and the key a passphrase gives on it. *)
Definition plain_host : Host := MkHost plain_disk {["u"]}.
Definition resolve_pw (h : Host) : result (Keyring * EncryptionKDF) * Host := resolvePassphrase seed_salts "d" "pw" DefaultKDFParams h.
Definition ring_of (r : result (Keyring * EncryptionKDF)) : Keyring := match r with Ok (k, _) => k | Err _ => MkKeyring ∅ "" end.
Definition pw_provider (h : Host) : KeyProvider := keyring_provider (ring_of (resolve_pw h).1).

(** Encryption is switched on with [SetEncryptionPolicy]. *)
Definition enabled_later : result unit * (EncColl * World) :=
  @SetEncryptionPolicy clear_aead demo_nonces (Some fields_policy) (MkEncColl demo_coll None (Some (pw_provider plain_host)), h_world (resolve_pw plain_host).2).
Definition later_host : Host := MkHost enabled_later.2.2 {["u"]}.

(** The salt is persisted only by opening a collection with a policy: when
    encryption is switched on at run time the settings are stored without it.  The
    next start makes another salt, and with the right passphrase the collection
    does not open any more. *)
Theorem runtime_passphrase_lost :
  is_Ok (resolve_pw plain_host).1 = true ∧ enabled_later.1 = Ok tt ∧ recorded "d" (h_world later_host) "u" = None ∧
  is_Ok (resolve_pw later_host).1 = true ∧
  (@initEncryption clear_aead demo_nonces (Some (pw_provider later_host)) None None
     (MkEncColl demo_coll None None, h_world (resolve_pw later_host).2)).1 = Err ErrWrongEncryptionKey.
Proof. split_and!; vm_compute; reflexivity. Qed.

(** ** Witness *)

(** The same collection opened with the policy. *)
Definition kdf_of (r : result (Keyring * EncryptionKDF)) : EncryptionKDF := match r with Ok (_, k) => k | Err _ => MkKDF "" "" DefaultKDFParams end.
Definition enabled_first : result unit * (EncColl * World) :=
  @initEncryption clear_aead demo_nonces (Some (pw_provider plain_host)) (Some fields_policy) (Some (kdf_of (resolve_pw plain_host).1))
    (MkEncColl demo_coll None None, plain_disk).

Lemma enabled_first_ok : enabled_first = (Ok tt, (enabled_first.2.1, enabled_first.2.2)).
Proof. assert (enabled_first.1 = Ok tt) as H by (vm_compute; reflexivity). revert H. generalize enabled_first. intros [r [s w]] H. cbn in *. by subst. Qed.

Lemma enabled_first_wf : wf_meta (metaSnapshot (ec_coll enabled_first.2.1)).
Proof.
  split; [vm_compute; reflexivity|vm_compute; reflexivity|vm_compute; split; discriminate || reflexivity|].
  vm_compute (m_Encryption _). split; try (vm_compute; reflexivity).
  all: repeat (first [split|constructor]; try (vm_compute; first [reflexivity|discriminate])).
Qed.

Lemma resolved_parts (x : result (Keyring * EncryptionKDF) * Host) kr kdf h : x = (Ok (kr, kdf), h) → ring_of x.1 = kr ∧ kdf_of x.1 = kdf.
Proof. by intros ->. Qed.

Lemma passphrase_reopens_witness :
  resolve_pw (MkHost enabled_first.2.2 {["u"]}) =
    (Ok (ring_of (resolve_pw plain_host).1, kdf_of (resolve_pw plain_host).1), MkHost enabled_first.2.2 {["u"]}) ∧
  ∃ s', @initEncryption clear_aead demo_nonces (Some (pw_provider plain_host)) None None (MkEncColl demo_coll None None, enabled_first.2.2) =
      (Ok tt, (s', enabled_first.2.2)) ∧ ec_enc s' = ec_enc enabled_first.2.1 ∧ c_enc (ec_coll s') = c_enc (ec_coll enabled_first.2.1).
Proof.
  destruct (@passphrase_reopens pad_argon pad_argon_laws seed_salts clear_aead clear_aead_laws demo_nonces "d" "pw" plain_host)
    as (kr & kdf & h1 & key & E & _ & _ & _ & H).
  - reflexivity.
  - reflexivity.
  - intros name Hin. unfold plain_host in Hin. cbn [h_dirs] in Hin. apply elem_of_singleton in Hin as ->. vm_compute. reflexivity.
  - assert (ring_of (resolve_pw plain_host).1 = kr ∧ kdf_of (resolve_pw plain_host).1 = kdf) as [E1 E2] by exact (resolved_parts _ _ _ _ E).
    unfold resolve_pw at 1, pw_provider. rewrite E1, E2.
    apply (H "u" fields_policy demo_coll demo_coll plain_disk enabled_first.2.1 enabled_first.2.2 {["u"]} DefaultKDFParams).
    + reflexivity.
    + reflexivity.
    + reflexivity.
    + by apply elem_of_singleton.
    + vm_compute. reflexivity.
    + rewrite <-E1, <-E2. exact enabled_first_ok.
    + exact enabled_first_wf.
    + intros other ->%elem_of_singleton. right. rewrite <-E2. vm_compute. reflexivity.
    + reflexivity.
    + reflexivity.
    + reflexivity.
    + reflexivity.
Defined.
