(* ===== verification/Auth.v ===== *)
(** * Authorisation and limits (internal/auth, server/readonly.go, server/limits.go)

    The checks a call passes before its handler runs: API keys with scopes and
    collection allow-lists, client certificates, the read-only guard of a
    follower, and the limits on rate and concurrency.  A handler is a function on
    the server's state; that a refused call leaves the state alone is part of the
    theorems.  Token buckets (golang.org/x/time/rate) are the class [RateLimiter]. *)

From S2P Require Import Prelude GoFloat GoJson Value Query Store Disk GoStrings.
From Stdlib Require Import SpecFloat.

(** ** Scopes (scope.go) *)
Inductive Scope := ScopeRead | ScopeReadWrite.
#[global] Instance Scope_eq_dec : EqDecision Scope.
Proof. solve_decision. Defined.

Definition Scope_String (s : Scope) : string := match s with ScopeRead => "read" | ScopeReadWrite => "read-write" end.

(** [strings.ToLower]; no letter outside ASCII lowers to a letter of the names. *)
Definition lower (s : string) : string := of_bytes (map to_lower (to_bytes s)).

Definition ParseScope (s : string) : result Scope :=
  let s := lower (TrimSpace s) in
  if bool_decide (s ∈ [""; "read"; "ro"; "readonly"; "read-only"]) then Ok ScopeRead
  else if bool_decide (s ∈ ["read-write"; "readwrite"; "rw"; "write"]) then Ok ScopeReadWrite
  else Err ErrOther.

Definition auth_writeMethods : list string :=
  ["CreateCollection"; "DropCollection"; "Insert"; "InsertMany"; "Update"; "Delete"; "EnsureIndex"; "DropIndex";
   "BeginTx"; "CommitTx"; "RollbackTx"; "Compact"; "Promote"].
Definition readMethods : list string :=
  ["ListCollections"; "FindById"; "Find"; "ListIndexes"; "Watch"; "CollectionStats"; "Snapshot"; "Replicate"; "ReplicationStatus"].

(** The part after the last slash. *)
Definition short_name (fullMethod : string) : string :=
  of_bytes (foldl (λ acc c, if bool_decide (c = "/"%char) then [] else acc ++ [c]) [] (to_bytes fullMethod)).

Definition methodRequiresWrite (fullMethod : string) : bool :=
  let name := short_name fullMethod in
  if bool_decide (name ∈ auth_writeMethods) then true
  else if bool_decide (name ∈ readMethods) then false
  else true.

(** ** Keys and principals (apikey.go) *)
Record Key := MkKey {
  key_Key : string;
  key_Name : string;
  key_Scope : Scope;
  key_Collections : list string
}.

(** [collections] is [None] for a nil (unrestricted) allow-list. *)
Record principal := MkPrincipal {
  pr_name : string;
  pr_scope : Scope;
  pr_collections : option (gset string)
}.

Definition zero_principal : principal := MkPrincipal "" ScopeRead None.

Definition allowsCollection (p : principal) (name : string) : bool :=
  match pr_collections p with None => true | Some cs => bool_decide (name ∈ cs) end.

(** A request message: the collection its [GetCollection] returns, if it has one,
    and the other name it may carry (the [name] of CreateCollection and
    DropCollection). *)
Record request := MkRequest {
  rq_collection : option string;
  rq_name : string
}.

Definition checkCollectionAccess (p : principal) (req : request) : result unit :=
  match pr_collections p with
  | None => Ok tt
  | Some _ =>
      match rq_collection req with
      | None => Ok tt
      | Some name => if negb (allowsCollection p name) then Err ErrPermissionDenied else Ok tt
      end
  end.

Record Principal := MkPrincipalInfo { p_Name : string; p_Scope : Scope }.

Record keyEntry := MkKeyEntry { ke_key : bytes; ke_principal : principal }.
Abbreviation keySet := (list keyEntry).

Definition ks_enabled (ks : keySet) : bool := (0 <? length ks)%nat.

(** The loop visits every entry; the last match wins. *)
Definition lookup_key (ks : keySet) (provided : bytes) : option principal :=
  foldl (λ found e, if bool_decide (ke_key e = provided) then Some (ke_principal e) else found) None ks.

Definition principal_of (k : Key) : principal :=
  MkPrincipal (if bool_decide (key_Name k = "") then "unnamed" else key_Name k) (key_Scope k)
    (match key_Collections k with [] => None | cs => Some (list_to_set cs) end).

Fixpoint build_entries (seen : gset string) (keys : list Key) : result keySet :=
  match keys with
  | [] => Ok []
  | k :: keys =>
      if bool_decide (key_Key k = "") then Err ErrOther
      else if bool_decide (key_Key k ∈ seen) then Err ErrOther
      else
        es ← build_entries ({[key_Key k]} ∪ seen) keys;
        Ok (MkKeyEntry (to_bytes (key_Key k)) (principal_of k) :: es)
  end.

Definition buildKeySet (keys : list Key) : result keySet := build_entries ∅ keys.

(** ** Certificates (mtls.go) *)
Record Certificate := MkCert {
  cert_CommonName : string;
  cert_DNSNames : list string;
  cert_EmailAddresses : list string;
  cert_URIs : list string;
  cert_Subject : string
}.

Definition certAuthScope : Scope := ScopeReadWrite.

Definition certPrincipalName (c : Certificate) : string :=
  if negb (bool_decide (cert_CommonName c = "")) then cert_CommonName c
  else match cert_DNSNames c, cert_EmailAddresses c, cert_URIs c with
       | n :: _, _, _ => n
       | [], e :: _, _ => e
       | [], [], u :: _ => u
       | [], [], [] => cert_Subject c
       end.

(** ** Calls *)

(** What a call brings: the values of its x-api-key header ([None] without
    metadata) and the verified certificate chains of a TLS peer. *)
Record call_ctx := MkCtx {
  cx_apiKeys : option (list string);
  cx_chains : option (list (list Certificate))
}.

Definition principalFromPeerCert (cx : call_ctx) : option Principal :=
  match cx_chains cx with
  | Some ((leaf :: _) :: _) => Some (MkPrincipalInfo (certPrincipalName leaf) certAuthScope)
  | _ => None
  end.

Record Authenticator := MkAuthenticator { au_keys : keySet; au_certAuth : bool }.

Definition New (keys : list Key) (certAuth : bool) : result Authenticator :=
  ks ← buildKeySet keys; Ok (MkAuthenticator ks certAuth).

(** The new authenticator; on an error the old one stays. *)
Definition Reload (a : Authenticator) (keys : list Key) : result unit * Authenticator :=
  match buildKeySet keys with
  | Err e => (Err e, a)
  | Ok ks => (Ok tt, MkAuthenticator ks (au_certAuth a))
  end.

Definition presented_key (cx : call_ctx) : option string :=
  match cx_apiKeys cx with Some (k :: _) => Some k | _ => None end.

(** The outcome: the principal deposited for the audit log, and the error or the
    identity the context carries ([None] when authentication is off) with the
    resolved principal. *)
Definition authorize (a : Authenticator) (cx : call_ctx) (fullMethod : string)
    : option Principal * result (option Principal * principal) :=
  let keyAuth := ks_enabled (au_keys a) in
  if (negb keyAuth && negb (au_certAuth a))%bool then (None, Ok (None, zero_principal))
  else
    let by_key := if keyAuth then presented_key cx else None in
    let found : result (option principal) :=
      match by_key with
      | Some k => match lookup_key (au_keys a) (to_bytes k) with Some p => Ok (Some p) | None => Err ErrUnauthenticated end
      | None => Ok None
      end in
    match found with
    | Err e => (None, Err e)
    | Ok found =>
        let found :=
          match found with
          | Some p => Some p
          | None =>
              if au_certAuth a then
                cp ← principalFromPeerCert cx; Some (MkPrincipal (p_Name cp) (p_Scope cp) None)
              else None
          end in
        match found with
        | None => (None, Err ErrUnauthenticated)
        | Some resolved =>
            let p := MkPrincipalInfo (pr_name resolved) (pr_scope resolved) in
            (Some p,
             if (methodRequiresWrite fullMethod && negb (bool_decide (pr_scope resolved = ScopeReadWrite)))%bool
             then Err ErrPermissionDenied else Ok (Some p, resolved))
        end
    end.

(** ** Interceptors *)
Section interceptors.
Context {S A : Type}.
Implicit Types handler : option Principal → request → SE S A.

Definition auth_unary (a : Authenticator) (cx : call_ctx) (fullMethod : string) (req : request) handler : SE S A :=
  match (authorize a cx fullMethod).2 with
  | Err e => fail e
  | Ok (id, p) =>
      match checkCollectionAccess p req with
      | Err e => fail e
      | Ok _ => handler id req
      end
  end.

(** [RecvMsg] of the wrapped stream: the message the client sent, checked if it is
    the first; [checked] is the stream's flag. *)
Definition RecvMsg (p : principal) (checked : bool) (m : request) : bool * result request :=
  if negb checked then
    (true, match checkCollectionAccess p m with Err e => Err e | Ok _ => Ok m end)
  else (checked, Ok m).

(** A server-streaming call: the generated code receives the one request and runs
    the handler. *)
Definition auth_stream (a : Authenticator) (cx : call_ctx) (fullMethod : string) (req : request) handler : SE S A :=
  match (authorize a cx fullMethod).2 with
  | Err e => fail e
  | Ok (id, p) =>
      match (RecvMsg p false req).2 with
      | Err e => fail e
      | Ok m => handler id m
      end
  end.

(** ** The read-only guard (readonly.go) *)
Definition method (name : string) : string := "/scriva.v1.Scriva/" +:+ name.

Definition replica_writeMethods : list string :=
  map method ["CreateCollection"; "DropCollection"; "Insert"; "InsertMany"; "Update"; "Delete"; "Upsert"; "UpdateByKey";
    "DeleteByKey"; "UpdateIfRev"; "EnsureIndex"; "DropIndex"; "BeginTx"; "CommitTx"; "RollbackTx"; "Compact"].

Definition isWriteMethod (fullMethod : string) : bool := bool_decide (fullMethod ∈ replica_writeMethods).

(** [isFollower] reads the role at the time of the call. *)
Definition readonly_unary (isFollower : S → bool) (fullMethod : string) (handler : SE S A) : SE S A := λ s,
  if (isFollower s && isWriteMethod fullMethod)%bool then (Err ErrFailedPrecondition, s) else handler s.
End interceptors.

(** ** Limits (limits.go) *)

(** A token bucket: created with a rate and a burst, it admits or refuses a
    request at a time and changes. *)
Class RateLimiter := {
  bucket : Type;
  NewBucket : f64 → Z → bucket;
  Allow : bucket → Z → bool * bucket
}.

(** [int(math.Ceil(x))] for a positive finite [x] in the range of [int]. *)
Definition ceil_int (x : f64) : Z :=
  match x with
  | S754_finite false m e => if (0 <=? e)%Z then (Zpos m * 2 ^ e)%Z else ((Zpos m + 2 ^ (- e) - 1) / 2 ^ (- e))%Z
  | _ => 0%Z
  end.

Section limiter.
Context `{!RateLimiter}.

(** The semaphore is its capacity and the number of slots taken. *)
Record Limiter := MkLimiter {
  l_sem : option (Z * Z);
  l_rps : f64;
  l_burst : Z;
  l_buckets : option (gmap string bucket)
}.

Definition NewLimiter (maxInflight : Z) (ratePerSec : f64) : Limiter :=
  let sem := if (0 <? maxInflight)%Z then Some (maxInflight, 0%Z) else None in
  if f64_lt f64_zero ratePerSec then
    MkLimiter sem ratePerSec (if (ceil_int ratePerSec <? 1)%Z then 1%Z else ceil_int ratePerSec) (Some ∅)
  else MkLimiter sem f64_zero 0 None.

Definition Enabled (l : Limiter) : bool :=
  match l_sem l, l_buckets l with None, None => false | _, _ => true end.

Definition set_buckets (b : gmap string bucket) (l : Limiter) : Limiter := MkLimiter (l_sem l) (l_rps l) (l_burst l) (Some b).
Definition set_sem (sem : Z * Z) (l : Limiter) : Limiter := MkLimiter (Some sem) (l_rps l) (l_burst l) (l_buckets l).

Definition limiterFor (l : Limiter) (buckets : gmap string bucket) (name : string) : bucket :=
  default (NewBucket (l_rps l) (l_burst l)) (buckets !! name).

Definition allow (id : option Principal) (now : Z) (l : Limiter) : result unit * Limiter :=
  match l_buckets l with
  | None => (Ok tt, l)
  | Some buckets =>
      let name := match id with Some p => p_Name p | None => "anonymous" end in
      let '(ok, b) := Allow (limiterFor l buckets name) now in
      (if ok : bool then Ok tt else Err ErrResourceExhausted, set_buckets (<[name := b]> buckets) l)
  end.

Definition acquire (l : Limiter) : result unit * Limiter :=
  match l_sem l with
  | None => (Ok tt, l)
  | Some (cap, n) => if (n <? cap)%Z then (Ok tt, set_sem (cap, n + 1)%Z l) else (Err ErrResourceExhausted, l)
  end.

(** The deferred release of a slot; the receive blocks while none is taken. *)
Definition release (l : Limiter) : option Limiter :=
  match l_sem l with
  | None => Some l
  | Some (cap, n) => if (0 <? n)%Z then Some (set_sem (cap, n - 1)%Z l) else None
  end.

(** Admission of a call: both limits in the order of the interceptor. *)
Definition enter (id : option Principal) (now : Z) (l : Limiter) : result unit * Limiter :=
  let '(r, l) := allow id now l in
  match r with Err e => (Err e, l) | Ok _ => acquire l end.
End limiter.

(** ** Key lookup *)
Lemma lookup_key_app ks ks' b :
  lookup_key (ks ++ ks') b = match lookup_key ks' b with Some p => Some p | None => lookup_key ks b end.
Proof.
  unfold lookup_key. rewrite foldl_app. generalize (foldl (λ found e, if bool_decide (ke_key e = b) then Some (ke_principal e) else found) None ks).
  induction ks' as [|e ks' IH] using rev_ind; intros o; [done|]. rewrite !foldl_app. cbn [foldl]. case_bool_decide; [done|]. apply IH.
Qed.

Lemma lookup_key_cons e ks b :
  lookup_key (e :: ks) b = match lookup_key ks b with Some p => Some p | None => if bool_decide (ke_key e = b) then Some (ke_principal e) else None end.
Proof. change (e :: ks) with ([e] ++ ks). by rewrite lookup_key_app. Qed.

Lemma build_entries_fresh seen keys ks : build_entries seen keys = Ok ks → ∀ k, k ∈ keys → key_Key k ∉ seen.
Proof.
  revert seen ks. induction keys as [|k0 keys IH]; intros seen ks; [by intros _ k ?%not_elem_of_nil|]. cbn.
  case_bool_decide; [done|]. case_bool_decide as Hs; [done|]. intros (es & He & _)%result_bind_Ok k [->|Hin]%elem_of_cons; [done|].
  pose proof (IH _ _ He k Hin). set_solver.
Qed.

(** With the values of the keys distinct, the loop finds the key that was presented. *)
Lemma lookup_exact seen keys ks v p :
  build_entries seen keys = Ok ks →
  lookup_key ks (to_bytes v) = Some p ↔ ∃ k, k ∈ keys ∧ key_Key k = v ∧ p = principal_of k.
Proof.
  revert seen ks p. induction keys as [|k0 keys IH]; intros seen ks p; cbn.
  { intros [= <-]. split; [done|]. by intros (k & ?%not_elem_of_nil & _). }
  case_bool_decide; [done|]. case_bool_decide; [done|]. intros (es & He & [= <-])%result_bind_Ok.
  rewrite lookup_key_cons. pose proof (λ p, IH _ _ p He) as IH'. cbn [ke_key ke_principal].
  destruct (lookup_key es (to_bytes v)) as [q|] eqn:E.
  - rewrite IH'. split; [intros (k & Hk & ?); exists k; split; [apply elem_of_cons; by right|done]|].
    intros (k & [->|Hk]%elem_of_cons & Hv & ->); [|by exists k]. exfalso.
    destruct (proj1 (IH' q) eq_refl) as (k' & Hk' & Hv' & _). pose proof (build_entries_fresh _ _ _ He k' Hk'). set_solver.
  - split.
    + case_bool_decide as Hb; [|done]. intros [= <-]. exists k0. split; [apply elem_of_cons; by left|]. by apply (inj to_bytes) in Hb.
    + intros (k & [->|Hk]%elem_of_cons & Hv & ->).
      * by rewrite bool_decide_true by (by rewrite Hv).
      * by assert (None = Some (principal_of k)) by (apply IH'; by exists k).
Qed.

Lemma buildKeySet_enabled keys ks : buildKeySet keys = Ok ks → ks_enabled ks = negb (bool_decide (keys = [])).
Proof.
  unfold buildKeySet. destruct keys as [|k keys]; cbn; [by intros [= <-]|]. case_bool_decide; [done|]. case_bool_decide; [done|].
  by intros (es & _ & [= <-])%result_bind_Ok.
Qed.

(** ** Properties *)

(** Who a call is: the key it presents, or the certificate when it presents no
    key. *)
Inductive resolves_to (keys : list Key) (certAuth : bool) (cx : call_ctx) : principal → Prop :=
  | by_key k : keys ≠ [] → k ∈ keys → presented_key cx = Some (key_Key k) → resolves_to keys certAuth cx (principal_of k)
  | by_cert cp : certAuth = true → keys = [] ∨ presented_key cx = None → principalFromPeerCert cx = Some cp →
      resolves_to keys certAuth cx (MkPrincipal (p_Name cp) (p_Scope cp) None).

Definition info (p : principal) : Principal := MkPrincipalInfo (pr_name p) (pr_scope p).

(** Authorisation is exact: a call is let through as a principal if and only
    if authentication is off, or its key is a configured one or, without a key, its
    certificate is verified and certificates are accepted, and that principal's
    scope permits the method. *)
Theorem authorize_exact (keys : list Key) (certAuth : bool) (a : Authenticator) (cx : call_ctx) (m : string)
    (id : option Principal) (p : principal) :
  New keys certAuth = Ok a →
  (authorize a cx m).2 = Ok (id, p) ↔
    (keys = [] ∧ certAuth = false ∧ id = None ∧ p = zero_principal) ∨
    (resolves_to keys certAuth cx p ∧ id = Some (info p) ∧ (methodRequiresWrite m = true → pr_scope p = ScopeReadWrite)).
Proof.
  unfold New. intros (ks & Hks & [= <-])%result_bind_Ok.
  pose proof (λ v p, lookup_exact ∅ keys ks v p Hks) as Hl.
  pose proof (buildKeySet_enabled keys ks Hks) as Hen. unfold authorize. cbn [au_keys au_certAuth]. rewrite Hen.
  assert (∀ q, resolves_to keys certAuth cx q → (∀ q', resolves_to keys certAuth cx q' → q' = q) →
    (Some (info q), if (methodRequiresWrite m && negb (bool_decide (pr_scope q = ScopeReadWrite)))%bool
     then Err ErrPermissionDenied else Ok (Some (info q), q)).2 = Ok (id, p) ↔
    (resolves_to keys certAuth cx p ∧ id = Some (info p) ∧ (methodRequiresWrite m = true → pr_scope p = ScopeReadWrite))) as Hend.
  { intros q Hq Huniq. cbn [snd]. destruct (methodRequiresWrite m); cbn [andb]; [destruct (bool_decide (pr_scope q = ScopeReadWrite)) eqn:Hs; bools; cbn [negb]|].
    - split; [intros ?; by simplify_eq|]. intros (Hr & -> & _). by rewrite (Huniq _ Hr).
    - split; [done|]. intros (Hr & _ & Hs'). rewrite (Huniq _ Hr) in Hs'. by specialize (Hs' eq_refl).
    - split; [intros ?; by simplify_eq|]. intros (Hr & -> & _). by rewrite (Huniq _ Hr). }
  assert (∀ q, resolves_to keys certAuth cx q → ¬ (keys = [] ∧ certAuth = false)) as Hon.
  { intros q Hr [? ?]. destruct Hr; congruence. }
  destruct (bool_decide (keys = [])) eqn:Hk; bools; cbn [negb andb].
  - destruct certAuth eqn:Hca; cbn [negb].
    2:{ cbn [snd]. split; [intros ?; simplify_eq; left; by split_and!|]. intros [(_ & _ & -> & ->)|(Hr & _)]; [done|]. by destruct (Hon _ Hr). }
    destruct (principalFromPeerCert cx) as [cp|] eqn:Hcert; cbn [mbind option_bind].
    + etransitivity; [apply (Hend (MkPrincipal (p_Name cp) (p_Scope cp) None)); [apply by_cert; auto|intros q' Hr; destruct Hr; congruence]|]. naive_solver.
    + split; [done|]. intros [(_ & ? & _)|(Hr & _)]; [done|]. destruct Hr; congruence.
  - destruct (presented_key cx) as [v|] eqn:Hv.
    + destruct (lookup_key ks (to_bytes v)) as [q|] eqn:Hq; cbn [snd].
      * destruct (proj1 (Hl v q) Hq) as (k & Hin & Hkv & ->).
        etransitivity; [apply (Hend (principal_of k)); [apply by_key; [done|done|congruence]|]|naive_solver].
        intros q' Hr. destruct Hr as [k' _ Hin' Hv'|cp _ [?|?] _]; [|done|congruence].
        assert (Some (principal_of k') = Some (principal_of k)); [|congruence]. rewrite <-Hq. symmetry. apply Hl. exists k'. split_and!; [done|congruence|done].
      * split; [done|]. intros [(? & _)|(Hr & _)]; [done|]. destruct Hr as [k' _ Hin' Hv'|cp _ [?|?] _]; [|done|congruence].
        assert (lookup_key ks (to_bytes v) = Some (principal_of k')); [|congruence]. apply Hl. exists k'. split_and!; [done|congruence|done].
    + destruct certAuth eqn:Hca.
      2:{ split; [done|]. intros [(? & _)|(Hr & _)]; [done|]. destruct Hr; congruence. }
      destruct (principalFromPeerCert cx) as [cp|] eqn:Hcert; cbn [mbind option_bind].
      * etransitivity; [apply (Hend (MkPrincipal (p_Name cp) (p_Scope cp) None)); [apply by_cert; auto|intros q' Hr; destruct Hr; congruence]|]. naive_solver.
      * split; [done|]. intros [(_ & ? & _)|(Hr & _)]; [done|]. destruct Hr; congruence.
Qed.

(** Confinement: a call that presents a configured key never reaches its
    handler, and changes nothing, when the key has read scope and the method is
    not a known read, or when the key has an allow-list and the request names a
    collection outside it — for unary and for streaming calls. *)
Theorem auth_confines {S A : Type} (keys : list Key) (certAuth : bool) (a : Authenticator) (cx : call_ctx) (m : string)
    (req : request) (handler : option Principal → request → SE S A) (s : S) (k : Key) :
  New keys certAuth = Ok a → k ∈ keys → presented_key cx = Some (key_Key k) →
  (key_Scope k = ScopeRead ∧ methodRequiresWrite m = true) ∨
  (key_Collections k ≠ [] ∧ ∃ c, rq_collection req = Some c ∧ c ∉ key_Collections k) →
  auth_unary a cx m req handler s = (Err ErrPermissionDenied, s) ∧
  auth_stream a cx m req handler s = (Err ErrPermissionDenied, s).
Proof.
  unfold New. intros (ks & Hks & [= <-])%result_bind_Ok Hin Hp Hbad.
  assert (lookup_key ks (to_bytes (key_Key k)) = Some (principal_of k)) as Hl by (eapply lookup_exact; [exact Hks|by exists k]).
  assert (ks_enabled ks = true) as Hen.
  { rewrite (buildKeySet_enabled keys ks Hks). destruct keys; [by apply not_elem_of_nil in Hin|done]. }
  assert ((authorize (MkAuthenticator ks certAuth) cx m).2 =
    if (methodRequiresWrite m && negb (bool_decide (key_Scope k = ScopeReadWrite)))%bool
    then Err ErrPermissionDenied else Ok (Some (info (principal_of k)), principal_of k)) as Hauth.
  { unfold authorize. cbn [au_keys au_certAuth]. rewrite Hen, Hp. cbn [negb andb]. by rewrite Hl. }
  assert (auth_unary (MkAuthenticator ks certAuth) cx m req handler s = auth_stream (MkAuthenticator ks certAuth) cx m req handler s) as Hsame.
  { unfold auth_unary, auth_stream, RecvMsg. destruct (authorize _ cx m).2 as [[id p]|]; [|done]. cbn.
    by destruct (checkCollectionAccess p req) as [[]|]. }
  rewrite <-Hsame. assert (auth_unary (MkAuthenticator ks certAuth) cx m req handler s = (Err ErrPermissionDenied, s)) as ->; [|done].
  unfold auth_unary. rewrite Hauth. destruct Hbad as [[Hs Hm]|(Hne & c & Hc & Hno)]; [by rewrite Hm, Hs|].
  destruct (_ && _)%bool; [done|]. unfold checkCollectionAccess, allowsCollection, principal_of. cbn [pr_collections].
  destruct (key_Collections k) as [|c0 cs] eqn:Hcs; [done|]. rewrite Hc, bool_decide_false; [done|].
  by rewrite elem_of_list_to_set.
Qed.

(** The methods of the service. *)
Definition all_methods : list string :=
  map method ["CreateCollection"; "DropCollection"; "ListCollections"; "Insert"; "InsertMany"; "FindById"; "Find"; "Update";
    "Delete"; "Upsert"; "FindByKey"; "UpdateByKey"; "DeleteByKey"; "UpdateIfRev"; "EnsureIndex"; "DropIndex"; "ListIndexes";
    "BeginTx"; "CommitTx"; "RollbackTx"; "Watch"; "Aggregate"; "CollectionStats"; "Compact"; "Snapshot"; "Replicate";
    "ReplicationStatus"; "Promote"].

(** The methods that need a read-write key are those a read-only replica refuses,
    and Promote — and two reads, FindByKey and Aggregate, which a replica serves
    but a read-only key may not call. *)
Theorem method_classes :
  Forall (λ m, methodRequiresWrite m = true ↔ isWriteMethod m = true ∨ m ∈ map method ["Promote"; "FindByKey"; "Aggregate"]) all_methods.
Proof. apply (bool_decide_unpack _). vm_compute. exact I. Qed.

(** ** The limits over time *)
Section limits.
Context {RL : RateLimiter}.

(** The limiter and the calls in flight. *)
Record limited := MkLimited { lm_limiter : Limiter; lm_inflight : nat }.

Inductive limit_step : limited → limited → Prop :=
  | call_admitted id now l l' n : enter id now l = (Ok tt, l') → limit_step (MkLimited l n) (MkLimited l' (S n))
  | call_refused id now l l' n e : enter id now l = (Err e, l') → limit_step (MkLimited l n) (MkLimited l' n)
  | call_done l l' n : release l = Some l' → limit_step (MkLimited l (S n)) (MkLimited l' n).

Definition limit_inv (maxInflight : Z) (x : limited) : Prop :=
  if (0 <? maxInflight)%Z
  then l_sem (lm_limiter x) = Some (maxInflight, Z.of_nat (lm_inflight x)) ∧ (Z.of_nat (lm_inflight x) ≤ maxInflight)%Z
  else l_sem (lm_limiter x) = None.

Lemma allow_sem id now l : l_sem (allow id now l).2 = l_sem l.
Proof. unfold allow. destruct (l_buckets l) as [b|]; [|done]. by destruct (Allow _ now). Qed.

Lemma limit_step_inv cap x x' : limit_inv cap x → limit_step x x' → limit_inv cap x'.
Proof.
  unfold limit_inv. intros Hinv Hstep. destruct Hstep as [id now l l' n H|id now l l' n e H|l l' n H]; cbn [lm_limiter lm_inflight] in *.
  - unfold enter in H. pose proof (allow_sem id now l) as Hs. destruct (allow id now l) as [[[]|] l1]; [|done]. cbn in Hs.
    unfold acquire in H. rewrite Hs in H. destruct (0 <? cap)%Z.
    + destruct Hinv as [Hl Hn]. rewrite Hl in H. destruct (Z.ltb_spec (Z.of_nat n) cap); [|done]. injection H as <-. cbn.
      split; [do 2 f_equal; lia|lia].
    + rewrite Hinv in H. injection H as <-. by rewrite Hs.
  - unfold enter in H. pose proof (allow_sem id now l) as Hs. destruct (allow id now l) as [[[]|] l1]; cbn in Hs.
    2:{ injection H as _ <-. by rewrite Hs. }
    unfold acquire in H. rewrite Hs in H. destruct (l_sem l) as [[c k]|] eqn:Hl; [|done]. destruct (k <? c)%Z; [done|].
    injection H as _ <-. by rewrite Hs.
  - unfold release in H. destruct (0 <? cap)%Z.
    + destruct Hinv as [Hl Hn]. rewrite Hl in H. destruct (Z.ltb_spec 0 (Z.of_nat (S n))); [|done]. injection H as <-. cbn.
      split; [do 2 f_equal; lia|lia].
    + rewrite Hinv in H. by injection H as <-.
Qed.
End limits.

(** [C37] Load shedding: whatever calls arrive, are refused and finish, the calls in
    flight never exceed a positive limit, a call that ends can always give its
    slot back, and while there is room and the principal's bucket admits it a new
    call is let in. *)
Theorem inflight_bounded {RL : RateLimiter} (maxInflight : Z) (rate : f64) (x : limited) :
  rtc limit_step (MkLimited (NewLimiter maxInflight rate) 0) x →
  ((0 < maxInflight)%Z → (Z.of_nat (lm_inflight x) ≤ maxInflight)%Z) ∧
  (0 < lm_inflight x → is_Some (release (lm_limiter x))) ∧
  ∀ id now, is_Ok (allow id now (lm_limiter x)).1 = true →
    ((maxInflight ≤ 0)%Z ∨ (Z.of_nat (lm_inflight x) < maxInflight)%Z) → is_Ok (enter id now (lm_limiter x)).1 = true.
Proof.
  intros Hsteps. assert (limit_inv maxInflight x) as Hinv.
  { remember (MkLimited (NewLimiter maxInflight rate) 0) as x0 eqn:Hx0.
    assert (limit_inv maxInflight x0) as H0.
    { subst x0. unfold limit_inv, NewLimiter. cbn. destruct (f64_lt f64_zero rate), (Z.ltb_spec 0 maxInflight); cbn; try done; by split; [|lia]. }
    clear Hx0. induction Hsteps as [|x0 x1 x2 Hs _ IH]; [done|]. by eapply IH, limit_step_inv. }
  unfold limit_inv in Hinv. split_and!.
  - intros Hpos. rewrite (proj2 (Z.ltb_lt _ _) Hpos) in Hinv. by destruct Hinv.
  - intros Hn. unfold release. destruct (0 <? maxInflight)%Z; [|by rewrite Hinv; eexists]. destruct Hinv as [-> _].
    rewrite (proj2 (Z.ltb_lt _ _)) by lia. by eexists.
  - intros id now Hok Hroom. unfold enter. pose proof (allow_sem id now (lm_limiter x)) as Hs.
    destruct (allow id now (lm_limiter x)) as [[[]|] l1]; [|done]. cbn in Hs. unfold acquire. rewrite Hs.
    destruct (Z.ltb_spec 0 maxInflight); [|by rewrite Hinv]. destruct Hinv as [-> _].
    rewrite (proj2 (Z.ltb_lt _ _)) by lia. done.
Qed.

(** ** Isolation of principals *)
Section isolation.
Context {RL : RateLimiter}.

Definition caller (id : option Principal) : string := match id with Some p => p_Name p | None => "anonymous" end.
Definition after_calls (l : Limiter) (calls : list (option Principal * Z)) : Limiter :=
  foldl (λ l c, (allow c.1 c.2 l).2) l calls.

Definition own_bucket (l : Limiter) (name : string) : option bucket := (λ b, limiterFor l b name) <$> l_buckets l.

Lemma allow_bucket id now l name :
  l_rps (allow id now l).2 = l_rps l ∧ l_burst (allow id now l).2 = l_burst l ∧
  own_bucket (allow id now l).2 name =
    if decide (caller id = name) then (λ b, (Allow b now).2) <$> own_bucket l name else own_bucket l name.
Proof.
  unfold allow, own_bucket. fold (caller id). destruct (l_buckets l) as [bs|] eqn:Hb; [|cbn [snd]; rewrite Hb; by destruct (decide _)].
  destruct (Allow (limiterFor l bs (caller id)) now) as [ok b] eqn:Ha. cbn. split_and!; [done|done|].
  unfold limiterFor. cbn. destruct (decide (caller id = name)) as [<-|Hne].
  - rewrite lookup_insert_eq. cbn. unfold limiterFor in Ha. by rewrite Ha.
  - by rewrite lookup_insert_ne.
Qed.

Lemma after_calls_own l calls name :
  own_bucket (after_calls l calls) name =
    foldl (λ b c, (λ b, (Allow b c.2).2) <$> b) (own_bucket l name) (filter (λ c, caller c.1 = name) calls).
Proof.
  revert l. induction calls as [|[id now] calls IH]; intros l; [done|]. unfold after_calls in *. cbn [foldl fst snd].
  rewrite IH, filter_cons. destruct (allow_bucket id now l name) as (_ & _ & ->). cbn [fst]. by destruct (decide (caller id = name)).
Qed.

Lemma allow_own id now l : (allow id now l).1 =
  match own_bucket l (caller id) with Some b => if (Allow b now).1 then Ok tt else Err ErrResourceExhausted | None => Ok tt end.
Proof.
  unfold allow, own_bucket. fold (caller id). destruct (l_buckets l) as [bs|]; [|done]. cbn. by destruct (Allow _ now) as [[] ?].
Qed.
End isolation.

(** Throttling one principal never affects another: whether a call is admitted
    by the rate limit depends only on the earlier calls of its own principal. *)
Theorem rate_isolated {RL : RateLimiter} (l : Limiter) (calls : list (option Principal * Z)) (id : option Principal) (now : Z) :
  (allow id now (after_calls l calls)).1 = (allow id now (after_calls l (filter (λ c, caller c.1 = caller id) calls))).1.
Proof.
  rewrite !allow_own, !after_calls_own. by rewrite list_filter_filter_l by auto.
Qed.

(** ** Scenarios *)
Definition clerk : Key := MkKey "s3cret" "clerk" ScopeReadWrite ["orders"].
Definition clerk_call : call_ctx := MkCtx (Some ["s3cret"]) None.
Definition drop_collection (id : option Principal) (req : request) : SE (gset string) unit :=
  λ s, (Ok tt, s ∖ {[rq_name req]}).

(** A key confined to one collection may drop another: the request of
    DropCollection carries the name in a field the allow-list does not look at. *)
Theorem restricted_key_drops_any_collection :
  ∃ a, New [clerk] false = Ok a ∧
    auth_unary a clerk_call (method "DropCollection") (MkRequest None "payroll") drop_collection {["orders"; "payroll"]} =
      (Ok tt, {["orders"]}).
Proof. eexists. split; [reflexivity|]. vm_compute. reflexivity. Qed.

(** ** Witnesses *)

(** A bucket with a fixed budget. *)
#[global] Instance budget : RateLimiter := {|
  bucket := Z;
  NewBucket _ burst := burst;
  Allow b _ := if (0 <? b)%Z then (true, b - 1)%Z else (false, b)
|}.

Definition one_key : Authenticator := MkAuthenticator [MkKeyEntry (to_bytes "s3cret") (principal_of clerk)] false.

Lemma authorize_exact_witness :
  (authorize one_key clerk_call (method "Insert")).2 = Ok (Some (info (principal_of clerk)), principal_of clerk) ↔
    ([clerk] = [] ∧ false = false ∧ Some (info (principal_of clerk)) = None ∧ principal_of clerk = zero_principal) ∨
    (resolves_to [clerk] false clerk_call (principal_of clerk) ∧
      Some (info (principal_of clerk)) = Some (info (principal_of clerk)) ∧
      (methodRequiresWrite (method "Insert") = true → pr_scope (principal_of clerk) = ScopeReadWrite)).
Proof. apply (authorize_exact [clerk] false one_key). reflexivity. Defined.

Lemma auth_confines_witness :
  auth_unary one_key clerk_call (method "Insert") (MkRequest (Some "payroll") "") drop_collection ∅ = (Err ErrPermissionDenied, ∅) ∧
  auth_stream one_key clerk_call (method "Insert") (MkRequest (Some "payroll") "") drop_collection ∅ = (Err ErrPermissionDenied, ∅).
Proof.
  apply (auth_confines [clerk] false one_key clerk_call (method "Insert") (MkRequest (Some "payroll") "") drop_collection ∅ clerk).
  - reflexivity.
  - by apply list_elem_of_singleton.
  - reflexivity.
  - right. split; [discriminate|]. exists "payroll". split; [reflexivity|]. by intros ?%list_elem_of_singleton.
Defined.

Definition one_slot : Limiter := NewLimiter 1 f64_zero.

Lemma inflight_bounded_witness :
  let x := MkLimited (set_sem (1, 1)%Z one_slot) 1 in
  ((0 < 1)%Z → (Z.of_nat (lm_inflight x) ≤ 1)%Z) ∧ (0 < lm_inflight x → is_Some (release (lm_limiter x))) ∧
  ∀ id now, is_Ok (allow id now (lm_limiter x)).1 = true →
    ((1 ≤ 0)%Z ∨ (Z.of_nat (lm_inflight x) < 1)%Z) → is_Ok (enter id now (lm_limiter x)).1 = true.
Proof.
  apply (inflight_bounded 1 f64_zero (MkLimited (set_sem (1, 1)%Z one_slot) 1)).
  apply rtc_once. apply (call_admitted None 0). reflexivity.
Defined.
