(* ===== verification/AuditLog.v ===== *)
(** * The audit log (server/audit.go)

    The interceptor outside authentication that records every write, every
    promotion and every call authentication refuses.  The log is a list of records
    beside the server's state; the printed form of a record is omitted, and its
    outcome is the error itself.  AuditSpec applies it to the handlers. *)

From S2P Require Import Prelude GoFloat GoJson Value Query Store Disk GoStrings Auth.

(** A request message with what the getters of the audit log find in it. *)
Record audit_request := MkAuditRequest {
  aq_request : request;
  aq_key : option string;
  aq_id : option N
}.

Record audit_record := MkAuditRecord {
  ar_method : string;
  ar_principal : string;
  ar_outcome : option error; (* [None] is ok *)
  ar_collection : string;
  ar_key : string;
  ar_id : N;
  ar_auth_failure : bool
}.

Definition isAuditedMethod (fullMethod : string) : bool :=
  (isWriteMethod fullMethod || bool_decide (fullMethod = method "Promote"))%bool.

Definition isAuthFailure (err : option error) : bool :=
  match err with Some ErrUnauthenticated | Some ErrPermissionDenied => true | _ => false end.

(** A stream has no request message ([None]). *)
Definition auditTarget (req : option audit_request) : string * string * N :=
  match req with
  | None => ("", "", 0%N)
  | Some req =>
      let collection := default "" (rq_collection (aq_request req)) in
      let collection := if bool_decide (collection = "") then rq_name (aq_request req) else collection in
      (collection, default "" (aq_key req), default 0%N (aq_id req))
  end.

Definition maybeRecord (principal : option Principal) (fullMethod : string) (req : option audit_request) (err : option error)
    (log : list audit_record) : list audit_record :=
  let authFail := isAuthFailure err in
  if (negb (isAuditedMethod fullMethod) && negb authFail)%bool then log
  else
    let name := match principal with
      | Some p => p_Name p
      | None => if authFail then "unauthenticated" else "anonymous"
      end in
    let '(collection, key, id) := auditTarget req in
    log ++ [MkAuditRecord fullMethod name err collection key id authFail].

Section interceptor.
Context {S A : Type}.

Definition error_of {B} (r : result B) : option error := match r with Ok _ => None | Err e => Some e end.

(** The interceptors around the calls that follow them, which leave in the sink
    the principal authentication resolves. *)
Definition audit_unary (sink : option Principal) (fullMethod : string) (req : audit_request) (next : SE S A) : SE (S * list audit_record) A :=
  λ '(s, log), let '(r, s) := next s in (r, (s, maybeRecord sink fullMethod (Some req) (error_of r) log)).

Definition audit_stream (sink : option Principal) (fullMethod : string) (next : SE S A) : SE (S * list audit_record) A :=
  λ '(s, log), let '(r, s) := next s in (r, (s, maybeRecord sink fullMethod None (error_of r) log)).

(** Audit, then authentication, then the handler. *)
Definition audited_unary (a : Authenticator) (cx : call_ctx) (fullMethod : string) (req : audit_request)
    (handler : option Principal → request → SE S A) : SE (S * list audit_record) A :=
  audit_unary (authorize a cx fullMethod).1 fullMethod req (auth_unary a cx fullMethod (aq_request req) handler).

Definition audited_stream (a : Authenticator) (cx : call_ctx) (fullMethod : string) (req : request)
    (handler : option Principal → request → SE S A) : SE (S * list audit_record) A :=
  audit_stream (authorize a cx fullMethod).1 fullMethod (auth_stream a cx fullMethod req handler).
End interceptor.

(** ** What is recorded *)

(** The one a record names: whoever the key or certificate resolves to, if
    authentication is on. *)
Definition names (keys : list Key) (certAuth : bool) (cx : call_ctx) (e : audit_record) : Prop :=
  (keys = [] ∧ certAuth = false) ∨
  ∃ p, resolves_to keys certAuth cx p ∧ ar_principal e = pr_name p.

Lemma maybeRecord_grows sink m req err log :
  maybeRecord sink m req err log = log ∨ ∃ e, maybeRecord sink m req err log = log ++ [e] ∧ ar_method e = m ∧ ar_outcome e = err ∧
    (ar_collection e, ar_key e, ar_id e) = auditTarget req ∧ ar_auth_failure e = isAuthFailure err.
Proof.
  unfold maybeRecord. destruct (_ && _)%bool; [by left|]. right. destruct (auditTarget req) as [[c k] i]. eexists. by split_and!.
Qed.

(** The sink is filled exactly when a principal is resolved. *)
Lemma sink_of_authorized keys certAuth a cx m id p :
  New keys certAuth = Ok a → (authorize a cx m).2 = Ok (id, p) → (authorize a cx m).1 = id.
Proof.
  intros _. unfold authorize. destruct (_ && _)%bool; [by intros [= <- <-]|].
  destruct (match (if ks_enabled (au_keys a) then presented_key cx else None) with Some k => _ | None => _ end) as [found|e]; [|done].
  destruct (match found with Some p => Some p | None => _ end) as [q|]; [|done]. cbn. destruct (_ && _)%bool; [done|]. by intros [= <- <-].
Qed.

Lemma authorize_refuses a cx m e : (authorize a cx m).2 = Err e → isAuthFailure (Some e) = true.
Proof.
  unfold authorize. destruct (_ && _)%bool; [done|].
  destruct (if ks_enabled (au_keys a) then presented_key cx else None) as [k|].
  - destruct (lookup_key (au_keys a) (to_bytes k)); cbn; [|by intros [= <-]]. destruct (_ && _)%bool; [by intros [= <-]|done].
  - destruct (if au_certAuth a then _ else None) as [q|]; cbn; [|by intros [= <-]]. destruct (_ && _)%bool; [by intros [= <-]|done].
Qed.

Section accounts.
Context {S A : Type} (kept : S → S → Prop) (keys : list Key) (certAuth : bool) (a : Authenticator) (cx : call_ctx) (m : string).
Context (Hnew : New keys certAuth = Ok a).

(** What the log tells of a call, beside the call without it: at most one record is
    added, and it names the method and the outcome; one is added by every audited
    method and by every call whose state is not [kept], with the principal; and a
    call that authentication refuses changes nothing and is marked. *)

Definition accounted (s : S) (log : list audit_record) (plain : result A * S) (audited : result A * (S * list audit_record)) : Prop :=
  (audited.1, audited.2.1) = plain ∧
  (audited.2.2 = log ∨ ∃ e, audited.2.2 = log ++ [e] ∧ ar_method e = m ∧ ar_outcome e = error_of audited.1) ∧
  (isAuditedMethod m = true → audited.2.2 ≠ log) ∧
  (¬ kept s audited.2.1 → ∃ e, audited.2.2 = log ++ [e] ∧ names keys certAuth cx e) ∧
  (is_Ok (authorize a cx m).2 = false → audited.2.1 = s ∧ ∃ e, audited.2.2 = log ++ [e] ∧ ar_auth_failure e = true).

(** A call that authentication stands before. *)
Lemma accounted_call (plain : SE S A) req s log :
  (isAuditedMethod m = false → kept s (plain s).2) → kept s s → (∀ e, (authorize a cx m).2 = Err e → plain s = (Err e, s)) →
  accounted s log (plain s) (let '(r, s') := plain s in (r, (s', maybeRecord (authorize a cx m).1 m req (error_of r) log))).
Proof.
  intros Hread Hrefl Href. destruct (plain s) as [r s'] eqn:E. cbn [snd] in Hread. unfold accounted. cbn [fst snd]. split_and!; [done|..].
  - destruct (maybeRecord_grows (authorize a cx m).1 m req (error_of r) log) as [?|(e & H1 & H2 & H3 & _)]; [by left|right; by exists e].
  - intros Ha. unfold maybeRecord. rewrite Ha. cbn [negb andb]. destruct (auditTarget req) as [[c k] i]. intros Hl.
    rewrite <-(app_nil_r log) in Hl at 2. by apply app_inv_head in Hl.
  - intros Hch. destruct (isAuditedMethod m) eqn:Ha; [|by specialize (Hread eq_refl)].
    destruct (authorize a cx m).2 as [[id p]|err] eqn:Hau; [|specialize (Href _ eq_refl) as [= _ ->]; done].
    pose proof (sink_of_authorized keys certAuth a cx m id p Hnew Hau) as ->. unfold maybeRecord. rewrite Ha. cbn [negb andb].
    destruct (auditTarget req) as [[c k] i]. eexists. split; [reflexivity|]. apply (authorize_exact keys certAuth a cx m id p Hnew) in Hau.
    unfold names. cbn [ar_principal]. destruct Hau as [(-> & -> & -> & _)|(Hr & -> & _)]; [by left|right; by exists p].
  - destruct (authorize a cx m).2 as [|err] eqn:Hau; [done|]. intros _. pose proof (authorize_refuses _ _ _ _ Hau) as Hf.
    specialize (Href err eq_refl). injection Href as -> ->. split; [done|].
    destruct (maybeRecord_grows (authorize a cx m).1 m req (Some err) log) as [H|(e & H1 & _ & _ & _ & H2)].
    + exfalso. revert H. unfold maybeRecord. rewrite Hf, andb_false_r. destruct (auditTarget req) as [[c k] i].
      rewrite <-(app_nil_r log) at 2. by intros ?%app_inv_head.
    + exists e. split; [done|congruence].
Qed.
End accounts.

Lemma accounted_unary {S A : Type} (kept : S → S → Prop) keys certAuth a cx m req (next : SE S A) s log :
  New keys certAuth = Ok a → (isAuditedMethod m = false → kept s (next s).2) → kept s s →
  accounted kept keys certAuth a cx m s log (auth_unary a cx m (aq_request req) (λ _ _, next) s) (audited_unary a cx m req (λ _ _, next) (s, log)).
Proof.
  intros Hnew Hread Hrefl. apply accounted_call; try done.
  - intros Ha. unfold auth_unary. destruct (authorize a cx m).2 as [[id p]|e]; [|done]. destruct (checkCollectionAccess p (aq_request req)); [|done]. by apply Hread.
  - intros e He. unfold auth_unary. by rewrite He.
Qed.

Lemma accounted_stream {S A : Type} (kept : S → S → Prop) keys certAuth a cx m req (next : SE S A) s log :
  New keys certAuth = Ok a → (isAuditedMethod m = false → kept s (next s).2) → kept s s →
  accounted kept keys certAuth a cx m s log (auth_stream a cx m req (λ _ _, next) s) (audited_stream a cx m req (λ _ _, next) (s, log)).
Proof.
  intros Hnew Hread Hrefl. apply accounted_call; try done.
  - intros Ha. unfold auth_stream. destruct (authorize a cx m).2 as [[id p]|e]; [|done]. destruct (RecvMsg p false req).2; [|done]. by apply Hread.
  - intros e He. unfold auth_stream. by rewrite He.
Qed.

(** What is audited and what is not: of the methods that need a read-write key,
    only the two reads FindByKey and Aggregate leave no record, and no method a
    read-only key may call is audited. *)
Theorem audited_methods :
  Forall (λ m, isAuditedMethod m = true ↔ methodRequiresWrite m = true ∧ m ∉ map method ["FindByKey"; "Aggregate"]) all_methods.
Proof. apply (bool_decide_unpack _). vm_compute. exact I. Qed.
