(* ===== verification/ServerConfig.v ===== *)
(** * Configuration of the server (server/config.go, server/tls.go, server/logging.go,
    internal/envkey/envkey.go, cmd/scriva/main.go)

    The configuration with its defaults, the configuration file, the flags laid
    over it, what the engine, the transport and the authenticator are given of it.
    The YAML decoder and the parsers of certificates are parameters.  Log levels
    and formats are only validated; the API key of the environment is the default
    of its flag. *)

From S2P Require Import Prelude GoFloat GoTime GoJson Value Query Store Disk GoStrings GoDuration Segment Index SecIndex Meta Collection Broker Replica Database Auth.

Open Scope Z_scope.

(** ** The configuration *)
Record APIKeyConfig := MkAPIKeyConfig { ak_Key : string; ak_Name : string; ak_Scope : string; ak_Collections : list string }.
Record QuotaConfig := MkQuotaConfig { qc_MaxRecords : N; qc_MaxBytes : N }.

Record Config := MkServerConfig {
  cf_DataDir : string;
  cf_GRPCAddr : string;
  cf_RESTAddr : string;
  cf_UnixSocket : string;
  cf_MetricsAddr : string;
  cf_TLSCert : string;
  cf_TLSKey : string;
  cf_TLSClientCA : string;
  cf_TLSClientAuth : string;
  cf_APIKey : string;
  cf_Keys : list APIKeyConfig;
  cf_SegmentMaxSize : Z;
  cf_CompactInterval : Z;
  cf_CompactDirtyPct : f64;
  cf_SyncMode : string;
  cf_SyncInterval : Z;
  cf_TxTimeout : Z;
  cf_DefaultTTL : Z;
  cf_WatchBufferSize : Z;
  cf_ReplicateFrom : string;
  cf_FollowerID : string;
  cf_ReplicationRingSize : Z;
  cf_PromoteMaxLag : N;
  cf_LogLevel : string;
  cf_LogFormat : string;
  cf_AuditLog : string;
  cf_Quotas : gmap string QuotaConfig;
  cf_SlowQueryMs : Z;
  cf_MaxConcurrentStreams : N;
  cf_MaxInflight : Z;
  cf_RateLimit : f64;
  cf_OTLPEndpoint : string;
  cf_OTLPSampleRatio : f64
}.

Definition DefaultPromoteMaxLag : N := 0.

Definition DefaultConfig : Config := {|
    cf_DataDir := "./data";
    cf_GRPCAddr := ":5433";
    cf_RESTAddr := ":8080";
    cf_UnixSocket := "/tmp/scriva.sock";
    cf_MetricsAddr := ":9090";
    cf_TLSCert := "";
    cf_TLSKey := "";
    cf_TLSClientCA := "";
    cf_TLSClientAuth := "off";
    cf_APIKey := "";
    cf_Keys := [];
    cf_SegmentMaxSize := (4 * 1024 * 1024);
    cf_CompactInterval := (5 * minute);
    cf_CompactDirtyPct := (dec_round false 30 (-2));
    cf_SyncMode := "none";
    cf_SyncInterval := DefaultSyncInterval;
    cf_TxTimeout := (5 * minute);
    cf_DefaultTTL := 0;
    cf_WatchBufferSize := DefaultWatchBufferSize;
    cf_ReplicateFrom := "";
    cf_FollowerID := "";
    cf_ReplicationRingSize := DefaultReplicationRingSize;
    cf_PromoteMaxLag := DefaultPromoteMaxLag;
    cf_LogLevel := "info";
    cf_LogFormat := "text";
    cf_AuditLog := "";
    cf_Quotas := ∅;
    cf_SlowQueryMs := 0;
    cf_MaxConcurrentStreams := 0;
    cf_MaxInflight := 0;
    cf_RateLimit := f64_zero;
    cf_OTLPEndpoint := "";
    cf_OTLPSampleRatio := (f64_of_Z 1)
  |}.

(** ** The environment (envkey.go) *)
Definition APIKey (getenv : string → string) : string :=
  let v := getenv "SCRIVA_API_KEY" in
  if negb (bool_decide (v = "")) then v else getenv "FILEDB_API_KEY".

(** ** What the engine is given *)
Definition parse_sync (mode : string) : option SyncMode :=
  if bool_decide (mode = "none") then Some SyncModeNone
  else if bool_decide (mode = "always") then Some SyncModeAlways
  else if bool_decide (mode = "interval") then Some SyncModeInterval
  else None.

Definition engineQuotas (c : Config) : gmap string Quota := (λ q, MkQuota (qc_MaxRecords q) (qc_MaxBytes q)) <$> cf_Quotas c.

(** The mode has been validated when the engine is opened. *)
Definition EngineConfig (c : Config) : DBConfig :=
  MkDBConfig
    (MkConfig (cf_SegmentMaxSize c) (cf_CompactInterval c) (cf_CompactDirtyPct c) (parse_sync (cf_SyncMode c)) (cf_SyncInterval c)
       (cf_WatchBufferSize c) (cf_DefaultTTL c) 0 0 (engineQuotas c))
    (cf_ReplicationRingSize c) (negb (bool_decide (cf_ReplicateFrom c = ""))).

(** ** The configuration file *)

Record fileConfig := MkFileConfig {
  fc_DataDir : string;
  fc_GRPCAddr : string;
  fc_RESTAddr : string;
  fc_UnixSocket : string;
  fc_MetricsAddr : string;
  fc_TLSCert : string;
  fc_TLSKey : string;
  fc_TLSClientCA : string;
  fc_TLSClientAuth : string;
  fc_APIKey : string;
  fc_Keys : list APIKeyConfig;
  fc_SegmentMaxSize : Z;
  fc_CompactInterval : string;
  fc_CompactDirtyPct : f64;
  fc_SyncMode : string;
  fc_SyncInterval : string;
  fc_TxTimeout : string;
  fc_DefaultTTL : string;
  fc_WatchBufferSize : Z;
  fc_ReplicateFrom : string;
  fc_FollowerID : string;
  fc_ReplicationRingSize : Z;
  fc_PromoteMaxLag : N;
  fc_LogLevel : string;
  fc_LogFormat : string;
  fc_AuditLog : string;
  fc_Quotas : gmap string QuotaConfig;
  fc_SlowQueryMs : Z;
  fc_MaxConcurrentStreams : N;
  fc_MaxInflight : Z;
  fc_RateLimit : f64;
  fc_OTLPEndpoint : string;
  fc_OTLPSampleRatio : f64
}.

Definition file_defaults (defaults : Config) : fileConfig := {|
    fc_DataDir := cf_DataDir defaults;
    fc_GRPCAddr := cf_GRPCAddr defaults;
    fc_RESTAddr := cf_RESTAddr defaults;
    fc_UnixSocket := cf_UnixSocket defaults;
    fc_MetricsAddr := cf_MetricsAddr defaults;
    fc_TLSCert := cf_TLSCert defaults;
    fc_TLSKey := cf_TLSKey defaults;
    fc_TLSClientCA := cf_TLSClientCA defaults;
    fc_TLSClientAuth := cf_TLSClientAuth defaults;
    fc_APIKey := cf_APIKey defaults;
    fc_Keys := cf_Keys defaults;
    fc_SegmentMaxSize := cf_SegmentMaxSize defaults;
    fc_CompactInterval := Duration_String (cf_CompactInterval defaults);
    fc_CompactDirtyPct := cf_CompactDirtyPct defaults;
    fc_SyncMode := cf_SyncMode defaults;
    fc_SyncInterval := Duration_String (cf_SyncInterval defaults);
    fc_TxTimeout := Duration_String (cf_TxTimeout defaults);
    fc_DefaultTTL := Duration_String (cf_DefaultTTL defaults);
    fc_WatchBufferSize := cf_WatchBufferSize defaults;
    fc_ReplicateFrom := cf_ReplicateFrom defaults;
    fc_FollowerID := cf_FollowerID defaults;
    fc_ReplicationRingSize := cf_ReplicationRingSize defaults;
    fc_PromoteMaxLag := cf_PromoteMaxLag defaults;
    fc_LogLevel := cf_LogLevel defaults;
    fc_LogFormat := cf_LogFormat defaults;
    fc_AuditLog := cf_AuditLog defaults;
    fc_Quotas := cf_Quotas defaults;
    fc_SlowQueryMs := cf_SlowQueryMs defaults;
    fc_MaxConcurrentStreams := cf_MaxConcurrentStreams defaults;
    fc_MaxInflight := cf_MaxInflight defaults;
    fc_RateLimit := cf_RateLimit defaults;
    fc_OTLPEndpoint := cf_OTLPEndpoint defaults;
    fc_OTLPSampleRatio := cf_OTLPSampleRatio defaults
  |}.

(** The decoder fills in the fields a document sets and leaves the others. *)
Class Yaml := yaml_Decode : bytes → fileConfig → result fileConfig.

Definition duration (text : string) : result Z := match ParseDuration text with Some d => Ok d | None => Err ErrOther end.

Definition LoadConfigFile `{!Yaml} (path : string) : M Config :=
  doc ← read_file path;
  fc ← lift (yaml_Decode doc (file_defaults DefaultConfig));
  d ← lift (duration (fc_CompactInterval fc));
  syncInterval ← lift (duration (fc_SyncInterval fc));
  txTimeout ← lift (duration (fc_TxTimeout fc));
  defaultTTL ← lift (duration (fc_DefaultTTL fc));
  mret {|
    cf_DataDir := fc_DataDir fc;
    cf_GRPCAddr := fc_GRPCAddr fc;
    cf_RESTAddr := fc_RESTAddr fc;
    cf_UnixSocket := fc_UnixSocket fc;
    cf_MetricsAddr := fc_MetricsAddr fc;
    cf_TLSCert := fc_TLSCert fc;
    cf_TLSKey := fc_TLSKey fc;
    cf_TLSClientCA := fc_TLSClientCA fc;
    cf_TLSClientAuth := fc_TLSClientAuth fc;
    cf_APIKey := fc_APIKey fc;
    cf_Keys := fc_Keys fc;
    cf_SegmentMaxSize := fc_SegmentMaxSize fc;
    cf_CompactInterval := d;
    cf_CompactDirtyPct := fc_CompactDirtyPct fc;
    cf_SyncMode := fc_SyncMode fc;
    cf_SyncInterval := syncInterval;
    cf_TxTimeout := txTimeout;
    cf_DefaultTTL := defaultTTL;
    cf_WatchBufferSize := fc_WatchBufferSize fc;
    cf_ReplicateFrom := fc_ReplicateFrom fc;
    cf_FollowerID := fc_FollowerID fc;
    cf_ReplicationRingSize := fc_ReplicationRingSize fc;
    cf_PromoteMaxLag := fc_PromoteMaxLag fc;
    cf_LogLevel := fc_LogLevel fc;
    cf_LogFormat := fc_LogFormat fc;
    cf_AuditLog := fc_AuditLog fc;
    cf_Quotas := fc_Quotas fc;
    cf_SlowQueryMs := fc_SlowQueryMs fc;
    cf_MaxConcurrentStreams := fc_MaxConcurrentStreams fc;
    cf_MaxInflight := fc_MaxInflight fc;
    cf_RateLimit := fc_RateLimit fc;
    cf_OTLPEndpoint := fc_OTLPEndpoint fc;
    cf_OTLPSampleRatio := fc_OTLPSampleRatio fc
  |}.

(** ** Flags (main.go) *)

(** The flags given on the command line, laid over the file: [set] are their names,
    [cfg] holds their values. *)
Definition overlay (set : list string) (cfg file : Config) : Config :=
  let pick {A} (flag : string) (field : Config → A) : A := if bool_decide (flag ∈ set) then field cfg else field file in
  {|
    cf_DataDir := pick "data" cf_DataDir;
    cf_GRPCAddr := pick "grpc-addr" cf_GRPCAddr;
    cf_RESTAddr := pick "rest-addr" cf_RESTAddr;
    cf_UnixSocket := pick "socket" cf_UnixSocket;
    cf_MetricsAddr := pick "metrics-addr" cf_MetricsAddr;
    cf_TLSCert := pick "tls-cert" cf_TLSCert;
    cf_TLSKey := pick "tls-key" cf_TLSKey;
    cf_TLSClientCA := pick "tls-client-ca" cf_TLSClientCA;
    cf_TLSClientAuth := pick "tls-client-auth" cf_TLSClientAuth;
    cf_APIKey := pick "api-key" cf_APIKey;
    cf_Keys := cf_Keys file;
    cf_SegmentMaxSize := pick "segment-size" cf_SegmentMaxSize;
    cf_CompactInterval := pick "compact-interval" cf_CompactInterval;
    cf_CompactDirtyPct := pick "compact-dirty" cf_CompactDirtyPct;
    cf_SyncMode := pick "sync" cf_SyncMode;
    cf_SyncInterval := pick "sync-interval" cf_SyncInterval;
    cf_TxTimeout := pick "tx-timeout" cf_TxTimeout;
    cf_DefaultTTL := pick "default-ttl" cf_DefaultTTL;
    cf_WatchBufferSize := pick "watch-buffer" cf_WatchBufferSize;
    cf_ReplicateFrom := pick "replicate-from" cf_ReplicateFrom;
    cf_FollowerID := pick "replicate-id" cf_FollowerID;
    cf_ReplicationRingSize := pick "replication-ring-size" cf_ReplicationRingSize;
    cf_PromoteMaxLag := pick "promote-max-lag" cf_PromoteMaxLag;
    cf_LogLevel := pick "log-level" cf_LogLevel;
    cf_LogFormat := pick "log-format" cf_LogFormat;
    cf_AuditLog := pick "audit-log" cf_AuditLog;
    cf_Quotas := cf_Quotas file;
    cf_SlowQueryMs := pick "slow-query-ms" cf_SlowQueryMs;
    cf_MaxConcurrentStreams := pick "max-concurrent-streams" cf_MaxConcurrentStreams;
    cf_MaxInflight := pick "max-inflight" cf_MaxInflight;
    cf_RateLimit := pick "rate-limit" cf_RateLimit;
    cf_OTLPEndpoint := pick "otlp-endpoint" cf_OTLPEndpoint;
    cf_OTLPSampleRatio := pick "otlp-sample-ratio" cf_OTLPSampleRatio
  |}.

(** The defaults of the flags. *)
Definition flag_defaults (getenv : string → string) : Config := {|
    cf_DataDir := cf_DataDir DefaultConfig;
    cf_GRPCAddr := cf_GRPCAddr DefaultConfig;
    cf_RESTAddr := cf_RESTAddr DefaultConfig;
    cf_UnixSocket := cf_UnixSocket DefaultConfig;
    cf_MetricsAddr := cf_MetricsAddr DefaultConfig;
    cf_TLSCert := cf_TLSCert DefaultConfig;
    cf_TLSKey := cf_TLSKey DefaultConfig;
    cf_TLSClientCA := cf_TLSClientCA DefaultConfig;
    cf_TLSClientAuth := cf_TLSClientAuth DefaultConfig;
    cf_APIKey := APIKey getenv;
    cf_Keys := cf_Keys DefaultConfig;
    cf_SegmentMaxSize := cf_SegmentMaxSize DefaultConfig;
    cf_CompactInterval := cf_CompactInterval DefaultConfig;
    cf_CompactDirtyPct := cf_CompactDirtyPct DefaultConfig;
    cf_SyncMode := cf_SyncMode DefaultConfig;
    cf_SyncInterval := cf_SyncInterval DefaultConfig;
    cf_TxTimeout := cf_TxTimeout DefaultConfig;
    cf_DefaultTTL := cf_DefaultTTL DefaultConfig;
    cf_WatchBufferSize := cf_WatchBufferSize DefaultConfig;
    cf_ReplicateFrom := cf_ReplicateFrom DefaultConfig;
    cf_FollowerID := cf_FollowerID DefaultConfig;
    cf_ReplicationRingSize := cf_ReplicationRingSize DefaultConfig;
    cf_PromoteMaxLag := cf_PromoteMaxLag DefaultConfig;
    cf_LogLevel := cf_LogLevel DefaultConfig;
    cf_LogFormat := cf_LogFormat DefaultConfig;
    cf_AuditLog := cf_AuditLog DefaultConfig;
    cf_Quotas := cf_Quotas DefaultConfig;
    cf_SlowQueryMs := cf_SlowQueryMs DefaultConfig;
    cf_MaxConcurrentStreams := cf_MaxConcurrentStreams DefaultConfig;
    cf_MaxInflight := cf_MaxInflight DefaultConfig;
    cf_RateLimit := cf_RateLimit DefaultConfig;
    cf_OTLPEndpoint := cf_OTLPEndpoint DefaultConfig;
    cf_OTLPSampleRatio := cf_OTLPSampleRatio DefaultConfig
  |}.

(** The configuration the server starts with: [cfg] are the values of the flags,
    given or defaulted. *)
Definition serveCmd `{!Yaml} (configFile : string) (set : list string) (cfg : Config) : M Config :=
  if bool_decide (configFile = "") then mret cfg
  else fileCfg ← LoadConfigFile configFile; mret (overlay set cfg fileCfg).

(** ** Keys *)
Fixpoint build_keys (keys : list APIKeyConfig) : result (list Key) :=
  match keys with
  | [] => Ok []
  | k :: keys =>
      if bool_decide (ak_Key k = "") then Err ErrOther
      else
        scope ← ParseScope (ak_Scope k);
        rest ← build_keys keys;
        Ok (MkKey (ak_Key k) (ak_Name k) scope (ak_Collections k) :: rest)
  end.

Definition buildKeys (cfg : Config) : result (list Key) :=
  keys ← build_keys (cf_Keys cfg);
  Ok (if bool_decide (cf_APIKey cfg = "") then keys else keys ++ [MkKey (cf_APIKey cfg) "default" ScopeReadWrite []]).

(** ** Logging *)
Definition normalized (s : string) : string := lower (TrimSpace s).

Definition parseLogLevel (level : string) : result unit :=
  if bool_decide (normalized level ∈ [""; "info"; "debug"; "warn"; "warning"; "error"]) then Ok tt else Err ErrOther.

Definition NewLogger (level format : string) : result unit :=
  parseLogLevel level;;
  if bool_decide (normalized format ∈ [""; "text"; "json"]) then Ok tt else Err ErrOther.

(** ** Transport security (tls.go) *)
Inductive ClientAuthType := NoClientCert | RequireAndVerifyClientCert | VerifyClientCertIfGiven.

Definition ParseClientAuth (mode : string) : result (ClientAuthType * bool) :=
  let m := normalized mode in
  if bool_decide (m ∈ [""; "off"; "none"; "disable"; "disabled"]) then Ok (NoClientCert, false)
  else if bool_decide (m ∈ ["require"; "required"; "require-and-verify"]) then Ok (RequireAndVerifyClientCert, true)
  else if bool_decide (m ∈ ["verify-if-given"; "verify_if_given"; "verify-if-provided"; "optional"]) then Ok (VerifyClientCertIfGiven, true)
  else Err ErrOther.

(** Key pairs and pools of certificates, read from their PEM encodings. *)
Class X509 := {
  KeyPair : Type;
  CertPool : Type;
  X509KeyPair : bytes → bytes → result KeyPair;
  AppendCertsFromPEM : bytes → option CertPool
}.

Section tls.
Context `{!X509}.

Record tlsConfig := MkTlsConfig { tc_Certificate : KeyPair; tc_ClientCAs : option CertPool; tc_ClientAuth : ClientAuthType }.

Definition loadCertPool (path : string) : M CertPool :=
  pem ← read_file path;
  match AppendCertsFromPEM pem with None => fail ErrOther | Some pool => mret pool end.

Definition LoadX509KeyPair (cert key : string) : M KeyPair :=
  certPEM ← read_file cert;
  keyPEM ← read_file key;
  lift (X509KeyPair certPEM keyPEM).

Definition ServerTLSConfig (cfg : Config) : M (option tlsConfig * bool) :=
  if (bool_decide (cf_TLSCert cfg = "") || bool_decide (cf_TLSKey cfg = ""))%bool then
    if negb (bool_decide (cf_TLSClientCA cfg = "")) then fail ErrOther
    else
      mode ← lift (ParseClientAuth (cf_TLSClientAuth cfg));
      if mode.2 : bool then fail ErrOther else mret (None, false)
  else
    cert ← LoadX509KeyPair (cf_TLSCert cfg) (cf_TLSKey cfg);
    mode ← lift (ParseClientAuth (cf_TLSClientAuth cfg));
    if negb mode.2 then mret (Some (MkTlsConfig cert None NoClientCert), false)
    else if bool_decide (cf_TLSClientCA cfg = "") then fail ErrOther
    else
      pool ← loadCertPool (cf_TLSClientCA cfg);
      mret (Some (MkTlsConfig cert (Some pool) mode.1), true).
End tls.

(** ** The defaults and the file *)

(** A document that sets nothing gives the defaults: their durations survive
    printing and parsing. *)
Lemma load_defaults `{!Yaml} path doc w :
  no_faults w → w_files w !! path = Some doc → yaml_Decode doc (file_defaults DefaultConfig) = Ok (file_defaults DefaultConfig) →
  LoadConfigFile path w = (Ok DefaultConfig, w).
Proof.
  intros Hw Hp Hd. unfold LoadConfigFile. erewrite bind_ok by (by apply read_file_nofault).
  erewrite bind_ok by (unfold lift; rewrite Hd; reflexivity).
  assert (duration (fc_CompactInterval (file_defaults DefaultConfig)) = Ok (cf_CompactInterval DefaultConfig)) as -> by (vm_compute; reflexivity).
  assert (duration (fc_SyncInterval (file_defaults DefaultConfig)) = Ok (cf_SyncInterval DefaultConfig)) as -> by (vm_compute; reflexivity).
  assert (duration (fc_TxTimeout (file_defaults DefaultConfig)) = Ok (cf_TxTimeout DefaultConfig)) as -> by (vm_compute; reflexivity).
  assert (duration (fc_DefaultTTL (file_defaults DefaultConfig)) = Ok (cf_DefaultTTL DefaultConfig)) as -> by (vm_compute; reflexivity).
  reflexivity.
Qed.

(** With a configuration file the API key of the environment has no effect: a file
    that configures no key leaves the server open to every call, whatever
    SCRIVA_API_KEY holds. *)
Theorem env_key_dropped `{!Yaml} (getenv : string → string) (doc : bytes) (w : World) :
  no_faults w → w_files w !! "scriva.yaml" = Some doc → yaml_Decode doc (file_defaults DefaultConfig) = Ok (file_defaults DefaultConfig) →
  ∃ cfg a, serveCmd "scriva.yaml" [] (flag_defaults getenv) w = (Ok cfg, w) ∧ buildKeys cfg = Ok [] ∧
    New [] false = Ok a ∧ ∀ cx m, (authorize a cx m).2 = Ok (None, zero_principal).
Proof.
  intros Hw Hp Hd. exists (overlay [] (flag_defaults getenv) DefaultConfig), (MkAuthenticator [] false). split; [|by split_and!].
  unfold serveCmd. rewrite bool_decide_false by done. by erewrite bind_ok by (by eapply load_defaults).
Qed.

(** Without a client-authentication mode a bundle of client CAs is ignored: no
    client certificate is asked for or verified. *)
Theorem client_ca_ignored `{!X509} (cfg : Config) (cert key : bytes) (pair : KeyPair) (w : World) :
  no_faults w → cf_TLSCert cfg ≠ "" → cf_TLSKey cfg ≠ "" → w_files w !! cf_TLSCert cfg = Some cert → w_files w !! cf_TLSKey cfg = Some key →
  X509KeyPair cert key = Ok pair → cf_TLSClientAuth cfg = cf_TLSClientAuth DefaultConfig →
  ServerTLSConfig cfg w = (Ok (Some (MkTlsConfig pair None NoClientCert), false), w).
Proof.
  intros Hw Hc Hk Hcert Hkey Hp Hoff. unfold ServerTLSConfig. rewrite !bool_decide_false by done. cbn [orb].
  erewrite bind_ok; [|unfold LoadX509KeyPair; erewrite bind_ok by (by apply read_file_nofault); erewrite bind_ok by (by apply read_file_nofault);
    unfold lift; rewrite Hp; reflexivity].
  rewrite Hoff. assert (ParseClientAuth (cf_TLSClientAuth DefaultConfig) = Ok (NoClientCert, false)) as -> by (vm_compute; reflexivity). reflexivity.
Qed.
