(* ===== verification/Serve.v ===== *)
(** * The server process (cmd/scriva/main.go, func serve)

    What the server builds from its configuration before it listens, the chain of
    interceptors a call passes, and the reload of keys on a signal.  Tracing,
    request logging and metrics surround a call without touching its result and are
    left out; listening on an address is a parameter. *)

From S2P Require Import Prelude GoFloat GoTime GoJson Value Query Store Disk GoStrings GoDuration Segment Index SecIndex Meta Collection Broker Replica Database CollectionSpec Open OpenSpec Snapshot SnapshotSpec Auth AuditLog ServerConfig.

(** ** Starting *)
Section serve.
Context `{!RateLimiter} `{!X509} {sha : Sha256} `{!Archive} (Listen : string → result unit).

Record Node := MkNode {
  nd_db : DB;
  nd_authn : Authenticator;
  nd_limiter : Limiter;
  nd_audit : bool;
  nd_guard : bool (* the interceptors of a read-only replica are installed *)
}.

(** What follows the opening of the database. *)
Definition build_guards (cfg : Config) : SE Host (Authenticator * Limiter) :=
  tls ← on_world (ServerTLSConfig cfg);
  keys ← lift (buildKeys cfg);
  authn ← lift (New keys tls.2);
  let limiter := NewLimiter (cf_MaxInflight cfg) (cf_RateLimit cfg) in
  (if bool_decide (cf_AuditLog cfg = "") then mret tt else on_world syscall);;
  lift (Listen (cf_GRPCAddr cfg));;
  mret (authn, limiter).

(** When a later step fails the database is closed again. *)
Definition serve (cfg : Config) (leader : LeaderView) (h : Host) : result Node * Host :=
  match parse_sync (cf_SyncMode cfg), NewLogger (cf_LogLevel cfg) (cf_LogFormat cfg) with
  | None, _ => (Err ErrOther, h)
  | _, Err e => (Err e, h)
  | Some _, Ok _ =>
      let replica := negb (bool_decide (cf_ReplicateFrom cfg = "")) in
      match (if replica then start_follower leader (cf_DataDir cfg) (EngineConfig cfg) h
             else OpenDB (cf_DataDir cfg) (EngineConfig cfg) h) with
      | (Err e, h) => (Err e, h)
      | (Ok db, h) =>
          match build_guards cfg h with
          | (Err e, h) => (Err e, (CloseDB (db, h)).2.2)
          | (Ok (authn, limiter), h) => (Ok (MkNode db authn limiter (negb (bool_decide (cf_AuditLog cfg = ""))) replica), h)
          end
      end
  end.

(** ** Calls *)
Section calls.
Context {S A : Type}.

(** The limiter's interceptor, for calls one after the other. *)
Definition limit (id : option Principal) (now : Z) (next : SE S A) : SE (S * Limiter) A := λ '(s, l),
  if Enabled l then
    match enter id now l with
    | (Err e, l) => (Err e, (s, l))
    | (Ok _, l) => let '(r, s) := next s in (r, (s, default l (release l)))
    end
  else let '(r, s) := next s in (r, (s, l)).

Definition guarded (n : Node) (isFollower : S → bool) (fullMethod : string) (next : SE (S * Limiter) A) : SE (S * Limiter) A :=
  if nd_guard n then readonly_unary (λ st, isFollower st.1) fullMethod next else next.

Definition recorded_call (n : Node) (m : SE (S * Limiter) A) (audit : SE (S * Limiter) A → SE (S * Limiter * list audit_record) A)
    : SE (S * Limiter * list audit_record) A :=
  if nd_audit n then audit m else λ '(s, log), let '(r, s) := m s in (r, (s, log)).

(** The chain of a unary call: audit, authentication with the check of the
    collection, the read-only guard, the limiter, the handler. *)
Definition service_unary (n : Node) (isFollower : S → bool) (cx : call_ctx) (fullMethod : string) (now : Z) (req : audit_request)
    (handler : option Principal → request → SE S A) : SE (S * Limiter * list audit_record) A :=
  recorded_call n
    (auth_unary (nd_authn n) cx fullMethod (aq_request req)
       (λ id req, guarded n isFollower fullMethod (limit id now (handler id req))))
    (audit_unary (authorize (nd_authn n) cx fullMethod).1 fullMethod req).

(** The chain of a stream: the collection is checked when the generated code
    receives the request, inside the other interceptors. *)
Definition service_stream (n : Node) (isFollower : S → bool) (cx : call_ctx) (fullMethod : string) (now : Z) (req : request)
    (handler : option Principal → request → SE S A) : SE (S * Limiter * list audit_record) A :=
  recorded_call n
    (match (authorize (nd_authn n) cx fullMethod).2 with
     | Err e => fail e
     | Ok (id, p) =>
         guarded n isFollower fullMethod
           (limit id now (match (RecvMsg p false req).2 with Err e => fail e | Ok m => handler id m end))
     end)
    (audit_stream (authorize (nd_authn n) cx fullMethod).1 fullMethod).
End calls.

(** ** Reloading keys (SIGHUP) *)

(** The key of the start is kept, everything else is the file's. *)
Definition sighup `{!Yaml} (cfg : Config) (configFile : string) : SE (Authenticator * World) unit := λ '(authn, w),
  match LoadConfigFile configFile w with
  | (Err _, w) => (Ok tt, (authn, w))
  | (Ok newCfg, w) =>
      match buildKeys (overlay ["api-key"] cfg newCfg) with
      | Err _ => (Ok tt, (authn, w))
      | Ok newKeys => (Ok tt, ((Reload authn newKeys).2, w))
      end
  end.

(** Any number of signals, whatever the file and the disk are at the time. *)
Definition signalled `{!Yaml} (cfg : Config) (configFile : string) : Authenticator → Authenticator → Prop :=
  rtc (λ a a', ∃ w, a' = (sighup cfg configFile (a, w)).2.1).
End serve.

(** ** The outcome of starting *)
Definition wants_certs (cfg : Config) : bool := match ParseClientAuth (cf_TLSClientAuth cfg) with Ok (_, b) => b | Err _ => false end.

Lemma parsed_off mode : ParseClientAuth mode = Ok (NoClientCert, true) → False.
Proof. unfold ParseClientAuth. repeat case_bool_decide; congruence. Qed.

(** The certificates asked for are the ones verified. *)
Lemma ServerTLSConfig_mode `{!X509} cfg w t b w' :
  ServerTLSConfig cfg w = (Ok (t, b), w') →
  b = wants_certs cfg ∧ (b = true → ∃ tc pool, t = Some tc ∧ tc_ClientCAs tc = Some pool ∧ tc_ClientAuth tc ≠ NoClientCert).
Proof.
  unfold ServerTLSConfig, wants_certs. destruct (_ || _)%bool.
  - case_bool_decide as Hca; [|done]. cbn [negb]. intros (m & w1 & Hm & HH)%bind_inv_ok. apply pair_equal_spec in Hm as [Hm _].
    rewrite Hm. destruct m as [m []]; [done|]. by injection HH as <- <- _.
  - intros (c & w1 & _ & HH)%bind_inv_ok. apply bind_inv_ok in HH as (m & w2 & Hm & HH). apply pair_equal_spec in Hm as [Hm _].
    rewrite Hm. destruct m as [m []]; cbn [negb snd fst] in HH; [|by injection HH as <- <- _]. case_bool_decide as Hca; [done|].
    apply bind_inv_ok in HH as (pool & w3 & _ & HH). injection HH as <- <- _. split; [done|]. intros _. eexists _, pool. split_and!; [done..|].
    cbn. intros ->. by apply parsed_off in Hm.
Qed.

Section started.
Context `{!RateLimiter} `{!X509} {sha : Sha256} `{!Archive} (Listen : string → result unit).

Lemma build_guards_ok cfg h a l h' :
  build_guards Listen cfg h = (Ok (a, l), h') →
  (∃ keys, buildKeys cfg = Ok keys ∧ New keys (wants_certs cfg) = Ok a) ∧ l = NewLimiter (cf_MaxInflight cfg) (cf_RateLimit cfg).
Proof.
  unfold build_guards. intros ([t b] & h1 & Ht & HH)%bind_inv_ok. unfold on_world in Ht.
  destruct (ServerTLSConfig cfg (h_world h)) as [r w1] eqn:E. injection Ht as -> _. apply ServerTLSConfig_mode in E as [-> _].
  apply bind_inv_ok in HH as (keys & h2 & Hk & HH). apply pair_equal_spec in Hk as [Hk _].
  apply bind_inv_ok in HH as (a' & h3 & Ha & HH). apply pair_equal_spec in Ha as [Ha _].
  apply bind_inv_ok in HH as (u & h4 & _ & HH). apply bind_inv_ok in HH as (u' & h5 & _ & HH). injection HH as -> <- _. by split; [exists keys|].
Qed.

Lemma serve_ok cfg leader h n h' :
  serve Listen cfg leader h = (Ok n, h') →
  (∃ keys, buildKeys cfg = Ok keys ∧ New keys (wants_certs cfg) = Ok (nd_authn n)) ∧
  nd_guard n = negb (bool_decide (cf_ReplicateFrom cfg = "")) ∧ nd_limiter n = NewLimiter (cf_MaxInflight cfg) (cf_RateLimit cfg).
Proof.
  unfold serve. destruct (parse_sync _); [|done]. destruct (NewLogger _ _); [|done]. cbv zeta.
  destruct (if negb (bool_decide (cf_ReplicateFrom cfg = "")) then _ else _) as [[db|] h1]; [|done].
  destruct (build_guards Listen cfg h1) as [[[au li]|] h2] eqn:E; [|done]. intros [= <- _].
  apply build_guards_ok in E as [Hk ->]. by split_and!.
Qed.

(** ** The checks of a call *)

(** Who may make a call, by the configuration. *)
Definition permitted (cfg : Config) (cx : call_ctx) (m : string) (req : request) (id : option Principal) : Prop :=
  ∃ keys, buildKeys cfg = Ok keys ∧
    ((keys = [] ∧ wants_certs cfg = false ∧ id = None) ∨
     ∃ p, resolves_to keys (wants_certs cfg) cx p ∧ id = Some (info p) ∧ (methodRequiresWrite m = true → pr_scope p = ScopeReadWrite) ∧
       ∀ c, rq_collection req = Some c → allowsCollection p c = true).

Definition refusals : list error := [ErrUnauthenticated; ErrPermissionDenied; ErrFailedPrecondition; ErrResourceExhausted].

Context {S A : Type}.

(** A call runs its handler, and then it is permitted, not a write on a follower
    and within the limits, or it is refused and leaves the state alone; either way
    its slot is free again. *)
Definition screened (cfg : Config) (isFollower : S → bool) (cx : call_ctx) (m : string) (now : Z) (req : request)
    (handler : option Principal → request → SE S A) (s : S) (l : Limiter) (out : result A * (S * Limiter * list audit_record)) : Prop :=
  ((∃ id, permitted cfg cx m req id ∧ (cf_ReplicateFrom cfg ≠ "" → isFollower s = true → isWriteMethod m = false) ∧
      (Enabled l = true → is_Ok (enter id now l).1 = true) ∧ (out.1, out.2.1.1) = handler id req s) ∨
   (out.2.1.1 = s ∧ ∃ e, out.1 = Err e ∧ e ∈ refusals)) ∧
  l_sem out.2.1.2 = l_sem l.

Definition sem_ok (l : Limiter) : Prop := ∀ cap k, l_sem l = Some (cap, k) → (0 ≤ k)%Z.

Lemma acquire_outcome l : sem_ok l →
  (acquire l = (Err ErrResourceExhausted, l)) ∨ ∃ l1 l2, acquire l = (Ok tt, l1) ∧ release l1 = Some l2 ∧ l_sem l2 = l_sem l.
Proof.
  intros Hl. unfold acquire, release. destruct (l_sem l) as [[cap k]|] eqn:Hk.
  - specialize (Hl _ _ Hk). destruct (k <? cap)%Z; [right|by left]. eexists _, _. split; [reflexivity|].
    cbn [set_sem l_sem]. rewrite (proj2 (Z.ltb_lt _ _)) by lia. split; [reflexivity|]. cbn. do 2 f_equal. lia.
  - right. exists l, l. by rewrite Hk.
Qed.

Lemma enter_outcome id now l : sem_ok l →
  (∃ l1, enter id now l = (Err ErrResourceExhausted, l1) ∧ l_sem l1 = l_sem l) ∨
  ∃ l1 l2, enter id now l = (Ok tt, l1) ∧ release l1 = Some l2 ∧ l_sem l2 = l_sem l.
Proof.
  intros Hl. unfold enter. pose proof (allow_sem id now l) as Hs.
  assert ((allow id now l).1 = Ok tt ∨ (allow id now l).1 = Err ErrResourceExhausted) as Hr.
  { unfold allow. destruct (l_buckets l); [|by left]. destruct (Allow _ now) as [[] bk]; [by left|by right]. }
  destruct (allow id now l) as [r l0]. cbn [fst snd] in *. destruct Hr as [-> | ->]; [|left; by exists l0].
  destruct (acquire_outcome l0) as [E|(l1 & l2 & E & Hrel & Hs')]; [unfold sem_ok; by rewrite Hs|left; by exists l0|].
  right. exists l1, l2. split_and!; [done..|congruence].
Qed.

Lemma limit_outcome id now (next : SE S A) s l : sem_ok l →
  let out := limit id now next (s, l) in
  l_sem out.2.2 = l_sem l ∧
  (((Enabled l = true → is_Ok (enter id now l).1 = true) ∧ (out.1, out.2.1) = next s) ∨ (out.2.1 = s ∧ out.1 = Err ErrResourceExhausted)).
Proof.
  intros Hl. unfold limit. destruct (next s) as [r s'] eqn:E. destruct (Enabled l); [|cbn; split; [done|left; by split]].
  destruct (enter_outcome id now l Hl) as [(l1 & -> & Hs)|(l1 & l2 & -> & Hrel & Hs)]; cbn [fst snd]; [split; [done|by right]|].
  rewrite Hrel. cbn. split; [done|left; by split].
Qed.

(** The guards behind authentication. *)
Lemma guarded_outcome n isFollower m id now (next : SE S A) s l : sem_ok l →
  let out := guarded n isFollower m (limit id now next) (s, l) in
  l_sem out.2.2 = l_sem l ∧
  (((nd_guard n = true → isFollower s = true → isWriteMethod m = false) ∧ (Enabled l = true → is_Ok (enter id now l).1 = true) ∧
      (out.1, out.2.1) = next s) ∨
   (out.2.1 = s ∧ ∃ e, out.1 = Err e ∧ e ∈ refusals)).
Proof.
  intros Hl. unfold guarded, readonly_unary. cbn [fst]. destruct (limit_outcome id now next s l Hl) as (Hs & Hout).
  destruct (nd_guard n); cbn zeta; cbn beta; cbn [fst]; [destruct (isFollower s && isWriteMethod m)%bool eqn:Hb|].
  - cbn. split; [done|]. right. split; [done|]. eexists. split; [done|set_solver].
  - split; [done|]. destruct Hout as [[He Hn]|[Hsame He]]; [left; split; [|by split]|right; split; [done|eexists; split; [done|set_solver]]].
    intros _ Hf. rewrite Hf in Hb. by destruct (isWriteMethod m).
  - split; [done|]. destruct Hout as [[He Hn]|[Hsame He]]; [left; split; [done|by split]|right; split; [done|eexists; split; [done|set_solver]]].
Qed.

Lemma refused_by_authorize a cx m e : (authorize a cx m).2 = Err e → e ∈ refusals.
Proof. intros Hf%authorize_refuses. destruct e; try done; set_solver. Qed.

Lemma access_refused p req e : checkCollectionAccess p req = Err e → e ∈ refusals.
Proof. unfold checkCollectionAccess. destruct (pr_collections p), (rq_collection req); try done. destruct (negb _); [|done]. intros [= <-]. set_solver. Qed.

Lemma access_granted p req u c : checkCollectionAccess p req = Ok u → rq_collection req = Some c → allowsCollection p c = true.
Proof.
  unfold checkCollectionAccess. intros Hu Hc. rewrite Hc in Hu. destruct (pr_collections p) eqn:Hp; [|unfold allowsCollection; by rewrite Hp].
  by destruct (allowsCollection p c).
Qed.

Lemma authorized_permitted cfg keys a cx m id p req u :
  buildKeys cfg = Ok keys → New keys (wants_certs cfg) = Ok a → (authorize a cx m).2 = Ok (id, p) → checkCollectionAccess p req = Ok u →
  permitted cfg cx m req id.
Proof.
  intros Hk Ha Hau Hacc. exists keys. split; [done|]. apply (authorize_exact keys _ a cx m id p Ha) in Hau as [(? & ? & ? & _)|(Hr & Hid & Hw)].
  - left. by split_and!.
  - right. exists p. split_and!; [done..|]. intros c Hc. by eapply access_granted.
Qed.

Lemma recorded_same n (m : SE (S * Limiter) A) audit st log :
  (∀ st log, (audit m (st, log)).1 = (m st).1 ∧ (audit m (st, log)).2.1 = (m st).2) →
  (recorded_call n m audit (st, log)).1 = (m st).1 ∧ (recorded_call n m audit (st, log)).2.1 = (m st).2.
Proof. intros Ha. unfold recorded_call. destruct (nd_audit n); [apply Ha|]. by destruct (m st). Qed.

(** A chain that begins with authorisation. *)
Lemma screened_chain cfg leader h n h' isFollower cx m now req handler s l log (call : SE (S * Limiter) A) (out : result A * (S * Limiter * list audit_record)) :
  serve Listen cfg leader h = (Ok n, h') → sem_ok l → out.1 = (call (s, l)).1 → out.2.1 = (call (s, l)).2 →
  (∀ e, (authorize (nd_authn n) cx m).2 = Err e → call (s, l) = (Err e, (s, l))) →
  (∀ id p e, (authorize (nd_authn n) cx m).2 = Ok (id, p) → checkCollectionAccess p req = Err e →
     l_sem (call (s, l)).2.2 = l_sem l ∧ (call (s, l)).2.1 = s ∧ ∃ e', (call (s, l)).1 = Err e' ∧ e' ∈ refusals) →
  (∀ id p, (authorize (nd_authn n) cx m).2 = Ok (id, p) → checkCollectionAccess p req = Ok tt →
     call (s, l) = guarded n isFollower m (limit id now (handler id req)) (s, l)) →
  screened cfg isFollower cx m now req handler s l (out.1, (out.2.1, log)).
Proof.
  intros Hserve Hl E1 E2 Hrefuse Hdeny Hrun. unfold screened. cbn [fst snd]. rewrite E1, E2.
  apply serve_ok in Hserve as ((keys & Hk & Ha) & Hg & _).
  destruct (authorize (nd_authn n) cx m).2 as [[id p]|e] eqn:Hau; cycle 1.
  { rewrite (Hrefuse e eq_refl). cbn. split; [right; split; [done|]|done]. exists e. split; [done|by eapply refused_by_authorize]. }
  destruct (checkCollectionAccess p req) as [[]|e] eqn:Hacc; cycle 1.
  { destruct (Hdeny id p e eq_refl Hacc) as (Hs & Hst & He). split; [right; by split|done]. }
  rewrite (Hrun id p eq_refl Hacc). destruct (guarded_outcome n isFollower m id now (handler id req) s l Hl) as (Hs & [(Hf & He & Hh)|Hout]).
  - split; [left|done]. exists id. split_and!; [by eapply authorized_permitted| |done..]. intros Hr. apply Hf. rewrite Hg. by apply negb_true_iff, bool_decide_eq_false.
  - split; [by right|done].
Qed.

(** [C34] Every call is screened as configured: on a server that has started,
    a unary or streaming call reaches its handler only if it is permitted:
    either the server is open, with neither keys nor client certificates
    configured, and then every call is; or its key is one of the configured
    ones, or its certificate is verified and certificates are wanted, the
    scope permits the method and the allow-list the collection the request
    names in its collection field (the requests that create and drop
    collections name theirs in another one, which is not checked:
    [restricted_key_drops_any_collection]). Moreover the method is no write
    while a replica follows its leader, and the limits admit the call. Any
    other call is answered with one of four refusals and leaves the state
    alone. In every case the slot of the call is free again at its end. *)
Theorem service_guarded (cfg : Config) (leader : LeaderView) (h : Host) (n : Node) (h' : Host) (isFollower : S → bool) (cx : call_ctx)
    (m : string) (now : Z) (req : audit_request) (handler : option Principal → request → SE S A) (s : S) (l : Limiter) (log : list audit_record) :
  serve Listen cfg leader h = (Ok n, h') → sem_ok l →
  screened cfg isFollower cx m now (aq_request req) handler s l (service_unary n isFollower cx m now req handler (s, l, log)) ∧
  screened cfg isFollower cx m now (aq_request req) handler s l (service_stream n isFollower cx m now (aq_request req) handler (s, l, log)).
Proof.
  intros Hserve Hl. split.
  - unfold service_unary. set (call := auth_unary _ _ _ _ _).
    destruct (recorded_same n call (audit_unary (authorize (nd_authn n) cx m).1 m req) (s, l) log) as [E1 E2].
    { intros st lg. unfold audit_unary. by destruct (call st). }
    pose proof (screened_chain cfg leader h n h' isFollower cx m now (aq_request req) handler s l
      (recorded_call n call (audit_unary (authorize (nd_authn n) cx m).1 m req) (s, l, log)).2.2 call _ Hserve Hl E1 E2) as H'.
    destruct (recorded_call n call _ (s, l, log)) as [r [st lg]]. apply H'; unfold call, auth_unary.
    + intros e He. by rewrite He.
    + intros id p e Hau Hacc. rewrite Hau, Hacc. cbn. split_and!; [done..|]. exists e. split; [done|by eapply access_refused].
    + intros id p Hau Hacc. by rewrite Hau, Hacc.
  - unfold service_stream. set (call := match (authorize (nd_authn n) cx m).2 with Ok _ => _ | Err _ => _ end).
    destruct (recorded_same n call (audit_stream (authorize (nd_authn n) cx m).1 m) (s, l) log) as [E1 E2].
    { intros st lg. unfold audit_stream. by destruct (call st). }
    pose proof (screened_chain cfg leader h n h' isFollower cx m now (aq_request req) handler s l
      (recorded_call n call (audit_stream (authorize (nd_authn n) cx m).1 m) (s, l, log)).2.2 call _ Hserve Hl E1 E2) as H'.
    destruct (recorded_call n call _ (s, l, log)) as [r [st lg]]. apply H'; unfold call.
    + intros e He. by rewrite He.
    + intros id p e Hau Hacc. rewrite Hau. unfold RecvMsg. cbn [negb snd]. rewrite Hacc.
      destruct (guarded_outcome n isFollower m id now (fail (A:=A) e) s l Hl) as (Hs & [(_ & _ & Hh)|[Hst He]]); [|by split_and!].
      apply pair_equal_spec in Hh as [Hh1 Hh2]. split_and!; [done..|]. exists e. split; [done|by eapply access_refused].
    + intros id p Hau Hacc. rewrite Hau. unfold RecvMsg. cbn [negb snd]. by rewrite Hacc.
Qed.
End started.

(** ** Keys over time *)
Section keys.
Context `{!RateLimiter} `{!X509} {sha : Sha256} `{!Archive} `{!Yaml} (Listen : string → result unit).

Definition startup_key (cfg : Config) : Key := MkKey (cf_APIKey cfg) "default" ScopeReadWrite [].

Lemma buildKeys_startup cfg keys : cf_APIKey cfg ≠ "" → buildKeys cfg = Ok keys → startup_key cfg ∈ keys.
Proof.
  intros Hne. unfold buildKeys. intros (ks & _ & E)%result_bind_Ok. rewrite bool_decide_false in E by done. injection E as <-.
  apply elem_of_app. right. apply elem_of_cons. by left.
Qed.

(** The configuration the keys in force come from. *)
Definition in_force (cfg : Config) (file : string) (a : Authenticator) (cfg' : Config) : Prop :=
  (cfg' = cfg ∨ ∃ w f w', LoadConfigFile file w = (Ok f, w') ∧ cfg' = overlay ["api-key"] cfg f) ∧
  ∃ keys, buildKeys cfg' = Ok keys ∧ New keys (wants_certs cfg) = Ok a.

Lemma sighup_in_force cfg file a w cfg' :
  in_force cfg file a cfg' → ∃ cfg'', in_force cfg file (sighup cfg file (a, w)).2.1 cfg''.
Proof.
  intros Hf. unfold sighup. destruct (LoadConfigFile file w) as [[f|e] w'] eqn:El; [|by exists cfg'].
  destruct (buildKeys (overlay ["api-key"] cfg f)) as [keys|e] eqn:Ek; [|by exists cfg']. cbn [fst snd]. unfold Reload.
  destruct (buildKeySet keys) as [ks|e] eqn:Es; [|by exists cfg']. exists (overlay ["api-key"] cfg f). split; [right; by exists w, f, w'|].
  exists keys. split; [done|]. unfold New. rewrite Es. cbn. do 2 f_equal. destruct Hf as (_ & keys0 & _ & Ha).
  unfold New in Ha. apply result_bind_Ok in Ha as (? & _ & [= <-]). done.
Qed.

Lemma signalled_in_force cfg file a a' cfg' : signalled cfg file a a' → in_force cfg file a cfg' → ∃ cfg'', in_force cfg file a' cfg''.
Proof.
  intros Hs. revert cfg'. induction Hs as [a|a a1 a2 (w & ->) _ IH]; intros cfg' Hf; [by exists cfg'|].
  apply sighup_in_force with (w := w) in Hf as (c1 & Hf). by apply IH in Hf.
Qed.

(** [C35] The keys of a running server: whenever and however often the
    configuration file is reloaded, whatever it holds then and whichever reads fail,
    the keys in force are those of one configuration that loaded, the one of the
    start or a later one of the file; the API key of the start keeps its read-write
    access, and a call with neither key nor certificate is refused. *)
Theorem startup_key_survives (cfg : Config) (leader : LeaderView) (h : Host) (n : Node) (h' : Host) (file : string) (a : Authenticator) :
  serve Listen cfg leader h = (Ok n, h') → cf_APIKey cfg ≠ "" → signalled cfg file (nd_authn n) a →
  (∃ cfg', in_force cfg file a cfg') ∧
  ∀ cx m,
    (presented_key cx = Some (cf_APIKey cfg) → (authorize a cx m).2 = Ok (Some (MkPrincipalInfo "default" ScopeReadWrite), MkPrincipal "default" ScopeReadWrite None)) ∧
    (presented_key cx = None → principalFromPeerCert cx = None → (authorize a cx m).2 = Err ErrUnauthenticated).
Proof.
  intros Hserve Hkey Hs. apply serve_ok in Hserve as ((keys0 & Hk0 & Ha0) & _).
  destruct (signalled_in_force cfg file _ a cfg Hs) as (cfg' & Hf).
  { split; [by left|]. by exists keys0. }
  split; [by exists cfg'|]. intros cx m. destruct Hf as (Hcfg & keys & Hk & Ha).
  assert (cf_APIKey cfg' = cf_APIKey cfg) as Hsame by (by destruct Hcfg as [-> |(w & f & w' & _ & ->)]).
  assert (startup_key cfg ∈ keys) as Hin.
  { unfold startup_key. rewrite <-Hsame. apply buildKeys_startup; [by rewrite Hsame|done]. }
  assert (keys ≠ []) as Hne by (intros ->; by apply not_elem_of_nil in Hin). split.
  - intros Hp. apply (authorize_exact keys _ a cx m _ _ Ha). right. split_and!; [|done..].
    change (MkPrincipal "default" ScopeReadWrite None) with (principal_of (startup_key cfg)). by apply by_key.
  - intros Hp Hc. destruct (authorize a cx m).2 as [[id p]|e] eqn:E.
    + apply (authorize_exact keys _ a cx m id p Ha) in E as [(? & _)|(Hr & _)]; [done|]. destruct Hr; congruence.
    + revert E. unfold authorize. unfold New in Ha. apply result_bind_Ok in Ha as (ks & Hks & [= <-]). cbn [au_keys au_certAuth].
      rewrite (buildKeySet_enabled keys ks Hks), bool_decide_false by done. cbn [negb andb]. rewrite Hp, Hc. destruct (wants_certs cfg); cbn; congruence.
Qed.
End keys.

(** ** Witnesses *)

(** Certificates that hold nothing, and documents that list one read-only key. *)
#[local] Instance no_x509 : X509 := {| KeyPair := unit; CertPool := unit; X509KeyPair := λ _ _, Ok tt; AppendCertsFromPEM := λ _, Some tt |}.
#[local] Instance one_key_yaml : Yaml := λ doc fc,
  match doc with
  | [] => Err ErrOther
  | _ => Ok (MkFileConfig (fc_DataDir fc) (fc_GRPCAddr fc) (fc_RESTAddr fc) (fc_UnixSocket fc) (fc_MetricsAddr fc) (fc_TLSCert fc) (fc_TLSKey fc)
      (fc_TLSClientCA fc) (fc_TLSClientAuth fc) (fc_APIKey fc) [MkAPIKeyConfig (of_bytes doc) "reader" "read" []] (fc_SegmentMaxSize fc)
      (fc_CompactInterval fc) (fc_CompactDirtyPct fc) (fc_SyncMode fc) (fc_SyncInterval fc) (fc_TxTimeout fc) (fc_DefaultTTL fc)
      (fc_WatchBufferSize fc) (fc_ReplicateFrom fc) (fc_FollowerID fc) (fc_ReplicationRingSize fc) (fc_PromoteMaxLag fc) (fc_LogLevel fc)
      (fc_LogFormat fc) (fc_AuditLog fc) (fc_Quotas fc) (fc_SlowQueryMs fc) (fc_MaxConcurrentStreams fc) (fc_MaxInflight fc) (fc_RateLimit fc)
      (fc_OTLPEndpoint fc) (fc_OTLPSampleRatio fc))
  end.

(** A server started with an API key in its environment and no file. *)
Definition keyed_config : Config := flag_defaults (λ v, if bool_decide (v = "SCRIVA_API_KEY") then "s3cret" else "").
Definition bare_host : Host := MkHost (MkWorld ∅ [] 0 0) ∅.
Definition no_leader : LeaderView := MkLeaderView (Err ErrOther) (Err ErrOther).
Definition started : result Node * Host := @serve budget no_x509 length_digest plain_archive (λ _, Ok tt) keyed_config no_leader bare_host.

Lemma service_guarded_witness :
  ∃ n h', started = (Ok n, h') ∧
    screened keyed_config (λ _ : gset string, false) (MkCtx None None) (method "Insert") 0 (MkRequest (Some "u") "") drop_collection ∅ one_slot
      (service_unary n (λ _, false) (MkCtx None None) (method "Insert") 0 (MkAuditRequest (MkRequest (Some "u") "") None None) drop_collection (∅, one_slot, [])).
Proof.
  destruct started as [[n|e] h'] eqn:E; [|vm_compute in E; discriminate E]. exists n, h'. split; [reflexivity|].
  apply (@service_guarded budget no_x509 length_digest plain_archive (λ _, Ok tt) (gset string) unit keyed_config no_leader bare_host n h'
    (λ _, false) (MkCtx None None) (method "Insert") 0 (MkAuditRequest (MkRequest (Some "u") "") None None) drop_collection ∅ one_slot []).
  - exact E.
  - intros cap k [= <- <-]. reflexivity.
Defined.

(** The file is rewritten with another key and reloaded. *)
Definition rewritten : World := MkWorld {["scriva.yaml" := to_bytes "r3ader"]} [] 0 0.

Lemma startup_key_survives_witness :
  ∃ n h', started = (Ok n, h') ∧
    let a := (sighup keyed_config "scriva.yaml" (nd_authn n, rewritten)).2.1 in
    (∃ cfg', in_force keyed_config "scriva.yaml" a cfg') ∧
    ∀ cx m,
      (presented_key cx = Some (cf_APIKey keyed_config) →
        (authorize a cx m).2 = Ok (Some (MkPrincipalInfo "default" ScopeReadWrite), MkPrincipal "default" ScopeReadWrite None)) ∧
      (presented_key cx = None → principalFromPeerCert cx = None → (authorize a cx m).2 = Err ErrUnauthenticated).
Proof.
  destruct started as [[n|e] h'] eqn:E; [|vm_compute in E; discriminate E]. exists n, h'. split; [reflexivity|].
  apply (@startup_key_survives budget no_x509 length_digest plain_archive one_key_yaml (λ _, Ok tt) keyed_config no_leader bare_host n h' "scriva.yaml").
  - exact E.
  - vm_compute. discriminate.
  - apply rtc_once. by exists rewritten.
Defined.

(** After the reload the new key reads and does not write, the old one does both. *)
Example reload_takes_effect :
  match started with
  | (Ok n, _) =>
      let a := (sighup keyed_config "scriva.yaml" (nd_authn n, rewritten)).2.1 in
      map (λ '(k, m), is_Ok (authorize a (MkCtx (Some [k]) None) (method m)).2)
        [("r3ader", "Find"); ("r3ader", "Insert"); ("s3cret", "Insert"); ("", "Find")] = [true; false; true; false]
  | _ => False
  end.
Proof. vm_compute. reflexivity. Qed.
