(* ===== verification/Grpc.v ===== *)
(** * The request handlers (server/grpc.go)

    Every RPC of the service as a function of the request and the server's state:
    the database, the transaction registry, the promotion limit and the calls made
    to the quota hook.  A handler answers with a message or a status code.  A
    server stream is a sink that takes messages until it fails; a stream's context
    is the number of polls after which it is cancelled.  Timestamps in responses are
    kept as instants, messages of errors are omitted, and so are the observers of
    slow queries.  [Snapshot], which writes an archive, is modelled in
    SnapshotRpc. *)

From S2P Require Import Prelude GoFloat GoTime GoJson Value Query Store Disk Segment Index SecIndex TopK Meta Collection Steps Scan Aggregate Open Compactor TxManager Broker Replica Database Snapshot.

(** ** Status codes and the handler monad *)
Inductive code :=
  | InvalidArgument | NotFound | AlreadyExists | ResourceExhausted | FailedPrecondition | Aborted | Internal
  | Canceled | Unavailable.
#[global] Instance code_eq_dec : EqDecision code.
Proof. solve_decision. Defined.

Inductive reply (A : Type) := Reply (a : A) | Status (c : code).
Arguments Reply {A} a.
Arguments Status {A} c.

Record GRPCServer := MkGRPCServer {
  gs_db : DB;
  gs_txMgr : TxManager;
  gs_onQuotaReject : option (list string); (* the hook's calls, when it is set *)
  gs_promoteMaxLag : N
}.
Definition NewGRPCServer (db : DB) (txTimeout : Z) : GRPCServer := MkGRPCServer db (NewTxManager txTimeout) None 0.

Definition set_gs_db (x : DB) (s : GRPCServer) : GRPCServer :=
  MkGRPCServer x (gs_txMgr s) (gs_onQuotaReject s) (gs_promoteMaxLag s).
Definition set_gs_txMgr (x : TxManager) (s : GRPCServer) : GRPCServer :=
  MkGRPCServer (gs_db s) x (gs_onQuotaReject s) (gs_promoteMaxLag s).
Definition note_quota (collection : string) (s : GRPCServer) : GRPCServer :=
  MkGRPCServer (gs_db s) (gs_txMgr s) ((λ l, l ++ [collection]) <$> gs_onQuotaReject s) (gs_promoteMaxLag s).

Definition HM (A : Type) : Type := GRPCServer * Host → reply A * (GRPCServer * Host).
#[global] Instance HM_ret : MRet HM := λ A a s, (Reply a, s).
#[global] Instance HM_bind : MBind HM := λ A B f m s,
  match m s with
  | (Reply a, s) => f a s
  | (Status c, s) => (Status c, s)
  end.
Definition refuse {A} (c : code) : HM A := λ s, (Status c, s).

(** Calls into the database, the transaction registry and a collection. *)
Definition on_db {A} (m : DM A) : HM (result A) := λ '(s, h),
  let '(r, (db, h)) := m (gs_db s, h) in (Reply r, (set_gs_db db s, h)).
Definition on_txMgr {A} (m : TM A) : HM (result A) := λ '(s, h),
  let '(r, (t, w)) := m (gs_txMgr s, h_world h) in (Reply r, (set_gs_txMgr t s, MkHost w (h_dirs h))).
Definition on_collection {A} (name : string) (m : CM A) : HM (result A) := on_db (with_collection name m).

(** [if err != nil { return nil, status.Errorf(code, ...) }] *)
Definition or_status {A} (f : error → code) (r : result A) : HM A :=
  match r with Ok a => mret a | Err e => refuse (f e) end.

(** [col, err := s.db.Collection(name)]. *)
Definition need_collection (name : string) : HM unit :=
  r ← on_db (get_collection name); or_status (λ _, NotFound) ((λ _, tt) <$> r).

(** [Close]: the sweeper of transactions is stopped. *)
Definition server_Close : HM unit := on_txMgr CloseTx;; mret tt.

Definition server_now : HM Time := λ '(s, h), (Reply (w_now (h_world h)), (s, h)).

(** ** Error mapping *)
Definition writeErr_code (e : error) : code :=
  match e with
  | ErrResourceExhausted => ResourceExhausted
  | ErrRecordTooLarge => InvalidArgument
  | _ => Internal
  end.

Definition keyedErr (e : error) : code :=
  match e with
  | ErrKeyNotFound => NotFound
  | ErrDuplicateKey => AlreadyExists
  | ErrReservedField => InvalidArgument
  | ErrRecordTooLarge => InvalidArgument
  | ErrResourceExhausted => ResourceExhausted
  | _ => Internal
  end.

(** A refused write: a breach of the quota is reported to the hook. *)
Definition reject {A} (collection : string) (f : error → code) (r : result A) : HM A :=
  match r with
  | Ok a => mret a
  | Err e => λ '(s, h),
      (Status (f e), (if bool_decide (e = ErrResourceExhausted) then note_quota collection s else s, h))
  end.
Definition writeErr {A} (collection : string) (r : result A) : HM A := reject collection writeErr_code r.
Definition keyedWriteErr {A} (collection : string) (r : result A) : HM A := reject collection keyedErr r.

(** ** Helpers *)
Definition ttlDeadline (now : Time) (ttlSeconds : Z) : Time :=
  if (ttlSeconds <=? 0)%Z then zero_time else (now + int64_wrap (ttlSeconds * second))%Z.

Inductive FilterOp := FO_UNSPECIFIED | FO_EQ | FO_NEQ | FO_GT | FO_GTE | FO_LT | FO_LTE | FO_CONTAINS | FO_REGEX.

(** A filter message; [PF_None] is a filter whose kind is not set, and a missing
    filter is [None]. *)
#[warnings="-register-all"]
Inductive PFilter :=
  | PF_Field (field : string) (op : FilterOp) (value : string)
  | PF_And (filters : list PFilter)
  | PF_Or (filters : list PFilter)
  | PF_None.

Definition protoOpToQuery (op : FilterOp) : Op :=
  match op with
  | FO_EQ => OpEq
  | FO_NEQ => OpNeq
  | FO_GT => OpGt
  | FO_GTE => OpGte
  | FO_LT => OpLt
  | FO_LTE => OpLte
  | FO_CONTAINS => OpContains
  | FO_REGEX => OpRegex
  | FO_UNSPECIFIED => OpEq
  end.

Fixpoint proto_filter (f : PFilter) : Filter :=
  match f with
  | PF_Field field op value => FieldFilter field (protoOpToQuery op) value
  | PF_And fs => AndFilter (map proto_filter fs)
  | PF_Or fs => OrFilter (map proto_filter fs)
  | PF_None => MatchAll
  end.

Definition protoFilterToQuery (f : option PFilter) : Filter :=
  match f with None => MatchAll | Some f => proto_filter f end.

(** The shape of a filter in the slow-query log: fields and operators, no values. *)
Definition FilterOp_String (op : FilterOp) : string :=
  match op with
  | FO_UNSPECIFIED => "FILTER_OP_UNSPECIFIED"
  | FO_EQ => "EQ"
  | FO_NEQ => "NEQ"
  | FO_GT => "GT"
  | FO_GTE => "GTE"
  | FO_LT => "LT"
  | FO_LTE => "LTE"
  | FO_CONTAINS => "CONTAINS"
  | FO_REGEX => "REGEX"
  end.

Fixpoint join_strings (sep : string) (l : list string) : string :=
  match l with
  | [] => ""
  | [s] => s
  | s :: l => s +:+ sep +:+ join_strings sep l
  end.

Fixpoint filter_shape (f : PFilter) : string :=
  match f with
  | PF_Field field op _ => field +:+ " " +:+ FilterOp_String op
  | PF_And fs => "and(" +:+ join_strings ", " (map filter_shape fs) +:+ ")"
  | PF_Or fs => "or(" +:+ join_strings ", " (map filter_shape fs) +:+ ")"
  | PF_None => "*"
  end.

Definition filterShape (f : option PFilter) : string := match f with None => "*" | Some f => filter_shape f end.

(** ** Messages *)
Section handlers.
Context {sha : Sha256} {pb : Protobuf} {RE : Regexp}.

Record PRecord := MkPRecord {
  pr_Id : N;
  pr_Data : pstruct;
  pr_DateAdded : ptimestamp;
  pr_DateModified : ptimestamp;
  pr_Key : string;
  pr_Rev : N
}.

Record FindResponse := MkFindResponse { fr_Record : PRecord; fr_PageToken : string }.
Record InsertResponse := MkInsertResponse { ir_Id : N; ir_DateAdded : Time; ir_Key : string; ir_Rev : N }.
Record UpdateResponse := MkUpdateResponse { ur_Id : N; ur_DateModified : Time; ur_Key : string; ur_Rev : N }.
Record UpdateIfRevResponse := MkUpdateIfRevResponse { uir_Swapped : bool; uir_Record : option PRecord }.

(** [req.Data.AsMap()]: a missing structure is an empty map. *)
Definition as_map (d : option pstruct) : option doc := Some (match d with Some s => AsMap s | None => ∅ end).

Definition toProtoRecord (id : N) (key : string) (rev : N) (data : option doc) (ts : Time) : result PRecord :=
  s ← NewStruct (default ∅ data);
  Ok (MkPRecord id s (NewTimestamp ts) (NewTimestamp ts) key rev).

Definition groupValue (k : any) : result pvalue := match k with VNil => Ok NewNullValue | _ => NewValue k end.

(** ** Collections *)
Definition rpc_CreateCollection (name : string) (defaultTtlSeconds : Z) : HM (string * Time) :=
  if bool_decide (name = "") then refuse InvalidArgument
  else if (defaultTtlSeconds <? 0)%Z then refuse InvalidArgument
  else
    r ← on_db (if (0 <? defaultTtlSeconds)%Z
               then CreateCollectionWithDefaultTTL name (int64_wrap (defaultTtlSeconds * second))
               else CreateCollection name);
    or_status (λ _, AlreadyExists) r;;
    n ← server_now;
    mret (name, n).

Definition rpc_DropCollection (name : string) : HM unit :=
  r ← on_db (DropCollection name); or_status (λ _, NotFound) r.

Definition rpc_ListCollections : HM (list string) := λ '(s, h), (Reply (ListCollections (gs_db s)), (s, h)).

(** ** Records *)

Definition tx_collection (ref : N) : HM string := λ '(s, h),
  (Reply (match tm_heap (gs_txMgr s) !! ref with Some t => tx_Collection t | None => "" end), (s, h)).

(** The transaction a request names, which must be bound to its collection. *)
Definition tx_for (txID collection : string) : HM N :=
  r ← on_txMgr (GetTx txID);
  match r with
  | Ok (Some ref) =>
      name ← tx_collection ref;
      if bool_decide (name = collection) then mret ref else refuse InvalidArgument
  | _ => refuse NotFound
  end.

Definition rpc_Insert (txID collection key : string) (data : option pstruct) (ttlSeconds : Z) : HM InsertResponse :=
  if (ttlSeconds <? 0)%Z then refuse InvalidArgument
  else
    need_collection collection;;
    if negb (bool_decide (key = "")) then
      if negb (bool_decide (txID = "")) then refuse InvalidArgument
      else if (0 <? ttlSeconds)%Z then refuse InvalidArgument
      else
        r ← on_collection collection (InsertWithKey key (as_map data));
        x ← keyedWriteErr collection r;
        mret (MkInsertResponse x.1 x.2 key 1)
    else if negb (bool_decide (txID = "")) then
      if (0 <? ttlSeconds)%Z then refuse InvalidArgument
      else
        ref ← tx_for txID collection;
        r ← on_collection collection ReserveID;
        id ← or_status (λ _, NotFound) r;
        on_txMgr (StageInsert ref id (as_map data));;
        n ← server_now;
        mret (MkInsertResponse id n "" 0)
    else
      n ← server_now;
      r ← on_collection collection (InsertWithExpiry (as_map data) (ttlDeadline n ttlSeconds));
      x ← writeErr collection r;
      mret (MkInsertResponse x.1 x.2 "" 1).

Definition rpc_InsertMany (collection : string) (records : list pstruct) (ttlSeconds : Z) : HM (list N) :=
  if (ttlSeconds <? 0)%Z then refuse InvalidArgument
  else
    need_collection collection;;
    n ← server_now;
    r ← on_collection collection (InsertMany (map (λ s, Some (AsMap s)) records) (ttlDeadline n ttlSeconds));
    x ← writeErr collection r;
    mret x.1.

Definition rpc_FindById (collection : string) (id : N) (fields : list string) : HM FindResponse :=
  need_collection collection;;
  r ← on_collection collection (GetRecord id);
  x ← or_status (λ _, NotFound) r;
  rec ← or_status (λ _, Internal) (toProtoRecord (r_ID x) (r_Key x) (r_Rev x) (ProjectData (r_Data x) fields) (r_Ts x));
  mret (MkFindResponse rec "").

Definition rpc_Update (txID collection : string) (id : N) (data : option pstruct) (ttlSeconds : Z) : HM UpdateResponse :=
  if (ttlSeconds <? 0)%Z then refuse InvalidArgument
  else
    need_collection collection;;
    if negb (bool_decide (txID = "")) then
      if (0 <? ttlSeconds)%Z then refuse InvalidArgument
      else
        ref ← tx_for txID collection;
        on_txMgr (StageUpdate ref id (as_map data));;
        n ← server_now;
        mret (MkUpdateResponse id n "" 0)
    else
      n ← server_now;
      r ← on_collection collection (if (0 <? ttlSeconds)%Z
            then UpdateWithExpiry id (as_map data) (ttlDeadline n ttlSeconds)
            else Update_ id (as_map data));
      ts ← or_status (λ _, NotFound) r;
      r ← on_collection collection (GetRecord id);
      mret (match r with
        | Ok x => MkUpdateResponse id ts (r_Key x) (r_Rev x)
        | Err _ => MkUpdateResponse id ts "" 0
        end).

Definition rpc_Delete (txID collection : string) (id : N) : HM unit :=
  need_collection collection;;
  if negb (bool_decide (txID = "")) then
    ref ← tx_for txID collection;
    on_txMgr (StageDelete ref id);;
    mret tt
  else
    r ← on_collection collection (Delete id); or_status (λ _, NotFound) r.

(** ** Keys *)
Definition rpc_Upsert (collection key : string) (data : option pstruct) : HM PRecord :=
  if bool_decide (key = "") then refuse InvalidArgument
  else
    need_collection collection;;
    r ← on_collection collection (Upsert key (as_map data));
    x ← keyedWriteErr collection r;
    or_status (λ _, Internal) (toProtoRecord (r_ID x) (r_Key x) (r_Rev x) (r_Data x) (r_Ts x)).

Definition rpc_FindByKey (collection key : string) (fields : list string) : HM FindResponse :=
  need_collection collection;;
  r ← on_collection collection (GetByKey key);
  x ← or_status keyedErr r;
  rec ← or_status (λ _, Internal) (toProtoRecord (r_ID x) (r_Key x) (r_Rev x) (ProjectData (r_Data x) fields) (r_Ts x));
  mret (MkFindResponse rec "").

Definition rpc_UpdateByKey (collection key : string) (data : option pstruct) : HM UpdateResponse :=
  need_collection collection;;
  r ← on_collection collection (UpdateByKey key (as_map data));
  ts ← or_status keyedErr r;
  r ← on_collection collection (GetByKey key);
  mret (match r with
    | Ok x => MkUpdateResponse (r_ID x) ts key (r_Rev x)
    | Err _ => MkUpdateResponse 0 ts key 0
    end).

Definition rpc_DeleteByKey (collection key : string) : HM unit :=
  need_collection collection;;
  r ← on_collection collection (DeleteByKey key); or_status keyedErr r.

Definition rpc_UpdateIfRev (collection key : string) (expectedRev : N) (data : option pstruct) : HM UpdateIfRevResponse :=
  need_collection collection;;
  r ← on_collection collection (UpdateIfRev key expectedRev (as_map data));
  swapped ← or_status keyedErr r;
  if swapped : bool then
    r ← on_collection collection (GetByKey key);
    mret (MkUpdateIfRevResponse true (match r with
      | Ok x => match toProtoRecord (r_ID x) (r_Key x) (r_Rev x) (r_Data x) (r_Ts x) with Ok p => Some p | Err _ => None end
      | Err _ => None
      end))
  else mret (MkUpdateIfRevResponse false None).

(** ** Secondary indexes *)
Definition rpc_EnsureIndex (collection field : string) : HM unit :=
  if bool_decide (field = "") then refuse InvalidArgument
  else
    need_collection collection;;
    r ← on_collection collection (EnsureIndex field); or_status (λ _, Internal) r.

Definition rpc_DropIndex (collection field : string) : HM unit :=
  need_collection collection;;
  r ← on_collection collection (DropIndex field); or_status (λ _, NotFound) r.

Definition rpc_ListIndexes (collection : string) : HM (list string) :=
  need_collection collection;;
  r ← on_collection collection (c ← obj; mret (ListIndexes c)); or_status (λ _, NotFound) r.

Definition rpc_CollectionStats (collection : string) : HM CollectionStats :=
  need_collection collection;;
  r ← on_collection collection (c ← obj; mret (Stats c)); or_status (λ _, NotFound) r.

(** ** Streams of records *)
Record FindRequest := MkFindRequest {
  fq_Collection : string;
  fq_Filter : option PFilter;
  fq_Limit : Z;
  fq_Offset : Z;
  fq_OrderBy : string;
  fq_Descending : bool;
  fq_OrderByFields : list (string * bool);
  fq_PageToken : string;
  fq_Fields : list string
}.

Definition protoOrderByToSort (obs : list (string * bool)) : list SortField := map (λ ob, MkSortField ob.1 ob.2) obs.

Definition find_options (req : FindRequest) : ScanOptions :=
  MkScanOptions (Some (protoFilterToQuery (fq_Filter req))) (fq_Limit req) (fq_Offset req) (fq_OrderBy req) (fq_Descending req)
    (protoOrderByToSort (fq_OrderByFields req)) (fq_PageToken req) (fq_Fields req).

(** The variables of [Find]'s closures: the record held back, and the stream. *)
Definition find_state : Type := option PRecord * sink FindResponse.

Definition flush_record (token : string) : SE find_state unit := λ '(pending, k),
  match pending with
  | None => (Ok tt, (None, k))
  | Some rec => let '(r, k) := Send (MkFindResponse rec token) k in (r, (None, k))
  end.

Definition find_visit (r : ScanResult) : SE find_state unit :=
  flush_record "";;
  (λ '(pending, k),
    match toProtoRecord (sr_ID r) (key_of (sr_Data r)) (sr_Rev r) (sr_Data r) (sr_Ts r) with
    | Ok rec => (Ok tt, (Some rec, k))
    | Err _ => (Err ErrOther, (pending, k))
    end) : SE find_state unit.

(** The status of an error of the scan or of the stream. *)
Definition stream_code (e : error) : code :=
  match e with
  | ErrCanceled => Canceled
  | ErrInvalidPageToken => InvalidArgument
  | ErrUnavailable => Unavailable
  | ErrFailedPrecondition => FailedPrecondition
  | _ => Internal
  end.

Definition find_in (ctx : option nat) (c : Collection) (req : FindRequest) (k : sink FindResponse) (w : World)
    : reply unit * sink FindResponse * World :=
  let '(r, stats, (pending, k), w) := ScanStream ctx c (find_options req) find_visit (None, k) w in
  match r with
  | Err e => (Status (stream_code e), k, w)
  | Ok _ =>
      match flush_record (NextPageToken stats) (pending, k) with
      | (Ok _, (_, k)) => (Reply tt, k, w)
      | (Err e, (_, k)) => (Status (stream_code e), k, w)
      end
  end.

Definition rpc_Find (ctx : option nat) (req : FindRequest) (k : sink FindResponse)
    : GRPCServer * Host → reply unit * sink FindResponse * (GRPCServer * Host) := λ '(s, h),
  match db_collections (gs_db s) !! fq_Collection req with
  | None => (Status NotFound, k, (s, h))
  | Some c =>
      let '(r, k, w) := find_in ctx c req k (h_world h) in (r, k, (s, MkHost w (h_dirs h)))
  end.

(** ** Aggregation *)
Inductive AggregateOp := AGG_UNSPECIFIED | AGG_COUNT | AGG_SUM | AGG_AVG | AGG_MIN | AGG_MAX.

Definition wantsNumericAgg (ops : list AggregateOp) : bool :=
  existsb (λ op, match op with AGG_SUM | AGG_AVG | AGG_MIN | AGG_MAX => true | _ => false end) ops.

Record AggregateRequest := MkAggregateRequest {
  aq_Collection : string;
  aq_Filter : option PFilter;
  aq_GroupBy : string;
  aq_Field : string;
  aq_Aggregations : list AggregateOp
}.
Record AggregateResponse := MkAggregateResponse {
  ar_GroupValue : pvalue;
  ar_Count : N;
  ar_Sum : f64;
  ar_Avg : f64;
  ar_Min : f64;
  ar_Max : f64;
  ar_Numeric : bool
}.

Definition aggregate_visit (g : GroupResult) : SE (sink AggregateResponse) unit := λ k,
  match groupValue (g_Key g) with
  | Ok gv => Send (MkAggregateResponse gv (g_Count g) (g_Sum g) (g_Avg g) (g_Min g) (g_Max g) (g_Numeric g)) k
  | Err _ => (Err ErrOther, k)
  end.

(** Aggregation does not page: a page-token error cannot occur. *)
Definition rpc_Aggregate `{!GroupOrder} (ctx : option nat) (req : AggregateRequest) (k : sink AggregateResponse)
    : GRPCServer * Host → reply unit * sink AggregateResponse * (GRPCServer * Host) := λ '(s, h),
  match db_collections (gs_db s) !! aq_Collection req with
  | None => (Status NotFound, k, (s, h))
  | Some c =>
      if (wantsNumericAgg (aq_Aggregations req) && bool_decide (aq_Field req = ""))%bool then (Status InvalidArgument, k, (s, h))
      else
        let spec := MkAggregateSpec (Some (protoFilterToQuery (aq_Filter req))) (aq_GroupBy req) (aq_Field req) in
        let '(r, k, w) := Aggregate ctx c spec aggregate_visit k (h_world h) in
        (match r with Ok _ => Reply tt | Err e => Status (stream_code e) end, k, (s, MkHost w (h_dirs h)))
  end.

(** ** Watching *)
Inductive WatchOp := WATCH_OP_UNSPECIFIED | INSERTED | UPDATED | DELETED | OVERFLOW.
Record WatchMessage := MkWatchMessage {
  wm_Op : WatchOp;
  wm_Collection : string;
  wm_Record : option PRecord;
  wm_Ts : ptimestamp
}.

(** The message an event of the subscription leads to, if any. *)
Definition watch_message (collection : string) (f : Filter) (ev : WatchEvent) : option WatchMessage :=
  if bool_decide (we_Op ev = OpOverflow) then Some (MkWatchMessage OVERFLOW collection None (NewTimestamp (we_Ts ev)))
  else if Match f (default ∅ (we_Data ev)) then
    let op := match we_Op ev with
      | OpInsert => INSERTED
      | OpUpdate => UPDATED
      | OpDelete => DELETED
      | OpOther _ => WATCH_OP_UNSPECIFIED
      end in
    Some (MkWatchMessage op collection
      (match toProtoRecord (we_ID ev) (key_of (we_Data ev)) 0 (we_Data ev) (we_Ts ev) with Ok p => Some p | Err _ => None end)
      (NewTimestamp (we_Ts ev)))
  else None.

(** [Watch] subscribes and loops until its context ends or a send fails, then
    cancels the subscription: [watch_open], turns [watch_turn] between which other
    requests are served, [watch_end].  A turn takes the next buffered event, if
    there is one. *)
Definition take_event (id : N) : CM (option WatchEvent) :=
  c ← obj;
  match c_watchers c !! id with
  | None => mret None
  | Some w => let '(ev, w) := receive w in modify (λ c, set_watchers (<[id := w]> (c_watchers c)) c);; mret ev
  end.

Definition watch_open (collection : string) : HM N :=
  need_collection collection;;
  r ← on_collection collection Subscribe; or_status (λ _, NotFound) r.

Definition send_event (collection : string) (f : Filter) (ev : option WatchEvent) : SE (sink WatchMessage) unit :=
  match ev ≫= watch_message collection f with Some m => Send m | None => mret tt end.

Definition watch_turn (collection : string) (f : Filter) (id : N) (k : sink WatchMessage)
    : GRPCServer * Host → reply unit * sink WatchMessage * (GRPCServer * Host) := λ s,
  match on_collection collection (take_event id) s with
  | (Reply (Ok ev), s) =>
      match send_event collection f ev k with
      | (Ok _, k) => (Reply tt, k, s)
      | (Err e, k) => (Status (stream_code e), k, s)
      end
  | (_, s) => (Reply tt, k, s)
  end.

Definition watch_end (collection : string) (id : N) : HM unit :=
  on_collection collection (cancel_subscription id);; mret tt.

(** ** Administration *)
Definition rpc_Compact `{!RangeOrder} (collection : string) : HM unit :=
  if bool_decide (collection = "") then refuse InvalidArgument
  else
    need_collection collection;;
    r ← on_collection collection CompactNow; or_status (λ _, Internal) r.

Record ReplicationStatusResponse := MkReplicationStatusResponse {
  sr_LeaderLsn : N;
  sr_AppliedLsn : N;
  sr_Followers : list FollowerStatusData
}.
Definition rpc_ReplicationStatus : HM ReplicationStatusResponse := λ '(s, h),
  let st := ReplicationStatus (gs_db s) in
  (Reply (MkReplicationStatusResponse (rd_LeaderLSN st) (db_appliedLSN (gs_db s)) (rd_Followers st)), (s, h)).

Definition rpc_Promote (force : bool) : HM (string * N * N) := λ '(s, h),
  (r ← on_db (Promote (gs_promoteMaxLag s) force);
   x ← or_status (λ e, match e with ErrReplicaLagExceeded | ErrNotFollower => FailedPrecondition | _ => Internal end) r;
   mret (Role_String (pr_Role x), pr_LSN x, pr_Lag x)) (s, h).

(** [Replicate] opens a subscription and sends its backlog ([replicate_open]), then
    ships entries as they come ([replicate_turn]); the subscription is closed when
    the stream ends. *)
Definition update_sub (id : N) (f : replSub → replSub) (b : replicationBroker) : replicationBroker :=
  set_subs (alter f id (b_subs b)) b.

Definition sendReplRecord (id : N) (re : ReplicationEntry) : SE (option replicationBroker * sink ReplicationRecord) unit := λ '(b, k),
  match replEntryToProto re with
  | Err _ => (Err ErrOther, (b, k))
  | Ok rec =>
      match Send rec k with
      | (Ok _, k) => (Ok tt, (update_sub id (NoteSent (re_LSN re)) <$> b, k))
      | (Err e, k) => (Err e, (b, k))
      end
  end.

Definition with_stream {A} (id : N) (m : SE (option replicationBroker * sink ReplicationRecord) A) (k : sink ReplicationRecord)
    : GRPCServer * Host → reply A * sink ReplicationRecord * (GRPCServer * Host) := λ '(s, h),
  let '(r, (b, k)) := m (db_broker (gs_db s), k) in
  match r with
  | Ok a => (Reply a, k, (set_gs_db (set_db_broker b (gs_db s)) s, h))
  | Err e => (Status (stream_code e), k, (set_gs_db (set_db_broker (unsubscribe id <$> b) (gs_db s)) s, h))
  end.

Definition replicate_open (fromLsn : N) (followerId : string) (k : sink ReplicationRecord)
    : GRPCServer * Host → reply N * sink ReplicationRecord * (GRPCServer * Host) := λ '(s, h),
  match SubscribeReplication (w_now (h_world h)) fromLsn followerId (gs_db s) with
  | (None, _) => (Status FailedPrecondition, k, (s, h))
  | (Some (sub, backlog), db) =>
      with_stream (rs_id sub) (for_each (sendReplRecord (rs_id sub)) backlog;; mret (rs_id sub)) k (set_gs_db db s, h)
  end.

(** Take the next entry from the channel of a subscription. *)
Definition receive_entry (id : N) (b : replicationBroker) : option ReplicationEntry * replicationBroker :=
  match rs_ch <$> b_subs b !! id with
  | Some (re :: ch) => (Some re, update_sub id (set_ch ch) b)
  | _ => (None, b)
  end.

Definition sub_dead (id : N) (b : option replicationBroker) : bool :=
  match b ≫= λ b, b_subs b !! id with Some s => rs_dead s | None => false end.

(** One turn of the loop.  When the subscription is dead and entries are left in
    its channel, which of the two the turn takes is not determined: [dead_first]. *)
Definition replicate_turn (dead_first : bool) (id : N) : SE (option replicationBroker * sink ReplicationRecord) unit := λ '(b, k),
  match receive_entry id <$> b with
  | Some (Some re, b') =>
      if (sub_dead id b && dead_first)%bool then (Err ErrFailedPrecondition, (b, k))
      else sendReplRecord id re (Some b', k)
  | _ => if sub_dead id b then (Err ErrFailedPrecondition, (b, k)) else (Ok tt, (b, k))
  end.

Definition rpc_Replicate_turn (dead_first : bool) (id : N) (k : sink ReplicationRecord)
    : GRPCServer * Host → reply unit * sink ReplicationRecord * (GRPCServer * Host) := with_stream id (replicate_turn dead_first id) k.

(** ** Transactions *)
Definition rpc_BeginTx (collection : string) : HM string :=
  if bool_decide (collection = "") then refuse InvalidArgument
  else
    need_collection collection;;
    r ← on_txMgr (Begin collection); or_status (λ _, Internal) r.

Definition rpc_CommitTx (txID : string) : HM unit :=
  r ← on_txMgr (GetTx txID);
  match r with
  | Ok (Some ref) =>
      name ← tx_collection ref;
      need_collection name;;
      r ← on_txMgr (Snapshot ref);
      ops ← or_status (λ _, Internal) r;
      on_txMgr (Remove txID);;
      r ← on_collection name (CommitTx ops);
      reject name (λ e, match e with ErrResourceExhausted => ResourceExhausted | _ => Aborted end) r
  | _ => refuse NotFound
  end.

Definition rpc_RollbackTx (txID : string) : HM unit :=
  r ← on_txMgr (GetTx txID);
  match r with
  | Ok (Some _) => on_txMgr (Remove txID);; mret tt
  | _ => refuse NotFound
  end.
End handlers.
