(* ===== verification/GrpcSpec.v ===== *)
(** * What the handlers do

    A read-only follower: whatever request of this file reaches it through the guard
    of server/readonly.go, its collections and files stay as they are
    ([replica_reads_only]); so the list of write methods is complete for these
    handlers.  The Snapshot handler, which refreshes the files of secondary indexes,
    is in SnapshotRpc.  Requests on unknown collections are refused and change nothing
    ([unknown_collection_inert]).  [rpc_find_page] states what a paged [Find] sends,
    [rpc_insert_ttl] what an insert with a time to live can be read as and until
    when.  Scenarios show a time to live that overflows, an empty record that is
    acknowledged and never readable, and a filtered watch that misses deletions. *)

From S2P Require Import Prelude GoFloat GoTime GoJson Value Query Store Disk Segment Index SecIndex TopK Meta Collection Steps CollectionSpec Scan ScanSpec IndexInv Aggregate Open OpenSpec Compactor CompactorSpec TxManager Broker Replica Database DatabaseSpec Auth Snapshot Grpc.

(** ** Reads leave the files alone *)
Definition calm {S A} (m : SE (S * World) A) : Prop := ∀ s w, w_files (m (s, w)).2.2 = w_files w.

Lemma calm_bind {S A B} (m : SE (S * World) A) (f : A → SE (S * World) B) : calm m → (∀ a, calm (f a)) → calm (m ≫= f).
Proof.
  intros Hm Hf s w. unfold mbind, SE_bind. specialize (Hm s w). destruct (m (s, w)) as [[a|e] [s' w']]; simpl in *; [|done].
  by rewrite Hf.
Qed.
Lemma calm_ret {S A} (a : A) : calm (S := S) (mret a).
Proof. done. Qed.
Lemma calm_lift {S A} (r : result A) : calm (S := S) (lift r).
Proof. done. Qed.
Lemma calm_fail {S A} e : calm (S := S) (@fail _ A e).
Proof. done. Qed.
Lemma calm_obj {S} : calm (S := S) obj.
Proof. done. Qed.
Lemma calm_io {S A} (m : M A) : touches (λ _, False) m → calm (S := S) (io m).
Proof. intros Hm s w. unfold io. specialize (Hm w). destruct (m w). apply map_eq. intros p. apply Hm. tauto. Qed.
Lemma calm_ctx {L U} : calm (@ctx_Err L U).
Proof. intros s w. unfold ctx_Err. by repeat case_match. Qed.
Lemma calm_locals {L U} : calm (@locals L U).
Proof. done. Qed.
Lemma calm_set_locals {L U} (l : L) : calm (@set_locals L U l).
Proof. done. Qed.
Lemma calm_set_stats {L U} f : calm (@set_stats L U f).
Proof. done. Qed.
Lemma calm_on_user {L U} m : calm (@on_user L U m).
Proof. intros s w. unfold on_user. by destruct (m _). Qed.
Lemma calm_with_locals {L L' U A} (l : L') (m : Scan.SM L' U A) : calm m → calm (@with_locals L L' U A l m).
Proof. intros Hm s w. unfold with_locals. specialize (Hm (MkScanState (ss_ctx s) (ss_stats s) l (ss_user s)) w). by destruct (m _) as [? [? ?]]. Qed.
Lemma calm_on_coll {L U A} c (m : CM A) : calm m → calm (@Scan.on_coll L U A c m).
Proof. intros Hm s w. unfold Scan.on_coll. specialize (Hm c w). by destruct (m _) as [? [? ?]]. Qed.
Lemma calm_for_each {S A} (body : A → SE (S * World) unit) l : (∀ x, calm (body x)) → calm (for_each body l).
Proof. intros Hb. induction l as [|x l IH]; cbn [for_each]; [apply calm_ret|]. by apply calm_bind. Qed.
Lemma calm_stop {S} (m : SE (S * World) unit) : calm m → calm (stop_is_ok m).
Proof.
  intros Hm s w. unfold stop_is_ok. specialize (Hm s w). destruct (m (s, w)) as [[a|e] [s' w']]; [done|]. by destruct (bool_decide _).
Qed.

Ltac calm := repeat match goal with
  | |- calm (_ ≫= _) => apply calm_bind; [|intros ?]
  | |- calm (mret _) => apply calm_ret
  | |- calm (lift _) => apply calm_lift
  | |- calm (fail _) => apply calm_fail
  | |- calm obj => apply calm_obj
  | |- calm (io _) => apply calm_io; solve [touch]
  | |- calm ctx_Err => apply calm_ctx
  | |- calm locals => apply calm_locals
  | |- calm (set_locals _) => apply calm_set_locals
  | |- calm (set_stats _) => apply calm_set_stats
  | |- calm (on_user _) => apply calm_on_user
  | |- calm (with_locals _ _) => apply calm_with_locals
  | |- calm (stop_is_ok _) => apply calm_stop
  | |- calm (for_each _ _) => apply calm_for_each; intros ?
  | |- calm (let '(_, _) := ?x in _) => destruct x
  | |- calm (match ?x with _ => _ end) => destruct x
  | _ => assumption
  end.

Lemma calm_getStored id : calm (getStored id).
Proof. unfold getStored. calm. Qed.
Lemma calm_GetRecord id : calm (GetRecord id).
Proof. unfold GetRecord. apply calm_bind; [apply calm_getStored|intros ?]. calm. Qed.

Section calm_scan.
Context {RE : Regexp}.

Lemma calm_yield_lines {X} (yield : Z → Entry → SE (X * World) unit) ls off :
  (∀ o e, calm (yield o e)) → calm (yield_lines yield ls off).
Proof. intros Hy. revert off. induction ls as [|l ls IH]; intros off; cbn [yield_lines]; [apply calm_ret|]. calm; auto. Qed.

Lemma calm_forEachMatch {L U} c f (visit : ScanResult → Scan.SM L U unit) : (∀ r, calm (visit r)) → calm (forEachMatch c f visit).
Proof.
  intros Hv. unfold forEachMatch, visitCandidates, streamLive. calm.
  - unfold visit_candidate. calm; [apply calm_on_coll, calm_getStored|apply Hv].
  - unfold ScanFrom. calm. apply calm_yield_lines. intros off ent. unfold stream_entry. calm. apply Hv.
Qed.

Lemma calm_scan_stream {U} c opts (yield : ScanResult → SE U unit) : calm (scan_stream c opts yield).
Proof.
  assert (∀ L r, calm (counting c opts yield L r)) as Hc by (intros; unfold counting; calm).
  unfold scan_stream, scanUnordered, scanOrdered. cbv zeta. calm; try apply calm_forEachMatch; try apply Hc; intros r.
  - unfold unordered_visit. calm. apply Hc.
  - unfold collect_top. calm.
  - unfold collect_all. calm.
Qed.

Lemma ScanStream_files {U} ctx c opts (yield : ScanResult → SE U unit) u w : w_files (ScanStream ctx c opts yield u w).2 = w_files w.
Proof.
  unfold ScanStream. pose proof (calm_scan_stream c opts yield (MkScanState ctx zero_stats tt u) w) as H.
  by destruct (scan_stream c opts yield _) as [r [s w']].
Qed.

Lemma Aggregate_files {U} `{!GroupOrder} ctx c spec (emit : GroupResult → SE U unit) u w : w_files (Aggregate ctx c spec emit u w).2 = w_files w.
Proof.
  unfold Aggregate. destruct (check_enc _ _); [|done]. destruct (_ && _)%bool.
  - assert (w_files (Count c (Some (default MatchAll (ag_Filter spec))) w).2 = w_files w) as Hc.
    { unfold Count. destruct (default MatchAll (ag_Filter spec)) as [|field op value|fs|fs]; [done|..];
        [destruct op; try destruct (IndexLookup _ _ _); [done|..]|..];
        match goal with |- context [forEachMatch c ?f count_visit ?s] =>
          pose proof (calm_forEachMatch (U := unit) c f count_visit) as Hm; specialize (Hm ltac:(intros; unfold count_visit; calm) (MkScanState None zero_stats 0%N tt) w);
          by destruct (forEachMatch c f count_visit s) as [? [? ?]] end. }
    destruct (Count _ _ _) as [[n|e] w1]; [|done]. by destruct (emit _ u).
  - pose proof (calm_forEachMatch c (default MatchAll (ag_Filter spec)) (agg_visit (U := U) spec)) as Hm.
    specialize (Hm ltac:(intros; unfold agg_visit; calm) (MkScanState ctx zero_stats ∅ u) w).
    destruct (forEachMatch _ _ _ _) as [[x|e] [s w1]]; [|done]. by destruct (for_each _ _ _).
Qed.
End calm_scan.

(** ** Requests *)
Section requests.
Context {sha : Sha256} {pb : Protobuf} {RE : Regexp} {ro : RangeOrder} {go : GroupOrder}.

(** A request, or a step of the streaming [Watch].  The requests that stream carry
    their context and the stream. *)
#[warnings="-register-all"]
Inductive request :=
  | RCreateCollection (name : string) (defaultTtlSeconds : Z)
  | RDropCollection (name : string)
  | RListCollections
  | RInsert (txID collection key : string) (data : option pstruct) (ttlSeconds : Z)
  | RInsertMany (collection : string) (records : list pstruct) (ttlSeconds : Z)
  | RFindById (collection : string) (id : N) (fields : list string)
  | RFind (ctx : option nat) (req : FindRequest) (k : sink FindResponse)
  | RUpdate (txID collection : string) (id : N) (data : option pstruct) (ttlSeconds : Z)
  | RDelete (txID collection : string) (id : N)
  | RUpsert (collection key : string) (data : option pstruct)
  | RFindByKey (collection key : string) (fields : list string)
  | RUpdateByKey (collection key : string) (data : option pstruct)
  | RDeleteByKey (collection key : string)
  | RUpdateIfRev (collection key : string) (expectedRev : N) (data : option pstruct)
  | REnsureIndex (collection field : string)
  | RDropIndex (collection field : string)
  | RListIndexes (collection : string)
  | RBeginTx (collection : string)
  | RCommitTx (txID : string)
  | RRollbackTx (txID : string)
  | RWatchOpen (collection : string)
  | RWatchTurn (collection : string) (filter : option PFilter) (id : N) (k : sink WatchMessage)
  | RWatchEnd (collection : string) (id : N)
  | RAggregate (ctx : option nat) (req : AggregateRequest) (k : sink AggregateResponse)
  | RCollectionStats (collection : string)
  | RCompact (collection : string)
  | RReplicate (fromLsn : N) (followerId : string) (k : sink ReplicationRecord)
  | RReplicateTurn (dead_first : bool) (id : N) (k : sink ReplicationRecord)
  | RReplicationStatus
  | RPromote (force : bool).

Definition method_of (req : request) : string :=
  method match req with
  | RCreateCollection _ _ => "CreateCollection"
  | RDropCollection _ => "DropCollection"
  | RListCollections => "ListCollections"
  | RInsert _ _ _ _ _ => "Insert"
  | RInsertMany _ _ _ => "InsertMany"
  | RFindById _ _ _ => "FindById"
  | RFind _ _ _ => "Find"
  | RUpdate _ _ _ _ _ => "Update"
  | RDelete _ _ _ => "Delete"
  | RUpsert _ _ _ => "Upsert"
  | RFindByKey _ _ _ => "FindByKey"
  | RUpdateByKey _ _ _ => "UpdateByKey"
  | RDeleteByKey _ _ => "DeleteByKey"
  | RUpdateIfRev _ _ _ _ => "UpdateIfRev"
  | REnsureIndex _ _ => "EnsureIndex"
  | RDropIndex _ _ => "DropIndex"
  | RListIndexes _ => "ListIndexes"
  | RBeginTx _ => "BeginTx"
  | RCommitTx _ => "CommitTx"
  | RRollbackTx _ => "RollbackTx"
  | RWatchOpen _ | RWatchTurn _ _ _ _ | RWatchEnd _ _ => "Watch"
  | RAggregate _ _ _ => "Aggregate"
  | RCollectionStats _ => "CollectionStats"
  | RCompact _ => "Compact"
  | RReplicate _ _ _ | RReplicateTurn _ _ _ => "Replicate"
  | RReplicationStatus => "ReplicationStatus"
  | RPromote _ => "Promote"
  end.

(** Whether a call succeeded, or its code, and the state it leaves. *)
Abbreviation answer := (reply unit * (GRPCServer * Host))%type.
Definition status_of {A} (r : reply A) : reply unit := match r with Reply _ => Reply tt | Status c => Status c end.
Definition unary {A} (m : HM A) (s : GRPCServer * Host) : answer := (status_of (m s).1, (m s).2).
Definition streamed {A K} (m : GRPCServer * Host → reply A * K * (GRPCServer * Host)) (s : GRPCServer * Host) : answer :=
  (status_of (m s).1.1, (m s).2).

Definition handle (req : request) : GRPCServer * Host → answer :=
  match req with
  | RCreateCollection name ttl => unary (rpc_CreateCollection name ttl)
  | RDropCollection name => unary (rpc_DropCollection name)
  | RListCollections => unary rpc_ListCollections
  | RInsert tx c key d ttl => unary (rpc_Insert tx c key d ttl)
  | RInsertMany c rs ttl => unary (rpc_InsertMany c rs ttl)
  | RFindById c id fs => unary (rpc_FindById c id fs)
  | RFind ctx q k => streamed (rpc_Find ctx q k)
  | RUpdate tx c id d ttl => unary (rpc_Update tx c id d ttl)
  | RDelete tx c id => unary (rpc_Delete tx c id)
  | RUpsert c key d => unary (rpc_Upsert c key d)
  | RFindByKey c key fs => unary (rpc_FindByKey c key fs)
  | RUpdateByKey c key d => unary (rpc_UpdateByKey c key d)
  | RDeleteByKey c key => unary (rpc_DeleteByKey c key)
  | RUpdateIfRev c key rev d => unary (rpc_UpdateIfRev c key rev d)
  | REnsureIndex c f => unary (rpc_EnsureIndex c f)
  | RDropIndex c f => unary (rpc_DropIndex c f)
  | RListIndexes c => unary (rpc_ListIndexes c)
  | RBeginTx c => unary (rpc_BeginTx c)
  | RCommitTx tx => unary (rpc_CommitTx tx)
  | RRollbackTx tx => unary (rpc_RollbackTx tx)
  | RWatchOpen c => unary (watch_open c)
  | RWatchTurn c f id k => streamed (watch_turn c (protoFilterToQuery f) id k)
  | RWatchEnd c id => unary (watch_end c id)
  | RAggregate ctx q k => streamed (rpc_Aggregate ctx q k)
  | RCollectionStats c => unary (rpc_CollectionStats c)
  | RCompact c => unary (rpc_Compact c)
  | RReplicate lsn id k => streamed (replicate_open lsn id k)
  | RReplicateTurn d id k => streamed (rpc_Replicate_turn d id k)
  | RReplicationStatus => unary rpc_ReplicationStatus
  | RPromote force => unary (rpc_Promote force)
  end.

(** A request as the guard of a replica passes it on. *)
Definition serve (req : request) : SE (GRPCServer * Host) (reply unit) :=
  readonly_unary (λ st, IsFollower (gs_db st.1)) (method_of req) (λ s, let '(r, s) := handle req s in (Ok r, s)).

(** ** Requests that only read *)

(** A collection up to its subscribers. *)
Definition quiet (c : Collection) : Collection := set_watcherIDSeq 0 (set_watchers ∅ c).

(** Two states of the server with the same data, transactions and positions. *)
Record same_data (st st' : GRPCServer * Host) : Prop := MkSame {
  same_collections : quiet <$> db_collections (gs_db st'.1) = quiet <$> db_collections (gs_db st.1);
  same_files : w_files (h_world st'.2) = w_files (h_world st.2);
  same_dirs : h_dirs st'.2 = h_dirs st.2;
  same_txs : gs_txMgr st'.1 = gs_txMgr st.1;
  same_role : db_role (gs_db st'.1) = db_role (gs_db st.1);
  same_applied : db_appliedLSN (gs_db st'.1) = db_appliedLSN (gs_db st.1);
  same_lsn : CurrentLSN (gs_db st'.1) = CurrentLSN (gs_db st.1)
}.
#[local] Instance same_data_preorder : PreOrder same_data.
Proof. split; [by intros []|]. intros ? ? ? [] []. split; etrans; eassumption. Qed.

Lemma same_data_trans st1 st2 st3 : same_data st1 st2 → same_data st2 st3 → same_data st1 st3.
Proof. apply same_data_preorder. Qed.

(** Nothing waits to be published, which is so between requests. *)
Definition flushed (st : GRPCServer * Host) : Prop :=
  ∀ name c, db_collections (gs_db st.1) !! name = Some c → c_feed c = [].

Lemma quiet_feed c c' : quiet c' = quiet c → c_feed c' = c_feed c.
Proof. intros H%(f_equal c_feed). by destruct c, c'. Qed.
Lemma quiet_set_feed c c' : quiet c' = quiet c → c_feed c = [] → quiet (set_feed [] c') = quiet c.
Proof.
  intros H Hf. trans (set_feed [] (quiet c')); [by destruct c'|]. rewrite H. destruct c. simpl in Hf. by rewrite Hf.
Qed.

Lemma same_flushed st st' : same_data st st' → flushed st → flushed st'.
Proof.
  intros [Hc _ _ _ _ _ _] Hf name c' Hl. pose proof (f_equal (.!! name) Hc) as Hn. rewrite !lookup_fmap, Hl in Hn.
  destruct (db_collections (gs_db st.1) !! name) as [c|] eqn:Hl0; [|done]. simpl in Hn. injection Hn as Hn.
  rewrite (quiet_feed _ _ Hn). eauto.
Qed.

Definition reads {A} (m : HM A) : Prop := ∀ st, flushed st → same_data st (m st).2.

Lemma reads_bind {A B} (m : HM A) (f : A → HM B) : reads m → (∀ a, reads (f a)) → reads (m ≫= f).
Proof.
  intros Hm Hf st Hfl. unfold mbind, HM_bind. specialize (Hm st Hfl). destruct (m st) as [[a|c] st']; simpl in *; [|done].
  etrans; [done|]. apply Hf. by apply same_flushed with st.
Qed.
Lemma reads_ret {A} (a : A) : reads (mret a).
Proof. by intros st _. Qed.
Lemma reads_refuse {A} c : reads (@refuse A c).
Proof. by intros st _. Qed.
Lemma reads_or_status {A} f (r : result A) : reads (or_status f r).
Proof. by destruct r. Qed.

(** An operation of a collection that changes its subscribers at most. *)
Definition watches {A} (m : CM A) : Prop :=
  ∀ c w, quiet (m (c, w)).2.1 = quiet c ∧ w_files (m (c, w)).2.2 = w_files w.

Lemma flush_same db name c c' :
  db_collections db !! name = Some c → c_feed c = [] → quiet c' = quiet c →
  quiet <$> db_collections (flush name c' db) = quiet <$> db_collections db ∧
  db_role (flush name c' db) = db_role db ∧ db_appliedLSN (flush name c' db) = db_appliedLSN db ∧
  CurrentLSN (flush name c' db) = CurrentLSN db.
Proof.
  intros Hl Hf Hq. pose proof (quiet_feed _ _ Hq) as Hf'. rewrite Hf in Hf'. unfold flush. rewrite Hf'. destruct db; simpl in *.
  split_and!; [|done|done|unfold CurrentLSN; simpl; by destruct db_broker].
  rewrite fmap_insert, (quiet_set_feed c c') by done. apply insert_id. by rewrite lookup_fmap, Hl.
Qed.

Lemma reads_on_collection {A} name (m : CM A) : watches m → reads (on_collection name m).
Proof.
  intros Hm [s h] Hfl. unfold on_collection, on_db, with_collection.
  destruct (db_collections (gs_db s) !! name) as [c|] eqn:Hl; [|by destruct s, h].
  specialize (Hm c (h_world h)). destruct (m (c, h_world h)) as [r [c' w']]. simpl in Hm. destruct Hm as [Hq Hw].
  destruct (flush_same (gs_db s) name c c' Hl (Hfl name c Hl) Hq) as (H1 & H2 & H3 & H4). by destruct s.
Qed.

Lemma reads_need_collection name : reads (need_collection name).
Proof.
  apply reads_bind; [|intros; apply reads_or_status]. intros [s h] _.
  unfold on_db, get_collection, mbind, SE_bind, the_db. simpl. destruct (_ !! _); by destruct s.
Qed.

Lemma watches_bind {A B} (m : CM A) (f : A → CM B) : watches m → (∀ a, watches (f a)) → watches (m ≫= f).
Proof.
  intros Hm Hf c w. unfold mbind, SE_bind. specialize (Hm c w). destruct (m (c, w)) as [[a|e] [c' w']]; simpl in *; [|done].
  destruct Hm as [<- <-]. apply Hf.
Qed.
Lemma watches_pure {A} (m : CM A) : (∀ s, (m s).2 = s) → watches m.
Proof. intros Hm c w. by rewrite Hm. Qed.
Lemma watches_look {A} (f : Collection → A) : watches (c ← obj; mret (f c)).
Proof. by apply watches_pure. Qed.
Lemma watches_modify f : (∀ c, quiet (f c) = quiet c) → watches (modify f).
Proof. intros Hf c w. by split; [apply Hf|]. Qed.
Lemma watches_io {A} (m : M A) : touches (λ _, False) m → watches (io m).
Proof. intros Hm c w. pose proof (calm_io (S := Collection) m Hm c w) as Hw. unfold io in *. by destruct (m w). Qed.
Lemma watches_getStored id : watches (getStored id).
Proof.
  unfold getStored. apply watches_bind; [by apply watches_pure|intros c].
  apply watches_bind; [apply watches_io; touch|intros n].
  repeat case_match; try by apply watches_pure. apply watches_bind; [apply watches_io; touch|intros e]. by apply watches_pure.
Qed.
Lemma watches_GetRecord id : watches (GetRecord id).
Proof.
  unfold GetRecord. apply watches_bind; [apply watches_getStored|intros el].
  apply watches_pure. intros []. unfold mbind, SE_bind, obj, lift. simpl. by destruct (materialize _ _).
Qed.
Lemma watches_GetByKey key : watches (GetByKey key).
Proof. apply watches_bind; [|intros; apply watches_GetRecord]. apply watches_pure. by intros []. Qed.
Lemma watches_Subscribe : watches Subscribe.
Proof.
  apply watches_bind; [by apply watches_pure|intros c0]. apply watches_bind; [|intros; by apply watches_pure].
  apply watches_modify. by intros [].
Qed.
Lemma watches_take_event id : watches (take_event id).
Proof.
  apply watches_bind; [by apply watches_pure|intros c0]. destruct (_ !! _) as [w|]; [|by apply watches_pure].
  destruct (receive w). apply watches_bind; [|intros; by apply watches_pure]. apply watches_modify. by intros [].
Qed.
Lemma watches_cancel id : watches (cancel_subscription id).
Proof. apply watches_modify. by intros []. Qed.

Create HintDb reads.
#[local] Hint Resolve reads_ret reads_refuse reads_or_status reads_need_collection reads_on_collection watches_look watches_GetRecord
  watches_GetByKey watches_Subscribe watches_cancel watches_take_event : reads.
Ltac reads := repeat first [progress auto with reads | apply reads_bind; [|intros ?] | case_match].

(** A call that streams from a collection's files. *)
Lemma same_world s h w : w_files w = w_files (h_world h) → same_data (s, h) (s, MkHost w (h_dirs h)).
Proof. by intros ?. Qed.

Lemma rpc_Find_same ctx q k st : same_data st (rpc_Find ctx q k st).2.
Proof.
  destruct st as [s h]. unfold rpc_Find, find_in. destruct (_ !! _) as [c|]; [|done].
  pose proof (ScanStream_files ctx c (find_options q) find_visit (None, k) (h_world h)) as Hw.
  destruct (ScanStream _ _ _ _ _ _) as [[[r stats] [pending k']] w]. simpl in Hw.
  repeat case_match; simplify_eq; by apply same_world.
Qed.

Lemma rpc_Aggregate_same ctx q k st : same_data st (rpc_Aggregate ctx q k st).2.
Proof.
  destruct st as [s h]. unfold rpc_Aggregate. destruct (_ !! _) as [c|]; [|done]. destruct (_ && _)%bool; [done|].
  pose proof (Aggregate_files ctx c (MkAggregateSpec (Some (protoFilterToQuery (aq_Filter q))) (aq_GroupBy q) (aq_Field q))
    aggregate_visit k (h_world h)) as Hw.
  destruct (Aggregate _ _ _ _ _ _) as [[r k'] w]. by apply same_world.
Qed.

Lemma watch_turn_same c f id k st : flushed st → same_data st (watch_turn c f id k st).2.
Proof.
  intros Hfl. unfold watch_turn. pose proof (reads_on_collection c (take_event id) (watches_take_event id) st Hfl) as H.
  destruct (on_collection _ _ _) as [[[ev|e]|code] st']; [destruct (send_event _ _ _ _) as [[u|e] k']|..]; done.
Qed.

(** Serving a follower moves no position. *)
Definition same_feed {A} (m : SE (option replicationBroker * sink ReplicationRecord) A) : Prop :=
  ∀ b k, b_lsn <$> (m (b, k)).2.1 = b_lsn <$> b.

Lemma same_feed_bind {A B} (m : SE _ A) (f : A → SE _ B) : same_feed m → (∀ a, same_feed (f a)) → same_feed (m ≫= f).
Proof.
  intros Hm Hf b k. unfold mbind, SE_bind. specialize (Hm b k). destruct (m (b, k)) as [[a|e] [b' k']]; simpl in *; [|done].
  by rewrite Hf.
Qed.
Lemma send_same_feed id re : same_feed (sendReplRecord id re).
Proof. intros b k. unfold sendReplRecord. repeat case_match; try done. by destruct b as [[]|]. Qed.
Lemma backlog_same_feed id res : same_feed (for_each (sendReplRecord id) res).
Proof.
  induction res as [|re res IH]; cbn [for_each]; [done|]. apply same_feed_bind; [apply send_same_feed|by intros].
Qed.
Lemma turn_same_feed d id : same_feed (replicate_turn d id).
Proof.
  intros [b|] k; [|done]. unfold replicate_turn. cbn [fmap option_fmap option_map].
  destruct (receive_entry id b) as [[re|] b'] eqn:Hr; [|by case_match]. destruct (_ && _)%bool; [done|].
  rewrite send_same_feed. unfold receive_entry in Hr. repeat case_match; simplify_eq. by destruct b.
Qed.

(** A turn takes entries as the steps of the feed's state machine do. *)
Lemma receive_take id b :
  take_entry id b =
    match receive_entry id b with
    | (Some re, b') => (Some re, update_sub id (NoteSent (re_LSN re)) b')
    | (None, b') => (None, b')
    end.
Proof.
  unfold take_entry, receive_entry, update_sub. destruct b as [lsn ring cap head size buf subs seq]. cbn [b_subs].
  destruct (subs !! id) as [s|] eqn:Hs; [|done]. cbn. destruct (rs_ch s) as [|re ch]; [done|]. cbn. do 2 f_equal.
  apply map_eq. intros i. destruct (decide (i = id)) as [->|Hi].
  - by rewrite lookup_insert_eq, !lookup_alter_eq, Hs.
  - by rewrite lookup_insert_ne, !lookup_alter_ne by done.
Qed.

Lemma with_stream_same {A} id (m : SE _ A) k st : same_feed m → same_data st (with_stream id m k st).2.
Proof.
  intros Hm. destruct st as [[[] ? ? ?] h]. unfold with_stream. cbn [gs_db]. specialize (Hm db_broker k). simpl.
  destruct (m (db_broker, k)) as [[a|e] [b' k']]; simpl in *; (split; try done; unfold CurrentLSN; simpl).
  - destruct b' as [[]|], db_broker as [[]|]; simplify_eq/=; done.
  - destruct b' as [[]|], db_broker as [[]|]; simplify_eq/=; done.
Qed.

Lemma replicate_open_same lsn id k st : same_data st (replicate_open lsn id k st).2.
Proof.
  destruct st as [s h]. unfold replicate_open, SubscribeReplication. destruct (db_broker (gs_db s)) as [b|] eqn:Hb; [|done].
  unfold subscribe. destruct (_ <? _)%N; [done|]. etrans; [|apply with_stream_same, same_feed_bind; [apply backlog_same_feed|done]].
  destruct s as [[] ? ? ?]. simpl in *. subst db_broker. by destruct b.
Qed.

(** The requests that are not on the guard's list only read. *)
Lemma handle_reads req st :
  isWriteMethod (method_of req) = false → (∀ force, req ≠ RPromote force) → flushed st → same_data st (handle req st).2.
Proof.
  intros Hm Hp Hfl. destruct req; try (vm_compute in Hm; discriminate Hm); cbn [handle unary streamed snd];
    try lazymatch goal with
    | |- same_data _ (rpc_ListCollections _).2 => by destruct st
    | |- same_data _ (rpc_ReplicationStatus _).2 => by destruct st
    | |- same_data _ (rpc_Promote _ _).2 => by destruct (Hp force)
    | |- same_data _ (rpc_Find _ _ _ _).2 => apply rpc_Find_same
    | |- same_data _ (rpc_Aggregate _ _ _ _).2 => apply rpc_Aggregate_same
    | |- same_data _ (replicate_open _ _ _ _).2 => apply replicate_open_same
    | |- same_data _ (rpc_Replicate_turn _ _ _ _).2 => apply with_stream_same, turn_same_feed
    | |- same_data _ (watch_turn _ _ _ _ _).2 => by apply watch_turn_same
    | |- same_data ?st (snd (?m ?st)) => revert st Hfl; change (reads m)
    end.
  - unfold rpc_FindById. reads.
  - unfold rpc_FindByKey. reads.
  - unfold rpc_ListIndexes. reads.
  - unfold watch_open. reads.
  - unfold watch_end. reads.
  - unfold rpc_CollectionStats. reads.
Qed.

(** [C18] A read-only replica: whatever is asked of a follower, [Promote] and
    [Snapshot] apart, its collections (up to who watches them), its files and
    directories, its open transactions, its role and its positions in the feed stay
    as they are; and what the guard lists is refused outright.  So none of these
    handlers outside the guard's list writes: the list is complete for them. *)
Theorem replica_reads_only req st :
  IsFollower (gs_db st.1) = true → flushed st → (∀ force, req ≠ RPromote force) →
  same_data st (serve req st).2 ∧
  (isWriteMethod (method_of req) = true → serve req st = (Err ErrFailedPrecondition, st)).
Proof.
  intros Hr Hfl Hp. unfold serve, readonly_unary. rewrite Hr. cbn [andb].
  destruct (isWriteMethod (method_of req)) eqn:Hm; [split; reflexivity|]. split; [|discriminate 1].
  pose proof (handle_reads req st Hm Hp Hfl) as H. destruct (handle req st). exact H.
Qed.

(** ** Unknown collections *)

(** The collection a request names. *)
Definition names (req : request) : option string :=
  match req with
  | RDropCollection c | RInsert _ c _ _ _ | RInsertMany c _ _ | RFindById c _ _ | RUpdate _ c _ _ _ | RDelete _ c _
  | RUpsert c _ _ | RFindByKey c _ _ | RUpdateByKey c _ _ | RDeleteByKey c _ | RUpdateIfRev c _ _ _ | REnsureIndex c _
  | RDropIndex c _ | RListIndexes c | RBeginTx c | RWatchOpen c | RCollectionStats c | RCompact c => Some c
  | RFind _ q _ => Some (fq_Collection q)
  | RAggregate _ q _ => Some (aq_Collection q)
  | _ => None
  end.

Lemma need_collection_missing {A} name s h (f : unit → HM A) :
  db_collections (gs_db s) !! name = None → (need_collection name ≫= f) (s, h) = (Status NotFound, (s, h)).
Proof.
  intros Hl. unfold need_collection, on_db, get_collection, mbind, HM_bind, SE_bind, the_db. simpl. rewrite Hl. by destruct s.
Qed.

(** A request on a collection that does not exist is refused, as not found or
    (when a field of the request is wrong as well) as invalid, and leaves the
    server as it was. *)
Theorem unknown_collection_inert req name st :
  names req = Some name → db_collections (gs_db st.1) !! name = None →
  (handle req st).2 = st ∧ ((handle req st).1 = Status NotFound ∨ (handle req st).1 = Status InvalidArgument).
Proof.
  intros Hn Hl. destruct st as [s h]. simpl in Hl.
  destruct req; try discriminate Hn; injection Hn as Hn; subst; cbn [handle unary streamed fst snd];
    try (unfold rpc_Find, rpc_Aggregate; rewrite Hl; by auto).
  all: try (unfold rpc_Insert, rpc_InsertMany, rpc_FindById, rpc_Update, rpc_Delete, rpc_Upsert, rpc_FindByKey, rpc_UpdateByKey,
    rpc_DeleteByKey, rpc_UpdateIfRev, rpc_EnsureIndex, rpc_DropIndex, rpc_ListIndexes, rpc_BeginTx, watch_open,
    rpc_CollectionStats, rpc_Compact; repeat (case_match; [by auto|]); rewrite need_collection_missing by done; by auto).
  unfold rpc_DropCollection, on_db, DropCollection, mbind, HM_bind, SE_bind, the_db. simpl. rewrite Hl. destruct s. by auto.
Qed.

End requests.

(** ** A page of [Find] *)
Section find_page.
Context {sha : Sha256} {pb : Protobuf} {RE : Regexp}.

(** The message of a row. *)
Definition row_record (opts : ScanOptions) (r : ScanResult) : result PRecord :=
  let data := ProjectData (sr_Data r) (o_Fields opts) in toProtoRecord (sr_ID r) (key_of data) (sr_Rev r) data (sr_Ts r).

(** The responses of a page: the token travels with the last record. *)
Fixpoint page_messages (ms : list PRecord) (token : string) : list FindResponse :=
  match ms with
  | [] => []
  | [m] => [MkFindResponse m token]
  | m :: ms => MkFindResponse m "" :: page_messages ms token
  end.

Definition open_sink {A} (sent : list A) : sink A := MkSink sent None.

(** The visits send every record but the last, which they hold back. *)
Lemma find_visits opts rows ms pending sent :
  mapR (row_record opts) rows = Ok ms →
  emit_rows opts find_visit rows (pending, open_sink sent) =
    (Ok tt, (last (option_list pending ++ ms),
             open_sink (sent ++ map (λ m, MkFindResponse m "") (removelast (option_list pending ++ ms))))).
Proof.
  revert ms pending sent. induction rows as [|r rows IH]; intros ms pending sent Hms; cbn [mapR] in Hms.
  { injection Hms as <-. rewrite app_nil_r. destruct pending; simpl; by rewrite app_nil_r. }
  destruct (row_record opts r) as [m|] eqn:Hm; [|done]. cbn in Hms.
  destruct (mapR (row_record opts) rows) as [ms'|] eqn:Hms'; [|done]. injection Hms as <-.
  rewrite emit_rows_cons.
  replace (find_visit (project opts r) (pending, open_sink sent))
    with (Ok (A := unit) tt, (Some m, open_sink (sent ++ map (λ m, MkFindResponse m "") (option_list pending)))).
  - rewrite (IH ms') by done. destruct pending as [p|]; cbn [option_list app]; [|by rewrite app_nil_r].
    do 3 f_equal. by rewrite <-app_assoc.
  - unfold find_visit, row_record, project in *. destruct pending as [p|]; cbn; rewrite Hm; [done|]. by rewrite app_nil_r.
Qed.

Lemma page_messages_snoc ms token m :
  last ms = Some m → page_messages ms token = map (λ m, MkFindResponse m "") (removelast ms) ++ [MkFindResponse m token].
Proof.
  induction ms as [|a ms IH]; [done|]. destruct ms as [|b ms]; intros Hl; [by injection Hl as ->|].
  cbn [page_messages removelast map app]. f_equal. by apply IH.
Qed.

(** [C19] What an ordered or resumed [Find] sends, on a collection that is not
    encrypted and while no system call fails: if the values of each sort field
    are of one kind over the matching records ([sortable]; over mixed kinds
    there is no order, see [Compare_cycle]), the index that serves the filter,
    if any, lists every match ([scannable]), and offset and limit do not
    overflow ([page_bounds]), the stream carries the records of the page, in
    the order asked for, one message each, and only the last message carries
    the token of the next page. When the token cannot be formed the call fails
    and the last record is withheld. The records are all those the filter
    accepts past the page token, cut to the offset and the limit; the server
    is unchanged. *)
Theorem rpc_find_page (st : GRPCServer * Host) (req : FindRequest) (c : Collection) (logs : list (list (Z * Entry)))
    (log : list (Z * Entry)) (after : option (ScanResult → bool)) (sent : list FindResponse) :
  let opts := find_options req in
  let found := matching_rows (h_world st.2) logs log (filter_of opts) in
  db_collections (gs_db st.1) !! fq_Collection req = Some c →
  scannable c (h_world st.2) logs log (filter_of opts) → page_bounds opts →
  sortable (effective_sort opts) (λ r, r ∈ found) →
  ¬ (effective_sort opts = [] ∧ o_PageToken opts = "") →
  cursorAfter (o_PageToken opts) (effective_sort opts) = Ok after →
  ∃ rows, rows ≡ₚ filter (past after) found ∧ StronglySorted (le (sortLess (effective_sort opts))) rows ∧
    ∀ ms, mapR (row_record opts) (window opts rows) = Ok ms →
      rpc_Find None req (open_sink sent) st =
        match page_token opts (effective_sort opts) (Z.of_nat (length rows)) (window opts rows) with
        | Ok token => (Reply tt, open_sink (sent ++ page_messages ms (default "" token)), st)
        | Err e => (Status (stream_code e), open_sink (sent ++ map (λ m, MkFindResponse m "") (removelast ms)), st)
        end.
Proof.
  intros opts found Hl Hsc Hb Hs Hne Hc. destruct st as [s [w dirs]]. cbn [fst snd h_world h_dirs] in *.
  destruct (scan_stream_ordered c w logs log opts find_visit (effective_sort opts) after Hsc Hs Hb (None, open_sink sent))
    as (stats & Hrun & Htok); [done..|].
  exists (ordered_rows w logs log (filter_of opts) (effective_sort opts) after).
  destruct (ordered_rows_spec w logs log (filter_of opts) (effective_sort opts) after Hs) as [Hp Hsort].
  split_and!; [done|done|]. intros ms Hms. cbv zeta in Hrun, Htok.
  rewrite (find_visits opts _ ms) in Hrun, Htok by done. cbn [option_list app fst] in Hrun, Htok.
  unfold rpc_Find. rewrite Hl. unfold find_in. fold opts. cbn [h_world h_dirs]. rewrite Hrun.
  destruct (page_token _ _ _ _) as [token|e]; cbn [fmap result_fmap]; [|done].
  cbn [flush_record]. destruct (last ms) as [m|] eqn:Hlast.
  - rewrite (page_messages_snoc ms _ m) by done. cbn. rewrite Hlast, Htok, app_assoc. by destruct token.
  - apply last_None in Hlast as ->. done.
Qed.
End find_page.

(** ** Records that expire *)

(** The server at another time. *)
Definition at_time (t : Time) (st : GRPCServer * Host) : GRPCServer * Host :=
  let w := h_world st.2 in (st.1, MkHost (MkWorld (w_files w) (w_faults w) t (w_seed w)) (h_dirs st.2)).

Lemma on_collection_run {A} name (m : CM A) s h c r c' w' :
  db_collections (gs_db s) !! name = Some c → m (c, h_world h) = (r, (c', w')) →
  on_collection name m (s, h) = (Reply r, (set_gs_db (flush name c' (gs_db s)) s, MkHost w' (h_dirs h))).
Proof. intros Hl Hm. unfold on_collection, on_db, with_collection. by rewrite Hl, Hm. Qed.

Lemma need_collection_found {A} name s h c (f : unit → HM A) :
  db_collections (gs_db s) !! name = Some c → (need_collection name ≫= f) (s, h) = f tt (s, h).
Proof.
  intros Hl. unfold need_collection, on_db, get_collection, mbind, HM_bind, SE_bind, the_db. simpl. rewrite Hl. by destruct s.
Qed.

Lemma HM_bind_reply {A B} (m : HM A) (f : A → HM B) st a st' : m st = (Reply a, st') → (m ≫= f) st = f a st'.
Proof. intros Hm. unfold mbind, HM_bind. by rewrite Hm. Qed.

Lemma insert_keeps_enc data exp : keeps c_enc (insert_ data exp).
Proof. unfold insert_. keeps. Qed.

Lemma no_key data : sets_key data = false → data_field data KeyField = None.
Proof. unfold sets_key. rewrite bool_decide_eq_false. by intros H%eq_None_not_Some. Qed.

Lemma norm_key d : sets_key (Some d) = false → key_of (Some (norm_doc d)) = "".
Proof. intros Hk%no_key. unfold key_of, data_field, norm_doc in *. cbn in *. by rewrite lookup_fmap, Hk. Qed.

Lemma flush_lookup name c db : db_collections (flush name c db) !! name = Some (set_feed [] c).
Proof. unfold flush. destruct db. simpl. apply lookup_insert_eq. Qed.

Lemma toProtoRecord_ok `{!Protobuf} id key rev d ts s :
  NewStruct d = Ok s → toProtoRecord id key rev (Some d) ts = Ok (MkPRecord id s (NewTimestamp ts) (NewTimestamp ts) key rev).
Proof. intros Hs. unfold toProtoRecord. cbn. by rewrite Hs. Qed.

(** Reading a record of a registered collection. *)
Lemma rpc_FindById_spec `{!Protobuf} s h name c logs log id :
  db_collections (gs_db s) !! name = Some c → coll_inv c (h_world h) logs log → no_faults (h_world h) → c_enc c = None →
  (rpc_FindById name id [] (s, h)).1 =
    match coll_table logs log !! id with
    | None => Status NotFound
    | Some a =>
        if expired (a_exp a) (w_now (h_world h)) then Status NotFound
        else match toProtoRecord id (key_of (a_data a)) (a_rev a) (a_data a) (a_ts a) with
          | Ok rec => Reply (MkFindResponse rec "")
          | Err _ => Status Internal
          end
    end.
Proof.
  intros Hl Hinv Hw Henc. unfold rpc_FindById. erewrite need_collection_found by exact Hl.
  pose proof (get_spec c (h_world h) logs log id Hinv Hw Henc) as Hg.
  destruct (coll_table logs log !! id) as [a|]; [|by erewrite HM_bind_reply by (by eapply on_collection_run)].
  change (UnixNano (w_now (h_world h))) with (w_now (h_world h)) in Hg.
  destruct (expired _ _); erewrite HM_bind_reply by (by eapply on_collection_run); [done|].
  cbn. unfold mbind, HM_bind. cbn. by destruct (toProtoRecord _ _ _ _ _).
Qed.

(** [C20] An insert with a positive time to live: if the deadline fits in an
    int64 of nanoseconds (a larger one wraps, see [long_ttl_wraps]), the data
    is not empty, exactly representable and without a key, the collection is
    writable without encryption or failing calls, and the checks of the insert
    pass, the answer names the record and the time of the write; from then on
    the record is read back as it was sent, with its first revision and no
    key, until the deadline, and is not found from the deadline on. *)
Theorem rpc_insert_ttl {sha : Sha256} `{!Protobuf, !ProtobufLaws} (st : GRPCServer * Host) (name : string) (c : Collection)
    (logs : list (list (Z * Entry))) (log : list (Z * Entry)) (data : pstruct) (ttl : Z) :
  let w := h_world st.2 in
  let id := (c_idSeq c + 1)%N in
  let deadline := (w_now w + ttl * second)%Z in
  let d := Some (AsMap data) in
  db_collections (gs_db st.1) !! name = Some c → coll_inv c w logs log → writable c w →
  data_ok d → sets_key d = false → (0 ≤ w_now w)%Z → (0 < ttl)%Z → (deadline < 2 ^ 63)%Z →
  insert_check c (insert_entry w id d deadline) d = None →
  ∃ st', rpc_Insert "" name "" (Some data) ttl st = (Reply (MkInsertResponse id (w_now w) "" 1), st') ∧
    ∀ t, ∃ s, AsMap s = norm_doc (AsMap data) ∧
      (rpc_FindById name id [] (at_time t st')).1 =
        if (deadline <=? t)%Z then Status NotFound
        else Reply (MkFindResponse (MkPRecord id s (NewTimestamp (w_now w)) (NewTimestamp (w_now w)) "" 1) "").
Proof.
  intros w id deadline d Hl Hinv Hwr Hd Hk Hnow Httl Hmax Hchk. destruct st as [s h]. cbn [fst snd] in *. fold w in Hinv.
  assert (ttlDeadline (w_now w) ttl = deadline) as Hdl.
  { unfold ttlDeadline. rewrite (proj2 (Z.leb_gt _ _)) by done. unfold deadline. f_equal. unfold int64_wrap.
    rewrite Z.mod_small; unfold deadline, second in *; lia. }
  assert (exp_ok deadline) as Hexp by (unfold exp_ok, deadline, second in *; lia).
  pose proof (insert_spec c w logs log d deadline Hinv Hwr Hd Hexp) as Hins. cbv zeta in Hins. fold id in Hins. rewrite Hchk in Hins.
  destruct Hins as (c' & w' & logs' & log' & Hrun & Hw' & Hinv' & _ & _ & Ht).
  assert (InsertWithExpiry d deadline (c, w) = (Ok (id, w_now w), (c', w'))) as Hop.
  { unfold InsertWithExpiry. rewrite Hk. erewrite bind_ok by reflexivity. erewrite bind_ok by reflexivity.
    unfold resolveInsertExpiry. assert (IsZero deadline = false) as -> by (unfold IsZero, deadline, zero_time, second; lia). exact Hrun. }
  pose proof (on_collection_run name _ s h c _ _ _ Hl Hop) as Hon. eexists. split.
  - unfold rpc_Insert. rewrite (proj2 (Z.ltb_ge _ _)) by lia. erewrite need_collection_found by exact Hl.
    rewrite !bool_decide_true by done. cbn [negb]. erewrite HM_bind_reply by reflexivity. fold w. rewrite Hdl.
    change (as_map (Some data)) with d. by rewrite (HM_bind_reply _ _ _ _ _ Hon).
  - intros t. assert (c_enc c' = None) as Henc.
    { rewrite (keeps_run c_enc _ _ _ _ _ _ (insert_keeps_enc d deadline) Hrun). apply Hwr. }
    destruct (AsMap_NewStruct (norm_doc (AsMap data)) (proj2 (norm_doc_ok _ Hd))) as (ps & Hps & Has).
    rewrite norm_doc_norm in Has. exists ps. split; [done|].
    unfold at_time. cbn [fst snd h_world h_dirs]. erewrite rpc_FindById_spec with (c := set_feed [] c') (logs := logs') (log := log').
    + rewrite Ht, lookup_insert_eq. cbn [a_exp a_data a_rev a_ts h_world w_now]. unfold expired.
      rewrite (proj2 (Z.eqb_neq deadline 0)) by (unfold deadline, second in *; lia). cbn [negb andb].
      destruct (deadline <=? t)%Z; [done|]. unfold d. change (norm_doc <$> Some (AsMap data)) with (Some (norm_doc (AsMap data))).
      by rewrite norm_key, (toProtoRecord_ok _ _ _ _ _ _ Hps).
    + cbn. destruct s. apply flush_lookup.
    + apply coll_inv_same with c'; [by destruct c'|]. by apply coll_inv_frame with w'.
    + done.
    + by destruct c'.
Qed.

(** ** Scenarios *)
#[local] Existing Instance plain_wire.
#[local] Existing Instance plain_wire_laws.
#[local] Existing Instance length_digest.

(** A server with one empty collection. *)
Definition fresh_server : GRPCServer * Host :=
  let '(db, h) := (create_u (open_db ring_of_four no_host)).2 in (NewGRPCServer db 0, h).
Definition doc_a : doc := default ∅ rec_a.

(** A time to live is multiplied by the nanoseconds of a second in 64 bits.  The
    largest one a request can carry wraps to one second before now: the insert is
    acknowledged and the record cannot be read, not even at once. *)
Definition endless : reply InsertResponse * (GRPCServer * Host) := rpc_Insert "" "u" "" (Some doc_a) (2 ^ 63 - 1) fresh_server.

Theorem long_ttl_wraps :
  endless.1 = Reply (MkInsertResponse 1 stamp "" 1) ∧
  ttlDeadline stamp (2 ^ 63 - 1) = (stamp - second)%Z ∧
  status_of (rpc_FindById "u" 1 [] endless.2).1 = Status NotFound.
Proof. split_and!; vm_compute; reflexivity. Qed.

(** An insert without fields is acknowledged, with an id and a revision, and the
    record is not found. *)
Definition hollow : reply InsertResponse * (GRPCServer * Host) := rpc_Insert "" "u" "" None 0 fresh_server.

Theorem empty_insert_lost :
  hollow.1 = Reply (MkInsertResponse 1 stamp "" 1) ∧ status_of (rpc_FindById "u" 1 [] hollow.2).1 = Status NotFound.
Proof. split_and!; vm_compute; reflexivity. Qed.

(** A watch with a filter reports the insertion of a matching record and never its
    deletion: the event of a deletion carries no data to match. *)
Definition only_a : option PFilter := Some (PF_Field "a" FO_EQ "1").
Definition watched : GRPCServer * Host :=
  ((watch_open "u";; rpc_Insert "" "u" "" (Some doc_a) 0;; rpc_Delete "" "u" 1) fresh_server).2.

(** What two turns of the loop send. *)
Definition two_turns (filter : option PFilter) : list WatchOp :=
  let f := protoFilterToQuery filter in
  let '(_, k, s) := @watch_turn _ no_regexp "u" f 1 (MkSink [] None) watched in
  let '(_, k, _) := @watch_turn _ no_regexp "u" f 1 k s in map wm_Op (sk_sent k).

Theorem filtered_watch_misses_deletes : two_turns None = [INSERTED; DELETED] ∧ two_turns only_a = [INSERTED].
Proof. split; vm_compute; reflexivity. Qed.

(** ** Witnesses *)
Definition server_of (c : Collection) (w : World) (role : Role) : GRPCServer * Host :=
  (NewGRPCServer (MkDB "d" defaultConfig {["u" := c]} None 0 role 0 false false) 0, MkHost w {["u"]}).

Definition insert_request : @request plain_wire := @RInsert plain_wire "" "u" "" (Some doc_a) 0.

Lemma replica_reads_only_witness :
  let st := server_of demo_coll demo_world RoleFollower in
  same_data st (@serve length_digest plain_wire no_regexp map_order map_group_order insert_request st).2 ∧
  @serve length_digest plain_wire no_regexp map_order map_group_order insert_request st = (Err ErrFailedPrecondition, st).
Proof.
  destruct (@replica_reads_only length_digest plain_wire no_regexp map_order map_group_order insert_request
    (server_of demo_coll demo_world RoleFollower)) as [H1 H2].
  - reflexivity.
  - intros name c. cbn. intros [_ <-]%lookup_singleton_Some. reflexivity.
  - discriminate.
  - split; [exact H1|]. apply H2. vm_compute. reflexivity.
Defined.

Lemma unknown_collection_inert_witness :
  let st := server_of demo_coll demo_world RoleLeader in
  (@handle length_digest plain_wire no_regexp map_order map_group_order (@RDelete plain_wire "" "v" 1) st).2 = st ∧
  ((@handle length_digest plain_wire no_regexp map_order map_group_order (@RDelete plain_wire "" "v" 1) st).1 = Status NotFound ∨
   (@handle length_digest plain_wire no_regexp map_order map_group_order (@RDelete plain_wire "" "v" 1) st).1 = Status InvalidArgument).
Proof.
  apply (@unknown_collection_inert length_digest plain_wire no_regexp map_order map_group_order (@RDelete plain_wire "" "v" 1) "v").
  - reflexivity.
  - vm_compute. reflexivity.
Defined.

(** Largest value first, one record a page. *)
Definition duo_request : FindRequest := MkFindRequest "u" None 1 0 "a" true [] "" [].

Lemma rpc_find_page_witness :
  ∃ rows, rows ≡ₚ filter (past None) (@matching_rows no_regexp duo_world [] duo_log MatchAll) ∧
    StronglySorted (le (sortLess [MkSortField "a" true])) rows ∧
    ∀ ms, mapR (row_record (find_options duo_request)) (window (find_options duo_request) rows) = Ok ms →
      @rpc_Find plain_wire no_regexp None duo_request (open_sink []) (server_of duo_coll duo_world RoleLeader) =
        match page_token (find_options duo_request) [MkSortField "a" true] (Z.of_nat (length rows)) (window (find_options duo_request) rows) with
        | Ok token => (Reply tt, open_sink (page_messages ms (default "" token)), server_of duo_coll duo_world RoleLeader)
        | Err e => (Status (stream_code e), open_sink (map (λ m, MkFindResponse m "") (removelast ms)),
                    server_of duo_coll duo_world RoleLeader)
        end.
Proof.
  apply (@rpc_find_page plain_wire no_regexp (server_of duo_coll duo_world RoleLeader) duo_request duo_coll [] duo_log None []).
  - vm_compute. reflexivity.
  - apply duo_scannable.
  - split; simpl; lia.
  - apply duo_sortable.
  - intros [? _]. discriminate.
  - reflexivity.
Defined.

Lemma rpc_insert_ttl_witness :
  ∃ st', rpc_Insert "" "u" "" (Some (default ∅ rec_b)) 60 (server_of demo_coll demo_world RoleLeader) =
      (Reply (MkInsertResponse 2 stamp "" 1), st') ∧
    (rpc_FindById "u" 2 [] (at_time (stamp + 60 * second) st')).1 = Status NotFound.
Proof.
  destruct (@rpc_insert_ttl length_digest plain_wire plain_wire_laws (server_of demo_coll demo_world RoleLeader) "u" demo_coll [] demo_log (default ∅ rec_b) 60)
    as (st' & H1 & H2).
  - vm_compute. reflexivity.
  - apply demo_inv.
  - apply demo_writable.
  - apply demo_data.
  - vm_compute. reflexivity.
  - vm_compute. discriminate.
  - lia.
  - vm_compute. reflexivity.
  - vm_compute. reflexivity.
  - exists st'. split; [exact H1|]. destruct (H2 (stamp + 60 * second)%Z) as (ps & _ & H). exact H.
Defined.
