(* ===== verification/AuditSpec.v ===== *)
(** * What the audit log of the server holds

    The audit log of server/audit.go around the request handlers: [audit_accounts]
    states that no request changes the data of the server without a record. *)

From S2P Require Import Prelude GoFloat GoTime GoJson Value Query Store Disk GoStrings Segment Index SecIndex Meta Collection CollectionSpec Scan Aggregate Open Compactor TxManager Broker Replica Database DatabaseSpec Snapshot Auth AuditLog Grpc GrpcSpec.

Section service.
Context {sha : Sha256} {pb : Protobuf} {RE : Regexp} {ro : RangeOrder} {go : GroupOrder}.

(** ** Requests as the interceptors see them *)

(** The fields the getters of a message find. *)
Definition collection_field (req : request) : option string :=
  match req with
  | RInsert _ c _ _ _ | RInsertMany c _ _ | RFindById c _ _ | RUpdate _ c _ _ _ | RDelete _ c _
  | RUpsert c _ _ | RFindByKey c _ _ | RUpdateByKey c _ _ | RDeleteByKey c _ | RUpdateIfRev c _ _ _ | REnsureIndex c _
  | RDropIndex c _ | RListIndexes c | RBeginTx c | RWatchOpen c | RWatchTurn c _ _ _ | RWatchEnd c _ | RCollectionStats c | RCompact c => Some c
  | RFind _ q _ => Some (fq_Collection q)
  | RAggregate _ q _ => Some (aq_Collection q)
  | _ => None
  end.
Definition name_field (req : request) : string :=
  match req with RCreateCollection name _ | RDropCollection name => name | _ => "" end.
Definition key_field (req : request) : option string :=
  match req with
  | RInsert _ _ key _ _ | RUpsert _ key _ | RFindByKey _ key _ | RUpdateByKey _ key _ | RDeleteByKey _ key | RUpdateIfRev _ key _ _ => Some key
  | _ => None
  end.
Definition id_field (req : request) : option N :=
  match req with RFindById _ id _ | RUpdate _ _ id _ _ | RDelete _ _ id => Some id | _ => None end.

Definition message (req : request) : audit_request :=
  MkAuditRequest (MkRequest (collection_field req) (name_field req)) (key_field req) (id_field req).

Definition streaming (req : request) : bool :=
  match req with
  | RFind _ _ _ | RAggregate _ _ _ | RWatchOpen _ | RWatchTurn _ _ _ _ | RWatchEnd _ _ | RReplicate _ _ _ | RReplicateTurn _ _ _ => true
  | _ => false
  end.

(** ** Calls *)
Definition status_result (r : reply unit) : result unit :=
  match r with
  | Reply _ => Ok tt
  | Status NotFound => Err ErrNotFound
  | Status AlreadyExists => Err ErrDuplicateKey
  | Status ResourceExhausted => Err ErrResourceExhausted
  | Status FailedPrecondition => Err ErrFailedPrecondition
  | Status Canceled => Err ErrCanceled
  | Status Unavailable => Err ErrUnavailable
  | Status InvalidArgument | Status Aborted | Status Internal => Err ErrOther
  end.

(** The steps of a call, one for most methods; its outcome is the first error. *)
Fixpoint perform (steps : list request) : SE (GRPCServer * Host) unit := λ s,
  match steps with
  | [] => (Ok tt, s)
  | req :: steps =>
      let '(r, s) := handle req s in
      let '(r', s) := perform steps s in
      (match status_result r with Ok _ => r' | Err e => Err e end, s)
  end.

(** A call that begins with a request; the turns of a stream are further requests
    of the same method. *)
Definition plain_call (a : Authenticator) (cx : call_ctx) (req : request) (turns : list request) : SE (GRPCServer * Host) unit :=
  if streaming req then auth_stream a cx (method_of req) (aq_request (message req)) (λ _ _, perform (req :: turns))
  else auth_unary a cx (method_of req) (aq_request (message req)) (λ _ _, perform [req]).

Definition audited_call (a : Authenticator) (cx : call_ctx) (req : request) (turns : list request)
    : SE (GRPCServer * Host * list audit_record) unit :=
  if streaming req then audited_stream a cx (method_of req) (aq_request (message req)) (λ _ _, perform (req :: turns))
  else audited_unary a cx (method_of req) (message req) (λ _ _, perform [req]).

(** A call of a method that is not audited keeps the data. *)
Lemma perform_reads m steps st :
  isAuditedMethod m = false → Forall (λ req, method_of req = m) steps → flushed st → same_data st (perform steps st).2.
Proof.
  intros Hm Hs. revert st. induction Hs as [|req steps Hreq _ IH]; intros st Hfl; [by destruct st|].
  apply orb_false_iff in Hm as [Hw Hp]. assert (same_data st (handle req st).2) as H1.
  { apply handle_reads; [by rewrite Hreq| |done]. intros force ->. apply bool_decide_eq_false in Hp. by apply Hp. }
  cbn [perform]. destruct (handle req st) as [r st1]. cbn [snd] in H1. pose proof (IH st1 (same_flushed _ _ H1 Hfl)) as H2.
  destruct (perform steps st1) as [r' st2]. cbn [snd] in *. by eapply same_data_trans.
Qed.

(** [C36] The audit log accounts for every change.  Whatever request arrives at the
    server, [Snapshot] apart, with nothing left to publish from an earlier one
    ([flushed]) and with whatever turns its stream takes: a call after
    which the data differs (collections up to who watches them, files, directories,
    transactions, role and positions) appends one record with its method, its
    outcome and the name of the principal its key or certificate resolves to; so
    does every call of an audited method, whatever its outcome; a call that
    authentication refuses appends a record marked as such and leaves the state
    alone; no call appends more than one; and the answer and the state are those of
    the call without the log. *)
Theorem audit_accounts (keys : list Key) (certAuth : bool) (a : Authenticator) (cx : call_ctx) (req : request) (turns : list request)
    (st : GRPCServer * Host) (log : list audit_record) :
  New keys certAuth = Ok a → flushed st → Forall (λ r, method_of r = method_of req) turns →
  accounted same_data keys certAuth a cx (method_of req) st log (plain_call a cx req turns st) (audited_call a cx req turns (st, log)).
Proof.
  intros Hnew Hfl Ht. assert (same_data st st) as Hrefl by done. unfold plain_call, audited_call. destruct (streaming req).
  - apply accounted_stream; [done|intros Hm|done]. apply (perform_reads (method_of req)); [done|by constructor|done].
  - apply accounted_unary; [done|intros Hm|done]. apply (perform_reads (method_of req)); [done|by repeat constructor|done].
Qed.
End service.

(** ** Witness *)

(** An insert under the key of a server, and one without a key. *)
Definition insert_a : @request plain_wire := @RInsert plain_wire "" "u" "" (Some doc_a) 0.
Definition demo_service : GRPCServer * Host := server_of demo_coll demo_world RoleLeader.

Lemma audit_accounts_witness :
  accounted same_data [clerk] false one_key clerk_call (method "Insert") demo_service []
    (@plain_call length_digest plain_wire no_regexp map_order map_group_order one_key clerk_call insert_a [] demo_service)
    (@audited_call length_digest plain_wire no_regexp map_order map_group_order one_key clerk_call insert_a [] (demo_service, [])).
Proof.
  apply (@audit_accounts length_digest plain_wire no_regexp map_order map_group_order [clerk] false one_key clerk_call insert_a [] demo_service []).
  - reflexivity.
  - intros name c. cbn. intros [_ <-]%lookup_singleton_Some. reflexivity.
  - constructor.
Defined.
