(* ===== verification/SnapshotRpc.v ===== *)
(** * The snapshot stream

    The Snapshot handler of server/grpc.go: the archive of engine/snapshot.go goes
    through a buffer of 64 KiB (the standard library's [bufio.Writer]) and every
    block the buffer lets go is a message of the stream.  How the compressor cuts
    its output into writes is a parameter, with the law that the writes of a whole
    archive make up its bytes. *)

From S2P Require Import Prelude GoFloat GoTime GoJson Value Query Store Disk Segment Index SecIndex Meta Collection Scan Open Compactor TxManager Broker Replica Database Snapshot SnapshotSpec Grpc.

(** ** Buffered writing *)
Definition buffer_size : Z := 65536.

(** The bytes held back, the error that ended writing, and the stream. *)
Record bufWriter := MkBufWriter { bw_buf : bytes; bw_err : option error; bw_stream : sink bytes }.

(** [snapshotChunkWriter.Write]: one message; an error stays. *)
Definition send_chunk (p : bytes) : SE bufWriter unit := λ b,
  match Send p (bw_stream b) with
  | (Ok _, k) => (Ok tt, MkBufWriter (bw_buf b) None k)
  | (Err e, k) => (Err e, MkBufWriter (bw_buf b) (Some e) k)
  end.

Definition set_buf (p : bytes) : SE bufWriter unit := λ b, (Ok tt, MkBufWriter p (bw_err b) (bw_stream b)).

Definition Flush : SE bufWriter unit := λ b,
  match bw_err b with
  | Some e => (Err e, b)
  | None => if bool_decide (bw_buf b = []) then (Ok tt, b) else (send_chunk (bw_buf b);; set_buf []) b
  end.

(** What does not fit fills the buffer, which is sent; what then exceeds an empty
    buffer is sent as it is. *)
Definition write_rest (p : bytes) : SE bufWriter unit :=
  if (Z.of_nat (length p) <=? buffer_size)%Z then set_buf p else send_chunk p.

Definition buf_write (p : bytes) : SE bufWriter unit := λ b,
  let available := (buffer_size - Z.of_nat (length (bw_buf b)))%Z in
  match bw_err b with
  | Some e => (Err e, b)
  | None =>
      if (Z.of_nat (length p) <=? available)%Z then set_buf (bw_buf b ++ p) b
      else if bool_decide (bw_buf b = []) then send_chunk p b
      else
        let n := Z.to_nat available in
        (set_buf (bw_buf b ++ take n p);; Flush;; write_rest (drop n p)) b
  end.

(** ** The compressed archive *)

(** What the compressor writes while a file is added after others, and while the
    two layers are closed. *)
Class Gzip := {
  gz_file : list archive_file → archive_file → list bytes;
  gz_close_tar : list archive_file → list bytes;
  gz_close : list archive_file → list bytes
}.

Fixpoint gz_files `{!Gzip} (before files : list archive_file) : list bytes :=
  match files with [] => [] | f :: files => gz_file before f ++ gz_files (before ++ [f]) files end.

Class GzipLaws `{!Archive} `{!Gzip} := {
  gz_whole l : Forall (λ f, tar_name f.1 = true) l → concat (gz_files [] l ++ gz_close_tar l ++ gz_close l) = tar_gz l
}.

(** The writer of an archive: the files so far and the buffer. *)
Record archiver := MkArchiver { ar_files : list archive_file; ar_out : bufWriter }.

Definition on_out (m : SE bufWriter unit) : SE archiver unit := λ a, let '(r, b) := m (ar_out a) in (r, MkArchiver (ar_files a) b).
Definition write_blocks (blocks : list archive_file → list bytes) : SE archiver unit := λ a, on_out (for_each buf_write (blocks (ar_files a))) a.
Definition note_file (f : archive_file) : SE archiver unit := λ a, (Ok tt, MkArchiver (ar_files a ++ [f]) (ar_out a)).

#[global] Instance gzip_writer `{!Gzip} : ArchiveWriter archiver := {
  aw_file f := write_blocks (λ fs, gz_file fs f);; note_file f;
  aw_close_tar := write_blocks gz_close_tar;
  aw_close_gzip := write_blocks gz_close
}.

(** ** The handler *)
Definition rpc_Snapshot {sha : Sha256} `{!Gzip} (k : sink bytes)
    : GRPCServer * Host → reply unit * sink bytes * (GRPCServer * Host) := λ '(s, h),
  let '(r, (a, w)) := SnapshotTo (gs_db s) (MkArchiver [] (MkBufWriter [] None k), h_world h) in
  let st := (s, MkHost w (h_dirs h)) in
  match r with
  | Err _ => (Status Internal, bw_stream (ar_out a), st)
  | Ok _ =>
      match Flush (ar_out a) with
      | (Ok _, b) => (Reply tt, bw_stream b, st)
      | (Err _, b) => (Status Internal, bw_stream b, st)
      end
  end.

(** ** Two writers of the same archive *)

(** Both write the same files, unless the second one fails because its peer takes
    only so much. *)
Section two_writers.
Context {K1 K2 : Type} (limited : K2 → Prop).

Definition sim {A} (R R' : K1 → K2 → Prop) (m1 : SE (K1 * World) A) (m2 : SE (K2 * World) A) : Prop := ∀ k1 k2 w, R k1 k2 →
  match m1 (k1, w), m2 (k2, w) with
  | (Ok a1, (k1', w1)), (Ok a2, (k2', w2)) => a1 = a2 ∧ w1 = w2 ∧ R' k1' k2' ∧ (limited k2' → limited k2)
  | (Ok _, _), (Err _, _) => limited k2
  | (Err _, _), (Ok _, _) => False
  | (Err _, _), (Err _, _) => True
  end.

Lemma sim_bind {A B} R1 R2 R3 (m1 : SE (K1 * World) A) m2 (f1 f2 : A → SE _ B) :
  sim R1 R2 m1 m2 → (∀ a, sim R2 R3 (f1 a) (f2 a)) → sim R1 R3 (m1 ≫= f1) (m2 ≫= f2).
Proof.
  intros Hm Hf k1 k2 w HR. specialize (Hm k1 k2 w HR). unfold mbind, SE_bind.
  destruct (m1 (k1, w)) as [[a1|e1] [k1' w1]], (m2 (k2, w)) as [[a2|e2] [k2' w2]]; try done.
  - destruct Hm as (<- & <- & HR' & Hl). specialize (Hf a1 k1' k2' w1 HR').
    destruct (f1 a1 (k1', w1)) as [[b1|?] [? ?]], (f2 a1 (k2', w1)) as [[b2|?] [? ?]]; try done; [|by apply Hl].
    destruct Hf as (-> & -> & ? & Hl'). split_and!; auto.
  - by destruct (f1 a1 (k1', w1)) as [[b1|?] [? ?]].
Qed.

Lemma sim_io {A} R (m : M A) : sim R R (io m) (io m).
Proof. intros k1 k2 w HR. unfold io. destruct (m w) as [[a|e] w']; auto. Qed.
Lemma sim_ret {A} R (a : A) : sim R R (mret a) (mret a).
Proof. intros k1 k2 w HR. by split_and!. Qed.
Lemma sim_for_each {A} R (f1 f2 : A → SE _ unit) l : (∀ x, sim R R (f1 x) (f2 x)) → sim R R (for_each f1 l) (for_each f2 l).
Proof. intros Hf. induction l as [|x l IH]; cbn [for_each]; [apply sim_ret|]. by eapply sim_bind. Qed.

Lemma sim_snapshot {sha : Sha256} `{!ArchiveWriter K1} `{!ArchiveWriter K2} R1 R2 R3 db :
  (∀ f, sim R1 R1 (to_tar (aw_file f)) (to_tar (aw_file f))) →
  sim R1 R2 (to_tar aw_close_tar) (to_tar aw_close_tar) →
  sim R2 R3 (to_tar aw_close_gzip) (to_tar aw_close_gzip) →
  sim R1 R3 (SnapshotTo db) (SnapshotTo db).
Proof.
  intros Hf Ht Hg. eapply sim_bind; [|intros _; by eapply sim_bind].
  apply sim_for_each. intros [name c]. eapply sim_bind; [apply sim_io|intros _]. eapply sim_bind; [apply sim_io|intros bases].
  apply sim_for_each. intros base. destruct (skipped base); [apply sim_ret|].
  eapply sim_bind; [apply sim_io|intros b]. do 2 (eapply sim_bind; [apply sim_io|intros _]). apply Hf.
Qed.
End two_writers.

(** ** What the buffer lets go *)

(** The messages and the buffer hold the content; no message is short. *)
Record filled (content : bytes) (b : bufWriter) : Prop := {
  fd_err : bw_err b = None;
  fd_content : concat (sk_sent (bw_stream b)) ++ bw_buf b = content;
  fd_chunks : Forall (λ m, buffer_size ≤ Z.of_nat (length m))%Z (sk_sent (bw_stream b));
  fd_room : (Z.of_nat (length (bw_buf b)) ≤ buffer_size)%Z
}.

Definition bounded_stream (b : bufWriter) : Prop := sk_room (bw_stream b) ≠ None.

(** A write of some bytes. *)
Definition writes (p : bytes) (m : SE bufWriter unit) : Prop := ∀ content b, filled content b →
  match m b with
  | (Ok _, b') => filled (content ++ p) b' ∧ (bounded_stream b' → bounded_stream b)
  | (Err _, _) => bounded_stream b
  end.

Lemma Send_cases {A} (m : A) k :
  match Send m k with
  | (Ok _, k') => sk_sent k' = sk_sent k ++ [m] ∧ (sk_room k' ≠ None → sk_room k ≠ None)
  | (Err _, _) => sk_room k ≠ None
  end.
Proof. by destruct k as [sent [[|n]|]]. Qed.

(** The sent chunk was not in the buffer. *)
Lemma send_chunk_cases p b :
  match send_chunk p b with
  | (Ok _, b') => bw_buf b' = bw_buf b ∧ bw_err b' = None ∧ sk_sent (bw_stream b') = sk_sent (bw_stream b) ++ [p] ∧
      (bounded_stream b' → bounded_stream b)
  | (Err _, _) => bounded_stream b
  end.
Proof.
  unfold send_chunk. pose proof (Send_cases p (bw_stream b)) as H. destruct (Send p (bw_stream b)) as [[u|e] k]; [|done].
  destruct H as [Hs Hr]. by split_and!.
Qed.

Lemma send_big p : (buffer_size < Z.of_nat (length p))%Z → ∀ content b, filled content b → bw_buf b = [] →
  match send_chunk p b with
  | (Ok _, b') => filled (content ++ p) b' ∧ (bounded_stream b' → bounded_stream b)
  | (Err _, _) => bounded_stream b
  end.
Proof.
  intros Hp content b [H1 H2 H3 H4] Hb. pose proof (send_chunk_cases p b) as H. destruct (send_chunk p b) as [[u|e] b']; [|done].
  destruct H as (E1 & E2 & E3 & Hl). split; [|done]. rewrite Hb, app_nil_r in H2. split.
  - done.
  - by rewrite E3, E1, Hb, app_nil_r, concat_app, H2; simpl; rewrite app_nil_r.
  - rewrite E3, Forall_app, Forall_singleton. split; [done|lia].
  - by rewrite E1.
Qed.

Lemma writes_rest p : ∀ content b, filled content b → bw_buf b = [] →
  match write_rest p b with
  | (Ok _, b') => filled (content ++ p) b' ∧ (bounded_stream b' → bounded_stream b)
  | (Err _, _) => bounded_stream b
  end.
Proof.
  intros content b Hf Hb. unfold write_rest. destruct (Z.leb_spec (Z.of_nat (length p)) buffer_size); [|by apply send_big].
  destruct Hf as [H1 H2 H3 H4]. rewrite Hb, app_nil_r in H2. split; [|done]. split; cbn; [done| |done|done]. by rewrite H2.
Qed.

(** Flushing a buffer that is full. *)
Lemma flush_full content b : filled content b → Z.of_nat (length (bw_buf b)) = buffer_size →
  match Flush b with
  | (Ok _, b') => filled content b' ∧ bw_buf b' = [] ∧ (bounded_stream b' → bounded_stream b)
  | (Err _, _) => bounded_stream b
  end.
Proof.
  intros [H1 H2 H3 H4] Hlen. unfold Flush. rewrite H1. rewrite bool_decide_false by (intros E; rewrite E in Hlen; discriminate).
  unfold mbind, SE_bind. pose proof (send_chunk_cases (bw_buf b) b) as H. destruct (send_chunk (bw_buf b) b) as [[u|e] b']; [|done].
  destruct H as (E1 & E2 & E3 & Hl). cbn. split; [|done]. split; cbn; [done| | |done].
  - rewrite E3, concat_app; simpl. by rewrite !app_nil_r.
  - rewrite E3, Forall_app, Forall_singleton. split; [done|lia].
Qed.

Lemma buf_write_spec p : writes p (buf_write p).
Proof.
  intros content b Hf. pose proof Hf as [H1 H2 H3 H4]. unfold buf_write. rewrite H1.
  destruct (Z.leb_spec (Z.of_nat (length p)) (buffer_size - Z.of_nat (length (bw_buf b)))) as [Hle|Hgt].
  { split; [|done]. split; cbn; [done| |done|]. - by rewrite app_assoc, H2. - rewrite length_app. lia. }
  case_bool_decide as Hb; [apply send_big; [|done..]; rewrite Hb in Hgt; simpl in Hgt; lia|].
  set (n := Z.to_nat (buffer_size - Z.of_nat (length (bw_buf b)))). unfold mbind at 1, SE_bind at 1. cbn [set_buf].
  assert (length (take n p) = n) as Hn by (rewrite length_take; lia).
  pose proof (flush_full (content ++ take n p) (MkBufWriter (bw_buf b ++ take n p) (bw_err b) (bw_stream b))) as HF.
  unfold mbind, SE_bind. destruct (Flush _) as [[u|e] b1].
  - destruct HF as (Hf1 & Hb1 & Hl1).
    { split; cbn; [done|by rewrite app_assoc, H2|done|rewrite length_app; lia]. }
    { cbn. rewrite length_app. lia. }
    pose proof (writes_rest (drop n p) _ b1 Hf1 Hb1) as HR. destruct (write_rest (drop n p) b1) as [[v|e] b2].
    + destruct HR as [Hf2 Hl2]. rewrite <-app_assoc, take_drop in Hf2. split; [done|]. intros Hx. by apply Hl1, Hl2.
    + by apply Hl1.
  - apply HF; [|cbn; rewrite length_app; lia]. split; cbn; [done|by rewrite app_assoc, H2|done|rewrite length_app; lia].
Qed.

Lemma writes_blocks bs : writes (concat bs) (for_each buf_write bs).
Proof.
  induction bs as [|p bs IH]; intros content b Hf; cbn [for_each].
  { by rewrite app_nil_r. }
  unfold mbind, SE_bind. pose proof (buf_write_spec p content b Hf) as Hp. destruct (buf_write p b) as [[u|e] b1]; [|done].
  destruct Hp as [Hf1 Hl1]. specialize (IH _ _ Hf1). destruct (for_each buf_write bs b1) as [[v|e] b2]; [|by apply Hl1].
  destruct IH as [Hf2 Hl2]. split; [by rewrite concat_cons, app_assoc|]. intros Hx. by apply Hl1, Hl2.
Qed.

(** ** The whole stream *)

(** The messages of a stream: its content in blocks, of which only the last one may
    be short, and none is empty. *)
Definition streamed (content : bytes) (msgs : list bytes) : Prop :=
  concat msgs = content ∧
  ∃ big last, msgs = big ++ last ∧ Forall (λ m, buffer_size ≤ Z.of_nat (length m))%Z big ∧ length last ≤ 1 ∧ Forall (λ m, m ≠ []) last.

Lemma Flush_streams content b : filled content b →
  match Flush b with
  | (Ok _, b') => streamed content (sk_sent (bw_stream b'))
  | (Err _, _) => bounded_stream b
  end.
Proof.
  intros [H1 H2 H3 H4]. unfold Flush. rewrite H1. case_bool_decide as Hb.
  - rewrite Hb, app_nil_r in H2. split; [done|]. exists (sk_sent (bw_stream b)), []. rewrite app_nil_r. simpl. split_and!; [done..|lia|constructor].
  - unfold mbind, SE_bind. pose proof (send_chunk_cases (bw_buf b) b) as H. destruct (send_chunk (bw_buf b) b) as [[u|e] b']; [|done].
    destruct H as (E1 & E2 & E3 & Hl). cbn. rewrite E3. split; [rewrite concat_app; simpl; by rewrite app_nil_r|].
    exists (sk_sent (bw_stream b)), [bw_buf b]. split_and!; [done..|simpl; lia|by apply Forall_singleton].
Qed.

Section stream.
Context {sha : Sha256} {gz : Gzip}.

Lemma gz_files_snoc before l f : gz_files before (l ++ [f]) = gz_files before l ++ gz_file (before ++ l) f.
Proof.
  revert before. induction l as [|x l IH]; intros before; simpl; [by rewrite !app_nil_r|].
  by rewrite IH, <-!app_assoc.
Qed.

Definition limited (a : archiver) : Prop := bounded_stream (ar_out a).

(** The files of the archive, and a part of what follows them, have been written. *)
Definition staged (tail : list archive_file → list bytes) (k : sink archive_file) (a : archiver) : Prop :=
  sk_room k = None ∧ ar_files a = sk_sent k ∧ filled (concat (gz_files [] (sk_sent k) ++ tail (sk_sent k))) (ar_out a).

Lemma write_blocks_cases content blocks a : filled content (ar_out a) →
  match write_blocks blocks a with
  | (Ok _, a') => ar_files a' = ar_files a ∧ filled (content ++ concat (blocks (ar_files a))) (ar_out a') ∧ (limited a' → limited a)
  | (Err _, _) => limited a
  end.
Proof.
  intros Hf. unfold write_blocks, on_out. pose proof (writes_blocks (blocks (ar_files a)) content (ar_out a) Hf) as H.
  destruct (for_each buf_write _ (ar_out a)) as [[u|e] b]; [|done]. destruct H as [H1 H2]. by split_and!.
Qed.

Lemma sim_file f : sim limited (staged (λ _, [])) (staged (λ _, [])) (to_tar (aw_file f)) (to_tar (aw_file f)).
Proof.
  intros [sent room] a w (Hr & Hfs & Hf). cbn in Hr. subst room. cbn -[write_blocks]. unfold mbind, SE_bind.
  pose proof (write_blocks_cases _ (λ fs, gz_file fs f) a Hf) as H. destruct (write_blocks _ a) as [[[]|e] a']; [|done].
  destruct H as (H1 & H2 & H3). cbn in H2 |- *. split_and!; [done|done| |done]. cbn in Hfs. rewrite Hfs in H1, H2.
  split_and!; cbn; [done|by rewrite H1|]. rewrite app_nil_r in H2 |- *. by rewrite gz_files_snoc, concat_app.
Qed.

Lemma sim_close tail blocks : sim limited (staged tail) (staged (λ fs, tail fs ++ blocks fs)) (to_tar still_open) (to_tar (write_blocks blocks)).
Proof.
  intros [sent room] a w (Hr & Hfs & Hf). cbn in Hr. subst room. cbn -[write_blocks].
  pose proof (write_blocks_cases _ blocks a Hf) as H. destruct (write_blocks _ a) as [[[]|e] a']; [|done].
  destruct H as (H1 & H2 & H3). cbn in H2 |- *. split_and!; [done|done| |done]. cbn in Hfs. rewrite Hfs in H1, H2.
  split_and!; cbn; [done|done|]. by rewrite <-concat_app, <-app_assoc in H2.
Qed.

(** The bytes of an archive. *)
Definition archive_bytes (l : list archive_file) : bytes := concat (gz_files [] l ++ gz_close_tar l ++ gz_close l).

(** A snapshot that is answered has sent all of the archive; one that fails found a
    failing call, or a stream that takes only so many messages. *)
Lemma rpc_Snapshot_spec s h room :
  let '(r, k, st) := rpc_Snapshot (MkSink [] room) (s, h) in
  match SnapshotTo (gs_db s) (MkSink [] None, h_world h) with
  | (Ok _, (files, w)) =>
      match r with
      | Reply _ => st = (s, MkHost w (h_dirs h)) ∧ streamed (archive_bytes (sk_sent files)) (sk_sent k)
      | Status c => c = Internal ∧ room ≠ None
      end
  | (Err _, _) => r = Status Internal
  end.
Proof.
  assert (sim limited (staged (λ _, [])) (staged (λ fs, ([] ++ gz_close_tar fs) ++ gz_close fs)) (SnapshotTo (gs_db s)) (SnapshotTo (gs_db s))) as Hsim.
  { eapply sim_snapshot; [exact sim_file|apply (sim_close (λ _, []) gz_close_tar)|apply sim_close]. }
  specialize (Hsim (MkSink [] None) (MkArchiver [] (MkBufWriter [] None (MkSink [] room))) (h_world h)). unfold rpc_Snapshot.
  destruct (SnapshotTo (gs_db s) (MkSink [] None, h_world h)) as [[u|e] [files w]],
    (SnapshotTo (gs_db s) (MkArchiver [] _, h_world h)) as [[u'|e'] [a w']]; cbv beta iota.
  - destruct Hsim as (_ & <- & (_ & _ & Hf) & Hl); [by split_and!|]. pose proof (Flush_streams _ _ Hf) as HF.
    destruct (Flush (ar_out a)) as [[v|e] b]; [|split; [done|exact (Hl HF)]]. split; [done|]. unfold archive_bytes. by rewrite <-app_assoc in HF.
  - split; [done|]. apply Hsim. by split_and!.
  - destruct Hsim. by split_and!.
  - by destruct Hsim.
Qed.
End stream.
