(* ===== verification/Cli.v ===== *)
(** * The command-line client (cmd/scriva-cli)

    The lines of the REPL and of batch scripts (repl.go, batch.go): their tokens,
    the command each line stands for, the collection in use.  The commands
    (commands.go): how arguments and flags become requests, the JSON form of
    filters, what a search prints, backup, and export and import.  Apart from
    the choice of its address (main.go) a connection is the server itself; the
    confirmations of other commands and the parsing of flags
    by the cobra library are left out. *)

From S2P Require Import ServerConfig Prelude GoFloat GoTime GoJson Value Query Store Disk GoStrings Segment Index SecIndex TopK Meta Collection Steps CollectionSpec Scan ScanSpec IndexInv Aggregate Open OpenSpec Compactor CompactorSpec TxManager TxSpec LoadJsonl Broker Replica Database DatabaseSpec Auth Snapshot SnapshotSpec Grpc GrpcSpec SnapshotRpc.

(** ** Tokens (repl.go) *)

(** The next character; a byte that is not part of one reads as the replacement
    character. *)
Definition next_rune (s : bytes) : option (bytes * bytes) :=
  match s with
  | [] => None
  | _ :: t => Some (match decode_rune s with Some ur => ur | None => (rune_error, t) end)
  end.

Definition is_quote (r : bytes) : bool := (bool_decide (r = [quote_char]) || bool_decide (r = ["'"%char]))%bool.

(** Every round takes a character, so the length is enough fuel. *)
Fixpoint tokens (fuel : nat) (s current : bytes) (inQuote : bool) : list string :=
  let token := if bool_decide (current = []) then [] else [of_bytes current] in
  match fuel, next_rune s with
  | S fuel, Some (r, s) =>
      if is_quote r then tokens fuel s (current ++ r) (negb inQuote)
      else if (bool_decide (r = [" "%char]) && negb inQuote)%bool then token ++ tokens fuel s [] inQuote
      else tokens fuel s (current ++ r) inQuote
  | _, _ => token
  end.

Definition tokenize (s : string) : list string := tokens (length (to_bytes s)) (to_bytes s) [] false.

(** ** Lines *)
Definition resolveCollection (args : list string) (current : string) : result (string * list string) :=
  if negb (bool_decide (current = "")) then Ok (current, args)
  else match args with [] => Err ErrOther | c :: args => Ok (c, args) end.

(** What a line asks for. *)
Inductive action :=
  | ANothing
  | AExit
  | AHelp
  | AUse (collection : string)
  | ARun (args : list string).

Definition first_arg (parts : list string) (f : string → action) : result action :=
  match parts with [] => Err ErrOther | a :: _ => Ok (f a) end.

Definition handleREPLLine (input collection : string) : result action :=
  match tokenize input with
  | [] => Ok ANothing
  | p0 :: parts =>
      let cmd := lower p0 in
      let any_of (names : list string) : bool := bool_decide (cmd ∈ names) in
      if any_of ["exit"; "quit"] then Ok AExit
      else if any_of ["help"] then Ok AHelp
      else if any_of ["use"] then first_arg parts AUse
      else if any_of ["collections"] then Ok (ARun ["collections"])
      else if any_of ["create-collection"; "create"] then first_arg parts (λ a, ARun ["create-collection"; a])
      else if any_of ["drop-collection"; "drop"] then first_arg parts (λ a, ARun ["drop-collection"; a])
      else if any_of ["insert"; "get"; "delete"] then
        '(col, args) ← resolveCollection parts collection;
        first_arg args (λ a, ARun [cmd; col; a])
      else if any_of ["find"] then
        '(col, args) ← resolveCollection parts collection;
        Ok (ARun (["find"; col] ++ take 1 args))
      else if any_of ["update"] then
        '(col, args) ← resolveCollection parts collection;
        match args with a :: b :: _ => Ok (ARun ["update"; col; a; b]) | _ => Err ErrOther end
      else if any_of ["stats"; "compact"] then
        '(col, _) ← resolveCollection parts collection;
        Ok (ARun [cmd; col])
      else if any_of ["backup"] then first_arg parts (λ a, ARun ["backup"; a])
      else Err ErrOther
  end.

(** ** Batch scripts (batch.go) *)

(** The default buffer of a scanner. *)
Definition batch_limit : Z := 65536.
Fixpoint batch_scan (ls : list bytes) : list bytes * option error :=
  match ls with
  | [] => ([], None)
  | l :: ls =>
      if (Z.of_nat (length l) + 1 <=? batch_limit)%Z then let '(ts, err) := batch_scan ls in (dropCR l :: ts, err)
      else ([], Some ErrTooLong)
  end.

Section batch.
Context {S : Type} (exec : list string → SE S unit).

(** The lines in order; a line that fails is reported and the next one runs.  The
    result says whether the script ended the program. *)
Fixpoint run_lines (lines : list bytes) (collection : string) : SE S bool :=
  match lines with
  | [] => mret false
  | l :: lines =>
      let line := TrimSpace (of_bytes l) in
      if (bool_decide (line = "") || is_prefix ["#"%char] (to_bytes line))%bool then run_lines lines collection
      else
        match handleREPLLine line collection with
        | Ok AExit => mret true
        | Ok (AUse c) => run_lines lines c
        | Ok (ARun args) => ignore (exec args);; run_lines lines collection
        | _ => run_lines lines collection
        end
  end.

Definition runBatch (input : bytes) : SE S unit :=
  let '(lines, err) := batch_scan (split_lines input) in
  exited ← run_lines lines "";
  if exited : bool then mret tt else match err with Some e => fail e | None => mret tt end.
End batch.

(** ** Connections (main.go) *)
Record cliFlags := MkCliFlags { fl_host : string; fl_socket : string; fl_apiKey : string; fl_tlsCA : string }.

(** Where a command goes, and the authorities that vouch for the server. *)
Inductive dial `{!X509} :=
  | DialUnix (socket : string)
  | DialTLS (host : string) (roots : CertPool)
  | DialPlain (host : string).

Definition exists_file (path : string) : M bool := λ w,
  match syscall w with
  | (Ok _, w) => (Ok (bool_decide (is_Some (w_files w !! path))), w)
  | (Err _, w) => (Ok false, w)
  end.

Definition connect `{!X509} (flags : cliFlags) : M dial :=
  local ← exists_file (fl_socket flags);
  if local : bool then mret (DialUnix (fl_socket flags))
  else if negb (bool_decide (fl_tlsCA flags = "")) then
    pem ← read_file (fl_tlsCA flags);
    match AppendCertsFromPEM pem with None => fail ErrOther | Some pool => mret (DialTLS (fl_host flags) pool) end
  else mret (DialPlain (fl_host flags)).

(** A line of the REPL or of a script runs the command tree again on these flags;
    a flag not given has its default. *)
Definition runCLICommand (args : list string) (flags : cliFlags) : list string :=
  ["--host"; fl_host flags; "--socket"; fl_socket flags; "--api-key"; fl_apiKey flags] ++ args.

Definition set_flag (name value : string) (f : cliFlags) : option cliFlags :=
  if bool_decide (name = "--host") then Some (MkCliFlags value (fl_socket f) (fl_apiKey f) (fl_tlsCA f))
  else if bool_decide (name = "--socket") then Some (MkCliFlags (fl_host f) value (fl_apiKey f) (fl_tlsCA f))
  else if bool_decide (name = "--api-key") then Some (MkCliFlags (fl_host f) (fl_socket f) value (fl_tlsCA f))
  else if bool_decide (name = "--tls-ca") then Some (MkCliFlags (fl_host f) (fl_socket f) (fl_apiKey f) value)
  else None.

(** The flags before the command, each with its value; [envKey] is the default key. *)
Fixpoint root_flags (args : list string) (f : cliFlags) : cliFlags * list string :=
  match args with
  | name :: value :: rest => match set_flag name value f with Some f => root_flags rest f | None => (f, args) end
  | _ => (f, args)
  end.
Definition rootCmd (envKey : string) (args : list string) : cliFlags * list string :=
  root_flags args (MkCliFlags "localhost:5433" "/tmp/scriva.sock" envKey "").

(** ** Arguments (commands.go) *)
Definition ParseUint (s : string) : option N :=
  let b := to_bytes s in
  if (negb (bool_decide (b = [])) && forallb is_digit b && (dec_value b <? 2 ^ 64)%N)%bool then Some (dec_value b) else None.

(** [strings.Cut(s, ":")]. *)
Fixpoint cut_colon (b : bytes) : bytes * option bytes :=
  match b with
  | [] => ([], None)
  | c :: b => if bool_decide (c = ":"%char) then ([], Some b) else let '(l, r) := cut_colon b in (c :: l, r)
  end.

Definition order_by (spec : string) : result (string * bool) :=
  let '(field, dir) := cut_colon (to_bytes spec) in
  if bool_decide (field = []) then Err ErrOther
  else
    match dir with
    | None => Ok (of_bytes field, false)
    | Some d =>
        let d := lower (of_bytes d) in
        if bool_decide (d = "asc") then Ok (of_bytes field, false)
        else if bool_decide (d = "desc") then Ok (of_bytes field, true)
        else Err ErrOther
    end.

Definition parseOrderBy (specs : list string) : result (list (string * bool)) := mapR order_by specs.

(** A single key without a direction takes the deprecated flag's. *)
Definition order_flags (specs : list string) (descending : bool) : result (list (string * bool)) :=
  fields ← parseOrderBy specs;
  Ok (match specs, fields with
      | [spec], [(f, _)] => if negb (bool_decide (":"%char ∈ to_bytes spec)) then [(f, descending)] else fields
      | _, _ => fields
      end).

Definition aggBySpec (name : string) : option AggregateOp :=
  if bool_decide (name = "count") then Some AGG_COUNT
  else if bool_decide (name = "sum") then Some AGG_SUM
  else if bool_decide (name = "avg") then Some AGG_AVG
  else if bool_decide (name = "min") then Some AGG_MIN
  else if bool_decide (name = "max") then Some AGG_MAX
  else None.

Definition parseAggs (names : list string) : result (list AggregateOp) :=
  mapR (λ n, match aggBySpec (lower (TrimSpace n)) with Some op => Ok op | None => Err ErrOther end) names.

(** ** Filters *)
Definition filter_op (op : string) : FilterOp :=
  if bool_decide (op = "neq") then FO_NEQ
  else if bool_decide (op = "gt") then FO_GT
  else if bool_decide (op = "gte") then FO_GTE
  else if bool_decide (op = "lt") then FO_LT
  else if bool_decide (op = "lte") then FO_LTE
  else if bool_decide (op = "contains") then FO_CONTAINS
  else if bool_decide (op = "regex") then FO_REGEX
  else FO_EQ.

(** The value of a key in a decoded object. *)
Definition entry_of (key : string) (m : list (string * any)) : option any := (λ x, x.2.2) <$> list_find (λ kv, kv.1 = key) m.
Definition string_of (v : option any) : string := match v with Some (VStr s) => s | _ => "" end.

(** [json.Marshal]; what was decoded from JSON can be encoded. *)
Definition marshal (v : any) : string := match to_json v with Ok j => of_bytes (print_json j) | Err _ => "" end.

Definition field_filter (m : list (string * any)) : PFilter :=
  PF_Field (string_of (entry_of "field" m)) (filter_op (string_of (entry_of "op" m))) (marshal (default VNil (entry_of "value" m))).

(** The filters of the list under a key, if the key is there; what is not a list
    counts as an empty one, what is not an object as an object without fields. *)
Fixpoint buildFilter (raw : any) : PFilter :=
  match raw with
  | VMap m =>
      let under := fix under (key : string) (m : list (string * any)) : option (list PFilter) :=
        match m with
        | [] => None
        | (k, v) :: m =>
            if bool_decide (k = key) then Some (match v with VList items => map buildFilter items | _ => [] end) else under key m
        end in
      match under "and" m, under "or" m with
      | Some fs, _ => PF_And fs
      | None, Some fs => PF_Or fs
      | None, None => field_filter m
      end
  | _ => field_filter []
  end.

Definition parseFilterArg (s : string) : result PFilter :=
  v ← unmarshal_any (to_bytes s);
  match v with VMap _ | VNil => Ok (buildFilter v) | _ => Err ErrSyntax end.

(** ** Requests *)
Section client.
Context {sha : Sha256} {pb : Protobuf} {RE : Regexp}.

Definition parseJSONArg (s : string) : result pstruct :=
  m ← (match parse_json (to_bytes s) with Some j => doc_of_json j | None => Err ErrSyntax end);
  NewStruct (default ∅ m).

Definition parse_id (s : string) : result N := match ParseUint s with Some n => Ok n | None => Err ErrOther end.

(** The requests the commands send.  A time to live is given as a duration and
    sent in whole seconds. *)
Definition seconds (d : Z) : Z := Z.quot d second.

Definition createCollectionCmd (defaultTTL : Z) (name : string) : request := RCreateCollection name (seconds defaultTTL).
Definition insertCmd (txID : string) (ttl : Z) (key collection json : string) : result request :=
  data ← parseJSONArg json; Ok (RInsert txID collection key (Some data) (seconds ttl)).
Definition findCmd (limit offset : Z) (orderBy : list string) (descending : bool) (pageToken : string) (fields : list string)
    (collection : string) (filter : option string) : result FindRequest :=
  orderByFields ← order_flags orderBy descending;
  f ← (match filter with None => Ok None | Some s => f ← parseFilterArg s; Ok (Some f) end);
  Ok (MkFindRequest collection f limit offset "" descending orderByFields pageToken fields).
Definition findByIDCmd (fields : list string) (collection id : string) : result request :=
  id ← parse_id id; Ok (RFindById collection id fields).
Definition updateCmd (txID : string) (ttl : Z) (collection id json : string) : result request :=
  id ← parse_id id; data ← parseJSONArg json; Ok (RUpdate txID collection id (Some data) (seconds ttl)).
Definition deleteCmd (txID collection id : string) : result request :=
  id ← parse_id id; Ok (RDelete txID collection id).
Definition upsertCmd (collection key json : string) : result request :=
  data ← parseJSONArg json; Ok (RUpsert collection key (Some data)).
Definition updateByKeyCmd (collection key json : string) : result request :=
  data ← parseJSONArg json; Ok (RUpdateByKey collection key (Some data)).
Definition updateIfRevCmd (collection key rev json : string) : result request :=
  rev ← parse_id rev; data ← parseJSONArg json; Ok (RUpdateIfRev collection key rev (Some data)).
Definition aggregateCmd (groupBy field : string) (aggs : list string) (collection : string) (filter : option string) : result AggregateRequest :=
  ops ← parseAggs aggs;
  f ← (match filter with None => Ok None | Some s => f ← parseFilterArg s; Ok (Some f) end);
  Ok (MkAggregateRequest collection f groupBy field ops).

Definition collectionsCmd : request := RListCollections.
Definition dropCollectionCmd (name : string) : request := RDropCollection name.
Definition findByKeyCmd (fields : list string) (collection key : string) : request := RFindByKey collection key fields.
Definition deleteByKeyCmd (collection key : string) : request := RDeleteByKey collection key.
Definition statsCmd (collection : string) : request := RCollectionStats collection.
Definition compactCmd (collection : string) : request := RCompact collection.
Definition promoteCmd (force : bool) : request := RPromote force.
Definition ensureIndexCmd (collection field : string) : request := REnsureIndex collection field.
Definition dropIndexCmd (collection field : string) : request := RDropIndex collection field.
Definition listIndexesCmd (collection : string) : request := RListIndexes collection.
Definition beginTxCmd (collection : string) : request := RBeginTx collection.
Definition commitTxCmd (txID : string) : request := RCommitTx txID.
Definition rollbackTxCmd (txID : string) : request := RRollbackTx txID.

(** The request of a command given without flags; backup, export and import, which
    do more than ask, are below. *)
Definition plain_request (args : list string) : result request :=
  match args with
  | ["collections"] => Ok collectionsCmd
  | ["create-collection"; name] => Ok (createCollectionCmd 0 name)
  | ["drop-collection"; name] => Ok (dropCollectionCmd name)
  | ["insert"; c; json] => insertCmd "" 0 "" c json
  | "find" :: c :: (([] | [_]) as rest) => req ← findCmd 0 0 [] false "" [] c (head rest); Ok (RFind None req (MkSink [] None))
  | ["get"; c; id] => findByIDCmd [] c id
  | ["update"; c; id; json] => updateCmd "" 0 c id json
  | ["delete"; c; id] => deleteCmd "" c id
  | ["upsert"; c; key; json] => upsertCmd c key json
  | ["find-by-key"; c; key] => Ok (findByKeyCmd [] c key)
  | ["update-by-key"; c; key; json] => updateByKeyCmd c key json
  | ["delete-by-key"; c; key] => Ok (deleteByKeyCmd c key)
  | ["update-if-rev"; c; key; rev; json] => updateIfRevCmd c key rev json
  | "aggregate" :: c :: (([] | [_]) as rest) => req ← aggregateCmd "" "" [] c (head rest); Ok (RAggregate None req (MkSink [] None))
  | ["stats"; c] => Ok (statsCmd c)
  | ["compact"; c] => Ok (compactCmd c)
  | ["promote"] => Ok (promoteCmd false)
  | ["ensure-index"; c; f] => Ok (ensureIndexCmd c f)
  | ["drop-index"; c; f] => Ok (dropIndexCmd c f)
  | ["indexes"; c] => Ok (listIndexesCmd c)
  | ["begin-tx"; c] => Ok (beginTxCmd c)
  | ["commit-tx"; tx] => Ok (commitTxCmd tx)
  | ["rollback-tx"; tx] => Ok (rollbackTxCmd tx)
  | _ => Err ErrOther
  end.

(** ** What a search prints *)

(** [%-6d]. *)
Definition left6 (n : N) : bytes := let ds := dec_digits n in ds ++ replicate (6 - length ds) " "%char.

Definition printRecord (r : PRecord) : bytes :=
  let json := match doc_to_json (AsMap (pr_Data r)) with Ok j => print_json j | Err _ => [] end in
  let rest := to_bytes " rev:" ++ dec_digits (pr_Rev r) ++ to_bytes "  " ++ json ++ [newline] in
  to_bytes "id:" ++ left6 (pr_Id r) ++
  (if bool_decide (pr_Key r = "") then rest else to_bytes " key:" ++ to_bytes (pr_Key r) ++ rest).

(** The records as they come, then the token of the next page, if there is one. *)
Definition next_token (ms : list FindResponse) : string :=
  foldl (λ t m, if bool_decide (fr_PageToken m = "") then t else fr_PageToken m) "" ms.

Definition print_found (r : reply unit) (ms : list FindResponse) : result unit * bytes :=
  let out := concat (map (λ m, printRecord (fr_Record m)) ms) in
  match r with
  | Status _ => (Err ErrOther, out)
  | Reply _ =>
      let token := next_token ms in
      (Ok tt, if bool_decide (token = "") then out else out ++ to_bytes ("next-page-token: " +:+ token) ++ [newline])
  end.

(** ** Backup *)

(** The stream goes to a file of the client, which is created first. *)
Definition save_stream (dest : string) (r : reply unit) (chunks : list bytes) : M Z :=
  syscall;;
  put_file dest [];;
  for_each (append_file dest) chunks;;
  (match r with Reply _ => mret tt | Status _ => fail ErrOther end);;
  syscall;;
  mret (Z.of_nat (length (concat chunks))).

(** [room] is the number of messages the connection carries. *)
Definition backupCmd `{!Gzip} (room : option nat) (dest : string) : SE (GRPCServer * Host * World) Z := λ '(st, w),
  let '(r, k, st) := rpc_Snapshot (MkSink [] room) st in
  let '(total, w) := save_stream dest r (sk_sent k) w in
  (total, (st, w)).

(** ** Export and import *)

(** The records of the stream, one encoded object to a line. *)
Definition exportCmd (collection : string) (st : GRPCServer * Host) : result unit * bytes * (GRPCServer * Host) :=
  let '(r, k, st) := rpc_Find None (MkFindRequest collection None 0 0 "" false [] "" []) (MkSink [] None) st in
  (match r with Reply _ => Ok tt | Status _ => Err ErrOther end,
   concat (map (λ m, json_line (AsMap (pr_Data (fr_Record m)))) (sk_sent k)), st).

(** The values of the input, decoded one at a time; every value takes a byte, so
    the length is enough fuel. *)
Fixpoint import_values (fuel : nat) (collection : string) (input : bytes) (count : nat) : SE (GRPCServer * Host) nat :=
  match fuel, skip_ws input with
  | _, [] | _, "]"%char :: _ | _, "}"%char :: _ => mret count
  | O, _ => fail ErrSyntax
  | S fuel, _ =>
      match parse_value (S (length input)) input with
      | None => fail ErrSyntax
      | Some (j, rest) =>
          raw ← lift (doc_of_json j);
          s ← lift (NewStruct (default ∅ raw));
          (λ st, match rpc_Insert "" collection "" (Some s) 0 st with
                 | (Reply _, st) => (Ok tt, st)
                 | (Status _, st) => (Err ErrOther, st)
                 end);;
          import_values fuel collection rest (S count)
      end
  end.

Definition importCmd (collection : string) (input : bytes) : SE (GRPCServer * Host) nat :=
  import_values (length input) collection input 0.
End client.
