(* ===== verification/CliSpec.v ===== *)
(** * The command-line client: what its lines mean and what an export holds

    [export_import] states that importing what was exported brings every record
    over.  Scenarios check the documented session and script, and show a documented
    line the REPL does not know, an export that cannot be imported, and operators
    and collections that are taken for something else. *)

From S2P Require Import ServerConfig Prelude GoFloat GoTime GoJson Value Query Store Disk GoStrings Segment Index SecIndex TopK Meta Collection Steps Clock CollectionSpec Scan ScanSpec IndexInv Aggregate Open OpenSpec Compactor CompactorSpec TxManager TxSpec LoadJsonl Broker Replica Database DatabaseSpec Auth Snapshot Grpc GrpcSpec Cli.

(** ** Export *)
Section export.
Context {sha : Sha256} {pb : Protobuf} {pb_laws : ProtobufLaws} {RE : Regexp}.

(** A record that can be carried over: plain JSON data without a key. *)
Definition portable (d : doc) : Prop := d ≠ ∅ ∧ wf_doc d ∧ norm_doc d = d ∧ sets_key (Some d) = false.

Definition row_doc (r : ScanResult) : doc := default ∅ (sr_Data r).
Definition portable_row (r : ScanResult) : Prop := sr_Data r = Some (row_doc r) ∧ portable (row_doc r).

Lemma json_line_norm d : wf_doc d → json_line (norm_doc d) = json_line d.
Proof. intros Hd. unfold json_line. by rewrite doc_to_json_norm. Qed.

Lemma rows_records opts rows :
  o_Fields opts = [] → Forall portable_row rows →
  ∃ ms, mapR (row_record opts) rows = Ok ms ∧ map (λ m, json_line (AsMap (pr_Data m))) ms = map (λ r, json_line (row_doc r)) rows.
Proof.
  intros Hf Hrows. induction Hrows as [|r rows [Hd (Hne & Hw & _)] _ (ms & Hms & Hl)]; [by exists []|].
  destruct (AsMap_NewStruct (row_doc r) Hw) as (s & Hs & Has). eexists. split.
  - cbn [mapR]. unfold row_record at 1. rewrite Hf. cbn [ProjectData]. rewrite Hd, (toProtoRecord_ok _ _ _ _ _ s Hs). by rewrite Hms.
  - cbn [map pr_Data]. by rewrite Hl, Has, json_line_norm.
Qed.

Lemma export_spec st coll c logs log :
  db_collections (gs_db st.1) !! coll = Some c → coll_inv c (h_world st.2) logs log → no_faults (h_world st.2) → c_enc c = None →
  (∀ r, r ∈ table_rows (live_now (h_world st.2) logs log) → portable_row r) →
  ∃ rows, rows ≡ₚ table_rows (live_now (h_world st.2) logs log) ∧ exportCmd coll st = (Ok tt, jsonl (map row_doc rows), st).
Proof.
  intros Hl Hinv Hw Henc Hport. destruct st as [s [w dirs]]. cbn [fst snd h_world] in *.
  set (req := MkFindRequest coll None 0 0 "" false [] "" []). set (opts := find_options req).
  assert (scannable c w logs log (filter_of opts)) as Hsc by (split; [done..|]; by intros ids [=]).
  destruct (scan_stream_unordered c w logs log opts find_visit (None, open_sink []) Hsc eq_refl eq_refl) as (stats & Hrun).
  { intros r [p k]. unfold find_visit, flush_record, Send, mbind, SE_bind. destruct p, k as [sent [[|room]|]]; cbn; try done;
      destruct (toProtoRecord _ _ _ _ _); done. }
  set (rows := filter (matches (filter_of opts)) (scan_rows c w logs log (filter_of opts))) in Hrun.
  assert (rows ≡ₚ table_rows (live_now w logs log)) as Hp.
  { unfold rows. rewrite (scan_rows_matching c w logs log Hinv) by apply Hsc. unfold matching_rows.
    assert (∀ l, filter (matches (filter_of opts)) l = l) as ->; [|done]. intros l. induction l as [|x l IH]; [done|].
    rewrite filter_cons_True by done. by rewrite IH. }
  assert (Forall portable_row rows) as Hrows by (apply Forall_forall; intros r Hr; apply Hport; by rewrite <-Hp).
  destruct (rows_records opts rows eq_refl Hrows) as (ms & Hms & Hlines).
  assert (window opts rows = rows) as Hwin by done. rewrite Hwin, (find_visits opts rows ms) in Hrun by done. cbn [option_list app] in Hrun.
  exists rows. split; [done|]. unfold exportCmd, rpc_Find. fold req. change (fq_Collection req) with coll. rewrite Hl. unfold find_in. fold opts.
  change (MkSink [] None) with (@open_sink FindResponse []). cbn [h_world h_dirs]. rewrite Hrun.
  assert (concat (map (λ m, json_line (AsMap (pr_Data m))) ms) = jsonl (map row_doc rows)) as Hout.
  { rewrite Hlines. unfold jsonl. f_equal. by rewrite <-list_fmap_compose. }
  rewrite <-Hout. destruct (last ms) as [m|] eqn:Hlast; [|by apply last_None in Hlast as ->].
  apply last_Some in Hlast as (ms' & ->). change (option_list None ++ ms' ++ [m]) with (ms' ++ [m]). rewrite removelast_last, last_snoc.
  unfold open_sink. cbn. by rewrite !map_app, map_map.
Qed.
End export.

(** ** Where an insert leaves a collection *)
Definition place (c : Collection) : string * list string := (c_dir c, paths c).

Lemma place_active {A} (m : SE (Segment * World) A) : seg_touches m → keeps place (with_active m).
Proof.
  intros Hm c w. unfold with_active. destruct (Hm (c_active c) w) as [Hp _]. destruct (m (c_active c, w)) as [r [s w']]. cbn [fst snd] in *.
  unfold place, paths, all_segments. destruct c. simpl in *. rewrite !fmap_app. simpl. by rewrite Hp.
Qed.

Lemma place_index_write e : keeps place (index_write e).
Proof. unfold index_write. apply keeps_bind; [apply place_active, Append_touches|]. intros o. apply keeps_modify. by intros []. Qed.

Lemma place_sync : keeps place syncActiveLocked.
Proof. unfold syncActiveLocked. apply keeps_bind; [apply keeps_obj|]. intros c. destruct (bool_decide _); [apply place_active, Sync_touches|apply keeps_ret]. Qed.

Lemma place_sidx id data : keeps place (modify (sidxIndexEntry id data)).
Proof.
  apply keeps_modify. intros c. destruct (sidx_index_same id data c) as (Hd & Hs & Ha & _). unfold place, paths, all_segments. by rewrite Hd, Hs, Ha.
Qed.

Ltac peel_place H :=
  let E := fresh "E" in
  apply bind_inv_ok in H as (? & [? ?] & E & H);
  apply (keeps_run place) in E; [|solve [keeps|apply place_index_write|apply place_sync|apply place_sidx]].

Lemma insert_place data exp c w r c' w' :
  insert_ data exp (c, w) = (Ok r, (c', w')) → room c →
  c_dir c' = c_dir c ∧ (max_segment (c_dir c) (all_segments c') ≤ max_segment (c_dir c) (all_segments c) + 1)%N.
Proof.
  unfold insert_. intros H Hroom. do 10 peel_place H.
  apply bind_inv_ok in H as ([] & [cr wr] & Hr & H). apply (keeps_run place) in H; [|keeps].
  match type of Hr with maybeRotate (?x, _) = _ => assert (place x = place c) as Hp by congruence; set (ca := x) in * end.
  injection Hp as Hd Hp. destruct (maybeRotate_numbers ca _ cr wr Hr) as [Hd1 Hm]; [by apply (room_same c)|].
  injection H as Hd' Hp'. rewrite Hd in *. rewrite (max_segment_paths _ (all_segments ca) (all_segments c)) in Hm by done.
  rewrite (max_segment_paths _ (all_segments c') (all_segments cr)) by done. split; [congruence|done].
Qed.

(** ** Import *)
Section import.
Context {sha : Sha256} {pb : Protobuf} {pb_laws : ProtobufLaws}.

(** A server whose collection [dst] holds the table [T] with ids up to [seq], and
    can take [n] more records at time [now], which get the deadline [exp0]. *)
Record ready (dst : string) (now : Time) (exp0 : Z) (n : nat) (st : GRPCServer * Host) (T : table) (seq : N) : Prop := {
  rd_coll : ∃ c logs log, db_collections (gs_db st.1) !! dst = Some c ∧ coll_inv c (h_world st.2) logs log ∧ coll_table logs log = T ∧
    room_for n c ∧ c_enc c = None ∧ c_idSeq c = seq ∧ resolveInsertExpiry c now zero_time = exp0;
  rd_faults : no_faults (h_world st.2);
  rd_now : w_now (h_world st.2) = now;
  rd_clock : is_Ok (format_time now) = true;
  rd_exp : exp_ok exp0;
  rd_ids : (seq + N.of_nat n < 2 ^ 64)%N
}.

Definition added (now : Time) (exp0 : Z) (d : doc) : arec := ARec 1 now (Some d) exp0 0.

(** What is left of a collection after a step that keeps its place. *)
Lemma ready_after dst now exp0 n s h c c' w' logs' log' T seq :
  coll_inv c' w' logs' log' → coll_table logs' log' = T → c_idSeq c' = seq → c_enc c' = None → c_cfg c' = c_cfg c →
  resolveInsertExpiry c now zero_time = exp0 → c_dir c' = c_dir c → room_for (S n) c →
  (max_segment (c_dir c) (all_segments c') ≤ max_segment (c_dir c) (all_segments c) + 1)%N →
  no_faults w' → w_now w' = now → is_Ok (format_time now) = true → exp_ok exp0 → (seq + N.of_nat n < 2 ^ 64)%N →
  ready dst now exp0 n (set_gs_db (flush dst c' (gs_db s)) s, MkHost w' (h_dirs h)) T seq.
Proof.
  intros Hinv HT Hseq Henc Hcfg Hexp Hd Hroom Hm Hw Hn Hck Hx Hids. split; cbn [fst snd h_world]; try done.
  exists (set_feed [] c'), logs', log'. split_and!; [destruct s; apply flush_lookup|eapply coll_inv_same; [|exact Hinv]; by destruct c'|done| |by destruct c'..| ].
  - unfold room_for in *. assert (c_dir (set_feed [] c') = c_dir c ∧ all_segments (set_feed [] c') = all_segments c') as [-> ->] by (rewrite <-Hd; by destruct c'). lia.
  - rewrite <-Hexp. unfold resolveInsertExpiry. assert (c_cfg (set_feed [] c') = c_cfg c) as -> by (rewrite <-Hcfg; by destruct c'). done.
Qed.

(** The engine refuses the record under the id. *)
Definition refused (dst : string) (exp0 : Z) (st : GRPCServer * Host) (id : N) (d : doc) : Prop :=
  ∃ c err, db_collections (gs_db st.1) !! dst = Some c ∧ insert_check c (insert_entry (h_world st.2) id (Some d) exp0) (Some d) = Some err.

Lemma import_one dst now exp0 n st T seq d s :
  ready dst now exp0 (S n) st T seq → portable d → AsMap s = d →
  (∃ resp st', rpc_Insert "" dst "" (Some s) 0 st = (Reply resp, st') ∧
     ready dst now exp0 n st' (<[(seq + 1)%N := added now exp0 d]> T) (seq + 1) ∧ T !! (seq + 1)%N = None) ∨
  (∃ code st', rpc_Insert "" dst "" (Some s) 0 st = (Status code, st') ∧ ready dst now exp0 n st' T (seq + 1) ∧ refused dst exp0 st' (seq + 1) d).
Proof.
  intros [(c & logs & log & Hl & Hinv & HT & Hroom & Henc & Hseq & Hexp) Hw Hn Hck Hx Hids] (Hne & Hwf & Hnorm & Hkey) Has.
  destruct st as [sv h]. cbn [fst snd] in *. assert (writable c (h_world h)) as Hwr.
  { split; [done|unfold clock_ok; by rewrite Hn|unfold room_for, room in *; lia|rewrite Hseq; lia|done]. }
  assert (∀ r c' w', insert_ (Some d) exp0 (c, h_world h) = (r, (c', w')) →
    on_collection dst (InsertWithExpiry (Some d) zero_time) (sv, h) = (Reply r, (set_gs_db (flush dst c' (gs_db sv)) sv, MkHost w' (h_dirs h)))) as Hrun.
  { intros r c' w' E. apply on_collection_run with c; [done|]. unfold InsertWithExpiry. rewrite Hkey.
    erewrite bind_ok by reflexivity. erewrite bind_ok by reflexivity. cbn [fst snd]. by rewrite Hn, Hexp. }
  assert (∀ r, rpc_Insert "" dst "" (Some s) 0 (sv, h) = r ↔
    (x ← on_collection dst (InsertWithExpiry (Some d) zero_time); y ← writeErr dst x; mret (MkInsertResponse y.1 y.2 "" 1) : HM InsertResponse) (sv, h) = r) as Hrpc.
  { intros r. unfold rpc_Insert. rewrite (proj2 (Z.ltb_ge 0 0)) by lia. erewrite need_collection_found by exact Hl. rewrite !bool_decide_true by done. cbn [negb].
    erewrite HM_bind_reply by reflexivity. unfold as_map. by rewrite Has. }
  pose proof (insert_spec c (h_world h) logs log (Some d) exp0 Hinv Hwr (conj Hne Hwf) Hx) as Hins. cbv zeta in Hins. rewrite Hseq in Hins.
  destruct (insert_check c (insert_entry (h_world h) (seq + 1) (Some d) exp0) (Some d)) as [err|] eqn:Hchk.
  - right. specialize (Hrun _ _ _ Hins). set (st1 := (set_gs_db _ _, MkHost _ _)) in Hrun.
    assert (ready dst now exp0 n st1 T (seq + 1)) as Hrd.
    { eapply (ready_after dst now exp0 n sv h c); [by apply set_idSeq_inv; [|lia]|done|by destruct c|by destruct c|by destruct c|done|by destruct c|done|
        rewrite (max_segment_paths _ _ (all_segments c)) by (by destruct c); lia|done|done|done|done|lia]. }
    exists (writeErr_code err). eexists. split_and!; [apply Hrpc; erewrite HM_bind_reply by exact Hrun; reflexivity|..]; cbn; unfold st1 in Hrd.
    + destruct (bool_decide _); [|done]. destruct Hrd as [R1 R2 R3 R4 R5 R6]. by split.
    + exists (set_feed [] (set_idSeq (seq + 1) c)), err. split; [destruct sv, (bool_decide _); apply flush_lookup|]. rewrite <-Hchk. by destruct c.
  - left. destruct Hins as (c' & w' & logs' & log' & E & Hw' & Hinv' & Hseq' & Hfresh & Ht). specialize (Hrun _ _ _ E).
    destruct (insert_place _ _ _ _ _ _ _ E (wr_room _ _ Hwr)) as [Hd Hm].
    eexists _, _. split; [apply Hrpc; erewrite HM_bind_reply by exact Hrun; reflexivity|]. split; [|congruence].
    eapply (ready_after dst now exp0 n sv h c); [done| |done| | |done|done|done|done|done| |done|done|lia].
    + rewrite Ht, HT, Hn. unfold added. cbn [fmap option_fmap option_map]. by rewrite Hnorm.
    + by rewrite (keeps_run c_enc _ _ _ _ _ _ (insert_keeps_enc (Some d) exp0) E).
    + eapply (keeps_run c_cfg); [|exact E]. unfold insert_. keeps.
    + rewrite <-Hn. pose proof (insert_timed (Some d) exp0 (c, h_world h)) as Htm. by rewrite E in Htm.
Qed.

Lemma loaded_cons n ts exp0 d ds T T' :
  loaded (n + 1) ts exp0 ds (<[(n + 1)%N := ARec 1 ts (norm_doc <$> d) exp0 0]> T) T' → loaded n ts exp0 (d :: ds) T T'.
Proof.
  intros H id. rewrite (H id). destruct (N.leb_spec id (n + 1)), (N.leb_spec id n); try lia.
  - rewrite lookup_insert_ne; [done|lia].
  - assert (id = n + 1)%N as -> by lia. rewrite lookup_insert_eq. by replace (N.to_nat (n + 1 - n - 1)) with 0 by lia.
  - replace (N.to_nat (id - n - 1)) with (S (N.to_nat (id - (n + 1) - 1))) by lia. cbn [lookup list_lookup].
    destruct (ds !! _); [done|]. rewrite lookup_insert_ne; [done|lia].
Qed.

Lemma parse_value_ws fuel a b : skip_ws a = skip_ws b → parse_value fuel a = parse_value fuel b.
Proof. intros E. destruct fuel; [done|]. cbn [parse_value]. by rewrite E. Qed.

(** The first line of an exported text. *)
Lemma jsonl_first d ds :
  wf_doc d → ∃ j t, doc_of_json j = Ok (Some (norm_doc d)) ∧ jsonl (d :: ds) = print_json j ++ newline :: jsonl ds ∧ jsonl (d :: ds) = "{"%char :: t ∧
    0 < length (print_json j) ∧ ∀ fuel, length (print_json j) < fuel → parse_value fuel (jsonl (d :: ds)) = Some (j, newline :: jsonl ds).
Proof.
  intros Hw. destruct (doc_to_json_roundtrip d Hw) as (j & H1 & H2 & H3).
  assert (jsonl (d :: ds) = print_json j ++ newline :: jsonl ds) as Hj.
  { unfold jsonl. cbn [fmap list_fmap concat]. unfold json_line at 1. by rewrite H1, <-app_assoc. }
  assert (∃ t, print_json j = "{"%char :: t) as (t & Ht).
  { unfold doc_to_json in H1. destruct (mapR field_to_json (sorted_pairs d)) as [js|]; [|done]. injection H1 as <-. by eexists. }
  exists j, (t ++ newline :: jsonl ds). split_and!; [done|done|by rewrite Hj, Ht|rewrite Ht; simpl; lia|]. intros fuel Hf. rewrite Hj. by apply wf_json_parses.
Qed.

Lemma import_values_spec dst now exp0 ds :
  Forall portable ds → ∀ fuel input count st T seq,
  skip_ws input = skip_ws (jsonl ds) → length (jsonl ds) ≤ length input ≤ fuel → ready dst now exp0 (length ds) st T seq →
  ∃ k st' T', loaded seq now exp0 (Some <$> take k ds) T T' ∧
    ((k = length ds ∧ import_values fuel dst input count st = (Ok (count + k), st') ∧ ready dst now exp0 0 st' T' (seq + N.of_nat k)) ∨
     (∃ d, ds !! k = Some d ∧ import_values fuel dst input count st = (Err ErrOther, st') ∧
        ready dst now exp0 (length ds - k - 1) st' T' (seq + N.of_nat k + 1) ∧ refused dst exp0 st' (seq + N.of_nat k + 1) d)).
Proof.
  induction 1 as [|d ds Hd Hds IH]; intros fuel input count st T seq Hws Hlen Hrd.
  { exists 0, st, T. split; [intros id; cbn; by destruct (_ <=? _)%N|]. left. split; [done|]. split; [|by rewrite N.add_0_r].
    rewrite Nat.add_0_r. destruct fuel; cbn [import_values]; by rewrite Hws. }
  destruct (jsonl_first d ds) as (j & t & Hj & Hcat & Hopen & Hpos & Hparse); [apply Hd|].
  destruct fuel as [|fuel]; [rewrite Hopen in Hlen; simpl in Hlen; lia|]. assert (skip_ws input = jsonl (d :: ds)) as Hskip by (by rewrite Hws, Hopen).
  destruct (AsMap_NewStruct (norm_doc d)) as (s & Hs & Has); [apply norm_doc_ok; split; apply Hd|].
  destruct Hd as (Hne & Hwf & Hnorm & Hkey). rewrite !Hnorm in *.
  assert (∀ r, rpc_Insert "" dst "" (Some s) 0 st = r → import_values (S fuel) dst input count st =
    match r with (Reply _, st') => import_values fuel dst (newline :: jsonl ds) (S count) st' | (Status _, st') => (Err ErrOther, st') end) as Hstep.
  { intros r E. cbn [import_values]. rewrite Hskip, Hopen. cbv iota. rewrite (parse_value_ws _ input (jsonl (d :: ds))) by done.
    rewrite Hparse by (rewrite Hcat in Hlen; rewrite length_app in Hlen; simpl in Hlen; lia). rewrite Hj.
    erewrite bind_ok by reflexivity. change (default ∅ (Some d)) with d. rewrite Hs. erewrite bind_ok by reflexivity.
    unfold mbind at 1, SE_bind at 1. rewrite E. by destruct r as [[]]. }
  destruct (import_one dst now exp0 (length ds) st T seq d s Hrd) as [(resp & st1 & E & Hrd1 & _)|(code & st1 & E & Hrd1 & Href)]; [done..| |].
  - destruct (IH fuel (newline :: jsonl ds) (S count) st1 (<[(seq + 1)%N := added now exp0 d]> T) (seq + 1)%N) as (k & st' & T' & Hl & Hend);
      [done|rewrite Hcat in Hlen; rewrite length_app in Hlen; simpl in *; lia|done|].
    exists (S k), st', T'. split; [apply loaded_cons; cbn; rewrite Hnorm; exact Hl|]. rewrite (Hstep _ E).
    replace (seq + N.of_nat (S k))%N with (seq + 1 + N.of_nat k)%N by lia.
    destruct Hend as [(-> & Hrun & Hr)|(d' & Hk & Hrun & Hr)]; [left; split_and!; [done| |done]|right; exists d'; split_and!; [done|done|apply Hr..]].
    rewrite Hrun. do 2 f_equal. lia.
  - exists 0, st1, T. split; [intros id; cbn; by destruct (_ <=? _)%N|]. right. exists d. rewrite N.add_0_r, (Hstep _ E). split_and!; [done|done| |done].
    cbn [length]. by replace (S (length ds) - 0 - 1) with (length ds) by lia.
Qed.
End import.

(** [C13] An export can be imported: the text exported from a collection holds the
    data of its live records, each once, as long as they have no keys; imported into
    any collection with room for them, here or on another server, every record is
    inserted, in the order of the text, under the next ids at revision 1 and with the
    deadline of the importing collection — or the import stops at the first record
    the engine refuses (quota, unique index, size), with the records before it
    inserted.  No other record of the importing collection changes. *)
Theorem export_import {sha : Sha256} {pb : Protobuf} {pb_laws : ProtobufLaws} {RE : Regexp} (st st2 : GRPCServer * Host) (src dst : string)
    (c : Collection) (logs : list (list (Z * Entry))) (log : list (Z * Entry)) (now : Time) (exp0 : Z) (T : table) (seq : N) :
  let live := table_rows (live_now (h_world st.2) logs log) in
  db_collections (gs_db st.1) !! src = Some c → coll_inv c (h_world st.2) logs log → no_faults (h_world st.2) → c_enc c = None →
  (∀ r, r ∈ live → portable_row r) → ready dst now exp0 (length live) st2 T seq →
  ∃ out ds, exportCmd src st = (Ok tt, out, st) ∧ ds ≡ₚ map row_doc live ∧
    ∃ k st' T', loaded seq now exp0 (Some <$> take k ds) T T' ∧
      ((k = length live ∧ importCmd dst out st2 = (Ok k, st') ∧ ready dst now exp0 0 st' T' (seq + N.of_nat k)) ∨
       (∃ d, ds !! k = Some d ∧ importCmd dst out st2 = (Err ErrOther, st') ∧
          ready dst now exp0 (length live - k - 1) st' T' (seq + N.of_nat k + 1) ∧ refused dst exp0 st' (seq + N.of_nat k + 1) d)).
Proof.
  intros live Hl Hinv Hw Henc Hport Hrd. destruct (export_spec st src c logs log Hl Hinv Hw Henc Hport) as (rows & Hp & Hx). fold live in Hp.
  exists (jsonl (map row_doc rows)), (map row_doc rows). split; [done|]. split; [by rewrite Hp|].
  assert (length (map row_doc rows) = length live) as Hlen by (rewrite length_map; by apply Permutation_length).
  assert (Forall portable (map row_doc rows)) as Hds.
  { apply Forall_fmap, Forall_forall. intros r Hr. apply Hport. by rewrite <-Hp. }
  rewrite <-Hlen in *. unfold importCmd. eapply (import_values_spec dst now exp0 (map row_doc rows) Hds); [done|lia|done].
Qed.

(** ** Filters *)

(** A filter as it is meant. *)
#[warnings="-register-all"]
Inductive expr :=
  | EField (field : string) (op : Op) (v : any)
  | EAnd (es : list expr)
  | EOr (es : list expr).

Section expr_ind.
Variable P : expr → Prop.
Hypothesis HField : ∀ f op v, P (EField f op v).
Hypothesis HAnd : ∀ es, Forall P es → P (EAnd es).
Hypothesis HOr : ∀ es, Forall P es → P (EOr es).

Fixpoint expr_ind_deep (e : expr) : P e :=
  let all := fix all (es : list expr) : Forall P es :=
    match es with [] => Forall_nil_2 _ | e :: es => Forall_cons_2 _ _ _ (expr_ind_deep e) (all es) end in
  match e with
  | EField f op v => HField f op v
  | EAnd es => HAnd es (all es)
  | EOr es => HOr es (all es)
  end.
End expr_ind.

Definition op_name (op : Op) : string :=
  match op with
  | OpEq => "eq" | OpNeq => "neq" | OpGt => "gt" | OpGte => "gte" | OpLt => "lt" | OpLte => "lte" | OpContains => "contains" | OpRegex => "regex" | OpUnknown s => s
  end.

(** Its text, as the help describes it, and its meaning. *)
Fixpoint expr_any (e : expr) : any :=
  match e with
  | EField f op v => VMap [("field", VStr f); ("op", VStr (op_name op)); ("value", v)]
  | EAnd es => VMap [("and", VList (map expr_any es))]
  | EOr es => VMap [("or", VList (map expr_any es))]
  end.
Definition known (op : Op) : bool := match op with OpUnknown _ => false | _ => true end.
Fixpoint expr_ok (e : expr) : bool :=
  match e with EField f op v => known op && (wf_string f && wf_any v) | EAnd es | EOr es => forallb expr_ok es end.
Fixpoint meaning (e : expr) : Filter :=
  match e with
  | EField f op v => FieldFilter f op (marshal v)
  | EAnd es => AndFilter (map meaning es)
  | EOr es => OrFilter (map meaning es)
  end.

Lemma expr_wf e : expr_ok e = true → wf_any (expr_any e) = true.
Proof.
  induction e as [f op v|es IH|es IH] using expr_ind_deep; cbn [expr_ok]; intros H.
  - apply andb_true_iff in H as [Hop [Hf Hv]%andb_true_iff].
    change (wf_string f && (wf_string (op_name op) && (wf_any v && true)) = true)%bool. rewrite Hf, Hv. by destruct op.
  - cbn. assert (forallb wf_any (map expr_any es) = true) as ->; [|done]. induction IH as [|e es He _ IHes]; [done|]. cbn in *. bools. by rewrite He, IHes.
  - cbn. assert (forallb wf_any (map expr_any es) = true) as ->; [|done]. induction IH as [|e es He _ IHes]; [done|]. cbn in *. bools. by rewrite He, IHes.
Qed.

Lemma meant_all es :
  Forall (λ e, expr_ok e = true → proto_filter (buildFilter (norm (expr_any e))) = meaning e) es → forallb expr_ok es = true →
  map proto_filter (map buildFilter (map norm (map expr_any es))) = map meaning es.
Proof. induction 1 as [|e es He _ IH]; [done|]. cbn. intros H. bools. by rewrite He, IH. Qed.

Lemma buildFilter_meaning e : expr_ok e = true → proto_filter (buildFilter (norm (expr_any e))) = meaning e.
Proof.
  induction e as [f op v|es IH|es IH] using expr_ind_deep; cbn [expr_ok]; intros H.
  - apply andb_true_iff in H as [Hop [_ Hv]%andb_true_iff].
    change (FieldFilter f (protoOpToQuery (filter_op (op_name op))) (marshal (norm v)) = FieldFilter f op (marshal v)).
    unfold marshal. rewrite to_json_norm by done. by destruct op.
  - change (AndFilter (map proto_filter (map buildFilter (map norm (map expr_any es)))) = AndFilter (map meaning es)). f_equal. by apply meant_all.
  - change (OrFilter (map proto_filter (map buildFilter (map norm (map expr_any es)))) = OrFilter (map meaning es)). f_equal. by apply meant_all.
Qed.

(** A filter typed as the help describes it is the filter the server applies: its
    fields, operators, nesting, and each value as the JSON text it was typed as. *)
Theorem filter_text (e : expr) :
  expr_ok e = true → ∃ f, parseFilterArg (marshal (expr_any e)) = Ok f ∧ protoFilterToQuery (Some f) = meaning e.
Proof.
  intros He. destruct (to_json_roundtrip (expr_any e) (expr_wf e He)) as (j & Hj & Hw & Ho).
  exists (buildFilter (norm (expr_any e))). split; [|by apply buildFilter_meaning].
  unfold parseFilterArg, marshal, unmarshal_any. rewrite Hj, to_of_bytes, parse_print_json, Ho by done. by destruct e.
Qed.

(** ** Scenarios *)
#[local] Existing Instance plain_wire.
#[local] Existing Instance plain_wire_laws.
#[local] Existing Instance length_digest.
#[local] Existing Instance no_regexp.

(** JSON typed with ['] for the quotation mark. *)
Definition typed (s : string) : string := of_bytes (map (λ c, if bool_decide (c = "'"%char) then quote_char else c) (to_bytes s)).

(** The session of the manual. *)
Example documented_session :
  map (λ l, handleREPLLine (typed l) "users")
    ["create-collection users"; "use users"; "insert {'name':'alice','age':30}"; "find"; "find {'field':'name','op':'eq','value':'alice'}";
     "update 1 {'name':'alice','age':31}"; "stats"; "delete 1"] =
  map Ok [ARun ["create-collection"; "users"]; AUse "users"; ARun ["insert"; "users"; typed "{'name':'alice','age':30}"]; ARun ["find"; "users"];
    ARun ["find"; "users"; typed "{'field':'name','op':'eq','value':'alice'}"]; ARun ["update"; "users"; "1"; typed "{'name':'alice','age':31}"];
    ARun ["stats"; "users"]; ARun ["delete"; "users"; "1"]].
Proof. vm_compute. reflexivity. Qed.

(** The script of the manual, against the server: three records are inserted. *)
Definition on_server (args : list string) : SE (GRPCServer * Host) unit := λ st,
  match plain_request args with
  | Err e => (Err e, st)
  | Ok req => let '(r, st) := @handle length_digest plain_wire no_regexp map_order map_group_order req st in
              (match r with Reply _ => Ok tt | Status _ => Err ErrOther end, st)
  end.
Definition seed_script : bytes :=
  concat (map (λ l, to_bytes (typed l) ++ [newline])
    ["# Create users collection and seed data"; "create-collection users"; "use users"; "insert {'name':'alice','email':'alice@example.com'}";
     "insert {'name':'bob','email':'bob@example.com'}"; "insert {'name':'carol','email':'carol@example.com'}"]).
Definition script_run : result unit * (GRPCServer * Host) := runBatch on_server seed_script fresh_server.

Example documented_script :
  script_run.1 = Ok tt ∧
  match db_collections (gs_db script_run.2.1) !! "users" with
  | Some c => map (λ id, match (GetRecord id (c, h_world script_run.2.2)).1 with Ok r => data_field (r_Data r) "name" | Err _ => None end) [1; 2; 3; 4]%N
  | None => []
  end = [Some (VStr "alice"); Some (VStr "bob"); Some (VStr "carol"); None].
Proof. vm_compute. done. Qed.

(** A search of the script's collection, as it is printed. *)
Definition printed (args : list string) : result string :=
  req ← plain_request args;
  match req with
  | RFind ctx q k => let '(r, k, _) := rpc_Find ctx q k script_run.2 in let '(r, out) := print_found r (sk_sent k) in _ ← r; Ok (of_bytes out)
  | _ => Err ErrOther
  end.
Example printed_search :
  printed ["find"; "users"; typed "{'field':'name','op':'gt','value':'b'}"] =
  Ok (typed "id:2      rev:1  {'email':'bob@example.com','name':'bob'}" +:+ of_bytes [newline] +:+
      typed "id:3      rev:1  {'email':'carol@example.com','name':'carol'}" +:+ of_bytes [newline]).
Proof. vm_compute. reflexivity. Qed.

Example script_carried_over : (importCmd "u" (exportCmd "users" script_run.2).1.2 fresh_server).1 = Ok 3.
Proof. vm_compute. reflexivity. Qed.

(** A command given the certificate of an authority verifies the server.  Typed into
    a REPL that was given it, or run from a script, the same command talks to the
    server without encryption: the certificate is not passed on. *)
Theorem repl_drops_tls `{!X509} (f : cliFlags) (envKey : string) (args : list string) (pem : bytes) (pool : CertPool) (w : World) :
  no_faults w → w_files w !! fl_socket f = None → fl_tlsCA f ≠ "" → w_files w !! fl_tlsCA f = Some pem → AppendCertsFromPEM pem = Some pool →
  set_flag (hd "" args) (hd "" (tl args)) f = None →
  connect f w = (Ok (DialTLS (fl_host f) pool), w) ∧
  ∃ f', rootCmd envKey (runCLICommand args f) = (f', args) ∧ connect f' w = (Ok (DialPlain (fl_host f)), w).
Proof.
  intros Hw Hs Hca Hpem Hpool Hargs.
  assert (∀ f', fl_socket f' = fl_socket f → exists_file (fl_socket f') w = (Ok false, w)) as Hex.
  { intros f' ->. unfold exists_file. rewrite syscall_nofault by done. by rewrite Hs. }
  split.
  - unfold connect. erewrite bind_ok by by apply Hex. cbv beta iota. rewrite bool_decide_false by done. cbn [negb].
    erewrite bind_ok by by apply read_file_nofault. by rewrite Hpool.
  - exists (MkCliFlags (fl_host f) (fl_socket f) (fl_apiKey f) ""). split; [|unfold connect; by erewrite bind_ok by (by apply Hex)].
    transitivity (root_flags args (MkCliFlags (fl_host f) (fl_socket f) (fl_apiKey f) "")); [reflexivity|].
    destruct args as [|a [|b args]]; [done|done|]. cbn [hd tl] in Hargs.
    assert (∀ g, set_flag a b g = None) as Hg; [|cbn [root_flags]; by rewrite Hg].
    intros g. revert Hargs. unfold set_flag. by repeat case_bool_decide.
Qed.

(** The quick start types an aggregation into the REPL, which has no such command. *)
Theorem repl_lacks_aggregate : ∀ collection, handleREPLLine "aggregate --field age --aggs count,avg" collection = Err ErrOther.
Proof. intros collection. vm_compute. reflexivity. Qed.

(** The help offers a collection before the JSON text of an insert.  While a
    collection is in use the name is taken for the text. *)
Theorem explicit_collection_misread :
  handleREPLLine (typed "insert orders {'n':1}") "users" = Ok (ARun ["insert"; "users"; "orders"]).
Proof. vm_compute. reflexivity. Qed.

(** A space after a colon ends the JSON text. *)
Theorem spaced_json_truncated :
  handleREPLLine (typed "insert {'name': 'alice'}") "users" = Ok (ARun ["insert"; "users"; typed "{'name':"]).
Proof. vm_compute. reflexivity. Qed.

(** An operator that does not exist is taken for equality, and a conjunction that is
    not a list for the empty one, which accepts everything. *)
Theorem unknown_operator_is_eq :
  parseFilterArg (typed "{'field':'a','op':'ne','value':1}") = Ok (PF_Field "a" FO_EQ "1") ∧
  parseFilterArg (typed "{'and':{'field':'a','op':'eq','value':1}}") = Ok (PF_And []) ∧ ∀ d, Match (protoFilterToQuery (Some (PF_And []))) d = true.
Proof. split_and!; vm_compute; reflexivity. Qed.

(** The manual saves a collection with an export and restores it with an import.  A
    record with a key is exported with its reserved field, which an insert refuses:
    the import ends in an error. *)
Definition keyed_server : GRPCServer * Host := (rpc_Insert "" "u" "alice" (Some doc_a) 0 fresh_server).2.
Theorem keyed_export_not_importable :
  match exportCmd "u" keyed_server with
  | (r, out, _) => r = Ok tt ∧ (importCmd "u" out fresh_server).1 = Err ErrOther ∧
      match db_collections (gs_db (importCmd "u" out fresh_server).2.1) !! "u" with Some c => c_index c = ∅ | None => False end
  end.
Proof. vm_compute. done. Qed.

(** ** Witness: a collection imported into itself *)
Definition demo_server : GRPCServer * Host := server_of demo_coll demo_world RoleLeader.

Lemma demo_live r : r ∈ table_rows (live_now demo_world [] demo_log) → r = MkScanResult 1 1 (norm_doc <$> rec_a) stamp.
Proof.
  assert (table_rows (live_now demo_world [] demo_log) = [MkScanResult 1 1 (norm_doc <$> rec_a) stamp]) as -> by (vm_compute; reflexivity).
  by intros ?%list_elem_of_singleton.
Qed.

Lemma demo_portable r : r ∈ table_rows (live_now demo_world [] demo_log) → portable_row r.
Proof.
  intros ->%demo_live. split; [reflexivity|]. destruct (norm_doc_ok (default ∅ rec_a)) as [H1 H2].
  { apply rec_ok, wf_rec. vm_compute. reflexivity. }
  split_and!; [exact H1|exact H2|vm_compute; reflexivity|vm_compute; reflexivity].
Qed.

Lemma demo_ready : ready "u" stamp 0 1 demo_server (coll_table [] demo_log) 1.
Proof.
  split; [|vm_compute; reflexivity|reflexivity|vm_compute; reflexivity|exact exp_ok_never|vm_compute; reflexivity].
  exists demo_coll, [], demo_log. split_and!; [reflexivity|apply demo_inv|reflexivity|vm_compute; reflexivity..].
Qed.

Lemma export_import_witness :
  ∃ out ds, exportCmd "u" demo_server = (Ok tt, out, demo_server) ∧ ds ≡ₚ map row_doc (table_rows (live_now demo_world [] demo_log)) ∧
    ∃ k st' T', loaded 1 stamp 0 (Some <$> take k ds) (coll_table [] demo_log) T' ∧
      ((k = 1 ∧ importCmd "u" out demo_server = (Ok k, st') ∧ ready "u" stamp 0 0 st' T' (1 + N.of_nat k)) ∨
       (∃ d, ds !! k = Some d ∧ importCmd "u" out demo_server = (Err ErrOther, st') ∧
          ready "u" stamp 0 (1 - k - 1) st' T' (1 + N.of_nat k + 1) ∧ refused "u" 0 st' (1 + N.of_nat k + 1) d)).
Proof.
  apply (@export_import length_digest plain_wire plain_wire_laws no_regexp demo_server demo_server "u" "u" demo_coll [] demo_log stamp 0
    (coll_table [] demo_log) 1).
  - reflexivity.
  - apply demo_inv.
  - reflexivity.
  - reflexivity.
  - apply demo_portable.
  - apply demo_ready.
Defined.
