(* ===== verification/BackupSpec.v ===== *)
(** * What a backup holds

    [backup_restores]: the backup command of the client, the snapshot stream of the
    server, the archive of the engine and the opening of a database taken together.
    A backup that reports success holds the whole archive, and the archive restores
    the database. *)

From S2P Require Import Prelude GoFloat GoTime GoJson Value Query Store Disk Segment Index SecIndex Meta Collection Steps CollectionSpec Scan Open OpenSpec Broker Replica Database DatabaseSpec Cluster Snapshot SnapshotSpec Compactor TxManager Grpc SnapshotRpc Cli.

(** ** The file of the client *)
Lemma append_ok_files p b w u w' : append_file p b w = (Ok u, w') → w_files w' = <[p := default [] (w_files w !! p) ++ b]> (w_files w).
Proof. intros H. unfold append_file, append_bytes, mbind, SE_bind in H. destruct w as [fs [|[k|] os] t sd]; cbn in H; by simplify_eq. Qed.

Lemma append_all_files p bs w u w' old : w_files w !! p = Some old → for_each (append_file p) bs w = (Ok u, w') →
  w_files w' = <[p := old ++ concat bs]> (w_files w).
Proof.
  revert w old. induction bs as [|b bs IH]; intros w old Hp; cbn [for_each]; intros Hrun.
  - injection Hrun as _ <-. rewrite app_nil_r. by rewrite insert_id.
  - apply bind_inv_ok in Hrun as (v & w1 & H1 & H2). apply append_ok_files in H1. rewrite Hp in H1. cbn in H1.
    rewrite (IH w1 (old ++ b)); [|by rewrite H1, lookup_insert_eq|done]. rewrite H1, insert_insert_eq. by rewrite concat_cons, app_assoc.
Qed.

Lemma append_all_nofault p bs w : no_faults w → ∃ w', for_each (append_file p) bs w = (Ok tt, w') ∧ no_faults w'.
Proof.
  revert w. induction bs as [|b bs IH]; intros w Hw; cbn [for_each]; [by exists w|].
  erewrite bind_ok by (by apply append_file_nofault). by apply IH.
Qed.

Section backup.
Context {sha : Sha256} {arch : Archive} {arch_laws : ArchiveLaws} {gz : Gzip} {gz_laws : GzipLaws}.

(** A backup that succeeds: the snapshot was answered and its messages are the file. *)
Lemma backup_ok room dest st w n st' w' : backupCmd room dest (st, w) = (Ok n, (st', w')) →
  ∃ k, rpc_Snapshot (MkSink [] room) st = (Reply tt, k, st') ∧ n = Z.of_nat (length (concat (sk_sent k))) ∧
    w_files w' = <[dest := concat (sk_sent k)]> (w_files w).
Proof.
  unfold backupCmd. destruct (rpc_Snapshot (MkSink [] room) st) as [[r k] st1]. destruct (save_stream _ _ _ w) as [total w1] eqn:Hrun.
  intros [= -> <- <-]. exists k. apply bind_inv_ok in Hrun as ([] & w2 & H1 & Hrun). apply bind_inv_ok in Hrun as (u & w3 & H2 & Hrun).
  apply bind_inv_ok in Hrun as (v & w4 & H3 & Hrun). apply bind_inv_ok in Hrun as (x & w5 & H4 & Hrun). apply bind_inv_ok in Hrun as ([] & w6 & H5 & Hrun).
  injection Hrun as <- <-. destruct r as [[]|c]; [|done]. injection H4 as _ <-. injection H2 as _ <-.
  split_and!; [done|done|]. rewrite (syscall_ok_files _ _ H5). rewrite (append_all_files _ _ _ _ _ [] (lookup_insert_eq _ _ _) H3). cbn.
  by rewrite insert_insert_eq, (syscall_ok_files _ _ H1).
Qed.

Lemma backup_succeeds dest st w k st' : no_faults w → rpc_Snapshot (MkSink [] None) st = (Reply tt, k, st') →
  ∃ n w', backupCmd None dest (st, w) = (Ok n, (st', w')).
Proof.
  intros Hw Hs. unfold backupCmd. rewrite Hs. unfold save_stream. erewrite bind_ok by (by apply syscall_nofault). erewrite bind_ok by reflexivity.
  destruct (append_all_nofault dest (sk_sent k) (set_files (<[dest := []]> (w_files w)) w) Hw) as (w1 & H1 & Hw1).
  erewrite bind_ok by exact H1. erewrite bind_ok by reflexivity. erewrite bind_ok by (by apply syscall_nofault). eauto.
Qed.

(** [C4] A backup restores the database.  The database holds its collections under
    plain names in directories of these names, each with its invariant, no stray
    segment files and metadata that covers its sealed ids ([archivable]), and the
    paths can be named in an archive.  With a connection that carries everything and
    no failing system call the command succeeds.  Whenever it reports success,
    however many messages the connection carries and whichever system calls of the
    server and of the client fail on the way, the server's collections are as before
    with no files changed but those of secondary indexes, the destination holds as
    many bytes as reported and no other file of the client changed; and these bytes,
    unpacked into a fresh data directory and opened there with any configuration,
    system calls succeeding, give exactly the same collections, each with the same
    log. *)
Theorem backup_restores (s : GRPCServer) (h : Host) (w : World) (L : logs_of) (room : option nat) (dest : string) :
  Forall (archivable (db_dataDir (gs_db s)) L) (copies_of (gs_db s) (calm (h_world h))) →
  Forall (λ f, tar_name f.1 = true) (sk_sent (SnapshotTo (gs_db s) (MkSink [] None, h_world h)).2.1) →
  (room = None → no_faults (h_world h) → no_faults w → ∃ n st' w', backupCmd room dest (s, h, w) = (Ok n, (st', w'))) ∧
  ∀ n st' w', backupCmd room dest (s, h, w) = (Ok n, (st', w')) →
    ∃ w1 archive, st' = (s, MkHost w1 (h_dirs h)) ∧ kept_apart (sorted_pairs (db_collections (gs_db s))) (w_files (h_world h)) (w_files w1) ∧
      w_files w' = <[dest := archive]> (w_files w) ∧ n = Z.of_nat (length archive) ∧
      ∀ d' cfg h', fresh_host d' h' →
        ∃ h2 db' h3, extractSnapshot archive None d' h' = (Ok tt, h2) ∧ OpenDB d' cfg h2 = (Ok db', h3) ∧
          restores (copies_of (gs_db s) w1) L d' db' (h_world h3).
Proof.
  intros Ha Ht. pose proof (rpc_Snapshot_spec s h room) as Hspec. split.
  - intros -> Hw Hcw. assert (calm (h_world h) = h_world h) as Hcalm by (unfold no_faults in Hw; destruct h as [[] ?]; cbn in *; by subst).
    rewrite Hcalm in Ha. destruct (snapshot_restores (gs_db s) (h_world h) L Hw Ha) as (entries & w1 & E & _). unfold archive_file in *. rewrite E in Hspec.
    destruct (rpc_Snapshot (MkSink [] None) (s, h)) as [[[[]|c] k] st1] eqn:Hs; [|by destruct Hspec].
    destruct (backup_succeeds dest (s, h) w k st1 Hcw Hs) as (n & w' & H). eauto.
  - intros n st' w' (k & Hs & -> & Hf)%backup_ok. rewrite Hs in Hspec. unfold archive_file in *.
    destruct (SnapshotTo (gs_db s) (MkSink [] None, h_world h)) as [[u|e] [files w1]] eqn:E; [|done]. destruct Hspec as [-> [Hc _]].
    apply (SnapshotTo_ok (calm (h_world h))) in E as (entries & copies & -> & S2 & S3 & S4 & S5).
    2:{ intros name c Hin%elem_of_sorted_pairs. unfold copies_of in Ha. rewrite Forall_fmap, Forall_forall in Ha. apply (Ha _ Hin). }
    cbn [snd fst sk_sent] in *. unfold archive_bytes in Hc. rewrite (gz_whole entries Ht) in Hc. rewrite Hc in *. exists w1, (tar_gz entries).
    split_and!; [done..|]. intros d' cfg h' Hfresh. by apply (copies_restore (gs_db s) (h_world h) (calm (h_world h)) L copies entries).
Qed.
End backup.

(** ** Witness *)

(** A compressor that writes everything at the end. *)
Definition lazy_gzip (arch : Archive) : Gzip := {| gz_file _ _ := []; gz_close_tar _ := []; gz_close l := [tar_gz l] |}.

Lemma lazy_gzip_laws arch : @GzipLaws arch (lazy_gzip arch).
Proof.
  split. intros l _. assert (@gz_files (lazy_gzip arch) [] l = []) as ->; [|apply app_nil_r].
  generalize (@nil archive_file). induction l as [|f l IH]; intros b; [done|apply IH].
Qed.

Definition demo_service : GRPCServer := NewGRPCServer demo_db 0.
Definition demo_host : Host := MkHost demo_world {["u"]}.
Definition demo_backup (room : option nat) : result Z * (GRPCServer * Host * World) :=
  @backupCmd length_digest (lazy_gzip plain_archive) room "b.tar.gz" (demo_service, demo_host, h_world no_host).

(** A connection that breaks leaves an incomplete file, and the command says so. *)
Example broken_backup_reported : (demo_backup (Some 0)).1 = Err ErrOther ∧ w_files (demo_backup (Some 0)).2.2 !! "b.tar.gz" = Some [].
Proof. split; vm_compute; reflexivity. Qed.

Lemma backup_restores_witness :
  ∃ n st' w' w1 archive, demo_backup None = (Ok n, (st', w')) ∧ w_files w' = <["b.tar.gz" := archive]> (w_files (h_world no_host)) ∧
    ∃ h2 db' h3, @extractSnapshot plain_archive archive None "r" no_host = (Ok tt, h2) ∧
      @OpenDB length_digest "r" ring_of_four h2 = (Ok db', h3) ∧ restores (copies_of demo_db w1) demo_logs "r" db' (h_world h3).
Proof.
  assert (forallb (λ f, tar_name f.1) (sk_sent (@SnapshotTo length_digest _ _ demo_db (MkSink [] None, demo_world)).2.1) = true) as Ht
    by (vm_compute; reflexivity).
  destruct (@backup_restores length_digest plain_archive plain_archive_laws (lazy_gzip plain_archive) (lazy_gzip_laws plain_archive)
    demo_service demo_host (h_world no_host) demo_logs None "b.tar.gz" demo_archivable (tar_names _ Ht)) as [Hrun Hok].
  destruct (Hrun eq_refl eq_refl eq_refl) as (n & st' & w' & E). destruct (Hok n st' w' E) as (w1 & archive & _ & _ & Hf & _ & Hr).
  exists n, st', w', w1, archive. split; [exact E|]. split; [exact Hf|]. apply (Hr "r" ring_of_four no_host (no_host_fresh "r")).
Defined.
